(* ===== verification/_CoqProject ===== *)
-Q . S2P
Prelude.v
Text.v
IntLit.v
Lexer.v
Parser.v
Grammar.v
FilterText.v
Glob.v
Eval.v
BpfBase.v
Bindgen.v
RingMem.v
RingBuf.v
RingBufProps.v
RingSystem.v
Maps.v
Unified.v
MapProps.v
UnifiedProps.v
MapTyping.v
Helper.v
MapTable.v
MapSystem.v
MapDict.v
MapModel.v
MapRefine.v
Preproc.v
ProgLoad.v
HelperProps.v
Perf.v
PerfProps.v
StaticKey.v
Ddebug.v
DdebugGlob.v
DdebugProps.v
DdebugCmd.v
Ksym.v
KsymGen.v
KsymLookup.v
KsymBlob.v
KsymGenProps.v
TracePoint.v
TracePipe.v
TraceFs.v
TraceEvent.v
TraceProps.v
TraceClaims.v
TraceEventProps.v
TraceEventClaims.v
TraceReader.v
KprobeBase.v
KprobeArch.v
KprobeRv64.v
KprobeAArch64.v
KprobeLA64.v
KprobeX86.v
KprobeArchProps.v
Kprobe.v
KprobeProps.v
KprobeWorld.v
KprobeSteps.v
KprobeMach.v
KprobeClaims.v
Retprobe.v
RetprobeProps.v
RetprobeClaims.v
KprobeTramp.v
KprobeTrampProps.v
RetprobeTramp.v
FilterTest.v
MapTest.v
DdebugTest.v
KsymTest.v
ExampleTest.v
