(* ===== verification/Prelude.v ===== *)
(** * Verification of the ext_ktrace crates

    The repository is a family of Rust crates that give a kernel Linux's
    tracing: tracepoints, kprobes and uprobes, dynamic debug, a symbol
    table, and the BPF maps, rings and helpers that tracing programs use.
    This library models their code, file by file, and proves what makes each
    part correct and how the parts fit.

    ** The program and the files that model it

    [Prelude], [Text]: outcomes, machine integers, bytes, slices, sorting;
    digits, UTF-8, substring search: what the code uses of Rust's library.

    The tracepoint filter language (tp-lexer/src: lib.rs, internal.rs).
      [IntLit] literals; [Lexer] the [Lexer] and its tokens; [Parser] the
      recursive descent into [Expr]; [Grammar] the grammar it decides;
      [FilterText] writing an expression and reading it back; [Glob] [glob_match_bytes]; [Eval]
      schemas, contexts, field dispatch, [validate], [compile_with_schema]
      and [evaluate], whose third truth value stands for a missing field.

    BPF (bpf-basic/src).
      [BpfBase] error codes, flags, map metadata from [bpf_attr].
      [Bindgen]: the bit fields of linux_bpf.rs; each is its own register.
      [RingMem], [RingBuf], [RingBufProps], [RingSystem]: map/stream/ and
      helper/ringbuf.rs.  A heap of mapped rings; reservation, commit,
      output, dynamic pointers, pages; a queue of records as the
      specification of any interleaving of a program and its consumer.
      [Maps], [MapProps]: map/array.rs, hash.rs, lru.rs, queue.rs, flags.rs
      behind the trait [BpfMapCommonOps], a class.
      [Unified], [UnifiedProps], [MapTyping], [MapTable], [MapSystem],
      [MapDict], [MapModel], [MapRefine]: map/mod.rs.  Per-CPU storage,
      [UnifiedMap], [bpf_map_create], the map commands of bpf(2), the table
      of maps they and the helpers act on as a transition system, the
      specification of a hash map as a dictionary, and an abstract map for
      every kind behind the interface [Refines].
      [Preproc], [ProgLoad]: preprocessor.rs, prog/mod.rs, raw_tracepoint.rs.
      [Helper], [HelperProps]: helper/mod.rs, helper/consts.rs.
      [Perf], [PerfProps]: perf/bpf.rs, perf/util.rs.

    Dynamic debug (ddebug/src: lib.rs, runtime.rs, control.rs).
      [Ddebug] sites, flags, commands, the control file; [DdebugGlob],
      [DdebugProps], [DdebugCmd].  [StaticKey] is the interface to the
      static-keys crate, shared with the tracepoints.

    The symbol table (ksym/src: lib.rs, bin/gen_ksym.rs).
      [Ksym] reader, [KsymGen] generator; [KsymLookup], [KsymBlob],
      [KsymGenProps].

    Tracepoints (ktracepoint/src).
      [TracePoint] point.rs, ptr.rs: callbacks and their registration;
      [TracePipe] trace_pipe.rs; [TraceFs] lib.rs: the control files and
      the initialisation; [TraceEvent] basic_macro.rs: what
      [define_event_trace!] generates; [TraceProps], [TraceClaims],
      [TraceEventProps], [TraceEventClaims]; [TraceReader] the host of
      examples/usage.rs, from a hit to the line printed.  An event's filter is the
      language above, run on the bytes of its record with the schema the
      macro generates.

    Probes (kprobe/src).
      [KprobeBase] arch/mod.rs and the kernel's interface; [KprobeArch],
      [KprobeRv64], [KprobeAArch64], [KprobeLA64], [KprobeX86] the four
      architectures; [KprobeArchProps] the class [ProbeArchLaws], what an
      architecture promises the manager, with its four instances;
      [Kprobe] manager.rs, kprobe/mod.rs, uprobe/mod.rs, lib.rs: registration,
      removal and hits over any architecture; [KprobeProps], [KprobeWorld],
      [KprobeSteps] its invariant and its steps; [KprobeMach] a concrete
      kernel; [KprobeClaims].  [Retprobe] arch/retprobe.rs and the callbacks
      of the return trampolines; [RetprobeProps], [RetprobeClaims].
      [KprobeTramp] the trampolines themselves, naked assembly, as programs
      of a small machine; [KprobeTrampProps] their contracts; [RetprobeTramp]
      the class [TrampLaws], which joins a contract to the callback's model,
      and the return of a probed function.

    [FilterTest], [MapTest], [DdebugTest], [KsymTest], [ExampleTest]: the unit
    tests and the examples of the crates as programs on the model; all of them
    give what they should.

    ** What the theorems show

    Data structures: over any interleaving of its operations the ring buffer
    is a queue of records ([RingSystem.ringbuf_refines_queue]), and it stays
    in bounds whatever user space writes to its positions; the perf
    ring writes an event or counts it as lost, exactly by the room it has; the array map refines a list, the hash map
    a bounded ordered map, the LRU map evicts what it should; the command
    and lookup paths of the map table keep every object of the type its
    metadata declares and panic only where an array's size overflows, a buffer
    is missing or a program names a CPU that does not exist
    ([MapSystem.map_table_typed]), and over
    any interleaving of commands and helper calls a hash map is a dictionary
    ([MapDict.hash_map_is_dictionary]) and every kind of map its abstract map
    ([MapRefine.maps_refine_models]), with two differences from the commands'
    documentation that the code has ([MapDict.lookup_and_delete_ignores_flags],
    [MapRefine.frozen_array_writable]).

    Languages: parsing of filters is total and decides their grammar
    ([Grammar.parse_iff_grammar]), every expression it returns on an ASCII
    text can be written and read back ([FilterText.filter_text_roundtrip]),
    the glob matchers decide their declarative relations, a compiled filter computes the truth of its
    formula, dynamic-debug commands round-trip and act on what they select,
    but for a literal star in a site's texts that a wildcard may miss
    ([DdebugGlob.dd_glob_star_missed]).

    Symbol table: what the generator writes, the reader maps back, and both
    lookups are correct on it, for any order of the hash map, with ASCII names
    and fewer tokens than the limit ([KsymGenProps.ksym_token_511]).

    Tracepoints: a tracepoint's key is on exactly when it has callbacks, and
    from any hits the reader of the pipe gets the newest recorded ones, line
    by line ([TraceReader.trace_pipe_shows_events]).

    Probes: in every reachable state of the probe manager its lists, the live
    probes and the patched code agree, and once all probes are gone the code,
    the slots and the processes' pages are what they were.  Reachable means
    that the kernel sees to three things the manager does not check
    ([KprobeSteps]: [in_memory], [fresh_code], [apart_processes]);
    [KprobeClaims.overlapping_probes_corrupt] and
    [KprobeClaims.user_pages_collide] show what happens otherwise.  While
    return probes stay registered every call under them returns to its caller,
    and the trampoline that takes it there restores what the caller relies on,
    on each architecture.

    Each theorem that is a claim carries an id [C<n>] in its comment; a
    [_witness] lemma applies it at a concrete input.  Lemmas that end in
    [_panics], [_accepted], [_wraps] and the like record where the code does
    not do what it means to.

    ** Conventions

    Outcomes.  Code that can fail returns [res E A]: [Ok], [Err], [Panic]
    (failed index, [unwrap], assertion, or undefined behaviour, which the
    model does not continue from) or [OutOfFuel].

    Integers are [Z] at their width, with wrap-around written out; unguarded
    arithmetic is [arith w z], which panics or wraps by [BuildMode], so a
    theorem holds of builds with and without overflow checks unless it names
    one.  The targets
    are 64-bit and little-endian.  Bytes and strings are [list Z].

    State is passed explicitly; what Rust shares through [Arc], [Mutex] or
    [&'static] lives in a heap indexed by address ([Kprobe], [Retprobe],
    [TracePoint], [RingBuf]).  Operations under a lock are atomic steps;
    orders of steps are sequences or step relations.  Relaxed memory is not
    modelled: the ring buffer's positions are read and written in program
    order.

    Fuel.  Loops that are not structural take fuel from the size of their
    input: the lexer and the parser from the length of the source, the glob
    matchers from pattern and text, the wildcard matcher from their product,
    the binary searches and the scans from the length of the table, the
    preprocessor from the number of instructions.  Totality theorems
    ([Parser.parse_total], [Glob.glob_match_correct],
    [DdebugGlob.dd_glob_correct], [KsymLookup.ksym_lookup_name],
    [HelperProps.preprocess_correct], [HelperProps.format_specifiers_counted])
    show that it is enough.

    Interfaces.  What the crates leave to the kernel that embeds them or to
    third-party crates is a class, its documented behaviour a class of laws
    with a concrete instance: pages and virtual mappings ([RingBuf]), per-CPU
    storage, user memory ([Unified]), [lru::LruCache] ([Maps], [TracePipe]),
    static keys ([StaticKey]), the tracepoint registry ([TraceFs]), code,
    executable slots and executable pages of processes ([KprobeBase]), the x86 decoder ([KprobeX86]),
    instructions of BPF programs ([Preproc]).

    ** Not modelled

    linux_bpf.rs is bindgen output: the enumerations and record headers that
    the modelled code reads and the bit fields are translated; the rest is
    constants and plain data.  A BPF program can write through the pointer a
    map lookup returns; here a lookup returns the bytes.  The traits of
    bpf-basic/src/lib.rs have no bodies here; they are the interfaces above.
    Also left out: the [Debug] and [Display] formatting, the logging,
    [PerfEventIoc] (a table of ioctl numbers nothing here reads), the harness
    of the ddebug tests and examples, which patches the running process. *)
From stdpp Require Export base tactics option list numbers strings gmap sorting.
From Stdlib Require Export Ascii.

Open Scope Z_scope.

(** * Outcomes

    A Rust function that returns [Result<A, E>] has four observable
    outcomes here: it returns [Ok], it returns [Err], it panics (failed
    index, [unwrap], [unreachable!], overflow with checks on), or the model
    ran out of the fuel that bounds a loop.  Totality theorems rule out the
    last one. *)
Inductive res (E A : Type) : Type :=
  | Ok (a : A)
  | Err (e : E)
  | Panic
  | OutOfFuel.
Arguments Ok {E A} a.
Arguments Err {E A} e.
Arguments Panic {E A}.
Arguments OutOfFuel {E A}.

#[export] Instance res_ret E : MRet (res E) := λ A a, Ok a.
#[export] Instance res_bind E : MBind (res E) := λ A B f m,
  match m with
  | Ok a => f a
  | Err e => Err e
  | Panic => Panic
  | OutOfFuel => OutOfFuel
  end.
#[export] Instance res_fmap E : FMap (res E) := λ A B f m,
  match m with
  | Ok a => Ok (f a)
  | Err e => Err e
  | Panic => Panic
  | OutOfFuel => OutOfFuel
  end.
#[export] Instance res_eq_dec `{EqDecision E, EqDecision A} : EqDecision (res E A).
Proof. solve_decision. Defined.

(** [map_err] of [Result]. *)
Definition map_err {E F A} (f : E → F) (m : res E A) : res F A :=
  match m with
  | Ok a => Ok a
  | Err e => Err (f e)
  | Panic => Panic
  | OutOfFuel => OutOfFuel
  end.

(** [Option::ok_or] and [Option::unwrap]. *)
Definition ok_or {E A} (o : option A) (e : E) : res E A :=
  match o with Some a => Ok a | None => Err e end.
Definition unwrap {E A} (o : option A) : res E A :=
  match o with Some a => Ok a | None => Panic end.

(** [safe m Q R]: [m] neither panics nor runs out of fuel, its value
    satisfies [Q] and its error satisfies [R]. *)
Definition safe {E A} (m : res E A) (Q : A → Prop) (R : E → Prop) : Prop :=
  match m with
  | Ok a => Q a
  | Err e => R e
  | Panic | OutOfFuel => False
  end.

Lemma safe_bind {E A B} (m : res E A) (f : A → res E B) Q Q' R :
  safe m Q R → (∀ a, Q a → safe (f a) Q' R) → safe (m ≫= f) Q' R.
Proof. destruct m; simpl; eauto. Qed.

Lemma safe_mono {E A} (m : res E A) (Q Q' : A → Prop) (R : E → Prop) :
  safe m Q R → (∀ a, Q a → Q' a) → safe m Q' R.
Proof. destruct m; simpl; auto. Qed.

Lemma safe_ok {E A} (m : res E A) Q R a : safe m Q R → m = Ok a → Q a.
Proof. intros H ->; exact H. Qed.

Lemma safe_no_panic {E A} (m : res E A) Q R : safe m Q R → m ≠ Panic.
Proof. by destruct m. Qed.

Lemma safe_fuel {E A} (m : res E A) Q R : safe m Q R → m ≠ OutOfFuel.
Proof. by destruct m. Qed.

Lemma bind_ok {E A B} (m : res E A) (f : A → res E B) b :
  m ≫= f = Ok b → ∃ a, m = Ok a ∧ f a = Ok b.
Proof. destruct m; simpl; intros H; simplify_eq; eauto. Qed.

(** [res_rel P m n]: the outcomes agree; the values are related by [P]. *)
Definition res_rel {E A B} (P : A → B → Prop) (m : res E A) (n : res E B) : Prop :=
  match m, n with
  | Ok a, Ok b => P a b
  | Err e, Err e' => e = e'
  | Panic, Panic | OutOfFuel, OutOfFuel => True
  | _, _ => False
  end.

Lemma res_rel_bind {E A B A' B'} (P : A → B → Prop) (Q : A' → B' → Prop) (m : res E A) n f g :
  res_rel P m n → (∀ a b, P a b → res_rel Q (f a) (g b)) → res_rel Q (m ≫= f) (n ≫= g).
Proof. destruct m, n; simpl; intros Hm Hf; try done; auto. Qed.

Lemma res_rel_mono {E A B} (P Q : A → B → Prop) (m : res E A) n :
  res_rel P m n → (∀ a b, P a b → Q a b) → res_rel Q m n.
Proof. destruct m, n; simpl; auto. Qed.

(** [decides m Q]: the boolean computation [m] returns, and decides [Q]. *)
Definition decides {E} (m : res E bool) (Q : Prop) : Prop := ∃ b, m = Ok b ∧ (b = true ↔ Q).

Lemma decides_iff {E} (m : res E bool) (Q Q' : Prop) : (Q ↔ Q') → decides m Q → decides m Q'.
Proof. intros HQ (b & -> & Hb). exists b. by rewrite Hb. Qed.

Lemma decides_false {E} (Q : Prop) : ¬ Q → @decides E (Ok false) Q.
Proof. intros HQ. exists false. split; [done|]. by split. Qed.

Lemma decides_true {E} (Q : Prop) : Q → @decides E (Ok true) Q.
Proof. intros HQ. exists true. split; [done|]. by split. Qed.

Lemma decides_ok {E} (b : bool) (Q : Prop) : (b = true ↔ Q) → @decides E (Ok b) Q.
Proof. intros Hb. by exists b. Qed.

(** * Machine integers

    A [w]-bit unsigned integer is a [Z] in [0, 2^w); a signed one is a [Z]
    in [-2^(w-1), 2^(w-1)).  Casts wrap as Rust's [as] does. *)
Definition wrapu (w z : Z) : Z := z mod 2 ^ w.
Definition wraps (w z : Z) : Z := (z + 2 ^ (w - 1)) mod 2 ^ w - 2 ^ (w - 1).
Definition in_u (w z : Z) : bool := (0 <=? z) && (z <? 2 ^ w).
Definition in_s (w z : Z) : bool := (- 2 ^ (w - 1) <=? z) && (z <? 2 ^ (w - 1)).

(** Whether the build has overflow checks ([debug] profile) or wraps
    ([release] profile): a parameter of every definition that does
    unguarded arithmetic. *)
Class BuildMode := overflow_checks : bool.

(** The value of an unsigned arithmetic expression whose exact value is
    [z]: panic or wrap when it does not fit. *)
Definition arith `{BuildMode} {E} (w z : Z) : res E Z :=
  if in_u w z then Ok z
  else if overflow_checks then Panic else Ok (wrapu w z).

Lemma in_u_spec w z : in_u w z = true ↔ 0 ≤ z < 2 ^ w.
Proof. unfold in_u. rewrite andb_true_iff, Z.leb_le, Z.ltb_lt. done. Qed.

Lemma in_s_spec w z : in_s w z = true ↔ - 2 ^ (w - 1) ≤ z < 2 ^ (w - 1).
Proof. unfold in_s. rewrite andb_true_iff, Z.leb_le, Z.ltb_lt. done. Qed.

Lemma wrapu_small w z : 0 ≤ z < 2 ^ w → wrapu w z = z.
Proof. apply Z.mod_small. Qed.

Lemma wrapu_range w z : 0 ≤ w → 0 ≤ wrapu w z < 2 ^ w.
Proof. intros. apply Z.mod_pos_bound, Z.pow_pos_nonneg; lia. Qed.

Lemma wraps_small w z : 0 < w → - 2 ^ (w - 1) ≤ z < 2 ^ (w - 1) → wraps w z = z.
Proof.
  intros Hw Hz. unfold wraps.
  assert (2 ^ w = 2 * 2 ^ (w - 1)) as Hp.
  { replace w with (Z.succ (w - 1)) at 1 by lia. rewrite Z.pow_succ_r; lia. }
  rewrite Z.mod_small; lia.
Qed.

Lemma wraps_range w z : 0 < w → - 2 ^ (w - 1) ≤ wraps w z < 2 ^ (w - 1).
Proof.
  intros Hw. unfold wraps.
  assert (2 ^ w = 2 * 2 ^ (w - 1)) as Hp.
  { replace w with (Z.succ (w - 1)) at 1 by lia. rewrite Z.pow_succ_r; lia. }
  pose proof (Z.pow_pos_nonneg 2 (w - 1) ltac:(lia) ltac:(lia)).
  pose proof (Z.mod_pos_bound (z + 2 ^ (w - 1)) (2 ^ w)). lia.
Qed.

Lemma land_mask k p : 0 ≤ k → Z.land p (2 ^ k - 1) = p mod 2 ^ k.
Proof. intros. rewrite <- Z.land_ones by done. by rewrite Z.ones_equiv, Z.sub_1_r. Qed.

Lemma land_lnot_mask k p : 0 ≤ k → Z.land p (Z.lnot (2 ^ k - 1)) = p - p mod 2 ^ k.
Proof.
  intros Hk. rewrite <- Z.ldiff_land.
  replace (2 ^ k - 1) with (Z.ones k) by (rewrite Z.ones_equiv; lia).
  rewrite Z.ldiff_ones_r by done. rewrite Z.shiftr_div_pow2, Z.shiftl_mul_pow2 by done.
  pose proof (Z.div_mod p (2 ^ k) ltac:(apply Z.pow_nonzero; lia)). lia.
Qed.

Lemma bits_bound n z : 0 ≤ n → 0 ≤ z → (∀ i, n ≤ i → Z.testbit z i = false) → z < 2 ^ n.
Proof. intros Hn Hz Hi. by apply Z.bounded_iff_bits_nonneg. Qed.
Lemma bound_bits n z i : 0 ≤ n → 0 ≤ z < 2 ^ n → n ≤ i → Z.testbit z i = false.
Proof. intros Hn Hz Hi. apply (proj1 (Z.bounded_iff_bits_nonneg n z ltac:(lia) ltac:(lia)) ltac:(lia)). lia. Qed.

Lemma arith_ok `{BuildMode} {E} w z : 0 ≤ z < 2 ^ w → @arith _ E w z = Ok z.
Proof. intros Hz. unfold arith. by rewrite (proj2 (in_u_spec w z)). Qed.

(** * Bytes and strings

    A byte is a [Z] in [0, 256); a byte slice or the UTF-8 bytes of a
    string are a [list Z]. *)
Abbreviation str := (list Z).

Definition ch (c : ascii) : Z := Z.of_N (N_of_ascii c).
Definition bs (s : string) : str := map ch (String.list_ascii_of_string s).

Definition is_byte (b : Z) : Prop := 0 ≤ b < 256.

(** Slices [l[a..b]] and [l[a..b].copy_from_slice(xs)]; [None] is the
    panic of an index out of range or of a length mismatch. *)
Definition slice {A} (l : list A) (a b : nat) : option (list A) :=
  if (a <=? b)%nat && (b <=? length l)%nat then Some (take (b - a) (drop a l)) else None.
Definition splice {A} (l : list A) (a : nat) (xs : list A) : list A :=
  take a l ++ xs ++ drop (a + length xs) l.
Definition slice_copy {A} (l : list A) (a b : nat) (xs : list A) : option (list A) :=
  if (a <=? b)%nat && (b <=? length l)%nat && (b - a =? length xs)%nat
  then Some (splice l a xs) else None.

(** Little-endian integers: [to_le_bytes] and [from_le_bytes] at [n] bytes
    (the supported targets are little-endian, so these are also the
    native-endian conversions). *)
Fixpoint le_enc (n : nat) (z : Z) : list Z :=
  match n with
  | O => []
  | S n => z mod 256 :: le_enc n (z / 256)
  end.
Fixpoint le_dec (l : list Z) : Z :=
  match l with
  | [] => 0
  | b :: l => b + 256 * le_dec l
  end.

Lemma length_le_enc n z : length (le_enc n z) = n.
Proof. revert z. induction n; simpl; auto. Qed.

Lemma le_enc_bytes n z : Forall is_byte (le_enc n z).
Proof.
  revert z. induction n as [|n IH]; intros z; simpl; constructor; auto.
  unfold is_byte. apply Z.mod_pos_bound. lia.
Qed.

Lemma le_dec_enc n z : le_dec (le_enc n z) = z mod 2 ^ (8 * Z.of_nat n).
Proof.
  revert z. induction n as [|n IH]; intros z; simpl le_enc; simpl le_dec.
  - simpl. by rewrite Z.mod_1_r.
  - rewrite IH. replace (8 * Z.of_nat (S n)) with (8 + 8 * Z.of_nat n) by lia.
    rewrite Z.pow_add_r by lia. change (2 ^ 8) with 256.
    rewrite Z.rem_mul_r; lia.
Qed.

Lemma le_dec_range l : Forall is_byte l → 0 ≤ le_dec l < 2 ^ (8 * Z.of_nat (length l)).
Proof.
  induction 1 as [|b l Hb _ IH]; simpl le_dec; [simpl; lia|].
  simpl length. replace (8 * Z.of_nat (S (length l))) with (8 + 8 * Z.of_nat (length l)) by lia.
  rewrite Z.pow_add_r by lia. change (2 ^ 8) with 256.
  unfold is_byte in Hb. nia.
Qed.

Lemma le_enc_dec l : Forall is_byte l → le_enc (length l) (le_dec l) = l.
Proof.
  induction 1 as [|b l Hb _ IH]; [done|]. simpl. unfold is_byte in Hb. f_equal.
  - replace (b + 256 * le_dec l) with (b + le_dec l * 256) by lia.
    rewrite Z_mod_plus_full. apply Z.mod_small. lia.
  - replace (b + 256 * le_dec l) with (b + le_dec l * 256) by lia.
    rewrite Z_div_plus_full by lia. rewrite Z.div_small by lia. exact IH.
Qed.

(** UTF-8 bytes of the [char] that [b as char] makes of a byte. *)
Definition push_latin1 (b : Z) : str :=
  if b <? 128 then [b] else [192 + b / 64; 128 + b mod 64].

(** * Slices: shared lemmas *)
Lemma slice_some {A} (l : list A) a b :
  (a ≤ b)%nat → (b ≤ length l)%nat → slice l a b = Some (take (b - a) (drop a l)).
Proof.
  intros H1 H2. unfold slice.
  by rewrite (proj2 (Nat.leb_le _ _) H1), (proj2 (Nat.leb_le _ _) H2).
Qed.

Lemma slice_inv {A} (l : list A) a b s :
  slice l a b = Some s →
  (a ≤ b ≤ length l)%nat ∧ s = take (b - a) (drop a l) ∧ length s = (b - a)%nat.
Proof.
  unfold slice. destruct (a <=? b)%nat eqn:E1, (b <=? length l)%nat eqn:E2; simpl; intros [= <-].
  apply Nat.leb_le in E1, E2. rewrite length_take, length_drop. repeat split; lia.
Qed.

Lemma length_splice {A} (l : list A) a xs :
  (a + length xs ≤ length l)%nat → length (splice l a xs) = length l.
Proof. intros. unfold splice. rewrite !length_app, length_take, length_drop. lia. Qed.

Lemma slice_copy_some {A} (l : list A) a b xs :
  (a ≤ b ≤ length l)%nat → length xs = (b - a)%nat →
  slice_copy l a b xs = Some (splice l a xs).
Proof.
  intros [H1 H2] H3. unfold slice_copy.
  by rewrite (proj2 (Nat.leb_le _ _) H1), (proj2 (Nat.leb_le _ _) H2), H3, Nat.eqb_refl.
Qed.

Lemma slice_copy_inv {A} (l : list A) a b xs l' :
  slice_copy l a b xs = Some l' →
  (a ≤ b ≤ length l)%nat ∧ length xs = (b - a)%nat ∧ l' = splice l a xs.
Proof.
  unfold slice_copy.
  destruct (a <=? b)%nat eqn:E1, (b <=? length l)%nat eqn:E2,
    (b - a =? length xs)%nat eqn:E3; simpl; intros [= <-].
  apply Nat.leb_le in E1, E2. apply Nat.eqb_eq in E3. repeat split; lia.
Qed.

(** Reading back what was written, and reading elsewhere. *)
Lemma splice_lookup_in {A} (l : list A) a xs i :
  (a + length xs ≤ length l)%nat → (a ≤ i < a + length xs)%nat →
  splice l a xs !! i = xs !! (i - a)%nat.
Proof.
  intros Hl Hi. unfold splice.
  rewrite lookup_app_r by (rewrite length_take; lia).
  rewrite length_take, Nat.min_l by lia. rewrite lookup_app_l by lia. done.
Qed.

Lemma splice_lookup_out {A} (l : list A) a xs i :
  (a + length xs ≤ length l)%nat → (i < a ∨ a + length xs ≤ i)%nat →
  splice l a xs !! i = l !! i.
Proof.
  intros Hl [Hi|Hi]; unfold splice.
  - rewrite lookup_app_l by (rewrite length_take; lia). by rewrite lookup_take_lt by lia.
  - rewrite lookup_app_r by (rewrite length_take; lia).
    rewrite length_take, Nat.min_l by lia.
    rewrite lookup_app_r by lia. rewrite lookup_drop. f_equal. lia.
Qed.

Lemma slice_splice_same {A} (l : list A) a xs :
  (a + length xs ≤ length l)%nat →
  slice (splice l a xs) a (a + length xs) = Some xs.
Proof.
  intros Hl. rewrite slice_some by (rewrite ?length_splice by done; lia). f_equal.
  unfold splice. rewrite drop_app_length' by (rewrite length_take; lia).
  rewrite take_app_length' by lia. done.
Qed.

Lemma slice_splice_other {A} (l : list A) a xs b c :
  (a + length xs ≤ length l)%nat → (c ≤ a ∨ a + length xs ≤ b)%nat →
  slice (splice l a xs) b c = slice l b c.
Proof.
  intros Hl Hd. unfold slice. rewrite length_splice by done.
  destruct ((b <=? c)%nat && (c <=? length l)%nat) eqn:E; [|done].
  apply andb_true_iff in E as [E1%Nat.leb_le E2%Nat.leb_le].
  f_equal. apply list_eq. intros i. rewrite !lookup_take.
  case_decide; [|done]. rewrite !lookup_drop.
  apply splice_lookup_out; [done|lia].
Qed.

Lemma slice_app_mid {A} (pre x post : list A) :
  slice (pre ++ x ++ post) (length pre) (length pre + length x) = Some x.
Proof.
  rewrite slice_some by (rewrite ?length_app; lia). f_equal.
  rewrite drop_app_length. replace (_ - _)%nat with (length x) by lia. apply take_app_length.
Qed.

(** * Automation *)

(** Case-split on the boolean comparisons of a goal or a hypothesis and
    turn them into propositions. *)
Ltac bdestruct_step :=
  match goal with
  | |- context [?a =? ?b] => destruct (Z.eqb_spec a b)
  | |- context [?a <? ?b] => destruct (Z.ltb_spec a b)
  | |- context [?a <=? ?b] => destruct (Z.leb_spec a b)
  | |- context [(?a =? ?b)%nat] => destruct (Nat.eqb_spec a b)
  | |- context [(?a <? ?b)%nat] => destruct (Nat.ltb_spec a b)
  | |- context [(?a <=? ?b)%nat] => destruct (Nat.leb_spec a b)
  | H : context [?a =? ?b] |- _ => destruct (Z.eqb_spec a b)
  | H : context [?a <? ?b] |- _ => destruct (Z.ltb_spec a b)
  | H : context [?a <=? ?b] |- _ => destruct (Z.leb_spec a b)
  | H : context [(?a =? ?b)%nat] |- _ => destruct (Nat.eqb_spec a b)
  | H : context [(?a <? ?b)%nat] |- _ => destruct (Nat.ltb_spec a b)
  | H : context [(?a <=? ?b)%nat] |- _ => destruct (Nat.leb_spec a b)
  end.
Ltac bdestruct_all := repeat bdestruct_step.

(** Split a hypothesis [m ≫= f = Ok b] into its steps. *)
Ltac bind_inv :=
  repeat match goal with
  | H : _ ≫= _ = Ok _ |- _ =>
      let a := fresh "a" in let Ha := fresh "Ha" in
      apply bind_ok in H as (a & Ha & H)
  end.

(** Perform the first arithmetic step of a computation, when it fits. *)
Ltac arith_step :=
  match goal with
  | |- (@arith ?m ?E ?w ?z ≫= _) = _ =>
      rewrite (@arith_ok m E w z) by lia; cbn [mbind res_bind]
  | |- context [@arith ?m ?E ?w ?z ≫= _] =>
      rewrite (@arith_ok m E w z) by lia; cbn [mbind res_bind]
  end.

(** * Sorting

    [slice::sort_by] is stable; insertion from the right computes its result. *)
Fixpoint insert_by {A} (cmp : A → A → comparison) (x : A) (l : list A) : list A :=
  match l with
  | [] => [x]
  | y :: l' => match cmp x y with Gt => y :: insert_by cmp x l' | _ => x :: l end
  end.
Definition sort_by {A} (cmp : A → A → comparison) (l : list A) : list A := foldr (insert_by cmp) [] l.

Section sorting.
Context {A : Type} (cmp : A → A → comparison).

Lemma insert_by_perm x l : insert_by cmp x l ≡ₚ x :: l.
Proof. induction l as [|y l IH]; simpl; [done|]. destruct (cmp x y); try done. rewrite IH. constructor. Qed.
Lemma sort_by_perm l : sort_by cmp l ≡ₚ l.
Proof. induction l as [|x l IH]; simpl; [done|]. by rewrite insert_by_perm, IH. Qed.

Definition cmp_le (x y : A) : Prop := cmp x y ≠ Gt.

Lemma sort_by_sorted l : (∀ x y, cmp y x = CompOpp (cmp x y)) → Sorted cmp_le (sort_by cmp l).
Proof.
  intros Hanti. induction l as [|x l IH]; simpl; [constructor|].
  induction IH as [|y l' Hl IHl Hhd]; simpl; [repeat constructor|].
  pose proof (Hanti x y) as Ha. unfold cmp_le in *.
  destruct (cmp x y) eqn:Hxy; [repeat constructor; try done; congruence..|].
  constructor; [done|]. destruct l' as [|z l']; simpl; [constructor; by rewrite Ha|].
  destruct (cmp x z); constructor; try (by rewrite Ha); by inversion Hhd.
Qed.
End sorting.

Create HintDb ktrace.
#[export] Hint Resolve safe_no_panic safe_fuel le_enc_bytes : ktrace.
Create Rewrite HintDb ktrace_len.
#[export] Hint Rewrite @length_le_enc @length_app @length_take @length_drop : ktrace_len.
