(* ===== verification/Text.v ===== *)
(** Text: digits of numbers as the standard library parses and prints them,
    [char]s and their UTF-8 bytes, and the substring searches of [str]. *)
From S2P Require Import Prelude.

(** ** Numbers *)

(** [core::num::IntErrorKind]. *)
Inductive IntErrorKind := IntEmpty | InvalidDigit | PosOverflow | NegOverflow.

#[export] Instance IntErrorKind_eq_dec : EqDecision IntErrorKind.
Proof. solve_decision. Defined.

(** The digit loop of [from_str_radix] for a non-negative value up to [max]. *)
Definition to_digit (radix c : Z) : option Z :=
  let d :=
    if (ch "0" <=? c) && (c <=? ch "9") then Some (c - ch "0")
    else if (ch "a" <=? c) && (c <=? ch "z") then Some (c - ch "a" + 10)
    else if (ch "A" <=? c) && (c <=? ch "Z") then Some (c - ch "A" + 10)
    else None in
  match d with
  | Some d => if d <? radix then Some d else None
  | None => None
  end.

Fixpoint digits_pos (max radix acc : Z) (l : str) : res IntErrorKind Z :=
  match l with
  | [] => Ok acc
  | c :: l =>
      match to_digit radix c with
      | None => Err InvalidDigit
      | Some d =>
          if max <? acc * radix then Err PosOverflow
          else if max <? acc * radix + d then Err PosOverflow
          else digits_pos max radix (acc * radix + d) l
      end
  end.

(** Reference rendering, and [Display] of unsigned integers in base 10. *)
Definition digit_char (d : Z) : Z := if d <? 10 then ch "0" + d else ch "a" + d - 10.

Fixpoint show_digits (fuel : nat) (base n : Z) (acc : str) : str :=
  match fuel with
  | O => acc
  | S f =>
      let acc := digit_char (n mod base) :: acc in
      if n <? base then acc else show_digits f base (n / base) acc
  end.

(** [64] digits are enough for every [i64] in every base from 2. *)
Definition show_u (base n : Z) : str := show_digits 64 base n [].
Lemma to_digit_char base d : 2 ≤ base ≤ 16 → 0 ≤ d < base → to_digit base (digit_char d) = Some d.
Proof.
  intros Hb Hd. unfold to_digit, digit_char.
  change (ch "0") with 48. change (ch "9") with 57. change (ch "a") with 97.
  change (ch "z") with 122. change (ch "A") with 65. change (ch "Z") with 90.
  bdestruct_all; simpl; bdestruct_all; simpl; try lia; f_equal; lia.
Qed.

Lemma digits_pos_show max base fuel n acc :
  2 ≤ base ≤ 16 → 0 ≤ n ≤ max → n < base ^ Z.of_nat fuel →
  digits_pos max base 0 (show_digits fuel base n acc) = digits_pos max base n acc.
Proof.
  intros Hb. revert n acc. induction fuel as [|f IH]; intros n acc Hn Hlt.
  { simpl in *. replace n with 0 by lia. done. }
  cbn [show_digits]. pose proof (Z.mod_pos_bound n base ltac:(lia)) as Hm.
  pose proof (Z.div_mod n base ltac:(lia)) as Hdm.
  destruct (Z.ltb_spec n base).
  - cbn [digits_pos]. rewrite to_digit_char by lia.
    rewrite Z.mod_small by lia. rewrite Z.mul_0_l, Z.add_0_l.
    rewrite !(proj2 (Z.ltb_ge _ _)) by lia. done.
  - rewrite IH.
    + cbn [digits_pos]. rewrite to_digit_char by lia.
      rewrite !(proj2 (Z.ltb_ge _ _)) by nia. f_equal. nia.
    + split; [apply Z.div_pos; lia|]. apply Z.le_trans with n; [apply Z.div_le_upper_bound; nia|lia].
    + apply Z.div_lt_upper_bound; [lia|].
      rewrite <- Z.pow_succ_r by lia. by rewrite <- Nat2Z.inj_succ.
Qed.

Lemma show_digits_not_nil fuel base n acc : acc ≠ [] → show_digits fuel base n acc ≠ [].
Proof.
  revert n acc. induction fuel as [|f IH]; intros n acc Hacc; simpl; [done|].
  destruct (n <? base); [done|]. by apply IH.
Qed.

Lemma show_digits_S_not_nil f base n acc : show_digits (S f) base n acc ≠ [].
Proof. cbn [show_digits]. destruct (n <? base); [done|]. by apply show_digits_not_nil. Qed.

Lemma show_u_not_nil base n : show_u base n ≠ [].
Proof. apply (show_digits_S_not_nil 63). Qed.

(** Every character of a rendering is a digit of the base. *)
Lemma show_digits_Forall (P : Z → Prop) fuel base n acc :
  2 ≤ base → (∀ d, 0 ≤ d < base → P (digit_char d)) → Forall P acc →
  Forall P (show_digits fuel base n acc).
Proof.
  intros Hb HP. revert n acc. induction fuel as [|f IH]; intros n acc Hacc; [done|].
  simpl. assert (Forall P (digit_char (n mod base) :: acc)).
  { constructor; [|done]. apply HP, Z.mod_pos_bound. lia. }
  destruct (n <? base); auto.
Qed.

Lemma digits_pos_range max radix acc l v :
  0 ≤ radix → 0 ≤ acc ≤ max → digits_pos max radix acc l = Ok v → 0 ≤ v ≤ max.
Proof.
  intros Hr. revert acc. induction l as [|c l IH]; intros acc Hacc; simpl; [by intros [= <-]|].
  destruct (to_digit radix c) as [d|] eqn:Hd; [|done].
  assert (0 ≤ d).
  { revert Hd. unfold to_digit. change (ch "0") with 48. change (ch "9") with 57.
    change (ch "a") with 97. change (ch "z") with 122. change (ch "A") with 65. change (ch "Z") with 90.
    bdestruct_all; simpl; bdestruct_all; intros; simplify_eq; lia. }
  bdestruct_all; try done. apply IH. nia.
Qed.


Lemma digits_pos_safe max radix acc l : safe (digits_pos max radix acc l) (λ _, True) (λ _, True).
Proof.
  revert acc. induction l as [|c l IH]; intros acc; simpl; [done|].
  destruct (to_digit radix c); [|done]. repeat case_match; done || apply IH.
Qed.

(** [str::parse::<uN>]: an optional plus sign, then digits. *)
Definition parse_unsigned (w : Z) (s : str) : res IntErrorKind Z :=
  match s with
  | [] => Err IntEmpty
  | c :: rest =>
      if c =? ch "+" then match rest with [] => Err InvalidDigit | _ => digits_pos (2 ^ w - 1) 10 0 rest end
      else digits_pos (2 ^ w - 1) 10 0 s
  end.

Lemma digit_char_range d : 0 ≤ d < 10 → ch "0" ≤ digit_char d ≤ ch "9".
Proof. intros. unfold digit_char. change (ch "0") with 48. change (ch "9") with 57. bdestruct_all; lia. Qed.

Lemma show_u_digits n : Forall (λ c, ch "0" ≤ c ≤ ch "9") (show_u 10 n).
Proof. apply show_digits_Forall; [lia|apply digit_char_range|constructor]. Qed.

Lemma parse_unsigned_show w n : 0 ≤ w ≤ 64 → 0 ≤ n < 2 ^ w → parse_unsigned w (show_u 10 n) = Ok n.
Proof.
  intros Hw Hn. pose proof (show_u_digits n) as Hd. pose proof (show_u_not_nil 10 n) as Hnil.
  pose proof (Z.pow_le_mono_r 2 w 64 ltac:(lia) ltac:(lia)) as H64.
  assert (digits_pos (2 ^ w - 1) 10 0 (show_u 10 n) = Ok n) as Hok.
  { unfold show_u. rewrite digits_pos_show; [done|lia|lia|]. simpl (Z.of_nat 64). lia. }
  unfold parse_unsigned. destruct (show_u 10 n) as [|c l]; [done|].
  apply Forall_cons in Hd as [Hc _]. destruct (Z.eqb_spec c (ch "+")) as [->|]; [|exact Hok].
  destruct Hc as [Hc _]. by vm_compute in Hc.
Qed.

(** ** Characters

    A [text] is the sequence of [char]s of a string; [to_utf8] gives the
    bytes [as_bytes] returns. *)
Abbreviation text := (list Z).

Definition encode_char (c : Z) : str :=
  if c <? 128 then [c]
  else if c <? 2048 then [192 + c / 64; 128 + c mod 64]
  else if c <? 65536 then [224 + c / 4096; 128 + (c / 64) mod 64; 128 + c mod 64]
  else [240 + c / 262144; 128 + (c / 4096) mod 64; 128 + (c / 64) mod 64; 128 + c mod 64].
Definition to_utf8 (t : text) : str := t ≫= encode_char.

(** [core::str::from_utf8] succeeds: no overlong forms, no surrogates. *)
Definition is_continuation (b : Z) : bool := (128 <=? b) && (b <? 192).
Fixpoint utf8_valid (s : str) : bool :=
  match s with
  | [] => true
  | a :: t =>
      if a <? 128 then utf8_valid t else
      match t with
      | [] => false
      | b :: u =>
          if (194 <=? a) && (a <=? 223) && is_continuation b then utf8_valid u else
          match u with
          | [] => false
          | c :: v =>
              if (224 <=? a) && (a <=? 239) && is_continuation b && is_continuation c &&
                 (negb (a =? 224) || (160 <=? b)) && (negb (a =? 237) || (b <=? 159))
              then utf8_valid v else
              match v with
              | [] => false
              | d :: w =>
                  (240 <=? a) && (a <=? 244) && is_continuation b && is_continuation c && is_continuation d &&
                  (negb (a =? 240) || (144 <=? b)) && (negb (a =? 244) || (b <=? 143)) && utf8_valid w
              end
          end
      end
  end.

Lemma utf8_valid_ascii s : Forall (λ c, c < 128) s → utf8_valid s = true.
Proof. induction 1 as [|c s Hc _ IH]; simpl; [done|]. by destruct (Z.ltb_spec c 128); [|lia]. Qed.

(** [Ord for str]: bytes in lexicographic order. *)
Fixpoint str_compare (a b : str) : comparison :=
  match a, b with
  | [], [] => Eq
  | [], _ :: _ => Lt
  | _ :: _, [] => Gt
  | x :: a, y :: b => match x ?= y with Eq => str_compare a b | c => c end
  end.

Lemma str_compare_antisym a b : str_compare b a = CompOpp (str_compare a b).
Proof.
  revert b. induction a as [|x a IH]; intros [|y b]; simpl; try done.
  rewrite (Z.compare_antisym x y). destruct (x ?= y); simpl; auto.
Qed.
Lemma str_compare_eq a b : str_compare a b = Eq ↔ a = b.
Proof.
  revert b. induction a as [|x a IH]; intros [|y b]; simpl; try done.
  destruct (Z.compare_spec x y) as [->|Hx|Hx]; [rewrite IH; naive_solver|..]; split; try done; intros [= -> _]; lia.
Qed.
Lemma str_compare_trans a b c : str_compare a b ≠ Gt → str_compare b c ≠ Gt → str_compare a c ≠ Gt.
Proof.
  revert b c. induction a as [|x a IH]; intros [|y b] [|z c]; simpl; try done.
  destruct (Z.compare_spec x y), (Z.compare_spec y z), (Z.compare_spec x z); subst; try done; try lia. apply IH.
Qed.

(** [char::is_whitespace]: the [White_Space] property. *)
Definition is_whitespace (c : Z) : bool :=
  ((9 <=? c) && (c <=? 13)) || (c =? 32) || (c =? 133) || (c =? 160) || (c =? 5760) ||
  ((8192 <=? c) && (c <=? 8202)) || (c =? 8232) || (c =? 8233) || (c =? 8239) || (c =? 8287) || (c =? 12288).

(** ** Searches *)
Definition ends_with (s p : text) : bool := bool_decide (p `suffix_of` s).
Definition contains (s p : text) : bool :=
  existsb (λ i, bool_decide (p `prefix_of` drop i s)) (seq 0 (S (length s))).
(** [strip_suffix]. *)
Definition strip_suffix (s p : text) : option text :=
  if ends_with s p then Some (take (length s - length p) s) else None.
(** [split_once(c)]. *)
Fixpoint split_once (c : Z) (s : text) : option (text * text) :=
  match s with
  | [] => None
  | x :: s => if x =? c then Some ([], s) else prod_map (cons x) id <$> split_once c s
  end.
(** What follows the last [sep] of two characters, if there is one. *)
Fixpoint after_last (a b : Z) (s : text) : option text :=
  match s with
  | [] => None
  | x :: s =>
      match after_last a b s with
      | Some t => Some t
      | None => match s with y :: t => if (x =? a) && (y =? b) then Some t else None | [] => None end
      end
  end.
(** [rsplit(sep).next()]: never [None]. *)
Definition rsplit_last (a b : Z) (s : text) : text := default s (after_last a b s).

Lemma contains_spec s p : contains s p = true ↔ ∃ u v, s = u ++ p ++ v.
Proof.
  unfold contains. rewrite existsb_exists. split.
  - intros (i & _ & [v Hv]%bool_decide_eq_true). exists (take i s), v. by rewrite <- Hv, take_drop.
  - intros (u & v & ->). exists (length u). split.
    + apply in_seq. rewrite length_app. lia.
    + apply bool_decide_eq_true. exists v. by rewrite drop_app_length.
Qed.

Lemma strip_suffix_spec s p t : strip_suffix s p = Some t ↔ s = t ++ p.
Proof.
  unfold strip_suffix, ends_with. case_bool_decide as Hs.
  - destruct Hs as [k ->]. rewrite length_app, Nat.add_sub, take_app_length.
    split; [by intros [= ->]|]. intros ?%(inj (.++ p)). congruence.
  - split; [done|]. intros ->. destruct Hs. by exists t.
Qed.

Lemma split_once_spec c t u : c ∉ t → split_once c (t ++ c :: u) = Some (t, u).
Proof.
  intros Hc. induction t as [|x t IH]; simpl; [by rewrite Z.eqb_refl|].
  apply not_elem_of_cons in Hc as [Hx Hc].
  destruct (Z.eqb_spec x c); [congruence|]. by rewrite IH.
Qed.

Lemma split_once_none c s : c ∉ s → split_once c s = None.
Proof.
  intros Hc. induction s as [|x s IH]; simpl; [done|].
  apply not_elem_of_cons in Hc as [Hx Hc].
  destruct (Z.eqb_spec x c); [congruence|]. by rewrite IH.
Qed.

Lemma to_utf8_app s t : to_utf8 (s ++ t) = to_utf8 s ++ to_utf8 t.
Proof. apply bind_app. Qed.

Lemma after_last_none a b s : after_last a b s = None → ∀ u t, s ≠ u ++ a :: b :: t.
Proof.
  intros Hs u t ->. revert Hs. induction u as [|z u IH]; simpl.
  - destruct (after_last a b t); [done|]. destruct t; [by rewrite !Z.eqb_refl|].
    destruct ((b =? a) && (z =? b)); [done|]. by rewrite !Z.eqb_refl.
  - by destruct (after_last a b (u ++ a :: b :: t)).
Qed.

(** [t] follows the last [ab] of [s]: it is the shortest such rest. *)
Lemma after_last_some a b s t :
  after_last a b s = Some t ↔
  (∃ u, s = u ++ a :: b :: t) ∧ ∀ u' t', s = u' ++ a :: b :: t' → (length t ≤ length t')%nat.
Proof.
  revert t. induction s as [|x s IH]; intros t.
  { split; [done|]. intros [[[|??] ?] _]; done. }
  simpl. destruct (after_last a b s) as [t0|] eqn:Hs.
  - destruct (proj1 (IH t0) eq_refl) as [[u Hu] Hmin]. split.
    + intros [= ->]. split; [exists (x :: u); by rewrite Hu|]. intros [|y u'] t' [= -> Heq]; [|by eapply Hmin].
      apply (f_equal length) in Hu, Heq. rewrite length_app in Hu. simpl in *. lia.
    + intros [[[|y v] [= -> Hv]] Hm].
      * specialize (Hm (a :: u) t0 ltac:(by rewrite Hu)). rewrite Hu in Hv.
        apply (f_equal length) in Hv. rewrite length_app in Hv. simpl in Hv. lia.
      * apply IH. split; [by exists v|]. intros u' t' Heq. apply (Hm (y :: u')). by rewrite Heq.
  - pose proof (after_last_none _ _ _ Hs) as Hno.
    assert (∀ v t', x :: s = v ++ a :: b :: t' → v = [] ∧ x = a ∧ s = b :: t') as Hcons.
    { intros [|y v] t' [= -> Hv]; [done|]. by destruct (Hno v t'). }
    destruct s as [|y s]; [split; [done|by intros [[v (_ & _ & ?)%Hcons] _]]|].
    destruct ((x =? a) && (y =? b)) eqn:Hxy.
    + apply andb_true_iff in Hxy as [->%Z.eqb_eq ->%Z.eqb_eq]. split.
      * intros [= ->]. split; [by exists []|]. intros u' t' (_ & _ & [= ->])%Hcons. done.
      * intros [[v (_ & _ & [= ->])%Hcons] _]. done.
    + split; [done|]. intros [[v (_ & -> & [= -> _])%Hcons] _]. by rewrite !Z.eqb_refl in Hxy.
Qed.

Lemma to_utf8_ascii t : Forall (λ c, c < 128) t → to_utf8 t = t.
Proof.
  induction 1 as [|c t Hc _ IH]; [done|]. unfold to_utf8 in *. rewrite bind_cons, IH. unfold encode_char.
  by destruct (Z.ltb_spec c 128); [|lia].
Qed.

(** ** Padding of [format!] ([{:>w}], [{:<w}], [{:0w}]): widths count
    [char]s, that is, bytes that do not continue a character. *)
Definition char_count (s : str) : nat := length (filter (λ b, is_continuation b = false) s).
Definition pad_left (w : nat) (fill : Z) (s : str) : str := repeat fill (w - char_count s) ++ s.
Definition pad_right (w : nat) (fill : Z) (s : str) : str := s ++ repeat fill (w - char_count s).
