(* ===== verification/IntLit.v ===== *)
(** Integer literals of the filter language: [i64::from_str_radix] of the
    standard library and [parse_i64_literal_text] of tp-lexer/src/lib.rs,
    with the decimal and hexadecimal round trips. *)
From S2P Require Import Prelude Text.

Definition i64_max : Z := 2 ^ 63 - 1.
Definition i64_min : Z := - 2 ^ 63.
Definition is_i64 (z : Z) : Prop := i64_min ≤ z ≤ i64_max.

(** ** Standard library: [i64::from_str_radix] and [str::parse::<i64>] *)

Fixpoint digits_neg (radix acc : Z) (l : str) : res IntErrorKind Z :=
  match l with
  | [] => Ok acc
  | c :: l =>
      match to_digit radix c with
      | None => Err InvalidDigit
      | Some d =>
          if acc * radix <? i64_min then Err NegOverflow
          else if acc * radix - d <? i64_min then Err NegOverflow
          else digits_neg radix (acc * radix - d) l
      end
  end.

Definition from_str_radix (s : str) (radix : Z) : res IntErrorKind Z :=
  match s with
  | [] => Err IntEmpty
  | c :: rest =>
      if (c =? ch "+") || (c =? ch "-") then
        match rest with
        | [] => Err InvalidDigit
        | _ => if c =? ch "-" then digits_neg radix 0 rest else digits_pos i64_max radix 0 rest
        end
      else digits_pos i64_max radix 0 s
  end.

(** ** Standard library: [str::trim] on UTF-8 bytes *)

(** Length of the leading [White_Space] character, 0 when there is none. *)
Definition ws_len (s : str) : nat :=
  match s with
  | a :: t =>
      if ((9 <=? a) && (a <=? 13)) || (a =? 32) then 1%nat
      else match t with
      | b :: u =>
          if (a =? 194) && ((b =? 133) || (b =? 160)) then 2%nat
          else match u with
          | c :: _ =>
              if ((a =? 225) && (b =? 154) && (c =? 128))
                 || ((a =? 226) && (b =? 128) &&
                     (((128 <=? c) && (c <=? 138)) || (c =? 168) || (c =? 169) || (c =? 175)))
                 || ((a =? 226) && (b =? 129) && (c =? 159))
                 || ((a =? 227) && (b =? 128) && (c =? 128)) then 3%nat else 0%nat
          | [] => 0%nat
          end
      | [] => 0%nat
      end
  | [] => 0%nat
  end.

(** The same at the end of the string, on the reversed bytes. *)
Definition ws_len_rev (s : str) : nat :=
  match s with
  | a :: t =>
      if (ws_len [a] =? 1)%nat then 1%nat
      else match t with
      | b :: u =>
          if (ws_len [b; a] =? 2)%nat then 2%nat
          else match u with
          | c :: _ => if (ws_len [c; b; a] =? 3)%nat then 3%nat else 0%nat
          | [] => 0%nat
          end
      | [] => 0%nat
      end
  | [] => 0%nat
  end.

Fixpoint strip_ws (len : str → nat) (fuel : nat) (s : str) : str :=
  match fuel with
  | O => s
  | S f => match len s with O => s | n => strip_ws len f (drop n s) end
  end.

Definition trim (s : str) : str :=
  let s := strip_ws ws_len (length s) s in
  rev (strip_ws ws_len_rev (length s) (rev s)).

(** ** [parse_i64_literal_text] *)

Inductive LitError :=
  | LitEmptyValue        (* "integer value is empty" *)
  | LitMissingDigits     (* "integer literal missing digits" *)
  | LitHexMissingDigits  (* "hex literal missing digits" *)
  | LitOverflow          (* "integer literal overflow" *)
  | LitInvalid.          (* "invalid integer literal" *)

#[export] Instance LitError_eq_dec : EqDecision LitError.
Proof. solve_decision. Defined.

Definition strip_hex_prefix (s : str) : option str :=
  match s with
  | a :: b :: hex => if (a =? ch "0") && ((b =? ch "x") || (b =? ch "X")) then Some hex else None
  | _ => None
  end.

(** [i64::checked_neg]. *)
Definition checked_neg (v : Z) : option Z := if v =? i64_min then None else Some (- v).

Definition apply_sign (negative : bool) (value : Z) : res LitError Z :=
  if negative then ok_or (checked_neg value) LitOverflow else Ok value.

Definition parse_i64_literal_text (input : str) : res LitError Z :=
  let s := trim input in
  match s with
  | [] => Err LitEmptyValue
  | c :: tl =>
      let '(negative, rest) :=
        if c =? ch "-" then (true, tl) else if c =? ch "+" then (false, tl) else (false, s) in
      match rest with
      | [] => Err LitMissingDigits
      | _ =>
          match strip_hex_prefix rest with
          | Some hex =>
              match hex with
              | [] => Err LitHexMissingDigits
              | _ =>
                  value ← map_err (λ k, match k with
                                        | PosOverflow | NegOverflow => LitOverflow
                                        | _ => LitInvalid
                                        end) (from_str_radix hex 16);
                  apply_sign negative value
              end
          | None =>
              value ← map_err (λ k, match k with
                                    | PosOverflow | NegOverflow => LitOverflow
                                    | IntEmpty => LitMissingDigits
                                    | _ => LitInvalid
                                    end) (from_str_radix rest 10);
              apply_sign negative value
          end
      end
  end.

(** ** Reference rendering *)

Definition show_i64 (v : Z) : str := if v <? 0 then ch "-" :: show_u 10 (- v) else show_u 10 v.

(** ** Lemmas *)

(** Bytes that are neither [White_Space] nor part of one. *)
Definition plain_byte (b : Z) : Prop := 33 ≤ b < 127.

Lemma digit_char_plain base d : base ≤ 16 → 0 ≤ d < base → plain_byte (digit_char d).
Proof.
  intros. unfold plain_byte, digit_char.
  change (ch "0") with 48. change (ch "a") with 97. bdestruct_all; lia.
Qed.

Lemma ws_len_plain b s : plain_byte b → ws_len (b :: s) = 0%nat.
Proof.
  intros Hb. unfold plain_byte in Hb. unfold ws_len.
  destruct s as [|c [|d s]]; repeat (bdestruct_step; simpl; try lia); done.
Qed.

Lemma ws_len_rev_plain b s : plain_byte b → ws_len_rev (b :: s) = 0%nat.
Proof.
  intros Hb. unfold plain_byte in Hb. unfold ws_len_rev, ws_len.
  destruct s as [|c [|d s]]; repeat (bdestruct_step; simpl; try lia); try done.
Qed.

Lemma strip_ws_plain len s fuel :
  (∀ b s, plain_byte b → len (b :: s) = 0%nat) → len [] = 0%nat →
  match s with [] => True | b :: _ => plain_byte b end → strip_ws len fuel s = s.
Proof.
  intros Hl Hn Hs. destruct fuel; [done|]. simpl. destruct s; [by rewrite Hn|]. by rewrite Hl.
Qed.

Lemma trim_plain s : Forall plain_byte s → trim s = s.
Proof.
  intros Hs. unfold trim.
  rewrite (strip_ws_plain ws_len s) by
    (auto using ws_len_plain; destruct Hs; done).
  rewrite strip_ws_plain; [apply rev_involutive|apply ws_len_rev_plain|done|].
  apply Forall_rev in Hs. by destruct Hs.
Qed.

Lemma digits_neg_range radix acc l v :
  0 ≤ radix → i64_min ≤ acc ≤ 0 → digits_neg radix acc l = Ok v → i64_min ≤ v ≤ 0.
Proof.
  intros Hr. revert acc. induction l as [|c l IH]; intros acc Hacc; simpl; [by intros [= <-]|].
  destruct (to_digit radix c) as [d|] eqn:Hd; [|done].
  assert (0 ≤ d).
  { revert Hd. unfold to_digit. change (ch "0") with 48. change (ch "9") with 57.
    change (ch "a") with 97. change (ch "z") with 122. change (ch "A") with 65. change (ch "Z") with 90.
    bdestruct_all; simpl; bdestruct_all; intros; simplify_eq; lia. }
  bdestruct_all; try done. apply IH. nia.
Qed.

Lemma from_str_radix_range s radix v :
  0 ≤ radix → from_str_radix s radix = Ok v → is_i64 v.
Proof.
  intros Hr. unfold from_str_radix, is_i64.
  assert (i64_min < 0 ∧ 0 < i64_max) by (unfold i64_min, i64_max; lia).
  destruct s as [|c rest]; [done|].
  destruct ((c =? ch "+") || (c =? ch "-")).
  - destruct rest as [|c' rest]; [done|]. destruct (c =? ch "-"); intros Hv.
    + apply digits_neg_range in Hv; lia.
    + apply digits_pos_range in Hv; lia.
  - intros Hv. apply digits_pos_range in Hv; lia.
Qed.

Definition not_sign (c : Z) : Prop := c ≠ ch "+" ∧ c ≠ ch "-".

Lemma show_u_Forall P base n :
  2 ≤ base → (∀ d, 0 ≤ d < base → P (digit_char d)) → Forall P (show_u base n).
Proof. intros. by apply show_digits_Forall. Qed.

Lemma digit_char_not_sign d : 0 ≤ d → not_sign (digit_char d).
Proof.
  intros. unfold not_sign, digit_char. change (ch "+") with 43. change (ch "-") with 45.
  change (ch "0") with 48. change (ch "a") with 97. bdestruct_all; lia.
Qed.

Lemma from_str_radix_show base n :
  2 ≤ base ≤ 16 → 0 ≤ n ≤ i64_max → from_str_radix (show_u base n) base = Ok n.
Proof.
  intros Hb Hn. unfold from_str_radix.
  pose proof (show_u_not_nil base n) as Hnil.
  pose proof (show_u_Forall not_sign base n ltac:(lia) ltac:(intros; apply digit_char_not_sign; lia)) as Hs.
  assert (digits_pos i64_max base 0 (show_u base n) = Ok n) as Hd.
  { unfold show_u. rewrite digits_pos_show; [done|done|done|].
    apply Z.le_lt_trans with i64_max; [lia|].
    apply Z.lt_le_trans with (2 ^ 64); [done|]. apply Z.pow_le_mono_l; lia. }
  destruct (show_u base n) as [|c l]; [done|].
  apply Forall_cons in Hs as [[H1 H2] _].
  by rewrite (proj2 (Z.eqb_neq _ _) H1), (proj2 (Z.eqb_neq _ _) H2).
Qed.

(** A decimal rendering never looks like a hexadecimal literal. *)
Lemma strip_hex_decimal n : strip_hex_prefix (show_u 10 n) = None.
Proof.
  assert (Forall (λ c, c ≠ ch "x" ∧ c ≠ ch "X") (show_u 10 n)) as Hs.
  { apply show_u_Forall; [lia|]. intros d Hd. unfold digit_char.
    change (ch "0") with 48. change (ch "x") with 120. change (ch "X") with 88. bdestruct_all; lia. }
  destruct (show_u 10 n) as [|a [|b l]]; [done..|]. simpl.
  apply Forall_cons in Hs as [_ Hs]. apply Forall_cons in Hs as [[H1 H2] _].
  by rewrite (proj2 (Z.eqb_neq _ _) H1), (proj2 (Z.eqb_neq _ _) H2), andb_false_r.
Qed.

Lemma trim_sign_show c base n :
  2 ≤ base ≤ 16 → plain_byte c → trim (c :: show_u base n) = c :: show_u base n.
Proof.
  intros Hb Hc. apply trim_plain. constructor; [done|].
  apply show_u_Forall; [lia|]. intros. apply (digit_char_plain base); lia.
Qed.

Lemma trim_show base n : 2 ≤ base ≤ 16 → trim (show_u base n) = show_u base n.
Proof.
  intros Hb. apply trim_plain.
  apply show_u_Forall; [lia|]. intros. apply (digit_char_plain base); lia.
Qed.

(** [parse_i64_literal_text] on an optional sign and a decimal magnitude. *)
Lemma parse_unsigned_decimal n :
  0 ≤ n ≤ i64_max → parse_i64_literal_text (show_u 10 n) = Ok n.
Proof.
  intros Hn. unfold parse_i64_literal_text. rewrite trim_show by lia. cbv zeta.
  pose proof (from_str_radix_show 10 n ltac:(lia) Hn) as Hp.
  pose proof (strip_hex_decimal n) as Hx.
  pose proof (show_u_Forall not_sign 10 n ltac:(lia) ltac:(intros; apply digit_char_not_sign; lia)) as Hs.
  pose proof (show_u_not_nil 10 n) as Hnil.
  destruct (show_u 10 n) as [|c l]; [done|].
  apply Forall_cons in Hs as [[H1 H2] _].
  rewrite (proj2 (Z.eqb_neq _ _) H1), (proj2 (Z.eqb_neq _ _) H2). cbv iota beta.
  rewrite Hx, Hp. done.
Qed.

Lemma parse_negative_decimal n :
  0 ≤ n ≤ i64_max → parse_i64_literal_text (ch "-" :: show_u 10 n) = Ok (- n).
Proof.
  intros Hn. unfold parse_i64_literal_text.
  rewrite trim_sign_show by (unfold plain_byte; change (ch "-") with 45; lia). cbv zeta.
  rewrite Z.eqb_refl. cbv iota beta.
  pose proof (from_str_radix_show 10 n ltac:(lia) Hn) as Hp.
  pose proof (strip_hex_decimal n) as Hx.
  pose proof (show_u_not_nil 10 n) as Hnil.
  destruct (show_u 10 n) as [|c l]; [done|]. rewrite Hx, Hp. simpl.
  unfold checked_neg. rewrite (proj2 (Z.eqb_neq _ _)) by (unfold i64_min; lia). done.
Qed.

(** A literal that is accepted denotes an [i64], whatever its form. *)
Lemma literal_range s w : parse_i64_literal_text s = Ok w → is_i64 w.
Proof.
  assert (∀ b x w, is_i64 x → apply_sign b x = Ok w → is_i64 w) as Hsign.
  { intros [] x w' Hx; simpl; [|by intros [= <-]]. unfold checked_neg.
    destruct (Z.eqb_spec x i64_min); simpl; intros [= <-].
    unfold is_i64, i64_min, i64_max in *. lia. }
  assert (∀ g s r w b, 0 ≤ r →
    (map_err g (from_str_radix s r) ≫= λ x, apply_sign b x) = Ok w → is_i64 w) as Hgo.
  { intros g s' r w' b Hr Hw. apply bind_ok in Hw as (x & Hx & Hw).
    destruct (from_str_radix s' r) as [y| | |] eqn:Hy; simplify_eq/=.
    eapply Hsign; [|exact Hw]. by eapply from_str_radix_range. }
  unfold parse_i64_literal_text. cbv zeta.
  destruct (trim s) as [|c tl]; [done|].
  destruct (if c =? ch "-" then _ else _) as [b rest]. destruct rest as [|c' rest]; [done|].
  destruct (strip_hex_prefix (c' :: rest)) as [[|? ?]|]; [done|..]; apply Hgo; lia.
Qed.

(** ** Properties *)

(** Every [i64] other than [i64::MIN], written in decimal with an
    optional minus sign, is read back as itself. *)
Theorem literal_decimal_roundtrip v :
  is_i64 v → v ≠ i64_min → parse_i64_literal_text (show_i64 v) = Ok v.
Proof.
  intros Hv Hmin. unfold show_i64. unfold is_i64 in Hv. destruct (Z.ltb_spec v 0).
  - rewrite parse_negative_decimal by (unfold i64_min, i64_max in *; lia). f_equal. lia.
  - apply parse_unsigned_decimal. lia.
Qed.

Lemma literal_decimal_roundtrip_witness :
  is_i64 (-17) ∧ parse_i64_literal_text (bs "-17") = Ok (-17).
Proof.
  split; [unfold is_i64, i64_min, i64_max; lia|].
  apply (literal_decimal_roundtrip (-17)); [unfold is_i64, i64_min, i64_max; lia|discriminate].
Defined.

(** The gap of the round trip: [i64::MIN] cannot be written as a plain
    decimal literal. *)
Lemma literal_min_rejected : parse_i64_literal_text (show_i64 i64_min) = Err LitOverflow.
Proof. vm_compute. reflexivity. Qed.

(** The sign is taken off before the digits go to [from_str_radix], which
    takes one of its own: two signs, and a sign behind [0x], are accepted. *)
Lemma two_signs_accepted :
  parse_i64_literal_text (bs "--5") = Ok 5 ∧ parse_i64_literal_text (bs "0x-5") = Ok (-5) ∧
  parse_i64_literal_text (bs "+-9223372036854775808") = Ok i64_min.
Proof. vm_compute. done. Qed.
