(* ===== verification/Lexer.v ===== *)
(** The tokenizer of tp-lexer/src/lib.rs ([Lexer], [Token], [next_token]):
    total on every UTF-8 input, spans in range, progress on every token. *)
From S2P Require Import Prelude Text IntLit.

(** ** Data *)

Record Span := { sp_start : nat; sp_end : nat }.

(** Messages of [ParseError].  A [format!] message is kept as its
    constructor and arguments; the rendering is Rust's. *)
Inductive TokenKind :=
  | Ident (s : str)
  | Int (v : Z)
  | StringTok (s : str)
  | Bareword (s : str)
  | AndAnd | OrOr | Amp | EqEq | NotEq | Lt | Le | Gt | Ge | Tilde
  | LParen | RParen | Eof.

Inductive PMsg :=
  | PLit (s : str)
  | PUnrecognized (b : Z)
  | PExpected (want found : TokenKind)
  | PUnknownField (f : str)
  | PNotNumeric (f : str)
  | PNotString (f : str)
  | PUnsupported (f : str)
  | PWidth (f : str) (len expected : Z).

Record ParseError := { pe_span : Span; pe_message : PMsg }.
Record Token := { kind : TokenKind; span : Span }.

#[export] Instance Span_eq_dec : EqDecision Span.
Proof. solve_decision. Defined.
#[export] Instance TokenKind_eq_dec : EqDecision TokenKind.
Proof. solve_decision. Defined.
#[export] Instance Token_eq_dec : EqDecision Token.
Proof. solve_decision. Defined.
#[export] Instance PMsg_eq_dec : EqDecision PMsg.
Proof. solve_decision. Defined.
#[export] Instance ParseError_eq_dec : EqDecision ParseError.
Proof. solve_decision. Defined.

(** [ParseError::new]. *)
Definition perr {A} (s e : nat) (m : PMsg) : res ParseError A :=
  Err {| pe_span := {| sp_start := s; sp_end := e |}; pe_message := m |}.

Definition tok (k : TokenKind) (s e : nat) : Token :=
  {| kind := k; span := {| sp_start := s; sp_end := e |} |}.

(** [Lexer]: [bytes] and [len] are functions of [input]. *)
Record Lexer := { input : str; pos : nat }.
Definition len (lx : Lexer) : nat := length (input lx).
Definition with_pos (lx : Lexer) (p : nat) : Lexer := {| input := input lx; pos := p |}.
Definition Lexer_new (s : str) : Lexer := {| input := s; pos := 0 |}.

(** ** Character classes of the standard library *)
Definition is_ascii_digit (b : Z) : bool := (ch "0" <=? b) && (b <=? ch "9").
Definition is_ascii_alphabetic (b : Z) : bool :=
  ((ch "a" <=? b) && (b <=? ch "z")) || ((ch "A" <=? b) && (b <=? ch "Z")).
Definition is_ascii_alphanumeric (b : Z) : bool := is_ascii_digit b || is_ascii_alphabetic b.
Definition is_ascii_hexdigit (b : Z) : bool :=
  is_ascii_digit b || ((ch "a" <=? b) && (b <=? ch "f")) || ((ch "A" <=? b) && (b <=? ch "F")).
Definition is_ascii_whitespace (b : Z) : bool :=
  (b =? 32) || (b =? 9) || (b =? 10) || (b =? 12) || (b =? 13).

(** [str] indexing [&s[from..to]]: panics off a character boundary. *)
Definition is_cont (b : Z) : bool := (128 <=? b) && (b <? 192).
Definition is_char_boundary (s : str) (i : nat) : bool :=
  (i =? 0)%nat || match s !! i with Some b => negb (is_cont b) | None => (i =? length s)%nat end.
Definition str_slice (s : str) (a b : nat) : res ParseError str :=
  if is_char_boundary s a && is_char_boundary s b then unwrap (slice s a b) else Panic.

#[global] Arguments is_char_boundary : simpl never.

(** ** [Lexer] operations *)
Definition peek (lx : Lexer) : option Z := input lx !! pos lx.
Definition peek2 (lx : Lexer) : option Z := input lx !! (pos lx + 1)%nat.
Definition bump (lx : Lexer) : option Z * Lexer :=
  match input lx !! pos lx with
  | Some b => (Some b, with_pos lx (pos lx + 1))
  | None => (None, lx)
  end.

(** [while let Some(b) = self.peek() { if p(b) { self.pos += 1 } else { break } }] *)
Fixpoint while_peek (p : Z → bool) (fuel : nat) (lx : Lexer) : res ParseError Lexer :=
  match fuel with
  | O => OutOfFuel
  | S f =>
      match peek lx with
      | Some b => if p b then while_peek p f (with_pos lx (pos lx + 1)) else Ok lx
      | None => Ok lx
      end
  end.

(** One more iteration than there are bytes is always enough. *)
Definition loop_fuel (lx : Lexer) : nat := S (len lx).

Definition skip_ws (lx : Lexer) : res ParseError Lexer :=
  while_peek is_ascii_whitespace (loop_fuel lx) lx.

Definition lex_number (lx : Lexer) (start : nat) : res ParseError (Token * Lexer) :=
  if bool_decide (peek lx = Some (ch "0")) &&
     (bool_decide (peek2 lx = Some (ch "x")) || bool_decide (peek2 lx = Some (ch "X"))) then
    let lx := (bump (bump lx).2).2 in
    let from := pos lx in
    lx ← while_peek is_ascii_hexdigit (loop_fuel lx) lx;
    if (pos lx =? from)%nat then perr start (pos lx) (PLit (bs "hex literal missing digits"))
    else
      s ← str_slice (input lx) from (pos lx);
      v ← map_err (λ _, {| pe_span := {| sp_start := start; sp_end := pos lx |};
                           pe_message := PLit (bs "hex literal overflow") |})
            (from_str_radix s 16);
      Ok (tok (Int v) start (pos lx), lx)
  else
    let from := pos lx in
    lx ← while_peek is_ascii_digit (loop_fuel lx) lx;
    s ← str_slice (input lx) from (pos lx);
    v ← map_err (λ _, {| pe_span := {| sp_start := start; sp_end := pos lx |};
                         pe_message := PLit (bs "decimal literal overflow") |})
          (from_str_radix s 10);
    Ok (tok (Int v) start (pos lx), lx).

Definition is_ident_char (b : Z) : bool := is_ascii_alphanumeric b || (b =? ch "_").

Definition lex_ident (lx : Lexer) (start : nat) : res ParseError (Token * Lexer) :=
  let from := (pos lx - 1)%nat in
  lx ← while_peek is_ident_char (loop_fuel lx) lx;
  s ← str_slice (input lx) from (pos lx);
  Ok (tok (Ident s) start (pos lx), lx).

Fixpoint lex_string_loop (fuel : nat) (lx : Lexer) (start : nat) (quote : Z) (out : str) :
    res ParseError (Token * Lexer) :=
  match fuel with
  | O => OutOfFuel
  | S f =>
      match bump lx with
      | (Some b, lx) =>
          if b =? quote then Ok (tok (StringTok out) start (pos lx), lx)
          else if b =? ch "\" then
            match bump lx with
            | (Some c, lx) =>
                let c' := if c =? ch "n" then 10 else if c =? ch "t" then 9 else c in
                lex_string_loop f lx start quote (out ++ push_latin1 c')
            | (None, lx) => perr start (pos lx) (PLit (bs "incomplete string escape"))
            end
          else lex_string_loop f lx start quote (out ++ push_latin1 b)
      | (None, lx) => perr start (pos lx) (PLit (bs "unterminated string"))
      end
  end.

Definition lex_string (lx : Lexer) (start : nat) (quote : Z) : res ParseError (Token * Lexer) :=
  lex_string_loop (loop_fuel lx) lx start quote [].

Definition is_op_char (b : Z) : bool :=
  (b =? ch "&") || (b =? ch "|") || (b =? ch "=") || (b =? ch "!") || (b =? ch "<")
  || (b =? ch ">") || (b =? ch "~") || (b =? ch "(") || (b =? ch ")").

Definition lex_bareword (lx : Lexer) (start : nat) : res ParseError (Token * Lexer) :=
  let from := (pos lx - 1)%nat in
  lx ← while_peek (λ b, negb (is_ascii_whitespace b || is_op_char b)) (loop_fuel lx) lx;
  s ← str_slice (input lx) from (pos lx);
  Ok (tok (Bareword s) start (pos lx), lx).

(** The one- or two-character operators: [next] is consumed when present. *)
Definition op2 (lx : Lexer) (start : nat) (next : Z) (two : TokenKind)
    (one : res ParseError (Token * Lexer)) : res ParseError (Token * Lexer) :=
  if bool_decide (peek lx = Some next) then
    let lx := (bump lx).2 in Ok (tok two start (pos lx), lx)
  else one.

(** The dispatch of [next_token] on its first byte, already consumed. *)
Definition next_token_at (lx : Lexer) (start : nat) (b : Z) : res ParseError (Token * Lexer) :=
  let single k := Ok (tok k start (pos lx), lx) in
  if b =? ch "(" then single LParen
  else if b =? ch ")" then single RParen
  else if b =? ch "&" then op2 lx start (ch "&") AndAnd (single Amp)
  else if b =? ch "|" then
    op2 lx start (ch "|") OrOr
      (perr start (pos lx) (PLit (bs "single '|' is invalid; did you mean '||'?")))
  else if b =? ch "=" then
    op2 lx start (ch "=") EqEq
      (perr start (pos lx) (PLit (bs "single '=' is invalid; did you mean '=='?")))
  else if b =? ch "!" then
    op2 lx start (ch "=") NotEq
      (perr start (pos lx) (PLit (bs "'!' is only supported as '!='")))
  else if b =? ch "<" then op2 lx start (ch "=") Le (single Lt)
  else if b =? ch ">" then op2 lx start (ch "=") Ge (single Gt)
  else if b =? ch "~" then single Tilde
  else if (b =? 34) || (b =? ch "'") then lex_string lx start b
  else if is_ascii_digit b then lex_number (with_pos lx (pos lx - 1)) start
  else if is_ascii_alphabetic b || (b =? ch "_") then lex_ident lx start
  else if is_ascii_whitespace b || is_op_char b then perr start (pos lx) (PUnrecognized b)
  else lex_bareword lx start.

Definition next_token (lx : Lexer) : res ParseError (Token * Lexer) :=
  lx ← skip_ws lx;
  let start := pos lx in
  match bump lx with
  | (None, _) => Ok (tok Eof start start, lx)
  | (Some b, lx) => next_token_at lx start b
  end.

(** All the tokens of an input, up to and without [Eof]. *)
Fixpoint lex_all (fuel : nat) (lx : Lexer) : res ParseError (list Token) :=
  match fuel with
  | O => OutOfFuel
  | S f =>
      '(t, lx) ← next_token lx;
      if decide (kind t = Eof) then Ok [] else ts ← lex_all f lx; Ok (t :: ts)
  end.

Example lex_sample :
  (ts ← lex_all 20 (Lexer_new (bs "flags & 0x10 == 16 && comm~b*")); Ok (map kind ts))
  = Ok [Ident (bs "flags"); Amp; Int 16; EqEq; Int 16; AndAnd; Ident (bs "comm"); Tilde;
        Ident (bs "b"); Bareword (bs "*")].
Proof. vm_compute. reflexivity. Qed.

(** ** UTF-8 inputs *)

(** The byte structure of a [&str]. *)
Inductive utf8 : str → Prop :=
  | utf8_nil : utf8 []
  | utf8_1 a s : 0 ≤ a < 128 → utf8 s → utf8 (a :: s)
  | utf8_2 a b s : 192 ≤ a < 224 → is_cont b = true → utf8 s → utf8 (a :: b :: s)
  | utf8_3 a b c s : 224 ≤ a < 240 → is_cont b = true → is_cont c = true →
      utf8 s → utf8 (a :: b :: c :: s)
  | utf8_4 a b c d s : 240 ≤ a < 248 → is_cont b = true → is_cont c = true → is_cont d = true →
      utf8 s → utf8 (a :: b :: c :: d :: s).

Lemma is_cont_spec b : is_cont b = true ↔ 128 ≤ b < 192.
Proof. unfold is_cont. rewrite andb_true_iff, Z.leb_le, Z.ltb_lt. done. Qed.

Lemma is_cont_false b : is_cont b = false ↔ ¬ (128 ≤ b < 192).
Proof. rewrite <- is_cont_spec. by destruct (is_cont b). Qed.

Lemma utf8_head s b : utf8 s → s !! 0%nat = Some b → is_cont b = false.
Proof. intros H Hb. apply is_cont_false. destruct H; simplify_eq/=; lia. Qed.

Lemma utf8_after_ascii s i b c :
  utf8 s → s !! i = Some b → b < 128 → s !! S i = Some c → is_cont c = false.
Proof.
  intros H. revert i. induction H as [|a s Ha Hs IH|a x s Ha Hx Hs IH|a x y s Ha Hx Hy Hs IH
    |a x y z s Ha Hx Hy Hz Hs IH]; intros i Hb Hlt Hc; [done|..];
    rewrite ?is_cont_spec in *.
  - destruct i as [|i]; [by eapply utf8_head|]. by eapply IH.
  - destruct i as [|[|i]]; simplify_eq/=; try lia. by eapply IH.
  - destruct i as [|[|[|i]]]; simplify_eq/=; try lia. by eapply IH.
  - destruct i as [|[|[|[|i]]]]; simplify_eq/=; try lia. by eapply IH.
Qed.

Lemma boundary_after s i b :
  utf8 s → s !! i = Some b → b < 128 → is_char_boundary s (S i) = true.
Proof.
  intros Hs Hb Hlt. unfold is_char_boundary. apply orb_true_iff. right.
  destruct (s !! S i) as [c|] eqn:Hc.
  - by rewrite (utf8_after_ascii s i b c).
  - apply Nat.eqb_eq. apply lookup_lt_Some in Hb. apply lookup_ge_None in Hc. lia.
Qed.

Lemma boundary_at s i b : s !! i = Some b → b < 128 → is_char_boundary s i = true.
Proof.
  intros Hb Hlt. unfold is_char_boundary. rewrite Hb. apply orb_true_iff. right.
  rewrite (proj2 (is_cont_false b)); [done|lia].
Qed.

Lemma boundary_end s : is_char_boundary s (length s) = true.
Proof.
  unfold is_char_boundary. rewrite lookup_ge_None_2 by lia.
  by rewrite Nat.eqb_refl, orb_true_r.
Qed.

(** A lexer between two calls: a valid input, on a character boundary. *)
Record lexer_ok (lx : Lexer) : Prop := {
  lo_utf8 : utf8 (input lx);
  lo_pos : (pos lx ≤ len lx)%nat;
  lo_boundary : is_char_boundary (input lx) (pos lx) = true;
}.

(** What a call that started at [lx] may return. *)
Record token_ok (lx : Lexer) (start : nat) (t : Token) (lx' : Lexer) : Prop := {
  to_input : input lx' = input lx;
  to_pos : (start ≤ pos lx' ≤ len lx)%nat;
  to_boundary : is_char_boundary (input lx) (pos lx') = true;
  to_start : sp_start (span t) = start;
  to_end : sp_end (span t) = pos lx';
  to_progress : kind t ≠ Eof → (start < pos lx')%nat;
  to_eof : kind t = Eof → start = len lx;
  to_int : ∀ v, kind t = Int v → is_i64 v;
}.

Definition error_ok (lx : Lexer) (e : ParseError) : Prop :=
  (sp_start (pe_span e) ≤ sp_end (pe_span e) ≤ len lx)%nat.

(** The loops, as the scan they perform. *)
Lemma while_peek_spec p fuel lx :
  (pos lx ≤ len lx)%nat → (len lx - pos lx < fuel)%nat →
  ∃ n, while_peek p fuel lx = Ok (with_pos lx (pos lx + n)) ∧ (pos lx + n ≤ len lx)%nat ∧
    (∀ i b, (pos lx ≤ i < pos lx + n)%nat → input lx !! i = Some b → p b = true) ∧
    (∀ b, input lx !! (pos lx + n)%nat = Some b → p b = false).
Proof.
  revert lx. induction fuel as [|f IH]; intros lx Hp Hf; [lia|]. simpl.
  unfold peek. destruct (input lx !! pos lx) as [b|] eqn:Hb.
  - destruct (p b) eqn:Hpb.
    + apply lookup_lt_Some in Hb as Hlt. fold (len lx) in Hlt.
      destruct (IH (with_pos lx (pos lx + 1))) as (n & Hw & Hn & Hall & Hstop);
        [unfold len in *; simpl; lia..|].
      exists (S n). simpl in *. rewrite Hw. unfold len in *; simpl in *.
      replace (pos lx + S n)%nat with (pos lx + 1 + n)%nat by lia.
      split_and!; [done|lia| |done].
      intros i c Hi Hc. destruct (decide (i = pos lx)) as [->|]; [congruence|].
      apply (Hall i c); [lia|done].
    + exists 0%nat. rewrite Nat.add_0_r. destruct lx. split_and!; [done|done|intros; lia|].
      simpl in *. congruence.
  - exists 0%nat. rewrite Nat.add_0_r. destruct lx. split_and!; [done|done|intros; lia|].
    simpl in *. congruence.
Qed.

Lemma loop_fuel_enough lx : (len lx - pos lx < loop_fuel lx)%nat.
Proof. unfold loop_fuel. lia. Qed.

(** A scan over a class of ASCII characters ends on a boundary. *)
Lemma while_peek_ascii p lx :
  lexer_ok lx → (∀ b, p b = true → b < 128) →
  ∃ n, while_peek p (loop_fuel lx) lx = Ok (with_pos lx (pos lx + n)) ∧
    lexer_ok (with_pos lx (pos lx + n)) ∧
    (∀ b, input lx !! (pos lx + n)%nat = Some b → p b = false).
Proof.
  intros [Hu Hp Hb] Hascii.
  destruct (while_peek_spec p (loop_fuel lx) lx Hp (loop_fuel_enough lx))
    as (n & Hw & Hn & Hall & Hstop).
  exists n. split_and!; [done| |done]. split; [done|exact Hn|]. simpl.
  destruct n as [|n]; [by rewrite Nat.add_0_r|].
  destruct (input lx !! (pos lx + n)%nat) as [b|] eqn:Hl.
  - replace (pos lx + S n)%nat with (S (pos lx + n)) by lia.
    eapply boundary_after; [done|exact Hl|]. apply Hascii. eapply Hall; [|exact Hl]. lia.
  - apply lookup_ge_None in Hl. unfold len in Hn. lia.
Qed.

(** Evaluate the character constants of a goal or hypothesis. *)
Ltac eval_ch :=
  repeat match goal with
  | |- context [ch ?c] => let v := eval vm_compute in (ch c) in change (ch c) with v
  | H : context [ch ?c] |- _ => let v := eval vm_compute in (ch c) in change (ch c) with v in H
  end.

Lemma is_ascii_digit_lt b : is_ascii_digit b = true → b < 128.
Proof. unfold is_ascii_digit. eval_ch. bdestruct_all; simpl; try done; lia. Qed.
Lemma is_ascii_alphabetic_lt b : is_ascii_alphabetic b = true → b < 128.
Proof. unfold is_ascii_alphabetic. eval_ch. bdestruct_all; simpl; try done; lia. Qed.
Lemma is_ascii_hexdigit_lt b : is_ascii_hexdigit b = true → b < 128.
Proof.
  unfold is_ascii_hexdigit. rewrite !orb_true_iff. intros [[H|H]|H].
  - by apply is_ascii_digit_lt.
  - apply andb_true_iff in H as [_ H%Z.leb_le]. eval_ch. lia.
  - apply andb_true_iff in H as [_ H%Z.leb_le]. eval_ch. lia.
Qed.
Lemma is_ident_char_lt b : is_ident_char b = true → b < 128.
Proof.
  unfold is_ident_char, is_ascii_alphanumeric. rewrite !orb_true_iff. intros [[H|H]|H].
  - by apply is_ascii_digit_lt.
  - by apply is_ascii_alphabetic_lt.
  - apply Z.eqb_eq in H. eval_ch. lia.
Qed.
Lemma is_ascii_whitespace_lt b : is_ascii_whitespace b = true → b < 128.
Proof. unfold is_ascii_whitespace. bdestruct_all; simpl; try done; lia. Qed.
Lemma is_op_char_lt b : is_op_char b = true → b < 128.
Proof. unfold is_op_char. eval_ch. bdestruct_all; simpl; try done; lia. Qed.

Lemma str_slice_ok s a b :
  (a ≤ b ≤ length s)%nat → is_char_boundary s a = true → is_char_boundary s b = true →
  str_slice s a b = Ok (take (b - a) (drop a s)).
Proof. intros [H1 H2] Ha Hb. unfold str_slice. rewrite Ha, Hb, slice_some by lia. done. Qed.

Lemma map_err_safe {E F A} (f : E → F) (m : res E A) Q (R : F → Prop) :
  safe m Q (λ e, R (f e)) → safe (map_err f m) Q R.
Proof. by destruct m. Qed.

Lemma digits_neg_total radix acc l : safe (digits_neg radix acc l) (λ _, True) (λ _, True).
Proof.
  revert acc. induction l as [|c l IH]; intros acc; [done|]. cbn [digits_neg].
  destruct (to_digit radix c); [|done].
  destruct (_ <? _); [done|]. destruct (_ <? _); [done|]. apply IH.
Qed.

(** [from_str_radix] always returns [Ok], an [i64], or [Err]. *)
Lemma from_str_radix_total s radix : 0 ≤ radix → safe (from_str_radix s radix) is_i64 (λ _, True).
Proof.
  intros Hr. pose proof (from_str_radix_range s radix) as Hv.
  assert (safe (from_str_radix s radix) (λ _, True) (λ _, True)) as Hs;
    [|destruct (from_str_radix s radix); try done; by apply Hv].
  clear Hv. unfold from_str_radix. destruct s as [|c [|c' rest]]; [done|..];
    destruct ((c =? ch "+") || (c =? ch "-")); try done; try apply digits_pos_safe.
  destruct (c =? ch "-"); [apply digits_neg_total|apply digits_pos_safe].
Qed.

(** The tail shared by the scanners: slice the scanned text and return. *)
Definition scanned (lx : Lexer) (start : nat) (r : Token * Lexer) : Prop :=
  token_ok lx start r.1 r.2 ∧ kind r.1 ≠ Eof.

Lemma scanned_intro lx start k lx' p :
  (∀ v, k = Int v → is_i64 v) → input lx' = input lx → pos lx' = p →
  k ≠ Eof → (start < p ≤ len lx)%nat → is_char_boundary (input lx) p = true →
  scanned lx start (tok k start p, lx').
Proof. intros Hv Hi <- Hk Hp Hb. split; [|done]. split; simpl; try done; lia. Qed.

Section scanners.
Context (lx : Lexer) (start : nat).
Context (Hutf : utf8 (input lx)).
(* The byte at [start] has been consumed: the lexer stands after it. *)
Context (b : Z) (Hb : input lx !! start = Some b).
Context (Hpos : pos lx = S start) (Hstart : is_char_boundary (input lx) start = true).

Lemma start_lt : (start < len lx)%nat.
Proof using Hb. by apply lookup_lt_Some in Hb. Qed.

Lemma lex_ident_ok :
  b < 128 → safe (lex_ident lx start) (scanned lx start) (error_ok lx).
Proof using All.
  intros Hlt. pose proof start_lt. unfold lex_ident.
  assert (lexer_ok lx) as Hok.
  { split; [done|lia|]. rewrite Hpos. by eapply boundary_after. }
  destruct (while_peek_ascii is_ident_char lx Hok is_ident_char_lt) as (n & -> & [_ Hn Hbd] & _).
  cbn in Hn, Hbd |- *. unfold len in Hn; simpl in Hn.
  rewrite Hpos in *. replace (S start - 1)%nat with start by lia.
  rewrite str_slice_ok by (done || lia). apply scanned_intro; unfold len; simpl; (done || lia).
Qed.

Lemma lex_bareword_ok : safe (lex_bareword lx start) (scanned lx start) (error_ok lx).
Proof using All.
  pose proof start_lt. unfold lex_bareword.
  destruct (while_peek_spec (λ b, negb (is_ascii_whitespace b || is_op_char b))
    (loop_fuel lx) lx ltac:(lia) (loop_fuel_enough lx)) as (n & -> & Hn & _ & Hstop).
  cbn. rewrite Hpos in *. replace (S start - 1)%nat with start by lia.
  assert (is_char_boundary (input lx) (S start + n) = true) as Hbd.
  { destruct (input lx !! (S start + n)%nat) as [c|] eqn:Hc.
    - eapply boundary_at; [done|]. specialize (Hstop c eq_refl).
      apply negb_false_iff, orb_true_iff in Hstop as [?|?];
        [by apply is_ascii_whitespace_lt|by apply is_op_char_lt].
    - apply lookup_ge_None in Hc. unfold len in *.
      replace (S start + n)%nat with (length (input lx)) by lia. apply boundary_end. }
  unfold len in Hn. rewrite str_slice_ok by (done || lia).
  apply scanned_intro; unfold len; simpl; (done || lia).
Qed.

Lemma lex_number_ok :
  is_ascii_digit b = true →
  safe (lex_number (with_pos lx start) start) (scanned lx start) (error_ok lx).
Proof using All.
  intros Hd. pose proof start_lt as Hlt. unfold len in Hlt.
  pose proof (is_ascii_digit_lt b Hd) as Hb128. unfold lex_number.
  destruct (bool_decide _ && (_ || _)) eqn:Hhex.
  - apply andb_true_iff in Hhex as [_ Hx].
    assert (∃ x, input lx !! S start = Some x ∧ x < 128) as (x & Hx1 & Hx2).
    { unfold peek2 in Hx; simpl in Hx. replace (start + 1)%nat with (S start) in Hx by lia.
      apply orb_true_iff in Hx as [Hx%bool_decide_eq_true|Hx%bool_decide_eq_true]; rewrite Hx;
        eval_ch; eexists; split; [done|lia|done|lia]. }
    assert ((bump (bump (with_pos lx start)).2).2 = with_pos lx (S (S start))) as ->.
    { unfold bump; simpl. rewrite Hb; simpl. replace (start + 1)%nat with (S start) by lia.
      rewrite Hx1. simpl. f_equal. lia. }
    assert (lexer_ok (with_pos lx (S (S start)))) as Hok.
    { apply lookup_lt_Some in Hx1 as ?. split; [done|unfold len; simpl; lia|].
      simpl. by eapply boundary_after. }
    destruct (while_peek_ascii is_ascii_hexdigit _ Hok is_ascii_hexdigit_lt)
      as (n & -> & [_ Hn Hbd] & _).
    cbn in Hn, Hbd |- *. unfold len in Hn; simpl in Hn.
    destruct (_ =? _)%nat; [simpl; unfold error_ok, len; simpl; lia|].
    rewrite str_slice_ok by (done || lia || apply (lo_boundary _ Hok)). cbn.
    eapply safe_bind; [apply map_err_safe; eapply safe_mono; [|done]|].
    + instantiate (1 := is_i64).
      generalize (from_str_radix_total (take (S (S (start + n)) - S (S start))
        (drop (S (S start)) (input lx))) 16 ltac:(lia)).
      destruct (from_str_radix _ 16); simpl; try done. intros _. unfold error_ok, len; simpl. lia.
    + intros v Hv. apply scanned_intro; unfold len; simpl; (done || lia || (intros ? [= <-]; done)).
  - assert (lexer_ok (with_pos lx start)) as Hok.
    { split; [done|unfold len; simpl; lia|done]. }
    destruct (while_peek_ascii is_ascii_digit _ Hok is_ascii_digit_lt)
      as (n & -> & [_ Hn Hbd] & Hstop).
    cbn in Hn, Hbd, Hstop |- *. unfold len in Hn; simpl in Hn.
    assert (0 < n)%nat as Hn0.
    { destruct n; [|lia]. rewrite Nat.add_0_r in Hstop. apply Hstop in Hb. congruence. }
    rewrite str_slice_ok by (done || lia). cbn.
    eapply safe_bind; [apply map_err_safe; eapply safe_mono; [|done]|].
    + instantiate (1 := is_i64).
      generalize (from_str_radix_total (take (start + n - start) (drop start (input lx))) 10 ltac:(lia)).
      destruct (from_str_radix _ 10); simpl; try done. intros _. unfold error_ok, len; simpl. lia.
    + intros v Hv. apply scanned_intro; unfold len; simpl; (done || lia || (intros ? [= <-]; done)).
Qed.
End scanners.

Lemma bump_some lx b lx' : bump lx = (Some b, lx') → input lx !! pos lx = Some b ∧ lx' = with_pos lx (S (pos lx)).
Proof.
  unfold bump. destruct (input lx !! pos lx) as [c|]; intros [= <- <-].
  split; [done|]. f_equal. lia.
Qed.

Lemma bump_none lx lx' : bump lx = (None, lx') → input lx !! pos lx = None ∧ lx' = lx.
Proof. unfold bump. by destruct (input lx !! pos lx); intros [= <-]. Qed.

Lemma lex_string_loop_ok lx start fuel quote :
  utf8 (input lx) → quote < 128 → ∀ p out,
  (start < p ≤ len lx)%nat → (len lx - p < fuel)%nat →
  safe (lex_string_loop fuel (with_pos lx p) start quote out) (scanned lx start) (error_ok lx).
Proof.
  intros Hu Hq. induction fuel as [|f IH]; intros p out Hp Hf; [lia|]. cbn [lex_string_loop].
  destruct (bump (with_pos lx p)) as [[b|] lx1] eqn:Hb1.
  - apply bump_some in Hb1 as [Hb1 ->]. simpl in Hb1. apply lookup_lt_Some in Hb1 as Hl1.
    fold (len lx) in Hl1. cbn [pos with_pos input].
    destruct (Z.eqb_spec b quote) as [->|].
    { apply scanned_intro; [done|done|done|done|lia|]. by eapply boundary_after. }
    destruct (Z.eqb_spec b (ch "\")); [|apply IH; lia].
    destruct (bump _) as [[c|] lx2] eqn:Hb2.
    + apply bump_some in Hb2 as [Hb2 ->]. simpl in Hb2. apply lookup_lt_Some in Hb2 as Hl2.
      fold (len lx) in Hl2. apply IH; simpl; lia.
    + apply bump_none in Hb2 as [_ ->]. simpl. unfold error_ok; simpl. lia.
  - apply bump_none in Hb1 as [_ ->]. simpl. unfold error_ok; simpl. lia.
Qed.

Lemma scanned_weaken lx start r Q :
  safe r (scanned lx start) (error_ok lx) →
  (∀ x : Token * Lexer, scanned lx start x → Q x) → safe r Q (error_ok lx).
Proof. intros H HQ. by eapply safe_mono. Qed.

Lemma op2_ok lx start next two one :
  (∀ v, two ≠ Int v) → pos lx = S start → (pos lx ≤ len lx)%nat → utf8 (input lx) → next < 128 → two ≠ Eof →
  safe one (scanned lx start) (error_ok lx) →
  safe (op2 lx start next two one) (scanned lx start) (error_ok lx).
Proof.
  intros Hv Hp Hl Hu Hn Ht H1. unfold op2.
  destruct (bool_decide_reflect (peek lx = Some next)) as [Hpk|]; [|done].
  unfold peek in Hpk. apply lookup_lt_Some in Hpk as Hlt. fold (len lx) in Hlt.
  unfold bump. rewrite Hpk. cbn -[is_char_boundary]. apply scanned_intro; simpl; try done; [by intros v ?%Hv|lia|].
  replace (pos lx + 1)%nat with (S (pos lx)) by lia. by eapply boundary_after.
Qed.

(** The dispatch, after its first byte has been consumed. *)
Lemma next_token_at_ok lx start b :
  utf8 (input lx) → input lx !! start = Some b → pos lx = S start →
  is_char_boundary (input lx) start = true →
  safe (next_token_at lx start b) (scanned lx start) (error_ok lx).
Proof.
  intros Hu Hb Hp Hs. apply lookup_lt_Some in Hb as Hlt. fold (len lx) in Hlt.
  assert (∀ k, b < 128 → k ≠ Eof ∧ (∀ v, k ≠ Int v) →
    safe (Ok (tok k start (pos lx), lx)) (scanned lx start) (error_ok lx)) as Hsingle.
  { intros k Hk [Hne Hi]. apply scanned_intro; try done; [by intros v ?%Hi|lia|]. rewrite Hp. by eapply boundary_after. }
  assert (∀ m, safe (@perr (Token * Lexer) start (pos lx) m) (scanned lx start) (error_ok lx)) as Herr.
  { intros m. simpl. unfold error_ok; simpl. lia. }
  assert (∀ c, b = ch c → ch c < 128 → b < 128) as Hc by (intros c -> ?; lia).
  unfold next_token_at. cbv zeta. clear Hc.
  destruct (Z.eqb_spec b (ch "(")); [apply Hsingle; [eval_ch; lia|done]|].
  destruct (Z.eqb_spec b (ch ")")); [apply Hsingle; [eval_ch; lia|done]|].
  destruct (Z.eqb_spec b (ch "&")).
  { apply op2_ok; [done|done|lia|done|eval_ch; lia|done|apply Hsingle; [eval_ch; lia|done]]. }
  destruct (Z.eqb_spec b (ch "|")); [apply op2_ok; [done|done|lia|done|eval_ch; lia|done|apply Herr]|].
  destruct (Z.eqb_spec b (ch "=")); [apply op2_ok; [done|done|lia|done|eval_ch; lia|done|apply Herr]|].
  destruct (Z.eqb_spec b (ch "!")); [apply op2_ok; [done|done|lia|done|eval_ch; lia|done|apply Herr]|].
  destruct (Z.eqb_spec b (ch "<")).
  { apply op2_ok; [done|done|lia|done|eval_ch; lia|done|apply Hsingle; [eval_ch; lia|done]]. }
  destruct (Z.eqb_spec b (ch ">")).
  { apply op2_ok; [done|done|lia|done|eval_ch; lia|done|apply Hsingle; [eval_ch; lia|done]]. }
  destruct (Z.eqb_spec b (ch "~")); [apply Hsingle; [eval_ch; lia|done]|].
  destruct ((b =? 34) || (b =? ch "'")) eqn:Hq.
  { unfold lex_string. replace lx with (with_pos lx (pos lx)) at 2 by (by destruct lx).
    apply lex_string_loop_ok; [done| |lia|apply loop_fuel_enough].
    apply orb_true_iff in Hq as [Hq%Z.eqb_eq|Hq%Z.eqb_eq]; eval_ch; lia. }
  destruct (is_ascii_digit b) eqn:Hd.
  { replace (pos lx - 1)%nat with start by lia. by eapply lex_number_ok. }
  destruct (is_ascii_alphabetic b || (b =? ch "_")) eqn:Hi.
  { eapply lex_ident_ok; try done.
    apply orb_true_iff in Hi as [Hi|Hi%Z.eqb_eq]; [by apply is_ascii_alphabetic_lt|eval_ch; lia]. }
  destruct (is_ascii_whitespace b || is_op_char b); [apply Herr|].
  by eapply lex_bareword_ok.
Qed.

(** [next_token]: from any lexer on a character boundary of a valid UTF-8
    input, the call returns a token or an error, never a panic; its span is
    exactly the text consumed after the white space, it leaves the lexer on
    a boundary, and any token but [Eof] consumes at least one byte. *)
Lemma next_token_spec lx :
  lexer_ok lx →
  safe (next_token lx)
    (λ '(t, lx'), ∃ start, (pos lx ≤ start ≤ len lx)%nat ∧ token_ok lx start t lx')
    (error_ok lx).
Proof.
  intros Hok. unfold next_token, skip_ws.
  destruct (while_peek_ascii is_ascii_whitespace lx Hok is_ascii_whitespace_lt)
    as (n & -> & [Hu Hn Hbd] & Hstop).
  cbn -[is_char_boundary bump] in *.
  destruct (bump _) as [[b|] lx1] eqn:Hb.
  - apply bump_some in Hb as [Hb ->]. cbn in Hb.
    pose proof (next_token_at_ok (with_pos (with_pos lx (pos lx + n)) (S (pos lx + n)))
      (pos lx + n) b Hu Hb eq_refl Hbd) as Hs.
    eapply safe_mono; [exact Hs|]. intros [t lx'] [[] _].
    exists (pos lx + n)%nat. split; [unfold len in *; simpl in *; lia|]. by split.
  - apply bump_none in Hb as [Hb _]. cbn in Hb.
    exists (pos lx + n)%nat. unfold len in *; simpl in *.
    apply lookup_ge_None in Hb. split; [lia|]. split; simpl; try done. intros _. unfold len. lia.
Qed.

Lemma next_token_ok lx lx' t :
  lexer_ok lx → next_token lx = Ok (t, lx') →
  lexer_ok lx' ∧ input lx' = input lx ∧
  (pos lx ≤ sp_start (span t) ≤ sp_end (span t))%nat ∧ sp_end (span t) = pos lx' ∧
  (kind t ≠ Eof → sp_start (span t) < sp_end (span t))%nat ∧
  (kind t = Eof → sp_start (span t) = len lx) ∧ (∀ v, kind t = Int v → is_i64 v).
Proof.
  intros Hok Ht. pose proof (safe_ok _ _ _ _ (next_token_spec lx Hok) Ht) as (st & Hst & []).
  subst st. rewrite to_end0. unfold len in *. split_and!; try done; try lia.
  destruct Hok. split; unfold len; rewrite to_input0; try done. lia.
Qed.

(** ** Properties *)

(** On a valid UTF-8 expression [lex_all] with one more unit of fuel
    than bytes always answers, with tokens or a lexical error, never with a
    panic and never out of fuel; and the spans of the tokens it returns lie
    inside the input and follow one another without overlap. *)
Theorem lex_all_total s :
  utf8 s →
  safe (lex_all (S (length s)) (Lexer_new s))
    (λ ts, Sorted (λ t u, sp_end (span t) ≤ sp_start (span u))%nat ts ∧
           Forall (λ t, sp_start (span t) < sp_end (span t) ≤ length s)%nat ts)
    (error_ok (Lexer_new s)).
Proof.
  intros Hs.
  assert (∀ fuel lx, lexer_ok lx → input lx = s → (len lx - pos lx < fuel)%nat →
    safe (lex_all fuel lx)
      (λ ts, Sorted (λ t u, sp_end (span t) ≤ sp_start (span u))%nat ts ∧
             Forall (λ t, sp_start (span t) < sp_end (span t) ≤ length s)%nat ts ∧
             (∀ t, head ts = Some t → pos lx ≤ sp_start (span t))%nat)
      (error_ok (Lexer_new s))) as Hgo.
  2: { eapply safe_mono; [apply Hgo|]; simpl; [|done|unfold len; simpl; lia|tauto].
       split; simpl; [done|lia|done]. }
  induction fuel as [|f IH]; intros lx Hok Hi Hf; [lia|]. cbn [lex_all].
  destruct (next_token lx) as [[t lx']|e| |] eqn:Ht; simpl; try done.
  - pose proof (next_token_ok _ _ _ Hok Ht) as (Hok' & Hi' & Hsp & He & Hpr & _).
    destruct (decide (kind t = Eof)); [simpl; split_and!; [constructor|constructor|done]|].
    pose proof (lo_pos _ Hok). pose proof (lo_pos _ Hok').
    assert (len lx' = len lx) by (unfold len; congruence).
    assert (len lx = length s) by (unfold len; congruence). specialize (Hpr ltac:(done)).
    eapply safe_bind; [apply (IH lx'); [done|congruence|lia]|].
    intros ts (Hso & Hfa & Hhd). split_and!.
    + constructor; [done|]. destruct ts as [|u ts]; constructor. specialize (Hhd u eq_refl). lia.
    + constructor; [lia|done].
    + intros u [= <-]. lia.
  - pose proof (next_token_spec lx Hok) as Hsp. rewrite Ht in Hsp. simpl in Hsp.
    unfold error_ok, len in *. simpl. by rewrite Hi in Hsp.
  - pose proof (next_token_spec lx Hok) as Hsp. by rewrite Ht in Hsp.
  - pose proof (next_token_spec lx Hok) as Hsp. by rewrite Ht in Hsp.
Qed.

(** [utf8] decided, for the concrete inputs of witnesses. *)
Fixpoint utf8b (fuel : nat) (s : str) : bool :=
  match fuel with
  | O => true
  | S f =>
      match s with
      | [] => true
      | a :: s =>
          if (0 <=? a) && (a <? 128) then utf8b f s
          else match s with
          | b :: s =>
              if (192 <=? a) && (a <? 224) then is_cont b && utf8b f s
              else match s with
              | c :: s =>
                  if (224 <=? a) && (a <? 240) then is_cont b && (is_cont c && utf8b f s)
                  else match s with
                  | d :: s =>
                      (240 <=? a) && (a <? 248) && is_cont b && is_cont c && is_cont d && utf8b f s
                  | [] => false
                  end
              | [] => false
              end
          | [] => false
          end
      end
  end.

Lemma utf8b_sound fuel s : (length s < fuel)%nat → utf8b fuel s = true → utf8 s.
Proof.
  revert s. induction fuel as [|f IH]; intros s Hl; [lia|].
  destruct s as [|a s]; [constructor|]. cbn [utf8b]. simpl in Hl.
  destruct ((0 <=? a) && (a <? 128)) eqn:E1.
  { apply andb_true_iff in E1 as [?%Z.leb_le ?%Z.ltb_lt]. intros Hr. apply utf8_1; [lia|].
    apply IH; [lia|done]. }
  destruct s as [|b s]; [done|]. simpl in Hl. destruct ((192 <=? a) && (a <? 224)) eqn:E2.
  { apply andb_true_iff in E2 as [?%Z.leb_le ?%Z.ltb_lt].
    intros [? ?]%andb_true_iff. apply utf8_2; [lia|done|]. apply IH; [lia|done]. }
  destruct s as [|c s]; [done|]. simpl in Hl. destruct ((224 <=? a) && (a <? 240)) eqn:E3.
  { apply andb_true_iff in E3 as [?%Z.leb_le ?%Z.ltb_lt].
    intros [? [? ?]%andb_true_iff]%andb_true_iff. apply utf8_3; [lia|done|done|].
    apply IH; [lia|done]. }
  destruct s as [|d s]; [done|]. simpl in Hl.
  rewrite !andb_true_iff, Z.leb_le, Z.ltb_lt. intros ((((? & ?) & ?) & ?) & ?).
  apply utf8_4; [lia|done|done|done|]. apply IH; [lia|done].
Qed.

Lemma lex_all_total_witness :
  utf8 (bs "sig >= 10 && comm ~ 'b*'") ∧
  safe (lex_all 25 (Lexer_new (bs "sig >= 10 && comm ~ 'b*'")))
    (λ ts, Sorted (λ t u, sp_end (span t) ≤ sp_start (span u))%nat ts ∧
           Forall (λ t, sp_start (span t) < sp_end (span t) ≤ 24)%nat ts)
    (error_ok (Lexer_new (bs "sig >= 10 && comm ~ 'b*'"))).
Proof.
  pose proof (utf8b_sound 25 (bs "sig >= 10 && comm ~ 'b*'") ltac:(vm_compute; lia)
    ltac:(vm_compute; reflexivity)) as Hu.
  split; [exact Hu|]. exact (lex_all_total _ Hu).
Defined.
