(* ===== verification/Parser.v ===== *)
(** The recursive-descent parser of tp-lexer/src/lib.rs ([Parser], [Expr]):
    termination, absence of panics and the precedence of its results. *)
From S2P Require Import Prelude Text IntLit Lexer.

(** ** Data *)
Inductive NumOp := NEq | NNe | NLt | NLe | NGt | NGe.
Inductive StrOp := SEq | SNe | SGlob.

#[export] Instance NumOp_eq_dec : EqDecision NumOp.
Proof. solve_decision. Defined.
#[export] Instance StrOp_eq_dec : EqDecision StrOp.
Proof. solve_decision. Defined.

Inductive Expr :=
  | Or (l r : Expr)
  | And (l r : Expr)
  | NumCmp (field : str) (field_span : Span) (mask : option Z) (op : NumOp) (rhs : Z)
  | StrCmp (field : str) (field_span : Span) (op : StrOp) (pat : str)
  | Group (e : Expr).

#[export] Instance Expr_eq_dec : EqDecision Expr.
Proof. solve_decision. Defined.

Record Parser := { lexer : Lexer; lookahead : Token }.

Abbreviation P A := (res ParseError (A * Parser)).

(** An error at the span of the lookahead token. *)
Definition err_here {A} (p : Parser) (m : PMsg) : res ParseError A :=
  Err {| pe_span := span (lookahead p); pe_message := m |}.

(** ** [Parser] operations *)
Definition Parser_new (s : str) : res ParseError Parser :=
  '(first, lx) ← next_token (Lexer_new s);
  Ok {| lexer := lx; lookahead := first |}.

Definition pbump (p : Parser) : P Token :=
  let cur := lookahead p in
  '(t, lx) ← next_token (lexer p);
  Ok (cur, {| lexer := lx; lookahead := t |}).

Definition expect (k : TokenKind) (p : Parser) : P Token :=
  if decide (kind (lookahead p) = k) then pbump p
  else err_here p (PExpected k (kind (lookahead p))).

Definition lit_message (e : LitError) : PMsg :=
  PLit match e with
       | LitEmptyValue => bs "integer value is empty"
       | LitMissingDigits => bs "integer literal missing digits"
       | LitHexMissingDigits => bs "hex literal missing digits"
       | LitOverflow => bs "integer literal overflow"
       | LitInvalid => bs "invalid integer literal"
       end.

Fixpoint parse_signed_int (fuel : nat) (p : Parser) : P Z :=
  match fuel with
  | O => OutOfFuel
  | S f =>
      match kind (lookahead p) with
      | Int v => '(_, p) ← pbump p; Ok (v, p)
      | Bareword st =>
          if decide (st = bs "-") then
            '(_, p') ← pbump p;
            '(value, p') ← parse_signed_int f p';
            match checked_neg value with
            | Some v => Ok (v, p')
            | None => err_here p (PLit (bs "integer literal overflow"))
            end
          else if decide (st = bs "+") then
            '(_, p') ← pbump p;
            parse_signed_int f p'
          else
            match parse_i64_literal_text st with
            | Ok v => '(_, p) ← pbump p; Ok (v, p)
            | Err e => err_here p (lit_message e)
            | Panic => Panic
            | OutOfFuel => OutOfFuel
            end
      | LParen =>
          '(_, p) ← pbump p;
          '(value, p) ← parse_signed_int f p;
          '(_, p) ← expect RParen p;
          Ok (value, p)
      | _ => err_here p (PLit (bs "numeric literal required"))
      end
  end.

(** [while let TokenKind::Bareword(st) = ... { s.push_str(&st) }]. *)
Fixpoint merge_barewords (fuel : nat) (s : str) (p : Parser) : P str :=
  match fuel with
  | O => OutOfFuel
  | S f =>
      match kind (lookahead p) with
      | Bareword st => '(_, p) ← pbump p; merge_barewords f (s ++ st) p
      | _ => Ok (s, p)
      end
  end.

(** Tokens consume at least a byte each, so the input length bounds the
    number of iterations. *)
Definition tokens_fuel (p : Parser) : nat := S (len (lexer p)).

Definition parse_pattern_literal (p : Parser) : P str :=
  match kind (lookahead p) with
  | StringTok st | Bareword st | Ident st =>
      '(_, p) ← pbump p; merge_barewords (tokens_fuel p) st p
  | _ => err_here p (PLit (bs "string literal required (quotes optional)"))
  end.

Definition starts_numeric_literal (p : Parser) : bool :=
  match kind (lookahead p) with
  | Int _ => true
  | Bareword st =>
      bool_decide (st = bs "-") || bool_decide (st = bs "+") ||
      match parse_i64_literal_text st with Ok _ => true | _ => false end
  | LParen => true
  | _ => false
  end.

Definition num_op (k : TokenKind) : option NumOp :=
  match k with
  | EqEq => Some NEq | NotEq => Some NNe | Lt => Some NLt
  | Le => Some NLe | Gt => Some NGt | Ge => Some NGe
  | _ => None
  end.

Definition parse_int (p : Parser) : P Z := parse_signed_int (tokens_fuel p) p.

Definition parse_field_cmp (p : Parser) : P Expr :=
  '(name_tok, p) ← pbump p;
  let field_span := span name_tok in
  match kind name_tok with
  | Ident field =>
      match kind (lookahead p) with
      | Amp =>
          '(_, p) ← pbump p;
          '(mask_val, p) ← parse_int p;
          '(op_tok, p) ← pbump p;
          match num_op (kind op_tok) with
          | Some op =>
              '(rhs, p) ← parse_int p;
              Ok (NumCmp field field_span (Some mask_val) op rhs, p)
          | None =>
              Err {| pe_span := span op_tok;
                     pe_message := PLit (bs "numeric comparison operator required") |}
          end
      | Lt | Le | Gt | Ge =>
          '(op_tok, p) ← pbump p;
          op ← unwrap (num_op (kind op_tok));
          '(rhs, p) ← parse_int p;
          Ok (NumCmp field field_span None op rhs, p)
      | Tilde =>
          '(_, p) ← pbump p;
          '(pat, p) ← parse_pattern_literal p;
          Ok (StrCmp field field_span SGlob pat, p)
      | EqEq | NotEq =>
          '(op_tok, p) ← pbump p;
          if starts_numeric_literal p then
            '(rhs, p) ← parse_int p;
            op ← match kind op_tok with EqEq => Ok NEq | NotEq => Ok NNe | _ => Panic end;
            Ok (NumCmp field field_span None op rhs, p)
          else
            '(pat, p) ← parse_pattern_literal p;
            op ← match kind op_tok with EqEq => Ok SEq | NotEq => Ok SNe | _ => Panic end;
            Ok (StrCmp field field_span op pat, p)
      | _ => err_here p (PLit (bs "comparison operator required"))
      end
  | _ => Panic (* unreachable!() *)
  end.

Fixpoint parse_or (fuel : nat) (p : Parser) : P Expr :=
  match fuel with
  | O => OutOfFuel
  | S f => '(lhs, p) ← parse_and f p; or_loop f lhs p
  end
with or_loop (fuel : nat) (lhs : Expr) (p : Parser) : P Expr :=
  match fuel with
  | O => OutOfFuel
  | S f =>
      match kind (lookahead p) with
      | OrOr =>
          '(_, p) ← pbump p;
          '(rhs, p) ← parse_and f p;
          or_loop f (Or lhs rhs) p
      | _ => Ok (lhs, p)
      end
  end
with parse_and (fuel : nat) (p : Parser) : P Expr :=
  match fuel with
  | O => OutOfFuel
  | S f => '(lhs, p) ← parse_cmp f p; and_loop f lhs p
  end
with and_loop (fuel : nat) (lhs : Expr) (p : Parser) : P Expr :=
  match fuel with
  | O => OutOfFuel
  | S f =>
      match kind (lookahead p) with
      | AndAnd =>
          '(_, p) ← pbump p;
          '(rhs, p) ← parse_cmp f p;
          and_loop f (And lhs rhs) p
      | _ => Ok (lhs, p)
      end
  end
with parse_cmp (fuel : nat) (p : Parser) : P Expr :=
  match fuel with
  | O => OutOfFuel
  | S f =>
      match kind (lookahead p) with
      | LParen =>
          '(_, p) ← pbump p;
          '(e, p) ← parse_or f p;
          '(_, p) ← expect RParen p;
          Ok (Group e, p)
      | Ident _ => parse_field_cmp p
      | _ => err_here p (PLit (bs "expected '(' or field name"))
      end
  end.

Definition parse (fuel : nat) (p : Parser) : res ParseError Expr :=
  '(expr, p) ← parse_or fuel p;
  match kind (lookahead p) with
  | Eof => Ok expr
  | _ => err_here p (PLit (bs "extraneous input"))
  end.

(** Four levels of the grammar per byte of input. *)
Definition parse_fuel (s : str) : nat := 4 * length s + 4.

Definition parse_str (s : str) : res ParseError Expr :=
  p ← Parser_new s; parse (parse_fuel s) p.

(** Fields and operators of an expression, without its spans. *)
Inductive Shape :=
  | ShOr (l r : Shape)
  | ShAnd (l r : Shape)
  | ShNum (field : str) (mask : option Z) (op : NumOp) (rhs : Z)
  | ShStr (field : str) (op : StrOp) (pat : str)
  | ShGroup (e : Shape).
#[export] Instance Shape_eq_dec : EqDecision Shape.
Proof. solve_decision. Defined.

Fixpoint shape (e : Expr) : Shape :=
  match e with
  | Or l r => ShOr (shape l) (shape r)
  | And l r => ShAnd (shape l) (shape r)
  | NumCmp f _ m op r => ShNum f m op r
  | StrCmp f _ op p => ShStr f op p
  | Group e => ShGroup (shape e)
  end.

Example parse_sample :
  (e ← parse_str (bs "(sig >= 10 || v & -(0x10) != 3) && comm ~ ba*"); Ok (shape e))
  = Ok (ShAnd
         (ShGroup (ShOr (ShNum (bs "sig") None NGe 10) (ShNum (bs "v") (Some (-16)) NNe 3)))
         (ShStr (bs "comm") SGlob (bs "ba*"))).
Proof. vm_compute. reflexivity. Qed.

(** ** Invariant and measure *)

Record parser_ok (p : Parser) : Prop := {
  po_lexer : lexer_ok (lexer p);
  po_order : (sp_start (span (lookahead p)) ≤ sp_end (span (lookahead p)))%nat;
  po_end : sp_end (span (lookahead p)) = pos (lexer p);
  po_tok : kind (lookahead p) ≠ Eof →
    (sp_start (span (lookahead p)) < sp_end (span (lookahead p)))%nat;
  po_eof : kind (lookahead p) = Eof → sp_start (span (lookahead p)) = len (lexer p);
  po_int : ∀ v, kind (lookahead p) = Int v → is_i64 v;
}.

(** Bytes not yet accounted for by a consumed token. *)
Definition rem (p : Parser) : nat := (len (lexer p) - sp_start (span (lookahead p)))%nat.

(** [p'] comes after [p], having consumed at least [k] bytes. *)
Record after (p : Parser) (k : nat) (p' : Parser) : Prop := {
  af_ok : parser_ok p';
  af_input : input (lexer p') = input (lexer p);
  af_rem : (rem p' + k ≤ rem p)%nat;
}.

Definition perr_ok (p : Parser) (e : ParseError) : Prop :=
  (sp_start (pe_span e) ≤ sp_end (pe_span e) ≤ len (lexer p))%nat.

Lemma after_trans p k p' k' p'' k'' :
  (k'' ≤ k + k')%nat → after p k p' → after p' k' p'' → after p k'' p''.
Proof. intros Hk [? Hi ?] [? Hi' ?]. split; [done|congruence|lia]. Qed.

Lemma after_refl p : parser_ok p → after p 0 p.
Proof. by split; [| |lia]. Qed.

Lemma after_weaken p k k' p' : (k' ≤ k)%nat → after p k p' → after p k' p'.
Proof. intros Hk [? ? ?]. split; [done|done|lia]. Qed.

Lemma perr_ok_after p k p' e : after p k p' → perr_ok p' e → perr_ok p e.
Proof. intros [_ Hi _]. unfold perr_ok, len. by rewrite Hi. Qed.

Lemma rem_le p : parser_ok p → (rem p ≤ len (lexer p))%nat.
Proof. unfold rem. lia. Qed.

Lemma rem_pos p : parser_ok p → kind (lookahead p) ≠ Eof → (0 < rem p)%nat.
Proof.
  intros [[_ Hp _] _ He Ht _ _] Hk. specialize (Ht Hk). unfold rem. lia.
Qed.

Lemma pbump_ok p :
  parser_ok p →
  safe (pbump p)
    (λ '(t, p'), t = lookahead p ∧
       after p (if decide (kind (lookahead p) = Eof) then 0 else 1) p')
    (perr_ok p).
Proof.
  intros Hok. pose proof (po_lexer _ Hok) as Hlx. unfold pbump.
  pose proof (next_token_spec _ Hlx) as Hsp. pose proof (next_token_ok (lexer p)) as Hn.
  destruct (next_token (lexer p)) as [[t lx]|e| |]; try done. cbn [mbind res_bind safe] in *.
  destruct (Hn _ _ Hlx eq_refl) as (Hlx' & Hi & Hord & Hend & Htok & Heof & Hint).
  assert (len lx = len (lexer p)) as Hlen by (unfold len; congruence).
  split; [done|]. split; [split; simpl; try done; [lia|rewrite Hlen; done]|done|].
  destruct Hok as [_ ? ? Ht He _]. unfold rem; simpl. destruct Hlx as [_ ? _], Hlx' as [_ ? _].
  destruct (decide (kind (lookahead p) = Eof)) as [E|E]; [specialize (He E); lia|].
  specialize (Ht E). lia.
Qed.

(** Sequencing a call after [p] has advanced to [p1]. *)
Lemma after_bind {A B} p k p1 (m : P A) (f : A * Parser → res ParseError B) Q Q' :
  after p k p1 →
  safe m Q (perr_ok p1) →
  (∀ x, Q x → safe (f x) Q' (perr_ok p)) →
  safe (m ≫= f) Q' (perr_ok p).
Proof.
  intros Ha Hm Hf. destruct m as [x|e| |]; simpl in *; try done; [by apply Hf|].
  by eapply perr_ok_after.
Qed.

Lemma after_safe {A} p k p1 (m : res ParseError A) Q :
  after p k p1 → safe m Q (perr_ok p1) → safe m Q (perr_ok p).
Proof. intros Ha. destruct m; simpl; try done. by eapply perr_ok_after. Qed.

Lemma err_here_ok {A} p k p1 m (Q : A → Prop) :
  parser_ok p1 → after p k p1 → safe (err_here p1 m) Q (perr_ok p).
Proof.
  intros [[_ Hl _] Ho He _ _ _] [_ Hi _]. simpl. unfold perr_ok, len in *. simpl.
  rewrite <- Hi. lia.
Qed.

(** One token consumed, whatever follows. *)
Lemma pbump_bind {B} p k p1 (f : Token * Parser → res ParseError B) Q' :
  after p k p1 →
  (∀ p2, after p (k + if decide (kind (lookahead p1) = Eof) then 0 else 1) p2 →
    safe (f (lookahead p1, p2)) Q' (perr_ok p)) →
  safe (pbump p1 ≫= f) Q' (perr_ok p).
Proof.
  intros Ha Hf. eapply after_bind; [done|apply pbump_ok, (af_ok _ _ _ Ha)|].
  intros [t p2] [-> H2]. apply Hf. by eapply after_trans.
Qed.

(** Advance the parser by one token in a [safe] goal. *)
Ltac step_bump :=
  eapply pbump_bind; [eassumption || (apply after_refl; assumption)|];
  let p := fresh "p" in let Hp := fresh "Hp" in intros p Hp;
  try (rewrite decide_False in Hp by congruence); cbn [fst snd].

Lemma parse_i64_total s : safe (parse_i64_literal_text s) is_i64 (λ _, True).
Proof.
  pose proof (literal_range s) as Hr.
  assert (safe (parse_i64_literal_text s) (λ _, True) (λ _, True)) as Hs.
  2: { destruct (parse_i64_literal_text s); try done. by apply Hr. }
  clear Hr. unfold parse_i64_literal_text. cbv zeta.
  assert (∀ g s r b, 0 ≤ r →
    safe (map_err g (from_str_radix s r) ≫= λ x, apply_sign b x) (λ _, True) (λ _, True)) as Hgo.
  { intros g s' r b Hrad. eapply (safe_bind _ _ (λ _, True)).
    - apply map_err_safe. eapply safe_mono; [by apply from_str_radix_total|done].
    - intros x _. destruct b; simpl; [|done]. unfold checked_neg. by destruct (_ =? _). }
  destruct (trim s) as [|c tl]; [done|].
  destruct (if c =? ch "-" then _ else _) as [b rest]. destruct rest as [|c' rest]; [done|].
  destruct (strip_hex_prefix (c' :: rest)) as [[|? ?]|]; [done|..]; apply Hgo; lia.
Qed.

Definition int_post (p : Parser) (r : Z * Parser) : Prop := is_i64 r.1 ∧ after p 1 r.2.

Lemma parse_signed_int_ok fuel p :
  parser_ok p → (rem p < fuel)%nat → safe (parse_signed_int fuel p) (int_post p) (perr_ok p).
Proof.
  revert p. induction fuel as [|f IH]; intros p Hok Hf; [lia|]. cbn [parse_signed_int].
  pose proof (after_refl p Hok) as Hr.
  assert (∀ p1 : Parser, after p 1 p1 → safe (parse_signed_int f p1)
    (λ r, is_i64 r.1 ∧ after p1 1 r.2) (perr_ok p1)) as Hrec.
  { intros p1 [Hok1 _ Hrem]. apply IH; [done|lia]. }
  destruct (kind (lookahead p)) eqn:Hk; try (by eapply err_here_ok).
  - step_bump. split; [|done]. by apply (po_int _ Hok).
  - destruct (decide (s = bs "-")); [|destruct (decide (s = bs "+"))].
    + step_bump. eapply after_bind; [exact Hp|by apply Hrec|].
      intros [v p1] [Hv H1]. cbn [fst snd] in *. unfold checked_neg.
      destruct (Z.eqb_spec v i64_min); [by eapply err_here_ok|]. split.
      * unfold is_i64, i64_min, i64_max in *. simpl in *. lia.
      * eapply after_trans; [|exact Hp|exact H1]. lia.
    + step_bump. eapply safe_mono.
      * eapply after_safe; [exact Hp|by apply Hrec].
      * intros [v p1] [Hv H1]. split; [done|]. eapply after_trans; [|exact Hp|exact H1]. lia.
    + pose proof (parse_i64_total s) as Ht. destruct (parse_i64_literal_text s); try done.
      * step_bump. by split.
      * by eapply err_here_ok.
  - step_bump. eapply after_bind; [exact Hp|by apply Hrec|].
    intros [v p1] [Hv H1]. cbn [fst snd] in *.
    assert (after p 1 p1) as Hp1 by (eapply after_trans; [|exact Hp|exact H1]; lia).
    unfold expect. destruct (decide (kind (lookahead p1) = RParen)).
    + step_bump. split; [done|]. eapply after_weaken; [|done]. lia.
    + eapply err_here_ok; [apply (af_ok _ _ _ Hp1)|done].
Qed.

Lemma parse_int_ok p k p1 :
  after p k p1 →
  safe (parse_int p1) (λ r, is_i64 r.1 ∧ after p (S k) r.2) (perr_ok p).
Proof.
  intros Ha. pose proof (af_ok _ _ _ Ha) as Hok.
  pose proof (parse_signed_int_ok (tokens_fuel p1) p1 Hok) as Hs.
  unfold parse_int. specialize (Hs ltac:(pose proof (rem_le _ Hok); unfold tokens_fuel; lia)).
  eapply safe_mono; [by eapply after_safe|].
  intros [v p2] [Hv H2]. split; [done|]. eapply after_trans; [|exact Ha|exact H2]. lia.
Qed.

Lemma merge_barewords_ok fuel p k p1 s :
  after p k p1 → (rem p1 < fuel)%nat →
  safe (merge_barewords fuel s p1) (λ r, after p k r.2) (perr_ok p).
Proof.
  revert k p1 s. induction fuel as [|f IH]; intros k p1 s Ha Hf; [lia|]. cbn [merge_barewords].
  destruct (kind (lookahead p1)) eqn:Hk; try done.
  eapply after_bind; [exact Ha|apply pbump_ok, (af_ok _ _ _ Ha)|].
  intros [t p2] [_ H2]. rewrite decide_False in H2 by congruence. pose proof (af_rem _ _ _ H2).
  apply IH; [|lia]. eapply after_trans; [|exact Ha|exact H2]. lia.
Qed.

Lemma parse_pattern_ok p k p1 :
  after p k p1 → safe (parse_pattern_literal p1) (λ r, after p (S k) r.2) (perr_ok p).
Proof.
  intros Ha. pose proof (af_ok _ _ _ Ha) as Hok. unfold parse_pattern_literal.
  assert (∀ st, kind (lookahead p1) ≠ Eof →
    safe ('(_, p2) ← pbump p1; merge_barewords (tokens_fuel p2) st p2)
      (λ r, after p (S k) r.2) (perr_ok p)) as Hgo.
  { intros st Hne. step_bump. eapply merge_barewords_ok; [eapply after_weaken; [|exact Hp]; lia|].
    pose proof (rem_le _ (af_ok _ _ _ Hp)). unfold tokens_fuel. lia. }
  destruct (kind (lookahead p1)) eqn:Hk; try (by eapply err_here_ok); by apply Hgo.
Qed.

(** ** Precedence *)

(** [prec lvl e]: [e] is a disjunction (level 0), a conjunction (level 1)
    or a comparison (level 2); chains associate to the left, a weaker
    operator under a stronger one is inside a [Group], and numbers are
    [i64]s. *)
Fixpoint prec (lvl : nat) (e : Expr) : Prop :=
  match e with
  | Or l r => lvl = 0%nat ∧ prec 0 l ∧ prec 1 r
  | And l r => (lvl ≤ 1)%nat ∧ prec 1 l ∧ prec 2 r
  | NumCmp _ _ mask _ rhs => is_i64 rhs ∧ match mask with Some m => is_i64 m | None => True end
  | StrCmp _ _ _ _ => True
  | Group e => prec 0 e
  end.

Lemma prec_mono lvl lvl' e : (lvl' ≤ lvl)%nat → prec lvl e → prec lvl' e.
Proof.
  intros Hl. destruct e; simpl; try tauto.
  - intros (-> & ? & ?). split_and!; [lia|done|done].
  - intros (? & ? & ?). split_and!; [lia|done|done].
Qed.

Definition expr_post (p : Parser) (lvl : nat) (r : Expr * Parser) : Prop :=
  prec lvl r.1 ∧ after p 1 r.2.

Ltac step_int :=
  eapply safe_bind; [eapply parse_int_ok; eassumption|];
  let v := fresh "v" in let p := fresh "p" in let Hv := fresh "Hv" in let Hp := fresh "Hp" in
  intros [v p] [Hv Hp]; cbn [fst snd] in *.
Ltac step_pat :=
  eapply safe_bind; [eapply parse_pattern_ok; eassumption|];
  let v := fresh "v" in let p := fresh "p" in let Hp := fresh "Hp" in
  intros [v p] Hp; cbn [fst snd] in *.
Ltac done_field := split; [simpl; tauto|eapply after_weaken; [|eassumption]; lia].

Lemma parse_field_cmp_ok p f :
  parser_ok p → kind (lookahead p) = Ident f →
  safe (parse_field_cmp p) (expr_post p 2) (perr_ok p).
Proof.
  intros Hok Hk. unfold parse_field_cmp. pose proof (after_refl p Hok) as Hr.
  step_bump. rewrite Hk. pose proof (af_ok _ _ _ Hp) as Hok0.
  destruct (kind (lookahead p0)) eqn:Hk0; try (by eapply err_here_ok).
  - (* & mask *)
    step_bump. step_int. step_bump.
    destruct (num_op (kind (lookahead p2))); [step_int; done_field|].
    simpl. destruct (af_ok _ _ _ Hp1) as [[_ Hl _] Ho He _ _ _].
    unfold perr_ok, len in *; simpl. rewrite <- (af_input _ _ _ Hp1). lia.
  - step_bump. destruct (starts_numeric_literal p1); [step_int|step_pat]; rewrite Hk0; done_field.
  - step_bump. destruct (starts_numeric_literal p1); [step_int|step_pat]; rewrite Hk0; done_field.
  - step_bump. rewrite Hk0. simpl. step_int. done_field.
  - step_bump. rewrite Hk0. simpl. step_int. done_field.
  - step_bump. rewrite Hk0. simpl. step_int. done_field.
  - step_bump. rewrite Hk0. simpl. step_int. done_field.
  - step_bump. step_pat. done_field.
Qed.

(** Enough fuel for the three levels and the two loops, by induction on it. *)
Definition levels_ok (fuel : nat) : Prop :=
  (∀ p, parser_ok p → (4 * rem p + 3 ≤ fuel)%nat → safe (parse_or fuel p) (expr_post p 0) (perr_ok p)) ∧
  (∀ q p l, after q 1 p → prec 0 l → (4 * rem p + 3 ≤ fuel)%nat →
     safe (or_loop fuel l p) (expr_post q 0) (perr_ok q)) ∧
  (∀ p, parser_ok p → (4 * rem p + 2 ≤ fuel)%nat → safe (parse_and fuel p) (expr_post p 1) (perr_ok p)) ∧
  (∀ q p l, after q 1 p → prec 1 l → (4 * rem p + 2 ≤ fuel)%nat →
     safe (and_loop fuel l p) (expr_post q 1) (perr_ok q)) ∧
  (∀ p, parser_ok p → (4 * rem p + 1 ≤ fuel)%nat → safe (parse_cmp fuel p) (expr_post p 2) (perr_ok p)).

(** One iteration of either loop: the operator, an operand, the rest. *)
Lemma loop_step {B} q p lvl (sub : Parser → P Expr) (k : Expr * Parser → res ParseError B) Q :
  after q 1 p → kind (lookahead p) ≠ Eof →
  (∀ p0, after p 1 p0 → safe (sub p0) (expr_post p0 lvl) (perr_ok p0)) →
  (∀ r p1, prec lvl r → after p 1 p1 → after q 1 p1 → safe (k (r, p1)) Q (perr_ok q)) →
  safe ('(_, p0) ← pbump p; sub p0 ≫= k) Q (perr_ok q).
Proof.
  intros Hq Hk Hsub Hrest. eapply after_bind; [exact Hq|apply pbump_ok, (af_ok _ _ _ Hq)|].
  intros [t p0] [_ H0]. rewrite decide_False in H0 by done.
  eapply after_bind; [eapply (after_trans q 1 p 1 p0); [reflexivity|exact Hq|exact H0]|by apply Hsub|].
  intros [r p1] [Hr H1]. cbn [fst snd] in *.
  assert (after p 1 p1) as Hp1 by (eapply after_trans; [|exact H0|exact H1]; lia).
  apply Hrest; [done|done|]. eapply after_trans; [|exact Hq|exact Hp1]. lia.
Qed.

Lemma levels_ok_all fuel : levels_ok fuel.
Proof.
  induction fuel as [|f (IHo & IHol & IHa & IHal & IHc)]; [repeat split; intros; lia|].
  repeat split.
  - intros p Hok Hf. cbn [parse_or]. eapply safe_bind; [apply IHa; [done|lia]|].
    intros [l p1] [Hl H1]. cbn [fst snd] in *. pose proof (af_rem _ _ _ H1).
    apply IHol; [done|by apply (prec_mono 1); [lia|]|lia].
  - intros q p l Hq Hl Hf. cbn [or_loop].
    destruct (kind (lookahead p)) eqn:Hk; try by split.
    eapply (loop_step q p 1); [done|congruence| |].
    + intros p0 H0. pose proof (af_rem _ _ _ H0). apply IHa; [apply (af_ok _ _ _ H0)|lia].
    + intros r p1 Hr H1 Hq1. pose proof (af_rem _ _ _ H1). apply IHol; [done|simpl; tauto|lia].
  - intros p Hok Hf. cbn [parse_and]. eapply safe_bind; [apply IHc; [done|lia]|].
    intros [l p1] [Hl H1]. cbn [fst snd] in *. pose proof (af_rem _ _ _ H1).
    apply IHal; [done|by apply (prec_mono 2); [lia|]|lia].
  - intros q p l Hq Hl Hf. cbn [and_loop].
    destruct (kind (lookahead p)) eqn:Hk; try by split.
    eapply (loop_step q p 2); [done|congruence| |].
    + intros p0 H0. pose proof (af_rem _ _ _ H0). apply IHc; [apply (af_ok _ _ _ H0)|lia].
    + intros r p1 Hr H1 Hq1. pose proof (af_rem _ _ _ H1). apply IHal; [done|simpl; auto|lia].
  - intros p Hok Hf. cbn [parse_cmp]. pose proof (after_refl p Hok) as Hr.
    destruct (kind (lookahead p)) eqn:Hk; try (by eapply err_here_ok).
    + by eapply parse_field_cmp_ok.
    + step_bump. pose proof (af_rem _ _ _ Hp).
      eapply after_bind; [exact Hp|apply IHo; [apply (af_ok _ _ _ Hp)|lia]|].
      intros [e p1] [He H1]. cbn [fst snd] in *.
      assert (after p 1 p1) as Hp1 by (eapply after_trans; [|exact Hp|exact H1]; lia).
      unfold expect. destruct (decide (kind (lookahead p1) = RParen)).
      * step_bump. split; [done|]. eapply after_weaken; [|done]. lia.
      * eapply err_here_ok; [apply (af_ok _ _ _ Hp1)|done].
Qed.

Lemma Parser_new_ok s :
  utf8 s →
  safe (Parser_new s) (λ p, parser_ok p ∧ input (lexer p) = s)
    (λ e, sp_start (pe_span e) ≤ sp_end (pe_span e) ≤ length s)%nat.
Proof.
  intros Hs. assert (lexer_ok (Lexer_new s)) as Hlx by (split; simpl; try done; lia).
  unfold Parser_new. pose proof (next_token_spec _ Hlx) as Hsp.
  pose proof (next_token_ok (Lexer_new s)) as Hn.
  destruct (next_token (Lexer_new s)) as [[t lx]|e| |]; try done. simpl.
  destruct (Hn _ _ Hlx eq_refl) as (Hlx' & Hi & Hord & Hend & Htok & Heof & Hint).
  split; [|done]. split; simpl; try done; [lia|]. intros He. rewrite Heof by done.
  unfold len. by rewrite Hi.
Qed.

Lemma parse_str_ok s :
  utf8 s →
  safe (parse_str s) (prec 0) (λ e, sp_start (pe_span e) ≤ sp_end (pe_span e) ≤ length s)%nat.
Proof.
  intros Hs. unfold parse_str. eapply safe_bind; [by apply Parser_new_ok|].
  intros p [Hok Hi]. unfold parse. pose proof (rem_le p Hok) as Hrem.
  assert (len (lexer p) = length s) as Hlen by (unfold len; congruence).
  pose proof (after_refl p Hok) as Hr.
  assert (safe (parse_or (parse_fuel s) p) (expr_post p 0) (perr_ok p)) as Hgo.
  { apply (proj1 (levels_ok_all _)); [done|]. unfold parse_fuel. lia. }
  destruct (parse_or (parse_fuel s) p) as [[e p1]|e| |]; try done; simpl.
  - destruct Hgo as [He H1]. cbn [fst snd] in *.
    assert (safe (@err_here Expr p1 (PLit (bs "extraneous input"))) (prec 0) (perr_ok p)) as Herr.
    { eapply err_here_ok; [apply (af_ok _ _ _ H1)|done]. }
    destruct (kind (lookahead p1)); try done;
      unfold perr_ok in Herr; simpl in Herr; rewrite Hlen in Herr; exact Herr.
  - unfold perr_ok in Hgo; simpl in Hgo. by rewrite Hlen in Hgo.
Qed.

(** ** Properties *)

(** C37: parsing terminates and never panics: on every valid UTF-8 filter the
    parser answers, within [parse_fuel], either an error whose span lies in
    the input or an expression with the documented precedence (comparison
    over [&&] over [||], chains to the left, parentheses kept as groups) and
    [i64] operands.  In particular none of its [unreachable!()] arms, slices
    or [unwrap]s can panic. *)
Theorem parse_total s :
  utf8 s →
  safe (parse_str s) (prec 0) (λ e, sp_start (pe_span e) ≤ sp_end (pe_span e) ≤ length s)%nat.
Proof. apply parse_str_ok. Qed.

Lemma parse_total_witness :
  utf8 (bs "a == 1 || b == 2 && c ~ x*") ∧
  safe (parse_str (bs "a == 1 || b == 2 && c ~ x*")) (prec 0)
    (λ e, sp_start (pe_span e) ≤ sp_end (pe_span e) ≤ 26)%nat.
Proof.
  pose proof (utf8b_sound 27 (bs "a == 1 || b == 2 && c ~ x*") ltac:(vm_compute; lia)
    ltac:(vm_compute; reflexivity)) as Hu.
  split; [exact Hu|]. exact (parse_total _ Hu).
Defined.
