(* ===== verification/Grammar.v ===== *)
(** The grammar of the filter language, and that the parser decides it.

    [formula] derives token sequences with the expression they stand for:
    [||] over [&&] over comparisons, chains to the left.  The parser of
    tp-lexer/src/lib.rs reads its tokens from the lexer one at a time, with
    one token of lookahead; [rest] is what it has still to read. *)
From S2P Require Import Prelude Text IntLit Lexer Parser.

(** ** The grammar *)

(** An integer: a literal behind any signs and in any parentheses. *)
Inductive int_lit : list TokenKind → Z → Prop :=
  | il_int v : int_lit [Int v] v
  | il_neg ks v : int_lit ks v → v ≠ i64_min → int_lit (Bareword (bs "-") :: ks) (- v)
  | il_pos ks v : int_lit ks v → int_lit (Bareword (bs "+") :: ks) v
  | il_word st v : st ≠ bs "-" → st ≠ bs "+" → parse_i64_literal_text st = Ok v → int_lit [Bareword st] v
  | il_paren ks v : int_lit ks v → int_lit (LParen :: ks ++ [RParen]) v.

(** A text: a string, a word or a name, and the words that follow it. *)
Definition text_of (k : TokenKind) : option str :=
  match k with StringTok st | Bareword st | Ident st => Some st | _ => None end.
Inductive pattern : list TokenKind → str → Prop :=
  | pat_words k st more : text_of k = Some st → pattern (k :: (Bareword <$> more)) (st ++ concat more).

(** What a number can start with. *)
Definition numeric_start (k : TokenKind) : bool :=
  match k with
  | Int _ | LParen => true
  | Bareword st =>
      bool_decide (st = bs "-") || bool_decide (st = bs "+") ||
      match parse_i64_literal_text st with Ok _ => true | _ => false end
  | _ => false
  end.
Definition str_op (k : TokenKind) : option StrOp :=
  match k with EqEq => Some SEq | NotEq => Some SNe | _ => None end.

(** A text after [==] or [!=] must not look like a number. *)
Inductive comparison : list TokenKind → Shape → Prop :=
  | cmp_num f k op ks r :
      num_op k = Some op → int_lit ks r → comparison (Ident f :: k :: ks) (ShNum f None op r)
  | cmp_mask f ks m k op ks' r :
      int_lit ks m → num_op k = Some op → int_lit ks' r →
      comparison (Ident f :: Amp :: ks ++ k :: ks') (ShNum f (Some m) op r)
  | cmp_glob f ks pat : pattern ks pat → comparison (Ident f :: Tilde :: ks) (ShStr f SGlob pat)
  | cmp_str f k op k1 ks pat :
      str_op k = Some op → numeric_start k1 = false → pattern (k1 :: ks) pat →
      comparison (Ident f :: k :: k1 :: ks) (ShStr f op pat).

(** Level 0 is a disjunction, 1 a conjunction, 2 a comparison or a group. *)
Inductive formula : nat → list TokenKind → Shape → Prop :=
  | fm_or ks l ks' r : formula 0 ks l → formula 1 ks' r → formula 0 (ks ++ OrOr :: ks') (ShOr l r)
  | fm_conj ks e : formula 1 ks e → formula 0 ks e
  | fm_and ks l ks' r : formula 1 ks l → formula 2 ks' r → formula 1 (ks ++ AndAnd :: ks') (ShAnd l r)
  | fm_unit ks e : formula 2 ks e → formula 1 ks e
  | fm_cmp ks e : comparison ks e → formula 2 ks e
  | fm_group ks e : formula 0 ks e → formula 2 (LParen :: ks ++ [RParen]) (ShGroup e).

(** ** The tokens the parser has still to read *)
Inductive rest : Parser → list TokenKind → Prop :=
  | rest_end p : kind (lookahead p) = Eof → rest p []
  | rest_next p p' ks :
      kind (lookahead p) ≠ Eof → pbump p = Ok (lookahead p, p') → rest p' ks → rest p (kind (lookahead p) :: ks).

(** The kinds of all tokens of a text. *)
Definition tokens (s : str) : res ParseError (list TokenKind) :=
  ts ← lex_all (S (length s)) (Lexer_new s); Ok (map kind ts).

Lemma pbump_lookahead p t p' : pbump p = Ok (t, p') → t = lookahead p.
Proof. unfold pbump. intros H. apply bind_ok in H as ([t' lx] & _ & [= <- _]). done. Qed.

Lemma rest_bump p t p' k ks : pbump p = Ok (t, p') → kind (lookahead p) = k → k ≠ Eof → rest p' ks → rest p (k :: ks).
Proof.
  intros Hb <- Hk Hr. pose proof (pbump_lookahead _ _ _ Hb) as ->. by apply (rest_next p p').
Qed.

Lemma rest_cons p k ks : rest p (k :: ks) → kind (lookahead p) = k ∧ k ≠ Eof ∧ ∃ p', pbump p = Ok (lookahead p, p') ∧ rest p' ks.
Proof. inversion 1; subst. split; [done|]. split; [done|]. by eexists. Qed.

Lemma rest_nil p : rest p [] → kind (lookahead p) = Eof.
Proof. by inversion 1. Qed.

(** A token takes at least a byte. *)
Lemma rest_length p ks : parser_ok p → rest p ks → (length ks ≤ rem p)%nat.
Proof.
  intros Hok Hr. induction Hr as [p _|p p' ks Hk Hb _ IH]; simpl; [lia|].
  pose proof (pbump_ok p Hok) as Hs. rewrite Hb in Hs. destruct Hs as [_ [Hok' _ Hrem]]. rewrite decide_False in Hrem by done.
  specialize (IH Hok'). lia.
Qed.

Lemma rest_ok p t p' : parser_ok p → pbump p = Ok (t, p') → parser_ok p'.
Proof. intros Hok Hb. pose proof (pbump_ok p Hok) as Hs. rewrite Hb in Hs. by destruct Hs as [_ []]. Qed.

(** ** The parser accepts only the grammar *)

Lemma expect_ok k p t p' : expect k p = Ok (t, p') → kind (lookahead p) = k ∧ pbump p = Ok (t, p').
Proof. unfold expect. case_decide; [done|]. unfold err_here. done. Qed.

(** Invert a successful sequence of calls. *)
Ltac ok_inv :=
  repeat match goal with
  | H : Ok _ = Ok _ |- _ => injection H as H
  | H : (_ ≫= _) = Ok _ |- _ => apply bind_ok in H as ([? ?] & ? & H); cbn beta iota in H
  | H : expect _ _ = Ok _ |- _ => apply expect_ok in H as [? ?]
  | H : err_here _ _ = Ok _ |- _ => discriminate H
  end; subst.

Lemma parse_signed_int_sound fuel p v p' ks' :
  parse_signed_int fuel p = Ok (v, p') → rest p' ks' → ∃ ks, rest p (ks ++ ks') ∧ int_lit ks v.
Proof.
  revert p v p' ks'. induction fuel as [|f IH]; intros p v p' ks' Hp Hr; [done|]. cbn [parse_signed_int] in Hp.
  destruct (kind (lookahead p)) as [| | |st| | | | | | | | | | | | |] eqn:Hk; try done; ok_inv.
  - eexists [_]. split; [by eapply rest_bump|constructor].
  - destruct (decide (st = bs "-")) as [->|Hm]; [|destruct (decide (st = bs "+")) as [->|Hpl]].
    + ok_inv. destruct (checked_neg z) as [w|] eqn:Hn; [|done]. ok_inv.
      destruct (IH _ _ _ _ H0 Hr) as (ks & Hks & Hi). exists (Bareword (bs "-") :: ks).
      split; [by eapply rest_bump|]. unfold checked_neg in Hn. destruct (Z.eqb_spec z i64_min); [done|]. injection Hn as <-. by constructor.
    + ok_inv. destruct (IH _ _ _ _ Hp Hr) as (ks & Hks & Hi). exists (Bareword (bs "+") :: ks).
      split; [by eapply rest_bump|by constructor].
    + destruct (parse_i64_literal_text st) eqn:Hl; try done. ok_inv. eexists [_]. split; [by eapply rest_bump|by constructor].
  - ok_inv. assert (rest p1 (RParen :: ks')) as Hr1 by (by eapply rest_bump).
    destruct (IH _ _ _ _ H0 Hr1) as (ks & Hks & Hi). exists (LParen :: ks ++ [RParen]). split; [|by constructor].
    simpl. rewrite <- app_assoc. by eapply rest_bump.
Qed.

Lemma merge_barewords_sound fuel s p st p' ks' :
  merge_barewords fuel s p = Ok (st, p') → rest p' ks' →
  ∃ more, rest p ((Bareword <$> more) ++ ks') ∧ st = s ++ concat more.
Proof.
  revert s p. induction fuel as [|f IH]; intros s p Hp Hr; [done|]. cbn [merge_barewords] in Hp.
  destruct (kind (lookahead p)) as [| | |w| | | | | | | | | | | | |] eqn:Hk;
    try (injection Hp as -> ->; exists []; by rewrite app_nil_r).
  ok_inv. destruct (IH _ _ Hp Hr) as (more & Hks & ->). exists (w :: more). simpl.
  split; [by eapply rest_bump|]. by rewrite app_assoc.
Qed.

Lemma parse_pattern_sound p st p' ks' :
  parse_pattern_literal p = Ok (st, p') → rest p' ks' →
  ∃ ks, rest p (kind (lookahead p) :: ks ++ ks') ∧ pattern (kind (lookahead p) :: ks) st.
Proof.
  intros Hp Hr. unfold parse_pattern_literal in Hp.
  destruct (kind (lookahead p)) eqn:Hk; try done; ok_inv;
    destruct (merge_barewords_sound _ _ _ _ _ _ Hp Hr) as (more & Hks & ->); exists (Bareword <$> more);
    (split; [by eapply rest_bump|by constructor]).
Qed.

Lemma parse_int_sound p v p' ks' :
  parse_int p = Ok (v, p') → rest p' ks' → ∃ ks, rest p (ks ++ ks') ∧ int_lit ks v.
Proof. apply parse_signed_int_sound. Qed.

Lemma starts_numeric p : starts_numeric_literal p = numeric_start (kind (lookahead p)).
Proof. done. Qed.

Lemma parse_field_cmp_sound p f e p' ks' :
  kind (lookahead p) = Ident f → parse_field_cmp p = Ok (e, p') → rest p' ks' →
  ∃ ks, rest p (ks ++ ks') ∧ comparison ks (shape e).
Proof.
  intros Hk Hp Hr. unfold parse_field_cmp in Hp. apply bind_ok in Hp as ([t p0] & Hb & Hp). cbn beta iota in Hp.
  rewrite (pbump_lookahead _ _ _ Hb), Hk in Hp.
  assert (∀ k1 op v p1 p2, kind (lookahead p0) = k1 → num_op k1 = Some op → pbump p0 = Ok (lookahead p0, p1) →
    parse_int p1 = Ok (v, p2) → rest p2 ks' → ∃ ks, rest p (ks ++ ks') ∧ comparison ks (ShNum f None op v)) as Hnum.
  { intros k1 op v p1 p2 Hk1 Hop Hb1 Hi Hr2. destruct (parse_int_sound _ _ _ _ Hi Hr2) as (ks & Hks & Hv).
    exists (Ident f :: k1 :: ks). split; [|by constructor]. simpl.
    eapply rest_bump; [done|done|done|]. eapply rest_bump; [done|done| |done]. by intros ->. }
  assert (∀ k1 op st p1 p2, kind (lookahead p0) = k1 → str_op k1 = Some op → pbump p0 = Ok (lookahead p0, p1) →
    starts_numeric_literal p1 = false → parse_pattern_literal p1 = Ok (st, p2) → rest p2 ks' →
    ∃ ks, rest p (ks ++ ks') ∧ comparison ks (ShStr f op st)) as Hstr.
  { intros k1 op st p1 p2 Hk1 Hop Hb1 Hs Hi Hr2. destruct (parse_pattern_sound _ _ _ _ Hi Hr2) as (ks & Hks & Hv).
    exists (Ident f :: k1 :: kind (lookahead p1) :: ks). split; [|by constructor]. simpl.
    eapply rest_bump; [done|done|done|]. eapply rest_bump; [done|done| |done]. by intros ->. }
  destruct (kind (lookahead p0)) eqn:Hk0; try done; apply bind_ok in Hp as ([t1 p1] & Hb1 & Hp); cbn beta iota in Hp;
    pose proof (pbump_lookahead _ _ _ Hb1) as ->; rewrite ?Hk0 in Hp; simpl in Hp.
  - apply bind_ok in Hp as ([m p2] & Hm & Hp). cbn beta iota in Hp. apply bind_ok in Hp as ([t2 p3] & Hb2 & Hp). cbn beta iota in Hp.
    pose proof (pbump_lookahead _ _ _ Hb2) as ->. destruct (num_op (kind (lookahead p2))) as [op|] eqn:Hop; [|done].
    apply bind_ok in Hp as ([v p4] & Hv & Hp). injection Hp as <- <-.
    destruct (parse_int_sound _ _ _ _ Hv Hr) as (ks2 & Hks2 & Hi2).
    assert (rest p2 (kind (lookahead p2) :: ks2 ++ ks')) as Hr2 by (eapply rest_bump; [done|done| |done]; by intros He; rewrite He in Hop).
    destruct (parse_int_sound _ _ _ _ Hm Hr2) as (ks1 & Hks1 & Hi1).
    exists (Ident f :: Amp :: ks1 ++ kind (lookahead p2) :: ks2). split; [|by constructor]. simpl. rewrite <- app_assoc. simpl.
    eapply rest_bump; [done|done|done|]. by eapply rest_bump.
  - destruct (starts_numeric_literal p1) eqn:Hs; apply bind_ok in Hp as ([v p2] & Hv & Hp); injection Hp as <- <-;
      [by apply (Hnum EqEq _ _ p1 p2)|by apply (Hstr EqEq _ _ p1 p2)].
  - destruct (starts_numeric_literal p1) eqn:Hs; apply bind_ok in Hp as ([v p2] & Hv & Hp); injection Hp as <- <-;
      [by apply (Hnum NotEq _ _ p1 p2)|by apply (Hstr NotEq _ _ p1 p2)].
  - apply bind_ok in Hp as ([v p2] & Hv & Hp). injection Hp as <- <-. by apply (Hnum Lt _ _ p1 p2).
  - apply bind_ok in Hp as ([v p2] & Hv & Hp). injection Hp as <- <-. by apply (Hnum Le _ _ p1 p2).
  - apply bind_ok in Hp as ([v p2] & Hv & Hp). injection Hp as <- <-. by apply (Hnum Gt _ _ p1 p2).
  - apply bind_ok in Hp as ([v p2] & Hv & Hp). injection Hp as <- <-. by apply (Hnum Ge _ _ p1 p2).
  - apply bind_ok in Hp as ([v p2] & Hv & Hp). injection Hp as <- <-.
    destruct (parse_pattern_sound _ _ _ _ Hv Hr) as (ks & Hks & Hpat).
    exists (Ident f :: Tilde :: kind (lookahead p1) :: ks). split; [|by constructor]. simpl.
    eapply rest_bump; [done|done|done|]. by eapply rest_bump.
Qed.

(** A loop appends what it reads to what its left operand was read from. *)
Lemma parse_levels_sound fuel :
  (∀ p e p' ks', parse_or fuel p = Ok (e, p') → rest p' ks' → ∃ ks, rest p (ks ++ ks') ∧ formula 0 ks (shape e)) ∧
  (∀ lhs p e p' ks', or_loop fuel lhs p = Ok (e, p') → rest p' ks' →
     ∃ ks, rest p (ks ++ ks') ∧ ∀ ks0, formula 0 ks0 (shape lhs) → formula 0 (ks0 ++ ks) (shape e)) ∧
  (∀ p e p' ks', parse_and fuel p = Ok (e, p') → rest p' ks' → ∃ ks, rest p (ks ++ ks') ∧ formula 1 ks (shape e)) ∧
  (∀ lhs p e p' ks', and_loop fuel lhs p = Ok (e, p') → rest p' ks' →
     ∃ ks, rest p (ks ++ ks') ∧ ∀ ks0, formula 1 ks0 (shape lhs) → formula 1 (ks0 ++ ks) (shape e)) ∧
  (∀ p e p' ks', parse_cmp fuel p = Ok (e, p') → rest p' ks' → ∃ ks, rest p (ks ++ ks') ∧ formula 2 ks (shape e)).
Proof.
  induction fuel as [|f (IHo & IHol & IHa & IHal & IHc)]; [by repeat split|].
  repeat split; intros *; simpl; intros Hp Hr.
  - ok_inv. destruct (IHol _ _ _ _ _ Hp Hr) as (ks2 & Hr2 & Hl). destruct (IHa _ _ _ _ H Hr2) as (ks1 & Hr1 & Hf).
    exists (ks1 ++ ks2). rewrite <- app_assoc. split; [done|]. by apply Hl, fm_conj.
  - destruct (kind (lookahead p)) eqn:Hk; try (injection Hp as <- <-; exists []; split; [done|by intros ks0; rewrite app_nil_r]).
    ok_inv. destruct (IHol _ _ _ _ _ Hp Hr) as (ks2 & Hr2 & Hl). destruct (IHa _ _ _ _ H0 Hr2) as (ks1 & Hr1 & Hf).
    exists (OrOr :: ks1 ++ ks2). split; [simpl; rewrite <- app_assoc; by eapply rest_bump|].
    intros ks0 Hk0. rewrite app_comm_cons, app_assoc. apply Hl. by apply fm_or.
  - ok_inv. destruct (IHal _ _ _ _ _ Hp Hr) as (ks2 & Hr2 & Hl). destruct (IHc _ _ _ _ H Hr2) as (ks1 & Hr1 & Hf).
    exists (ks1 ++ ks2). rewrite <- app_assoc. split; [done|]. by apply Hl, fm_unit.
  - destruct (kind (lookahead p)) eqn:Hk; try (injection Hp as <- <-; exists []; split; [done|by intros ks0; rewrite app_nil_r]).
    ok_inv. destruct (IHal _ _ _ _ _ Hp Hr) as (ks2 & Hr2 & Hl). destruct (IHc _ _ _ _ H0 Hr2) as (ks1 & Hr1 & Hf).
    exists (AndAnd :: ks1 ++ ks2). split; [simpl; rewrite <- app_assoc; by eapply rest_bump|].
    intros ks0 Hk0. rewrite app_comm_cons, app_assoc. apply Hl. by apply fm_and.
  - destruct (kind (lookahead p)) eqn:Hk; try discriminate Hp.
    + destruct (parse_field_cmp_sound _ _ _ _ _ Hk Hp Hr) as (ks & Hks & Hc). exists ks. split; [done|by constructor].
    + ok_inv. assert (rest p1 (RParen :: ks')) as Hr1 by (by eapply rest_bump).
      destruct (IHo _ _ _ _ H0 Hr1) as (ks & Hks & Hf). exists (LParen :: ks ++ [RParen]). split; [|by constructor].
      simpl. rewrite <- app_assoc. by eapply rest_bump.
Qed.

(** ** The parser accepts all of the grammar *)

(** [p] is well formed and has [ks] still to read. *)
Definition reads (p : Parser) (ks : list TokenKind) : Prop := parser_ok p ∧ rest p ks.

Lemma reads_cons p k ks :
  reads p (k :: ks) → kind (lookahead p) = k ∧ k ≠ Eof ∧ ∃ p', pbump p = Ok (lookahead p, p') ∧ reads p' ks.
Proof.
  intros [Hok Hr]. destruct (rest_cons _ _ _ Hr) as (Hk & He & p' & Hb & Hr'). do 2 (split; [done|]).
  exists p'. split; [done|]. split; [by eapply rest_ok|done].
Qed.

Lemma reads_length p ks : reads p ks → (length ks ≤ len (lexer p))%nat.
Proof. intros [Hok Hr]. pose proof (rest_length _ _ Hok Hr). pose proof (rem_le _ Hok). lia. Qed.

Lemma reads_expect p k ks : reads p (k :: ks) → ∃ p', expect k p = Ok (lookahead p, p') ∧ reads p' ks.
Proof.
  intros Hr. destruct (reads_cons _ _ _ Hr) as (Hk & _ & p' & Hb & Hr'). exists p'. split; [|done].
  unfold expect. by rewrite decide_True.
Qed.

(** Consume the first token of [Hr : reads p (k :: ks)]. *)
Ltac take Hr :=
  let Hk := fresh "Hk" in let p := fresh "p" in let Hb := fresh "Hb" in let Hr' := fresh "Hr" in
  destruct (reads_cons _ _ _ Hr) as (Hk & _ & p & Hb & Hr'); try rewrite Hk; try rewrite Hb; cbn [mbind res_bind]; cbn beta iota; try rewrite Hk.

Lemma parse_signed_int_complete fuel ks v ks' p :
  int_lit ks v → reads p (ks ++ ks') → (length ks ≤ fuel)%nat →
  ∃ p', parse_signed_int fuel p = Ok (v, p') ∧ reads p' ks'.
Proof.
  intros Hi. revert fuel ks' p. induction Hi as [v|ks v _ IH Hv|ks v _ IH|st v Hm Hp Hl|ks v _ IH]; intros fuel ks' p Hr Hf;
    (destruct fuel as [|f]; [simpl in Hf; lia|]); simpl in Hr, Hf; cbn [parse_signed_int]; take Hr.
  - by exists p0.
  - destruct (IH f _ _ Hr0 ltac:(lia)) as (p1 & -> & Hr1). exists p1. split; [|done]. cbn [mbind res_bind].
    unfold checked_neg. by destruct (Z.eqb_spec v i64_min).
  - destruct (IH f _ _ Hr0 ltac:(lia)) as (p1 & H1 & Hr1). by exists p1.
  - rewrite !decide_False, Hl by done. by exists p0.
  - rewrite length_app in Hf. simpl in Hf. rewrite <- app_assoc in Hr0. destruct (IH f _ _ Hr0 ltac:(lia)) as (p1 & -> & Hr1).
    cbn [mbind res_bind]. destruct (reads_expect _ _ _ Hr1) as (p2 & -> & Hr2). by exists p2.
Qed.

Lemma parse_int_complete ks v ks' p :
  int_lit ks v → reads p (ks ++ ks') → ∃ p', parse_int p = Ok (v, p') ∧ reads p' ks'.
Proof.
  intros Hi Hr. apply (parse_signed_int_complete _ _ _ _ _ Hi Hr). pose proof (reads_length _ _ Hr) as Hl.
  rewrite length_app in Hl. unfold tokens_fuel. lia.
Qed.

(** What ends a text: anything but a word. *)
Definition no_word (ks : list TokenKind) : Prop := ∀ st tl, ks ≠ Bareword st :: tl.

Lemma merge_barewords_complete more : ∀ fuel s p ks',
  reads p ((Bareword <$> more) ++ ks') → no_word ks' → (length more < fuel)%nat →
  ∃ p', merge_barewords fuel s p = Ok (s ++ concat more, p') ∧ reads p' ks'.
Proof.
  induction more as [|w more IH]; intros [|f] s p ks' Hr Hn Hf; simpl in Hf; try lia; simpl.
  - exists p. rewrite app_nil_r. split; [|done]. destruct Hr as [_ Hr]. simpl in Hr.
    destruct Hr as [p Hk|p p' ks' Hk _ _]; [by rewrite Hk|]. destruct (kind (lookahead p)); try done. by edestruct Hn.
  - simpl in Hr. take Hr. destruct (IH f (s ++ w) _ _ Hr0 Hn ltac:(lia)) as (p1 & -> & Hr1). exists p1. by rewrite <- app_assoc.
Qed.

Lemma parse_pattern_complete ks pat ks' p :
  pattern ks pat → reads p (ks ++ ks') → no_word ks' → ∃ p', parse_pattern_literal p = Ok (pat, p') ∧ reads p' ks'.
Proof.
  intros [k st more Hk] Hr Hn. simpl in Hr. unfold parse_pattern_literal.
  destruct k; try discriminate Hk; injection Hk as ->; take Hr;
    (apply merge_barewords_complete; [done|done|]; pose proof (reads_length _ _ Hr0) as Hl;
     rewrite length_app, length_fmap in Hl; unfold tokens_fuel; lia).
Qed.

Lemma int_lit_start ks v : int_lit ks v → ∃ k ks0, ks = k :: ks0 ∧ numeric_start k = true.
Proof.
  destruct 1 as [v|ks v _ _|ks v _|st v _ _ Hl|ks v _]; eexists _, _; (split; [done|]); try done.
  simpl. by rewrite Hl, !orb_true_r.
Qed.

Lemma parse_field_cmp_complete ks sh ks' p :
  comparison ks sh → reads p (ks ++ ks') → no_word ks' →
  (∃ f, kind (lookahead p) = Ident f) ∧ ∃ e p', parse_field_cmp p = Ok (e, p') ∧ shape e = sh ∧ reads p' ks'.
Proof.
  intros Hc Hr Hn. unfold parse_field_cmp.
  destruct Hc as [f k op ks r Hop Hi|f ks m k op ks2 r Hm Hop Hi|f ks pat Hpat|f k op k1 ks pat Hop Hs Hpat]; simpl in Hr;
    take Hr; (split; [by eexists|]); take Hr0; cbn beta iota.
  - destruct (parse_int_complete _ _ _ _ Hi Hr1) as (p2 & Hpi & Hr2).
    destruct (int_lit_start _ _ Hi) as (k1 & ks0 & -> & Hs). simpl in Hr1. destruct (reads_cons _ _ _ Hr1) as (Hk1 & _).
    rewrite <- Hk1, <- starts_numeric in Hs.
    destruct k; try discriminate Hop; injection Hop as <-; rewrite ?Hb0; cbn [mbind res_bind]; cbn beta iota; rewrite ?Hs, ?Hk0; simpl;
      rewrite Hpi; simpl; by eexists _, p2.
  - rewrite <- app_assoc in Hr1. destruct (parse_int_complete _ _ _ _ Hm Hr1) as (p2 & -> & Hr2). cbn [mbind res_bind]. cbn beta iota.
    simpl in Hr2. take Hr2. rewrite Hop. destruct (parse_int_complete _ _ _ _ Hi Hr3) as (p4 & -> & Hr4). simpl. by eexists _, p4.
  - destruct (parse_pattern_complete _ _ _ _ Hpat Hr1 Hn) as (p2 & -> & Hr2). simpl. by eexists _, p2.
  - destruct (parse_pattern_complete _ _ _ _ Hpat Hr1 Hn) as (p2 & Hpi & Hr2).
    simpl in Hr1. destruct (reads_cons _ _ _ Hr1) as (Hk1 & _). rewrite <- Hk1, <- starts_numeric in Hs.
    destruct k; try discriminate Hop; injection Hop as <-; rewrite ?Hb0; cbn [mbind res_bind]; cbn beta iota; rewrite Hs, Hpi, ?Hk0; simpl;
      by eexists _, p2.
Qed.

(** A loop ends before anything but its operator. *)
Definition ends (k : TokenKind) (ks : list TokenKind) : Prop := ∀ tl, ks ≠ k :: tl.

Lemma reads_ends k p ks : reads p ks → ends k ks → k ≠ Eof → kind (lookahead p) ≠ k.
Proof. intros [_ Hr] He Hk Hl. destruct Hr as [p Hp|p p' ks _ _ _]; [congruence|]. apply (He ks). by rewrite Hl. Qed.

Lemma or_loop_ends f lhs p ks : reads p ks → ends OrOr ks → or_loop (S f) lhs p = Ok (lhs, p).
Proof. intros Hr He. pose proof (reads_ends OrOr _ _ Hr He ltac:(done)). simpl. by destruct (kind (lookahead p)). Qed.

Lemma and_loop_ends f lhs p ks : reads p ks → ends AndAnd ks → and_loop (S f) lhs p = Ok (lhs, p).
Proof. intros Hr He. pose proof (reads_ends AndAnd _ _ Hr He ltac:(done)). simpl. by destruct (kind (lookahead p)). Qed.

(** Reading a formula of a level leaves the level's loop with its expression,
    and with the fuel the rest of the tokens needs. *)
Definition level_complete (lvl : nat) (ks : list TokenKind) (sh : Shape) : Prop :=
  ∀ fuel p ks', reads p (ks ++ ks') → no_word ks' →
  match lvl with
  | 0 => ends AndAnd ks' → (4 * length (ks ++ ks') + 3 ≤ fuel)%nat →
      ∃ e p1 f1, parse_or fuel p = or_loop f1 e p1 ∧ shape e = sh ∧ reads p1 ks' ∧ (4 * length ks' + 3 ≤ f1)%nat
  | 1 => (4 * length (ks ++ ks') + 2 ≤ fuel)%nat →
      ∃ e p1 f1, parse_and fuel p = and_loop f1 e p1 ∧ shape e = sh ∧ reads p1 ks' ∧ (4 * length ks' + 2 ≤ f1)%nat
  | _ => (4 * length (ks ++ ks') + 1 ≤ fuel)%nat →
      ∃ e p1, parse_cmp fuel p = Ok (e, p1) ∧ shape e = sh ∧ reads p1 ks'
  end%nat.

Lemma formula_nonempty lvl ks sh : formula lvl ks sh → (1 ≤ length ks)%nat.
Proof.
  induction 1 as [ks l ks' r _ _ _ _| |ks l ks' r _ _ _ _| |ks e Hc|]; rewrite ?length_app; simpl; try lia.
  destruct Hc; simpl; lia.
Qed.

Lemma parse_levels_complete lvl ks sh : formula lvl ks sh → level_complete lvl ks sh.
Proof.
  induction 1 as [ks l ks2 r _ IHl _ IHr|ks e Hf IH|ks l ks2 r _ IHl _ IHr|ks e Hf IH|ks e Hc|ks e _ IH];
    intros fuel p ks' Hr Hn.
  - intros He Hf. rewrite <- app_assoc in Hr. rewrite <- app_assoc, length_app in Hf. simpl in Hr, Hf. rewrite length_app in Hf.
    destruct (IHl fuel p _ Hr ltac:(done) ltac:(done) ltac:(rewrite length_app; simpl; rewrite length_app; lia))
      as (e1 & p1 & f1 & -> & <- & Hr1 & Hf1).
    simpl in Hf1. rewrite length_app in Hf1. destruct f1 as [|f1]; [lia|]. cbn [or_loop]. take Hr1.
    destruct (IHr f1 _ _ Hr0 Hn ltac:(rewrite length_app; lia)) as (e2 & p2 & f2 & -> & <- & Hr2 & Hf2).
    destruct f2 as [|f2]; [lia|]. rewrite (and_loop_ends _ _ _ _ Hr2 He). simpl.
    exists (Or e1 e2), p2, f1. split; [done|]. split; [done|]. split; [done|lia].
  - intros He Hfu. destruct fuel as [|f]; [lia|]. cbn [parse_or]. pose proof (formula_nonempty _ _ _ Hf) as Hne.
    destruct (IH f _ _ Hr Hn ltac:(lia)) as (e1 & p1 & f1 & -> & <- & Hr1 & Hf1). destruct f1 as [|f1]; [lia|].
    rewrite (and_loop_ends _ _ _ _ Hr1 He). simpl. exists e1, p1, f. split; [done|]. split; [done|]. split; [done|].
    rewrite length_app in Hfu. lia.
  - intros Hf. rewrite <- app_assoc in Hr. rewrite <- app_assoc, length_app in Hf. simpl in Hr, Hf. rewrite length_app in Hf.
    destruct (IHl fuel p _ Hr ltac:(done) ltac:(rewrite length_app; simpl; rewrite length_app; lia))
      as (e1 & p1 & f1 & -> & <- & Hr1 & Hf1).
    simpl in Hf1. rewrite length_app in Hf1. destruct f1 as [|f1]; [lia|]. cbn [and_loop]. take Hr1.
    destruct (IHr f1 _ _ Hr0 Hn ltac:(rewrite length_app; lia)) as (e2 & p2 & -> & <- & Hr2). simpl.
    exists (And e1 e2), p2, f1. split; [done|]. split; [done|]. split; [done|lia].
  - intros Hfu. destruct fuel as [|f]; [lia|]. cbn [parse_and]. pose proof (formula_nonempty _ _ _ Hf) as Hne.
    destruct (IH f _ _ Hr Hn ltac:(lia)) as (e1 & p1 & -> & <- & Hr1). simpl. exists e1, p1, f.
    split; [done|]. split; [done|]. split; [done|]. rewrite length_app in Hfu. lia.
  - intros Hfu. destruct fuel as [|f]; [lia|]. cbn [parse_cmp].
    destruct (parse_field_cmp_complete _ _ _ _ Hc Hr Hn) as [[fl ->] Hp]. done.
  - intros Hfu. destruct fuel as [|f]; [lia|]. cbn [parse_cmp]. simpl in Hr, Hfu. rewrite <- app_assoc in Hr, Hfu. take Hr.
    destruct (IH f _ _ Hr0 ltac:(done) ltac:(done) ltac:(lia)) as (e1 & p1 & f1 & -> & <- & Hr1 & Hf1).
    destruct f1 as [|f1]; [lia|]. rewrite (or_loop_ends _ _ _ _ Hr1) by done. cbn [mbind res_bind].
    destruct (reads_expect _ _ _ Hr1) as (p2 & -> & Hr2). simpl. by exists (Group e1), p2.
Qed.

(** ** The lexer's tokens are what the parser reads *)

Lemma lex_all_rest fuel : ∀ lx ts, lex_all fuel lx = Ok ts →
  ∃ t lx', next_token lx = Ok (t, lx') ∧ rest {| lexer := lx'; lookahead := t |} (map kind ts).
Proof.
  induction fuel as [|f IH]; intros lx ts Hl; [done|]. cbn [lex_all] in Hl.
  apply bind_ok in Hl as ([t lx'] & Ht & Hl). cbn beta iota in Hl. exists t, lx'. split; [done|].
  case_decide as Hk; [injection Hl as <-; by constructor|].
  apply bind_ok in Hl as (ts' & Hl & [= <-]). destruct (IH _ _ Hl) as (u & lx2 & Hu & Hr). simpl.
  apply (rest_next {| lexer := lx'; lookahead := t |} {| lexer := lx2; lookahead := u |}); [done| |done].
  unfold pbump. simpl. by rewrite Hu.
Qed.

Lemma rest_lex_all p ks : rest p ks → ∀ fuel lx,
  next_token lx = Ok (lookahead p, lexer p) → (length ks < fuel)%nat → ∃ ts, lex_all fuel lx = Ok ts ∧ map kind ts = ks.
Proof.
  induction 1 as [p Hk|p p' ks Hk Hb _ IH]; intros [|f] lx Hn Hf; simpl in Hf; try lia; cbn [lex_all];
    rewrite Hn; cbn [mbind res_bind]; cbn beta iota.
  - rewrite decide_True by done. by eexists.
  - rewrite decide_False by done. unfold pbump in Hb. apply bind_ok in Hb as ([t lx'] & Hn' & [= <-]).
    destruct (IH f _ Hn' ltac:(lia)) as (ts & -> & <-). simpl. by eexists.
Qed.

Lemma tokens_reads s ks : utf8 s → (tokens s = Ok ks ↔ ∃ p, Parser_new s = Ok p ∧ reads p ks ∧ input (lexer p) = s).
Proof.
  intros Hu. pose proof (Parser_new_ok s Hu) as Hok. unfold tokens, Parser_new in *. split.
  - intros H. apply bind_ok in H as (ts & Hl & [= <-]). destruct (lex_all_rest _ _ _ Hl) as (t & lx & Hn & Hr).
    rewrite Hn in *. cbn [mbind res_bind safe] in *. destruct Hok as [Hok Hi]. eexists. by split.
  - intros (p & Hp & [Hpo Hr] & Hi). apply bind_ok in Hp as ([t lx] & Hn & [= <-]).
    destruct (rest_lex_all _ _ Hr (S (length s)) _ Hn) as (ts & -> & <-); [|done].
    pose proof (reads_length _ _ (conj Hpo Hr)) as Hl. unfold len in Hl. rewrite Hi in Hl. lia.
Qed.

Lemma parse_str_sound s e : utf8 s → parse_str s = Ok e → ∃ ks, tokens s = Ok ks ∧ formula 0 ks (shape e).
Proof.
  intros Hu Hp. unfold parse_str in Hp. apply bind_ok in Hp as (p & Hn & Hp).
  unfold parse in Hp. apply bind_ok in Hp as ([e' p'] & Ho & Hp). cbn beta iota in Hp.
  destruct (kind (lookahead p')) eqn:Hk; try discriminate Hp. injection Hp as ->.
  destruct (proj1 (parse_levels_sound _) _ _ _ [] Ho) as (ks & Hr & Hf); [by constructor|]. rewrite app_nil_r in Hr.
  exists ks. split; [|done]. pose proof (Parser_new_ok s Hu) as Hok. rewrite Hn in Hok. destruct Hok as [Hok Hi].
  apply tokens_reads; [done|]. by exists p.
Qed.

Lemma parse_str_complete s ks sh :
  utf8 s → tokens s = Ok ks → formula 0 ks sh → ∃ e, parse_str s = Ok e ∧ shape e = sh.
Proof.
  intros Hu Ht Hf. destruct (proj1 (tokens_reads s ks Hu) Ht) as (p & Hn & Hr & Hi).
  pose proof (reads_length _ _ Hr) as Hl. unfold len in Hl. rewrite Hi in Hl.
  unfold parse_str, parse. rewrite Hn. cbn [mbind res_bind]. rewrite <- (app_nil_r ks) in Hr.
  destruct (parse_levels_complete _ _ _ Hf (parse_fuel s) _ _ Hr ltac:(done) ltac:(done)) as (e & p1 & f1 & -> & <- & Hr1 & Hf1).
  { rewrite app_nil_r. unfold parse_fuel. lia. }
  destruct f1 as [|f1]; [simpl in Hf1; lia|]. rewrite (or_loop_ends _ _ _ _ Hr1) by done. cbn [mbind res_bind]. cbn beta iota.
  rewrite (rest_nil _ (proj2 Hr1)). by exists e.
Qed.

(** ** Properties *)

(** C14: the parser decides the grammar.  On valid UTF-8, [parse_str] returns
    an expression exactly when the text lexes to the tokens of a [formula],
    and the expression is the one the grammar gives those tokens: [||] over
    [&&] over comparisons, both chains to the left, parentheses kept as
    groups, signed and parenthesised integers at their [i64] value, texts
    with the words that follow them, and a number wherever the right operand
    of [==] or [!=] can start one.  So no expression of the grammar is refused,
    none outside it is accepted, and no text has two readings. *)
Theorem parse_iff_grammar s sh :
  utf8 s → (∃ e, parse_str s = Ok e ∧ shape e = sh) ↔ ∃ ks, tokens s = Ok ks ∧ formula 0 ks sh.
Proof.
  intros Hu. split.
  - intros (e & Hp & <-). by apply parse_str_sound.
  - intros (ks & Ht & Hf). by eapply parse_str_complete.
Qed.

Lemma parse_iff_grammar_witness :
  let s := bs "(sig >= 10 || v & -(0x10) != 3) && comm ~ ba*" in
  utf8 s ∧ (∃ ks, tokens s = Ok ks ∧ formula 0 ks
    (ShAnd (ShGroup (ShOr (ShNum (bs "sig") None NGe 10) (ShNum (bs "v") (Some (-16)) NNe 3)))
       (ShStr (bs "comm") SGlob (bs "ba*")))).
Proof.
  cbv zeta. assert (utf8 (bs "(sig >= 10 || v & -(0x10) != 3) && comm ~ ba*")) as Hu
    by (apply (utf8b_sound 60); [vm_compute; lia|vm_compute; reflexivity]).
  split; [exact Hu|]. apply (parse_iff_grammar _ _ Hu).
  pose proof parse_sample as Hs. apply bind_ok in Hs as (e & He & [= Hsh]). exists e. split; [exact He|exact Hsh].
Defined.
