(* ===== verification/FilterText.v ===== *)
(** The text of a filter: writing an expression and parsing it back.

    [show_shape] writes an expression in the grammar's syntax, names bare,
    integers in decimal, texts quoted; [Lexer] reads the tokens back and
    [Grammar] turns them into the expression. *)
From S2P Require Import Prelude Text IntLit Lexer Parser Grammar.

(** ** Writing tokens *)

(** A field name as [lex_ident] reads it. *)
Definition ident_ok (s : str) : Prop :=
  match s with
  | [] => False
  | a :: t => is_ascii_alphabetic a || (a =? ch "_") = true ∧ Forall (λ b, is_ident_char b = true) t
  end.

(** A quoted text: quotes and backslashes escaped. *)
Definition escape (b : Z) : str := if (b =? 34) || (b =? ch "\") then [ch "\"; b] else [b].
Definition quote (s : str) : str := 34 :: concat (map escape s) ++ [34].

Definition show_token (k : TokenKind) : str :=
  match k with
  | Ident s | Bareword s => s
  | Int v => show_u 10 v
  | StringTok s => quote s
  | AndAnd => bs "&&" | OrOr => bs "||" | Amp => bs "&" | EqEq => bs "==" | NotEq => bs "!="
  | Lt => bs "<" | Le => bs "<=" | Gt => bs ">" | Ge => bs ">=" | Tilde => bs "~"
  | LParen => bs "(" | RParen => bs ")" | Eof => []
  end.

Definition ascii_byte (b : Z) : Prop := 0 ≤ b < 128.

(** A signed word: what the text of a negative integer lexes to. *)
Definition word_byte (b : Z) : bool := negb (is_ascii_whitespace b || is_op_char b).
Definition word_ok (s : str) : Prop :=
  match s with
  | [] => False
  | a :: t => (a = ch "-" ∨ a = ch "+") ∧ Forall ascii_byte t ∧ Forall (λ b, word_byte b = true) t
  end.

(** The tokens that are written. *)
Definition writable (k : TokenKind) : Prop :=
  match k with
  | Ident s => ident_ok s
  | Int v => 0 ≤ v ≤ i64_max
  | StringTok s => Forall ascii_byte s
  | Bareword s => word_ok s
  | Eof => False
  | _ => True
  end.

(** A space before every token. *)
Definition unlex (ks : list TokenKind) : str := concat (map (λ k, 32 :: show_token k) ks).

(** ** The lexer at a point of a text *)

(** [u] is read, [v] is not. *)
Definition lex_at (u v : str) : Lexer := {| input := u ++ v; pos := length u |}.

Lemma peek_at u v : peek (lex_at u v) = head v.
Proof. unfold peek, lex_at. simpl. rewrite lookup_app_r, Nat.sub_diag by lia. by destruct v. Qed.

Lemma peek2_at u a v : peek2 (lex_at u (a :: v)) = head v.
Proof. unfold peek2, lex_at. simpl. rewrite lookup_app_r by lia. replace (_ - _)%nat with 1%nat by lia. by destruct v. Qed.

Lemma at_step u b v : with_pos (lex_at u (b :: v)) (length u + 1) = lex_at (u ++ [b]) v.
Proof. unfold with_pos, lex_at. simpl. rewrite <- app_assoc, length_app. done. Qed.

Lemma at_back u b v : with_pos (lex_at (u ++ [b]) v) (pos (lex_at (u ++ [b]) v) - 1) = lex_at u (b :: v).
Proof. unfold with_pos, lex_at. simpl. rewrite <- app_assoc, length_app. simpl. f_equal. lia. Qed.

Lemma bump_at u b v : bump (lex_at u (b :: v)) = (Some b, lex_at (u ++ [b]) v).
Proof. unfold bump. fold (peek (lex_at u (b :: v))). rewrite peek_at. simpl. f_equal. apply at_step. Qed.

Lemma while_peek_at p w : ∀ u v fuel,
  Forall (λ b, p b = true) w → (∀ b, head v = Some b → p b = false) → (length w < fuel)%nat →
  while_peek p fuel (lex_at u (w ++ v)) = Ok (lex_at (u ++ w) v).
Proof.
  induction w as [|b w IH]; intros u v [|f] Hw Hv Hf; simpl in Hf; try lia; cbn [while_peek]; rewrite peek_at; cbn [app].
  - rewrite app_nil_r. destruct v as [|b v]; [done|]. change (head (b :: v)) with (Some b). cbn beta iota. by rewrite (Hv b).
  - change (head (b :: w ++ v)) with (Some b). cbn beta iota. apply Forall_cons in Hw as [-> Hw]. change (pos _ + 1)%nat with (length u + 1)%nat. rewrite at_step, IH by (done || lia).
    by rewrite <- app_assoc.
Qed.

Lemma loop_fuel_at u w v : (length w < loop_fuel (lex_at u (w ++ v)))%nat.
Proof. unfold loop_fuel, len. simpl. rewrite !length_app. lia. Qed.

Lemma ascii_char_boundary s i : Forall ascii_byte s → (i ≤ length s)%nat → is_char_boundary s i = true.
Proof.
  intros Hs Hi. destruct (s !! i) as [b|] eqn:Hb.
  - eapply boundary_at; [done|]. rewrite Forall_lookup in Hs. specialize (Hs _ _ Hb) as [_ ?]. done.
  - apply lookup_ge_None in Hb. assert (i = length s) as -> by lia. apply boundary_end.
Qed.

Lemma str_slice_at u w v : Forall ascii_byte (u ++ w ++ v) → str_slice (u ++ w ++ v) (length u) (length (u ++ w)) = Ok w.
Proof.
  intros Ha. rewrite str_slice_ok.
  - rewrite drop_app_length, length_app. replace (_ - _)%nat with (length w) by lia. by rewrite take_app_length.
  - rewrite !length_app. lia.
  - apply ascii_char_boundary; [done|]. rewrite length_app. lia.
  - apply ascii_char_boundary; [done|]. rewrite !length_app. lia.
Qed.

(** What may follow a token: nothing, or a space. *)
Definition gap (v : str) : Prop := ∀ b, head v = Some b → b = 32.

(** A token of [k] ends at [v]. *)
Definition lexes (r : res ParseError (Token * Lexer)) (k : TokenKind) (lx : Lexer) : Prop :=
  ∃ t, r = Ok (t, lx) ∧ kind t = k.

(** A scan over a class of bytes, behind [pre] of the token. *)
Lemma scan_at {A} p u pre w v (f : str → Lexer → res ParseError A) :
  Forall ascii_byte (u ++ (pre ++ w) ++ v) → Forall (λ b, p b = true) w → gap v → p 32 = false →
  (lx ← while_peek p (loop_fuel (lex_at (u ++ pre) (w ++ v))) (lex_at (u ++ pre) (w ++ v));
   s ← str_slice (input lx) (length u) (pos lx); f s lx) = f (pre ++ w) (lex_at (u ++ pre ++ w) v).
Proof.
  intros Ha Hw Hg Hp. rewrite while_peek_at; [|done|intros b Hb; by rewrite (Hg b Hb)|apply loop_fuel_at].
  cbn [mbind res_bind]. rewrite <- app_assoc. set (x := pre ++ w) in *.
  change (input (lex_at (u ++ x) v)) with ((u ++ x) ++ v). change (pos (lex_at (u ++ x) v)) with (length (u ++ x)).
  rewrite <- app_assoc, str_slice_at by done. done.
Qed.

(** [next_token] skips the space and dispatches on the first byte. *)
Lemma next_token_at_text u a v :
  is_ascii_whitespace a = false →
  next_token (lex_at u (32 :: a :: v)) = next_token_at (lex_at (u ++ [32; a]) v) (length (u ++ [32])) a.
Proof.
  intros Ha. unfold next_token, skip_ws.
  rewrite (while_peek_at _ [32] u (a :: v)); [|by repeat constructor|by intros b [= <-]|apply (loop_fuel_at u [32])].
  cbn [mbind res_bind]. rewrite bump_at. by rewrite <- app_assoc.
Qed.

Lemma next_token_end u : next_token (lex_at u []) = Ok (tok Eof (length u) (length u), lex_at u []).
Proof.
  unfold next_token, skip_ws. rewrite (while_peek_at _ [] u []); [|done|done|apply (loop_fuel_at u [])].
  cbn [mbind res_bind]. rewrite app_nil_r. unfold bump, lex_at. simpl. by rewrite app_nil_r, lookup_ge_None_2.
Qed.

(** Evaluate comparisons of bytes. *)
Ltac bytes := unfold is_ident_char, is_ascii_alphanumeric, is_op_char, is_ascii_whitespace, is_ascii_digit, is_ascii_alphabetic in *;
  eval_ch; bdestruct_all; simpl in *; try done; try lia.

(** The first byte of a name, a number or a word is none of the operators'. *)
Ltac no_op a :=
  unfold next_token_at;
  repeat (rewrite (proj2 (Z.eqb_neq a _)) by (eval_ch; lia)); cbn [orb].

Lemma show_ident u s a t v start :
  s = a :: t → ident_ok s → gap v → Forall ascii_byte (u ++ s ++ v) →
  lexes (next_token_at (lex_at (u ++ [a]) (t ++ v)) start a) (Ident s) (lex_at (u ++ s) v).
Proof.
  intros -> [Ha Ht] Hg Has. assert (65 ≤ a ≤ 122 ∧ a ≠ ch "|" ∧ a ≠ ch "~") as Hr by (clear -Ha; bytes).
  no_op a. replace (is_ascii_digit a) with false by (symmetry; clear -Hr; bytes). rewrite Ha. unfold lex_ident.
  replace (pos _ - 1)%nat with (length u) by (simpl; rewrite length_app; simpl; lia).
  rewrite (scan_at is_ident_char u [a] t v) by (done || by vm_compute). by eexists.
Qed.

Lemma show_u_head n : ∃ c t, show_u 10 n = c :: t ∧ ch "0" ≤ c ≤ ch "9" ∧ Forall (λ c, ch "0" ≤ c ≤ ch "9") t.
Proof.
  pose proof (show_u_not_nil 10 n) as Hn. pose proof (show_u_digits n) as Hd.
  destruct (show_u 10 n) as [|c t]; [done|]. apply Forall_cons in Hd as []. by exists c, t.
Qed.

Lemma show_number u n a t v start :
  show_u 10 n = a :: t → 0 ≤ n ≤ i64_max → gap v → Forall ascii_byte (u ++ (a :: t) ++ v) →
  lexes (next_token_at (lex_at (u ++ [a]) (t ++ v)) start a) (Int n) (lex_at (u ++ a :: t) v).
Proof.
  intros He Hn Hg Has. pose proof (show_u_digits n) as Hd. rewrite He in Hd.
  pose proof (proj1 (Forall_cons _ _ _) Hd) as [Ha Ht].
  assert (48 ≤ a ≤ 57) as Hr by (clear -Ha; revert Ha; by eval_ch).
  no_op a. replace (is_ascii_digit a) with true by (symmetry; clear -Hr; bytes).
  rewrite at_back. unfold lex_number.
  replace (_ && _) with false; cycle 1.
  { symmetry. apply andb_false_iff. right. rewrite peek2_at.
    assert (∀ b, head (t ++ v) = Some b → b ≤ 57) as Hh.
    { destruct t as [|c t]; [intros b Hb; rewrite (Hg b Hb); lia|]. intros b [= <-].
      apply Forall_cons in Ht as [Hc _]. revert Hc. eval_ch. lia. }
    destruct (head (t ++ v)) as [b|]; [|done]. specialize (Hh b eq_refl).
    eval_ch. rewrite !bool_decide_eq_false_2; [done|intros [= ->]; lia..]. }
  change (pos (lex_at u (a :: t ++ v))) with (length u).
  pose proof (@scan_at (Token * Lexer) is_ascii_digit u [] (a :: t) v) as Hs. rewrite app_nil_r in Hs. cbn [app] in Hs.
  rewrite Hs by (done || (eapply Forall_impl; [exact Hd|]; intros c Hc; unfold is_ascii_digit; revert Hc; eval_ch; clear; bdestruct_all; lia)).
  rewrite <- He, from_str_radix_show by lia. by eexists.
Qed.

Lemma show_word u a t v start :
  word_ok (a :: t) → gap v → Forall ascii_byte (u ++ (a :: t) ++ v) →
  lexes (next_token_at (lex_at (u ++ [a]) (t ++ v)) start a) (Bareword (a :: t)) (lex_at (u ++ a :: t) v).
Proof.
  intros (Hs & _ & Ht) Hg Has. assert (a = 45 ∨ a = 43) as Ha by (revert Hs; by eval_ch).
  no_op a. replace (is_ascii_digit a) with false by (by destruct Ha as [->| ->]).
  replace (is_ascii_alphabetic a) with false by (by destruct Ha as [->| ->]).
  replace (is_ascii_whitespace a || is_op_char a) with false by (by destruct Ha as [->| ->]). cbn [orb]. unfold lex_bareword.
  replace (pos _ - 1)%nat with (length u) by (simpl; rewrite length_app; simpl; lia).
  rewrite (scan_at _ u [a] t v); [by eexists|done..|by vm_compute].
Qed.

Lemma digit_word c : ch "0" ≤ c ≤ ch "9" → word_byte c = true.
Proof.
  eval_ch. intros Hc. unfold word_byte, is_ascii_whitespace, is_op_char.
  repeat (rewrite (proj2 (Z.eqb_neq c _)) by (eval_ch; lia)). done.
Qed.

Lemma lex_string_loop_at s v start : ∀ u out fuel,
  Forall ascii_byte s → (length s < fuel)%nat →
  ∃ t, lex_string_loop fuel (lex_at u (concat (map escape s) ++ 34 :: v)) start 34 out =
    Ok (t, lex_at (u ++ concat (map escape s) ++ [34]) v) ∧ kind t = StringTok (out ++ s).
Proof.
  induction s as [|b s IH]; intros u out [|f] Hs Hf; simpl in Hf; try lia; cbn [map concat app lex_string_loop].
  - rewrite bump_at, Z.eqb_refl, app_nil_r. by eexists.
  - apply Forall_cons in Hs as [Hb Hs].
    assert (push_latin1 b = [b]) as Hp by (unfold push_latin1, ascii_byte in *; by rewrite (proj2 (Z.ltb_lt b 128)) by lia).
    destruct (decide (b = 34)) as [->|Hq]; [|destruct (decide (b = ch "\")) as [->|Hbs]].
    + change (escape 34) with [ch "\"; 34]. cbn [app]. rewrite bump_at.
      change (ch "\" =? 34) with false. rewrite Z.eqb_refl, bump_at. cbn beta iota zeta.
      change (34 =? ch "n") with false. change (34 =? ch "t") with false. cbn beta iota. rewrite Hp.
      destruct (IH ((u ++ [ch "\"]) ++ [34]) (out ++ [34]) f Hs ltac:(lia)) as (t & -> & Hk). exists t.
      rewrite Hk, <- !app_assoc. done.
    + change (escape (ch "\")) with [ch "\"; ch "\"]. cbn [app]. rewrite bump_at.
      change (ch "\" =? 34) with false. rewrite Z.eqb_refl, bump_at. cbn beta iota zeta.
      change (ch "\" =? ch "n") with false. change (ch "\" =? ch "t") with false. cbn beta iota. rewrite Hp.
      destruct (IH ((u ++ [ch "\"]) ++ [ch "\"]) (out ++ [ch "\"]) f Hs ltac:(lia)) as (t & -> & Hk). exists t.
      rewrite Hk, <- !app_assoc. done.
    + assert (escape b = [b]) as -> by (unfold escape; by rewrite (proj2 (Z.eqb_neq b 34)), (proj2 (Z.eqb_neq b (ch "\")))).
      cbn [app]. rewrite bump_at, (proj2 (Z.eqb_neq b 34)), (proj2 (Z.eqb_neq b (ch "\"))), Hp by done.
      destruct (IH (u ++ [b]) (out ++ [b]) f Hs ltac:(lia)) as (t & -> & Hk). exists t. rewrite Hk, <- !app_assoc. done.
Qed.

Lemma length_escape s : (length s ≤ length (concat (map escape s)))%nat.
Proof. induction s as [|b s IH]; simpl; [lia|]. rewrite length_app. unfold escape at 1. case_match; simpl; lia. Qed.

Lemma show_string u s v start :
  Forall ascii_byte s →
  lexes (next_token_at (lex_at (u ++ [34]) ((concat (map escape s) ++ [34]) ++ v)) start 34) (StringTok s) (lex_at (u ++ quote s) v).
Proof.
  intros Hs. unfold next_token_at.
  repeat (rewrite (proj2 (Z.eqb_neq 34 (ch _))) by (vm_compute; congruence)). rewrite Z.eqb_refl. cbn [orb]. unfold lex_string.
  rewrite <- app_assoc. simpl ([34] ++ v).
  destruct (lex_string_loop_at s v start (u ++ [34]) [] (loop_fuel (lex_at (u ++ [34]) (concat (map escape s) ++ 34 :: v))) Hs) as (t & -> & Hk).
  - unfold loop_fuel, len. simpl. rewrite !length_app. pose proof (length_escape s). lia.
  - exists t. split; [|done]. unfold quote. by rewrite <- app_assoc.
Qed.

Lemma op2_two u n v start two one : lexes (op2 (lex_at u (n :: v)) start n two one) two (lex_at (u ++ [n]) v).
Proof. unfold op2. rewrite peek_at. rewrite bool_decide_eq_true_2 by done. rewrite bump_at. by eexists. Qed.

Lemma op2_one u v start n two one : gap v → n ≠ 32 → op2 (lex_at u v) start n two one = one.
Proof. intros Hg Hn. unfold op2. rewrite peek_at, bool_decide_eq_false_2; [done|]. intros Hh. by rewrite (Hg _ Hh) in Hn. Qed.

Lemma at_amp lx start : next_token_at lx start (ch "&") = op2 lx start (ch "&") AndAnd (Ok (tok Amp start (pos lx), lx)).
Proof. reflexivity. Qed.
Lemma at_lt lx start : next_token_at lx start (ch "<") = op2 lx start (ch "=") Le (Ok (tok Lt start (pos lx), lx)).
Proof. reflexivity. Qed.
Lemma at_gt lx start : next_token_at lx start (ch ">") = op2 lx start (ch "=") Ge (Ok (tok Gt start (pos lx), lx)).
Proof. reflexivity. Qed.

(** Every token is read back from its text. *)
Lemma next_token_show u k v :
  writable k → gap v → Forall ascii_byte (u ++ 32 :: show_token k ++ v) →
  lexes (next_token (lex_at u (32 :: show_token k ++ v))) k (lex_at (u ++ 32 :: show_token k) v).
Proof.
  intros Hk Hg Ha.
  assert (∀ a t, show_token k = a :: t → is_ascii_whitespace a = false →
    (∀ w start, Forall ascii_byte (w ++ (a :: t) ++ v) → lexes (next_token_at (lex_at (w ++ [a]) (t ++ v)) start a) k (lex_at (w ++ a :: t) v)) →
    lexes (next_token (lex_at u (32 :: show_token k ++ v))) k (lex_at (u ++ 32 :: show_token k) v)) as Hgo.
  { intros a t Ht Hws Hn. rewrite Ht in *. cbn [app]. rewrite next_token_at_text by done.
    specialize (Hn (u ++ [32]) (length (u ++ [32]))). rewrite <- !app_assoc in Hn. by apply Hn. }
  assert (∀ w a b, lex_at (w ++ [a; b]) v = lex_at ((w ++ [a]) ++ [b]) v) as Happ by (intros; by rewrite <- app_assoc).
  destruct k; try (eapply Hgo; [reflexivity|reflexivity|]; intros w start _; cbn -[lex_at op2]; rewrite ?Happ;
    first [by eexists | apply op2_two | rewrite ?at_amp, ?at_lt, ?at_gt, op2_one by done; by eexists]); simpl in Hk; try done.
  - destruct s as [|a t]; [done|]. eapply Hgo; [done| |].
    + destruct Hk as [Hk _]. clear -Hk. bytes.
    + intros w start. by apply (show_ident w _ a t v).
  - destruct (show_u_head v0) as (a & t & He & Hr & _). eapply Hgo; [done| |].
    + clear -Hr. bytes.
    + intros w start. by apply (show_number w v0 a t v).
  - eapply Hgo; [done|done|]. intros w start _. by apply show_string.
  - destruct s as [|a t]; [done|]. eapply Hgo; [done| |].
    + by destruct Hk as [[->| ->] _].
    + intros w start. by apply show_word.
Qed.

(** Concrete texts are ASCII. *)
Ltac asc := repeat first [apply Forall_nil_2 | apply Forall_cons_2]; try assumption; try (split; vm_compute; congruence).

Lemma gap_unlex ks : gap (unlex ks).
Proof. destruct ks as [|k ks]; [done|]. by intros b [= <-]. Qed.

Lemma Forall_escape s : Forall ascii_byte s → Forall ascii_byte (concat (map escape s)).
Proof.
  induction 1 as [|b s Hb _ IH]; simpl; [constructor|]. apply Forall_app. split; [|done].
  unfold escape. case_match; asc.
Qed.

Lemma decimal_ascii n : Forall ascii_byte (show_u 10 n).
Proof. eapply Forall_impl; [apply show_u_digits|]. intros c. unfold ascii_byte. eval_ch. lia. Qed.

Lemma show_token_ascii k : writable k → Forall ascii_byte (show_token k).
Proof.
  destruct k; simpl; intros Hk; try done; try (unfold bs; simpl; asc; done).
  - destruct s as [|a t]; [done|]. destruct Hk as [Ha Ht]. constructor.
    + clear -Ha. unfold ascii_byte. bytes.
    + eapply Forall_impl; [exact Ht|]. clear. intros b Hb. unfold ascii_byte. bytes.
  - apply decimal_ascii.
  - unfold quote. constructor; [by asc|]. apply Forall_app. split; [by apply Forall_escape|asc].
  - destruct s as [|a t]; [done|]. destruct Hk as (Ha & Ht & _). constructor; [|done].
    destruct Ha as [->| ->]; split; vm_compute; congruence.
Qed.

Lemma unlex_ascii ks : Forall writable ks → Forall ascii_byte (unlex ks).
Proof.
  induction 1 as [|k ks Hk _ IH]; [constructor|]. unfold unlex. cbn [map concat]. apply Forall_app. split; [|done].
  constructor; [split; vm_compute; congruence|by apply show_token_ascii].
Qed.

Lemma lex_all_unlex ks : ∀ u fuel,
  Forall writable ks → Forall ascii_byte (u ++ unlex ks) → (length ks < fuel)%nat →
  ∃ ts, lex_all fuel (lex_at u (unlex ks)) = Ok ts ∧ map kind ts = ks.
Proof.
  induction ks as [|k ks IH]; intros u [|f] Hks Ha Hf; simpl in Hf; try lia; cbn [lex_all].
  - rewrite next_token_end. by eexists.
  - apply Forall_cons in Hks as [Hk Hks]. change (unlex (k :: ks)) with (32 :: show_token k ++ unlex ks) in *.
    destruct (next_token_show u k _ Hk (gap_unlex ks) Ha) as (t & -> & Ht). cbn [mbind res_bind]. cbn beta iota.
    rewrite decide_False by (rewrite Ht; intros ->; done).
    destruct (IH (u ++ 32 :: show_token k) f Hks) as (ts & -> & Hts); [by rewrite <- app_assoc|lia|].
    eexists. split; [done|]. simpl. by rewrite Ht, Hts.
Qed.

Lemma unlex_length ks : (length ks ≤ length (unlex ks))%nat.
Proof. induction ks as [|k ks IH]; [done|]. unfold unlex in *. cbn [map concat]. rewrite length_app. simpl. lia. Qed.

Lemma tokens_unlex ks : Forall writable ks → tokens (unlex ks) = Ok ks.
Proof.
  intros Hk. unfold tokens. pose proof (unlex_length ks).
  destruct (lex_all_unlex ks [] (S (length (unlex ks))) Hk (unlex_ascii _ Hk) ltac:(lia)) as (ts & Hts & Hm).
  change (Lexer_new (unlex ks)) with (lex_at [] (unlex ks)). rewrite Hts. simpl. by rewrite Hm.
Qed.

Lemma utf8_ascii s : Forall ascii_byte s → utf8 s.
Proof. by induction 1; constructor. Qed.

(** ** Writing expressions *)

(** [i64::MIN] is written with both signs: its magnitude alone overflows. *)
Definition int_tok (v : Z) : TokenKind :=
  if v =? i64_min then Bareword (ch "+" :: ch "-" :: show_u 10 (- i64_min))
  else if v <? 0 then Bareword (ch "-" :: show_u 10 (- v))
  else Int v.
Definition num_tok (op : NumOp) : TokenKind :=
  match op with NEq => EqEq | NNe => NotEq | NLt => Lt | NLe => Le | NGt => Gt | NGe => Ge end.
Definition str_tok (op : StrOp) : TokenKind := match op with SEq => EqEq | SNe => NotEq | SGlob => Tilde end.
Definition mask_toks (m : option Z) : list TokenKind := match m with Some m => [Amp; int_tok m] | None => [] end.

Fixpoint toks (e : Shape) : list TokenKind :=
  match e with
  | ShOr l r => toks l ++ OrOr :: toks r
  | ShAnd l r => toks l ++ AndAnd :: toks r
  | ShNum f m op r => Ident f :: mask_toks m ++ [num_tok op; int_tok r]
  | ShStr f op pat => [Ident f; str_tok op; StringTok pat]
  | ShGroup e => LParen :: toks e ++ [RParen]
  end.
Definition show_shape (e : Shape) : str := unlex (toks e).

(** The expressions that can be written: of the documented precedence, with
    names the lexer takes, [i64] operands and texts of ASCII. *)
Fixpoint shape_ok (lvl : nat) (e : Shape) : Prop :=
  match e with
  | ShOr l r => lvl = 0%nat ∧ shape_ok 0 l ∧ shape_ok 1 r
  | ShAnd l r => (lvl ≤ 1)%nat ∧ shape_ok 1 l ∧ shape_ok 2 r
  | ShNum f m op r => ident_ok f ∧ is_i64 r ∧ from_option is_i64 True m
  | ShStr f op pat => ident_ok f ∧ Forall ascii_byte pat
  | ShGroup e => shape_ok 0 e
  end.

Lemma digits_word n : Forall ascii_byte (show_u 10 n) ∧ Forall (λ b, word_byte b = true) (show_u 10 n).
Proof. split; [apply decimal_ascii|]. eapply Forall_impl; [apply show_u_digits|apply digit_word]. Qed.

Lemma int_tok_lit v : is_i64 v → int_lit [int_tok v] v ∧ writable (int_tok v).
Proof.
  intros Hv. unfold int_tok. destruct (Z.eqb_spec v i64_min) as [->|Hm]; [|destruct (Z.ltb_spec v 0)].
  - destruct (digits_word (- i64_min)) as [Ha Hw]. split.
    + apply il_word; [done|done|]. vm_compute. done.
    + split; [by right|]. split; [constructor; [by asc|done]|by constructor].
  - destruct (digits_word (- v)) as [Ha Hw]. destruct (show_u_head (- v)) as (a & t & Ht & _). split; [|split; [by left|done]].
    apply il_word; [rewrite Ht; discriminate..|].
    pose proof (literal_decimal_roundtrip v Hv Hm) as Hl. unfold show_i64 in Hl. by rewrite (proj2 (Z.ltb_lt v 0)) in Hl.
  - split; [constructor|]. unfold is_i64 in Hv. simpl. lia.
Qed.

Lemma num_tok_op op : num_op (num_tok op) = Some op.
Proof. by destruct op. Qed.

Lemma formula_weaken lvl ks e : (lvl ≤ 2)%nat → formula 2 ks e → formula lvl ks e.
Proof. intros Hl Hf. destruct lvl as [|[|[|]]]; [by apply fm_conj, fm_unit|by apply fm_unit|done|lia]. Qed.

Lemma toks_comparison e : shape_ok 2 e → (∀ e', e ≠ ShGroup e') → comparison (toks e) e.
Proof.
  destruct e as [l r|l r|f m op r|f op pat|e]; simpl; intros He Hn; try (lia || by edestruct Hn).
  - destruct He as (_ & Hr & Hm). destruct (int_tok_lit r Hr) as [Hlr _]. destruct m as [m|]; simpl in *.
    + destruct (int_tok_lit m Hm) as [Hlm _]. apply (cmp_mask f [int_tok m] m (num_tok op) op [int_tok r] r Hlm (num_tok_op op) Hlr).
    + by apply cmp_num; [apply num_tok_op|].
  - assert (pattern [StringTok pat] pat) as Hp by (rewrite <- (app_nil_r pat) at 2; by apply (pat_words (StringTok pat) pat [])).
    destruct op; [by apply cmp_str|by apply cmp_str|by apply cmp_glob].
Qed.

Lemma toks_formula e : ∀ lvl, (lvl ≤ 2)%nat → shape_ok lvl e → formula lvl (toks e) e.
Proof.
  induction e as [l IHl r IHr|l IHl r IHr|f m op r|f op pat|e IH]; intros lvl Hl He.
  - destruct He as (-> & Hol & Hor). apply fm_or; [by apply IHl; [lia|]|by apply IHr; [lia|]].
  - destruct He as (Hle & Hol & Hor). assert (formula 1 (toks l ++ AndAnd :: toks r) (ShAnd l r)) as Hf
      by (apply fm_and; [by apply IHl; [lia|]|by apply IHr; [lia|]]).
    destruct lvl as [|[|]]; [by apply fm_conj|done|lia].
  - apply formula_weaken; [done|]. by apply fm_cmp, toks_comparison.
  - apply formula_weaken; [done|]. by apply fm_cmp, toks_comparison.
  - apply formula_weaken; [done|]. simpl. apply fm_group, IH; [lia|done].
Qed.

Lemma toks_writable e : ∀ lvl, shape_ok lvl e → Forall writable (toks e).
Proof.
  induction e as [l IHl r IHr|l IHl r IHr|f m op r|f op pat|e IH]; intros lvl; simpl.
  - intros (_ & Hl & Hr). apply Forall_app. split; [by eapply IHl|]. constructor; [done|by eapply IHr].
  - intros (_ & Hl & Hr). apply Forall_app. split; [by eapply IHl|]. constructor; [done|by eapply IHr].
  - intros (Hf & Hr & Hm). constructor; [done|]. apply Forall_app. split.
    + destruct m as [m|]; [|constructor]. repeat constructor. by apply int_tok_lit.
    + repeat constructor; [by destruct op|by apply int_tok_lit].
  - intros (Hf & Hp). repeat constructor; [done|by destruct op|done].
  - intros He. constructor; [done|]. apply Forall_app. split; [by eapply IH|by repeat constructor].
Qed.

(** ** What the lexer makes of ASCII *)

Definition tok_ok (k : TokenKind) : Prop :=
  match k with
  | Ident s => ident_ok s
  | Int v => 0 ≤ v ≤ i64_max
  | StringTok s | Bareword s => Forall ascii_byte s
  | _ => True
  end.

Lemma while_peek_inv p fuel : ∀ lx lx', while_peek p fuel lx = Ok lx' →
  input lx' = input lx ∧ (pos lx ≤ pos lx')%nat ∧
  ∀ i b, (pos lx ≤ i < pos lx')%nat → input lx !! i = Some b → p b = true.
Proof.
  induction fuel as [|f IH]; intros lx lx' Hw; [done|]. cbn [while_peek] in Hw. unfold peek in Hw.
  destruct (input lx !! pos lx) as [b|] eqn:Hb; [destruct (p b) eqn:Hp|];
    try (injection Hw as <-; split_and!; [done|lia|intros; lia]).
  destruct (IH _ _ Hw) as (Hi & Hle & Hall). simpl in *. split_and!; [done|lia|].
  intros i c Hr Hc. destruct (decide (i = pos lx)) as [->|]; [congruence|]. apply (Hall i c); [lia|done].
Qed.

Lemma str_slice_inv s a b w :
  str_slice s a b = Ok w → length w = (b - a)%nat ∧ ∀ i c, w !! i = Some c → (a + i < b)%nat ∧ s !! (a + i)%nat = Some c.
Proof.
  unfold str_slice. case_match; [|done]. intros Hs. unfold slice in Hs. case_match eqn:Hb; [|done]. injection Hs as <-.
  apply andb_true_iff in Hb as [Hab%Nat.leb_le Hbl%Nat.leb_le]. split; [rewrite length_take, length_drop; lia|].
  intros i c Hc. apply lookup_take_Some in Hc as [Hc Hi]. rewrite lookup_drop in Hc. split; [lia|done].
Qed.

(** The bytes of a scanned token. *)
Lemma scan_inv {A} p fuel lx from (f : str → Lexer → res ParseError A) r :
  (lx' ← while_peek p fuel lx; s ← str_slice (input lx') from (pos lx'); f s lx') = Ok r →
  ∃ s lx', f s lx' = Ok r ∧ input lx' = input lx ∧ (pos lx - from ≤ length s)%nat ∧
    ∀ i c, s !! i = Some c → input lx !! (from + i)%nat = Some c ∧ ((pos lx ≤ from + i)%nat → p c = true).
Proof.
  intros H. apply bind_ok in H as (lx' & Hw & H). apply bind_ok in H as (s & Hs & H).
  destruct (while_peek_inv _ _ _ _ Hw) as (Hi & Hle & Hall). exists s, lx'. split; [done|]. split; [done|].
  destruct (str_slice_inv _ _ _ _ Hs) as [Hlen Hin]. split; [lia|]. intros i c Hc. destruct (Hin i c Hc) as [Hlt Hl]. rewrite Hi in Hl. split; [done|].
  intros Hp. by apply (Hall (from + i)%nat c).
Qed.

Lemma scanned_Forall (P : Z → Prop) (s : str) : (∀ i c, s !! i = Some c → P c) → Forall P s.
Proof. intros H. apply Forall_lookup. eauto. Qed.

(** A parsed run of digits is no sign, so its value is not negative. *)
Lemma from_str_radix_digits radix s v :
  0 ≤ radix → Forall not_sign s → from_str_radix s radix = Ok v → 0 ≤ v ≤ i64_max.
Proof.
  intros Hr Hs. unfold from_str_radix. destruct s as [|c s]; [done|]. apply Forall_cons in Hs as [[H1 H2] _].
  rewrite (proj2 (Z.eqb_neq _ _) H1), (proj2 (Z.eqb_neq _ _) H2). cbn [orb].
  apply digits_pos_range; [done|unfold i64_max; lia].
Qed.

Lemma digit_not_sign b : is_ascii_hexdigit b = true → not_sign b.
Proof.
  intros Hb. unfold not_sign. split; intros ->; revert Hb; by vm_compute.
Qed.

Definition lexed (lx : Lexer) (t : Token) (lx' : Lexer) : Prop := tok_ok (kind t) ∧ input lx' = input lx.

Lemma lex_number_inv lx start t lx' : lex_number lx start = Ok (t, lx') → lexed lx t lx'.
Proof.
  assert (∀ p fuel lx0 from (g : Lexer → IntErrorKind → ParseError) radix (err : Lexer → bool) (t : Token) lx',
    (∀ b, p b = true → not_sign b) → from = pos lx0 → 0 ≤ radix →
    (lx1 ← while_peek p fuel lx0; if err lx1 then perr start (pos lx1) (PLit (bs "hex literal missing digits")) else
     s ← str_slice (input lx1) from (pos lx1); v ← map_err (g lx1) (from_str_radix s radix); Ok (tok (Int v) start (pos lx1), lx1)) = Ok (t, lx') →
    lexed lx0 t lx') as Hgo.
  { intros p fuel lx0 from g radix err t0 lx0' Hp -> Hr H. apply bind_ok in H as (lx1 & Hw & H). destruct (err lx1); [done|].
    destruct (scan_inv p fuel lx0 (pos lx0) (λ s lx1, v ← map_err (g lx1) (from_str_radix s radix); Ok (tok (Int v) start (pos lx1), lx1)) (t0, lx0'))
      as (s & lx2 & Hf & Hi & _ & Hall); [by rewrite Hw|].
    apply bind_ok in Hf as (v & Hv & [= <- <-]). split; [|done]. simpl.
    destruct (from_str_radix s radix) as [v'| | |] eqn:Hv'; try done. injection Hv as ->.
    eapply from_str_radix_digits; [done| |done]. apply scanned_Forall. intros i c Hc. apply Hp.
    apply (Hall i c Hc). lia. }
  unfold lex_number. case_match; intros Hl.
  - apply (Hgo is_ascii_hexdigit _ _ _ _ _ (λ lx1, (pos lx1 =? pos (bump (bump lx).2).2)%nat)) in Hl; [|apply digit_not_sign|done|lia].
    destruct Hl as [Hk Hi]. split; [done|]. rewrite Hi. unfold bump. by repeat case_match.
  - apply (Hgo is_ascii_digit _ _ _ _ _ (λ _, false)) in Hl; [done| |done|lia].
    intros b Hb. apply digit_not_sign. unfold is_ascii_hexdigit. by rewrite Hb.
Qed.

Lemma lex_ident_inv lx b start t lx' :
  (0 < pos lx)%nat → input lx !! (pos lx - 1)%nat = Some b → is_ascii_alphabetic b || (b =? ch "_") = true →
  lex_ident lx start = Ok (t, lx') → lexed lx t lx'.
Proof.
  intros Hp Hl Hb H. unfold lex_ident in H.
  apply (scan_inv _ _ _ _ (λ s lx, Ok (tok (Ident s) start (pos lx), lx))) in H as (s & lx2 & [= <- <-] & Hi & Hlen & Hall).
  split; [|done]. simpl. destruct s as [|a s]; [simpl in Hlen; lia|]. split.
  - destruct (Hall 0%nat a eq_refl) as [Ha _]. rewrite Nat.add_0_r in Ha. congruence.
  - apply scanned_Forall. intros i c Hc. apply (Hall (S i) c Hc). lia.
Qed.

Lemma lex_bareword_inv lx start t lx' :
  Forall ascii_byte (input lx) → lex_bareword lx start = Ok (t, lx') → lexed lx t lx'.
Proof.
  intros Ha H. unfold lex_bareword in H.
  apply (scan_inv _ _ _ _ (λ s lx, Ok (tok (Bareword s) start (pos lx), lx))) in H as (s & lx2 & [= <- <-] & Hi & _ & Hall).
  split; [|done]. simpl. apply scanned_Forall. intros i c Hc. rewrite Forall_lookup in Ha. eapply Ha, (Hall i c Hc).
Qed.

Lemma lex_string_inv start q fuel : ∀ lx out t lx',
  Forall ascii_byte (input lx) → Forall ascii_byte out → lex_string_loop fuel lx start q out = Ok (t, lx') → lexed lx t lx'.
Proof.
  induction fuel as [|f IH]; intros lx out t lx' Ha Ho H; [done|]. cbn [lex_string_loop] in H.
  assert (∀ b, ascii_byte b → Forall ascii_byte (out ++ push_latin1 b)) as Hpush.
  { intros b Hb. unfold push_latin1, ascii_byte in *. rewrite (proj2 (Z.ltb_lt b 128)) by lia. apply Forall_app. split; [done|by constructor]. }
  assert (∀ lx i b, Forall ascii_byte (input lx) → input lx !! i = Some b → ascii_byte b) as Hb by (intros ? ? ? Hf; by apply Forall_lookup_1).
  destruct (bump lx) as [[b|] lx1] eqn:Hb1; [|done]. apply bump_some in Hb1 as [Hl ->].
  destruct (b =? q); [injection H as <- <-; by split|]. destruct (b =? ch "\").
  - destruct (bump _) as [[c|] lx2] eqn:Hb2; [|done]. apply bump_some in Hb2 as [Hl2 ->].
    apply IH in H; [done|done|]. apply Hpush. repeat case_match; try (split; vm_compute; congruence). by eapply Hb.
  - apply IH in H; [done|done|]. apply Hpush. by eapply Hb.
Qed.

Lemma op2_inv lx start n two one t lx' :
  tok_ok two → (∀ t lx', one = Ok (t, lx') → lexed lx t lx') → op2 lx start n two one = Ok (t, lx') → lexed lx t lx'.
Proof.
  intros Htwo Hone H. unfold op2 in H. case_bool_decide; [|by apply Hone]. injection H as <- <-. split; [done|].
  unfold bump. by case_match.
Qed.

Lemma next_token_inv lx t lx' :
  Forall ascii_byte (input lx) → next_token lx = Ok (t, lx') → lexed lx t lx'.
Proof.
  intros Ha H. unfold next_token, skip_ws in H. apply bind_ok in H as (lx1 & Hw & H).
  destruct (while_peek_inv _ _ _ _ Hw) as (Hi & _ & _). unfold lexed. rewrite <- Hi in *. clear Hw Hi. fold (lexed lx1 t lx').
  destruct (bump lx1) as [[b|] lx2] eqn:Hb; [|apply bump_none in Hb as [_ ->]; injection H as <- <-; by split].
  apply bump_some in Hb as [Hl ->]. change (lexed (with_pos lx1 (S (pos lx1))) t lx'). unfold next_token_at in H.
  assert (∀ k (t0 : Token) lx0, tok_ok k → Ok (tok k (pos lx1) (S (pos lx1)), with_pos lx1 (S (pos lx1))) = Ok (E := ParseError) (t0, lx0) →
    lexed (with_pos lx1 (S (pos lx1))) t0 lx0) as Hone by (intros k t0 lx0 Hk [= <- <-]; by split).
  repeat match type of H with (if ?c then _ else _) = _ => destruct c eqn:? end;
    try (by eapply Hone in H); try (eapply op2_inv; [| |exact H]; [done|intros t0 lx0 H0; first [by eapply Hone in H0|discriminate H0]]).
  - unfold lex_string in H. by eapply lex_string_inv in H.
  - apply lex_number_inv in H. by destruct H.
  - eapply lex_ident_inv; [| | |exact H]; simpl; [lia| |done]. by rewrite Nat.sub_0_r.
  - done.
  - by apply lex_bareword_inv in H.
Qed.

Lemma lex_all_inv fuel : ∀ lx ts,
  Forall ascii_byte (input lx) → lex_all fuel lx = Ok ts → Forall tok_ok (map kind ts).
Proof.
  induction fuel as [|f IH]; intros lx ts Ha H; [done|]. cbn [lex_all] in H.
  apply bind_ok in H as ([t lx'] & Ht & H). cbn beta iota in H. destruct (next_token_inv _ _ _ Ha Ht) as [Hk Hi].
  case_decide; [injection H as <-; constructor|]. apply bind_ok in H as (ts' & Hts & [= <-]). constructor; [done|].
  eapply IH; [|exact Hts]. by rewrite Hi.
Qed.

Lemma tokens_ok s ks : Forall ascii_byte s → tokens s = Ok ks → Forall tok_ok ks.
Proof.
  intros Ha H. apply bind_ok in H as (ts & Hts & [= <-]). by eapply lex_all_inv in Hts.
Qed.

(** ** What the grammar makes of them *)

Lemma int_lit_i64 ks v : int_lit ks v → Forall tok_ok ks → is_i64 v.
Proof.
  induction 1 as [v|ks v _ IH Hv|ks v _ IH|st v _ _ Hl|ks v _ IH]; intros Hk; apply Forall_cons in Hk as [Hk Hks].
  - simpl in Hk. unfold is_i64, i64_min in *. lia.
  - specialize (IH Hks). unfold is_i64, i64_min, i64_max in *. lia.
  - by apply IH.
  - by eapply literal_range.
  - apply IH. by apply Forall_app in Hks as [].
Qed.

Lemma pattern_ascii ks pat : pattern ks pat → Forall tok_ok ks → Forall ascii_byte pat.
Proof.
  intros [k st more Hk] Hks. apply Forall_cons in Hks as [Hko Hks]. apply Forall_app. split.
  - destruct k; simplify_eq/=; try done. destruct st as [|a st]; [done|]. destruct Hko as [Ha Ht].
    apply (show_token_ascii (Ident (a :: st))). by split.
  - induction more as [|w more IH]; simpl in *; [constructor|]. apply Forall_cons in Hks as [Hw Hks].
    apply Forall_app. split; [done|by apply IH].
Qed.

Lemma comparison_ok ks e : comparison ks e → Forall tok_ok ks → shape_ok 2 e.
Proof.
  destruct 1 as [f k op ks r Hop Hi|f ks m k op ks2 r Hm Hop Hi|f ks pat Hpat|f k op k1 ks pat Hop Hs Hpat];
    intros Hk; apply Forall_cons in Hk as [Hf Hk]; apply Forall_cons in Hk as [_ Hk]; (split; [exact Hf|]); simpl.
  - split; [by eapply int_lit_i64|done].
  - apply Forall_app in Hk as [Hk1 Hk2]. apply Forall_cons in Hk2 as [_ Hk2]. split; by eapply int_lit_i64.
  - by eapply pattern_ascii.
  - by eapply pattern_ascii.
Qed.

Lemma shape_ok_weaken e : ∀ lvl lvl', (lvl' ≤ lvl)%nat → shape_ok lvl e → shape_ok lvl' e.
Proof. destruct e; simpl; intros lvl lvl' Hl; try done; intros (? & ? & ?); split_and!; try done; lia. Qed.

Lemma formula_ok lvl ks e : formula lvl ks e → Forall tok_ok ks → shape_ok lvl e.
Proof.
  induction 1 as [ks l ks2 r _ IHl _ IHr|ks e _ IH|ks l ks2 r _ IHl _ IHr|ks e _ IH|ks e Hc|ks e _ IH]; intros Hk.
  - apply Forall_app in Hk as [Hk1 Hk2]. apply Forall_cons in Hk2 as [_ Hk2]. split_and!; [done|by apply IHl|by apply IHr].
  - eapply shape_ok_weaken; [|by apply IH]. lia.
  - apply Forall_app in Hk as [Hk1 Hk2]. apply Forall_cons in Hk2 as [_ Hk2]. split_and!; [done|by apply IHl|by apply IHr].
  - eapply shape_ok_weaken; [|by apply IH]. lia.
  - by eapply comparison_ok.
  - apply Forall_cons in Hk as [_ Hk]. apply Forall_app in Hk as [Hk _]. by apply IH.
Qed.

(** ** Properties *)

(** [s] is a text of [e]. *)
Definition parses (s : str) (e : Shape) : Prop := ∃ x, parse_str s = Ok x ∧ shape x = e.

(** C15: the text of a filter round-trips.  Of the ASCII texts the parser
    returns exactly the expressions [shape_ok] describes (the documented
    precedence, names of letters, digits and underscores, [i64] operands,
    ASCII patterns): whatever it returns is one of them, and each of them,
    [i64::MIN] and patterns with quotes, backslashes and blanks included,
    written by [show_shape], is parsed back as itself. *)
Theorem filter_text_roundtrip e :
  ((∃ s, Forall ascii_byte s ∧ parses s e) → shape_ok 0 e) ∧
  (shape_ok 0 e → Forall ascii_byte (show_shape e) ∧ parses (show_shape e) e).
Proof.
  split.
  - intros (s & Ha & x & Hp & <-). destruct (parse_str_sound s x (utf8_ascii s Ha) Hp) as (ks & Ht & Hf).
    eapply formula_ok; [exact Hf|]. by eapply tokens_ok.
  - intros He. pose proof (toks_writable e 0 He) as Hw. pose proof (unlex_ascii _ Hw) as Ha. split; [done|].
    eapply parse_str_complete; [by apply utf8_ascii|by apply tokens_unlex|by apply toks_formula; [lia|]].
Qed.

Lemma filter_text_roundtrip_witness :
  let e := ShAnd (ShGroup (ShOr (ShNum (bs "sig") None NGe i64_min) (ShNum (bs "v") (Some (-16)) NNe 3)))
    (ShStr (bs "comm") SGlob (bs "a b\*")) in
  Forall ascii_byte (show_shape e) ∧ parses (show_shape e) e.
Proof.
  cbv zeta. apply filter_text_roundtrip.
  repeat first [split | apply Forall_cons_2 | apply Forall_nil_2]; vm_compute; try done; try (intros H; discriminate H); lia.
Defined.
