(* ===== verification/Glob.v ===== *)
(** The glob matcher of tp-lexer/src/lib.rs ([glob_match_bytes],
    [match_class]) and its declarative specification. *)
From S2P Require Import Prelude.

(** ** The code *)

(** The loop of [match_class] over the body of a class; [None] in place of
    the returned pair stands for no verdict yet. *)
Fixpoint class_loop (fuel : nat) (p : str) (pi : nat) (c : Z) (prev : option Z) (matched : bool) :
    res unit ((bool * nat) + (bool * nat)) :=
  match fuel with
  | O => OutOfFuel
  | S f =>
      match p !! pi with
      | Some x =>
          if x =? ch "]" then Ok (inr (matched, pi))
          else
            match (if x =? ch "-" then prev else None) with
            | Some start_c =>
                match p !! S pi with
                | None => Ok (inl (false, S pi))
                | Some end_c =>
                    class_loop f p (S (S pi)) c None
                      (if (start_c <=? c) && (c <=? end_c) then true else matched)
                end
            | None => class_loop f p (S pi) c (Some x) (if c =? x then true else matched)
            end
      | None => Ok (inr (matched, pi))
      end
  end.

(** The end of [match_class], after its loop. *)
Definition class_verdict (p : str) (negated : bool) (r : (bool * nat) + (bool * nat)) :
    res unit (bool * nat) :=
  match r with
  | inl ret => Ok ret
  | inr (matched, pi) =>
      match p !! pi with
      | Some x => if x =? ch "]" then Ok (if negated then negb matched else matched, S pi)
                  else Ok (false, length p)
      | None => Ok (false, length p)
      end
  end.

Definition match_class (p : str) (pi : nat) (c : Z) : res unit (bool * nat) :=
  let '(negated, pi) :=
    match p !! pi with
    | Some x => if (x =? ch "^") || (x =? ch "!") then (true, S pi) else (false, pi)
    | None => (false, pi)
    end in
  r ← class_loop (S (length p)) p pi c None false;
  class_verdict p negated r.

(** [while pi < p.len() && p[pi] == b'*' { pi += 1 }]. *)
Fixpoint skip_stars (fuel : nat) (p : str) (pi : nat) : nat :=
  match fuel with
  | O => pi
  | S f => match p !! pi with
           | Some x => if x =? ch "*" then skip_stars f p (S pi) else pi
           | None => pi
           end
  end.

(** [while k <= t.len() { if m(k) { return true } if k == t.len() { break } k += 1 }]. *)
Fixpoint try_from (m : nat → res unit bool) (fuel : nat) (t : str) (k : nat) : res unit bool :=
  match fuel with
  | O => OutOfFuel
  | S f =>
      if (k <=? length t)%nat then
        b ← m k;
        if b : bool then Ok true
        else if (k =? length t)%nat then Ok false
        else try_from m f t (S k)
      else Ok false
  end.

Fixpoint glob_match_impl (fuel : nat) (p : str) (pi : nat) (t : str) (ti : nat) : res unit bool :=
  match fuel with
  | O => OutOfFuel
  | S f =>
      match p !! pi with
      | None => Ok (ti =? length t)%nat
      | Some x =>
          if x =? ch "?" then
            if (length t <=? ti)%nat then Ok false else glob_match_impl f p (S pi) t (S ti)
          else if x =? ch "*" then
            let pi := skip_stars (length p) p pi in
            if (pi =? length p)%nat then Ok true
            else try_from (glob_match_impl f p pi t) (S (length t)) t ti
          else if x =? ch "[" then
            match t !! ti with
            | None => Ok false
            | Some c =>
                '(ok, new_pi) ← match_class p (S pi) c;
                if ok : bool then glob_match_impl f p new_pi t (S ti) else Ok false
            end
          else
            match t !! ti with
            | None => Ok false
            | Some c => if c =? x then glob_match_impl f p (S pi) t (S ti) else Ok false
            end
      end
  end.

Definition glob_match_bytes (p t : str) : res unit bool := glob_match_impl (S (length p)) p 0 t 0.

Example glob_ex1 : glob_match_bytes (bs "b[!a-c]s*h?") (bs "bdsxxhz") = Ok true.
Proof. vm_compute. reflexivity. Qed.
Example glob_ex2 : glob_match_bytes (bs "b[^a]sh") (bs "bash") = Ok false.
Proof. vm_compute. reflexivity. Qed.

(** ** Specification *)

(** The body of a class: single bytes and ranges. *)
Inductive ClassItem := Single (c : Z) | Range (lo hi : Z).

Definition item_has (c : Z) (i : ClassItem) : bool :=
  match i with
  | Single x => c =? x
  | Range lo hi => (lo <=? c) && (c <=? hi)
  end.

(** [class_body prev s items rest]: [s] is a class body up to its closing
    bracket, with the pending character [prev], and [rest] follows it.
    A [-] after a pending character makes a range with the next byte,
    whatever that byte is. *)
Inductive class_body : option Z → str → list ClassItem → str → Prop :=
  | cb_close prev rest : class_body prev (ch "]" :: rest) [] rest
  | cb_range lo hi s items rest :
      class_body None s items rest →
      class_body (Some lo) (ch "-" :: hi :: s) (Range lo hi :: items) rest
  | cb_single prev x s items rest :
      x ≠ ch "]" → (x ≠ ch "-" ∨ prev = None) →
      class_body (Some x) s items rest →
      class_body prev (x :: s) (Single x :: items) rest.

(** A whole class after its opening bracket. *)
Inductive class_of : str → bool → list ClassItem → str → Prop :=
  | class_neg n s items rest :
      n = ch "^" ∨ n = ch "!" → class_body None s items rest → class_of (n :: s) true items rest
  | class_pos s items rest :
      head s ≠ Some (ch "^") → head s ≠ Some (ch "!") → class_body None s items rest →
      class_of s false items rest.

Definition class_has (negated : bool) (items : list ClassItem) (c : Z) : bool :=
  xorb negated (existsb (item_has c) items).

(** The language of a pattern. *)
Inductive globs : str → str → Prop :=
  | g_nil : globs [] []
  | g_any p c t : globs p t → globs (ch "?" :: p) (c :: t)
  | g_star p t u : globs p u → globs (ch "*" :: p) (t ++ u)
  | g_class p neg items rest c t :
      class_of p neg items rest → class_has neg items c = true → globs rest t →
      globs (ch "[" :: p) (c :: t)
  | g_char x p t :
      x ≠ ch "?" → x ≠ ch "*" → x ≠ ch "[" → globs p t → globs (x :: p) (x :: t).

(** ** Character classes *)

Lemma drop_some {A} (l : list A) i x : l !! i = Some x → drop i l = x :: drop (S i) l.
Proof. apply drop_S. Qed.

Lemma drop_none {A} (l : list A) i : l !! i = None → drop i l = [].
Proof. intros H. apply lookup_ge_None in H. by apply drop_ge. Qed.

Lemma class_loop_complete fuel p pi c prev matched items rest :
  (length p - pi < fuel)%nat → class_body prev (drop pi p) items rest →
  ∃ j, class_loop fuel p pi c prev matched = Ok (inr (matched || existsb (item_has c) items, j)) ∧
    p !! j = Some (ch "]") ∧ rest = drop (S j) p ∧ (pi ≤ j)%nat.
Proof.
  revert pi prev matched items rest. induction fuel as [|f IH]; intros pi prev matched items rest Hf Hc; [lia|].
  cbn [class_loop]. destruct (p !! pi) as [x|] eqn:Hx.
  2: { rewrite drop_none in Hc by done. inversion Hc. }
  apply lookup_lt_Some in Hx as Hlt. rewrite (drop_some _ _ _ Hx) in Hc. inversion Hc; subst.
  - rewrite Z.eqb_refl. exists pi. by rewrite orb_false_r.
  - change (ch "-" =? ch "]") with false. rewrite Z.eqb_refl.
    destruct (p !! S pi) as [hi'|] eqn:Hhi; [|rewrite (drop_none _ _ Hhi) in *; done].
    rewrite (drop_some _ _ _ Hhi) in *. simplify_eq. apply lookup_lt_Some in Hhi.
    edestruct (IH (S (S pi)) None) as (j & -> & ? & ? & ?); [lia|done|].
    exists j. split_and!; [|done|done|lia]. do 3 f_equal. simpl.
    destruct ((lo <=? c) && (c <=? hi')), matched; done.
  - rewrite (proj2 (Z.eqb_neq _ _)) by done.
    assert ((if x =? ch "-" then prev else None) = None) as ->.
    { destruct (Z.eqb_spec x (ch "-")); [|done]. by match goal with H : _ ∨ _ |- _ => destruct H end. }
    edestruct (IH (S pi) (Some x)) as (j & -> & ? & ? & ?); [lia|done|].
    exists j. split_and!; [|done|done|lia]. do 3 f_equal. simpl. destruct (c =? x), matched; done.
Qed.

(** The loop always answers; when it stops on a bracket, it has read a body. *)
Lemma class_loop_sound fuel p pi c prev matched :
  (length p - pi < fuel)%nat →
  (∃ r, class_loop fuel p pi c prev matched = Ok (inl (false, r))) ∨
  (∃ m j, class_loop fuel p pi c prev matched = Ok (inr (m, j)) ∧
    (p !! j = None ∨ ∃ items, class_body prev (drop pi p) items (drop (S j) p))).
Proof.
  revert pi prev matched. induction fuel as [|f IH]; intros pi prev matched Hf; [lia|].
  cbn [class_loop]. destruct (p !! pi) as [x|] eqn:Hx; [|right; eauto].
  apply lookup_lt_Some in Hx as Hlt. rewrite (drop_some _ _ _ Hx).
  destruct (Z.eqb_spec x (ch "]")) as [->|Hclose].
  { right. exists matched, pi. split; [done|]. right. exists []. constructor. }
  destruct (if x =? ch "-" then prev else None) as [lo|] eqn:Hr.
  - destruct (Z.eqb_spec x (ch "-")) as [->|]; [|done]. subst prev.
    destruct (p !! S pi) as [hi|] eqn:Hhi; [|left; eauto].
    apply lookup_lt_Some in Hhi as ?. rewrite (drop_some _ _ _ Hhi).
    destruct (IH (S (S pi)) None (if (lo <=? c) && (c <=? hi) then true else matched) ltac:(lia))
      as [?|(m & j & Hl & [?|(items & Hc)])]; [by left|right; eauto|].
    right. exists m, j. split; [done|]. right. exists (Range lo hi :: items). by constructor.
  - destruct (IH (S pi) (Some x) (if c =? x then true else matched) ltac:(lia))
      as [?|(m & j & Hl & [?|(items & Hc)])]; [by left|right; eauto|].
    right. exists m, j. split; [done|]. right. exists (Single x :: items).
    constructor; [done| |done]. destruct (Z.eqb_spec x (ch "-")); auto.
Qed.

Lemma class_body_dec p qi :
  (∃ items rest, class_body None (drop qi p) items rest) ∨
  ((∀ items rest, ¬ class_body None (drop qi p) items rest) ∧
   ∀ c, (∃ r, class_loop (S (length p)) p qi c None false = Ok (inl (false, r))) ∨
        ∃ m j, class_loop (S (length p)) p qi c None false = Ok (inr (m, j)) ∧ p !! j = None).
Proof.
  destruct (class_loop_sound (S (length p)) p qi 0 None false ltac:(lia))
    as [(r & Hr)|(m & j & Hr & [Hj|(items & Hc)])]; [right|right|left; eauto];
    (assert (∀ items rest, ¬ class_body None (drop qi p) items rest) as Hno;
     [intros items rest Hb;
      destruct (class_loop_complete (S (length p)) p qi 0 None false items rest ltac:(lia) Hb)
        as (j' & ? & ? & _); congruence|]);
    (split; [done|]); intros c;
    (destruct (class_loop_sound (S (length p)) p qi c None false ltac:(lia))
       as [?|(m' & j' & ? & [?|(items & Hc)])]; [by left|right; eauto|by destruct (Hno _ _ Hc)]).
Qed.

(** What a verdict [(ok, np)] on the byte [c] says of the text [s]. *)
Definition class_verdict_ok (p s : str) (c : Z) (cls : str → bool → list ClassItem → str → Prop)
    (lo : nat) (ok : bool) (np : nat) : Prop :=
  (ok = true ↔ ∃ neg items, cls s neg items (drop np p) ∧ class_has neg items c = true) ∧
  (ok = true → (lo < np ≤ length p)%nat) ∧
  (∀ neg items rest, cls s neg items rest → rest = drop np p).

Lemma class_finish p qi c neg :
  ∃ ok np, (r ← class_loop (S (length p)) p qi c None false; class_verdict p neg r) = Ok (ok, np) ∧
    class_verdict_ok p (drop qi p) c (λ s n items rest, n = neg ∧ class_body None s items rest) qi ok np.
Proof.
  pose proof (λ items rest, class_loop_complete (S (length p)) p qi c None false items rest ltac:(lia))
    as Hcomplete.
  destruct (class_body_dec p qi) as [(items & rest & Hb)|[Hno Hl]].
  - destruct (Hcomplete _ _ Hb) as (j & Hl & Hj & -> & Hq).
    assert (∀ items' rest, class_body None (drop qi p) items' rest →
      existsb (item_has c) items' = existsb (item_has c) items ∧ rest = drop (S j) p) as Hdet.
    { intros items' rest Hb'. destruct (Hcomplete _ _ Hb') as (j' & Hl' & _ & -> & _).
      rewrite Hl in Hl'. simplify_eq/=. auto. }
    rewrite Hl. simpl. rewrite Hj. simpl.
    exists (xorb neg (existsb (item_has c) items)), (S j). split; [by destruct neg|]. split_and!.
    + split; [intros Hok; exists neg, items; done|].
      intros (n & items' & [-> Hb'] & Hh). destruct (Hdet _ _ Hb') as [He _].
      unfold class_has in Hh. by rewrite He in Hh.
    + intros _. apply lookup_lt_Some in Hj. lia.
    + intros n items' rest [_ Hb']. by apply Hdet in Hb' as [_ ->].
  - assert (∃ np, (r ← class_loop (S (length p)) p qi c None false; class_verdict p neg r) = Ok (false, np))
      as (np & ->).
    { destruct (Hl c) as [(r & ->)|(m & j & -> & Hj)]; simpl; rewrite ?Hj; eauto. }
    exists false, np. split; [done|]. split_and!; [|done|].
    + split; [done|]. intros (n & items & [_ Hb] & _). by destruct (Hno _ _ Hb).
    + intros n items rest [_ Hb]. by destruct (Hno _ _ Hb).
Qed.

(** [match_class] decides membership in the class that starts at [pi]. *)
Lemma match_class_spec p pi c :
  ∃ ok np, match_class p pi c = Ok (ok, np) ∧
    class_verdict_ok p (drop pi p) c class_of pi ok np.
Proof.
  assert (∀ s neg items rest, class_of s neg items rest ↔
    match s with
    | x :: s' => if (x =? ch "^") || (x =? ch "!") then neg = true ∧ class_body None s' items rest
                 else neg = false ∧ class_body None s items rest
    | [] => False
    end) as Hof.
  { intros s neg items rest. destruct s as [|x s].
    - split; [|done]. intros Hc; inversion Hc as [|? ? ? ? ? Hb]; subst; inversion Hb.
    - destruct (Z.eqb_spec x (ch "^")) as [->|]; simpl.
      { split; [|intros [-> ?]; constructor; auto]. by intros Hc; inversion Hc. }
      destruct (Z.eqb_spec x (ch "!")) as [->|].
      { split; [|intros [-> ?]; constructor; auto]. by intros Hc; inversion Hc. }
      split; [|intros [-> ?]; constructor; simpl; congruence || done].
      intros Hc; inversion Hc as [? ? ? ? [|]|]; subst; done. }
  unfold match_class. destruct (p !! pi) as [x|] eqn:Hx.
  - destruct ((x =? ch "^") || (x =? ch "!")) eqn:Hn;
      [destruct (class_finish p (S pi) c true) as (ok & np & -> & H1 & H2 & H3)
      |destruct (class_finish p pi c false) as (ok & np & -> & H1 & H2 & H3)];
      exists ok, np; (split; [done|]); rewrite (drop_some _ _ _ Hx) in *; split_and!;
      try setoid_rewrite Hof; rewrite ?Hn; try done.
    intros ?%H2. lia.
  - destruct (class_finish p pi c false) as (ok & np & -> & H1 & H2 & H3).
    exists ok, np. rewrite (drop_none _ _ Hx) in *. split; [done|]. split_and!; [|done|].
    + rewrite H1. split; intros (n & items & Hc & _); [destruct Hc as [_ Hc]|apply Hof in Hc]; inversion Hc.
    + intros n items rest Hc. by apply Hof in Hc.
Qed.

(** ** The matcher *)

Lemma globs_star_iff p u : globs (ch "*" :: p) u ↔ ∃ k, (k ≤ length u)%nat ∧ globs p (drop k u).
Proof.
  split.
  - intros Hg. inversion Hg; subst; try done.
    exists (length t). rewrite length_app, drop_app_length. split; [lia|done].
  - intros (k & Hk & Hg). rewrite <- (take_drop k u). by constructor.
Qed.

Lemma globs_nil_iff u : globs [] u ↔ u = [].
Proof. split; [by inversion 1|intros ->; constructor]. Qed.

Lemma skip_stars_spec fuel p pi u :
  (length p - pi ≤ fuel)%nat →
  let pj := skip_stars fuel p pi in
  (pi ≤ pj)%nat ∧ (pj ≤ length p ∨ pj = pi)%nat ∧
  ((∃ k, (k ≤ length u)%nat ∧ globs (drop pi p) (drop k u)) ↔
   (∃ k, (k ≤ length u)%nat ∧ globs (drop pj p) (drop k u))).
Proof.
  revert pi. induction fuel as [|f IH]; intros pi Hf; cbn [skip_stars]; [split_and!; auto; done|].
  destruct (p !! pi) as [x|] eqn:Hx; [|split_and!; auto; done].
  destruct (Z.eqb_spec x (ch "*")) as [->|]; [|split_and!; auto; done].
  apply lookup_lt_Some in Hx as Hlt. destruct (IH (S pi) ltac:(lia)) as (H1 & H2 & H3).
  split_and!; [lia|lia|]. rewrite <- H3, (drop_some _ _ _ Hx). split.
  - intros (k & Hk & Hg). apply globs_star_iff in Hg as (k' & Hk' & Hg).
    rewrite length_drop in Hk'. rewrite drop_drop in Hg. exists (k + k')%nat. split; [lia|done].
  - intros (k & Hk & Hg). exists k. split; [done|]. apply globs_star_iff. exists 0%nat. split; [lia|done].
Qed.

Lemma try_from_spec m (Q : nat → Prop) fuel t k :
  (k ≤ length t)%nat → (length t - k < fuel)%nat →
  (∀ j, (k ≤ j ≤ length t)%nat → decides (m j) (Q j)) →
  decides (try_from m fuel t k) (∃ j, (k ≤ j ≤ length t)%nat ∧ Q j).
Proof.
  revert k. induction fuel as [|f IH]; intros k Hk Hf Hm; [lia|]. cbn [try_from].
  rewrite (proj2 (Nat.leb_le _ _)) by done.
  destruct (Hm k ltac:(lia)) as ([|] & -> & Hb); simpl.
  { apply decides_true. exists k. split; [lia|by apply Hb]. }
  assert (¬ Q k) as HnQ by (intros HQ; apply Hb in HQ; done).
  destruct (Nat.eqb_spec k (length t)) as [->|Hne].
  - apply decides_false. intros (j & Hj & HQ). by replace j with (length t) in HQ by lia.
  - eapply decides_iff; [|apply (IH (S k)); [lia|lia|intros; apply Hm; lia]].
    split; intros (j & Hj & HQ); exists j; (split; [|done]); [lia|].
    destruct (decide (j = k)); [by subst|lia].
Qed.

(** The cases of one step of the matcher, given the rest of the pattern. *)
Section glob_step.
Context (f : nat) (p t : str) (pi ti : nat).
Context (Hti : (ti ≤ length t)%nat).
Context (IH : ∀ np tj, (pi < np)%nat → (tj ≤ length t)%nat →
  decides (glob_match_impl f p np t tj) (globs (drop np p) (drop tj t))).

Lemma step_star :
  p !! pi = Some (ch "*") →
  let pj := skip_stars (length p) p pi in
  decides (if (pj =? length p)%nat then Ok true
           else try_from (glob_match_impl f p pj t) (S (length t)) t ti)
    (globs (drop pi p) (drop ti t)).
Proof using All.
  intros Hx pj. pose proof (lookup_lt_Some _ _ _ Hx) as Hlt.
  assert (pi < pj)%nat as Hj.
  { unfold pj. destruct (length p) as [|n] eqn:Hn; [lia|]. cbn [skip_stars]. rewrite Hx. simpl.
    destruct (skip_stars_spec n p (S pi) [] ltac:(lia)) as (? & _). lia. }
  destruct (skip_stars_spec (length p) p pi (drop ti t) ltac:(lia)) as (_ & _ & Hiff).
  fold pj in Hiff.
  assert ((∃ k, (k ≤ length (drop ti t))%nat ∧ globs (drop pj p) (drop k (drop ti t))) ↔
    globs (drop pi p) (drop ti t)) as Hstar.
  { rewrite <- Hiff, (drop_some _ _ _ Hx). split.
    - intros (k & Hk & Hg). apply globs_star_iff in Hg as (k' & Hk' & Hg).
      apply globs_star_iff. rewrite length_drop in Hk'. rewrite drop_drop in Hg.
      exists (k + k')%nat. split; [lia|done].
    - intros Hg. exists 0%nat. split; [lia|done]. }
  eapply decides_iff; [exact Hstar|]. destruct (Nat.eqb_spec pj (length p)) as [Heq|Hne].
  - apply decides_true. exists (length (drop ti t)).
    split; [lia|]. rewrite Heq, !drop_all. constructor.
  - eapply decides_iff; [|apply (try_from_spec _ (λ k, globs (drop pj p) (drop k t)));
      [done|lia|intros k Hk; apply IH; lia]].
    rewrite length_drop. split.
    + intros (j & Hj' & Hg). exists (j - ti)%nat. split; [lia|]. rewrite drop_drop.
      by replace (ti + (j - ti))%nat with j by lia.
    + intros (k & Hk & Hg). exists (ti + k)%nat. split; [lia|]. by rewrite <- drop_drop.
Qed.

Lemma step_class c :
  p !! pi = Some (ch "[") → t !! ti = Some c →
  decides ('(ok, np) ← match_class p (S pi) c;
           if ok : bool then glob_match_impl f p np t (S ti) else Ok false)
    (globs (drop pi p) (drop ti t)).
Proof using All.
  intros Hx Hc. pose proof (lookup_lt_Some _ _ _ Hc).
  rewrite (drop_some _ _ _ Hx), (drop_some _ _ _ Hc).
  destruct (match_class_spec p (S pi) c) as (ok & np & -> & Hok & Hnp & Hdet). simpl. destruct ok.
  - eapply decides_iff; [|apply IH; [specialize (Hnp eq_refl)|]; lia].
    destruct (proj1 Hok eq_refl) as (neg & items & Hc' & Hh). split.
    + intros Hg. by eapply g_class.
    + inversion 1 as [| | |? ? ? rest ? ? Hcl ? ?|]; subst; [|done]. by rewrite <- (Hdet _ _ _ Hcl).
  - apply decides_false.
    inversion 1 as [| | |? neg items rest ? ? Hcl Hh ?|]; subst; [|done].
    pose proof (Hdet _ _ _ Hcl) as ->. assert (false = true) by (apply Hok; eauto). done.
Qed.
End glob_step.

Lemma glob_match_impl_spec fuel p t : ∀ pi ti,
  (length p - pi < fuel)%nat → (ti ≤ length t)%nat →
  decides (glob_match_impl fuel p pi t ti) (globs (drop pi p) (drop ti t)).
Proof.
  induction fuel as [|f IH]; intros pi ti Hf Ht; [lia|]. cbn [glob_match_impl].
  destruct (p !! pi) as [x|] eqn:Hx.
  2: { eexists; split; [done|]. rewrite (drop_none _ _ Hx), globs_nil_iff, Nat.eqb_eq. split.
       - intros ->. apply drop_all.
       - intros Hd. apply (f_equal length) in Hd. rewrite length_drop in Hd. simpl in Hd. lia. }
  pose proof (lookup_lt_Some _ _ _ Hx) as Hlt.
  assert (∀ np tj, (pi < np)%nat → (tj ≤ length t)%nat →
    decides (glob_match_impl f p np t tj) (globs (drop np p) (drop tj t))) as Hstep
    by (intros; apply IH; lia).
  destruct (Z.eqb_spec x (ch "*")) as [->|H2]; [by apply step_star|].
  destruct (t !! ti) as [c|] eqn:Hc.
  - pose proof (lookup_lt_Some _ _ _ Hc) as Hct.
    rewrite (proj2 (Nat.leb_gt _ _)) by lia.
    destruct (Z.eqb_spec x (ch "[")) as [->|H3]; [by apply step_class|].
    rewrite (drop_some _ _ _ Hx), (drop_some _ _ _ Hc).
    destruct (Z.eqb_spec x (ch "?")) as [->|H1].
    { eapply decides_iff; [|apply Hstep; lia]. split; [by constructor|]. by inversion 1. }
    destruct (Z.eqb_spec c x) as [->|Hne].
    + eapply decides_iff; [|apply Hstep; lia]. split; [by constructor|]. by inversion 1.
    + apply decides_false. by inversion 1.
  - rewrite (proj2 (Nat.leb_le _ _)) by (by apply lookup_ge_None in Hc).
    rewrite (drop_some _ _ _ Hx), (drop_none _ _ Hc).
    destruct (Z.eqb_spec x (ch "?")), (Z.eqb_spec x (ch "["));
      apply decides_false; inversion 1; subst; done.
Qed.

(** ** Properties *)

Lemma glob_match_decides p t : decides (glob_match_bytes p t) (globs p t).
Proof. unfold glob_match_bytes. apply (glob_match_impl_spec _ p t 0 0); lia. Qed.

(** C16: [glob_match_bytes] terminates on every pattern and text, and answers
    [true] exactly when the text is in the language of the pattern: [?] one
    byte, [*] any run, [[...]] a class with ranges and negation, other bytes
    themselves; an unclosed class matches nothing. *)
Theorem glob_match_correct p t : decides (glob_match_bytes p t) (globs p t).
Proof. apply glob_match_decides. Qed.
