(* ===== verification/Eval.v ===== *)
(** Schema, contexts and the evaluator of tp-lexer (lib.rs 149-165 and
    869-1377, internal.rs): integer converters, tri-state evaluation,
    validation and [compile_with_schema].  The supported targets are 64-bit
    and little-endian, so [usize] is 64 bits and native byte order is
    little-endian. *)
From S2P Require Import Prelude Text IntLit Lexer Parser Glob.

(** ** Errors *)
Inductive EMsg :=
  | ELit (s : str)
  | EWidth (len expected : Z).
Record EvalError := { ee_field : str; ee_message : EMsg }.
#[export] Instance EMsg_eq_dec : EqDecision EMsg.
Proof. solve_decision. Defined.
#[export] Instance EvalError_eq_dec : EqDecision EvalError.
Proof. solve_decision. Defined.

Definition eval_error (field : str) (m : EMsg) : EvalError := {| ee_field := field; ee_message := m |}.

(** ** Integer converters *)

(** The trait [ToI64]: users may supply their own converters. *)
Record ToI64 := {
  to_i64 : str → Z → res str Z;
  byte_len : option Z;
}.

Inductive Prim := I8 | I16 | I32 | I64 | I128 | Isize | U8 | U16 | U32 | U64 | U128 | Usize.
Inductive ITy :=
  | TPrim (p : Prim)
  | TBool
  | TChar
  | TNonZero (p : Prim).

Definition prim_signed (p : Prim) : bool :=
  match p with I8 | I16 | I32 | I64 | I128 | Isize => true | _ => false end.

(** [core::mem::size_of::<T>()]. *)
Definition prim_size (p : Prim) : Z :=
  match p with
  | I8 | U8 => 1 | I16 | U16 => 2 | I32 | U32 => 4 | I64 | U64 | Isize | Usize => 8
  | I128 | U128 => 16
  end.
Definition size_of (t : ITy) : Z :=
  match t with TPrim p | TNonZero p => prim_size p | TBool => 1 | TChar => 4 end.

(** [T::from_ne_bytes(slice)] and [as i64]. *)
Definition from_ne_bytes (p : Prim) (sl : str) : Z :=
  if prim_signed p then wraps (8 * prim_size p) (le_dec sl) else le_dec sl.
Definition as_i64 (z : Z) : Z := wraps 64 z.

(** [char::from_u32]. *)
Definition char_from_u32 (c : Z) : option Z :=
  if (c <? 55296) || ((57343 <? c) && (c <? 1114112)) then Some c else None.

Definition prim_name (p : Prim) : str :=
  bs match p with
     | I8 => "I8" | I16 => "I16" | I32 => "I32" | I64 => "I64" | I128 => "I128" | Isize => "Isize"
     | U8 => "U8" | U16 => "U16" | U32 => "U32" | U64 => "U64" | U128 => "U128" | Usize => "Usize"
     end.

(** [IntegerToI64::<T>::to_i64]. *)
Definition IntegerToI64_to_i64 `{BuildMode} (t : ITy) (bytes : str) (offset : Z) : res str Z :=
  end_ ← arith 64 (offset + size_of t);
  if Z.of_nat (length bytes) <? end_ then Err (bs "insufficient bytes to read integer")
  else
    sl ← unwrap (slice bytes (Z.to_nat offset) (Z.to_nat end_));
    match t with
    | TPrim p => Ok (as_i64 (from_ne_bytes p sl))
    | TBool => b ← unwrap (sl !! 0%nat); Ok (if b =? 0 then 0 else 1)
    | TChar => ok_or (char_from_u32 (le_dec sl)) (bs "invalid char bytes")
    | TNonZero p =>
        let v := as_i64 (from_ne_bytes p sl) in
        if v =? 0 then Err (bs "NonZero" ++ prim_name p ++ bs " cannot be zero") else Ok v
    end.

Definition IntegerToI64 `{BuildMode} (t : ITy) : ToI64 :=
  {| to_i64 := IntegerToI64_to_i64 t; byte_len := Some (size_of t) |}.

(** ** Field types and classifiers *)
Inductive FieldType :=
  | Integer (conv : ToI64)
  | Bytes
  | Unsupported.

(** The Rust types that implement [FieldClassifier]. *)
Inductive RTy :=
  | RInt (t : ITy)
  | RF32 | RF64 | RUnit
  | RSlice (t : RTy)
  | RArray (t : RTy) (size : nat)
  | ROption (t : RTy)
  | RResult (t e : RTy)
  | RWrapping (t : RTy)
  | RCell (t : RTy)
  | RTuple1 (t : RTy)
  | RTuple (ts : list RTy). (* 2 to 9 components *)

Definition is_unsupported (f : FieldType) : bool := match f with Unsupported => true | _ => false end.

Fixpoint FIELD_TYPE `{BuildMode} (t : RTy) : FieldType :=
  match t with
  | RInt t => Integer (IntegerToI64 t)
  | RF32 | RF64 | RUnit => Unsupported
  | RSlice _ | RArray _ _ => Bytes
  | ROption t | RResult t _ | RWrapping t | RCell t | RTuple1 t => FIELD_TYPE t
  | RTuple ts => if existsb (λ t, is_unsupported (FIELD_TYPE t)) ts then Unsupported else Bytes
  end.

(** ** Schema *)
Record Field := { fd_name : str; fd_type : FieldType; fd_offset : Z; fd_len : Z }.
Abbreviation Schema := (list Field).

Fixpoint schema_get (sch : Schema) (name : str) : option (FieldType * Z * Z) :=
  match sch with
  | [] => None
  | f :: sch =>
      if decide (fd_name f = name) then Some (fd_type f, fd_offset f, fd_len f)
      else schema_get sch name
  end.
Definition schema_get_type (sch : Schema) (name : str) : option FieldType :=
  (λ x, x.1.1) <$> schema_get sch name.

(** ** Contexts *)
Class Context (C : Type) := {
  get_integer : C → str → res EvalError (option Z);
  get_str_bytes : C → str → res EvalError (option str);
}.

(** [impl Context for BTreeMap<String, String>]. *)
Definition MapContext := gmap str str.
#[export] Instance BTreeMap_Context : Context MapContext := {
  get_integer ctx name :=
    match ctx !! name with
    | None => Ok None
    | Some value =>
        map_err (λ m, eval_error name (ELit (if decide (m = LitOverflow) then bs "integer literal overflow"
                                             else bs "invalid integer literal")))
          (Some <$> parse_i64_literal_text value)
    end;
  get_str_bytes ctx name := Ok (ctx !! name);
}.

(** Position of the first NUL. *)
Fixpoint position_nul (l : str) : option nat :=
  match l with
  | [] => None
  | b :: l => if b =? 0 then Some 0%nat else S <$> position_nul l
  end.

Definition to_str_bytes `{BuildMode} (buf : str) (offset len : Z) : res str str :=
  end_ ← arith 64 (offset + len);
  if end_ <=? Z.of_nat (length buf) then
    sl ← unwrap (slice buf (Z.to_nat offset) (Z.to_nat end_));
    let e := match position_nul sl with
             | Some p => (p + Z.to_nat offset)%nat
             | None => Z.to_nat end_
             end in
    unwrap (slice buf (Z.to_nat offset) e)
  else Err (bs "buffer too small for field").

Record BufContext := { buf : str; bc_schema : Schema }.

Definition BufContext_get_integer (c : BufContext) (name : str) : res EvalError (option Z) :=
  match schema_get (bc_schema c) name with
  | None => Ok None
  | Some (Integer conv, offset, len) =>
      let go := map_err (λ m, eval_error name (ELit m)) (Some <$> to_i64 conv (buf c) offset) in
      match byte_len conv with
      | Some expected => if len =? expected then go else Err (eval_error name (EWidth len expected))
      | None => go
      end
  | Some _ => Ok None
  end.

Definition BufContext_get_str_bytes `{BuildMode} (c : BufContext) (name : str)
    : res EvalError (option str) :=
  match schema_get (bc_schema c) name with
  | None => Ok None
  | Some (Bytes, offset, len) =>
      map_err (λ m, eval_error name (ELit m)) (Some <$> to_str_bytes (buf c) offset len)
  | Some _ => Ok None
  end.

#[export] Instance BufContext_Context `{BuildMode} : Context BufContext := {
  get_integer := BufContext_get_integer;
  get_str_bytes := BufContext_get_str_bytes;
}.

(** ** Tri-state evaluation *)
Inductive Tri := TTrue | TFalse | TUnknown.
#[export] Instance Tri_eq_dec : EqDecision Tri.
Proof. solve_decision. Defined.

Definition tri_and (a b : Tri) : Tri :=
  match a, b with
  | TFalse, _ | _, TFalse => TFalse
  | TUnknown, x | x, TUnknown => x
  | TTrue, TTrue => TTrue
  end.
Definition tri_or (a b : Tri) : Tri :=
  match a, b with
  | TTrue, _ | _, TTrue => TTrue
  | TUnknown, x | x, TUnknown => x
  | TFalse, TFalse => TFalse
  end.

Definition num_cmp (op : NumOp) (v rhs : Z) : bool :=
  match op with
  | NEq => v =? rhs | NNe => negb (v =? rhs) | NLt => v <? rhs
  | NLe => v <=? rhs | NGt => rhs <? v | NGe => rhs <=? v
  end.
Definition masked (mask : option Z) (v : Z) : Z :=
  match mask with Some m => Z.land v m | None => v end.

(** [glob_match_bytes] has no error outcome. *)
Definition infallible {E A} (m : res unit A) : res E A :=
  match m with Ok a => Ok a | Err _ | Panic => Panic | OutOfFuel => OutOfFuel end.

Definition str_cmp {E} (op : StrOp) (v pat : str) : res E bool :=
  match op with
  | SEq => Ok (bool_decide (v = pat))
  | SNe => Ok (negb (bool_decide (v = pat)))
  | SGlob => infallible (glob_match_bytes pat v)
  end.
Definition tri_of_bool (b : bool) : Tri := if b then TTrue else TFalse.

Fixpoint eval_expr {C} `{Context C} (e : Expr) (sch : Schema) (ctx : C) : res EvalError Tri :=
  match e with
  | Group inner => eval_expr inner sch ctx
  | Or l r =>
      lv ← eval_expr l sch ctx;
      if decide (lv = TTrue) then Ok TTrue
      else rv ← eval_expr r sch ctx; Ok (tri_or lv rv)
  | And l r =>
      lv ← eval_expr l sch ctx;
      if decide (lv = TFalse) then Ok TFalse
      else rv ← eval_expr r sch ctx; Ok (tri_and lv rv)
  | NumCmp field _ mask op rhs =>
      match schema_get_type sch field with
      | Some (Integer _) =>
          o ← get_integer ctx field;
          match o with
          | None => Ok TUnknown
          | Some v => Ok (tri_of_bool (num_cmp op (masked mask v) rhs))
          end
      | Some Bytes | Some Unsupported => Ok TFalse
      | None => Panic
      end
  | StrCmp field _ op pat =>
      match schema_get_type sch field with
      | Some Bytes =>
          o ← get_str_bytes ctx field;
          match o with
          | None => Ok TUnknown
          | Some v => tri_of_bool <$> str_cmp op v pat
          end
      | Some (Integer _) | Some Unsupported => Ok TFalse
      | None => Panic
      end
  end.

(** ** Compilation *)
Record Compiled := { cp_expr : Expr; cp_schema : Schema }.

Definition try_evaluate {C} `{Context C} (c : Compiled) (ctx : C) : res EvalError bool :=
  tri ← eval_expr (cp_expr c) (cp_schema c) ctx;
  match tri with
  | TTrue => Ok true
  | TFalse => Ok false
  | TUnknown => Ok true
  end.

(** [self.try_evaluate(ctx).unwrap_or(false)]. *)
Definition evaluate {C} `{Context C} (c : Compiled) (ctx : C) : res unit bool :=
  match try_evaluate c ctx with
  | Ok b => Ok b
  | Err _ => Ok false
  | Panic => Panic
  | OutOfFuel => OutOfFuel
  end.

Fixpoint validate (e : Expr) (sch : Schema) : res ParseError () :=
  match e with
  | Or l r | And l r => validate l sch;; validate r sch
  | Group inner => validate inner sch
  | NumCmp field sp _ _ _ =>
      match schema_get sch field with
      | None => Err {| pe_span := sp; pe_message := PUnknownField field |}
      | Some (Bytes, _, _) => Err {| pe_span := sp; pe_message := PNotNumeric field |}
      | Some (Integer conv, _, len) =>
          match byte_len conv with
          | Some expected =>
              if len =? expected then Ok ()
              else Err {| pe_span := sp; pe_message := PWidth field len expected |}
          | None => Ok ()
          end
      | Some (Unsupported, _, _) => Err {| pe_span := sp; pe_message := PUnsupported field |}
      end
  | StrCmp field sp _ _ =>
      match schema_get sch field with
      | None => Err {| pe_span := sp; pe_message := PUnknownField field |}
      | Some (Integer _, _, _) => Err {| pe_span := sp; pe_message := PNotString field |}
      | Some (Bytes, _, _) => Ok ()
      | Some (Unsupported, _, _) => Err {| pe_span := sp; pe_message := PUnsupported field |}
      end
  end.

Definition compile_with_schema (input : str) (sch : Schema) : res ParseError Compiled :=
  expr ← parse_str input;
  validate expr sch;;
  Ok {| cp_expr := expr; cp_schema := sch |}.

(** ** Well-typed filters *)

(** What [validate] promises: every compared field exists with the type the
    comparison needs, and an integer field has the width of its converter. *)
Fixpoint well_typed (sch : Schema) (e : Expr) : Prop :=
  match e with
  | Or l r | And l r => well_typed sch l ∧ well_typed sch r
  | Group e => well_typed sch e
  | NumCmp f _ _ _ _ => ∃ conv off len, schema_get sch f = Some (Integer conv, off, len) ∧
      (byte_len conv = None ∨ byte_len conv = Some len)
  | StrCmp f _ _ _ => ∃ off len, schema_get sch f = Some (Bytes, off, len)
  end.

Lemma validate_spec sch e : safe (validate e sch) (λ _, well_typed sch e) (λ _, ¬ well_typed sch e).
Proof.
  induction e as [l IHl r IHr|l IHl r IHr|f sp m op rhs|f sp op p|e IH]; simpl; try done.
  1,2: destruct (validate l sch) as [[]| | |]; simpl in *; try done; [|tauto];
    destruct (validate r sch) as [[]| | |]; simpl in *; tauto.
  - destruct (schema_get sch f) as [[[[conv| |] off] len]|]; simpl;
      try (intros (?&?&?&[=]&?)).
    destruct (byte_len conv) as [ex|] eqn:Hb; simpl; [|by eauto 8].
    destruct (Z.eqb_spec len ex) as [->|Hne]; simpl; [by eauto 8|].
    intros (?&?&?&[= <- <- <-]&[H|H]); congruence.
  - destruct (schema_get sch f) as [[[[conv| |] off] len]|]; simpl;
      try (intros (?&?&[=])). eauto.
Qed.

Lemma compile_ok s sch c :
  compile_with_schema s sch = Ok c → cp_schema c = sch ∧ well_typed sch (cp_expr c) ∧ parse_str s = Ok (cp_expr c).
Proof.
  unfold compile_with_schema. intros H. apply bind_ok in H as (e & He & H).
  apply bind_ok in H as ([] & Hv & [= <-]). simpl.
  repeat split; try done. apply (safe_ok _ _ _ _ (validate_spec sch e) Hv).
Qed.

(** ** Contexts that answer *)

(** A context never panics, and its errors name the field they are about. *)
Record context_safe {C} `{Context C} (ctx : C) : Prop := {
  cs_int f : safe (get_integer ctx f) (λ _, True) (λ e, ee_field e = f);
  cs_str f : safe (get_str_bytes ctx f) (λ _, True) (λ e, ee_field e = f);
}.

Fixpoint fields_of (e : Expr) : list str :=
  match e with
  | Or l r | And l r => fields_of l ++ fields_of r
  | Group e => fields_of e
  | NumCmp f _ _ _ _ | StrCmp f _ _ _ => [f]
  end.

Lemma str_cmp_total {E} op v pat (R : E → Prop) : safe (str_cmp op v pat) (λ _, True) R.
Proof.
  destruct op; simpl; try done.
  destruct (glob_match_decides pat v) as (b & -> & _). done.
Qed.

Lemma schema_get_type_some sch f t off len :
  schema_get sch f = Some (t, off, len) → schema_get_type sch f = Some t.
Proof. unfold schema_get_type. by intros ->. Qed.

Lemma eval_expr_total {C} `{Context C} (ctx : C) sch e :
  well_typed sch e → context_safe ctx →
  safe (eval_expr e sch ctx) (λ _, True) (λ er, ee_field er ∈ fields_of e).
Proof.
  intros Hwt [Hi Hs].
  induction e as [l IHl r IHr|l IHl r IHr|f sp m op rhs|f sp op p|e IH]; simpl in *; [| | | |by auto].
  1,2: destruct Hwt as [Hl Hr]; specialize (IHl Hl); specialize (IHr Hr);
    destruct (eval_expr l sch ctx); simpl in *; try done; [|set_solver];
    case_decide; [done|]; destruct (eval_expr r sch ctx); simpl in *; try done; set_solver.
  - destruct Hwt as (conv & off & len & Hg & _). rewrite (schema_get_type_some _ _ _ _ _ Hg).
    specialize (Hi f). destruct (get_integer ctx f) as [[v|]|er| |]; simpl in *; try done. set_solver.
  - destruct Hwt as (off & len & Hg). rewrite (schema_get_type_some _ _ _ _ _ Hg).
    specialize (Hs f). destruct (get_str_bytes ctx f) as [[v|]|er| |]; simpl in *; try done; [|set_solver].
    pose proof (str_cmp_total op v p (λ er, ee_field er ∈ [f])) as Hc.
    destruct (str_cmp op v p); simpl in *; done.
Qed.

(** ** Reference semantics *)

Definition num_rel (op : NumOp) (v rhs : Z) : Prop :=
  match op with
  | NEq => v = rhs | NNe => v ≠ rhs | NLt => v < rhs | NLe => v ≤ rhs | NGt => rhs < v | NGe => rhs ≤ v
  end.
Definition str_rel (op : StrOp) (v pat : str) : Prop :=
  match op with SEq => v = pat | SNe => v ≠ pat | SGlob => globs pat v end.

(** The comparisons on missing fields are dropped from the formula; [None]
    when nothing is left. *)
Definition join (f : Prop → Prop → Prop) (p q : option Prop) : option Prop :=
  match p, q with
  | Some p, Some q => Some (f p q)
  | Some p, None | None, Some p => Some p
  | None, None => None
  end.

Section semantics.
Context (num : str → option Z) (bytes : str → option str).

Fixpoint holds (e : Expr) : option Prop :=
  match e with
  | Or l r => join or (holds l) (holds r)
  | And l r => join and (holds l) (holds r)
  | Group e => holds e
  | NumCmp f _ m op rhs => (λ v, num_rel op (masked m v) rhs) <$> num f
  | StrCmp f _ op pat => (λ v, str_rel op v pat) <$> bytes f
  end.

(** The context returns [num] and [bytes] on the fields of [e]. *)
Fixpoint reads {C} `{Context C} (ctx : C) (e : Expr) : Prop :=
  match e with
  | Or l r | And l r => reads ctx l ∧ reads ctx r
  | Group e => reads ctx e
  | NumCmp f _ _ _ _ => get_integer ctx f = Ok (num f)
  | StrCmp f _ _ _ => get_str_bytes ctx f = Ok (bytes f)
  end.
End semantics.

(** A tri-state value represents an optional proposition. *)
Definition tri_means (t : Tri) (p : option Prop) : Prop :=
  match t, p with
  | TTrue, Some p => p
  | TFalse, Some p => ¬ p
  | TUnknown, None => True
  | _, _ => False
  end.

Lemma tri_or_means a b p q : tri_means a p → tri_means b q → tri_means (tri_or a b) (join or p q).
Proof. destruct a, b, p, q; simpl; tauto. Qed.
Lemma tri_and_means a b p q : tri_means a p → tri_means b q → tri_means (tri_and a b) (join and p q).
Proof. destruct a, b, p, q; simpl; tauto. Qed.

Lemma num_cmp_spec op v rhs : num_cmp op v rhs = true ↔ num_rel op v rhs.
Proof. destruct op; simpl; rewrite ?negb_true_iff; bdestruct_all; split; intros; try done; lia. Qed.

Lemma str_cmp_spec {E} op v pat : decides (@str_cmp E op v pat) (str_rel op v pat).
Proof.
  destruct op; simpl.
  - exists (bool_decide (v = pat)). by rewrite bool_decide_eq_true.
  - exists (negb (bool_decide (v = pat))). by rewrite negb_true_iff, bool_decide_eq_false.
  - destruct (glob_match_decides pat v) as (b & -> & Hb). by exists b.
Qed.

Lemma tri_of_bool_means b P : (b = true ↔ P) → tri_means (tri_of_bool b) (Some P).
Proof. destruct b; simpl; intros [H1 H2]; [auto|]. intros HP. by specialize (H2 HP). Qed.

Lemma eval_expr_spec {C} `{Context C} (ctx : C) num bytes sch e :
  well_typed sch e → reads num bytes ctx e →
  ∃ t, eval_expr e sch ctx = Ok t ∧ tri_means t (holds num bytes e).
Proof.
  induction e as [l IHl r IHr|l IHl r IHr|f sp m op rhs|f sp op p|e IH]; simpl; [| | | |by auto].
  - intros [Hl Hr] [Hl' Hr']. destruct (IHl Hl Hl') as (a & -> & Ha), (IHr Hr Hr') as (b & -> & Hb). simpl.
    exists (tri_or a b). split; [|by apply tri_or_means].
    case_decide; subst; done.
  - intros [Hl Hr] [Hl' Hr']. destruct (IHl Hl Hl') as (a & -> & Ha), (IHr Hr Hr') as (b & -> & Hb). simpl.
    exists (tri_and a b). split; [|by apply tri_and_means].
    case_decide; subst; done.
  - intros (conv & off & len & Hg & _) ->. rewrite (schema_get_type_some _ _ _ _ _ Hg). simpl.
    destruct (num f) as [v|]; simpl; [|by exists TUnknown].
    eexists; split; [done|]. apply tri_of_bool_means, num_cmp_spec.
  - intros (off & len & Hg) ->. rewrite (schema_get_type_some _ _ _ _ _ Hg). simpl.
    destruct (bytes f) as [v|]; simpl; [|by exists TUnknown].
    destruct (@str_cmp_spec EvalError op v p) as (b & -> & Hb). simpl.
    eexists; split; [done|]. by apply tri_of_bool_means.
Qed.

(** Both operands always evaluated, the reference for short-circuiting. *)
Fixpoint eval_strict {C} `{Context C} (e : Expr) (sch : Schema) (ctx : C) : res EvalError Tri :=
  match e with
  | Group e => eval_strict e sch ctx
  | Or l r => lv ← eval_strict l sch ctx; rv ← eval_strict r sch ctx; Ok (tri_or lv rv)
  | And l r => lv ← eval_strict l sch ctx; rv ← eval_strict r sch ctx; Ok (tri_and lv rv)
  | NumCmp _ _ _ _ _ | StrCmp _ _ _ _ => eval_expr e sch ctx
  end.

(** ** Reading event buffers *)

Definition in_prim (p : Prim) (v : Z) : Prop :=
  if prim_signed p then - 2 ^ (8 * prim_size p - 1) ≤ v < 2 ^ (8 * prim_size p - 1)
  else 0 ≤ v < 2 ^ (8 * prim_size p).

(** Values of a Rust integer type. *)
Definition in_ty (t : ITy) (v : Z) : Prop :=
  match t with
  | TPrim p => in_prim p v
  | TBool => v = 0 ∨ v = 1
  | TChar => 0 ≤ v < 55296 ∨ 57344 ≤ v < 1114112
  | TNonZero p => in_prim p v ∧ v ≠ 0
  end.

(** The bytes of a value in memory. *)
Definition to_ne_bytes (t : ITy) (v : Z) : str := le_enc (Z.to_nat (size_of t)) v.

(** The result the evaluator should see. *)
Definition seen (t : ITy) (v : Z) : res str Z :=
  match t with
  | TNonZero p => if as_i64 v =? 0 then Err (bs "NonZero" ++ prim_name p ++ bs " cannot be zero")
                  else Ok (as_i64 v)
  | _ => Ok (as_i64 v)
  end.

Lemma prim_size_pos p : 0 < prim_size p.
Proof. by destruct p. Qed.
Lemma size_of_range t : 0 < size_of t ≤ 16.
Proof. destruct t as [p| | |p]; try destruct p; simpl; lia. Qed.

Lemma from_ne_bytes_enc p v :
  in_prim p v → from_ne_bytes p (le_enc (Z.to_nat (prim_size p)) v) = v.
Proof.
  unfold in_prim, from_ne_bytes. pose proof (prim_size_pos p). rewrite le_dec_enc, Z2Nat.id by lia.
  destruct (prim_signed p); intros Hv; [|by apply Z.mod_small].
  assert (wraps (8 * prim_size p) (v mod 2 ^ (8 * prim_size p)) = wraps (8 * prim_size p) v) as ->.
  { unfold wraps. by rewrite Zplus_mod_idemp_l. }
  apply wraps_small; lia.
Qed.

Lemma char_from_u32_valid v : in_ty TChar v → char_from_u32 v = Some v.
Proof. unfold char_from_u32. simpl. bdestruct_all; simpl; try done; lia. Qed.

Lemma as_i64_small v : is_i64 v → as_i64 v = v.
Proof. unfold is_i64, i64_min, i64_max, as_i64. intros. apply wraps_small; lia. Qed.

Lemma read_int `{BuildMode} t v pre post :
  in_ty t v → Z.of_nat (length (pre ++ to_ne_bytes t v ++ post)) < 2 ^ 64 →
  IntegerToI64_to_i64 t (pre ++ to_ne_bytes t v ++ post) (Z.of_nat (length pre)) = seen t v.
Proof.
  intros Hv Hl. unfold IntegerToI64_to_i64. pose proof (size_of_range t) as Hs.
  assert (Z.of_nat (length (to_ne_bytes t v)) = size_of t) as Hn.
  { unfold to_ne_bytes. rewrite length_le_enc. lia. }
  rewrite !length_app in *. rewrite arith_ok by lia. simpl.
  rewrite (proj2 (Z.ltb_ge _ _)) by lia.
  replace (Z.to_nat (Z.of_nat (length pre) + size_of t))
    with (length pre + length (to_ne_bytes t v))%nat by lia.
  rewrite Nat2Z.id, slice_app_mid. simpl.
  destruct t as [p| | |p]; unfold to_ne_bytes; cbn [in_ty seen size_of] in Hv |- *.
  - by rewrite from_ne_bytes_enc.
  - by destruct Hv as [-> | ->].
  - rewrite le_dec_enc. change (8 * Z.of_nat (Z.to_nat 4)) with 32. rewrite Z.mod_small by lia.
    rewrite char_from_u32_valid by done. simpl. rewrite as_i64_small; [done|].
    unfold is_i64, i64_min, i64_max; lia.
  - by rewrite from_ne_bytes_enc by tauto.
Qed.

Lemma position_nul_spec l :
  match position_nul l with
  | Some p => ∃ s r, l = s ++ 0 :: r ∧ length s = p ∧ 0 ∉ s
  | None => 0 ∉ l
  end.
Proof.
  induction l as [|b l IH]; simpl; [set_solver|].
  destruct (Z.eqb_spec b 0) as [->|Hb]; [by exists [], l; set_solver|].
  destruct (position_nul l) as [p|]; simpl; [|set_solver].
  destruct IH as (s & r & -> & <- & Hs). exists (b :: s), r. set_solver.
Qed.

Lemma read_str `{BuildMode} pre s z post :
  0 ∉ s → head z = None ∨ head z = Some 0 → Z.of_nat (length (pre ++ (s ++ z) ++ post)) < 2 ^ 64 →
  to_str_bytes (pre ++ (s ++ z) ++ post) (Z.of_nat (length pre)) (Z.of_nat (length (s ++ z))) = Ok s.
Proof.
  intros Hs Hz Hl. unfold to_str_bytes.
  rewrite (length_app pre), (length_app (s ++ z) post) in *.
  rewrite arith_ok by lia. simpl. rewrite (proj2 (Z.leb_le _ _)) by lia.
  replace (Z.to_nat (Z.of_nat (length pre) + Z.of_nat (length (s ++ z))))
    with (length pre + length (s ++ z))%nat by lia.
  rewrite Nat2Z.id, slice_app_mid. simpl.
  assert ((match position_nul (s ++ z) with
          | Some p => (p + length pre)%nat | None => (length pre + length (s ++ z))%nat end)
          = length pre + length s)%nat as ->.
  { pose proof (position_nul_spec (s ++ z)) as Hp. destruct (position_nul (s ++ z)) as [p|].
    - destruct Hp as (s' & r & He & <- & Hs').
      assert (length s' = length s) as ->; [|lia].
      apply app_eq_inv in He as [(k & -> & Hk)|(k & -> & ->)]; destruct k as [|b k];
        try by rewrite app_nil_r.
      + exfalso. simplify_eq/=. set_solver.
      + exfalso. simpl in Hz. destruct Hz as [Hz|Hz]; simplify_eq. set_solver.
    - destruct z as [|b z]; [by rewrite app_nil_r|]. destruct Hz as [Hz|Hz]; simplify_eq/=. set_solver. }
  rewrite <- (app_assoc s), slice_app_mid. done.
Qed.

(** Schemas whose offsets fit the address space and whose converters are the
    ones [FieldClassifier] supplies. *)
Definition field_ok `{BuildMode} (f : Field) : Prop :=
  0 ≤ fd_offset f ∧ 0 ≤ fd_len f ∧ fd_offset f + fd_len f + 16 < 2 ^ 64 ∧
  match fd_type f with Integer conv => ∃ t, conv = IntegerToI64 t | _ => True end.

Lemma builtin_total `{BuildMode} t bytes off (R : str → Prop) :
  0 ≤ off → off + 16 < 2 ^ 64 → (∀ m, R m) →
  safe (IntegerToI64_to_i64 t bytes off) (λ _, True) R.
Proof.
  intros H0 H1 HR. unfold IntegerToI64_to_i64. pose proof (size_of_range t) as Hs.
  rewrite arith_ok by lia. simpl. destruct (Z.ltb_spec (Z.of_nat (length bytes)) (off + size_of t)); [by apply HR|].
  rewrite slice_some by lia. simpl.
  set (sl := take _ _). assert (length sl = Z.to_nat (size_of t)) as Hl.
  { subst sl. rewrite length_take, length_drop. lia. }
  destruct t as [p| | |p]; simpl; auto.
  - by destruct sl as [|b sl].
  - destruct (char_from_u32 (le_dec sl)); simpl; auto.
  - case_match; simpl; auto.
Qed.

Lemma to_str_bytes_total `{BuildMode} bytes off len (R : str → Prop) :
  0 ≤ off → 0 ≤ len → off + len < 2 ^ 64 → (∀ m, R m) →
  safe (to_str_bytes bytes off len) (λ _, True) R.
Proof.
  intros H0 H1 H2 HR. unfold to_str_bytes. rewrite arith_ok by lia. simpl.
  destruct (Z.leb_spec (off + len) (Z.of_nat (length bytes))); [|by apply HR].
  rewrite slice_some by lia. simpl. set (sl := take _ _).
  assert (length sl = Z.to_nat len) as Hl.
  { subst sl. rewrite length_take, length_drop. lia. }
  pose proof (position_nul_spec sl) as Hp. destruct (position_nul sl) as [p|]; simpl.
  - destruct Hp as (s & r & He & Hp & _). apply (f_equal length) in He.
    rewrite length_app in He. simpl in He. rewrite slice_some by lia. done.
  - rewrite slice_some by lia. done.
Qed.

Lemma schema_get_in sch f t off len :
  schema_get sch f = Some (t, off, len) →
  ∃ fd, fd ∈ sch ∧ fd_type fd = t ∧ fd_offset fd = off ∧ fd_len fd = len.
Proof.
  induction sch as [|fd sch IH]; simpl; [done|].
  case_decide; [|set_solver]. intros [= <- <- <-]. exists fd. set_solver.
Qed.

Lemma buf_context_safe `{BuildMode} sch bytes :
  Forall field_ok sch → context_safe {| buf := bytes; bc_schema := sch |}.
Proof.
  intros Hok. rewrite Forall_forall in Hok. split; intros f; simpl.
  - unfold BufContext_get_integer; simpl.
    destruct (schema_get sch f) as [[[[conv| |] off] len]|] eqn:Hg; try done.
    apply schema_get_in in Hg as (fd & Hin & Ht & Ho & Hlen).
    destruct (Hok _ Hin) as (H0 & H1 & H2 & Hc). rewrite Ht in Hc. destruct Hc as (t & ->). simpl.
    case_match; [|done].
    pose proof (builtin_total t bytes off (λ _, True) ltac:(lia) ltac:(lia) ltac:(done)) as Hb.
    by destruct (IntegerToI64_to_i64 t bytes off).
  - unfold BufContext_get_str_bytes; simpl.
    destruct (schema_get sch f) as [[[[conv| |] off] len]|] eqn:Hg; try done.
    apply schema_get_in in Hg as (fd & Hin & Ht & Ho & Hlen).
    destruct (Hok _ Hin) as (H0 & H1 & H2 & _).
    pose proof (to_str_bytes_total bytes off len (λ _, True) ltac:(lia) ltac:(lia) ltac:(lia) ltac:(done)) as Hb.
    by destruct (to_str_bytes bytes off len).
Qed.

Lemma map_context_safe (ctx : MapContext) : context_safe ctx.
Proof.
  split; intros f; simpl; [|done]. destruct (ctx !! f) as [v|]; [|done].
  pose proof (parse_i64_total v). by destruct (parse_i64_literal_text v).
Qed.

(** A comparison with a builtin field, on the bytes of a value. *)
Lemma num_field_buffer `{BuildMode} sch name t v pre post sp op rhs :
  schema_get sch name = Some (Integer (IntegerToI64 t), Z.of_nat (length pre), size_of t) →
  in_ty t v → Z.of_nat (length (pre ++ to_ne_bytes t v ++ post)) < 2 ^ 64 →
  eval_expr (NumCmp name sp None op rhs) sch
    {| buf := pre ++ to_ne_bytes t v ++ post; bc_schema := sch |} =
  map_err (λ m, eval_error name (ELit m)) ((λ w, tri_of_bool (num_cmp op w rhs)) <$> seen t v).
Proof.
  intros Hg Hv Hl. simpl. rewrite (schema_get_type_some _ _ _ _ _ Hg).
  unfold BufContext_get_integer; simpl. rewrite Hg. simpl. rewrite Z.eqb_refl, read_int by done.
  by destruct (seen t v).
Qed.

(** ** Properties *)

(** C1: the meaning of a filter: a compiled filter evaluates, on every
    context that answers for its fields, to the truth of the formula in
    which the comparisons on missing fields are dropped ([||] is
    disjunction, [&&] conjunction, comparisons are those of the integers
    and [~] is glob matching), and to true when no comparison is left. *)
Theorem filter_semantics {C} `{Context C} (ctx : C) s sch c num bytes :
  compile_with_schema s sch = Ok c →
  reads num bytes ctx (cp_expr c) →
  decides (evaluate c ctx) (default True (holds num bytes (cp_expr c))).
Proof.
  intros Hc Hr. destruct (compile_ok _ _ _ Hc) as (Hs & Hwt & _).
  rewrite <- Hs in Hwt.
  destruct (eval_expr_spec ctx num bytes _ _ Hwt Hr) as (t & He & Hm).
  unfold evaluate, try_evaluate. rewrite He. simpl.
  destruct t, (holds num bytes (cp_expr c)) as [p|]; simpl in *; try done.
  - by apply decides_true.
  - by apply decides_false.
  - by apply decides_true.
Qed.

Definition demo_schema `{BuildMode} : Schema :=
  [ {| fd_name := bs "sig"; fd_type := FIELD_TYPE (RInt (TPrim U32)); fd_offset := 0; fd_len := 4 |};
    {| fd_name := bs "comm"; fd_type := FIELD_TYPE (RArray (RInt (TPrim U8)) 16); fd_offset := 4; fd_len := 16 |} ].
Definition demo_map : MapContext := {[ bs "sig" := bs "12" ]}.

Definition demo_expr : Expr :=
  And (NumCmp (bs "sig") {| sp_start := 0; sp_end := 3 |} None NGe 10)
      (StrCmp (bs "comm") {| sp_start := 13; sp_end := 17 |} SGlob (bs "ba*")).

Lemma filter_semantics_witness :
  let _ : BuildMode := true in
  let c := {| cp_expr := demo_expr; cp_schema := demo_schema |} in
  compile_with_schema (bs "sig >= 10 && comm ~ ba*") demo_schema = Ok c ∧
  decides (evaluate c demo_map) (default True (holds (λ _, Some 12) (λ _, None) demo_expr)).
Proof.
  intros m c.
  assert (compile_with_schema (bs "sig >= 10 && comm ~ ba*") demo_schema = Ok c) as Hc.
  { unfold compile_with_schema.
    assert (parse_str (bs "sig >= 10 && comm ~ ba*") = Ok demo_expr) as -> by (vm_compute; reflexivity).
    reflexivity. }
  split; [exact Hc|]. apply (filter_semantics demo_map _ _ c _ _ Hc).
  split; vm_compute; reflexivity.
Defined.

(** C36: no filter can bring the kernel down: compiling a UTF-8 filter
    returns a well-typed expression or an error, and evaluating the result
    on any context that itself does not panic returns a truth value or the
    error of one of the filter's own fields; the [unreachable!()] arms of
    the evaluator are never reached. *)
Theorem filter_never_panics {C} `{Context C} (ctx : C) s sch :
  utf8 s → context_safe ctx →
  safe (compile_with_schema s sch)
    (λ c, well_typed sch (cp_expr c) ∧
          safe (try_evaluate c ctx) (λ _, True) (λ e, ee_field e ∈ fields_of (cp_expr c)))
    (λ _, True).
Proof.
  intros Hu Hctx. pose proof (parse_str_ok s Hu) as Hp.
  destruct (compile_with_schema s sch) as [c|e| |] eqn:Hc; try done.
  - destruct (compile_ok _ _ _ Hc) as (Hs & Hwt & _). split; [done|].
    rewrite <- Hs in Hwt. unfold try_evaluate.
    eapply safe_bind; [by apply (eval_expr_total ctx)|]. by intros [].
  - unfold compile_with_schema in Hc. destruct (parse_str s) as [e| | |]; simpl in *; try done.
    pose proof (validate_spec sch e). by destruct (validate e sch).
  - unfold compile_with_schema in Hc. destruct (parse_str s) as [e| | |]; simpl in *; try done.
    pose proof (validate_spec sch e). by destruct (validate e sch).
Qed.

Lemma filter_never_panics_witness :
  let _ : BuildMode := true in
  let sch := demo_schema in
  let ctx := {| buf := []; bc_schema := sch |} in
  utf8 (bs "sig > 1") ∧ context_safe ctx ∧
  safe (compile_with_schema (bs "sig > 1") sch)
    (λ c, well_typed sch (cp_expr c) ∧
          safe (try_evaluate c ctx) (λ _, True) (λ e, ee_field e ∈ fields_of (cp_expr c)))
    (λ _, True).
Proof.
  intros m sch ctx.
  assert (utf8 (bs "sig > 1")) as Hu by (apply (utf8b_sound 8); [vm_compute; lia | vm_compute; reflexivity]).
  assert (context_safe ctx) as Hc.
  { apply buf_context_safe. repeat constructor; simpl; try lia. by eexists. }
  split; [exact Hu|]. split; [exact Hc|]. exact (filter_never_panics ctx (bs "sig > 1") sch Hu Hc).
Defined.

(** C40: comparing a field of an event buffer: for every supported integer
    type, [field op rhs] evaluated on a buffer that holds the native bytes of
    [v] at the field's offset compares [v] itself when it is an [i64], and
    its 64-bit truncation otherwise; only a NonZero field whose low 64 bits
    are all zero is an error. *)
Theorem int_field_semantics `{BuildMode} sch name t v pre post sp op rhs :
  schema_get sch name = Some (Integer (IntegerToI64 t), Z.of_nat (length pre), size_of t) →
  in_ty t v → Z.of_nat (length (pre ++ to_ne_bytes t v ++ post)) < 2 ^ 64 →
  eval_expr (NumCmp name sp None op rhs) sch
    {| buf := pre ++ to_ne_bytes t v ++ post; bc_schema := sch |} =
  match seen t v with
  | Ok w => Ok (tri_of_bool (num_cmp op w rhs))
  | Err m => Err (eval_error name (ELit m))
  | Panic => Panic
  | OutOfFuel => OutOfFuel
  end ∧
  (is_i64 v → seen t v = Ok v).
Proof.
  intros Hg Hv Hl. split.
  - rewrite num_field_buffer by done. by destruct (seen t v).
  - intros Hi. destruct t as [p| | |p]; simpl; rewrite as_i64_small by done; try done.
    destruct Hv as [_ Hv]. by rewrite (proj2 (Z.eqb_neq _ _) Hv).
Qed.

Lemma int_field_semantics_witness :
  let _ : BuildMode := true in
  eval_expr (NumCmp (bs "sig") {| sp_start := 0; sp_end := 3 |} None NGt 7) demo_schema
    {| buf := [] ++ to_ne_bytes (TPrim U32) 300 ++ []; bc_schema := demo_schema |} = Ok TTrue.
Proof.
  intros m.
  refine (proj1 (int_field_semantics demo_schema (bs "sig") (TPrim U32) 300 [] []
    {| sp_start := 0; sp_end := 3 |} NGt 7 _ _ _)).
  - reflexivity.
  - vm_compute; split; congruence.
  - vm_compute; reflexivity.
Defined.

(** Comparing a byte-array field: [==], [!=] and [~] see exactly the
    bytes of the array up to its first NUL. *)
Theorem bytes_field_semantics `{BuildMode} sch name s z pre post sp op pat :
  schema_get sch name = Some (Bytes, Z.of_nat (length pre), Z.of_nat (length (s ++ z))) →
  0 ∉ s → head z = None ∨ head z = Some 0 →
  Z.of_nat (length (pre ++ (s ++ z) ++ post)) < 2 ^ 64 →
  ∃ b, eval_expr (StrCmp name sp op pat) sch
         {| buf := pre ++ (s ++ z) ++ post; bc_schema := sch |} = Ok (tri_of_bool b) ∧
       (b = true ↔ str_rel op s pat).
Proof.
  intros Hg Hs Hz Hl. simpl. rewrite (schema_get_type_some _ _ _ _ _ Hg).
  unfold BufContext_get_str_bytes; simpl. rewrite Hg, read_str by done. simpl.
  destruct (@str_cmp_spec EvalError op s pat) as (b & -> & Hb). by exists b.
Qed.

Lemma bytes_field_semantics_witness :
  let _ : BuildMode := true in
  ∃ b, eval_expr (StrCmp (bs "comm") {| sp_start := 0; sp_end := 3 |} SGlob (bs "ba*")) demo_schema
         {| buf := repeat 7 4 ++ (bs "bash" ++ repeat 0 12) ++ []; bc_schema := demo_schema |} =
         Ok (tri_of_bool b) ∧
       (b = true ↔ globs (bs "ba*") (bs "bash")).
Proof.
  intros m. refine (bytes_field_semantics demo_schema (bs "comm") (bs "bash") (repeat 0 12)
    (repeat 7 4) [] {| sp_start := 0; sp_end := 3 |} SGlob (bs "ba*") _ _ _ _).
  - reflexivity.
  - vm_compute. intros Hin. repeat (apply elem_of_cons in Hin as [Hin|Hin]; [discriminate Hin|]).
    by apply elem_of_nil in Hin.
  - right. reflexivity.
  - vm_compute; reflexivity.
Defined.

(** Short-circuit evaluation is an optimisation only: when evaluating
    both operands of every [&&] and [||] succeeds, skipping the right operand
    gives the same truth value; so a filter that reports an error would also
    fail if everything were evaluated. *)
Theorem short_circuit_equiv {C} `{Context C} (ctx : C) sch e t :
  eval_strict e sch ctx = Ok t → eval_expr e sch ctx = Ok t.
Proof.
  revert t. induction e as [l IHl r IHr|l IHl r IHr|f sp m op rhs|f sp op p|e IH]; intros t;
    [| |done|done|exact (IH t)]; simpl.
  all: intros (a & Ha & (b & Hb & [= <-])%bind_ok)%bind_ok;
    rewrite (IHl _ Ha); simpl; case_decide; subst; [by destruct b|by rewrite (IHr _ Hb)].
Qed.

Lemma short_circuit_equiv_witness :
  let e := Or (NumCmp (bs "sig") {| sp_start := 0; sp_end := 3 |} None NEq 12)
              (NumCmp (bs "pid") {| sp_start := 7; sp_end := 10 |} None NEq 1) in
  let sch := [ {| fd_name := bs "sig"; fd_type := Integer {| to_i64 _ _ := Ok 0; byte_len := None |};
                  fd_offset := 0; fd_len := 4 |};
               {| fd_name := bs "pid"; fd_type := Bytes; fd_offset := 4; fd_len := 4 |} ] in
  eval_expr e sch demo_map = Ok TTrue.
Proof. intros e sch. apply (short_circuit_equiv demo_map sch e TTrue). vm_compute; reflexivity. Defined.

(** A NonZero value above 64 bits can be rejected as zero. *)
Lemma nonzero_u128_rejected :
  let _ : BuildMode := true in
  in_ty (TNonZero U128) (2 ^ 64) ∧
  IntegerToI64_to_i64 (TNonZero U128) (to_ne_bytes (TNonZero U128) (2 ^ 64)) 0 =
    Err (bs "NonZeroU128 cannot be zero").
Proof. split; [vm_compute; repeat split; congruence | vm_compute; reflexivity]. Qed.
