(* ===== verification/BpfBase.v ===== *)
(** Shared vocabulary of the bpf-basic crate: error codes, flag sets
    ([bitflags!] types of map/flags.rs, map/mod.rs and helper/ringbuf.rs),
    map types and map metadata. *)
From S2P Require Import Prelude Text.

(** The error codes of [ax_errno::LinuxError] that the crate produces. *)
Inductive BpfError := EPERM | ENOENT | EAGAIN | ENOMEM | EEXIST | EINVAL.
#[export] Instance BpfError_eq_dec : EqDecision BpfError.
Proof. solve_decision. Defined.

Abbreviation BpfResult := (res BpfError).

(** ** Flag sets *)

(** [T::from_bits]: unknown bits are refused. *)
Definition from_bits (all bits : Z) : option Z :=
  if Z.land bits (Z.lnot all) =? 0 then Some bits else None.
(** [flags.contains(m)]. *)
Definition contains (flags m : Z) : bool := Z.land flags m =? m.

(** [BpfMapUpdateElemFlags]. *)
Definition BPF_NOEXIST : Z := 1.
Definition BPF_EXISTS : Z := 2.
Definition BPF_F_LOCK : Z := 4.
Definition UPDATE_ALL : Z := 7.

(** [BpfRingbufFlags]. *)
Definition NO_WAKEUP : Z := 1.
Definition FORCE_WAKEUP : Z := 2.
Definition RINGBUF_FLAGS_ALL : Z := 3.

(** [BpfMapCreateFlags]: bits 0 to 14. *)
Definition NUMA_NODE : Z := 4.
Definition CREATE_ALL : Z := 32767.

Lemma from_bits_spec all bits f :
  from_bits all bits = Some f ↔ f = bits ∧ Z.land bits (Z.lnot all) = 0.
Proof.
  unfold from_bits. destruct (Z.eqb_spec (Z.land bits (Z.lnot all)) 0); split; intros H;
    simplify_eq; try done; by destruct H as [-> ?].
Qed.

(** Accepted update flags are the eight combinations of three bits. *)
Lemma from_bits_range n bits f :
  0 ≤ n → 0 ≤ bits → from_bits (2 ^ n - 1) bits = Some f → f = bits ∧ bits < 2 ^ n.
Proof.
  intros Hn Hb [-> H]%from_bits_spec. split; [done|].
  assert (Z.land bits (Z.ones n) = bits) as <-.
  { apply Z.bits_inj'. intros i Hi. rewrite Z.land_spec.
    apply (f_equal (λ z, Z.testbit z i)) in H. rewrite Z.bits_0, Z.land_spec, Z.lnot_spec in H by done.
    replace (2 ^ n - 1) with (Z.ones n) in H by (rewrite Z.ones_equiv; lia).
    destruct (Z.testbit bits i), (Z.testbit (Z.ones n) i); done. }
  rewrite Z.land_ones by done. apply Z.mod_pos_bound, Z.pow_pos_nonneg; lia.
Qed.

(** ** Map types and metadata *)
Inductive BpfMapType :=
  | BPF_MAP_TYPE_UNSPEC | BPF_MAP_TYPE_HASH | BPF_MAP_TYPE_ARRAY | BPF_MAP_TYPE_PROG_ARRAY
  | BPF_MAP_TYPE_PERF_EVENT_ARRAY | BPF_MAP_TYPE_PERCPU_HASH | BPF_MAP_TYPE_PERCPU_ARRAY
  | BPF_MAP_TYPE_STACK_TRACE | BPF_MAP_TYPE_CGROUP_ARRAY | BPF_MAP_TYPE_LRU_HASH
  | BPF_MAP_TYPE_LRU_PERCPU_HASH | BPF_MAP_TYPE_LPM_TRIE | BPF_MAP_TYPE_ARRAY_OF_MAPS
  | BPF_MAP_TYPE_HASH_OF_MAPS | BPF_MAP_TYPE_DEVMAP | BPF_MAP_TYPE_SOCKMAP | BPF_MAP_TYPE_CPUMAP
  | BPF_MAP_TYPE_XSKMAP | BPF_MAP_TYPE_SOCKHASH | BPF_MAP_TYPE_CGROUP_STORAGE_DEPRECATED
  | BPF_MAP_TYPE_REUSEPORT_SOCKARRAY | BPF_MAP_TYPE_PERCPU_CGROUP_STORAGE_DEPRECATED
  | BPF_MAP_TYPE_QUEUE | BPF_MAP_TYPE_STACK | BPF_MAP_TYPE_SK_STORAGE | BPF_MAP_TYPE_DEVMAP_HASH
  | BPF_MAP_TYPE_STRUCT_OPS | BPF_MAP_TYPE_RINGBUF | BPF_MAP_TYPE_INODE_STORAGE
  | BPF_MAP_TYPE_TASK_STORAGE | BPF_MAP_TYPE_BLOOM_FILTER | BPF_MAP_TYPE_USER_RINGBUF
  | BPF_MAP_TYPE_CGRP_STORAGE | BPF_MAP_TYPE_ARENA | MAX_BPF_MAP_TYPE.
#[export] Instance BpfMapType_eq_dec : EqDecision BpfMapType.
Proof. solve_decision. Defined.

(** The variants in discriminant order. *)
Definition map_types : list BpfMapType :=
  [ BPF_MAP_TYPE_UNSPEC; BPF_MAP_TYPE_HASH; BPF_MAP_TYPE_ARRAY; BPF_MAP_TYPE_PROG_ARRAY;
    BPF_MAP_TYPE_PERF_EVENT_ARRAY; BPF_MAP_TYPE_PERCPU_HASH; BPF_MAP_TYPE_PERCPU_ARRAY;
    BPF_MAP_TYPE_STACK_TRACE; BPF_MAP_TYPE_CGROUP_ARRAY; BPF_MAP_TYPE_LRU_HASH;
    BPF_MAP_TYPE_LRU_PERCPU_HASH; BPF_MAP_TYPE_LPM_TRIE; BPF_MAP_TYPE_ARRAY_OF_MAPS;
    BPF_MAP_TYPE_HASH_OF_MAPS; BPF_MAP_TYPE_DEVMAP; BPF_MAP_TYPE_SOCKMAP; BPF_MAP_TYPE_CPUMAP;
    BPF_MAP_TYPE_XSKMAP; BPF_MAP_TYPE_SOCKHASH; BPF_MAP_TYPE_CGROUP_STORAGE_DEPRECATED;
    BPF_MAP_TYPE_REUSEPORT_SOCKARRAY; BPF_MAP_TYPE_PERCPU_CGROUP_STORAGE_DEPRECATED;
    BPF_MAP_TYPE_QUEUE; BPF_MAP_TYPE_STACK; BPF_MAP_TYPE_SK_STORAGE; BPF_MAP_TYPE_DEVMAP_HASH;
    BPF_MAP_TYPE_STRUCT_OPS; BPF_MAP_TYPE_RINGBUF; BPF_MAP_TYPE_INODE_STORAGE;
    BPF_MAP_TYPE_TASK_STORAGE; BPF_MAP_TYPE_BLOOM_FILTER; BPF_MAP_TYPE_USER_RINGBUF;
    BPF_MAP_TYPE_CGRP_STORAGE; BPF_MAP_TYPE_ARENA; MAX_BPF_MAP_TYPE ].

(** [BpfMapType::try_from(u32)]. *)
Definition map_type_of (z : Z) : option BpfMapType := map_types !! Z.to_nat z.

Record BpfMapMeta := {
  map_type : BpfMapType;
  key_size : Z;
  value_size : Z;
  max_entries : Z;
  map_flags : Z;
  map_name : str;
}.

(** The fields of [bpf_attr] that map creation reads. *)
Record map_attr := {
  at_map_type : Z;
  at_key_size : Z;
  at_value_size : Z;
  at_max_entries : Z;
  at_map_flags : Z;
  at_map_name : str;
}.

(** [CStr::from_bytes_until_nul(bytes)]: the bytes before the first NUL. *)
Fixpoint cstr_until_nul (l : str) : option str :=
  match l with
  | [] => None
  | b :: l => if b =? 0 then Some [] else (b ::.) <$> cstr_until_nul l
  end.

(** [impl TryFrom<&bpf_attr> for BpfMapMeta]; [CStr::to_str] succeeds on
    valid UTF-8 only. *)
Definition meta_try_from (a : map_attr) : BpfResult BpfMapMeta :=
  name ← ok_or (cstr_until_nul (at_map_name a)) EINVAL;
  if negb (utf8_valid name) then Err EINVAL else
  ty ← ok_or (map_type_of (at_map_type a)) EINVAL;
  fl ← ok_or (from_bits CREATE_ALL (at_map_flags a)) EINVAL;
  Ok {| map_type := ty; key_size := at_key_size a; value_size := at_value_size a;
        max_entries := at_max_entries a; map_flags := fl; map_name := name |}.

(** A zeroed value buffer, [vec![0u8; n]]. *)
Definition zeros (n : Z) : str := repeat 0 (Z.to_nat n).

Lemma length_zeros n : 0 ≤ n → Z.of_nat (length (zeros n)) = n.
Proof. intros. unfold zeros. rewrite repeat_length. lia. Qed.
