(* ===== verification/Bindgen.v ===== *)
(** The bit fields of the kernel's structures, as bindgen lays them out in
    linux_bpf.rs: the bit-field unit, the accessors it carries, and the four
    layouts; every field is its own register. *)
From S2P Require Import Prelude.

(** ** The unit *)
Section unit.
Context `{BuildMode} (big_endian : bool).

(** [cfg!(debug_assertions)] goes with the overflow checks. *)
Definition debug_assert (b : bool) : res () () := if overflow_checks && negb b then Panic else Ok ().
(** [1 << i] at 64 bits. *)
Definition shl1 (i : Z) : res () Z := if i <? 64 then Ok (2 ^ i) else if overflow_checks then Panic else Ok (2 ^ (i mod 64)).

(** [__BindgenBitfieldUnit { storage }]. *)
Definition bit_index (index : Z) : Z := if big_endian then 7 - index mod 8 else index mod 8.
Definition get_bit (storage : str) (index : Z) : res () bool :=
  debug_assert (index / 8 <? Z.of_nat (length storage));;
  byte ← unwrap (storage !! Z.to_nat (index / 8));
  let mask := 2 ^ bit_index index in
  Ok (Z.land byte mask =? mask).
Definition set_bit (storage : str) (index : Z) (val : bool) : res () str :=
  debug_assert (index / 8 <? Z.of_nat (length storage));;
  byte ← unwrap (storage !! Z.to_nat (index / 8));
  let mask := 2 ^ bit_index index in
  Ok (<[Z.to_nat (index / 8) := if val then Z.lor byte mask else Z.land byte (wrapu 8 (Z.lnot mask))]> storage).

Definition flip (bit_width i : Z) : Z := if big_endian then bit_width - 1 - i else i.
Definition range_asserts (storage : str) (bit_offset bit_width : Z) : res () () :=
  debug_assert (bit_width <=? 64);;
  debug_assert (bit_offset / 8 <? Z.of_nat (length storage));;
  e ← arith 64 (bit_offset + bit_width);
  debug_assert (e / 8 <=? Z.of_nat (length storage)).

(** The loops [for i in 0..bit_width], [n] rounds from [i] on. *)
Fixpoint get_loop (storage : str) (bit_offset bit_width : Z) (n : nat) (i val : Z) : res () Z :=
  match n with
  | O => Ok val
  | S n =>
      j ← arith 64 (i + bit_offset);
      b ← get_bit storage j;
      val ← (if (b : bool) then m ← shl1 (flip bit_width i); Ok (Z.lor val m) else Ok val);
      get_loop storage bit_offset bit_width n (i + 1) val
  end.
Definition get (storage : str) (bit_offset bit_width : Z) : res () Z :=
  (if overflow_checks then range_asserts storage bit_offset bit_width else Ok ());;
  get_loop storage bit_offset bit_width (Z.to_nat bit_width) 0 0.

Fixpoint set_loop (bit_offset bit_width val : Z) (n : nat) (i : Z) (storage : str) : res () str :=
  match n with
  | O => Ok storage
  | S n =>
      mask ← shl1 i;
      let val_bit_is_set := Z.land val mask =? mask in
      j ← arith 64 (flip bit_width i + bit_offset);
      storage ← set_bit storage j val_bit_is_set;
      set_loop bit_offset bit_width val n (i + 1) storage
  end.
Definition set (storage : str) (bit_offset bit_width val : Z) : res () str :=
  (if overflow_checks then range_asserts storage bit_offset bit_width else Ok ());;
  set_loop bit_offset bit_width val (Z.to_nat bit_width) 0 storage.
End unit.

(** ** The accessors

    What bindgen generates for a structure of bit fields [F]: for each field
    a getter, a setter, and a constructor of the unit from all fields. *)
Class BitFields (F : Type) := {
  fields : list F;          (* in the order of the declaration *)
  offset_of : F → Z;
  width_of : F → Z;
  field_bits : Z;           (* the integer type of the fields *)
  unit_size : nat;          (* the bytes of the unit *)
}.
Section accessors.
Context `{BuildMode} (big_endian : bool) {F} `{BitFields F}.
Definition get_field (s : str) (f : F) : res () Z :=
  v ← get big_endian s (offset_of f) (width_of f); Ok (wrapu field_bits v).
Definition set_field (s : str) (f : F) (val : Z) : res () str := set big_endian s (offset_of f) (width_of f) val.
Fixpoint set_fields (s : str) (l : list F) (vals : F → Z) : res () str :=
  match l with
  | [] => Ok s
  | f :: l => s ← set_field s f (vals f); set_fields s l vals
  end.
Definition new_bitfield_1 (vals : F → Z) : res () str := set_fields (replicate unit_size 0) fields vals.
End accessors.

(** ** The bits of a unit *)
Section bits.
Context `{BuildMode} (big : bool).

Definition bit_of (s : str) (j : Z) : bool :=
  default false ((λ b, Z.testbit b (bit_index big j)) <$> s !! Z.to_nat (j / 8)).
Definition in_unit (s : str) (j : Z) : Prop := 0 ≤ j < 8 * Z.of_nat (length s).

Lemma land_pow2 x i : 0 ≤ i → (Z.land x (2 ^ i) =? 2 ^ i) = Z.testbit x i.
Proof.
  intros Hi. destruct (Z.testbit x i) eqn:Hb.
  - apply Z.eqb_eq, Z.bits_inj'. intros j Hj. rewrite Z.land_spec, Z.pow2_bits_eqb by done.
    destruct (Z.eqb_spec i j) as [->|]; [by rewrite Hb|by rewrite andb_false_r].
  - apply Z.eqb_neq. intros He. apply (f_equal (λ z, Z.testbit z i)) in He.
    rewrite Z.land_spec, Hb, Z.pow2_bits_true in He by done. done.
Qed.

Lemma bit_index_range j : 0 ≤ bit_index big j < 8.
Proof. unfold bit_index. pose proof (Z.mod_pos_bound j 8). destruct big; lia. Qed.
Lemma bit_index_inj j k : j / 8 = k / 8 → bit_index big j = bit_index big k → j = k.
Proof.
  unfold bit_index. pose proof (Z.div_mod j 8). pose proof (Z.div_mod k 8). destruct big; lia.
Qed.

Lemma in_unit_byte s j : in_unit s j → ∃ b, s !! Z.to_nat (j / 8) = Some b ∧ (j / 8 <? Z.of_nat (length s)) = true.
Proof.
  intros [Hj Hlt]. assert (0 ≤ j / 8 < Z.of_nat (length s)) as Hd.
  { split; [by apply Z.div_pos|]. apply Z.div_lt_upper_bound; lia. }
  destruct (lookup_lt_is_Some_2 s (Z.to_nat (j / 8))) as [b Hb]; [lia|]. exists b. split; [done|lia].
Qed.

Lemma get_bit_ok s j : in_unit s j → get_bit big s j = Ok (bit_of s j).
Proof.
  intros Hj. destruct (in_unit_byte s j Hj) as (b & Hb & Hlt). unfold get_bit, bit_of, debug_assert.
  rewrite Hlt, andb_false_r, Hb. simpl. rewrite land_pow2; [done|]. pose proof (bit_index_range j). lia.
Qed.

(** A mask sets or clears one bit of a byte. *)
Lemma masked_bit b i v k :
  0 ≤ i < 8 → 0 ≤ k < 8 →
  Z.testbit (if v : bool then Z.lor b (2 ^ i) else Z.land b (wrapu 8 (Z.lnot (2 ^ i)))) k = if k =? i then v else Z.testbit b k.
Proof.
  intros Hi Hk. destruct v.
  - rewrite Z.lor_spec, Z.pow2_bits_eqb by lia. rewrite (Z.eqb_sym k i).
    destruct (i =? k); [apply orb_true_r|apply orb_false_r].
  - unfold wrapu. rewrite Z.land_spec, Z.mod_pow2_bits_low, Z.lnot_spec, Z.pow2_bits_eqb by lia. rewrite (Z.eqb_sym k i).
    destruct (i =? k); [apply andb_false_r|apply andb_true_r].
Qed.

Lemma set_bit_ok s j v :
  in_unit s j →
  ∃ s', set_bit big s j v = Ok s' ∧ length s' = length s ∧ ∀ k, 0 ≤ k → bit_of s' k = if k =? j then v else bit_of s k.
Proof.
  intros Hj. destruct (in_unit_byte s j Hj) as (b & Hb & Hlt). unfold set_bit, debug_assert.
  rewrite Hlt, andb_false_r, Hb. simpl. eexists. split; [done|]. split; [apply length_insert|]. intros k Hk.
  pose proof (bit_index_range j) as Hij. pose proof (bit_index_range k) as Hik. unfold bit_of.
  assert (0 ≤ j / 8 ∧ 0 ≤ k / 8) as [Hj8 Hk8] by (split; apply Z.div_pos; unfold in_unit in Hj; lia).
  destruct (decide (j / 8 = k / 8)) as [He|Hne].
  - rewrite <- He, list_lookup_insert_eq by (by eapply lookup_lt_Some). rewrite Hb. simpl. rewrite masked_bit by done.
    destruct (Z.eqb_spec k j) as [->|Hkj]; [by rewrite Z.eqb_refl|].
    rewrite (proj2 (Z.eqb_neq _ _)); [done|]. intros Hi. by apply Hkj, bit_index_inj.
  - rewrite list_lookup_insert_ne by lia. rewrite (proj2 (Z.eqb_neq k j)); [done|]. by intros ->.
Qed.

Lemma flip_range w i : 0 ≤ i < w → 0 ≤ flip big w i < w.
Proof. unfold flip. destruct big; lia. Qed.
Lemma flip_flip w i : flip big w (flip big w i) = i.
Proof. unfold flip. destruct big; lia. Qed.
Lemma shl1_ok i : 0 ≤ i < 64 → shl1 i = Ok (2 ^ i).
Proof. intros Hi. unfold shl1. by rewrite (proj2 (Z.ltb_lt i 64)) by lia. Qed.

(** ** The loops *)
Context (s0 : str) (off w : Z) (Hoff : 0 ≤ off) (Hw : 0 ≤ w ≤ 64).
Context (Hfit : off + w ≤ 8 * Z.of_nat (length s0)) (Hlen : 8 * Z.of_nat (length s0) < 2 ^ 64).

Lemma range_asserts_ok : 0 < w → range_asserts s0 off w = Ok ().
Proof using Hoff Hw Hfit Hlen.
  intros H0. unfold range_asserts, debug_assert. rewrite (proj2 (Z.leb_le w 64)), andb_false_r by lia. cbn [mbind res_bind].
  rewrite (proj2 (Z.ltb_lt _ _)), andb_false_r by (apply Z.div_lt_upper_bound; lia). cbn [mbind res_bind].
  rewrite arith_ok by lia. cbn [mbind res_bind].
  rewrite (proj2 (Z.leb_le _ _)), andb_false_r; [done|]. apply Z.div_le_upper_bound; lia.
Qed.

Lemma get_loop_ok n i val :
  0 ≤ i → i + Z.of_nat n = w → 0 ≤ val →
  ∃ v, get_loop big s0 off w n i val = Ok v ∧ 0 ≤ v ∧
    ∀ k, 0 ≤ k → Z.testbit v k = Z.testbit val k || (bool_decide (i ≤ flip big w k < w) && bit_of s0 (flip big w k + off)).
Proof using Hoff Hw Hfit Hlen.
  revert i val. induction n as [|n IH]; intros i val Hi Hn Hval; cbn [get_loop].
  - exists val. split_and!; [done..|]. intros k Hk. rewrite bool_decide_false by lia. by rewrite orb_false_r.
  - rewrite arith_ok by lia. cbn [mbind res_bind]. rewrite get_bit_ok by (unfold in_unit; lia). cbn [mbind res_bind].
    pose proof (flip_range w i ltac:(lia)) as Hf.
    assert (∃ val', (if bit_of s0 (i + off) then m ← shl1 (flip big w i); Ok (Z.lor val m) else Ok val) = Ok val' ∧ 0 ≤ val' ∧
      ∀ k, 0 ≤ k → Z.testbit val' k = Z.testbit val k || (bool_decide (flip big w k = i) && bit_of s0 (i + off))) as (val' & -> & Hval' & Hbits).
    { destruct (bit_of s0 (i + off)).
      - rewrite shl1_ok by lia. eexists. split; [done|]. split; [apply Z.lor_nonneg; split; [done|apply Z.pow_nonneg; lia]|].
        intros k Hk. rewrite Z.lor_spec, Z.pow2_bits_eqb, andb_true_r by lia. f_equal.
        destruct (Z.eqb_spec (flip big w i) k) as [<-|Hne]; [by rewrite bool_decide_true by apply flip_flip|].
        rewrite bool_decide_false; [done|]. intros He. apply Hne. by rewrite <- He, flip_flip.
      - exists val. split_and!; [done..|]. intros k Hk. by rewrite andb_false_r, orb_false_r. }
    cbn [mbind res_bind]. destruct (IH (i + 1) val') as (v & -> & Hv & Hvb); [lia..|].
    exists v. split_and!; [done..|]. intros k Hk. rewrite Hvb, Hbits by done. rewrite <- orb_assoc. f_equal.
    destruct (decide (flip big w k = i)) as [He|Hne].
    + rewrite He, (bool_decide_true (i = i)), (bool_decide_false (i + 1 ≤ _ < _)), (bool_decide_true (i ≤ _ < _)) by lia.
      by rewrite orb_false_r.
    + rewrite (bool_decide_false (_ = i)) by done. simpl. f_equal. apply bool_decide_ext. lia.
Qed.

Lemma set_loop_ok val n i s :
  length s = length s0 → 0 ≤ i → i + Z.of_nat n = w →
  ∃ s', set_loop big off w val n i s = Ok s' ∧ length s' = length s0 ∧
    ∀ j, 0 ≤ j → bit_of s' j = if bool_decide (i ≤ flip big w (j - off) < w) then Z.testbit val (flip big w (j - off)) else bit_of s j.
Proof using Hoff Hw Hfit Hlen.
  revert i s. induction n as [|n IH]; intros i s Hs Hi Hn; cbn [set_loop].
  - exists s. split_and!; [done..|]. intros j Hj. by rewrite bool_decide_false by lia.
  - rewrite shl1_ok by lia. cbn [mbind res_bind]. pose proof (flip_range w i ltac:(lia)) as Hf.
    rewrite arith_ok by lia. cbn [mbind res_bind]. rewrite land_pow2 by done.
    destruct (set_bit_ok s (flip big w i + off) (Z.testbit val i)) as (s1 & -> & Hs1 & Hb1); [unfold in_unit; lia|]. cbn [mbind res_bind].
    destruct (IH (i + 1) s1) as (s' & -> & Hs' & Hb'); [congruence|lia..|].
    exists s'. split_and!; [done..|]. intros j Hj. rewrite Hb', Hb1 by done.
    destruct (Z.eqb_spec j (flip big w i + off)) as [->|Hne].
    + replace (flip big w i + off - off) with (flip big w i) by lia. rewrite flip_flip.
      by rewrite bool_decide_false, bool_decide_true by lia.
    + assert (flip big w (j - off) ≠ i) as Hni by (intros He; apply Hne; rewrite <- He, flip_flip; lia).
      by rewrite (bool_decide_ext (i + 1 ≤ _ < _) (i ≤ flip big w (j - off) < w)) by lia.
Qed.

(** What a getter reads and a setter writes. *)
Lemma unit_get_ok : 0 < w → ∃ v, get big s0 off w = Ok v ∧ 0 ≤ v < 2 ^ w ∧ ∀ k, 0 ≤ k < w → Z.testbit v k = bit_of s0 (flip big w k + off).
Proof using Hoff Hw Hfit Hlen.
  intros H0. unfold get. rewrite range_asserts_ok by done.
  assert ((if overflow_checks then Ok () else Ok ()) = Ok (E := ()) ()) as -> by (by destruct overflow_checks). cbn [mbind res_bind].
  destruct (get_loop_ok (Z.to_nat w) 0 0) as (v & -> & Hv & Hb); [lia..|]. exists v. split; [done|]. split.
  - split; [done|]. apply bits_bound; [lia|done|]. intros k Hk. rewrite Hb by lia. rewrite Z.bits_0. simpl.
    rewrite bool_decide_false; [done|]. intros Hf. pose proof (flip_range _ _ Hf) as Hff. rewrite flip_flip in Hff. lia.
  - intros k Hk. rewrite Hb by lia. rewrite Z.bits_0. simpl. by rewrite bool_decide_true by (by apply flip_range).
Qed.
Lemma unit_set_ok val :
  0 < w →
  ∃ s', set big s0 off w val = Ok s' ∧ length s' = length s0 ∧
    ∀ j, 0 ≤ j → bit_of s' j = if bool_decide (off ≤ j < off + w) then Z.testbit val (flip big w (j - off)) else bit_of s0 j.
Proof using Hoff Hw Hfit Hlen.
  intros H0. unfold set. rewrite range_asserts_ok by done.
  assert ((if overflow_checks then Ok () else Ok ()) = Ok (E := ()) ()) as -> by (by destruct overflow_checks). cbn [mbind res_bind].
  destruct (set_loop_ok val (Z.to_nat w) 0 s0 eq_refl) as (s' & -> & Hs & Hb); [lia..|]. exists s'. split_and!; [done..|].
  intros j Hj. rewrite Hb by done. erewrite bool_decide_ext; [done|]. unfold flip. destruct big; lia.
Qed.
End bits.

(** ** Fields are registers *)
Class BitFieldsLaws F `{BitFields F} := {
  bf_range (f : F) : 0 ≤ offset_of f ∧ 0 < width_of f ≤ field_bits ∧ offset_of f + width_of f ≤ 8 * Z.of_nat unit_size;
  bf_disjoint (f g : F) : f ≠ g → offset_of f + width_of f ≤ offset_of g ∨ offset_of g + width_of g ≤ offset_of f;
  bf_all (f : F) : f ∈ fields;
  bf_nodup : NoDup fields;
  bf_bits : field_bits ≤ 64;
  bf_size : 8 * Z.of_nat unit_size < 2 ^ 64;
}.

Section laws.
Context `{BuildMode} (big : bool) {F} `{EqDecision F} `{BitFieldsLaws F}.

(** A unit that holds these values. *)
Definition holds (s : str) (vals : F → Z) : Prop :=
  length s = unit_size ∧ ∀ f, get_field big s f = Ok (wrapu (width_of f) (vals f)).
(** A register file: the values of the fields, one of them written. *)
Definition write (vals : F → Z) (f : F) (v : Z) : F → Z := λ g, if decide (g = f) then v else vals g.
Definition writes (vals : F → Z) (l : list (F * Z)) : F → Z := foldl (λ vals p, write vals p.1 p.2) vals l.
(** The setters called one after the other. *)
Fixpoint set_each (s : str) (l : list (F * Z)) : res () str :=
  match l with [] => Ok s | (f, v) :: l => s ← set_field big s f v; set_each s l end.

Lemma get_field_bits s f v :
  length s = unit_size →
  (∀ k, 0 ≤ k < width_of f → bit_of big s (flip big (width_of f) k + offset_of f) = Z.testbit v k) →
  get_field big s f = Ok (wrapu (width_of f) v).
Proof using H1.
  intros Hs Hk. destruct (bf_range f) as (Ho & Hw & Hfit). pose proof bf_bits as Hb. pose proof bf_size as Hz.
  destruct (unit_get_ok big s (offset_of f) (width_of f)) as (v' & Hg & Hv' & Hbits); [lia|lia|rewrite Hs; lia|rewrite Hs; lia|lia|].
  unfold get_field. rewrite Hg. cbn [mbind res_bind]. f_equal.
  rewrite wrapu_small by (pose proof (Z.pow_le_mono_r 2 (width_of f) field_bits); lia).
  apply Z.bits_inj'. intros k Hk0. destruct (decide (k < width_of f)).
  - unfold wrapu. rewrite Z.mod_pow2_bits_low by lia. rewrite Hbits by lia. apply Hk. lia.
  - unfold wrapu. rewrite Z.mod_pow2_bits_high by lia. apply (bound_bits (width_of f)); lia.
Qed.

(** Two units with the same bits have the same fields. *)
Lemma set_field_ok s f v :
  length s = unit_size →
  ∃ s', set_field big s f v = Ok s' ∧ length s' = unit_size ∧ get_field big s' f = Ok (wrapu (width_of f) v) ∧
    ∀ g w, g ≠ f → get_field big s g = Ok w → get_field big s' g = Ok w.
Proof using H1.
  intros Hs. destruct (bf_range f) as (Ho & Hw & Hfit). pose proof bf_bits as Hb. pose proof bf_size as Hz.
  destruct (unit_set_ok big s (offset_of f) (width_of f)) with (val := v) as (s' & Hset & Hs' & Hbits); [lia|lia|rewrite Hs; lia|rewrite Hs; lia|lia|].
  exists s'. split; [exact Hset|]. split; [congruence|]. split.
  - apply get_field_bits; [congruence|]. intros k Hk. pose proof (flip_range big (width_of f) k Hk).
    rewrite Hbits, bool_decide_true by lia. f_equal. rewrite Z.add_simpl_r. apply flip_flip.
  - intros g w Hne. destruct (bf_range g) as (Hog & Hwg & Hfitg). pose proof (bf_disjoint g f Hne) as Hd.
    destruct (unit_get_ok big s (offset_of g) (width_of g)) as (x & Hg & Hx & Hxb); [lia|lia|rewrite Hs; lia|rewrite Hs; lia|lia|].
    rewrite (get_field_bits s' g x); [unfold get_field; rewrite Hg; cbn [mbind res_bind]| congruence|].
    + rewrite !wrapu_small; [done|lia|]. pose proof (Z.pow_le_mono_r 2 (width_of g) field_bits). lia.
    + intros k Hk. pose proof (flip_range big (width_of g) k Hk). rewrite Hbits, bool_decide_false by lia. by rewrite Hxb.
Qed.

Lemma set_field_holds s vals f v : holds s vals → ∃ s', set_field big s f v = Ok s' ∧ holds s' (write vals f v).
Proof using H1.
  intros [Hs Hv]. destruct (set_field_ok s f v Hs) as (s' & Hset & Hs' & Hf & Hg). exists s'. split; [done|].
  split; [done|]. intros g. unfold write. destruct (decide (g = f)) as [->|Hne]; [done|by apply Hg].
Qed.
Lemma set_each_holds l s vals : holds s vals → ∃ s', set_each s l = Ok s' ∧ holds s' (writes vals l).
Proof using H1.
  revert s vals. induction l as [|[f v] l IH]; intros s vals Hs; simpl; [by exists s|].
  destruct (set_field_holds s vals f v Hs) as (s1 & -> & Hs1). by apply IH.
Qed.

Lemma new_zero : holds (replicate unit_size 0) (λ _, 0).
Proof using H1.
  split; [apply length_replicate|]. intros f. apply get_field_bits; [apply length_replicate|]. intros k Hk. rewrite Z.bits_0.
  unfold bit_of. destruct (_ !! _) as [b|] eqn:E; [|done]. apply lookup_replicate in E as [-> _]. apply Z.bits_0.
Qed.
Lemma set_fields_each s l vals : set_fields big s l vals = set_each s ((λ f, (f, vals f)) <$> l).
Proof using. revert s. induction l as [|f l IH]; intros s; [done|]. simpl. destruct (set_field _ _ _ _); [apply IH|done..]. Qed.
Lemma writes_other l vals f : f ∉ l.*1 → writes vals l f = vals f.
Proof using.
  revert vals. induction l as [|[g v] l IH]; intros vals Hf; [done|]. simpl in *. apply not_elem_of_cons in Hf as [Hne Hf].
  unfold writes in *. rewrite IH by done. unfold write. simpl. by rewrite decide_False.
Qed.
Lemma writes_all l vals0 vals f : NoDup l → f ∈ l → writes vals0 ((λ g, (g, vals g)) <$> l) f = vals f.
Proof using.
  intros Hn. revert vals0. induction Hn as [|g l Hg Hn IH]; intros vals0 Hf; [by apply not_elem_of_nil in Hf|].
  simpl. destruct (decide (f ∈ l)) as [Hin|Hout]; [by apply IH|].
  apply elem_of_cons in Hf as [->|Hf]; [|done]. change (writes (write vals0 g (vals g)) ((λ g, (g, vals g)) <$> l) g = vals g).
  rewrite writes_other; [unfold write; by rewrite decide_True|]. by rewrite <- list_fmap_compose, list_fmap_id.
Qed.
End laws.

(** ** The layouts *)

(** A finite layout is checked by evaluation. *)
Definition layout_ok {F} `{EqDecision F} `{BitFields F} : bool :=
  bool_decide (Forall (λ f,
    (0 ≤ offset_of f ∧ 0 < width_of f ≤ field_bits ∧ offset_of f + width_of f ≤ 8 * Z.of_nat unit_size) ∧
    Forall (λ g, f = g ∨ offset_of f + width_of f ≤ offset_of g ∨ offset_of g + width_of g ≤ offset_of f) fields) fields) &&
  bool_decide (NoDup fields) && (field_bits <=? 64) && (8 * Z.of_nat unit_size <? 2 ^ 64).
Lemma layout_laws {F} `{EqDecision F} `{BitFields F} : (∀ f : F, f ∈ fields) → layout_ok (F := F) = true → BitFieldsLaws F.
Proof.
  unfold layout_ok. rewrite !andb_true_iff, !bool_decide_eq_true, Z.leb_le, Z.ltb_lt. intros Hall [[[Hf Hn] Hb] Hs].
  rewrite Forall_forall in Hf. split; try done.
  - intros f. by apply Hf.
  - intros f g Hne. destruct (Hf f (Hall f)) as [_ Hg]. rewrite Forall_forall in Hg. by destruct (Hg g (Hall g)).
Qed.
Ltac solve_laws := apply layout_laws; [intros f; apply (bool_decide_unpack _); by destruct f|by vm_compute].

(** [bpf_insn]. *)
Inductive insn_field :=
  | dst_reg | src_reg.
#[export] Instance insn_field_eq_dec : EqDecision insn_field.
Proof. solve_decision. Defined.
Definition bpf_insn_offset (f : insn_field) : Z :=
  match f with
  | dst_reg => 0 | src_reg => 4
  end.
Definition bpf_insn_width (f : insn_field) : Z := match f with | _ => 4 end.
#[export] Instance bpf_insn_fields : BitFields insn_field := {
  fields :=
    [dst_reg; src_reg];
  offset_of := bpf_insn_offset;
  width_of := bpf_insn_width;
  field_bits := 8;
  unit_size := 1;
}.
#[export] Instance bpf_insn_laws : BitFieldsLaws insn_field.
Proof. solve_laws. Qed.

(** [bpf_prog_info]. *)
Inductive prog_info_field :=
  | gpl_compatible.
#[export] Instance prog_info_field_eq_dec : EqDecision prog_info_field.
Proof. solve_decision. Defined.
Definition bpf_prog_info_offset (f : prog_info_field) : Z :=
  match f with
  | gpl_compatible => 0
  end.
Definition bpf_prog_info_width (f : prog_info_field) : Z := match f with | _ => 1 end.
#[export] Instance bpf_prog_info_fields : BitFields prog_info_field := {
  fields :=
    [gpl_compatible];
  offset_of := bpf_prog_info_offset;
  width_of := bpf_prog_info_width;
  field_bits := 32;
  unit_size := 4;
}.
#[export] Instance bpf_prog_info_laws : BitFieldsLaws prog_info_field.
Proof. solve_laws. Qed.

(** [perf_event_attr]. *)
Inductive attr_field :=
  | disabled | inherit | pinned | exclusive | exclude_user | exclude_kernel
  | exclude_hv | exclude_idle | mmap | comm | freq | inherit_stat
  | enable_on_exec | task | watermark | precise_ip | mmap_data | sample_id_all
  | exclude_host | exclude_guest | exclude_callchain_kernel | exclude_callchain_user | mmap2 | comm_exec
  | use_clockid | context_switch | write_backward | namespaces | ksymbol | bpf_event
  | aux_output | cgroup | text_poke | build_id | inherit_thread | remove_on_exec
  | sigtrap | reserved_1.
#[export] Instance attr_field_eq_dec : EqDecision attr_field.
Proof. solve_decision. Defined.
Definition perf_event_attr_offset (f : attr_field) : Z :=
  match f with
  | disabled => 0 | inherit => 1 | pinned => 2 | exclusive => 3 | exclude_user => 4 | exclude_kernel => 5
  | exclude_hv => 6 | exclude_idle => 7 | mmap => 8 | comm => 9 | freq => 10 | inherit_stat => 11
  | enable_on_exec => 12 | task => 13 | watermark => 14 | precise_ip => 15 | mmap_data => 17 | sample_id_all => 18
  | exclude_host => 19 | exclude_guest => 20 | exclude_callchain_kernel => 21 | exclude_callchain_user => 22 | mmap2 => 23 | comm_exec => 24
  | use_clockid => 25 | context_switch => 26 | write_backward => 27 | namespaces => 28 | ksymbol => 29 | bpf_event => 30
  | aux_output => 31 | cgroup => 32 | text_poke => 33 | build_id => 34 | inherit_thread => 35 | remove_on_exec => 36
  | sigtrap => 37 | reserved_1 => 38
  end.
Definition perf_event_attr_width (f : attr_field) : Z := match f with | precise_ip => 2 | reserved_1 => 26 | _ => 1 end.
#[export] Instance perf_event_attr_fields : BitFields attr_field := {
  fields :=
    [disabled; inherit; pinned; exclusive; exclude_user; exclude_kernel; exclude_hv; exclude_idle;
     mmap; comm; freq; inherit_stat; enable_on_exec; task; watermark; precise_ip;
     mmap_data; sample_id_all; exclude_host; exclude_guest; exclude_callchain_kernel; exclude_callchain_user; mmap2; comm_exec;
     use_clockid; context_switch; write_backward; namespaces; ksymbol; bpf_event; aux_output; cgroup;
     text_poke; build_id; inherit_thread; remove_on_exec; sigtrap; reserved_1];
  offset_of := perf_event_attr_offset;
  width_of := perf_event_attr_width;
  field_bits := 64;
  unit_size := 8;
}.
#[export] Instance perf_event_attr_laws : BitFieldsLaws attr_field.
Proof. solve_laws. Qed.

(** The capabilities of [perf_event_mmap_page]. *)
Inductive cap_field :=
  | cap_bit0 | cap_bit0_is_deprecated | cap_user_rdpmc | cap_user_time | cap_user_time_zero | cap_user_time_short
  | cap_res.
#[export] Instance cap_field_eq_dec : EqDecision cap_field.
Proof. solve_decision. Defined.
Definition perf_event_mmap_page_offset (f : cap_field) : Z :=
  match f with
  | cap_bit0 => 0 | cap_bit0_is_deprecated => 1 | cap_user_rdpmc => 2 | cap_user_time => 3 | cap_user_time_zero => 4 | cap_user_time_short => 5
  | cap_res => 6
  end.
Definition perf_event_mmap_page_width (f : cap_field) : Z := match f with | cap_res => 58 | _ => 1 end.
#[export] Instance perf_event_mmap_page_fields : BitFields cap_field := {
  fields :=
    [cap_bit0; cap_bit0_is_deprecated; cap_user_rdpmc; cap_user_time; cap_user_time_zero; cap_user_time_short; cap_res];
  offset_of := perf_event_mmap_page_offset;
  width_of := perf_event_mmap_page_width;
  field_bits := 64;
  unit_size := 8;
}.
#[export] Instance perf_event_mmap_page_laws : BitFieldsLaws cap_field.
Proof. solve_laws. Qed.

(** ** The refinement *)

(** A unit is a register file: after [new_bitfield_1] and any calls of the
    setters, in either byte order, every getter gives the value last written
    to its field, cut to the field's width; nothing panics. *)
Lemma bit_fields_are_registers `{BuildMode} (big : bool) {F} `{EqDecision F} `{BitFieldsLaws F} (vals : F → Z) (l : list (F * Z)) :
  ∃ s s', new_bitfield_1 big vals = Ok s ∧ set_each big s l = Ok s' ∧ length s' = unit_size ∧
    ∀ f, get_field big s' f = Ok (wrapu (width_of f) (writes vals l f)).
Proof.
  unfold new_bitfield_1. rewrite set_fields_each.
  destruct (set_each_holds big ((λ f, (f, vals f)) <$> fields) _ _ (new_zero big)) as (s & Hnew & Hs).
  assert (holds big s vals) as Hs0.
  { destruct Hs as [Hl Hf]. split; [done|]. intros f. rewrite Hf, writes_all by apply bf_nodup || apply bf_all. done. }
  destruct (set_each_holds big l s vals Hs0) as (s' & Hset & Hl & Hf). by exists s, s'.
Qed.

(** [precise_ip] of an event is two bits wide. *)
Example precise_ip_cut :
  let _ : BuildMode := true in
  let s := [2; 128; 1; 0; 0; 0; 0; 0] in
  set_each false (replicate 8 0) [(disabled, 1); (precise_ip, 7); (inherit, 1); (disabled, 0)] = Ok s ∧
  get_field false s precise_ip = Ok 3 ∧ get_field false s mmap_data = Ok 0.
Proof. by vm_compute. Qed.
