(* ===== verification/RingMem.v ===== *)
(** Circular byte memory: a block of bytes addressed by positions that wrap
    around its length, as the double mapping of the BPF ring buffer and the
    data region of the perf ring do.  Reads and writes at positions, and the
    lemmas that say when a write leaves a read unchanged. *)
From S2P Require Import Prelude.

Definition dlen (d : list Z) : Z := Z.of_nat (length d).

(** The byte at position [p], and [n] bytes from it. *)
Definition dget (d : list Z) (p : Z) : Z := d !!! Z.to_nat (p mod dlen d).
Definition dread (d : list Z) (p : Z) (n : nat) : list Z :=
  map (λ k, dget d (p + Z.of_nat k)) (seq 0 n).

(** Storing bytes one after another from position [p]. *)
Fixpoint dstore (d : list Z) (p : Z) (xs : list Z) : list Z :=
  match xs with
  | [] => d
  | x :: xs => dstore (<[Z.to_nat (p mod dlen d) := x]> d) (p + 1) xs
  end.

Lemma length_dstore d p xs : length (dstore d p xs) = length d.
Proof. revert d p. induction xs as [|x xs IH]; intros d p; simpl; [done|]. by rewrite IH, length_insert. Qed.

Lemma dlen_dstore d p xs : dlen (dstore d p xs) = dlen d.
Proof. unfold dlen. by rewrite length_dstore. Qed.

Lemma length_dread d p n : length (dread d p n) = n.
Proof. unfold dread. by rewrite length_map, length_seq. Qed.

Lemma dread_lookup d p n k : (k < n)%nat → dread d p n !! k = Some (dget d (p + Z.of_nat k)).
Proof. intros Hk. unfold dread. by rewrite list_lookup_fmap, lookup_seq_lt. Qed.

Lemma dget_insert d i q x :
  0 < dlen d → 0 ≤ i < dlen d →
  dget (<[Z.to_nat i := x]> d) q = if q mod dlen d =? i then x else dget d q.
Proof.
  intros Hd Hi. unfold dget, dlen. rewrite length_insert. fold (dlen d).
  pose proof (Z.mod_pos_bound q (dlen d) Hd).
  destruct (Z.eqb_spec (q mod dlen d) i) as [->|Hne].
  - apply list_lookup_total_insert_eq. unfold dlen in *. lia.
  - apply list_lookup_total_insert_ne. lia.
Qed.

(** The offset of [q] from [p] around the ring decides what is read. *)
Lemma dget_dstore d p xs q :
  0 < dlen d → Z.of_nat (length xs) ≤ dlen d →
  dget (dstore d p xs) q =
    let o := (q - p) mod dlen d in
    if o <? Z.of_nat (length xs) then xs !!! Z.to_nat o else dget d q.
Proof.
  intros Hd. revert d p Hd. induction xs as [|x xs IH]; intros d p Hd Hl; simpl dstore.
  - cbv zeta. pose proof (Z.mod_pos_bound (q - p) (dlen d) Hd).
    destruct (Z.ltb_spec ((q - p) mod dlen d) (Z.of_nat (length (@nil Z)))); [simpl in *; lia|done].
  - pose proof (Z.mod_pos_bound p (dlen d) Hd) as Hp.
    pose proof (Z.mod_pos_bound (q - p) (dlen d) Hd) as Ho.
    assert (dlen (<[Z.to_nat (p mod dlen d) := x]> d) = dlen d) as Hi.
    { unfold dlen. by rewrite length_insert. }
    simpl length in *. rewrite IH by (rewrite Hi; lia). rewrite Hi. cbv zeta.
    rewrite dget_insert by lia.
    destruct (Z.eqb_spec (q mod dlen d) (p mod dlen d)) as [He|Hne].
    + assert ((q - p) mod dlen d = 0) as H0.
      { rewrite Zminus_mod, He, Z.sub_diag. apply Z.mod_0_l. lia. }
      assert ((q - (p + 1)) mod dlen d = dlen d - 1) as H1.
      { replace (q - (p + 1)) with ((q - p) - 1) by lia.
        rewrite Zminus_mod, H0. destruct (Z.eq_dec (dlen d) 1) as [->|]; [done|].
        rewrite (Z.mod_small 1) by lia. symmetry. apply Z.mod_unique with (-1); lia. }
      rewrite H0, H1. simpl Z.to_nat.
      destruct (Z.ltb_spec (dlen d - 1) (Z.of_nat (length xs))); [lia|].
      rewrite (proj2 (Z.ltb_lt 0 _)) by lia. done.
    + assert (0 < (q - p) mod dlen d) as H0.
      { destruct (Z.eq_dec ((q - p) mod dlen d) 0) as [Hz|]; [|lia].
        exfalso. apply Hne. apply Z.mod_divide in Hz; [|lia]. destruct Hz as [k Hk].
        replace q with (p + k * dlen d) by lia. apply Z_mod_plus_full. }
      assert ((q - (p + 1)) mod dlen d = (q - p) mod dlen d - 1) as H1.
      { replace (q - (p + 1)) with ((q - p) - 1) by lia.
        rewrite Zminus_mod. destruct (Z.eq_dec (dlen d) 1) as [E|]; [lia|].
        rewrite (Z.mod_small 1) by lia. apply Z.mod_small. lia. }
      rewrite H1. set (o := (q - p) mod dlen d) in *.
      destruct (Z.ltb_spec (o - 1) (Z.of_nat (length xs))), (Z.ltb_spec o (Z.of_nat (S (length xs)))); try lia.
      replace (Z.to_nat o) with (S (Z.to_nat (o - 1))) by lia. done.
Qed.

(** Positions are only meaningful modulo the length. *)
Lemma dget_mod d p : 0 < dlen d → dget d (p mod dlen d) = dget d p.
Proof. intros. unfold dget. by rewrite Z.mod_mod by lia. Qed.

Lemma dget_shift d p o : 0 < dlen d → dget d (p mod dlen d + o) = dget d (p + o).
Proof. intros. unfold dget. by rewrite Zplus_mod_idemp_l. Qed.

Lemma dread_mod d p n : 0 < dlen d → dread d (p mod dlen d) n = dread d p n.
Proof.
  intros. unfold dread. apply map_ext_in. intros k _. by apply dget_shift.
Qed.

Lemma dread_mod_add d p o n : 0 < dlen d → dread d (p mod dlen d + o) n = dread d (p + o) n.
Proof.
  intros. unfold dread. apply map_ext_in. intros k _.
  rewrite <- !Z.add_assoc. by apply dget_shift.
Qed.

Lemma dstore_mod d p xs : dstore d (p mod dlen d) xs = dstore d p xs.
Proof.
  destruct (decide (dlen d = 0)) as [E|E]; [rewrite E; by rewrite Z.mod_0_r|].
  assert (∀ ys d' q, dlen d' = dlen d → dstore d' (q mod dlen d) ys = dstore d' q ys ∧
    ∀ c, dstore d' (q mod dlen d + c) ys = dstore d' (q + c) ys) as H; [|by apply H].
  intros ys. induction ys as [|y ys IH]; intros d' q Hd; [by split|].
  split; [|intros c]; simpl; rewrite !Hd.
  - rewrite Z.mod_mod by done.
    destruct (IH (<[Z.to_nat (q mod dlen d):=y]> d') q) as [_ ->]; [|done].
    unfold dlen in *. by rewrite length_insert.
  - rewrite Zplus_mod_idemp_l. rewrite <- Z.add_assoc.
    destruct (IH (<[Z.to_nat ((q + c) mod dlen d):=y]> d') q) as [_ ->]; [|by rewrite Z.add_assoc].
    unfold dlen in *. by rewrite length_insert.
Qed.

Lemma dstore_mod_add d p c xs : dstore d (p mod dlen d + c) xs = dstore d (p + c) xs.
Proof.
  rewrite <- (dstore_mod d (_ + c)), <- (dstore_mod d (p + c)). by rewrite Zplus_mod_idemp_l.
Qed.

Lemma dstore_app d p xs ys :
  dstore d p (xs ++ ys) = dstore (dstore d p xs) (p + Z.of_nat (length xs)) ys.
Proof.
  revert d p. induction xs as [|x xs IH]; intros d p; simpl.
  - by rewrite Z.add_0_r.
  - rewrite IH. f_equal. lia.
Qed.

(** A store that does not wrap is a slice copy. *)
Lemma dstore_splice d p xs :
  0 ≤ p → p + Z.of_nat (length xs) ≤ dlen d → dstore d p xs = splice d (Z.to_nat p) xs.
Proof.
  revert d p. induction xs as [|x xs IH]; intros d p Hp Hl; simpl.
  - unfold splice. simpl. rewrite Nat.add_0_r. by rewrite take_drop.
  - simpl in Hl. rewrite Z.mod_small by lia.
    rewrite IH by (unfold dlen in *; rewrite ?length_insert; lia).
    unfold splice, dlen in *. replace (Z.to_nat (p + 1)) with (S (Z.to_nat p)) by lia.
    rewrite (take_S_r _ _ x) by (apply list_lookup_insert_eq; lia).
    rewrite take_insert_ge by lia. rewrite <- app_assoc. simpl. f_equal. f_equal. f_equal.
    rewrite drop_insert_lt by lia. f_equal. lia.
Qed.

(** Reading back what was stored. *)
Lemma dread_dstore_same d p xs :
  0 < dlen d → Z.of_nat (length xs) ≤ dlen d → dread (dstore d p xs) p (length xs) = xs.
Proof.
  intros Hd Hl. apply list_eq. intros k.
  destruct (decide (k < length xs)%nat) as [Hk|Hk].
  - rewrite dread_lookup by done. rewrite dget_dstore by done. cbv zeta.
    replace (p + Z.of_nat k - p) with (Z.of_nat k) by lia.
    rewrite Z.mod_small by lia. destruct (Z.ltb_spec (Z.of_nat k) (Z.of_nat (length xs))); [|lia].
    rewrite Nat2Z.id. symmetry. by apply list_lookup_lookup_total_lt.
  - rewrite !lookup_ge_None_2; [done| lia | rewrite length_dread; lia].
Qed.

(** [disjoint N p n q m]: the windows [p, p+n) and [q, q+m) do not meet
    around a ring of length [N]. *)
Definition disjoint_win (N p n q m : Z) : Prop :=
  (p + n ≤ q ∧ q + m ≤ p + N) ∨ (q + m ≤ p ∧ p + n ≤ q + N).

Lemma dread_dstore_other d p xs q n :
  0 < dlen d → Z.of_nat (length xs) ≤ dlen d →
  disjoint_win (dlen d) p (Z.of_nat (length xs)) q (Z.of_nat n) →
  dread (dstore d p xs) q n = dread d q n.
Proof.
  intros Hd Hl Hw. unfold dread. apply map_ext_in. intros k Hk%in_seq.
  rewrite dget_dstore by done. cbv zeta.
  destruct Hw as [[H1 H2]|[H1 H2]].
  - rewrite Z.mod_small by lia.
    destruct (Z.ltb_spec (q + Z.of_nat k - p) (Z.of_nat (length xs))); [lia|done].
  - assert ((q + Z.of_nat k - p) mod dlen d = q + Z.of_nat k - p + dlen d) as ->.
    { symmetry. apply Z.mod_unique with (-1); lia. }
    destruct (Z.ltb_spec (q + Z.of_nat k - p + dlen d) (Z.of_nat (length xs))); [lia|done].
Qed.

Lemma dread_app d p m n : dread d p (m + n) = dread d p m ++ dread d (p + Z.of_nat m) n.
Proof.
  unfold dread. rewrite seq_app, map_app. f_equal. simpl.
  rewrite <- (Nat.add_0_r m) at 1. rewrite <- fmap_add_seq. rewrite map_map.
  apply map_ext. intros k. f_equal. lia.
Qed.

#[global] Arguments dstore : simpl never.
#[global] Arguments dread : simpl never.
