(* ===== verification/RingBuf.v ===== *)
(** The BPF ring buffer: map/stream/ringbuf.rs, map/stream/mod.rs and the
    helper functions of helper/ringbuf.rs.

    Memory: a ring buffer mapped at [base] is an entry of a heap
    [gmap Z RingBuf]; its [data] are the bytes of the real data pages, and
    the virtual data area of length [2 * (mask + 1)] that [vmap] builds
    addresses them modulo [mask + 1].  A pointer into a data area is the
    block it points into with a byte offset.  An access outside a mapped area
    is undefined behaviour in the code and [Panic] here. *)
From S2P Require Import Prelude BpfBase RingMem.

(** ** Constants *)
Definition PAGE_SHIFT : Z := 12.
Definition PAGE_SIZE : Z := 4096.
Definition RINGBUF_PGOFF : Z := 1. (* offset of [consumer_pos], in pages *)
Definition RINGBUF_POS_PAGES : Z := 2.
Definition RINGBUF_NR_META_PAGES : Z := RINGBUF_PGOFF + RINGBUF_POS_PAGES.
Definition RINGBUF_MAX_RECORD_SZ : Z := (2 ^ 32 - 1) / 4.
Definition BPF_RINGBUF_BUSY_BIT : Z := 2 ^ 31.
Definition BPF_RINGBUF_DISCARD_BIT : Z := 2 ^ 30.
Definition BPF_RINGBUF_HDR_SZ : Z := 8.
(** Offset of [data_pos], the first data byte, from the structure. *)
Definition DATA_OFF : Z := RINGBUF_NR_META_PAGES * PAGE_SIZE.

(** ** State *)
Record RingBuf := {
  nr_pages : Z;
  mask : Z;
  pages : list Z;       (* physical pages owned, in allocation order *)
  phy_addrs : list Z;   (* physical pages in mapping order *)
  consumer_pos : Z;
  producer_pos : Z;
  data : list Z;
  wakeups : nat;        (* calls of [poll_waker.wake_up()] *)
}.

Definition with_producer (rb : RingBuf) (d : list Z) (p : Z) : RingBuf :=
  {| nr_pages := nr_pages rb; mask := mask rb; pages := pages rb; phy_addrs := phy_addrs rb;
     consumer_pos := consumer_pos rb; producer_pos := p; data := d; wakeups := wakeups rb |}.
Definition with_data (rb : RingBuf) (d : list Z) : RingBuf := with_producer rb d (producer_pos rb).
Definition with_consumer (rb : RingBuf) (c : Z) : RingBuf :=
  {| nr_pages := nr_pages rb; mask := mask rb; pages := pages rb; phy_addrs := phy_addrs rb;
     consumer_pos := c; producer_pos := producer_pos rb; data := data rb; wakeups := wakeups rb |}.
Definition wake_up (rb : RingBuf) : RingBuf :=
  {| nr_pages := nr_pages rb; mask := mask rb; pages := pages rb; phy_addrs := phy_addrs rb;
     consumer_pos := consumer_pos rb; producer_pos := producer_pos rb; data := data rb;
     wakeups := S (wakeups rb) |}.

(** A heap of mapped ring buffers, by address of the structure. *)
Abbreviation Heap := (gmap Z RingBuf).

(** [&mut [u8]] into a data area: block, offset, length. *)
Record Slice := { s_blk : Z; s_off : Z; s_len : Z }.
Definition s_ptr (s : Slice) : Z := s_blk s + DATA_OFF + s_off s.

(** ** Creation and destruction *)

(** The kernel's page services: state, allocation, release and mapping. *)
Class PageOps (S : Type) := {
  alloc_page : S → BpfResult Z * S;
  free_page : S → Z → S;
  vmap : S → list Z → BpfResult Z * S;
  vunmap : S → Z → Z → S;
}.

Definition is_power_of_two (n : Z) : bool := (0 <? n) && (Z.land n (n - 1) =? 0).
Definition is_page_aligned (size : Z) : bool := Z.land size (4096 - 1) =? 0.

(** Dropping a [Vec<InnerPage>]: its elements in order. *)
Definition drop_pages {S} `{PageOps S} (s : S) (ps : list Z) : S := foldl free_page s ps.

(** The allocation loop; a failure drops the pages allocated so far. *)
Fixpoint alloc_pages {S} `{PageOps S} (n : nat) (s : S) (ps : list Z) : BpfResult (list Z) * S :=
  match n with
  | O => (Ok ps, s)
  | Datatypes.S n =>
      match alloc_page s with
      | (Ok p, s) => alloc_pages n s (ps ++ [p])
      | (Err e, s) => (Err e, drop_pages s ps)
      | (Panic, s) => (Panic, s)
      | (OutOfFuel, s) => (OutOfFuel, s)
      end
  end.

(** [phy_addrs] after the loop: every page in order, the data pages twice. *)
Definition mapping_of (nr_meta : nat) (ps : list Z) : list Z := ps ++ drop nr_meta ps.

(** The freshly mapped structure; the data pages keep the contents
    [init_data] the allocator left in them, [poll_waker] is the caller's. *)
Definition RingBuf_new {S} `{PageOps S} (m : BpfMapMeta) (init_data : list Z) (s : S)
    : BpfResult (Z * RingBuf) * S :=
  if negb (Z.land (map_flags m) (Z.lnot NUMA_NODE) =? 0) then (Err EINVAL, s)
  else if negb (key_size m =? 0) || negb (value_size m =? 0) ||
          negb (is_power_of_two (max_entries m)) || negb (is_page_aligned (max_entries m))
  then (Err EINVAL, s)
  else
    let nr_meta_pages := Z.to_nat RINGBUF_NR_META_PAGES in
    let nr_data_pages := Z.to_nat (Z.shiftr (max_entries m) PAGE_SHIFT) in
    let nr := (nr_meta_pages + nr_data_pages)%nat in
    match alloc_pages nr s [] with
    | (Ok ps, s) =>
        match vmap s (mapping_of nr_meta_pages ps) with
        | (Ok vaddr, s) =>
            (Ok (vaddr, {| nr_pages := Z.of_nat nr; mask := max_entries m - 1; pages := ps;
                           phy_addrs := mapping_of nr_meta_pages ps;
                           consumer_pos := 0; producer_pos := 0; data := init_data;
                           wakeups := 0 |}), s)
        | (Err e, s) => (Err e, drop_pages s ps)
        | (Panic, s) => (Panic, s)
        | (OutOfFuel, s) => (OutOfFuel, s)
        end
    | (Err e, s) => (Err e, s)
    | (Panic, s) => (Panic, s)
    | (OutOfFuel, s) => (OutOfFuel, s)
    end.

(** [Drop for RingBufMap]: unmap, then release every page. *)
Definition RingBuf_drop {S} `{PageOps S} (base : Z) (rb : RingBuf) (s : S) : S :=
  drop_pages (vunmap s base (Z.of_nat (length (phy_addrs rb)))) (pages rb).

(** ** Operations *)
Section ops.
Context `{BuildMode}.

Definition map_mem_usage (rb : RingBuf) : BpfResult Z :=
  a ← arith 64 (nr_pages rb * 4096);
  arith 64 (a + 8 * Z.of_nat (length (pages rb))).

Definition total_data_size (rb : RingBuf) : BpfResult Z := arith 64 (mask rb + 1).

(** [bpf_ringbuf_rec_pg_off]: pages from the structure to the header. *)
Definition rec_pg_off (hdr_ptr self_ptr : Z) : BpfResult Z :=
  d ← arith 64 (hdr_ptr - self_ptr); Ok (wrapu 32 (Z.shiftr d PAGE_SHIFT)).

(** [bpf_ringbuf_restore_from_rec]: the address computed back. *)
Definition restore_from_rec (hdr_ptr pg_off : Z) : BpfResult Z :=
  arith 64 (Z.land hdr_ptr (Z.lnot (4096 - 1)) - wrapu 64 (Z.shiftl pg_off PAGE_SHIFT)).

(** Bytes of [BpfRingBufHdr]. *)
Definition hdr_bytes (len pg_off : Z) : str := le_enc 4 len ++ le_enc 4 pg_off.

Definition align_record (total : Z) : BpfResult Z :=
  if negb (Z.land total 7 =? 0) then t ← arith 64 (total + 8); Ok (Z.land t (Z.lnot 7))
  else Ok total.

Definition reserve (base : Z) (rb : RingBuf) (size : Z) : BpfResult (Slice * RingBuf) :=
  if RINGBUF_MAX_RECORD_SZ <? size then Err EINVAL else
  total_size ← arith 64 (size + BPF_RINGBUF_HDR_SZ);
  aligned_size ← align_record total_size;
  tds ← total_data_size rb;
  if tds <? aligned_size then Err EINVAL else
  let cons_pos := consumer_pos rb in
  let prod_pos := producer_pos rb in
  new_prod_pos ← arith 64 (prod_pos + aligned_size);
  used ← arith 64 (new_prod_pos - cons_pos);
  if mask rb <? used then Err ENOMEM else
  let prod_idx := Z.land prod_pos (mask rb) in
  if tds * 2 <? prod_idx + BPF_RINGBUF_HDR_SZ then Panic else
  let hdr_ptr := base + DATA_OFF + prod_idx in
  pg_off ← rec_pg_off hdr_ptr base;
  let d := dstore (data rb) prod_idx (hdr_bytes (Z.lor (wrapu 32 size) BPF_RINGBUF_BUSY_BIT) pg_off) in
  let payload_start := prod_idx + BPF_RINGBUF_HDR_SZ in
  if tds * 2 <? payload_start + size then Panic else
  Ok ({| s_blk := base; s_off := payload_start; s_len := size |}, with_producer rb d new_prod_pos).

(** [RingBuf::commit]: only the sample pointer is known; the ring buffer is
    found through the page offset in the header. *)
Definition commit (h : Heap) (sample : Slice) (flags : Z) (discard : bool) : BpfResult Heap :=
  hdr_ptr ← arith 64 (s_ptr sample - BPF_RINGBUF_HDR_SZ);
  blk ← unwrap (h !! s_blk sample);
  let hoff := s_off sample - BPF_RINGBUF_HDR_SZ in
  if hoff <? 0 then Panic else
  let len := le_dec (dread (data blk) hoff 4) in
  let pg_off := le_dec (dread (data blk) (hoff + 4) 4) in
  rb_ptr ← restore_from_rec hdr_ptr pg_off;
  let new_len := Z.land len (Z.lnot BPF_RINGBUF_BUSY_BIT) in
  let new_len := if discard then Z.lor new_len BPF_RINGBUF_DISCARD_BIT else new_len in
  let h := <[s_blk sample := with_data blk (dstore (data blk) hoff (le_enc 4 new_len))]> h in
  rb ← unwrap (h !! rb_ptr);
  rec_pos ← arith 64 (hdr_ptr - (rb_ptr + DATA_OFF));
  let cons_pos := Z.land (consumer_pos rb) (mask rb) in
  if contains flags FORCE_WAKEUP then Ok (<[rb_ptr := wake_up rb]> h)
  else if (cons_pos =? rec_pos) && negb (contains flags NO_WAKEUP) then Ok (<[rb_ptr := wake_up rb]> h)
  else Ok h.

Definition avail_data_size (rb : RingBuf) : BpfResult Z :=
  arith 64 (producer_pos rb - consumer_pos rb).

Definition readable (rb : RingBuf) : bool := negb (producer_pos rb =? consumer_pos rb).

(** [map_mmap]: the physical pages from page [1 + offset]. *)
Definition map_mmap (rb : RingBuf) (offset size : Z) : BpfResult (list Z) :=
  offset ← arith 64 (offset + Z.shiftl RINGBUF_PGOFF PAGE_SHIFT);
  let page_idx := Z.shiftr offset PAGE_SHIFT in
  let range := Z.shiftr size PAGE_SHIFT in
  unwrap (slice (phy_addrs rb) (Z.to_nat page_idx) (Z.to_nat (page_idx + range))).

(** ** Dynamic pointers *)
Record BpfDynPtr := { dp_data : option Slice; dp_size : Z; dp_offset : Z }.
Definition DYNPTR_MAX_SIZE : Z := 2 ^ 24 - 1.
Definition DYNPTR_TYPE_SHIFT : Z := 28.
Definition BPF_DYNPTR_TYPE_RINGBUF : Z := 2.

Definition check_size (size : Z) : BpfResult () :=
  if DYNPTR_MAX_SIZE <? size then Err EINVAL else Ok ().
Definition dynptr_init (d : Slice) (ty offset size : Z) : BpfDynPtr :=
  {| dp_data := Some d; dp_size := Z.lor size (wrapu 32 (Z.shiftl ty DYNPTR_TYPE_SHIFT));
     dp_offset := offset |}.
Definition dynptr_null : BpfDynPtr := {| dp_data := None; dp_size := 0; dp_offset := 0 |}.

(** ** Helper functions

    A [UnifiedMap] is, for these helpers, the result of downcasting its
    inner map to [RingBufMap]: the address of the ring buffer, or [None]
    for another kind of map. *)
Abbreviation MapRef := (option Z).

Definition downcast (h : Heap) (m : MapRef) : BpfResult (Z * RingBuf) :=
  base ← ok_or m EINVAL; rb ← unwrap (h !! base); Ok (base, rb).

Definition copy_from_slice (h : Heap) (s : Slice) (xs : str) : BpfResult Heap :=
  if negb (s_len s =? Z.of_nat (length xs)) then Panic else
  rb ← unwrap (h !! s_blk s);
  Ok (<[s_blk s := with_data rb (dstore (data rb) (s_off s) xs)]> h).

Definition bpf_ringbuf_output (h : Heap) (m : MapRef) (xs : str) (flags : Z) : BpfResult Heap :=
  '(base, rb) ← downcast h m;
  flags ← ok_or (from_bits RINGBUF_FLAGS_ALL flags) EINVAL;
  '(buf, rb) ← map_err (λ _, EAGAIN) (reserve base rb (Z.of_nat (length xs)));
  h ← copy_from_slice (<[base := rb]> h) buf xs;
  commit h buf flags false.

Definition bpf_ringbuf_reserve (h : Heap) (m : MapRef) (size : Z) : BpfResult (Slice * Heap) :=
  '(base, rb) ← downcast h m;
  '(buf, rb) ← reserve base rb size;
  Ok (buf, <[base := rb]> h).

Definition bpf_ringbuf_submit (h : Heap) (sample : Slice) (flags : Z) : BpfResult Heap :=
  flags ← ok_or (from_bits RINGBUF_FLAGS_ALL flags) EINVAL; commit h sample flags false.
Definition bpf_ringbuf_discard (h : Heap) (sample : Slice) (flags : Z) : BpfResult Heap :=
  flags ← ok_or (from_bits RINGBUF_FLAGS_ALL flags) EINVAL; commit h sample flags true.

Definition bpf_ringbuf_query (h : Heap) (m : MapRef) (flags : Z) : BpfResult Z :=
  '(_, rb) ← downcast h m;
  if flags =? 0 then avail_data_size rb
  else if flags =? 1 then total_data_size rb
  else if flags =? 2 then Ok (consumer_pos rb)
  else if flags =? 3 then Ok (producer_pos rb)
  else Ok 0.

(** The dynptr is written through a pointer, so its new value is returned
    next to the result. *)
Definition bpf_ringbuf_reserve_dynptr (h : Heap) (m : MapRef) (size : Z) (dp : BpfDynPtr)
    : BpfResult () * Heap * BpfDynPtr :=
  match check_size size with
  | Ok _ =>
      match downcast h m with
      | Ok (base, rb) =>
          match reserve base rb size with
          | Ok (buf, rb) => (Ok (), <[base := rb]> h, dynptr_init buf BPF_DYNPTR_TYPE_RINGBUF 0 size)
          | Err _ => (Err EINVAL, h, dynptr_null)
          | Panic => (Panic, h, dp)
          | OutOfFuel => (OutOfFuel, h, dp)
          end
      | Err e => (Err e, h, dp)
      | Panic => (Panic, h, dp)
      | OutOfFuel => (OutOfFuel, h, dp)
      end
  | _ => (Err EINVAL, h, dynptr_null)
  end.

(** [bpf_ringbuf_submit_dynptr] and [bpf_ringbuf_discard_dynptr]. *)
Definition commit_dynptr (h : Heap) (dp : BpfDynPtr) (flags : Z) (discard : bool)
    : BpfResult () * Heap * BpfDynPtr :=
  match dp_data dp with
  | None => (Ok (), h, dp)
  | Some s =>
      let sample := {| s_blk := s_blk s; s_off := s_off s; s_len := 1 |} in
      match flags ← ok_or (from_bits RINGBUF_FLAGS_ALL flags) EINVAL; commit h sample flags discard with
      | Ok h' => (Ok (), h', dynptr_null)
      | Err e => (Err e, h, dp)
      | Panic => (Panic, h, dp)
      | OutOfFuel => (OutOfFuel, h, dp)
      end
  end.
Definition bpf_ringbuf_submit_dynptr (h : Heap) (dp : BpfDynPtr) (flags : Z) := commit_dynptr h dp flags false.
Definition bpf_ringbuf_discard_dynptr (h : Heap) (dp : BpfDynPtr) (flags : Z) := commit_dynptr h dp flags true.

(** The entry points called from BPF programs: [lookup] is
    [F::get_unified_map_from_ptr], [errno] the discriminant [e as i64]. *)
Section raw.
Context (lookup : Z → BpfResult MapRef) (errno : BpfError → Z).

(** [match res { Ok(_) => 0, Err(e) => e as _ }]. *)
Definition ret_code {A} (r : BpfResult A) : res () Z :=
  match r with Ok _ => Ok 0 | Err e => Ok (errno e) | Panic => Panic | OutOfFuel => OutOfFuel end.

Definition heap_after (h : Heap) (r : BpfResult Heap) : Heap :=
  match r with Ok h' => h' | _ => h end.

Definition raw_bpf_ringbuf_output (h : Heap) (map : Z) (xs : str) (flags : Z) : res () Z * Heap :=
  let r := m ← lookup map; bpf_ringbuf_output h m xs flags in
  (ret_code r, heap_after h r).

(** [None] is the null pointer. *)
Definition raw_bpf_ringbuf_reserve (h : Heap) (map size flags : Z) : res () (option Slice) * Heap :=
  if negb (flags =? 0) then (Ok None, h) else
  match m ← lookup map; bpf_ringbuf_reserve h m size with
  | Ok (s, h) => (Ok (Some s), h)
  | Err _ => (Ok None, h)
  | Panic => (Panic, h)
  | OutOfFuel => (OutOfFuel, h)
  end.

Definition raw_bpf_ringbuf_submit (h : Heap) (sample : Slice) (flags : Z) : res () Z * Heap :=
  let r := bpf_ringbuf_submit h sample flags in (ret_code r, heap_after h r).
Definition raw_bpf_ringbuf_discard (h : Heap) (sample : Slice) (flags : Z) : res () Z * Heap :=
  let r := bpf_ringbuf_discard h sample flags in (ret_code r, heap_after h r).

Definition raw_bpf_ringbuf_query (h : Heap) (map flags : Z) : res () Z :=
  match m ← lookup map; bpf_ringbuf_query h m flags with
  | Ok v => Ok v | Err _ => Ok 0 | Panic => Panic | OutOfFuel => OutOfFuel
  end.

Definition raw_bpf_ringbuf_reserve_dynptr (h : Heap) (map size flags : Z) (dp : BpfDynPtr)
    : res () Z * Heap * BpfDynPtr :=
  if negb (flags =? 0) then (Ok (errno EINVAL), h, dynptr_null) else
  match lookup map with
  | Ok m => let '(r, h, dp) := bpf_ringbuf_reserve_dynptr h m size dp in (ret_code r, h, dp)
  | Err e => (Ok (errno e), h, dp)
  | Panic => (Panic, h, dp)
  | OutOfFuel => (OutOfFuel, h, dp)
  end.

Definition raw_bpf_ringbuf_submit_dynptr (h : Heap) (dp : BpfDynPtr) (flags : Z) : res () Z * Heap * BpfDynPtr :=
  let '(r, h, dp) := bpf_ringbuf_submit_dynptr h dp flags in (ret_code r, h, dp).
Definition raw_bpf_ringbuf_discard_dynptr (h : Heap) (dp : BpfDynPtr) (flags : Z) : res () Z * Heap * BpfDynPtr :=
  let '(r, h, dp) := bpf_ringbuf_discard_dynptr h dp flags in (ret_code r, h, dp).
End raw.
End ops.

(** ** Geometry of records *)

Inductive RecState := Busy | Committed | Discarded.
#[export] Instance RecState_eq_dec : EqDecision RecState.
Proof. solve_decision. Defined.
Record Rec := { rc_size : Z; rc_state : RecState; rc_payload : option str }.

Definition set_state (r : Rec) (st : RecState) : Rec :=
  {| rc_size := rc_size r; rc_state := st; rc_payload := rc_payload r |}.

(** The [len] word of a record's header. *)
Definition rec_len (r : Rec) : Z :=
  match rc_state r with
  | Busy => rc_size r + 2 ^ 31
  | Committed => rc_size r
  | Discarded => rc_size r + 2 ^ 30
  end.

(** Space a record takes: header and payload rounded up to 8 bytes. *)
Definition span_of (size : Z) : Z := (size + 8 + 7) / 8 * 8.
Definition rec_span (r : Rec) : Z := span_of (rc_size r).
Definition spans (rs : list Rec) : Z := foldr (λ r n, rec_span r + n) 0 rs.

Definition hdr_off (d : list Z) (p : Z) : Z := 3 + (p mod dlen d) / 4096.

Definition payload_at (d : list Z) (p : Z) (r : Rec) : Prop :=
  match rc_payload r with
  | Some xs => Z.of_nat (length xs) = rc_size r ∧ dread d p (length xs) = xs
  | None => True
  end.

(** The records [rs] lie one after the other from position [p]. *)
Fixpoint layout (d : list Z) (p : Z) (rs : list Rec) : Prop :=
  match rs with
  | [] => True
  | r :: rs =>
      dread d p 8 = hdr_bytes (rec_len r) (hdr_off d p) ∧
      payload_at d (p + 8) r ∧ layout d (p + rec_span r) rs
  end.

Definition rec_ok (r : Rec) : Prop := 0 ≤ rc_size r ≤ RINGBUF_MAX_RECORD_SZ.

(** What [RingBuf_new] establishes and nothing changes. *)
Record ring_shape (base : Z) (rb : RingBuf) : Prop := {
  sh_mask : ∃ k, 12 ≤ k ≤ 31 ∧ mask rb = 2 ^ k - 1;
  sh_len : dlen (data rb) = mask rb + 1;
  sh_base : 0 ≤ base ∧ base mod 4096 = 0 ∧ base + 2 ^ 34 < 2 ^ 64;
}.

(** The invariant: the unconsumed part of the ring holds exactly the records
    [rs], in reservation order. *)
Record ring_inv (base : Z) (rb : RingBuf) (rs : list Rec) : Prop := {
  ri_shape : ring_shape base rb;
  ri_cons : 0 ≤ consumer_pos rb;
  ri_prod : producer_pos rb = consumer_pos rb + spans rs;
  ri_room : spans rs ≤ mask rb;
  ri_recs : Forall rec_ok rs;
  ri_layout : layout (data rb) (consumer_pos rb) rs;
}.

Lemma span_bounds size : 0 ≤ size → size + 8 ≤ span_of size < size + 16 ∧ span_of size mod 8 = 0.
Proof.
  intros H. unfold span_of. pose proof (Z.div_mod (size + 8 + 7) 8 ltac:(lia)).
  pose proof (Z.mod_pos_bound (size + 8 + 7) 8 ltac:(lia)).
  split; [lia|]. apply Z_mod_mult.
Qed.

Lemma spans_app rs1 rs2 : spans (rs1 ++ rs2) = spans rs1 + spans rs2.
Proof. induction rs1 as [|r rs1 IH]; simpl; [done|]. rewrite IH. lia. Qed.

Lemma spans_nonneg rs : Forall rec_ok rs → 0 ≤ spans rs.
Proof.
  induction 1 as [|r rs [Hr _] _ IH]; simpl; [done|].
  destruct (span_bounds _ Hr) as [[H1 H2] _]. unfold rec_span. lia.
Qed.

Lemma spans_zero rs : Forall rec_ok rs → spans rs = 0 → rs = [].
Proof.
  intros [|r rs' [Hr _] H]; [done|]. simpl. pose proof (spans_nonneg _ H).
  destruct (span_bounds _ Hr) as [[? ?] _]. unfold rec_span. lia.
Qed.

Lemma layout_app d p rs1 rs2 :
  layout d p (rs1 ++ rs2) ↔ layout d p rs1 ∧ layout d (p + spans rs1) rs2.
Proof.
  revert p. induction rs1 as [|r rs1 IH]; intros p; simpl.
  - rewrite Z.add_0_r. tauto.
  - rewrite IH. rewrite Z.add_assoc. tauto.
Qed.

(** A write outside the window of [rs] preserves their layout. *)
Lemma layout_store_other d p rs q xs :
  0 < dlen d → Z.of_nat (length xs) ≤ dlen d → Forall rec_ok rs →
  disjoint_win (dlen d) q (Z.of_nat (length xs)) p (spans rs) →
  layout d p rs → layout (dstore d q xs) p rs.
Proof.
  intros Hd Hl Hok. revert p. induction Hok as [|r rs [Hr Hr'] Hok IH]; intros p Hw; simpl; [done|].
  simpl in Hw. pose proof (spans_nonneg _ Hok) as Hs.
  destruct (span_bounds _ Hr) as [[H1 H2] _]. unfold rec_span in *.
  intros (Hh & Hp & Hrest). unfold hdr_off. rewrite dlen_dstore.
  split; [|split].
  - rewrite dread_dstore_other; try done. unfold disjoint_win in *; lia.
  - unfold payload_at in *. destruct (rc_payload r) as [ys|]; [|done]. destruct Hp as [Hy Hp].
    split; [done|]. rewrite dread_dstore_other; try done. unfold disjoint_win in *; lia.
  - apply IH; [|done]. unfold disjoint_win in *; lia.
Qed.

(** ** Machine arithmetic of the ring *)

Lemma align_record_spec `{BuildMode} size :
  0 ≤ size → size + 16 < 2 ^ 64 → align_record (size + 8) = Ok (span_of size).
Proof.
  intros H0 H1. unfold align_record, span_of.
  assert (Z.land (size + 8) 7 = (size + 8) mod 8) as -> by (apply (land_mask 3); lia).
  pose proof (Z.div_mod (size + 8) 8 ltac:(lia)) as Hd.
  pose proof (Z.mod_pos_bound (size + 8) 8 ltac:(lia)).
  destruct (Z.eqb_spec ((size + 8) mod 8) 0) as [E|E]; simpl.
  - f_equal. rewrite <- (Z.div_unique (size + 8 + 7) 8 ((size + 8) / 8) 7) by lia. lia.
  - rewrite arith_ok by lia. simpl. f_equal.
    assert (Z.land (size + 8 + 8) (Z.lnot 7) = size + 8 + 8 - (size + 8 + 8) mod 8) as ->
      by (apply (land_lnot_mask 3); lia).
    rewrite <- (Z.div_unique (size + 8 + 7) 8 ((size + 8) / 8 + 1) ((size + 8) mod 8 - 1)) by lia.
    replace (size + 8 + 8) with (size + 8 + 1 * 8) by lia. rewrite Z_mod_plus_full. lia.
Qed.

Lemma land_high n a : 0 ≤ n → 0 ≤ a < 2 ^ n → Z.land a (2 ^ n) = 0.
Proof.
  intros Hn Ha. apply Z.bits_inj'. intros i Hi.
  rewrite Z.land_spec, Z.bits_0, Z.pow2_bits_eqb by done.
  destruct (Z.eqb_spec n i) as [<-|]; [|apply andb_false_r]. rewrite andb_true_r.
  destruct (Z.eq_dec a 0) as [->|]; [apply Z.bits_0|].
  apply Z.bits_above_log2; [lia|]. apply Z.log2_lt_pow2; lia.
Qed.

Lemma lor_high n a : 0 ≤ n → 0 ≤ a < 2 ^ n → Z.lor a (2 ^ n) = a + 2 ^ n.
Proof.
  intros Hn Ha. pose proof (Z.add_lor_land a (2 ^ n)) as H.
  rewrite land_high in H by done. lia.
Qed.

(** Clearing the bit that was set. *)
Lemma clear_high n a : 0 ≤ n → 0 ≤ a < 2 ^ n → Z.land (a + 2 ^ n) (Z.lnot (2 ^ n)) = a.
Proof.
  intros Hn Ha. rewrite <- lor_high by done. rewrite <- Z.ldiff_land.
  apply Z.bits_inj'. intros i Hi. rewrite Z.ldiff_spec, Z.lor_spec.
  pose proof (f_equal (λ z, Z.testbit z i) (land_high n a Hn Ha)) as H.
  cbv beta in H. rewrite Z.land_spec, Z.bits_0 in H.
  by destruct (Z.testbit a i), (Z.testbit (2 ^ n) i).
Qed.

(** ** Reservation *)

(** The state after a successful reservation of [size] bytes. *)
Definition reserved (rb : RingBuf) (size : Z) : RingBuf :=
  let p := producer_pos rb in
  with_producer rb
    (dstore (data rb) p (hdr_bytes (size + 2 ^ 31) (hdr_off (data rb) p)))
    (p + span_of size).

Definition busy_rec (size : Z) : Rec := {| rc_size := size; rc_state := Busy; rc_payload := None |}.

Lemma shape_mask base rb : ring_shape base rb → 4096 ≤ mask rb + 1 ≤ 2 ^ 31 ∧ 0 < dlen (data rb).
Proof.
  intros [(k & Hk & Hm) Hl _]. rewrite Hl, Hm.
  pose proof (Z.pow_le_mono_r 2 12 k ltac:(lia) ltac:(lia)).
  pose proof (Z.pow_le_mono_r 2 k 31 ltac:(lia) ltac:(lia)). simpl in *. lia.
Qed.

Lemma shape_land base rb p : ring_shape base rb → Z.land p (mask rb) = p mod dlen (data rb).
Proof.
  intros [(k & Hk & Hm) Hl _]. rewrite Hl, Hm, land_mask by lia. f_equal. lia.
Qed.

Lemma rec_pg_off_spec `{BuildMode} base i :
  0 ≤ i < 2 ^ 31 → rec_pg_off (base + DATA_OFF + i) base = Ok (3 + i / 4096).
Proof.
  intros Hi. unfold rec_pg_off, DATA_OFF, RINGBUF_NR_META_PAGES, RINGBUF_PGOFF, RINGBUF_POS_PAGES, PAGE_SIZE, PAGE_SHIFT.
  replace (base + (1 + 2) * 4096 + i - base) with (3 * 4096 + i) by lia.
  rewrite arith_ok by lia. simpl. f_equal.
  rewrite Z.shiftr_div_pow2 by lia. change (2 ^ 12) with 4096.
  rewrite Z.div_add_l by lia. apply wrapu_small.
  pose proof (Z.div_pos i 4096). pose proof (Z.div_le_upper_bound i 4096 (2 ^ 31)). lia.
Qed.

Lemma max_record : RINGBUF_MAX_RECORD_SZ = 2 ^ 30 - 1.
Proof. reflexivity. Qed.

(** The outcome of [reserve], in every state with enough position space. *)
Lemma reserve_spec `{BuildMode} base rb rs size :
  ring_inv base rb rs → 0 ≤ size < 2 ^ 64 → producer_pos rb + 2 ^ 31 < 2 ^ 64 →
  reserve base rb size =
    if (RINGBUF_MAX_RECORD_SZ <? size) || (mask rb + 1 <? span_of size) then Err EINVAL
    else if mask rb <? spans rs + span_of size then Err ENOMEM
    else Ok ({| s_blk := base; s_off := producer_pos rb mod dlen (data rb) + 8; s_len := size |},
             reserved rb size).
Proof.
  intros [Hsh Hc Hp Hr Hok _] Hs Hpos. unfold reserve.
  destruct (shape_mask _ _ Hsh) as [Hm Hd]. pose proof (spans_nonneg _ Hok) as Hnn.
  destruct (Z.ltb_spec RINGBUF_MAX_RECORD_SZ size) as [|Hmax]; [done|]. rewrite orb_false_l. rewrite max_record in Hmax.
  destruct (span_bounds size ltac:(lia)) as [Hsp _].
  unfold BPF_RINGBUF_HDR_SZ. arith_step.
  rewrite align_record_spec by lia. cbn [mbind res_bind]. unfold total_data_size. arith_step.
  destruct (Z.ltb_spec (mask rb + 1) (span_of size)) as [|Hfit]; [done|].
  arith_step.
  replace (producer_pos rb + span_of size - consumer_pos rb) with (spans rs + span_of size) by lia.
  arith_step.
  destruct (Z.ltb_spec (mask rb) (spans rs + span_of size)) as [|Hroom]; [done|].
  rewrite (shape_land base) by done.
  pose proof (Z.mod_pos_bound (producer_pos rb) (dlen (data rb)) Hd) as Hi.
  pose proof (sh_len _ _ Hsh) as Hlen.
  rewrite (proj2 (Z.ltb_ge _ _)) by lia. rewrite rec_pg_off_spec by lia. cbn [mbind res_bind].
  rewrite (proj2 (Z.ltb_ge _ _)) by lia. rewrite dstore_mod.
  unfold BPF_RINGBUF_BUSY_BIT. rewrite wrapu_small, lor_high by lia. done.
Qed.

Lemma length_hdr_bytes a b : length (hdr_bytes a b) = 8%nat.
Proof. done. Qed.

Lemma reserved_shape base rb size : ring_shape base rb → ring_shape base (reserved rb size).
Proof. intros [Hm Hl Hb]. split; try done. simpl. by rewrite dlen_dstore. Qed.

Lemma reserved_inv base rb rs size :
  ring_inv base rb rs → 0 ≤ size ≤ RINGBUF_MAX_RECORD_SZ → spans rs + span_of size ≤ mask rb →
  ring_inv base (reserved rb size) (rs ++ [busy_rec size]).
Proof.
  intros [Hsh Hc Hp Hr Hok Hlay] Hs Hroom.
  destruct (shape_mask _ _ Hsh) as [Hm Hd]. pose proof (spans_nonneg _ Hok) as Hnn.
  destruct (span_bounds size ltac:(lia)) as [Hsp _].
  pose proof (sh_len _ _ Hsh) as Hlen.
  split; simpl; [by apply reserved_shape|done| | | |].
  - rewrite spans_app. simpl. unfold rec_span. simpl. lia.
  - rewrite spans_app. simpl. unfold rec_span. simpl. lia.
  - apply Forall_app_2; [done|]. by constructor.
  - apply layout_app. split.
    + apply layout_store_other; try done; rewrite length_hdr_bytes; [lia|].
      unfold disjoint_win. lia.
    + rewrite <- Hp. simpl. unfold hdr_off, payload_at. simpl. rewrite dlen_dstore.
      split; [|done]. apply (dread_dstore_same _ _ (hdr_bytes _ _)); rewrite ?length_hdr_bytes; lia.
Qed.

(** ** Writing the payload *)

Lemma layout_cut d p rs1 r rs2 :
  layout d p (rs1 ++ r :: rs2) ↔
  layout d p rs1 ∧
  (dread d (p + spans rs1) 8 = hdr_bytes (rec_len r) (hdr_off d (p + spans rs1)) ∧
   payload_at d (p + spans rs1 + 8) r) ∧
  layout d (p + spans rs1 + rec_span r) rs2.
Proof. rewrite layout_app. simpl. tauto. Qed.

Definition set_payload (r : Rec) (xs : str) : Rec :=
  {| rc_size := rc_size r; rc_state := rc_state r; rc_payload := Some xs |}.

Lemma payload_inv base rb rs1 r rs2 xs :
  ring_inv base rb (rs1 ++ r :: rs2) → Z.of_nat (length xs) = rc_size r →
  ring_inv base
    (with_data rb (dstore (data rb) (consumer_pos rb + spans rs1 + 8) xs))
    (rs1 ++ set_payload r xs :: rs2).
Proof.
  intros [Hsh Hc Hp Hr Hok Hlay] Hx.
  destruct (shape_mask _ _ Hsh) as [Hm Hd]. pose proof (sh_len _ _ Hsh) as Hlen.
  apply Forall_app in Hok as [Hok1 Hok2]. apply Forall_cons in Hok2 as [Hr1 Hok2].
  pose proof (spans_nonneg _ Hok1). pose proof (spans_nonneg _ Hok2).
  assert (rec_span (set_payload r xs) = rec_span r) as Hspan by done.
  rewrite spans_app in Hr, Hp. simpl in Hr, Hp.
  destruct Hr1 as [Hr1 Hr1']. destruct (span_bounds _ Hr1) as [Hb _].
  unfold rec_span in *. apply layout_cut in Hlay as (L1 & (Lh & Lp) & L2).
  split; simpl; try done.
  - destruct Hsh. split; simpl; try done. by rewrite dlen_dstore.
  - rewrite spans_app. simpl. unfold rec_span. simpl. lia.
  - rewrite spans_app. simpl. unfold rec_span. simpl. lia.
  - apply Forall_app_2; [done|]. by constructor.
  - apply layout_cut. unfold rec_span. simpl. split; [|split; [split|]].
    + apply layout_store_other; try done; [lia|]. unfold disjoint_win. lia.
    + unfold hdr_off. rewrite dlen_dstore, dread_dstore_other; [exact Lh|done|lia|].
      unfold disjoint_win. simpl. lia.
    + unfold payload_at. simpl. split; [done|]. apply dread_dstore_same; lia.
    + apply layout_store_other; try done; [lia|]. unfold disjoint_win. lia.
Qed.

#[local] Arguments le_enc : simpl never.

(** ** Commit *)

Lemma restore_spec `{BuildMode} base i :
  0 ≤ base → base mod 4096 = 0 → base + 2 ^ 34 < 2 ^ 64 → 0 ≤ i < 2 ^ 31 →
  restore_from_rec (base + DATA_OFF + i) (3 + i / 4096) = Ok base.
Proof.
  intros Hb Hal Hhi Hi. unfold restore_from_rec, DATA_OFF, RINGBUF_NR_META_PAGES, RINGBUF_PGOFF,
    RINGBUF_POS_PAGES, PAGE_SIZE, PAGE_SHIFT.
  pose proof (Z.div_mod i 4096 ltac:(lia)) as Hd. pose proof (Z.mod_pos_bound i 4096 ltac:(lia)).
  assert (Z.land (base + (1 + 2) * 4096 + i) (Z.lnot (4096 - 1)) =
          base + 3 * 4096 + i / 4096 * 4096) as ->.
  { change 4096 with (2 ^ 12). rewrite land_lnot_mask by lia. change (2 ^ 12) with 4096.
    replace (base + (1 + 2) * 4096 + i) with (i + (3 + base / 4096) * 4096)
      by (pose proof (Z.div_mod base 4096 ltac:(lia)); lia).
    rewrite Z_mod_plus_full. pose proof (Z.div_mod base 4096 ltac:(lia)). lia. }
  rewrite Z.shiftl_mul_pow2 by lia. change (2 ^ 12) with 4096.
  assert (0 ≤ i / 4096 < 2 ^ 19) by (split; [apply Z.div_pos; lia | apply Z.div_lt_upper_bound; lia]).
  rewrite wrapu_small by lia. rewrite arith_ok; [f_equal; lia|lia].
Qed.

Lemma rec_len_range r : rec_ok r → 0 ≤ rec_len r < 2 ^ 32.
Proof. unfold rec_ok, rec_len. rewrite max_record. destruct (rc_state r); lia. Qed.

Lemma hdr_off_range d p : 0 < dlen d ≤ 2 ^ 31 → 0 ≤ hdr_off d p < 2 ^ 32.
Proof.
  intros Hd. unfold hdr_off. pose proof (Z.mod_pos_bound p (dlen d) ltac:(lia)).
  assert (0 ≤ p mod dlen d / 4096 < 2 ^ 19)
    by (split; [apply Z.div_pos; lia | apply Z.div_lt_upper_bound; lia]). lia.
Qed.

(** Reading the two words of a header back. *)
Lemma hdr_read d p a b :
  0 ≤ a < 2 ^ 32 → 0 ≤ b < 2 ^ 32 → dread d p 8 = hdr_bytes a b →
  le_dec (dread d p 4) = a ∧ le_dec (dread d (p + 4) 4) = b ∧ dread d (p + 4) 4 = le_enc 4 b.
Proof.
  intros Ha Hb H. change 8%nat with (4 + 4)%nat in H. rewrite dread_app in H.
  unfold hdr_bytes in H. apply app_inj_1 in H as [-> H]; [|by rewrite length_dread].
  change (Z.of_nat 4) with 4 in H. rewrite H, !le_dec_enc.
  by rewrite !Z.mod_small by (simpl; lia).
Qed.

Definition commit_state (discard : bool) : RecState := if discard then Discarded else Committed.

(** When [commit] notifies the consumer. *)
Definition wakes (flags : Z) (first : bool) : bool :=
  contains flags FORCE_WAKEUP || (first && negb (contains flags NO_WAKEUP)).

Definition committed (rb : RingBuf) (p : Z) (r : Rec) (wake : bool) : RingBuf :=
  let rb := with_data rb (dstore (data rb) p (le_enc 4 (rec_len r))) in
  if wake then wake_up rb else rb.

Lemma commit_len r (discard : bool) :
  rec_ok r → rc_state r = Busy →
  let new_len := Z.land (rec_len r) (Z.lnot BPF_RINGBUF_BUSY_BIT) in
  (if discard then Z.lor new_len BPF_RINGBUF_DISCARD_BIT else new_len) =
  rec_len (set_state r (commit_state discard)).
Proof.
  unfold rec_ok. rewrite max_record. intros Hr Hst. assert (rec_len r = rc_size r + 2 ^ 31) as -> by (unfold rec_len; by rewrite Hst).
  unfold BPF_RINGBUF_BUSY_BIT, BPF_RINGBUF_DISCARD_BIT. cbv zeta.
  rewrite clear_high by lia. destruct discard; cbn [commit_state]; unfold rec_len, set_state; cbn [rc_state rc_size]; [|done].
  by rewrite lor_high by lia.
Qed.

Lemma commit_inv base rb rs1 r rs2 st wake :
  ring_inv base rb (rs1 ++ r :: rs2) →
  ring_inv base (committed rb (consumer_pos rb + spans rs1) (set_state r st) wake)
    (rs1 ++ set_state r st :: rs2).
Proof.
  intros [Hsh Hc Hp Hr Hok Hlay].
  destruct (shape_mask _ _ Hsh) as [Hm Hd]. pose proof (sh_len _ _ Hsh) as Hlen.
  apply Forall_app in Hok as [Hok1 Hok2]. apply Forall_cons in Hok2 as [Hr1 Hok2].
  pose proof (spans_nonneg _ Hok1). pose proof (spans_nonneg _ Hok2).
  rewrite spans_app in Hr, Hp. simpl in Hr, Hp.
  destruct (span_bounds _ (proj1 Hr1)) as [Hb _]. pose proof (proj1 Hr1).
  set (p := consumer_pos rb + spans rs1) in *.
  assert (p = consumer_pos rb + spans rs1) as Hpdef by done.
  assert (ring_inv base (with_data rb (dstore (data rb) p (le_enc 4 (rec_len (set_state r st)))))
    (rs1 ++ set_state r st :: rs2)) as Hgo.
  { unfold rec_span in *. apply layout_cut in Hlay as (L1 & (Lh & Lp) & L2). fold p in Lh, Lp, L2.
    assert (Z.of_nat (length (le_enc 4 (rec_len (set_state r st)))) = 4) as H4 by (by rewrite length_le_enc).
    split; simpl; try done.
    - destruct Hsh. split; simpl; try done. by rewrite dlen_dstore.
    - rewrite spans_app. simpl. unfold rec_span. simpl. lia.
    - rewrite spans_app. simpl. unfold rec_span. simpl. lia.
    - apply Forall_app_2; [done|]. by constructor.
    - apply layout_cut. fold p. unfold rec_span. simpl rc_size. split; [|split; [split|]].
      + apply layout_store_other; try done; [lia|]. unfold disjoint_win. lia.
      + unfold hdr_off. rewrite dlen_dstore. fold (hdr_off (data rb) p).
        destruct (hdr_read _ _ _ _ (rec_len_range _ Hr1) (hdr_off_range (data rb) p ltac:(lia)) Lh) as (_ & _ & Hpg).
        change 8%nat with (4 + 4)%nat. rewrite dread_app. unfold hdr_bytes. f_equal.
        * apply (dread_dstore_same _ _ (le_enc 4 _)); [done|lia].
        * rewrite dread_dstore_other; [exact Hpg|done|lia|]. unfold disjoint_win. simpl. lia.
      + unfold payload_at in *. simpl. destruct (rc_payload r) as [xs|]; [|done].
        destruct Lp as [Hx Lp]. split; [done|].
        rewrite dread_dstore_other; [exact Lp|done|lia|]. unfold disjoint_win. lia.
      + apply layout_store_other; try done; [lia|]. unfold disjoint_win. lia. }
  destruct wake; [|exact Hgo]. by destruct Hgo as [[]]; split.
Qed.

Lemma commit_spec `{BuildMode} h base rb rs1 r rs2 n flags discard :
  h !! base = Some rb → ring_inv base rb (rs1 ++ r :: rs2) → rc_state r = Busy →
  let p := consumer_pos rb + spans rs1 in
  commit h {| s_blk := base; s_off := p mod dlen (data rb) + 8; s_len := n |} flags discard =
  Ok (<[base := committed rb p (set_state r (commit_state discard))
                  (wakes flags (bool_decide (rs1 = [])))]> h).
Proof.
  intros Hh Hinv Hst p. assert (p = consumer_pos rb + spans rs1) as Hpdef by done. destruct Hinv as [Hsh Hc Hp Hr Hok Hlay].
  destruct (shape_mask _ _ Hsh) as [Hm Hd]. pose proof (sh_len _ _ Hsh) as Hlen.
  pose proof (sh_base _ _ Hsh) as Hbase.
  pose proof Hok as [Hok1 [Hr1 Hok2]%Forall_cons]%Forall_app.
  pose proof (spans_nonneg _ Hok1). pose proof (spans_nonneg _ Hok2).
  rewrite spans_app in Hr. simpl in Hr. destruct (span_bounds _ (proj1 Hr1)) as [Hb _].
  unfold rec_span in Hr. pose proof (proj1 Hr1).
  apply layout_cut in Hlay as (_ & (Lh & _) & _). fold p in Lh.
  pose proof (Z.mod_pos_bound p (dlen (data rb)) Hd) as Hi. set (i := p mod dlen (data rb)) in *.
  destruct (hdr_read (data rb) p _ _ (rec_len_range _ Hr1) (hdr_off_range (data rb) p ltac:(lia)) Lh) as (Hl & Hg & _).
  unfold commit, s_ptr, BPF_RINGBUF_HDR_SZ. cbn [s_blk s_off].
  replace (base + DATA_OFF + (i + 8) - 8) with (base + DATA_OFF + i) by lia.
  assert (DATA_OFF = 12288) as HD by done.
  arith_step. rewrite Hh. cbn [unwrap mbind res_bind].
  replace (i + 8 - 8) with i by lia. rewrite (proj2 (Z.ltb_ge i 0)) by lia.
  assert (dread (data rb) i 4 = dread (data rb) p 4) as -> by (by apply dread_mod).
  assert (dread (data rb) (i + 4) 4 = dread (data rb) (p + 4) 4) as -> by (by apply dread_mod_add).
  assert (∀ xs, dstore (data rb) i xs = dstore (data rb) p xs) as Hds by (intros xs; apply dstore_mod).
  rewrite Hl, Hg.
  unfold hdr_off. fold i. rewrite restore_spec by lia. cbn [mbind res_bind].
  rewrite (commit_len r discard) by done. rewrite lookup_insert_eq. cbn [unwrap mbind res_bind].
  replace (base + DATA_OFF + i - (base + DATA_OFF)) with i by lia. arith_step.
  cbn [with_data with_producer consumer_pos mask]. rewrite (shape_land base) by done.
  rewrite Hds. unfold i at 1.
  assert ((consumer_pos rb mod dlen (data rb) =? p mod dlen (data rb)) = bool_decide (rs1 = [])) as ->.
  { destruct (Z.eqb_spec (consumer_pos rb mod dlen (data rb)) (p mod dlen (data rb))) as [E|E];
      symmetry; [apply bool_decide_eq_true|apply bool_decide_eq_false]; [|by intros ->; apply E; unfold p; simpl; f_equal; lia].
    apply spans_zero; [done|].
    assert ((p - consumer_pos rb) mod dlen (data rb) = 0) as E2.
    { rewrite Zminus_mod, <- E, Z.sub_diag. apply Z.mod_0_l. lia. }
    unfold p in E2. replace (consumer_pos rb + spans rs1 - consumer_pos rb) with (spans rs1) in E2 by lia.
    rewrite Z.mod_small in E2 by lia. done. }
  unfold wakes, committed.
  destruct (contains flags FORCE_WAKEUP); simpl; [by rewrite insert_insert_eq|].
  case_match; [by rewrite insert_insert_eq|done].
Qed.

(** ** The consumer's view *)

(** What user space reads from the mapped area: from the consumer position,
    stop at a busy record, skip discarded ones. *)
Fixpoint drain (fuel : nat) (d : list Z) (p prod : Z) : list str :=
  match fuel with
  | O => []
  | S fuel =>
      if p =? prod then [] else
      let len := le_dec (dread d p 4) in
      if Z.testbit len 31 then []
      else
        let size := Z.land len (2 ^ 30 - 1) in
        let rest := drain fuel d (p + span_of size) prod in
        if Z.testbit len 30 then rest else dread d (p + 8) (Z.to_nat size) :: rest
  end.

(** A record takes at least 8 bytes of the ring. *)
Definition consume (rb : RingBuf) : list str :=
  drain (length (data rb)) (data rb) (consumer_pos rb) (producer_pos rb).

Fixpoint delivered (rs : list Rec) : list str :=
  match rs with
  | [] => []
  | r :: rs =>
      match rc_state r with
      | Busy => []
      | Discarded => delivered rs
      | Committed => default [] (rc_payload r) :: delivered rs
      end
  end.

Definition filled (r : Rec) : Prop := rc_state r = Committed → is_Some (rc_payload r).

Lemma testbit_add_pow n a i : 0 ≤ n → 0 ≤ a < 2 ^ n → n ≤ i → Z.testbit (a + 2 ^ n) i = (n =? i).
Proof.
  intros Hn Ha Hi. rewrite <- lor_high by done. rewrite Z.lor_spec, Z.pow2_bits_eqb by done.
  assert (Z.testbit a i = false) as ->; [|done].
  destruct (Z.eq_dec a 0) as [->|]; [apply Z.bits_0|].
  apply Z.bits_above_log2; [lia|]. pose proof (Z.log2_lt_pow2 a n). lia.
Qed.

Lemma testbit_small a n i : 0 ≤ a < 2 ^ n → n ≤ i → 0 ≤ n → Z.testbit a i = false.
Proof.
  intros Ha Hi Hn. destruct (Z.eq_dec a 0) as [->|]; [apply Z.bits_0|].
  apply Z.bits_above_log2; [lia|]. pose proof (Z.log2_lt_pow2 a n). lia.
Qed.

(** Decoding the [len] word. *)
Lemma rec_len_bits r :
  rec_ok r →
  Z.testbit (rec_len r) 31 = bool_decide (rc_state r = Busy) ∧
  (rc_state r ≠ Busy →
   Z.testbit (rec_len r) 30 = bool_decide (rc_state r = Discarded) ∧
   Z.land (rec_len r) (2 ^ 30 - 1) = rc_size r).
Proof.
  unfold rec_ok, rec_len. rewrite max_record. intros Hr. destruct (rc_state r); simpl bool_decide.
  - split; [|done]. apply testbit_add_pow; lia.
  - split; [apply (testbit_small _ 30); lia|]. intros _. split; [apply (testbit_small _ 30); lia|].
    rewrite land_mask by lia. apply Z.mod_small. lia.
  - split; [rewrite testbit_add_pow; lia|]. intros _. split; [apply testbit_add_pow; lia|].
    rewrite land_mask by lia. replace (rc_size r + 2 ^ 30) with (rc_size r + 1 * 2 ^ 30) by lia.
    rewrite Z_mod_plus_full. apply Z.mod_small. lia.
Qed.

Lemma drain_layout d rs p fuel :
  0 < dlen d ≤ 2 ^ 31 → Forall rec_ok rs → Forall filled rs → layout d p rs →
  (length rs ≤ fuel)%nat → drain fuel d p (p + spans rs) = delivered rs.
Proof.
  intros Hd Hok. revert p fuel. induction Hok as [|r rs Hr Hok IH]; intros p fuel Hf Hl Hfuel.
  - simpl spans. rewrite Z.add_0_r. destruct fuel; simpl; [done|]. by rewrite Z.eqb_refl.
  - apply Forall_cons in Hf as [Hfr Hf]. destruct fuel as [|fuel]; [simpl in Hfuel; lia|].
    destruct Hl as (Lh & Lp & L). simpl spans. pose proof (spans_nonneg _ Hok).
    destruct (span_bounds _ (proj1 Hr)) as [Hb _]. pose proof (proj1 Hr). unfold rec_span in *.
    cbn [drain]. destruct (Z.eqb_spec p (p + (span_of (rc_size r) + spans rs))); [lia|].
    destruct (hdr_read _ _ _ _ (rec_len_range _ Hr) (hdr_off_range d p Hd) Lh) as (-> & _ & _).
    destruct (rec_len_bits r Hr) as [-> Hbits]. cbn [delivered]. cbv zeta.
    destruct (rc_state r) eqn:Est; simpl bool_decide; cbv match; [done|..].
    all: destruct Hbits as [-> ->]; [done|]; simpl bool_decide; cbv match;
      rewrite Z.add_assoc, IH; try done; try (simpl in Hfuel; lia).
    f_equal. destruct (Hfr Est) as [xs Hx]. unfold payload_at in Lp. rewrite Hx in Lp |- *. simpl.
    destruct Lp as [Hlen Hp]. by rewrite <- Hlen, Nat2Z.id.
Qed.

Lemma length_spans rs : Forall rec_ok rs → 8 * Z.of_nat (length rs) ≤ spans rs.
Proof.
  induction 1 as [|r rs [Hr _] _ IH]; simpl length; simpl spans; [lia|].
  destruct (span_bounds _ Hr) as [[? ?] _]. unfold rec_span. lia.
Qed.

Lemma consume_inv base rb rs : ring_inv base rb rs → Forall filled rs → consume rb = delivered rs.
Proof.
  intros [Hsh Hc Hp Hr Hok Hlay] Hf. destruct (shape_mask _ _ Hsh) as [Hm Hd].
  pose proof (sh_len _ _ Hsh) as Hlen. pose proof (length_spans _ Hok).
  unfold consume. rewrite Hp. apply drain_layout; try done; [lia|]. unfold dlen in *. lia.
Qed.

Lemma delivered_app rs1 rs2 :
  Forall (λ r, rc_state r ≠ Busy) rs1 → delivered (rs1 ++ rs2) = delivered rs1 ++ delivered rs2.
Proof.
  induction 1 as [|r rs1 Hr _ IH]; simpl; [done|]. destruct (rc_state r); [done|by rewrite IH|done].
Qed.

(** User space moves the consumer position past the first record. *)
Lemma advance_inv base rb r rs :
  ring_inv base rb (r :: rs) → ring_inv base (with_consumer rb (consumer_pos rb + rec_span r)) rs.
Proof.
  intros [Hsh Hc Hp Hr Hok Hlay]. apply Forall_cons in Hok as [Hr1 Hok].
  destruct (span_bounds _ (proj1 Hr1)) as [Hb _]. pose proof (proj1 Hr1). unfold rec_span in *.
  simpl in Hp, Hr. unfold rec_span in *. destruct Hlay as (_ & _ & Hlay).
  split; simpl; try done; [by destruct Hsh|lia|lia|lia].
Qed.

(** ** Output *)

(** Whether a record of [n] bytes fits next to the records [rs]. *)
Definition fits (rb : RingBuf) (rs : list Rec) (n : Z) : bool :=
  (n <=? RINGBUF_MAX_RECORD_SZ) && (spans rs + span_of n <=? mask rb).

Definition sent_rec (xs : str) : Rec :=
  {| rc_size := Z.of_nat (length xs); rc_state := Committed; rc_payload := Some xs |}.

(** The ring after an output. *)
Definition sent (rb : RingBuf) (rs : list Rec) (xs : str) (flags : Z) : RingBuf :=
  let p := producer_pos rb in
  let rb := reserved rb (Z.of_nat (length xs)) in
  let rb := with_data rb (dstore (data rb) (p + 8) xs) in
  committed rb p (sent_rec xs) (wakes flags (bool_decide (rs = []))).

Lemma output_spec `{BuildMode} h base rb rs xs flags :
  h !! base = Some rb → ring_inv base rb rs →
  Z.of_nat (length xs) < 2 ^ 64 → producer_pos rb + 2 ^ 31 < 2 ^ 64 →
  bpf_ringbuf_output h (Some base) xs flags =
    match from_bits RINGBUF_FLAGS_ALL flags with
    | None => Err EINVAL
    | Some fl => if fits rb rs (Z.of_nat (length xs)) then Ok (<[base := sent rb rs xs fl]> h) else Err EAGAIN
    end.
Proof.
  intros Hh Hinv Hx Hpos. unfold bpf_ringbuf_output, downcast. cbn [ok_or mbind res_bind]. rewrite Hh.
  cbn [unwrap mbind res_bind]. destruct (from_bits RINGBUF_FLAGS_ALL flags) as [fl|]; [|done].
  cbn [ok_or mbind res_bind]. rewrite (reserve_spec base rb rs) by (done || lia).
  destruct (shape_mask _ _ (ri_shape _ _ _ Hinv)) as [Hm Hd].
  pose proof (spans_nonneg _ (ri_recs _ _ _ Hinv)). set (n := Z.of_nat (length xs)) in *.
  assert (0 ≤ n) as Hn by lia. destruct (span_bounds n Hn) as [Hb _]. unfold fits.
  destruct (Z.ltb_spec RINGBUF_MAX_RECORD_SZ n) as [?|Hmax].
  { rewrite (proj2 (Z.leb_gt _ _)) by lia. done. }
  rewrite (proj2 (Z.leb_le _ _) Hmax). cbn [orb andb].
  destruct (Z.ltb_spec (mask rb + 1) (span_of n)) as [?|Hspan].
  { rewrite (proj2 (Z.leb_gt _ _)) by lia. done. }
  destruct (Z.ltb_spec (mask rb) (spans rs + span_of n)) as [?|Hroom].
  { rewrite (proj2 (Z.leb_gt _ _)) by lia. done. }
  rewrite (proj2 (Z.leb_le _ _) Hroom). cbn [map_err mbind res_bind].
  unfold copy_from_slice. cbn [s_len s_blk s_off]. fold n. rewrite Z.eqb_refl. cbn [negb].
  rewrite lookup_insert_eq. cbn [unwrap mbind res_bind]. rewrite insert_insert_eq.
  pose proof (reserved_inv _ _ _ n Hinv ltac:(lia) Hroom) as Hres.
  pose proof (payload_inv _ _ rs (busy_rec n) [] xs Hres eq_refl) as Hpay.
  set (rb1 := reserved rb n) in *.
  assert (dlen (data rb1) = dlen (data rb)) as Hdl by (unfold rb1; simpl; by rewrite dlen_dstore).
  rewrite <- Hdl, dstore_mod_add.
  assert (consumer_pos rb1 + spans rs = producer_pos rb) as Hp by (by rewrite (ri_prod _ _ _ Hinv)).
  rewrite Hp in Hpay. set (rb2 := with_data rb1 (dstore (data rb1) (producer_pos rb + 8) xs)) in *.
  pose proof (commit_spec (<[base:=rb2]> h) base rb2 rs (set_payload (busy_rec n) xs) [] n fl false
    ltac:(apply lookup_insert_eq) Hpay eq_refl) as Hc.
  cbv zeta in Hc. change (consumer_pos rb2) with (consumer_pos rb1) in Hc. rewrite Hp in Hc.
  assert (dlen (data rb2) = dlen (data rb1)) as Hdl2 by (unfold rb2; simpl; by rewrite dlen_dstore).
  rewrite Hdl2 in Hc.
  rewrite Hc, insert_insert_eq. done.
Qed.

Lemma sent_inv base rb rs xs fl :
  ring_inv base rb rs → fits rb rs (Z.of_nat (length xs)) = true →
  ring_inv base (sent rb rs xs fl) (rs ++ [sent_rec xs]).
Proof.
  intros Hinv [H1%Z.leb_le H2%Z.leb_le]%andb_true_iff.
  pose proof (reserved_inv _ _ _ _ Hinv (conj (Nat2Z.is_nonneg _) H1) H2) as Hres.
  pose proof (payload_inv _ _ rs _ [] xs Hres eq_refl) as Hpay.
  pose proof (commit_inv _ _ rs _ [] Committed (wakes fl (bool_decide (rs = []))) Hpay) as Hc.
  cbn [consumer_pos with_data with_producer reserved] in Hc.
  rewrite <- (ri_prod _ _ _ Hinv) in Hc. exact Hc.
Qed.
