(* ===== verification/RingBufProps.v ===== *)
(** Properties of the BPF ring buffer: creation and release conserve pages,
    output appends to what the consumer reads, commit finds its ring from the
    sample pointer alone, and a hostile consumer cannot make a reservation
    leave the data area. *)
From S2P Require Import Prelude BpfBase RingMem RingBuf.

(** ** Creation *)

(** Documented behaviour of the page services: [owned] is the pages the
    kernel has handed out; a failed call changes nothing. *)
Class PageLaws (S : Type) `{PageOps S} := {
  owned : S → list Z;
  alloc_law s : match alloc_page s with
    | (Ok p, s') => owned s' ≡ₚ p :: owned s
    | (Err _, s') => owned s' = owned s
    | _ => False
    end;
  free_law s p l : owned s ≡ₚ p :: l → owned (free_page s p) ≡ₚ l;
  vmap_law s ps : match vmap s ps with
    | (Ok v, s') => owned s' = owned s ∧ 0 ≤ v ∧ v mod 4096 = 0 ∧ v + 2 ^ 34 < 2 ^ 64
    | (Err _, s') => owned s' = owned s
    | _ => False
    end;
  vunmap_law s v n : owned (vunmap s v n) = owned s;
}.

Lemma drop_pages_owned {S} `{PageLaws S} ps s l :
  owned s ≡ₚ ps ++ l → owned (drop_pages s ps) ≡ₚ l.
Proof.
  revert s. induction ps as [|p ps IH]; intros s Hs; simpl in *; [done|].
  apply IH. by apply free_law.
Qed.

Lemma alloc_pages_spec {S} `{PageLaws S} n s ps l :
  owned s ≡ₚ ps ++ l →
  match alloc_pages n s ps with
  | (Ok ps', s') => owned s' ≡ₚ ps' ++ l ∧ length ps' = (length ps + n)%nat
  | (Err _, s') => owned s' ≡ₚ l
  | _ => False
  end.
Proof.
  revert s ps. induction n as [|n IH]; intros s ps Hs; simpl; [split; [done|lia]|].
  pose proof (alloc_law s) as Ha. destruct (alloc_page s) as [[p|e| |] s']; try done.
  - specialize (IH s' (ps ++ [p])). rewrite length_app in IH. simpl in IH.
    assert (owned s' ≡ₚ (ps ++ [p]) ++ l) as Hs'.
    { rewrite Ha, Hs, <- app_assoc. simpl. apply Permutation_middle. }
    specialize (IH Hs'). destruct (alloc_pages n s' (ps ++ [p])) as [[ps'|e| |] s'']; try done.
    split; [tauto|]. destruct IH as [_ ->]. lia.
  - apply drop_pages_owned. by rewrite Ha.
Qed.

(** A valid request: no key and value, a page-aligned power of two. *)
Definition valid_meta (m : BpfMapMeta) : Prop :=
  Z.land (map_flags m) (Z.lnot NUMA_NODE) = 0 ∧ key_size m = 0 ∧ value_size m = 0 ∧
  ∃ k, 12 ≤ k ≤ 31 ∧ max_entries m = 2 ^ k.

Lemma pow2_test n :
  0 ≤ n < 2 ^ 32 → is_power_of_two n = true → is_page_aligned n = true → ∃ k, 12 ≤ k ≤ 31 ∧ n = 2 ^ k.
Proof.
  unfold is_power_of_two, is_page_aligned. intros Hn [H0%Z.ltb_lt H1%Z.eqb_eq]%andb_true_iff H2%Z.eqb_eq.
  change 4096 with (2 ^ 12) in H2. rewrite land_mask in H2 by lia.
  pose proof (Z.log2_spec n H0) as Hlog. pose proof (Z.log2_nonneg n) as Hk0. remember (Z.log2 n) as k eqn:Hkdef. clear Hkdef.
  assert (n = 2 ^ k) as Hnk.
  { destruct (Z.eq_dec n (2 ^ k)) as [|Hne]; [done|]. exfalso.
    assert (Z.testbit (Z.land n (n - 1)) k = true) as Hb; [|by rewrite H1, Z.bits_0 in Hb].
    rewrite Z.land_spec. rewrite Z.pow_succ_r in Hlog by done.
    assert (∀ m, 2 ^ k ≤ m < 2 * 2 ^ k → Z.testbit m k = true) as Ht.
    { intros m Hm. rewrite Z.testbit_true by done.
      rewrite <- (Z.div_unique m (2 ^ k) 1 (m - 2 ^ k)) by lia. done. }
    rewrite !Ht by lia. done. }
  exists k. split; [|done]. rewrite Hnk in *. split.
  - destruct (Z.le_gt_cases 12 k) as [|Hk]; [done|]. exfalso.
    pose proof (Z.pow_lt_mono_r 2 k 12 ltac:(lia) ltac:(lia) ltac:(lia)).
    rewrite Z.mod_small in H2 by lia. lia.
  - destruct (Z.le_gt_cases k 31) as [|Hk]; [done|]. exfalso.
    pose proof (Z.pow_le_mono_r 2 32 k ltac:(lia) ltac:(lia)). lia.
Qed.

(** C38: creating and dropping a ring buffer conserves physical pages: on
    every error path (bad attributes, a page that cannot be allocated, a
    failed mapping) the kernel owns the pages it owned before; on success the
    ring owns [3 + max_entries / 4096] fresh pages, maps the data pages twice
    in a row, satisfies the ring invariant with no records, and dropping it
    returns every page. *)
Theorem ringbuf_pages_conserved {S} `{PageLaws S} m init_data s :
  0 ≤ max_entries m < 2 ^ 32 → dlen init_data = max_entries m →
  match RingBuf_new m init_data s with
  | (Ok (base, rb), s') =>
      valid_meta m ∧ ring_inv base rb [] ∧
      Z.of_nat (length (pages rb)) = 3 + max_entries m / 4096 ∧
      phy_addrs rb = pages rb ++ drop 3 (pages rb) ∧
      owned s' ≡ₚ pages rb ++ owned s ∧ owned (RingBuf_drop base rb s') ≡ₚ owned s
  | (Err _, s') => owned s' ≡ₚ owned s
  | _ => False
  end.
Proof.
  intros Hmax Hlen. unfold RingBuf_new.
  destruct (Z.eqb_spec (Z.land (map_flags m) (Z.lnot NUMA_NODE)) 0) as [Hfl|]; [|simpl; reflexivity].
  destruct (Z.eqb_spec (key_size m) 0) as [Hk|]; [|simpl; reflexivity].
  destruct (Z.eqb_spec (value_size m) 0) as [Hv|]; [|simpl; reflexivity].
  destruct (is_power_of_two (max_entries m)) eqn:Hp2; [|simpl; reflexivity].
  destruct (is_page_aligned (max_entries m)) eqn:Hal; [|simpl; reflexivity]. cbn [negb orb].
  destruct (pow2_test _ Hmax Hp2 Hal) as (k & Hk' & Hpow).
  set (nr := (Z.to_nat RINGBUF_NR_META_PAGES + Z.to_nat (Z.shiftr (max_entries m) PAGE_SHIFT))%nat).
  pose proof (alloc_pages_spec nr s [] (owned s) ltac:(done)) as Ha.
  destruct (alloc_pages nr s []) as [[ps|e| |] s1]; try done. destruct Ha as [Ho Hn].
  pose proof (vmap_law s1 (mapping_of (Z.to_nat RINGBUF_NR_META_PAGES) ps)) as Hm.
  destruct (vmap s1 _) as [[v|e| |] s2]; try done.
  - destruct Hm as (Hm & Hv0 & Hv1 & Hv2). split; [unfold valid_meta; eauto 7|].
    split; [|split; [|split; [|split]]]; simpl.
    + assert (0 < 2 ^ k) by (apply Z.pow_pos_nonneg; lia).
      split; simpl; try done; [|lia]. split; simpl; [exists k; split; [done|lia]|lia|done].
    + rewrite Hn. unfold nr, PAGE_SHIFT. change RINGBUF_NR_META_PAGES with 3. rewrite Z.shiftr_div_pow2 by lia.
      change (2 ^ 12) with 4096. pose proof (Z.div_pos (max_entries m) 4096).
      simpl length. lia.
    + done.
    + by rewrite Hm.
    + unfold RingBuf_drop. apply drop_pages_owned. rewrite vunmap_law. simpl. by rewrite Hm.
  - apply drop_pages_owned. by rewrite Hm.
Qed.

(** A kernel with [n] free pages, handed out in order. *)
Record ListKernel := { lk_next : Z; lk_left : nat; lk_owned : list Z }.
#[export] Instance ListKernel_ops : PageOps ListKernel := {
  alloc_page k :=
    match lk_left k with
    | O => (Err ENOMEM, k)
    | S n => (Ok (lk_next k), {| lk_next := lk_next k + 4096; lk_left := n; lk_owned := lk_next k :: lk_owned k |})
    end;
  free_page k p := {| lk_next := lk_next k; lk_left := S (lk_left k);
                      lk_owned := match list_find (p =.) (lk_owned k) with
                                  | Some (i, _) => delete i (lk_owned k)
                                  | None => lk_owned k
                                  end |};
  vmap k _ := (Ok 65536, k);
  vunmap k _ _ := k;
}.
#[export] Instance ListKernel_laws : PageLaws ListKernel.
Proof.
  refine {| owned := lk_owned |}; simpl.
  - by intros [nx [|n] l]; simpl.
  - intros [nx n o] p l Hl. simpl in *. destruct (list_find (p =.) o) as [[i q]|] eqn:Hf.
    + apply list_find_Some in Hf as (Hi & <- & _).
      rewrite (delete_Permutation _ _ _ Hi) in Hl. by apply Permutation_cons_inv in Hl.
    + exfalso. apply list_find_None in Hf. rewrite Forall_forall in Hf.
      apply (Hf p); [|done]. rewrite Hl. left.
  - intros k _. repeat split; lia.
  - done.
Defined.

Definition demo_meta : BpfMapMeta :=
  {| map_type := BPF_MAP_TYPE_RINGBUF; key_size := 0; value_size := 0; max_entries := 4096;
     map_flags := 0; map_name := [] |}.

Lemma ringbuf_pages_conserved_witness :
  let s := {| lk_next := 0; lk_left := 3; lk_owned := [] |} in
  match RingBuf_new demo_meta (repeat 0 4096) s with
  | (Ok (base, rb), s') =>
      valid_meta demo_meta ∧ ring_inv base rb [] ∧
      Z.of_nat (length (pages rb)) = 3 + max_entries demo_meta / 4096 ∧
      phy_addrs rb = pages rb ++ drop 3 (pages rb) ∧
      owned s' ≡ₚ pages rb ++ owned s ∧ owned (RingBuf_drop base rb s') ≡ₚ owned s
  | (Err _, s') => owned s' ≡ₚ owned s
  | _ => False
  end.
Proof.
  intros s. apply (ringbuf_pages_conserved demo_meta (repeat 0 4096) s).
  - simpl. lia.
  - reflexivity.
Defined.

(** ** Producing and consuming *)

(** C12: [bpf_ringbuf_output] on any ring that satisfies the invariant:
    unknown flags are EINVAL; a record that is too large or does not fit in
    the free space is EAGAIN and changes nothing; otherwise the record is
    appended, committed, with its bytes, the invariant holds again, only this
    ring of the heap changes, and the waker is called exactly when forced or
    when the consumer had caught up and NO_WAKEUP is not given. *)
Theorem ringbuf_output_correct `{BuildMode} h base rb rs xs flags :
  h !! base = Some rb → ring_inv base rb rs →
  Z.of_nat (length xs) < 2 ^ 64 → producer_pos rb + 2 ^ 31 < 2 ^ 64 →
  match from_bits RINGBUF_FLAGS_ALL flags with
  | None => bpf_ringbuf_output h (Some base) xs flags = Err EINVAL
  | Some fl =>
      if fits rb rs (Z.of_nat (length xs)) then
        ∃ rb', bpf_ringbuf_output h (Some base) xs flags = Ok (<[base := rb']> h) ∧
          ring_inv base rb' (rs ++ [sent_rec xs]) ∧ consumer_pos rb' = consumer_pos rb ∧
          wakeups rb' = (wakeups rb + if wakes fl (bool_decide (rs = [])) then 1 else 0)%nat
      else bpf_ringbuf_output h (Some base) xs flags = Err EAGAIN
  end.
Proof.
  intros Hh Hinv Hx Hp. rewrite (output_spec h base rb rs) by done.
  destruct (from_bits RINGBUF_FLAGS_ALL flags) as [fl|]; [|done].
  destruct (fits rb rs _) eqn:Hf; [|done]. eexists. split; [done|].
  split; [by apply sent_inv|]. unfold sent, committed.
  destruct (wakes fl _); simpl; (split; [done|lia]).
Qed.

(** A fresh ring of one page at address 65536. *)
Definition demo_ring : RingBuf :=
  {| nr_pages := 4; mask := 4095; pages := []; phy_addrs := []; consumer_pos := 0;
     producer_pos := 0; data := repeat 0 4096; wakeups := 0 |}.
Definition demo_heap : Heap := {[ 65536 := demo_ring ]}.

Lemma demo_ring_inv : ring_inv 65536 demo_ring [].
Proof.
  split; simpl; try done. split; simpl; [exists 12; split; [lia|done]|done|split; [lia|done]].
Qed.

Lemma ringbuf_output_correct_witness :
  let _ : BuildMode := true in
  ∃ rb', bpf_ringbuf_output demo_heap (Some 65536) [1; 2; 3] 0 = Ok (<[65536 := rb']> demo_heap) ∧
    ring_inv 65536 rb' [sent_rec [1; 2; 3]] ∧ consumer_pos rb' = 0 ∧ wakeups rb' = 1%nat.
Proof.
  intros m. pose proof (ringbuf_output_correct demo_heap 65536 demo_ring [] [1; 2; 3] 0) as H.
  exact (H eq_refl demo_ring_inv ltac:(simpl; lia) ltac:(simpl; lia)).
Defined.

(** Whatever was already readable from the consumer position stays readable
    in the same order, and the bytes just sent come right after it. *)
Lemma ringbuf_fifo `{BuildMode} h base rb rs xs flags h' rb' :
  h !! base = Some rb → ring_inv base rb rs →
  Forall filled rs → Forall (λ r, rc_state r ≠ Busy) rs →
  Z.of_nat (length xs) < 2 ^ 64 → producer_pos rb + 2 ^ 31 < 2 ^ 64 →
  bpf_ringbuf_output h (Some base) xs flags = Ok h' → h' !! base = Some rb' →
  consume rb' = consume rb ++ [xs].
Proof.
  intros Hh Hinv Hfill Hbusy Hx Hp Hout Hb. rewrite (output_spec h base rb rs) in Hout by done.
  destruct (from_bits RINGBUF_FLAGS_ALL flags) as [fl|]; [|done].
  destruct (fits rb rs _) eqn:Hf; [|done]. injection Hout as <-.
  rewrite lookup_insert_eq in Hb. injection Hb as <-.
  rewrite (consume_inv base rb rs) by done.
  rewrite (consume_inv base _ (rs ++ [sent_rec xs])).
  - by rewrite delivered_app.
  - by apply sent_inv.
  - apply Forall_app_2; [done|]. constructor; [|constructor]. intros _. by eexists.
Qed.

(** C13: [commit] needs nothing but the sample pointer: for any reserved
    record of any ring of the heap it finds that ring through the page offset
    of the record's header, turns exactly that record from busy into
    committed or discarded, keeps every other record and every other ring,
    and wakes the consumer exactly when forced or when the record is the
    first unconsumed one and NO_WAKEUP is not given. *)
Theorem ringbuf_commit_correct `{BuildMode} h base rb rs1 r rs2 n flags discard :
  h !! base = Some rb → ring_inv base rb (rs1 ++ r :: rs2) → rc_state r = Busy →
  let p := consumer_pos rb + spans rs1 in
  ∃ rb', commit h {| s_blk := base; s_off := p mod dlen (data rb) + 8; s_len := n |} flags discard =
           Ok (<[base := rb']> h) ∧
    ring_inv base rb' (rs1 ++ set_state r (commit_state discard) :: rs2) ∧
    wakeups rb' = (wakeups rb + if wakes flags (bool_decide (rs1 = [])) then 1 else 0)%nat.
Proof.
  intros Hh Hinv Hst p. rewrite (commit_spec h base rb rs1 r rs2) by done.
  eexists. split; [done|]. split; [by apply commit_inv|].
  unfold committed. destruct (wakes flags _); simpl; lia.
Qed.

Lemma ringbuf_commit_correct_witness :
  let _ : BuildMode := true in
  let rb := reserved demo_ring 16 in
  ∃ rb', commit {[ 65536 := rb ]} {| s_blk := 65536; s_off := 0 mod dlen (data rb) + 8; s_len := 1 |} 1 true =
           Ok (<[65536 := rb']> {[ 65536 := rb ]}) ∧
    ring_inv 65536 rb' [set_state (busy_rec 16) Discarded] ∧ wakeups rb' = 0%nat.
Proof.
  intros m rb.
  assert (ring_inv 65536 rb ([] ++ busy_rec 16 :: [])) as Hi.
  { apply (reserved_inv 65536 demo_ring [] 16 demo_ring_inv); [rewrite max_record; lia|vm_compute; congruence]. }
  exact (ringbuf_commit_correct {[ 65536 := rb ]} 65536 rb [] (busy_rec 16) [] 1 1 true
    ltac:(apply lookup_singleton_eq) Hi eq_refl).
Defined.

(** ** A hostile consumer *)

(** The 8-byte alignment of a release-build reservation. *)
Lemma align_record_bound `{BuildMode} t :
  overflow_checks = false → 8 ≤ t < 2 ^ 32 → ∃ a, align_record t = Ok a ∧ t ≤ a < t + 8.
Proof.
  intros _ Ht. exists (span_of (t - 8)). destruct (span_bounds (t - 8)) as [Hb _]; [lia|].
  replace t with (t - 8 + 8) at 1 by lia. rewrite align_record_spec by lia. split; [done|lia].
Qed.

Lemma arith_release `{BuildMode} {E} w z : overflow_checks = false → @arith _ E w z = Ok (wrapu w z).
Proof.
  intros Hr. unfold arith. rewrite Hr. destruct (in_u w z) eqn:Hi; [|done].
  apply in_u_spec in Hi. by rewrite wrapu_small.
Qed.

(** C39: the consumer position is mapped writable in user space.  Whatever
    64-bit value user space stores there, a release build's reservation
    returns EINVAL, ENOMEM or a payload slice inside the mapped data area,
    and the ring keeps its shape: no access leaves the mapping. *)
Theorem ringbuf_reserve_hostile `{BuildMode} base rb size :
  overflow_checks = false → ring_shape base rb →
  0 ≤ producer_pos rb < 2 ^ 64 → 0 ≤ size < 2 ^ 64 →
  safe (reserve base rb size)
    (λ '(s, rb'), s_blk s = base ∧ s_len s = size ∧ 8 ≤ s_off s ∧
       s_off s + s_len s ≤ 2 * (mask rb + 1) ∧ ring_shape base rb' ∧ consumer_pos rb' = consumer_pos rb)
    (λ e, e = EINVAL ∨ e = ENOMEM).
Proof.
  intros Hrel Hsh Hp Hs. destruct (shape_mask _ _ Hsh) as [Hm Hd]. pose proof (sh_len _ _ Hsh) as Hlen.
  unfold reserve. destruct (Z.ltb_spec RINGBUF_MAX_RECORD_SZ size) as [|Hmax]; [by left|].
  rewrite max_record in Hmax. unfold BPF_RINGBUF_HDR_SZ. rewrite (arith_ok 64 (size + 8)) by lia. cbn [mbind res_bind].
  destruct (align_record_bound (size + 8) Hrel ltac:(lia)) as (a & -> & Ha). cbn [mbind res_bind].
  unfold total_data_size. rewrite (arith_ok 64 (mask rb + 1)) by lia. cbn [mbind res_bind].
  destruct (Z.ltb_spec (mask rb + 1) a); [by left|].
  rewrite arith_release by done. cbn [mbind res_bind].
  rewrite arith_release by done. cbn [mbind res_bind]. case_match; [by right|].
  rewrite (shape_land base) by done. pose proof (Z.mod_pos_bound (producer_pos rb) (dlen (data rb)) Hd).
  rewrite (proj2 (Z.ltb_ge _ _)) by lia. rewrite rec_pg_off_spec by lia. cbn [mbind res_bind].
  rewrite (proj2 (Z.ltb_ge _ _)) by lia. cbn [safe s_blk s_len s_off].
  split; [done|]. split; [done|]. split; [lia|]. split; [lia|]. split; [|done].
  destruct Hsh. split; simpl; rewrite ?dlen_dstore; done.
Qed.

Lemma ringbuf_reserve_hostile_witness :
  let _ : BuildMode := false in
  let rb := with_consumer demo_ring (2 ^ 64 - 1) in
  safe (reserve 65536 rb 16)
    (λ '(s, rb'), s_blk s = 65536 ∧ s_len s = 16 ∧ 8 ≤ s_off s ∧
       s_off s + s_len s ≤ 2 * (mask rb + 1) ∧ ring_shape 65536 rb' ∧ consumer_pos rb' = consumer_pos rb)
    (λ e, e = EINVAL ∨ e = ENOMEM).
Proof.
  intros m rb. apply (ringbuf_reserve_hostile 65536 rb 16); [reflexivity| |simpl; lia|lia].
  by destruct (ri_shape _ _ _ demo_ring_inv).
Defined.

(** With overflow checks the same store brings the kernel down: a consumer
    position ahead of the producer makes the subtraction panic. *)
Lemma reserve_underflow_panics :
  let _ : BuildMode := true in
  reserve 65536 (with_consumer demo_ring 4096) 8 = Panic ∧
  avail_data_size (with_consumer demo_ring 4096) = Panic.
Proof. split; vm_compute; reflexivity. Qed.

(** [bpf_ringbuf_reserve_dynptr] on a map of another kind reports EINVAL but
    leaves the dynptr as it was, although the caller must still submit it. *)
Lemma reserve_dynptr_leaves_garbage `{BuildMode} h size dp :
  size ≤ DYNPTR_MAX_SIZE → bpf_ringbuf_reserve_dynptr h None size dp = (Err EINVAL, h, dp).
Proof.
  intros Hs. unfold bpf_ringbuf_reserve_dynptr, check_size. by rewrite (proj2 (Z.ltb_ge _ _)).
Qed.

(** [map_mmap] of more pages than are mapped is an out-of-range slice. *)
Lemma mmap_out_of_range : let _ : BuildMode := false in map_mmap demo_ring 0 4096 = Panic.
Proof. reflexivity. Qed.

(** A dynamic-pointer reservation followed by its submission or discard:
    the reservation fills the dynptr with the record's payload, and the
    second call commits that record and resets the dynptr to null; on a null
    dynptr (a failed reservation) the second call is a no-op. *)
Lemma ringbuf_dynptr_protocol `{BuildMode} h base rb rs size dp flags discard :
  h !! base = Some rb → ring_inv base rb rs → 0 ≤ size < 2 ^ 32 →
  producer_pos rb + 2 ^ 31 < 2 ^ 64 → is_Some (from_bits RINGBUF_FLAGS_ALL flags) →
  let '(r, h1, dp1) := bpf_ringbuf_reserve_dynptr h (Some base) size dp in
  let '(r2, h2, dp2) := commit_dynptr h1 dp1 flags discard in
  r2 = Ok () ∧ dp2 = dynptr_null ∧
  if (size <=? DYNPTR_MAX_SIZE) && fits rb rs size then
    r = Ok () ∧ ∃ rb', h2 = <[base := rb']> h ∧
      ring_inv base rb' (rs ++ [set_state (busy_rec size) (commit_state discard)])
  else r = Err EINVAL ∧ h2 = h.
Proof.
  intros Hh Hinv Hs Hp [fl Hfl]. unfold bpf_ringbuf_reserve_dynptr, check_size.
  assert (∀ hh, commit_dynptr hh dynptr_null flags discard = (Ok (), hh, dynptr_null)) as Hnull by done.
  destruct (Z.ltb_spec DYNPTR_MAX_SIZE size) as [Hbig|Hsmall].
  { rewrite Hnull, (proj2 (Z.leb_gt _ _)) by lia. done. }
  rewrite (proj2 (Z.leb_le _ _) Hsmall). unfold downcast. cbn [ok_or mbind res_bind]. rewrite Hh.
  cbn [unwrap mbind res_bind]. rewrite (reserve_spec base rb rs) by (done || lia).
  destruct (shape_mask _ _ (ri_shape _ _ _ Hinv)) as [Hm Hd].
  pose proof (spans_nonneg _ (ri_recs _ _ _ Hinv)).
  assert (DYNPTR_MAX_SIZE = 2 ^ 24 - 1) as Hdm by done. pose proof max_record.
  unfold fits. rewrite (proj2 (Z.ltb_ge RINGBUF_MAX_RECORD_SZ _)) by lia.
  rewrite (proj2 (Z.leb_le size RINGBUF_MAX_RECORD_SZ)) by lia. cbn [orb andb].
  destruct (Z.ltb_spec (mask rb + 1) (span_of size)).
  { rewrite (proj2 (Z.leb_gt _ _)) by lia. by rewrite Hnull. }
  destruct (Z.ltb_spec (mask rb) (spans rs + span_of size)) as [|Hroom].
  { rewrite (proj2 (Z.leb_gt _ _)) by lia. by rewrite Hnull. }
  rewrite (proj2 (Z.leb_le _ _) Hroom). unfold commit_dynptr, dynptr_init. cbn [dp_data s_blk s_off].
  rewrite Hfl. cbn [ok_or mbind res_bind].
  pose proof (reserved_inv base rb rs size Hinv ltac:(lia) Hroom) as Hres.
  pose proof (commit_spec (<[base := reserved rb size]> h) base _ rs (busy_rec size) [] 1 fl discard
    ltac:(apply lookup_insert_eq) Hres eq_refl) as Hc. cbv zeta in Hc.
  change (consumer_pos (reserved rb size)) with (consumer_pos rb) in Hc.
  rewrite <- (ri_prod _ _ _ Hinv) in Hc.
  assert (dlen (data (reserved rb size)) = dlen (data rb)) as Hdl by (simpl; by rewrite dlen_dstore).
  rewrite Hdl in Hc. rewrite Hc, insert_insert_eq. split; [done|]. split; [done|]. split; [done|].
  eexists. split; [done|].
  pose proof (commit_inv _ _ rs _ [] (commit_state discard) (wakes fl (bool_decide (rs = []))) Hres) as Hci.
  change (consumer_pos (reserved rb size)) with (consumer_pos rb) in Hci.
  rewrite <- (ri_prod _ _ _ Hinv) in Hci. exact Hci.
Qed.
