(* ===== verification/RingSystem.v ===== *)
(** The ring buffer as a whole: any interleaving of reservations, stores
    into reserved payloads, commits, outputs, queries and reads by user space
    on one ring is an interleaving of operations on a queue of records.

    A BPF program holds what a reservation gave it until it commits it: the
    payload pointer, or a dynptr.  [ring_step] runs one operation of the
    program or of user space with the functions of helper/ringbuf.rs;
    [queue_step] is the specification. *)
From S2P Require Import Prelude BpfBase RingMem RingBuf RingBufProps.

Inductive RingOp :=
  | Reserve (dynamic : bool) (size : Z)      (* bpf_ringbuf_reserve, .._reserve_dynptr *)
  | Fill (k : nat) (xs : str)                (* the program stores the payload *)
  | Commit (k : nat) (flags : Z) (discard : bool) (* submit or discard, by what [k] is *)
  | Output (xs : str) (flags : Z)
  | Query (flags : Z)
  | Poll                                     (* [readable] *)
  | UserRead.                                (* user space takes the next record *)

Inductive Reply :=
  | Done (r : BpfResult ()) (woken : bool)
  | Value (r : BpfResult Z)
  | Ready (b : bool)
  (* nothing to read yet; a discarded record; a sample *)
  | Sample (o : option (option str)).

(** ** The system *)

(** What the program holds for its [k]-th record. *)
Inductive Ticket := Pointer (s : Slice) | Dynptr (dp : BpfDynPtr) | Sent.

Definition ticket_slice (t : Ticket) : option Slice :=
  match t with Pointer s => Some s | Dynptr dp => dp_data dp | Sent => None end.

Definition settle {A} (r : BpfResult A) : BpfResult () :=
  match r with Ok _ => Ok () | Err e => Err e | Panic => Panic | OutOfFuel => OutOfFuel end.

(** User space on the mapped pages: it stops at a busy record, skips a
    discarded one and moves the consumer position behind what it read. *)
Definition user_read (rb : RingBuf) : option (option str) * RingBuf :=
  let p := consumer_pos rb in
  if p =? producer_pos rb then (None, rb) else
  let len := le_dec (dread (data rb) p 4) in
  if Z.testbit len 31 then (None, rb) else
  let size := Z.land len (2 ^ 30 - 1) in
  (Some (if Z.testbit len 30 then None else Some (dread (data rb) (p + 8) (Z.to_nat size))),
   with_consumer rb (p + span_of size)).

Definition waker_calls (h : Heap) (base : Z) : nat :=
  match h !! base with Some rb => wakeups rb | None => 0%nat end.

Section system.
Context `{BuildMode} (base : Z).

(** The reply of a call that ended with [r] and left the heap [h']. *)
Definition reply {A} (h h' : Heap) (r : BpfResult A) : Reply :=
  Done (settle r) (Nat.ltb (waker_calls h base) (waker_calls h' base)).

Definition do_reserve (h : Heap) (held : list Ticket) (dynamic : bool) (size : Z) : Reply * Heap * list Ticket :=
  if dynamic then
    let '(r, h', dp) := bpf_ringbuf_reserve_dynptr h (Some base) size dynptr_null in
    (reply h h' r, h', match r with Ok _ => held ++ [Dynptr dp] | _ => held end)
  else
    match bpf_ringbuf_reserve h (Some base) size with
    | Ok (s, h') => (reply h h' (Ok ()), h', held ++ [Pointer s])
    | r => (reply h h r, h, held)
    end.

Definition do_fill (h : Heap) (held : list Ticket) (k : nat) (xs : str) : Reply * Heap * list Ticket :=
  let r := s ← unwrap (held !! k ≫= ticket_slice); copy_from_slice h s xs in
  (reply h (heap_after h r) r, heap_after h r, held).

Definition do_commit (h : Heap) (held : list Ticket) (k : nat) (flags : Z) (discard : bool)
    : Reply * Heap * list Ticket :=
  match held !! k with
  | Some (Pointer s) =>
      let r := if discard then bpf_ringbuf_discard h s flags else bpf_ringbuf_submit h s flags in
      (reply h (heap_after h r) r, heap_after h r, held)
  | Some (Dynptr dp) =>
      let '(r, h', dp') := if discard then bpf_ringbuf_discard_dynptr h dp flags
                           else bpf_ringbuf_submit_dynptr h dp flags in
      (reply h h' r, h', <[k := Dynptr dp']> held)
  | _ => (Done Panic false, h, held)
  end.

Definition on_ring (h : Heap) (held : list Ticket) (f : RingBuf → Reply * RingBuf) : Reply * Heap * list Ticket :=
  match h !! base with
  | Some rb => let '(r, rb') := f rb in (r, <[base := rb']> h, held)
  | None => (Done Panic false, h, held)
  end.

Definition ring_step (h : Heap) (held : list Ticket) (op : RingOp) : Reply * Heap * list Ticket :=
  match op with
  | Reserve dynamic size => do_reserve h held dynamic size
  | Fill k xs => do_fill h held k xs
  | Commit k flags discard => do_commit h held k flags discard
  | Output xs flags =>
      let r := bpf_ringbuf_output h (Some base) xs flags in
      (reply h (heap_after h r) r, heap_after h r,
       match r with Ok _ => held ++ [Sent] | _ => held end)
  | Query flags => (Value (bpf_ringbuf_query h (Some base) flags), h, held)
  | Poll => on_ring h held (λ rb, (Ready (readable rb), rb))
  | UserRead => on_ring h held (λ rb, let '(o, rb') := user_read rb in (Sample o, rb'))
  end.

Fixpoint ring_run (h : Heap) (held : list Ticket) (ops : list RingOp) : list Reply * Heap :=
  match ops with
  | [] => ([], h)
  | op :: ops =>
      let '(r, h', held') := ring_step h held op in
      let '(rs, h'') := ring_run h' held' ops in (r :: rs, h'')
  end.
End system.

(** ** The specification *)

(** Every record ever reserved, in order, and how many user space has read. *)
Record Queue := { q_log : list Rec; q_read : nat }.
Definition empty_queue : Queue := {| q_log := []; q_read := 0 |}.
Definition unread (q : Queue) : list Rec := drop (q_read q) (q_log q).
Definition push (q : Queue) (r : Rec) : Queue := {| q_log := q_log q ++ [r]; q_read := q_read q |}.
Definition update (q : Queue) (k : nat) (f : Rec → Rec) : Queue :=
  {| q_log := alter f k (q_log q); q_read := q_read q |}.
Definition next (q : Queue) : Queue := {| q_log := q_log q; q_read := S (q_read q) |}.

Section spec.
(** The size of the ring less one, and the position it started from. *)
Context (M c0 : Z).

Definition too_large (size : Z) : bool := (RINGBUF_MAX_RECORD_SZ <? size) || (M + 1 <? span_of size).
Definition no_room (q : Queue) (size : Z) : bool := M <? spans (unread q) + span_of size.

Definition queue_step (q : Queue) (op : RingOp) : Reply * Queue :=
  match op with
  | Reserve dynamic size =>
      if dynamic && (DYNPTR_MAX_SIZE <? size) || too_large size then (Done (Err EINVAL) false, q)
      else if no_room q size then (Done (Err (if dynamic then EINVAL else ENOMEM)) false, q)
      else (Done (Ok ()) false, push q (busy_rec size))
  | Fill k xs => (Done (Ok ()) false, update q k (λ r, set_payload r xs))
  | Commit k flags discard =>
      match from_bits RINGBUF_FLAGS_ALL flags with
      | None => (Done (Err EINVAL) false, q)
      | Some fl => (Done (Ok ()) (wakes fl (k =? q_read q)%nat),
                    update q k (λ r, set_state r (commit_state discard)))
      end
  | Output xs flags =>
      match from_bits RINGBUF_FLAGS_ALL flags with
      | None => (Done (Err EINVAL) false, q)
      | Some fl =>
          if too_large (Z.of_nat (length xs)) || no_room q (Z.of_nat (length xs))
          then (Done (Err EAGAIN) false, q)
          else (Done (Ok ()) (wakes fl (length (q_log q) =? q_read q)%nat), push q (sent_rec xs))
      end
  | Query flags =>
      (Value (Ok (if flags =? 0 then spans (unread q)
                  else if flags =? 1 then M + 1
                  else if flags =? 2 then c0 + spans (take (q_read q) (q_log q))
                  else if flags =? 3 then c0 + spans (q_log q)
                  else 0)), q)
  | Poll => (Ready (negb (q_read q =? length (q_log q))%nat), q)
  | UserRead =>
      match unread q with
      | [] => (Sample None, q)
      | r :: _ =>
          match rc_state r with
          | Busy => (Sample None, q)
          | Committed => (Sample (Some (rc_payload r)), next q)
          | Discarded => (Sample (Some None), next q)
          end
      end
  end.

Fixpoint queue_run (q : Queue) (ops : list RingOp) : list Reply * Queue :=
  match ops with
  | [] => ([], q)
  | op :: ops =>
      let '(r, q') := queue_step q op in
      let '(rs, q'') := queue_run q' ops in (r :: rs, q'')
  end.

(** What the BPF verifier enforces of a program: it stores into and commits
    only what it holds, stores no more and no less than the payload, submits
    a payload it has written, and passes sizes that are 64-bit words. *)
Definition lawful (q : Queue) (op : RingOp) : Prop :=
  match op with
  | Reserve _ size => 0 ≤ size < 2 ^ 64
  | Fill k xs => ∃ r, q_log q !! k = Some r ∧ rc_state r = Busy ∧ Z.of_nat (length xs) = rc_size r
  | Commit k _ discard =>
      ∃ r, q_log q !! k = Some r ∧ rc_state r = Busy ∧ (discard = false → is_Some (rc_payload r))
  | Output xs _ => Z.of_nat (length xs) < 2 ^ 64
  | _ => True
  end.

Fixpoint all_lawful (q : Queue) (ops : list RingOp) : Prop :=
  match ops with
  | [] => True
  | op :: ops => lawful q op ∧ all_lawful (queue_step q op).2 ops
  end.
End spec.

(** The samples user space received. *)
Definition samples (rs : list Reply) : list str :=
  omap (λ r, match r with Sample (Some (Some xs)) => Some xs | _ => None end) rs.

(** ** Facts about the queue *)

Lemma alter_split {A} (f : A → A) (k : nat) l r :
  l !! k = Some r → alter f k l = take k l ++ f r :: drop (S k) l.
Proof.
  revert k. induction l as [|x l IH]; intros [|k] Hk; simplify_eq/=; [by rewrite drop_0|].
  f_equal. by apply IH.
Qed.

(** A change of a record that keeps its size moves no other record. *)
Lemma spans_take_alter f k j rs :
  (∀ r, rc_size (f r) = rc_size r) → spans (take j (alter f k rs)) = spans (take j rs).
Proof.
  intros Hf. revert k j. induction rs as [|r rs IH]; intros [|k] [|j]; simpl; try done.
  - unfold rec_span. by rewrite Hf.
  - by rewrite <- (IH k j).
Qed.

Lemma spans_alter f k rs : (∀ r, rc_size (f r) = rc_size r) → spans (alter f k rs) = spans rs.
Proof.
  intros Hf. pose proof (spans_take_alter f k (length rs) rs Hf) as Hs.
  by rewrite !firstn_all2 in Hs by (rewrite ?length_alter; lia).
Qed.

Lemma fits_room rb rs M n :
  mask rb = M → 0 ≤ spans rs → 0 ≤ n →
  fits rb rs n = negb ((RINGBUF_MAX_RECORD_SZ <? n) || (M + 1 <? span_of n) || (M <? spans rs + span_of n)).
Proof.
  intros <- Hs Hn. unfold fits. destruct (span_bounds n Hn) as [Hb _]. pose proof max_record.
  repeat match goal with
         | |- context [(?a <? ?b)] => destruct (Z.ltb_spec a b)
         | |- context [(?a <=? ?b)] => destruct (Z.leb_spec a b)
         end; simpl; try done; lia.
Qed.

Lemma unread_nil q : (q_read q ≤ length (q_log q))%nat →
  bool_decide (unread q = []) = (length (q_log q) =? q_read q)%nat.
Proof.
  intros Hr. apply eq_bool_prop_intro. unfold unread.
  rewrite bool_decide_spec, Is_true_true, Nat.eqb_eq, <- length_zero_iff_nil, length_drop. lia.
Qed.

(** What user space takes, by the first unread record. *)
Lemma user_read_spec base rb rs :
  ring_inv base rb rs → Forall filled rs →
  user_read rb =
    match rs with
    | [] => (None, rb)
    | r :: _ =>
        match rc_state r with
        | Busy => (None, rb)
        | Committed => (Some (rc_payload r), with_consumer rb (consumer_pos rb + rec_span r))
        | Discarded => (Some None, with_consumer rb (consumer_pos rb + rec_span r))
        end
    end.
Proof.
  intros [Hsh Hc Hp Hr Hok Hlay] Hf. unfold user_read. destruct rs as [|r rs].
  { simpl in Hp. by rewrite Hp, Z.add_0_r, Z.eqb_refl. }
  apply Forall_cons in Hok as [Hr1 Hok], Hf as [Hf _]. pose proof (spans_nonneg _ Hok) as Hnn.
  destruct (span_bounds _ (proj1 Hr1)) as [Hb _]. pose proof (proj1 Hr1). simpl in Hp. unfold rec_span in *.
  destruct (Z.eqb_spec (consumer_pos rb) (producer_pos rb)); [lia|].
  destruct (shape_mask _ _ Hsh) as [Hm Hd]. pose proof (sh_len _ _ Hsh) as Hlen.
  destruct Hlay as (Lh & Lp & _).
  destruct (hdr_read _ _ _ _ (rec_len_range _ Hr1) (hdr_off_range (data rb) _ ltac:(lia)) Lh) as (-> & _ & _).
  destruct (rec_len_bits r Hr1) as [-> Hbits]. cbv zeta.
  destruct (rc_state r) eqn:Est; simpl bool_decide; cbv match; [done|..].
  all: destruct Hbits as [-> ->]; [done|]; simpl bool_decide; cbv match; try done.
  destruct (Hf Est) as [xs Hx]. unfold payload_at in Lp. rewrite Hx in Lp |- *.
  destruct Lp as [Hl Hdata]. by rewrite <- Hl, Nat2Z.id, Hdata.
Qed.

Lemma sent_woken rb rs xs fl :
  (wakeups rb <? wakeups (sent rb rs xs fl))%nat = wakes fl (bool_decide (rs = [])).
Proof.
  unfold sent, committed. destruct (wakes fl _); simpl; [apply Nat.ltb_lt; lia|apply Nat.ltb_irrefl].
Qed.

(** ** The simulation *)

Section refinement.
Context `{BuildMode} (base M c0 : Z) (h0 : Heap).

(** Where the [k]-th record's payload lies. *)
Definition payload_slice (log : list Rec) (k : nat) (r : Rec) (s : Slice) : Prop :=
  s_blk s = base ∧ s_off s = (c0 + spans (take k log)) mod (M + 1) + 8 ∧ s_len s = rc_size r.

Record rel (h : Heap) (held : list Ticket) (q : Queue) (rb : RingBuf) : Prop := {
  rl_heap : h = <[base := rb]> h0;
  rl_mask : mask rb = M;
  rl_inv : ring_inv base rb (unread q);
  rl_cons : consumer_pos rb = c0 + spans (take (q_read q) (q_log q));
  rl_read : (q_read q ≤ length (q_log q))%nat;
  rl_filled : Forall filled (q_log q);
  rl_done : Forall (λ r, rc_state r ≠ Busy) (take (q_read q) (q_log q));
  rl_held : length held = length (q_log q);
  rl_ticket : ∀ k t r, held !! k = Some t → q_log q !! k = Some r → rc_state r = Busy →
    ∃ s, ticket_slice t = Some s ∧ payload_slice (q_log q) k r s;
}.

Lemma reply_insert {A} rb rb' (r : BpfResult A) :
  reply base (<[base := rb]> h0) (<[base := rb']> h0) r = Done (settle r) (wakeups rb <? wakeups rb')%nat.
Proof. unfold reply, waker_calls. by rewrite !lookup_insert_eq. Qed.

Lemma reply_same {A} h (r : BpfResult A) : reply base h h r = Done (settle r) false.
Proof. unfold reply. by rewrite Nat.ltb_irrefl. Qed.

Lemma committed_woken rb p r (w : bool) : (wakeups rb <? wakeups (committed rb p r w))%nat = w.
Proof. unfold committed. destruct w; simpl; [apply Nat.ltb_lt; lia|apply Nat.ltb_irrefl]. Qed.

Lemma rel_prod h held q rb : rel h held q rb → producer_pos rb = c0 + spans (q_log q).
Proof.
  intros [_ _ Hinv Hc _ _ _ _ _]. rewrite (ri_prod _ _ _ Hinv), Hc.
  unfold unread. rewrite <- (take_drop (q_read q) (q_log q)) at 3. rewrite spans_app. lia.
Qed.

Lemma rel_dlen h held q rb : rel h held q rb → dlen (data rb) = M + 1.
Proof. intros Hr. rewrite <- (rl_mask _ _ _ _ Hr). apply (sh_len _ _ (ri_shape _ _ _ (rl_inv _ _ _ _ Hr))). Qed.

(** A record the program may still commit is unread. *)
Lemma busy_split h held q rb k r :
  rel h held q rb → q_log q !! k = Some r → rc_state r = Busy →
  (q_read q ≤ k)%nat ∧
  unread q = drop (q_read q) (take k (q_log q)) ++ r :: drop (S k) (q_log q) ∧
  consumer_pos rb + spans (drop (q_read q) (take k (q_log q))) = c0 + spans (take k (q_log q)).
Proof.
  intros Hrel Hk Hb. pose proof (lookup_lt_Some _ _ _ Hk) as Hlt.
  assert (q_read q ≤ k)%nat as Hle.
  { destruct (decide (q_read q ≤ k)%nat) as [|Hn]; [done|]. exfalso.
    apply (proj1 (Forall_lookup _ _) (rl_done _ _ _ _ Hrel) k r); [|done].
    by rewrite lookup_take_lt by lia. }
  split; [done|]. split.
  - unfold unread. rewrite <- (take_drop_middle _ _ _ Hk) at 1.
    rewrite drop_app_le; [done|]. rewrite length_take. lia.
  - rewrite (rl_cons _ _ _ _ Hrel), <- Z.add_assoc, <- spans_app. do 2 f_equal.
    rewrite <- (take_drop (q_read q) (take k (q_log q))) at 2. by rewrite take_take, Nat.min_l.
Qed.

Lemma update_unread q k f r :
  q_log q !! k = Some r → (q_read q ≤ k)%nat →
  unread (update q k f) = drop (q_read q) (take k (q_log q)) ++ f r :: drop (S k) (q_log q).
Proof.
  intros Hk Hle. pose proof (lookup_lt_Some _ _ _ Hk). unfold unread, update. simpl.
  rewrite (alter_split f k _ r Hk), drop_app_le; [done|]. rewrite length_take. lia.
Qed.

(** A change of a busy record. *)
Lemma rel_update h held held' q rb rb' k r f :
  rel h held q rb → q_log q !! k = Some r → rc_state r = Busy →
  (∀ x, rc_size (f x) = rc_size x) → filled (f r) →
  mask rb' = mask rb → consumer_pos rb' = consumer_pos rb →
  ring_inv base rb' (drop (q_read q) (take k (q_log q)) ++ f r :: drop (S k) (q_log q)) →
  length held' = length held → (∀ j, j ≠ k → held' !! j = held !! j) →
  (rc_state (f r) = Busy → held' = held) →
  rel (<[base := rb']> h) held' (update q k f) rb'.
Proof.
  intros Hrel Hk Hb Hsz Hfill Hm Hc Hinv Hlen Hne Hsame.
  destruct (busy_split _ _ _ _ _ _ Hrel Hk Hb) as (Hle & _ & _).
  destruct Hrel as [-> HM _ Hcons Hread Hf Hd Hheld Ht].
  split; simpl; try done.
  - by rewrite insert_insert_eq.
  - by rewrite Hm.
  - by rewrite (update_unread _ _ _ r).
  - rewrite Hc, Hcons. by rewrite spans_take_alter.
  - by rewrite length_alter.
  - apply Forall_alter; [done|]. intros x Hx _. rewrite Hk in Hx. by simplify_eq.
  - by rewrite take_alter_ge.
  - by rewrite length_alter, Hlen.
  - intros j t x Hj Hx Hbx. unfold payload_slice. rewrite spans_take_alter by done.
    destruct (decide (k = j)) as [<-|Hkj].
    + rewrite list_lookup_alter_eq, Hk in Hx. simplify_eq/=. rewrite Hsame in Hj by done.
      destruct (Ht k t r Hj Hk Hb) as (s & Hs & Hp). exists s. by rewrite Hsz.
    + rewrite list_lookup_alter_ne in Hx by done. rewrite Hne in Hj by done. by apply (Ht j t x).
Qed.

(** A record appended at the producer position. *)
Lemma rel_push h held q rb rb' t r :
  rel h held q rb → mask rb' = mask rb → consumer_pos rb' = consumer_pos rb →
  ring_inv base rb' (unread q ++ [r]) → filled r →
  (rc_state r = Busy → ∃ s, ticket_slice t = Some s ∧ s_blk s = base ∧
     s_off s = producer_pos rb mod dlen (data rb) + 8 ∧ s_len s = rc_size r) →
  rel (<[base := rb']> h) (held ++ [t]) (push q r) rb'.
Proof.
  intros Hrel Hm Hc Hinv Hfill Ht. rewrite (rel_prod _ _ _ _ Hrel), (rel_dlen _ _ _ _ Hrel) in Ht.
  destruct Hrel as [-> HM _ Hcons Hread Hf Hd Hheld Htk].
  split; simpl.
  - by rewrite insert_insert_eq.
  - by rewrite Hm.
  - unfold unread, push. simpl. rewrite drop_app_le by done. exact Hinv.
  - by rewrite Hc, Hcons, take_app_le.
  - rewrite length_app. lia.
  - apply Forall_app_2; [done|]. by constructor.
  - by rewrite take_app_le.
  - rewrite !length_app. simpl. lia.
  - intros k t' x Hk Hx Hb. unfold payload_slice.
    destruct (decide (k < length (q_log q))%nat) as [Hlt|Hge].
    + rewrite lookup_app_l in Hk by lia. rewrite lookup_app_l in Hx by lia.
      rewrite take_app_le by lia. by apply (Htk k t' x).
    + pose proof (lookup_lt_Some _ _ _ Hx) as Hl. rewrite length_app in Hl. simpl in Hl.
      assert (k = length (q_log q)) as -> by lia.
      rewrite list_lookup_middle in Hx by done. rewrite lookup_app_r, Hheld, Nat.sub_diag in Hk by lia.
      simplify_eq/=. rewrite take_app_length. by apply Ht.
Qed.

(** One step of the system against one step of the specification. *)
Definition agrees (q : Queue) (c : Reply * Heap * list Ticket) (s : Reply * Queue) : Prop :=
  c.1.1 = s.1 ∧ (∃ rb, rel c.1.2 c.2 s.2 rb) ∧ spans (q_log s.2) ≤ spans (q_log q) + 2 ^ 31.

Lemma agrees_stay h held q rb r : rel h held q rb → agrees q (r, h, held) (r, q).
Proof. intros Hrel. split; [done|]. split; [by exists rb|]. simpl. lia. Qed.

Lemma rel_lookup h held q rb : rel h held q rb → h !! base = Some rb.
Proof. intros Hrel. rewrite (rl_heap _ _ _ _ Hrel). apply lookup_insert_eq. Qed.

Lemma reserve_rel h held q rb size :
  rel h held q rb → 0 ≤ size < 2 ^ 64 → c0 + spans (q_log q) + 2 ^ 31 < 2 ^ 64 →
  reserve base rb size =
    if too_large M size then Err EINVAL
    else if no_room M q size then Err ENOMEM
    else Ok ({| s_blk := base; s_off := producer_pos rb mod dlen (data rb) + 8; s_len := size |},
             reserved rb size).
Proof.
  intros Hrel Hs Hp. rewrite (reserve_spec base rb (unread q)); [|by apply rl_inv in Hrel|done|].
  - by rewrite (rl_mask _ _ _ _ Hrel).
  - by rewrite (rel_prod _ _ _ _ Hrel).
Qed.

Lemma room_bounds h held q rb size :
  rel h held q rb → 0 ≤ size → too_large M size = false → no_room M q size = false →
  size ≤ RINGBUF_MAX_RECORD_SZ ∧ spans (unread q) + span_of size ≤ mask rb ∧ span_of size ≤ 2 ^ 31.
Proof.
  intros Hrel Hs [Hl1%Z.ltb_ge Hl2%Z.ltb_ge]%orb_false_iff Hr%Z.ltb_ge.
  pose proof (shape_mask _ _ (ri_shape _ _ _ (rl_inv _ _ _ _ Hrel))) as [Hm _].
  rewrite (rl_mask _ _ _ _ Hrel) in Hm |- *. lia.
Qed.

Lemma reserved_agrees h held q rb size t :
  rel h held q rb → 0 ≤ size → too_large M size = false → no_room M q size = false →
  ticket_slice t =
    Some {| s_blk := base; s_off := producer_pos rb mod dlen (data rb) + 8; s_len := size |} →
  agrees q (reply base h (<[base := reserved rb size]> h) (Ok ()), <[base := reserved rb size]> h, held ++ [t])
    (Done (Ok ()) false, push q (busy_rec size)).
Proof.
  intros Hrel Hs Hl Hr Ht. destruct (room_bounds _ _ _ _ _ Hrel Hs Hl Hr) as (Hmax & Hroom & Hb).
  split; simpl; [|split].
  - rewrite (rl_heap _ _ _ _ Hrel), insert_insert_eq, reply_insert. simpl. by rewrite Nat.ltb_irrefl.
  - eexists. apply (rel_push _ _ _ rb); try done.
    + by apply reserved_inv; [apply (rl_inv _ _ _ _ Hrel)| |].
    + intros _. by eexists.
  - rewrite spans_app. simpl. unfold rec_span. simpl. lia.
Qed.

Lemma do_reserve_agrees h held q rb dynamic size :
  rel h held q rb → 0 ≤ size < 2 ^ 64 → c0 + spans (q_log q) + 2 ^ 31 < 2 ^ 64 →
  agrees q (do_reserve base h held dynamic size) (queue_step M c0 q (Reserve dynamic size)).
Proof.
  intros Hrel Hs Hp. pose proof (reserve_rel _ _ _ _ _ Hrel Hs Hp) as Hres.
  unfold do_reserve, bpf_ringbuf_reserve_dynptr, bpf_ringbuf_reserve, check_size, downcast. cbn [queue_step].
  destruct dynamic; cbn [andb orb].
  - destruct (DYNPTR_MAX_SIZE <? size); cbn [orb]; [rewrite reply_same; by apply (agrees_stay _ _ _ rb)|].
    cbn [ok_or mbind res_bind]. rewrite (rel_lookup _ _ _ _ Hrel). cbn [unwrap mbind res_bind]. rewrite Hres.
    destruct (too_large M size) eqn:Hl; [rewrite reply_same; by apply (agrees_stay _ _ _ rb)|].
    destruct (no_room M q size) eqn:Hr; [rewrite reply_same; by apply (agrees_stay _ _ _ rb)|].
    apply reserved_agrees; done || lia.
  - cbn [ok_or mbind res_bind]. rewrite (rel_lookup _ _ _ _ Hrel). cbn [unwrap mbind res_bind]. rewrite Hres.
    destruct (too_large M size) eqn:Hl; [simpl; rewrite reply_same; by apply (agrees_stay _ _ _ rb)|].
    destruct (no_room M q size) eqn:Hr; [simpl; rewrite reply_same; by apply (agrees_stay _ _ _ rb)|].
    apply reserved_agrees; done || lia.
Qed.

Lemma do_fill_agrees h held q rb k xs :
  rel h held q rb → lawful q (Fill k xs) →
  agrees q (do_fill base h held k xs) (queue_step M c0 q (Fill k xs)).
Proof.
  intros Hrel (r & Hk & Hb & Hx). destruct (busy_split _ _ _ _ _ _ Hrel Hk Hb) as (Hle & Hu & Hpos).
  destruct (lookup_lt_is_Some_2 held k) as [t Ht].
  { rewrite (rl_held _ _ _ _ Hrel). by eapply lookup_lt_Some. }
  destruct (rl_ticket _ _ _ _ Hrel k t r Ht Hk Hb) as ([blk off len] & Hs & Hblk & Hoff & Hlen). simpl in *. subst blk off len.
  pose proof (rl_inv _ _ _ _ Hrel) as Hinv. rewrite Hu in Hinv.
  pose proof (payload_inv _ _ _ _ _ xs Hinv Hx) as Hpay. rewrite Hpos in Hpay.
  unfold do_fill. rewrite Ht. cbn [mbind option_bind]. rewrite Hs. cbn [unwrap mbind res_bind].
  unfold copy_from_slice. cbn [s_len s_blk s_off]. rewrite Hx, Z.eqb_refl. cbn [negb].
  rewrite (rel_lookup _ _ _ _ Hrel). cbn [unwrap mbind res_bind heap_after].
  rewrite <- (rel_dlen h held q rb Hrel), dstore_mod_add. split; simpl; [|split].
  - rewrite (rl_heap _ _ _ _ Hrel), insert_insert_eq, reply_insert. simpl. by rewrite Nat.ltb_irrefl.
  - eexists. apply (rel_update h held held q rb _ k r); try done.
    intros _. by eexists.
  - rewrite spans_alter by done. lia.
Qed.

Lemma first_unread h held q rb k r :
  rel h held q rb → q_log q !! k = Some r → rc_state r = Busy →
  bool_decide (drop (q_read q) (take k (q_log q)) = []) = (k =? q_read q)%nat.
Proof.
  intros Hrel Hk Hb. destruct (busy_split _ _ _ _ _ _ Hrel Hk Hb) as (Hle & _ & _).
  pose proof (lookup_lt_Some _ _ _ Hk). apply eq_bool_prop_intro.
  rewrite bool_decide_spec, Is_true_true, Nat.eqb_eq, <- length_zero_iff_nil, length_drop, length_take. lia.
Qed.

Lemma commit_agrees h held held' q rb k r n fl discard :
  rel h held q rb → q_log q !! k = Some r → rc_state r = Busy → (discard = false → is_Some (rc_payload r)) →
  length held' = length held → (∀ j, j ≠ k → held' !! j = held !! j) →
  let s := {| s_blk := base; s_off := (c0 + spans (take k (q_log q))) mod (M + 1) + 8; s_len := n |} in
  ∃ h', commit h s fl discard = Ok h' ∧
    agrees q (reply base h h' (Ok ()), h', held')
      (Done (Ok ()) (wakes fl (k =? q_read q)%nat), update q k (λ r, set_state r (commit_state discard))).
Proof.
  intros Hrel Hk Hb Hpay Hlen Hne s. unfold s. clear s.
  destruct (busy_split _ _ _ _ _ _ Hrel Hk Hb) as (Hle & Hu & Hpos).
  pose proof (rl_inv _ _ _ _ Hrel) as Hinv. rewrite Hu in Hinv.
  pose proof (commit_spec h base rb _ _ _ n fl discard (rel_lookup _ _ _ _ Hrel) Hinv Hb) as Hc.
  pose proof (commit_inv _ _ _ _ _ (commit_state discard) (wakes fl (k =? q_read q)%nat) Hinv) as Hi.
  cbv zeta in Hc. rewrite (first_unread _ _ _ _ _ _ Hrel Hk Hb), (rel_dlen _ _ _ _ Hrel), Hpos in Hc.
  rewrite Hpos in Hi. eexists. split; [exact Hc|].
  split; simpl; [|split].
  - rewrite (rl_heap _ _ _ _ Hrel), insert_insert_eq, reply_insert. simpl. by rewrite committed_woken.
  - eexists. apply (rel_update h held held' q rb _ k r); try done.
    + unfold filled, set_state. simpl. destruct discard; [done|]. intros _. by apply Hpay.
    + by destruct (wakes fl _).
    + by destruct (wakes fl _).
    + by destruct discard.
  - rewrite spans_alter by done. lia.
Qed.

Lemma do_commit_agrees h held q rb k flags discard :
  rel h held q rb → lawful q (Commit k flags discard) →
  agrees q (do_commit base h held k flags discard) (queue_step M c0 q (Commit k flags discard)).
Proof.
  intros Hrel (r & Hk & Hb & Hx).
  destruct (lookup_lt_is_Some_2 held k) as [t Ht].
  { rewrite (rl_held _ _ _ _ Hrel). by eapply lookup_lt_Some. }
  destruct (rl_ticket _ _ _ _ Hrel k t r Ht Hk Hb) as ([blk off len] & Hs & Hblk & Hoff & Hlen).
  simpl in Hblk, Hoff, Hlen. subst blk off len. unfold do_commit. rewrite Ht. cbn [queue_step].
  destruct t as [s|dp|]; [| |done]; cbn [ticket_slice] in Hs.
  - injection Hs as ->. unfold bpf_ringbuf_discard, bpf_ringbuf_submit.
    destruct (from_bits RINGBUF_FLAGS_ALL flags) as [fl|]; cbn [ok_or mbind res_bind].
    + destruct (commit_agrees h held held q rb k r (rc_size r) fl discard) as (h' & Hc & Ha); try done.
      destruct discard; rewrite Hc; exact Ha.
    + destruct discard; cbn [heap_after]; rewrite reply_same; by apply (agrees_stay _ _ _ rb).
  - unfold bpf_ringbuf_discard_dynptr, bpf_ringbuf_submit_dynptr, commit_dynptr. rewrite Hs. cbn [s_blk s_off].
    destruct (from_bits RINGBUF_FLAGS_ALL flags) as [fl|]; cbn [ok_or mbind res_bind].
    + destruct (commit_agrees h held (<[k := Dynptr dynptr_null]> held) q rb k r 1 fl discard) as (h' & Hc & Ha);
        try done; [by rewrite length_insert|intros j Hj; by rewrite list_lookup_insert_ne|].
      destruct discard; rewrite Hc; exact Ha.
    + destruct discard; rewrite reply_same, list_insert_id by done; by apply (agrees_stay _ _ _ rb).
Qed.

Lemma output_agrees h held q rb xs flags :
  rel h held q rb → lawful q (Output xs flags) → c0 + spans (q_log q) + 2 ^ 31 < 2 ^ 64 →
  agrees q (ring_step base h held (Output xs flags)) (queue_step M c0 q (Output xs flags)).
Proof.
  intros Hrel Hx Hp. pose proof (rl_inv _ _ _ _ Hrel) as Hinv. cbn [ring_step queue_step]. simpl in Hx.
  rewrite (output_spec h base rb (unread q));
    [|by apply rel_lookup in Hrel|done|done|by rewrite (rel_prod _ _ _ _ Hrel)].
  destruct (from_bits RINGBUF_FLAGS_ALL flags) as [fl|]; [|cbn [heap_after]; rewrite reply_same; by apply (agrees_stay _ _ _ rb)].
  set (n := Z.of_nat (length xs)) in *.
  rewrite (fits_room rb (unread q) M n) by first
    [by apply rl_mask in Hrel | by apply spans_nonneg, (ri_recs _ _ _ Hinv) | lia].
  fold (too_large M n). fold (no_room M q n).
  destruct (too_large M n || no_room M q n) eqn:Hfit; cbn [negb].
  { cbn [heap_after]. rewrite reply_same. by apply (agrees_stay _ _ _ rb). }
  apply orb_false_iff in Hfit as [Hl Hr].
  destruct (room_bounds _ _ _ _ n Hrel ltac:(lia) Hl Hr) as (Hmax & Hroom & Hb).
  cbn [heap_after]. split; simpl; [|split].
  - rewrite (rl_heap _ _ _ _ Hrel), insert_insert_eq, reply_insert. simpl.
    by rewrite sent_woken, unread_nil by apply (rl_read _ _ _ _ Hrel).
  - eexists. apply (rel_push h held q rb); try done.
    + unfold sent, committed. by destruct (wakes fl _).
    + unfold sent, committed. by destruct (wakes fl _).
    + apply sent_inv; [done|]. rewrite (fits_room rb (unread q) M) by first
        [by apply rl_mask in Hrel | by apply spans_nonneg, (ri_recs _ _ _ Hinv) | lia].
      fold n. fold (too_large M n). fold (no_room M q n). by rewrite Hl, Hr.
    + intros _. by eexists.
  - rewrite spans_app. simpl. unfold rec_span. simpl. fold n. lia.
Qed.

Lemma user_read_agrees h held q rb :
  rel h held q rb → agrees q (ring_step base h held UserRead) (queue_step M c0 q UserRead).
Proof.
  intros Hrel. pose proof (rl_inv _ _ _ _ Hrel) as Hinv. cbn [ring_step queue_step]. unfold on_ring.
  rewrite (rel_lookup _ _ _ _ Hrel), (user_read_spec base rb (unread q)); [|done|].
  2: { unfold unread. apply Forall_drop, (rl_filled _ _ _ _ Hrel). }
  assert (rel (<[base := rb]> h) held q rb) as Hsame.
  { pose proof (rl_heap _ _ _ _ Hrel) as Hh. rewrite Hh, insert_insert_eq, <- Hh. exact Hrel. }
  destruct (unread q) as [|r rs] eqn:Hu; [by apply (agrees_stay _ _ _ rb)|].
  assert (q_log q !! q_read q = Some r) as Hk.
  { unfold unread in Hu. rewrite <- (Nat.add_0_r (q_read q)), <- lookup_drop, Hu. done. }
  assert (rc_state r ≠ Busy →
    rel (<[base := with_consumer rb (consumer_pos rb + rec_span r)]> h) held (next q)
      (with_consumer rb (consumer_pos rb + rec_span r))) as Hnext.
  { intros Hst. pose proof (advance_inv _ _ _ _ Hinv) as Hadv. pose proof (lookup_lt_Some _ _ _ Hk) as Hlt.
    destruct Hrel as [-> HM _ Hcons Hread Hf Hd Hheld Ht]. split; simpl; try done.
    - by rewrite insert_insert_eq.
    - unfold unread, next. simpl. unfold unread in Hu.
      by rewrite (drop_S _ _ _ Hk) in Hu; simplify_eq.
    - rewrite (take_S_r _ _ _ Hk), spans_app, Hcons. simpl. lia.
    - rewrite (take_S_r _ _ _ Hk). apply Forall_app_2; [done|]. by constructor. }
  destruct (rc_state r); [by apply (agrees_stay _ _ _ rb)|..].
  all: split; [done|]; split; [by eexists; apply Hnext|simpl; lia].
Qed.

Lemma step_agrees h held q rb op :
  rel h held q rb → lawful q op → c0 + spans (q_log q) + 2 ^ 31 < 2 ^ 64 →
  agrees q (ring_step base h held op) (queue_step M c0 q op).
Proof.
  intros Hrel Hl Hp. destruct op.
  - by apply (do_reserve_agrees h held q rb).
  - by apply (do_fill_agrees h held q rb).
  - by apply (do_commit_agrees h held q rb).
  - by apply (output_agrees h held q rb).
  - (* Query *)
    pose proof (rel_prod _ _ _ _ Hrel) as Hprod. pose proof (rl_inv _ _ _ _ Hrel) as Hinv.
    destruct (shape_mask _ _ (ri_shape _ _ _ Hinv)) as [Hm _].
    pose proof (ri_prod _ _ _ Hinv) as Hpc. pose proof (ri_cons _ _ _ Hinv).
    pose proof (spans_nonneg _ (ri_recs _ _ _ Hinv)). pose proof (rl_mask _ _ _ _ Hrel).
    cbn [ring_step queue_step]. unfold bpf_ringbuf_query, downcast. cbn [ok_or mbind res_bind].
    rewrite (rel_lookup _ _ _ _ Hrel). cbn [unwrap mbind res_bind].
    unfold avail_data_size, total_data_size. rewrite !arith_ok by lia.
    replace (producer_pos rb - consumer_pos rb) with (spans (unread q)) by lia.
    rewrite Hprod, (rl_cons _ _ _ _ Hrel), (rl_mask _ _ _ _ Hrel).
    split; [|split; [by exists rb|simpl; lia]]. simpl. by repeat case_match.
  - (* Poll *)
    pose proof (rl_inv _ _ _ _ Hrel) as Hinv. cbn [ring_step queue_step]. unfold on_ring, readable.
    rewrite (rel_lookup _ _ _ _ Hrel).
    assert (rel (<[base := rb]> h) held q rb) as Hsame.
    { pose proof (rl_heap _ _ _ _ Hrel) as Hh. rewrite Hh, insert_insert_eq, <- Hh. exact Hrel. }
    rewrite Nat.eqb_sym, <- (unread_nil _ (rl_read _ _ _ _ Hrel)), (ri_prod _ _ _ Hinv).
    assert ((consumer_pos rb + spans (unread q) =? consumer_pos rb) = bool_decide (unread q = [])) as ->.
    { apply eq_bool_prop_intro. rewrite bool_decide_spec, Is_true_true, Z.eqb_eq.
      split; [intros; apply spans_zero; [by apply (ri_recs _ _ _ Hinv)|lia]|intros ->; simpl; lia]. }
    by apply (agrees_stay _ _ _ rb).
  - by apply (user_read_agrees h held q rb).
Qed.

(** A step hands out the payload of the record it counts as read. *)
Lemma step_samples h held q rb op :
  rel h held q rb → lawful q op →
  let '(r, q') := queue_step M c0 q op in
  delivered (take (q_read q') (q_log q')) = delivered (take (q_read q) (q_log q)) ++ samples [r].
Proof.
  intros Hrel Hl. pose proof (rl_read _ _ _ _ Hrel) as Hread.
  assert (∀ k f x, q_log q !! k = Some x → rc_state x = Busy →
    take (q_read q) (alter f k (q_log q)) = take (q_read q) (q_log q)) as Hupd.
  { intros k f x Hk Hb. apply take_alter_ge. by apply (busy_split _ _ _ _ _ _ Hrel Hk Hb). }
  destruct op as [dynamic size|k xs|k flags discard|xs flags|flags| |]; cbn [queue_step];
    try destruct (from_bits RINGBUF_FLAGS_ALL flags);
    try (destruct Hl as (x & Hk & Hb & _); simpl; by rewrite (Hupd _ _ x), app_nil_r);
    try (repeat match goal with |- context [if ?b then _ else _] => destruct b end;
         simpl; by rewrite app_nil_r, ?take_app_le by done).
  destruct (unread q) as [|r rs] eqn:Hu; [simpl; by rewrite app_nil_r|].
  assert (q_log q !! q_read q = Some r) as Hk.
  { unfold unread in Hu. rewrite <- (Nat.add_0_r (q_read q)), <- lookup_drop, Hu. done. }
  pose proof (proj1 (Forall_lookup _ _) (rl_filled _ _ _ _ Hrel) _ _ Hk) as Hf. unfold filled in Hf.
  pose proof (delivered_app _ [r] (rl_done _ _ _ _ Hrel)) as Hd. rewrite <- (take_S_r _ _ _ Hk) in Hd.
  simpl in Hd. destruct (rc_state r) eqn:Est; simpl; [by rewrite app_nil_r|rewrite Hd..]; [|done].
  by destruct Hf as [xs ->].
Qed.

Lemma run_agrees h held q rb ops :
  rel h held q rb → all_lawful M c0 q ops →
  c0 + spans (q_log q) + 2 ^ 31 * Z.of_nat (S (length ops)) < 2 ^ 64 →
  let '(rs, h') := ring_run base h held ops in
  let '(rs', q') := queue_run M c0 q ops in
  rs = rs' ∧ (∃ held' rb', rel h' held' q' rb') ∧
  delivered (take (q_read q') (q_log q')) = delivered (take (q_read q) (q_log q)) ++ samples rs.
Proof.
  revert h held q rb. induction ops as [|op ops IH]; intros h held q rb Hrel Hl Hp; simpl.
  { split; [done|]. split; [by exists held, rb|]. by rewrite app_nil_r. }
  destruct Hl as [Hl Hls]. simpl in Hp. pose proof (step_samples h held q rb op Hrel Hl) as Hsam.
  destruct (step_agrees h held q rb op Hrel Hl ltac:(lia)) as (Hrep & [rb' Hrel'] & Hsp).
  destruct (ring_step base h held op) as [[r h'] held']. destruct (queue_step M c0 q op) as [r' q'].
  simpl in *. subst r'. specialize (IH h' held' q' rb' Hrel' Hls ltac:(lia)).
  destruct (ring_run base h' held' ops) as [rs h'']. destruct (queue_run M c0 q' ops) as [rs' q''].
  destruct IH as (-> & Hend & IHs). split; [done|]. split; [done|].
  rewrite IHs, Hsam, <- app_assoc. f_equal. unfold samples. simpl. by repeat case_match.
Qed.
End refinement.

(** C2: the ring buffer refines a queue of records.  From an empty ring, any
    interleaving of reservations (by pointer or by dynptr), stores into
    reserved payloads, submissions and discards in any order, outputs,
    queries, polls and reads by user space answers exactly as the queue does,
    errors and wake-ups included, so nothing of it ever panics; no other ring
    of the heap changes; the ring then holds exactly the queue's unread
    records; and the samples user space has received are, byte for byte and
    in reservation order, the payloads of the committed records it has passed,
    none of which is still busy. *)
Theorem ringbuf_refines_queue `{BuildMode} h base rb ops :
  h !! base = Some rb → ring_inv base rb [] →
  consumer_pos rb + 2 ^ 31 * Z.of_nat (S (length ops)) < 2 ^ 64 →
  all_lawful (mask rb) (consumer_pos rb) empty_queue ops →
  let '(rs, h') := ring_run base h [] ops in
  let '(rs', q) := queue_run (mask rb) (consumer_pos rb) empty_queue ops in
  rs = rs' ∧
  (∃ rb', h' = <[base := rb']> h ∧ ring_inv base rb' (unread q)) ∧
  samples rs = delivered (take (q_read q) (q_log q)) ∧
  Forall (λ r, rc_state r ≠ Busy) (take (q_read q) (q_log q)).
Proof.
  intros Hh Hinv Hp Hl.
  assert (rel base (mask rb) (consumer_pos rb) h h [] empty_queue rb) as Hrel.
  { split; simpl; try done; [by rewrite insert_id|lia]. }
  pose proof (run_agrees _ _ _ _ _ _ _ _ ops Hrel Hl) as Hrun. simpl spans in Hrun.
  rewrite Z.add_0_r in Hrun. specialize (Hrun Hp).
  destruct (ring_run base h [] ops) as [rs h'].
  destruct (queue_run (mask rb) (consumer_pos rb) empty_queue ops) as [rs' q].
  destruct Hrun as (Hrs & (held' & rb' & Hrel') & Hsam). destruct Hrel' as [Hh' _ Hi _ _ _ Hd _ _].
  split; [done|]. split; [by exists rb'|]. by rewrite Hsam.
Qed.

(** Two reservations committed out of order, the first by dynptr: user space
    reads nothing until the first is submitted, skips the discarded one and
    then reads the output that came last. *)
Definition demo_ops : list RingOp :=
  [Reserve true 3; Reserve false 8; Output [9; 9] 0; UserRead; Commit 1 0 true; Fill 0 [1; 2; 3];
   Commit 0 0 false; Query 0; UserRead; UserRead; UserRead; Poll; UserRead; Reserve false 4090; Output [1] 4].

Lemma ringbuf_refines_queue_witness :
  let _ : BuildMode := true in
  let '(rs, h') := ring_run 65536 demo_heap [] demo_ops in
  let '(rs', q) := queue_run 4095 0 empty_queue demo_ops in
  (rs = rs' ∧ (∃ rb', h' = <[65536 := rb']> demo_heap ∧ ring_inv 65536 rb' (unread q)) ∧
   samples rs = delivered (take (q_read q) (q_log q)) ∧
   Forall (λ r, rc_state r ≠ Busy) (take (q_read q) (q_log q))) ∧
  samples rs' = [[1; 2; 3]; [9; 9]].
Proof.
  intros m.
  pose proof (ringbuf_refines_queue demo_heap 65536 demo_ring demo_ops eq_refl demo_ring_inv) as Href.
  specialize (Href ltac:(simpl; lia)).
  assert (all_lawful 4095 0 empty_queue demo_ops) as Hl.
  { unfold demo_ops. cbn [all_lawful].
    repeat split; try (simpl; lia); (eexists; split; [reflexivity|split; [reflexivity|]]).
    - done.
    - reflexivity.
    - intros _. by eexists. }
  specialize (Href Hl). assert (samples (queue_run 4095 0 empty_queue demo_ops).1 = [[1; 2; 3]; [9; 9]]) as Hs
    by (vm_compute; reflexivity).
  change (mask demo_ring) with 4095 in Href. change (consumer_pos demo_ring) with 0 in Href.
  destruct (ring_run 65536 demo_heap [] demo_ops) as [rs h'].
  destruct (queue_run 4095 0 empty_queue demo_ops) as [rs' q]. split; [exact Href|exact Hs].
Defined.
