(* ===== verification/Maps.v ===== *)
(** BPF maps of bpf-basic/src/map: the [BpfMapCommonOps] interface and its
    implementations (array, perf event array, hash, LRU, queue and stack).
    Per-CPU maps and the map system calls are in Unified.v.

    An operation returns its result and the new state; an error leaves the
    state unchanged.  [BTreeMap] is a finite map whose iteration order is the
    lexicographic order of the keys. *)
From S2P Require Import Prelude BpfBase.

(** ** The interface *)

(** [BpfCallBackFn]: the callback sees the key and the value, and acts on
    its context. *)
Definition Callback (S : Type) := str → str → S → Z * S.

(** The trait [BpfMapCommonOps]. *)
Class BpfMapCommonOps (M : Type) := {
  lookup_elem : M → str → BpfResult (option str * M);
  update_elem : M → str → str → Z → BpfResult M;
  delete_elem : M → str → BpfResult M;
  for_each_elem : ∀ S : Type, M → Callback S → S → Z → BpfResult (Z * S);
  lookup_and_delete_elem : M → str → str → BpfResult (str * M);
  lookup_percpu_elem : M → str → Z → BpfResult (option str * M);
  get_next_key : M → option str → str → BpfResult str;
  push_elem : M → str → Z → BpfResult M;
  pop_elem : M → str → BpfResult (str * M);
  peek_elem : M → str → BpfResult str;
  freeze : M → BpfResult ();
  (* length of the range [map_values_ptr_range] *)
  map_values_len : M → BpfResult Z;
  map_mem_usage : M → BpfResult Z;
}.

(** The default body of the trait's methods. *)
Definition eperm {A} : BpfResult A := Err EPERM.

(** [slice.copy_from_slice(src)]: panics on different lengths. *)
Definition copy_from (dst src : str) : BpfResult str :=
  if (length dst =? length src)%nat then Ok src else Panic.

Definition u32_key (key : str) : Z := le_dec key.

(** ** Array maps (array.rs) *)
Record ArrayMapData := { elem_size : Z; adata : list Z }.
Record ArrayMap := { am_data : ArrayMapData; am_value_size : Z; am_max_entries : Z }.

Section array.
Context `{BuildMode}.

Definition ArrayMapData_new (elem max : Z) : BpfResult ArrayMapData :=
  if overflow_checks && (elem <=? 0) then Panic else
  total_size ← arith 32 (elem * max);
  Ok {| elem_size := elem; adata := zeros total_size |}.

Definition array_bounds (d : ArrayMapData) (index : Z) : BpfResult (nat * nat) :=
  start ← arith 32 (index * elem_size d);
  end_ ← arith 32 (start + elem_size d);
  Ok (Z.to_nat start, Z.to_nat end_).

(** [Index] and [IndexMut] followed by [copy_from_slice]. *)
Definition array_index (d : ArrayMapData) (index : Z) : BpfResult str :=
  '(a, b) ← array_bounds d index; unwrap (slice (adata d) a b).
Definition array_set (d : ArrayMapData) (index : Z) (value : str) : BpfResult ArrayMapData :=
  '(a, b) ← array_bounds d index;
  l ← unwrap (slice_copy (adata d) a b value);
  Ok {| elem_size := elem_size d; adata := l |}.

Definition ArrayMap_new (m : BpfMapMeta) : BpfResult ArrayMap :=
  if (value_size m =? 0) || (max_entries m =? 0) || negb (key_size m =? 4) then Err EINVAL else
  d ← ArrayMapData_new (value_size m) (max_entries m);
  Ok {| am_data := d; am_value_size := value_size m; am_max_entries := max_entries m |}.

Definition array_lookup (m : ArrayMap) (key : str) : BpfResult (option str * ArrayMap) :=
  if negb (length key =? 4)%nat then Err EINVAL else
  if am_max_entries m <=? u32_key key then Err EINVAL else
  v ← array_index (am_data m) (u32_key key); Ok (Some v, m).

Definition with_data (m : ArrayMap) (d : ArrayMapData) : ArrayMap :=
  {| am_data := d; am_value_size := am_value_size m; am_max_entries := am_max_entries m |}.

Definition array_update (m : ArrayMap) (key value : str) (flags : Z) : BpfResult ArrayMap :=
  if negb (length key =? 4)%nat || negb (Z.of_nat (length value) =? am_value_size m) then Err EINVAL else
  flags ← ok_or (from_bits UPDATE_ALL flags) EINVAL;
  if contains flags BPF_F_LOCK then Err EINVAL else
  if contains flags BPF_NOEXIST then Err EEXIST else
  if am_max_entries m <=? u32_key key then Err EINVAL else
  d ← array_set (am_data m) (u32_key key) value; Ok (with_data m d).

(** [for i in 0..max]: the element is counted before the callback runs. *)
Fixpoint array_for_each {S} (d : ArrayMapData) (n : nat) (i : Z) (cb : Callback S) (s : S) (used : Z)
    : BpfResult (Z * S) :=
  match n with
  | O => Ok (used, s)
  | Datatypes.S n =>
      value ← array_index d i;
      used ← arith 32 (used + 1);
      let '(r, s) := cb (le_enc 4 i) value s in
      if negb (r =? 0) then Ok (used, s) else array_for_each d n (i + 1) cb s used
  end.

Definition array_get_next_key (m : ArrayMap) (key : option str) (next_key : str) : BpfResult str :=
  if negb (length next_key =? 4)%nat then Err EINVAL else
  match key with
  | Some key =>
      if negb (length key =? 4)%nat then Err EINVAL else
      last ← arith 32 (am_max_entries m - 1);
      if last <=? u32_key key then Err ENOENT else
      next ← arith 32 (u32_key key + 1);
      copy_from next_key (le_enc 4 next)
  | None => copy_from next_key (le_enc 4 0)
  end.

#[export] Instance ArrayMap_ops : BpfMapCommonOps ArrayMap := {
  lookup_elem := array_lookup;
  update_elem := array_update;
  delete_elem _ _ := eperm;
  for_each_elem S m cb s flags :=
    if negb (flags =? 0) then Err EINVAL
    else array_for_each (am_data m) (Z.to_nat (am_max_entries m)) 0 cb s 0;
  lookup_and_delete_elem _ _ _ := eperm;
  lookup_percpu_elem _ _ _ := eperm;
  get_next_key := array_get_next_key;
  push_elem _ _ _ := eperm;
  pop_elem _ _ := eperm;
  peek_elem _ _ := eperm;
  freeze _ := Ok ();
  map_values_len m := Ok (Z.of_nat (length (adata (am_data m))));
  map_mem_usage m := Ok (Z.of_nat (length (adata (am_data m))));
}.

(** [PerfEventArrayMap]: one file descriptor per CPU. *)
Record PerfEventArrayMap := { fds : ArrayMapData; num_cpus : Z }.

Definition PerfEventArrayMap_new (m : BpfMapMeta) (cpus : Z) : BpfResult PerfEventArrayMap :=
  if negb (key_size m =? 4) || negb (value_size m =? 4) || negb (max_entries m =? cpus) then Err EINVAL else
  d ← ArrayMapData_new 4 cpus; Ok {| fds := d; num_cpus := cpus |}.

Definition perf_lookup (m : PerfEventArrayMap) (key : str) : BpfResult (option str * PerfEventArrayMap) :=
  if negb (length key =? 4)%nat then Err EINVAL else
  if num_cpus m <=? u32_key key then Err EINVAL else
  v ← array_index (fds m) (u32_key key); Ok (Some v, m).

Definition perf_update (m : PerfEventArrayMap) (key value : str) (flags : Z) : BpfResult PerfEventArrayMap :=
  if negb (length key =? 4)%nat || negb (length value =? 4)%nat then Err EINVAL else
  flags ← ok_or (from_bits UPDATE_ALL flags) EINVAL;
  if negb (flags =? 0) then Err EINVAL else
  if num_cpus m <=? u32_key key then Err EINVAL else
  d ← array_set (fds m) (u32_key key) value; Ok {| fds := d; num_cpus := num_cpus m |}.

Definition perf_delete (m : PerfEventArrayMap) (key : str) : BpfResult PerfEventArrayMap :=
  if negb (length key =? 4)%nat then Err EINVAL else
  if num_cpus m <=? u32_key key then Err EINVAL else
  d ← array_set (fds m) (u32_key key) [0; 0; 0; 0]; Ok {| fds := d; num_cpus := num_cpus m |}.

#[export] Instance PerfEventArrayMap_ops : BpfMapCommonOps PerfEventArrayMap := {
  lookup_elem := perf_lookup;
  update_elem := perf_update;
  delete_elem := perf_delete;
  for_each_elem S m cb s flags :=
    if negb (flags =? 0) then Err EINVAL
    else array_for_each (fds m) (Z.to_nat (num_cpus m)) 0 cb s 0;
  lookup_and_delete_elem _ _ _ := eperm;
  lookup_percpu_elem _ _ _ := eperm;
  get_next_key _ _ _ := eperm;
  push_elem _ _ _ := eperm;
  pop_elem _ _ := eperm;
  peek_elem _ _ := eperm;
  freeze _ := eperm;
  map_values_len m := Ok (Z.of_nat (length (adata (fds m))));
  map_mem_usage m := Ok (Z.of_nat (length (adata (fds m))));
}.
End array.

(** ** Ordered maps *)

(** [Ord for Vec<u8>]. *)
Fixpoint lex_leb (a b : str) : bool :=
  match a, b with
  | [], _ => true
  | _ :: _, [] => false
  | x :: a, y :: b => if x <? y then true else if y <? x then false else lex_leb a b
  end.
Definition key_le (a b : str * str) : Prop := lex_leb a.1 b.1 = true.
#[export] Instance key_le_dec : RelDecision key_le.
Proof. intros a b. unfold key_le. apply _. Defined.

Abbreviation BTreeMap := (gmap str str).

(** [BTreeMap::iter]. *)
Definition btree_iter (m : BTreeMap) : list (str * str) := merge_sort key_le (map_to_list m).

(** ** Hash maps (hash.rs) *)

(** Iterating: the element is counted after a callback that returns 0. *)
Fixpoint iter_for_each `{BuildMode} {S} (l : list (str * str)) (cb : Callback S) (s : S) (used : Z)
    : BpfResult (Z * S) :=
  match l with
  | [] => Ok (used, s)
  | (key, value) :: l =>
      let '(r, s) := cb key value s in
      if negb (r =? 0) then Ok (used, s)
      else used ← arith 32 (used + 1); iter_for_each l cb s used
  end.

(** Skipping the iterator to [key] and taking the next element. *)
Fixpoint next_after (key : str) (l : list (str * str)) : option (str * str) :=
  match l with
  | [] => None
  | (k, _) :: l => if decide (k = key) then head l else next_after key l
  end.

Fixpoint iter_mem_usage `{BuildMode} (l : list (str * str)) (usage : Z) : BpfResult Z :=
  match l with
  | [] => Ok usage
  | (k, v) :: l =>
      usage ← arith 64 (usage + Z.of_nat (length k + length v)); iter_mem_usage l usage
  end.

(** The checks that hash and LRU updates share: update flags against the
    presence of the key. *)
Definition check_update_flags (flags : Z) (exists_ : bool) : BpfResult () :=
  flags ← ok_or (from_bits UPDATE_ALL flags) EINVAL;
  if contains flags BPF_F_LOCK then Err EINVAL else
  if contains flags BPF_NOEXIST && contains flags BPF_EXISTS then Err EINVAL else
  if contains flags BPF_NOEXIST && exists_ then Err EEXIST else
  if contains flags BPF_EXISTS && negb exists_ then Err ENOENT else Ok ().

Record BpfHashMap := { hm_max_entries : Z; hm_key_size : Z; hm_value_size : Z; hm_data : BTreeMap }.

Definition BpfHashMap_new (m : BpfMapMeta) : BpfResult BpfHashMap :=
  if (key_size m =? 0) || (value_size m =? 0) || (max_entries m =? 0) then Err EINVAL else
  Ok {| hm_max_entries := max_entries m; hm_key_size := key_size m; hm_value_size := value_size m;
        hm_data := ∅ |}.

Definition validate_len (size : Z) (l : str) : BpfResult () :=
  if negb (Z.of_nat (length l) =? size) then Err EINVAL else Ok ().
Definition validate_key (m : BpfHashMap) (key : str) := validate_len (hm_key_size m) key.
Definition validate_value (m : BpfHashMap) (value : str) := validate_len (hm_value_size m) value.

Definition with_map (m : BpfHashMap) (d : BTreeMap) : BpfHashMap :=
  {| hm_max_entries := hm_max_entries m; hm_key_size := hm_key_size m;
     hm_value_size := hm_value_size m; hm_data := d |}.

Definition hash_lookup (m : BpfHashMap) (key : str) : BpfResult (option str * BpfHashMap) :=
  validate_key m key;; Ok (hm_data m !! key, m).

Definition hash_update (m : BpfHashMap) (key value : str) (flags : Z) : BpfResult BpfHashMap :=
  validate_key m key;;
  validate_value m value;;
  let exists_ := bool_decide (is_Some (hm_data m !! key)) in
  check_update_flags flags exists_;;
  if negb exists_ && (hm_max_entries m <=? Z.of_nat (size (hm_data m))) then Err ENOMEM else
  Ok (with_map m (<[key := value]> (hm_data m))).

Definition hash_delete (m : BpfHashMap) (key : str) : BpfResult BpfHashMap :=
  validate_key m key;; Ok (with_map m (delete key (hm_data m))).

Definition hash_lookup_and_delete (m : BpfHashMap) (key value : str) : BpfResult (str * BpfHashMap) :=
  validate_key m key;;
  validate_value m value;;
  v ← ok_or (hm_data m !! key) ENOENT;
  v ← copy_from value v;
  Ok (v, with_map m (delete key (hm_data m))).

(** The key after [key] in [iter]; the first one without a known key. *)
Definition next_key_of (iter : list (str * str)) (ksize : Z) (present : str → bool)
    (key : option str) (next_key : str) : BpfResult str :=
  if negb (Z.of_nat (length next_key) =? ksize) then Err EINVAL else
  next ← match key with
         | None => Ok (head iter)
         | Some key =>
             validate_len ksize key;;
             Ok (if present key then next_after key iter else head iter)
         end;
  match next with
  | Some (k, _) => copy_from next_key k
  | None => Err ENOENT
  end.

Definition hash_get_next_key (m : BpfHashMap) : option str → str → BpfResult str :=
  next_key_of (btree_iter (hm_data m)) (hm_key_size m)
    (λ key, bool_decide (is_Some (hm_data m !! key))).

#[export] Instance BpfHashMap_ops `{BuildMode} : BpfMapCommonOps BpfHashMap := {
  lookup_elem := hash_lookup;
  update_elem := hash_update;
  delete_elem := hash_delete;
  for_each_elem S m cb s flags :=
    if negb (flags =? 0) then Err EINVAL else iter_for_each (btree_iter (hm_data m)) cb s 0;
  lookup_and_delete_elem := hash_lookup_and_delete;
  lookup_percpu_elem _ _ _ := eperm;
  get_next_key := hash_get_next_key;
  push_elem _ _ _ := eperm;
  pop_elem _ _ := eperm;
  peek_elem _ _ := eperm;
  freeze _ := eperm;
  map_values_len _ := eperm;
  map_mem_usage m := iter_mem_usage (btree_iter (hm_data m)) 0;
}.

(** ** LRU maps (lru.rs) *)

(** The third-party [lru::LruCache]. *)
Class LruCache (C : Type) := {
  lru_new : Z → C;
  lru_get : C → str → option str * C;
  lru_contains : C → str → bool;
  lru_put : C → str → str → C;
  lru_pop : C → str → C;
  lru_iter : C → list (str * str);
}.

Record LruMap (C : Type) := { lm_key_size : Z; lm_value_size : Z; lm_data : C }.
Arguments lm_key_size {C} _.
Arguments lm_value_size {C} _.
Arguments lm_data {C} _.

Section lru.
Context `{BuildMode} {C : Type} `{LruCache C}.

Definition LruMap_new (m : BpfMapMeta) : BpfResult (LruMap C) :=
  if (value_size m =? 0) || (max_entries m =? 0) || (key_size m =? 0) then Err EINVAL else
  Ok {| lm_key_size := key_size m; lm_value_size := value_size m; lm_data := lru_new (max_entries m) |}.

Definition with_lru (m : LruMap C) (d : C) : LruMap C :=
  {| lm_key_size := lm_key_size m; lm_value_size := lm_value_size m; lm_data := d |}.

Definition lru_lookup (m : LruMap C) (key : str) : BpfResult (option str * LruMap C) :=
  validate_len (lm_key_size m) key;;
  let '(v, d) := lru_get (lm_data m) key in Ok (v, with_lru m d).

Definition lru_update (m : LruMap C) (key value : str) (flags : Z) : BpfResult (LruMap C) :=
  validate_len (lm_key_size m) key;;
  validate_len (lm_value_size m) value;;
  check_update_flags flags (lru_contains (lm_data m) key);;
  Ok (with_lru m (lru_put (lm_data m) key value)).

Definition lru_delete (m : LruMap C) (key : str) : BpfResult (LruMap C) :=
  validate_len (lm_key_size m) key;; Ok (with_lru m (lru_pop (lm_data m) key)).

(** [value[..v.len()].copy_from_slice(v)], then [pop]. *)
Definition lru_lookup_and_delete (m : LruMap C) (key value : str) : BpfResult (str * LruMap C) :=
  validate_len (lm_key_size m) key;;
  validate_len (lm_value_size m) value;;
  let '(o, d) := lru_get (lm_data m) key in
  v ← ok_or o ENOENT;
  value ← unwrap (slice_copy value 0 (length v) v);
  Ok (value, with_lru m (lru_pop d key)).

Definition lru_get_next_key (m : LruMap C) : option str → str → BpfResult str :=
  next_key_of (lru_iter (lm_data m)) (lm_key_size m) (lru_contains (lm_data m)).

#[export] Instance LruMap_ops : BpfMapCommonOps (LruMap C) := {
  lookup_elem := lru_lookup;
  update_elem := lru_update;
  delete_elem := lru_delete;
  for_each_elem S m cb s flags :=
    if negb (flags =? 0) then Err EINVAL else iter_for_each (lru_iter (lm_data m)) cb s 0;
  lookup_and_delete_elem := lru_lookup_and_delete;
  lookup_percpu_elem _ _ _ := eperm;
  get_next_key := lru_get_next_key;
  push_elem _ _ _ := eperm;
  pop_elem _ _ := eperm;
  peek_elem _ _ := eperm;
  freeze _ := eperm;
  map_values_len _ := eperm;
  map_mem_usage m := iter_mem_usage (lru_iter (lm_data m)) 0;
}.
End lru.

(** ** Queue and stack maps (queue.rs) *)

(** The trait [SpecialMap]. *)
Class SpecialMap (T : Type) := {
  sp_push : T → str → Z → BpfResult T;
  sp_pop : T → option (str * T);
  sp_peek : T → option str;
  sp_value_size : T → Z;
  sp_mem_usage : T → BpfResult Z;
}.

Record QueueMap := { qm_max_entries : Z; qm_value_size : Z; qm_data : list str }.
Record StackMap := { sm_queue : QueueMap }.

Definition with_queue (q : QueueMap) (d : list str) : QueueMap :=
  {| qm_max_entries := qm_max_entries q; qm_value_size := qm_value_size q; qm_data := d |}.

Definition QueueMap_new (m : BpfMapMeta) : BpfResult QueueMap :=
  if (value_size m =? 0) || (max_entries m =? 0) || negb (key_size m =? 0) then Err EINVAL else
  Ok {| qm_max_entries := max_entries m; qm_value_size := value_size m; qm_data := [] |}.
Definition StackMap_new (m : BpfMapMeta) : BpfResult StackMap :=
  (λ q, {| sm_queue := q |}) <$> QueueMap_new m.

Definition queue_full (q : QueueMap) : bool := Z.of_nat (length (qm_data q)) =? qm_max_entries q.

(** A full queue drops its oldest element ([remove(0)] of a non-empty
    vector). *)
Definition queue_push (q : QueueMap) (value : str) (flags : Z) : BpfResult QueueMap :=
  if negb (flags =? 0) then Err EINVAL else
  d ← (if queue_full q then match qm_data q with [] => Panic | _ :: d => Ok d end
       else Ok (qm_data q));
  Ok (with_queue q (d ++ [value])).
Definition queue_pop (q : QueueMap) : option (str * QueueMap) :=
  match qm_data q with [] => None | v :: d => Some (v, with_queue q d) end.

Fixpoint queue_mem_usage `{BuildMode} (l : list str) (total : Z) : BpfResult Z :=
  match l with
  | [] => Ok total
  | v :: l => total ← arith 64 (total + Z.of_nat (length v)); queue_mem_usage l total
  end.

#[export] Instance QueueMap_special `{BuildMode} : SpecialMap QueueMap := {
  sp_push := queue_push;
  sp_pop := queue_pop;
  sp_peek q := head (qm_data q);
  sp_value_size := qm_value_size;
  sp_mem_usage q := queue_mem_usage (qm_data q) 0;
}.

(** [Vec::pop]. *)
Definition vec_pop {A} (l : list A) : option (A * list A) :=
  match last l with Some x => Some (x, take (length l - 1) l) | None => None end.

Definition with_stack (s : StackMap) (d : list str) : StackMap := {| sm_queue := with_queue (sm_queue s) d |}.

Definition stack_push (s : StackMap) (value : str) (flags : Z) : BpfResult StackMap :=
  let d := qm_data (sm_queue s) in
  d ← (if queue_full (sm_queue s) then
         if contains flags BPF_EXISTS then Ok (default d (snd <$> vec_pop d)) else Err ENOMEM
       else Ok d);
  Ok (with_stack s (d ++ [value])).
Definition stack_pop (s : StackMap) : option (str * StackMap) :=
  match vec_pop (qm_data (sm_queue s)) with
  | Some (v, d) => Some (v, with_stack s d)
  | None => None
  end.

#[export] Instance StackMap_special `{BuildMode} : SpecialMap StackMap := {
  sp_push := stack_push;
  sp_pop := stack_pop;
  sp_peek s := last (qm_data (sm_queue s));
  sp_value_size s := qm_value_size (sm_queue s);
  sp_mem_usage s := queue_mem_usage (qm_data (sm_queue s)) 0;
}.

(** [impl<T: SpecialMap> BpfMapCommonOps for T]. *)
Section special.
Context {T : Type} `{SpecialMap T}.

Definition special_lookup (m : T) (key : str) : BpfResult (option str * T) :=
  if negb (length key =? 0)%nat then Err EINVAL else Ok (sp_peek m, m).

Definition special_update (m : T) (key value : str) (flags : Z) : BpfResult T :=
  if negb (length key =? 0)%nat || negb (Z.of_nat (length value) =? sp_value_size m) then Err EINVAL else
  flag ← ok_or (from_bits UPDATE_ALL flags) EINVAL;
  if contains flag BPF_F_LOCK || (contains flag BPF_NOEXIST && contains flag BPF_EXISTS) then Err EINVAL else
  sp_push m value flag.

Definition special_lookup_and_delete (m : T) (key value : str) : BpfResult (str * T) :=
  if negb (length key =? 0)%nat || negb (Z.of_nat (length value) =? sp_value_size m) then Err EINVAL else
  match sp_pop m with
  | Some (v, m) => v ← copy_from value v; Ok (v, m)
  | None => Err ENOENT
  end.

Definition special_peek (m : T) (value : str) : BpfResult str :=
  if negb (Z.of_nat (length value) =? sp_value_size m) then Err EINVAL else
  v ← ok_or (sp_peek m) ENOENT; copy_from value v.

Definition special_ops : BpfMapCommonOps T := {|
  lookup_elem := special_lookup;
  update_elem := special_update;
  delete_elem _ _ := eperm;
  for_each_elem _ _ _ _ _ := eperm;
  lookup_and_delete_elem := special_lookup_and_delete;
  lookup_percpu_elem _ _ _ := eperm;
  get_next_key _ _ _ := eperm;
  push_elem m value flags := special_update m [] value flags;
  pop_elem m value := special_lookup_and_delete m [] value;
  peek_elem := special_peek;
  freeze _ := eperm;
  map_values_len _ := eperm;
  map_mem_usage := sp_mem_usage;
|}.
End special.
#[export] Instance QueueMap_ops `{BuildMode} : BpfMapCommonOps QueueMap := special_ops.
#[export] Instance StackMap_ops `{BuildMode} : BpfMapCommonOps StackMap := special_ops.
