(* ===== verification/Unified.v ===== *)
(** Per-CPU maps, [UnifiedMap], map creation ([bpf_map_create]) and the map
    system calls of bpf-basic/src/map/mod.rs.

    The kernel supplies per-CPU storage, the file descriptor table and the
    copies to and from user memory: parameters here. *)
From S2P Require Import Prelude BpfBase RingMem RingBuf Maps.

(** ** Per-CPU storage: [PerCpuVariantsOps] and [PerCpuVariants] *)
Class PerCpuVariantsOps := {
  PC : Type → Type;
  pc_create : ∀ T, T → option (PC T);
  pc_num_cpus : Z;
  (* [get]/[get_mut] on the given current CPU, and the store through them *)
  pc_get : ∀ T, PC T → Z → T;
  pc_set : ∀ T, PC T → Z → T → PC T;
  (* [force_get_mut]: [None] is a CPU the implementation rejects *)
  pc_force_get : ∀ T, PC T → Z → option T;
}.
Arguments pc_create {_ T} _.
Arguments pc_get {_ T} _ _.
Arguments pc_set {_ T} _ _ _.
Arguments pc_force_get {_ T} _ _.

Section percpu.
Context `{PerCpuVariantsOps} {M : Type} `{BpfMapCommonOps M} (cpu : Z).

Definition on_cpu {A} (f : M → BpfResult (A * M)) (p : PC M) : BpfResult (A * PC M) :=
  '(a, m) ← f (pc_get p cpu); Ok (a, pc_set p cpu m).
Definition on_cpu_ (f : M → BpfResult M) (p : PC M) : BpfResult (PC M) :=
  m ← f (pc_get p cpu); Ok (pc_set p cpu m).

Definition lookup_percpu (p : PC M) (key : str) (c : Z) : BpfResult (option str * PC M) :=
  m ← unwrap (pc_force_get p c); '(v, m) ← lookup_elem m key; Ok (v, pc_set p c m).

(** [PerCpuHashMap] and [PerCpuLruMap]. *)
Definition PerCpuHashMap_ops : BpfMapCommonOps (PC M) := {|
  lookup_elem p key := on_cpu (λ m, lookup_elem m key) p;
  update_elem p key value flags := on_cpu_ (λ m, update_elem m key value flags) p;
  delete_elem p key := on_cpu_ (λ m, delete_elem m key) p;
  for_each_elem S p cb s flags := for_each_elem S (pc_get p cpu) cb s flags;
  lookup_and_delete_elem p key value := on_cpu (λ m, lookup_and_delete_elem m key value) p;
  lookup_percpu_elem := lookup_percpu;
  get_next_key p := get_next_key (pc_get p cpu);
  push_elem _ _ _ := eperm;
  pop_elem _ _ := eperm;
  peek_elem _ _ := eperm;
  freeze _ := eperm;
  map_values_len _ := eperm;
  map_mem_usage p := map_mem_usage (pc_get p cpu);
|}.
Definition PerCpuLruMap_ops : BpfMapCommonOps (PC M) := PerCpuHashMap_ops.

(** [PerCpuArrayMap]. *)
Definition PerCpuArrayMap_ops : BpfMapCommonOps (PC M) := {|
  lookup_elem p key := on_cpu (λ m, lookup_elem m key) p;
  update_elem p key value flags := on_cpu_ (λ m, update_elem m key value flags) p;
  delete_elem p key := on_cpu_ (λ m, delete_elem m key) p;
  for_each_elem S p cb s flags := for_each_elem S (pc_get p cpu) cb s flags;
  lookup_and_delete_elem _ _ _ := Err EINVAL;
  lookup_percpu_elem := lookup_percpu;
  get_next_key p := get_next_key (pc_get p cpu);
  push_elem _ _ _ := eperm;
  pop_elem _ _ := eperm;
  peek_elem _ _ := eperm;
  freeze _ := eperm;
  map_values_len p := map_values_len (pc_get p cpu);
  map_mem_usage p := map_mem_usage (pc_get p cpu);
|}.
End percpu.

(** [T::create(map).ok_or(EINVAL)] after the inner constructor. *)
Definition per_cpu_new `{PerCpuVariantsOps} {M} (m : BpfResult M) : BpfResult (PC M) :=
  m ← m; ok_or (pc_create m) EINVAL.

(** ** [UnifiedMap] *)
Section unified.
Context `{BuildMode} `{PerCpuVariantsOps} {C : Type} `{LruCache C}.

(** [Box<dyn BpfMapCommonOps>]; a ring buffer is the address of its
    mapping. *)
Inductive AnyMap :=
  | MArray (m : ArrayMap)
  | MPerCpuArray (m : PC ArrayMap)
  | MPerfEventArray (m : PerfEventArrayMap)
  | MHash (m : BpfHashMap)
  | MPerCpuHash (m : PC BpfHashMap)
  | MQueue (m : QueueMap)
  | MStack (m : StackMap)
  | MLru (m : LruMap C)
  | MPerCpuLru (m : PC (LruMap C))
  | MRingBuf (base : Z).

Record UnifiedMap := { inner_map : AnyMap; map_meta : BpfMapMeta }.
Definition with_inner (u : UnifiedMap) (m : AnyMap) : UnifiedMap :=
  {| inner_map := m; map_meta := map_meta u |}.

(** The downcast of the ring-buffer helpers. *)
Definition ring_ref (u : UnifiedMap) : option Z :=
  match inner_map u with MRingBuf base => Some base | _ => None end.

(** [bpf_map_create]; a ring buffer lives in the heap of mappings and uses
    the kernel's pages. *)
Definition bpf_map_create {S} `{PageOps S} (m : BpfMapMeta) (has_waker : bool)
    (init_data : list Z) (h : Heap) (s : S) : BpfResult UnifiedMap * Heap * S :=
  let pure (r : BpfResult AnyMap) : BpfResult UnifiedMap * Heap * S :=
    ((λ i, {| inner_map := i; map_meta := m |}) <$> r, h, s) in
  match map_type m with
  | BPF_MAP_TYPE_ARRAY => pure (MArray <$> ArrayMap_new m)
  | BPF_MAP_TYPE_PERCPU_ARRAY => pure (MPerCpuArray <$> per_cpu_new (ArrayMap_new m))
  | BPF_MAP_TYPE_PERF_EVENT_ARRAY => pure (MPerfEventArray <$> PerfEventArrayMap_new m pc_num_cpus)
  | BPF_MAP_TYPE_CPUMAP | BPF_MAP_TYPE_DEVMAP | BPF_MAP_TYPE_DEVMAP_HASH => pure (Err EPERM)
  | BPF_MAP_TYPE_HASH => pure (MHash <$> BpfHashMap_new m)
  | BPF_MAP_TYPE_PERCPU_HASH => pure (MPerCpuHash <$> per_cpu_new (BpfHashMap_new m))
  | BPF_MAP_TYPE_QUEUE => pure (MQueue <$> QueueMap_new m)
  | BPF_MAP_TYPE_STACK => pure (MStack <$> StackMap_new m)
  | BPF_MAP_TYPE_LRU_HASH => pure (MLru <$> LruMap_new m)
  | BPF_MAP_TYPE_LRU_PERCPU_HASH => pure (MPerCpuLru <$> per_cpu_new (LruMap_new m))
  | BPF_MAP_TYPE_RINGBUF =>
      if negb has_waker then pure (Err EINVAL) else
      match RingBuf_new m init_data s with
      | (Ok (base, rb), s) => (Ok {| inner_map := MRingBuf base; map_meta := m |}, <[base := rb]> h, s)
      | (Err e, s) => (Err e, h, s)
      | (Panic, s) => (Panic, h, s)
      | (OutOfFuel, s) => (OutOfFuel, h, s)
      end
  | _ => pure (Err EPERM)
  end.

(** Dynamic dispatch, on the current CPU [cpu] and the mapped rings [h]. *)
Section dispatch.
Context (cpu : Z) (h : Heap).

Definition lift1 {M A} (k : M → AnyMap) (r : BpfResult (A * M)) : BpfResult (A * AnyMap) :=
  '(a, m) ← r; Ok (a, k m).
Definition lift0 {M} (k : M → AnyMap) (r : BpfResult M) : BpfResult AnyMap := k <$> r.

Definition with_ops {R} (f : ∀ M, BpfMapCommonOps M → (M → AnyMap) → M → R) (ring : Z → R) (a : AnyMap) : R :=
  match a with
  | MArray m => f _ _ MArray m
  | MPerCpuArray m => f _ (PerCpuArrayMap_ops cpu) MPerCpuArray m
  | MPerfEventArray m => f _ _ MPerfEventArray m
  | MHash m => f _ _ MHash m
  | MPerCpuHash m => f _ (PerCpuHashMap_ops cpu) MPerCpuHash m
  | MQueue m => f _ _ MQueue m
  | MStack m => f _ _ MStack m
  | MLru m => f _ _ MLru m
  | MPerCpuLru m => f _ (PerCpuLruMap_ops cpu) MPerCpuLru m
  | MRingBuf base => ring base
  end.

#[export] Instance AnyMap_ops : BpfMapCommonOps AnyMap := {
  lookup_elem a key := with_ops (λ M _ k m, lift1 k (lookup_elem m key)) (λ _, eperm) a;
  update_elem a key value flags := with_ops (λ M _ k m, lift0 k (update_elem m key value flags)) (λ _, eperm) a;
  delete_elem a key := with_ops (λ M _ k m, lift0 k (delete_elem m key)) (λ _, eperm) a;
  for_each_elem S a cb s flags := with_ops (λ M _ k m, for_each_elem S m cb s flags) (λ _, eperm) a;
  lookup_and_delete_elem a key value :=
    with_ops (λ M _ k m, lift1 k (lookup_and_delete_elem m key value)) (λ _, eperm) a;
  lookup_percpu_elem a key c := with_ops (λ M _ k m, lift1 k (lookup_percpu_elem m key c)) (λ _, eperm) a;
  get_next_key a key next := with_ops (λ M _ k m, get_next_key m key next) (λ _, eperm) a;
  push_elem a value flags := with_ops (λ M _ k m, lift0 k (push_elem m value flags)) (λ _, eperm) a;
  pop_elem a value := with_ops (λ M _ k m, lift1 k (pop_elem m value)) (λ _, eperm) a;
  peek_elem a value := with_ops (λ M _ k m, peek_elem m value) (λ _, eperm) a;
  freeze a := with_ops (λ M _ k m, freeze m) (λ _, eperm) a;
  map_values_len a := with_ops (λ M _ k m, map_values_len m) (λ _, eperm) a;
  map_mem_usage a :=
    with_ops (λ M _ k m, map_mem_usage m)
      (λ base, rb ← unwrap (h !! base); RingBuf.map_mem_usage rb) a;
}.
End dispatch.

(** ** System calls *)

(** [BpfMapUpdateArg] and [BpfMapGetNextKeyArg]. *)
Record BpfMapUpdateArg := { ua_map_fd : Z; ua_key : Z; ua_value : Z; ua_flags : Z }.
Record BpfMapGetNextKeyArg := { na_map_fd : Z; na_key : option Z; na_next_key : Z }.

(** [From<&bpf_attr>]: a null key pointer asks for the first key. *)
Definition next_key_arg_from (map_fd key next_key : Z) : BpfMapGetNextKeyArg :=
  {| na_map_fd := map_fd; na_key := if negb (key =? 0) then Some key else None; na_next_key := next_key |}.

(** User memory, the copies, and the table that maps descriptors to maps. *)
Class UserMem (U : Type) := {
  copy_from_user : U → Z → Z → BpfResult str;
  copy_to_user : U → Z → Z → str → BpfResult U;
}.

Section syscalls.
Context {U : Type} `{UserMem U} (fd_lookup : Z → BpfResult Z) (cpu : Z) (h : Heap).
#[local] Existing Instance AnyMap_ops.

(** The maps that exist, by identity. *)
Abbreviation Store := (gmap Z UnifiedMap).
#[local] Instance cur_ops : BpfMapCommonOps AnyMap := AnyMap_ops cpu h.

(** The closure run under [get_unified_map_from_fd]; [f] returns its result
    and the map after it. *)
Definition with_fd {A} (st : Store) (fd : Z) (f : UnifiedMap → BpfResult A * AnyMap) : BpfResult A * Store :=
  match fd_lookup fd with
  | Ok id =>
      match st !! id with
      | Some u => let '(r, m) := f u in (r, <[id := with_inner u m]> st)
      | None => (Panic, st)
      end
  | Err e => (Err e, st)
  | Panic => (Panic, st)
  | OutOfFuel => (OutOfFuel, st)
  end.

(** Run an operation that changes the map only when it succeeds. *)
Definition commit_map {A} (m : AnyMap) (r : BpfResult (A * AnyMap)) : BpfResult A * AnyMap :=
  match r with
  | Ok (a, m) => (Ok a, m)
  | Err e => (Err e, m)
  | Panic => (Panic, m)
  | OutOfFuel => (OutOfFuel, m)
  end.

Definition bpf_map_update_elem (um : U) (st : Store) (arg : BpfMapUpdateArg) : BpfResult () * Store :=
  with_fd st (ua_map_fd arg) (λ u,
    commit_map (inner_map u)
      (key ← copy_from_user um (ua_key arg) (key_size (map_meta u));
       value ← copy_from_user um (ua_value arg) (value_size (map_meta u));
       m ← update_elem (inner_map u) key value (ua_flags arg);
       Ok ((), m))).

Definition bpf_map_freeze (st : Store) (map_fd : Z) : BpfResult () * Store :=
  with_fd st map_fd (λ u, (freeze (inner_map u), inner_map u)).

(** The lookup may reorder an LRU map before the copy fails. *)
Definition bpf_lookup_elem (um : U) (st : Store) (arg : BpfMapUpdateArg) : BpfResult U * Store :=
  with_fd st (ua_map_fd arg) (λ u,
    let '(r, m) := commit_map (inner_map u)
      (key ← copy_from_user um (ua_key arg) (key_size (map_meta u));
       lookup_elem (inner_map u) key) in
    (o ← r;
     match o with
     | Some v => copy_to_user um (ua_value arg) (value_size (map_meta u)) v
     | None => Err ENOENT
     end, m)).

Definition bpf_map_get_next_key (um : U) (st : Store) (arg : BpfMapGetNextKeyArg) : BpfResult U * Store :=
  with_fd st (na_map_fd arg) (λ u,
    let ksize := key_size (map_meta u) in
    (next ← match na_key arg with
            | Some ptr =>
                key ← copy_from_user um ptr ksize;
                get_next_key (inner_map u) (Some key) (zeros ksize)
            | None => get_next_key (inner_map u) None (zeros ksize)
            end;
     copy_to_user um (na_next_key arg) ksize next, inner_map u)).

Definition bpf_map_delete_elem (um : U) (st : Store) (arg : BpfMapUpdateArg) : BpfResult () * Store :=
  with_fd st (ua_map_fd arg) (λ u,
    commit_map (inner_map u)
      (key ← copy_from_user um (ua_key arg) (key_size (map_meta u));
       m ← delete_elem (inner_map u) key;
       Ok ((), m))).

Definition bpf_map_lookup_batch (arg : BpfMapUpdateArg) : BpfResult Z := Err EPERM.

(** The element is gone even when the copy to user space fails. *)
Definition bpf_map_lookup_and_delete_elem (um : U) (st : Store) (arg : BpfMapUpdateArg) : BpfResult U * Store :=
  with_fd st (ua_map_fd arg) (λ u,
    let '(r, m) := commit_map (inner_map u)
      (key ← copy_from_user um (ua_key arg) (key_size (map_meta u));
       lookup_and_delete_elem (inner_map u) key (zeros (value_size (map_meta u)))) in
    (value ← r; copy_to_user um (ua_value arg) (value_size (map_meta u)) value, m)).
End syscalls.
End unified.
