(* ===== verification/MapProps.v ===== *)
(** Properties of the BPF maps: the array map refines a list of cells, the
    hash map a bounded finite map with ordered enumeration, the LRU map
    evicts the least recently used key, queues are FIFO and stacks LIFO. *)
From S2P Require Import Prelude BpfBase Maps.

(** ** Array maps against a list of cells *)

Record array_ok (m : ArrayMap) : Prop := {
  ao_size : 0 < am_value_size m;
  ao_max : 0 < am_max_entries m;
  ao_elem : elem_size (am_data m) = am_value_size m;
  ao_fit : am_value_size m * am_max_entries m < 2 ^ 32;
  ao_len : Z.of_nat (length (adata (am_data m))) = am_value_size m * am_max_entries m;
}.

(** The cell of an index, and all cells. *)
Definition cell (m : ArrayMap) (i : nat) : str :=
  take (Z.to_nat (am_value_size m)) (drop (i * Z.to_nat (am_value_size m)) (adata (am_data m))).
Definition cells (m : ArrayMap) : list str := map (cell m) (seq 0 (Z.to_nat (am_max_entries m))).

(** The abstract array: a list of values of one size. *)
Definition spec_index (cs : list str) (key : str) : BpfResult str :=
  if (length key =? 4)%nat then ok_or (cs !! Z.to_nat (u32_key key)) EINVAL else Err EINVAL.
Definition spec_update (vsize : Z) (cs : list str) (key value : str) (flags : Z) : BpfResult (list str) :=
  if negb (length key =? 4)%nat || negb (Z.of_nat (length value) =? vsize) then Err EINVAL else
  fl ← ok_or (from_bits UPDATE_ALL flags) EINVAL;
  if contains fl BPF_F_LOCK then Err EINVAL else
  if contains fl BPF_NOEXIST then Err EEXIST else
  _ ← spec_index cs key;
  Ok (<[Z.to_nat (u32_key key) := value]> cs).

Lemma array_bounds_ok `{BuildMode} m i :
  array_ok m → 0 ≤ i < am_max_entries m →
  let vs := Z.to_nat (am_value_size m) in
  array_bounds (am_data m) i = Ok ((Z.to_nat i * vs)%nat, (Z.to_nat i * vs + vs)%nat) ∧
  (Z.to_nat i * vs + vs ≤ length (adata (am_data m)))%nat.
Proof.
  intros [Hs Hm He Hf Hl] Hi. unfold array_bounds. rewrite He.
  assert (i * am_value_size m + am_value_size m ≤ am_value_size m * am_max_entries m) by nia.
  assert (0 ≤ i * am_value_size m) by nia. cbv zeta. split.
  - arith_step. arith_step. f_equal. f_equal; lia.
  - rewrite <- (Nat2Z.id (length _)), Hl. lia.
Qed.

Lemma array_index_ok `{BuildMode} m i :
  array_ok m → 0 ≤ i < am_max_entries m → array_index (am_data m) i = Ok (cell m (Z.to_nat i)).
Proof.
  intros Hok Hi. destruct (array_bounds_ok m i Hok Hi) as [Hb Hl].
  unfold array_index. rewrite Hb. cbn [mbind res_bind]. rewrite slice_some by lia. simpl.
  unfold cell. do 2 f_equal. lia.
Qed.

Lemma cells_lookup m i : 0 ≤ i →
  cells m !! Z.to_nat i = if i <? am_max_entries m then Some (cell m (Z.to_nat i)) else None.
Proof.
  intros Hi. unfold cells. destruct (Z.ltb_spec i (am_max_entries m)).
  - rewrite list_lookup_fmap, lookup_seq_lt by lia. done.
  - apply lookup_ge_None_2. rewrite length_map, length_seq. lia.
Qed.

Lemma length_cell m i : array_ok m → (i < Z.to_nat (am_max_entries m))%nat →
  length (cell m i) = Z.to_nat (am_value_size m).
Proof.
  intros [Hs Hm He Hf Hl] Hi. unfold cell. rewrite length_take, length_drop.
  assert ((i * Z.to_nat (am_value_size m) + Z.to_nat (am_value_size m) ≤
    length (adata (am_data m)))%nat); [|lia].
  apply Nat2Z.inj_le. rewrite Hl. nia.
Qed.

(** A store changes one cell. *)
Lemma cell_splice m i j xs :
  array_ok m → (i < Z.to_nat (am_max_entries m))%nat → (j < Z.to_nat (am_max_entries m))%nat →
  length xs = Z.to_nat (am_value_size m) →
  let d := {| elem_size := elem_size (am_data m);
              adata := splice (adata (am_data m)) (i * Z.to_nat (am_value_size m)) xs |} in
  cell (with_data m d) j = if decide (i = j) then xs else cell m j.
Proof.
  intros Hok Hi Hj Hx d. pose proof Hok as [Hs Hm He Hf Hl].
  set (vs := Z.to_nat (am_value_size m)) in *. set (dat := adata (am_data m)) in *.
  assert (∀ k, k < Z.to_nat (am_max_entries m) → k * vs + vs ≤ length dat)%nat as Hb.
  { intros k Hk. unfold vs. apply Nat2Z.inj_le. rewrite Hl. nia. }
  assert (cell (with_data m d) j = default [] (slice (splice dat (i * vs) xs) (j * vs) (j * vs + vs))) as ->.
  { unfold cell. simpl. fold vs. rewrite slice_some; [|lia|rewrite length_splice; rewrite ?Hx; auto].
    simpl. f_equal. lia. }
  assert (cell m j = default [] (slice dat (j * vs) (j * vs + vs))) as ->.
  { unfold cell. fold vs. fold dat. rewrite slice_some by (auto; lia). simpl. f_equal. lia. }
  case_decide as E; [subst j|].
  - replace (i * vs + vs)%nat with (i * vs + length xs)%nat by lia.
    by rewrite slice_splice_same by (rewrite Hx; auto).
  - rewrite slice_splice_other; [done|rewrite Hx; auto|]. rewrite Hx. nia.
Qed.

Lemma array_set_ok `{BuildMode} m i xs :
  array_ok m → 0 ≤ i < am_max_entries m → Z.of_nat (length xs) = am_value_size m →
  ∃ d, array_set (am_data m) i xs = Ok d ∧ array_ok (with_data m d) ∧
       cells (with_data m d) = <[Z.to_nat i := xs]> (cells m).
Proof.
  intros Hok Hi Hx. destruct (array_bounds_ok m i Hok Hi) as [Hb Hl].
  unfold array_set. rewrite Hb. cbn [mbind res_bind].
  rewrite slice_copy_some by lia. cbn [unwrap mbind res_bind]. eexists. split; [done|].
  pose proof Hok as [Hs Hm He Hf Hlen]. split.
  - split; simpl; try done. rewrite length_splice by lia. done.
  - apply list_eq. intros j. unfold cells at 1. simpl am_max_entries.
    destruct (decide (j < Z.to_nat (am_max_entries m))%nat) as [Hj|Hj].
    + rewrite list_lookup_fmap, lookup_seq_lt by done. simpl.
      rewrite cell_splice by (done || lia). case_decide as E; [subst j|].
      * rewrite list_lookup_insert_eq; [done|]. unfold cells. rewrite length_map, length_seq. lia.
      * rewrite list_lookup_insert_ne by done. unfold cells.
        by rewrite list_lookup_fmap, lookup_seq_lt by done.
    + rewrite !lookup_ge_None_2; [done|..]; unfold cells; rewrite ?length_insert, ?length_map, ?length_seq; lia.
Qed.

Lemma u32_key_range key : Forall is_byte key → (length key =? 4)%nat = true → 0 ≤ u32_key key < 2 ^ 32.
Proof. intros Hb Hl%Nat.eqb_eq. pose proof (le_dec_range key Hb) as Hr. by rewrite Hl in Hr. Qed.

(** The array map is a refinement of a list of fixed-size cells: on a
    well-formed map, lookups and updates never panic and return what the
    list returns, errors included, and an update changes exactly its own
    cell and keeps the map well-formed. *)
Lemma array_map_refines `{BuildMode} m key value flags :
  array_ok m → Forall is_byte key →
  (fst <$> lookup_elem m key) = Some <$> spec_index (cells m) key ∧
  match update_elem m key value flags, spec_update (am_value_size m) (cells m) key value flags with
  | Ok m', Ok cs => array_ok m' ∧ cells m' = cs
  | Err e, Err e' => e = e'
  | _, _ => False
  end.
Proof.
  intros Hok Hb. split.
  - simpl. unfold array_lookup, spec_index. destruct (length key =? 4)%nat eqn:Hk; [|done]. simpl.
    pose proof (u32_key_range key Hb Hk) as Hr. rewrite cells_lookup by lia.
    destruct (Z.leb_spec (am_max_entries m) (u32_key key)), (Z.ltb_spec (u32_key key) (am_max_entries m));
      try lia; [done|]. by rewrite array_index_ok by (done || lia).
  - simpl. unfold array_update, spec_update, spec_index.
    destruct (length key =? 4)%nat eqn:Hk; [|done].
    destruct (Z.eqb_spec (Z.of_nat (length value)) (am_value_size m)) as [Hv|]; [|done]. simpl.
    destruct (from_bits UPDATE_ALL flags) as [fl|]; [|done]. simpl.
    destruct (contains fl BPF_F_LOCK); [done|]. destruct (contains fl BPF_NOEXIST); [done|].
    pose proof (u32_key_range key Hb Hk) as Hr. rewrite cells_lookup by lia.
    destruct (Z.leb_spec (am_max_entries m) (u32_key key)), (Z.ltb_spec (u32_key key) (am_max_entries m));
      try lia; [done|]. destruct (array_set_ok m (u32_key key) value Hok ltac:(lia) Hv) as (d & -> & ? & ?).
    done.
Qed.

(** ** Enumerating keys *)

(** Walking a map as user space does: from no key, then from the last key
    returned, until an error. *)
Fixpoint walk (next : option str → BpfResult str) (fuel : nat) (key : option str) : list str :=
  match fuel with
  | O => []
  | S fuel => match next key with Ok k => k :: walk next fuel (Some k) | _ => [] end
  end.

Lemma next_after_suffix l1 k v l2 :
  NoDup (l1 ++ (k, v) :: l2).*1 → next_after k (l1 ++ (k, v) :: l2) = head l2.
Proof.
  induction l1 as [|[k' v'] l1 IH]; simpl; intros Hnd.
  - by rewrite decide_True.
  - apply NoDup_cons in Hnd as [Hni Hnd]. rewrite decide_False; [by apply IH|].
    intros ->. apply Hni. rewrite fmap_app. set_solver.
Qed.

Section walking.
Context (iter : list (str * str)) (ksize : Z) (present : str → bool).
Hypothesis Hnd : NoDup iter.*1.
Hypothesis Hks : 0 ≤ ksize.
Hypothesis Hlen : Forall (λ p, Z.of_nat (length p.1) = ksize) iter.
Hypothesis Hpres : ∀ k, present k = true ↔ k ∈ iter.*1.
Let next key := next_key_of iter ksize present key (zeros ksize).

Lemma next_spec key l1 l2 :
  iter = l1 ++ l2 →
  key = match last l1 with Some (k, _) => Some k | None => None end →
  next key = match l2 with (k, _) :: _ => Ok k | [] => Err ENOENT end.
Proof using Hnd Hks Hlen Hpres.
  intros Hi Hk. unfold next, next_key_of. rewrite length_zeros by done. rewrite Z.eqb_refl. simpl negb. cbv match.
  assert (match key with
          | None => Ok (head iter)
          | Some key => validate_len ksize key;; Ok (if present key then next_after key iter else head iter)
          end = Ok (E:=BpfError) (head l2)) as ->.
  { destruct (last l1) as [[k v]|] eqn:Hl; subst key.
    - apply last_Some in Hl as [l1' ->]. rewrite <- app_assoc in Hi. simpl in Hi.
      unfold validate_len. rewrite Hi in Hlen. apply Forall_app in Hlen as [_ Hlen2].
      apply Forall_cons in Hlen2 as [Hk _]. simpl in Hk. rewrite Hk, Z.eqb_refl. simpl.
      rewrite (proj2 (Hpres k)); [|rewrite Hi, fmap_app; set_solver].
      rewrite Hi, next_after_suffix; [done|]. by rewrite <- Hi.
    - apply last_None in Hl as ->. by rewrite Hi. }
  simpl. destruct l2 as [|[k v] l2]; [done|]. simpl. unfold copy_from.
  rewrite Hi in Hlen. apply Forall_app in Hlen as [_ Hlen2]. apply Forall_cons in Hlen2 as [Hlk _].
  simpl in Hlk. assert (length (zeros ksize) = length k) as -> by (pose proof (length_zeros ksize Hks); lia).
  by rewrite Nat.eqb_refl.
Qed.

Lemma walk_spec l1 l2 fuel key :
  iter = l1 ++ l2 → (length l2 < fuel)%nat →
  key = match last l1 with Some (k, _) => Some k | None => None end →
  walk next fuel key = l2.*1.
Proof using Hnd Hks Hlen Hpres.
  revert l1 fuel key. induction l2 as [|[k v] l2 IH]; intros l1 fuel key Hi Hf Hk.
  - destruct fuel; [done|]. simpl. by rewrite (next_spec _ _ _ Hi Hk).
  - destruct fuel; [simpl in Hf; lia|]. simpl. rewrite (next_spec _ _ _ Hi Hk). f_equal.
    apply (IH (l1 ++ [(k, v)])); [by rewrite <- app_assoc|simpl in Hf; lia|by rewrite last_snoc].
Qed.
End walking.

(** ** Hash maps *)

Record hash_ok (m : BpfHashMap) : Prop := {
  ho_ksize : 0 ≤ hm_key_size m;
  ho_sizes : map_Forall (λ k v, Z.of_nat (length k) = hm_key_size m ∧
                                Z.of_nat (length v) = hm_value_size m) (hm_data m);
  ho_room : Z.of_nat (size (hm_data m)) ≤ hm_max_entries m;
}.

Lemma lex_leb_total a b : lex_leb a b = true ∨ lex_leb b a = true.
Proof.
  revert b. induction a as [|x a IH]; intros [|y b]; simpl; auto.
  destruct (Z.ltb_spec x y), (Z.ltb_spec y x); auto.
Qed.
Lemma lex_leb_trans a b c : lex_leb a b = true → lex_leb b c = true → lex_leb a c = true.
Proof.
  revert b c. induction a as [|x a IH]; intros [|y b] [|z c]; simpl; try done.
  destruct (Z.ltb_spec x y), (Z.ltb_spec y z), (Z.ltb_spec x z), (Z.ltb_spec y x), (Z.ltb_spec z y),
    (Z.ltb_spec z x); try done; try lia. apply IH.
Qed.

#[export] Instance key_le_total : Total key_le.
Proof. intros a b. apply lex_leb_total. Qed.
#[export] Instance key_le_trans : Transitive key_le.
Proof. intros a b c. apply lex_leb_trans. Qed.

Lemma btree_iter_perm m : btree_iter m ≡ₚ map_to_list m.
Proof. apply merge_sort_Permutation. Qed.

Lemma btree_iter_keys m k : k ∈ (btree_iter m).*1 ↔ is_Some (m !! k).
Proof.
  rewrite btree_iter_perm. rewrite list_elem_of_fmap. split.
  - intros ([k' v] & -> & Hin%elem_of_map_to_list). by eexists.
  - intros [v Hv]. exists (k, v). split; [done|]. by apply elem_of_map_to_list.
Qed.

(** C11: an update of a hash map succeeds exactly when key and value have
    the declared sizes, the flags are known, do not ask for a lock or for
    contradictory presence, agree with the presence of the key, and there is
    room for a new key; it then binds the key and keeps the map within its
    capacity.  A failed NOEXIST is EEXIST, a failed EXISTS is ENOENT, a full
    map is ENOMEM, everything else EINVAL. *)
Theorem hash_update_correct `{BuildMode} m key value flags :
  hash_ok m →
  let present := is_Some (hm_data m !! key) in
  let sizes := Z.of_nat (length key) = hm_key_size m ∧ Z.of_nat (length value) = hm_value_size m in
  match update_elem m key value flags with
  | Ok m' => sizes ∧ hash_ok m' ∧ hm_data m' = <[key := value]> (hm_data m) ∧
      (∃ fl, from_bits UPDATE_ALL flags = Some fl ∧ contains fl BPF_F_LOCK = false ∧
        (contains fl BPF_NOEXIST = true → ¬ present) ∧ (contains fl BPF_EXISTS = true → present)) ∧
      (present ∨ Z.of_nat (size (hm_data m)) < hm_max_entries m)
  | Err EEXIST => sizes ∧ present ∧ contains flags BPF_NOEXIST = true
  | Err ENOENT => sizes ∧ ¬ present ∧ contains flags BPF_EXISTS = true
  | Err ENOMEM => sizes ∧ ¬ present ∧ Z.of_nat (size (hm_data m)) = hm_max_entries m
  | Err EINVAL => ¬ sizes ∨ from_bits UPDATE_ALL flags = None ∨ contains flags BPF_F_LOCK = true ∨
      (contains flags BPF_NOEXIST = true ∧ contains flags BPF_EXISTS = true)
  | _ => False
  end.
Proof.
  intros [Hk0 Hsz Hroom] present sizes. simpl.
  unfold hash_update, validate_key, validate_value, validate_len, check_update_flags.
  destruct (Z.eqb_spec (Z.of_nat (length key)) (hm_key_size m)) as [Hk|Hk]; simpl; [|left; intros [? _]; done].
  destruct (Z.eqb_spec (Z.of_nat (length value)) (hm_value_size m)) as [Hv|Hv]; simpl; [|left; intros [_ ?]; done].
  destruct (from_bits UPDATE_ALL flags) as [fl|] eqn:Hfl; simpl; [|by right; left].
  pose proof Hfl as [-> _]%from_bits_spec.
  destruct (contains flags BPF_F_LOCK) eqn:El; simpl; [by right; right; left|].
  destruct (contains flags BPF_NOEXIST) eqn:En, (contains flags BPF_EXISTS) eqn:Ee; simpl;
    try (by right; right; right);
    destruct (bool_decide_reflect (is_Some (hm_data m !! key))) as [Hp|Hp]; simpl; try done;
    try (destruct (Z.leb_spec (hm_max_entries m) (Z.of_nat (size (hm_data m)))); simpl; [split; [done|split; [done|lia]]|]).
  all: split; [done|]; split; [|split; [done|split; [eexists; split; [done|]; split; [done|]; split; intros ?; congruence || done|auto]]].
  all: split; simpl; [done|by apply map_Forall_insert_2|].
  all: try (rewrite map_size_insert_None by (by apply eq_None_not_Some); lia).
  all: by rewrite map_size_insert_Some.
Qed.

Definition demo_hash : BpfHashMap :=
  {| hm_max_entries := 2; hm_key_size := 1; hm_value_size := 1; hm_data := {[ [5] := [50] ]} |}.
Lemma demo_hash_ok : hash_ok demo_hash.
Proof. split; simpl; [lia| |vm_compute; congruence]. by apply map_Forall_singleton. Qed.

Lemma hash_update_correct_witness :
  let _ : BuildMode := true in
  match update_elem demo_hash [6] [60] 1 with
  | Ok m' => hash_ok m' ∧ hm_data m' = <[ [6] := [60] ]> (hm_data demo_hash)
  | _ => False
  end.
Proof.
  intros b. pose proof (hash_update_correct demo_hash [6] [60] 1 demo_hash_ok) as H.
  change (update_elem demo_hash [6] [60] 1)
    with (Ok (E:=BpfError) (with_map demo_hash (<[ [6] := [60] ]> (hm_data demo_hash)))) in *.
  simpl in H. tauto.
Defined.

(** C34: walking a hash map with [get_next_key] from no key visits every
    key exactly once, in lexicographic order, and then ends. *)
Theorem hash_walk_enumerates m :
  hash_ok m →
  let keys := walk (λ k, hash_get_next_key m k (zeros (hm_key_size m))) (S (size (hm_data m))) None in
  NoDup keys ∧ (∀ k, k ∈ keys ↔ is_Some (hm_data m !! k)) ∧
  StronglySorted (λ a b, lex_leb a b = true) keys.
Proof.
  intros [Hk0 Hsz Hroom] keys.
  assert (NoDup (btree_iter (hm_data m)).*1) as Hnd.
  { rewrite btree_iter_perm. apply NoDup_fst_map_to_list. }
  assert (keys = (btree_iter (hm_data m)).*1) as ->.
  { unfold keys. apply (walk_spec _ _ _ Hnd Hk0) with (l1 := []); try done.
    - rewrite Forall_forall. intros [k v] Hin. rewrite btree_iter_perm in Hin.
      apply elem_of_map_to_list in Hin. by apply (Hsz k v Hin).
    - intros k. rewrite bool_decide_eq_true, btree_iter_keys. done.
    - rewrite (Permutation_length (btree_iter_perm _)), length_map_to_list. lia. }
  split; [done|]. split; [intros k; apply btree_iter_keys|].
  assert (StronglySorted key_le (btree_iter (hm_data m))) as Hs by (apply StronglySorted_merge_sort; apply _).
  clear -Hs. induction Hs as [|p l _ IH Hall]; simpl; constructor; [done|].
  apply Forall_fmap. exact Hall.
Qed.

Lemma hash_walk_enumerates_witness :
  let keys := walk (λ k, hash_get_next_key demo_hash k (zeros 1)) 2 None in
  NoDup keys ∧ (∀ k, k ∈ keys ↔ is_Some (hm_data demo_hash !! k)) ∧
  StronglySorted (λ a b, lex_leb a b = true) keys.
Proof. exact (hash_walk_enumerates demo_hash demo_hash_ok). Defined.

(** ** LRU maps *)

(** Documented behaviour of the LRU cache: its iterator lists the entries
    from most to least recently used, with distinct keys and at most [cap]
    of them; [get] moves the entry to the front, [put] inserts there and
    drops the last entry of a full cache, [pop] removes. *)
Definition drop_key (k : str) (l : list (str * str)) : list (str * str) := filter (λ p, p.1 ≠ k) l.
Definition find_key (k : str) (l : list (str * str)) : option str := snd <$> head (filter (λ p, p.1 = k) l).

Class LruLaws (C : Type) `{LruCache C} := {
  lru_wf : C → Z → Prop;
  lru_new_law cap : 0 < cap → lru_wf (lru_new cap) cap ∧ lru_iter (lru_new cap) = [];
  lru_bound c cap : lru_wf c cap → NoDup (lru_iter c).*1 ∧ Z.of_nat (length (lru_iter c)) ≤ cap;
  lru_contains_law c cap k : lru_wf c cap → lru_contains c k = bool_decide (k ∈ (lru_iter c).*1);
  lru_get_law c cap k : lru_wf c cap →
    let '(o, c') := lru_get c k in
    lru_wf c' cap ∧ o = find_key k (lru_iter c) ∧
    lru_iter c' = match o with Some v => (k, v) :: drop_key k (lru_iter c) | None => lru_iter c end;
  lru_put_law c cap k v : lru_wf c cap →
    lru_wf (lru_put c k v) cap ∧
    lru_iter (lru_put c k v) =
      (k, v) :: drop_key k (if decide (k ∈ (lru_iter c).*1) then lru_iter c
                            else take (Z.to_nat cap - 1) (lru_iter c));
  lru_pop_law c cap k : lru_wf c cap →
    lru_wf (lru_pop c k) cap ∧ lru_iter (lru_pop c k) = drop_key k (lru_iter c);
}.

Lemma find_key_none k l : k ∉ l.*1 → find_key k l = None.
Proof.
  unfold find_key. intros Hn. induction l as [|[a b] l IH]; simpl in *; [done|].
  rewrite filter_cons_False by (simpl; set_solver). apply IH. set_solver.
Qed.

Lemma find_key_some k l : k ∈ l.*1 → is_Some (find_key k l).
Proof.
  unfold find_key. intros Hk. induction l as [|[a b] l IH]; simpl in *; [set_solver|].
  destruct (decide (a = k)) as [->|Hne].
  - rewrite filter_cons_True by done. by eexists.
  - rewrite filter_cons_False by done. apply IH. set_solver.
Qed.

Lemma drop_key_absent k l : k ∉ l.*1 → drop_key k l = l.
Proof.
  unfold drop_key. intros Hn. induction l as [|[a b] l IH]; simpl in *; [done|].
  rewrite filter_cons_True by (simpl; set_solver). rewrite IH by set_solver. done.
Qed.

(** C35: the LRU map: a lookup returns the value and makes the key the most
    recently used; an accepted update puts the key first, and when the map is
    full and the key is new it removes exactly the least recently used entry
    and keeps the others in order, so the capacity is never exceeded; the
    rejected updates are those of the hash map. *)
Theorem lru_map_correct `{BuildMode} {C} `{LruLaws C} (m : LruMap C) cap key value flags :
  lru_wf (lm_data m) cap → Z.of_nat (length key) = lm_key_size m →
  Z.of_nat (length value) = lm_value_size m →
  let entries := lru_iter (lm_data m) in
  (match lookup_elem m key with
   | Ok (o, m') => o = find_key key entries ∧ lru_wf (lm_data m') cap ∧
       (key ∈ entries.*1 → ∃ v, o = Some v ∧ lru_iter (lm_data m') = (key, v) :: drop_key key entries) ∧
       (key ∉ entries.*1 → o = None ∧ lru_iter (lm_data m') = entries)
   | _ => False
   end) ∧
  match update_elem m key value flags with
  | Ok m' => check_update_flags flags (bool_decide (key ∈ entries.*1)) = Ok () ∧
      lru_wf (lm_data m') cap ∧ Z.of_nat (length (lru_iter (lm_data m'))) ≤ cap ∧
      (key ∈ entries.*1 → lru_iter (lm_data m') = (key, value) :: drop_key key entries) ∧
      (key ∉ entries.*1 → Z.of_nat (length entries) < cap →
        lru_iter (lm_data m') = (key, value) :: entries) ∧
      (∀ rest victim, key ∉ entries.*1 → entries = rest ++ [victim] → Z.of_nat (length entries) = cap →
        lru_iter (lm_data m') = (key, value) :: rest)
  | Err e => check_update_flags flags (bool_decide (key ∈ entries.*1)) = Err e
  | _ => False
  end.
Proof.
  intros Hwf Hk Hv entries. pose proof (lru_bound _ _ Hwf) as [Hnd Hb]. split.
  - simpl. unfold lru_lookup, validate_len. rewrite Hk, Z.eqb_refl. simpl.
    pose proof (lru_get_law _ _ key Hwf) as Hg. destruct (lru_get (lm_data m) key) as [o d].
    destruct Hg as (Hwf' & -> & Hi). simpl. split; [done|]. split; [done|]. split; intros Hin.
    + destruct (find_key_some _ _ Hin) as [v Hf]. unfold entries in *. rewrite Hf in Hi. eauto.
    + unfold entries in *. rewrite find_key_none in Hi by done. by rewrite find_key_none.
  - simpl. unfold lru_update, validate_len. rewrite Hk, Hv, !Z.eqb_refl. simpl.
    rewrite (lru_contains_law _ _ key Hwf). fold entries.
    destruct (check_update_flags flags (bool_decide (key ∈ entries.*1))) as [[]|e| |] eqn:Hc; simpl; [|done|..].
    2,3: exfalso; revert Hc; unfold check_update_flags; destruct (from_bits UPDATE_ALL flags); simpl; [|done];
      repeat case_match; done.
    pose proof (lru_put_law _ _ key value Hwf) as [Hwf' Hi]. fold entries in Hi.
    split; [done|]. split; [done|]. split; [apply (lru_bound _ _ Hwf')|]. split; [|split].
    + intros Hin. by rewrite Hi, decide_True.
    + intros Hn Hroom. rewrite Hi, decide_False by done. rewrite take_ge by lia. by rewrite drop_key_absent.
    + intros rest victim Hn He Hfull. rewrite Hi, decide_False by done. rewrite He in *.
      rewrite length_app in Hfull. simpl in Hfull.
      rewrite take_app_length' by lia. rewrite drop_key_absent; [done|].
      rewrite fmap_app in Hn. set_solver.
Qed.

(** A cache as a list, most recent first. *)
Record ListLru := { ll_cap : nat; ll_list : list (str * str) }.
#[export] Instance ListLru_cache : LruCache ListLru := {
  lru_new cap := {| ll_cap := Z.to_nat cap; ll_list := [] |};
  lru_get c k :=
    match find_key k (ll_list c) with
    | Some v => (Some v, {| ll_cap := ll_cap c; ll_list := (k, v) :: drop_key k (ll_list c) |})
    | None => (None, c)
    end;
  lru_contains c k := bool_decide (k ∈ (ll_list c).*1);
  lru_put c k v :=
    {| ll_cap := ll_cap c;
       ll_list := (k, v) :: drop_key k (if decide (k ∈ (ll_list c).*1) then ll_list c
                                        else take (ll_cap c - 1) (ll_list c)) |};
  lru_pop c k := {| ll_cap := ll_cap c; ll_list := drop_key k (ll_list c) |};
  lru_iter := ll_list;
}.

Lemma drop_key_nodup k l : NoDup (l.*1) → NoDup ((drop_key k l).*1) ∧ k ∉ (drop_key k l).*1 ∧
  (length (drop_key k l) ≤ length l)%nat ∧ (k ∈ (l.*1) → length (drop_key k l) < length l)%nat.
Proof.
  intros Hnd. induction l as [|[a b] l IH]; simpl in *; [set_solver|].
  apply NoDup_cons in Hnd as [Ha Hnd]. destruct (IH Hnd) as (I1 & I2 & I3 & I4). unfold drop_key in *.
  assert (∀ x, x ∈ (filter (λ p : str * str, p.1 ≠ k) l).*1 → x ∈ l.*1) as Hsub.
  { intros x. rewrite !list_elem_of_fmap. intros (y & -> & Hy%list_elem_of_filter). exists y. tauto. }
  destruct (decide (a = k)) as [->|Hne].
  - rewrite filter_cons_False by (simpl; auto). split; [done|]. split; [done|]. split; lia.
  - rewrite filter_cons_True by done. simpl. split; [constructor; auto|].
    split; [set_solver|]. split; [lia|]. intros Hin. apply -> Nat.succ_lt_mono. apply I4. set_solver.
Qed.

#[export] Instance ListLru_laws : LruLaws ListLru.
Proof.
  refine {| lru_wf c cap := 0 < cap ∧ cap = Z.of_nat (ll_cap c) ∧ NoDup (ll_list c).*1 ∧
                            (length (ll_list c) ≤ ll_cap c)%nat |}; simpl.
  - intros cap Hcap. split; [|done]. split; [done|]. split; [lia|]. split; [constructor|simpl; lia].
  - intros c cap (H0 & -> & H1 & H2). split; [done|lia].
  - done.
  - intros c cap k (H0 & -> & H1 & H2). destruct (find_key k (ll_list c)) as [v|] eqn:Hf; simpl; [|done].
    destruct (drop_key_nodup k _ H1) as (I1 & I2 & I3 & I4). split; [|done].
    split; [done|]. split; [done|]. split; [by constructor|].
    destruct (decide (k ∈ (ll_list c).*1)) as [Hin|Hn]; [specialize (I4 Hin); lia|].
    by rewrite find_key_none in Hf.
  - intros c cap k v (H0 & -> & H1 & H2). rewrite Nat2Z.id. split; [|done].
    set (l := if decide (k ∈ (ll_list c).*1) then ll_list c else take (ll_cap c - 1) (ll_list c)).
    assert (NoDup l.*1) as Hl.
    { unfold l. case_decide; [done|]. rewrite fmap_take. eapply sublist_NoDup; [exact H1|apply sublist_take]. }
    destruct (drop_key_nodup k _ Hl) as (I1 & I2 & I3 & I4).
    split; [done|]. split; [done|]. split; [by constructor|]. unfold l in *. case_decide as Hd.
    + specialize (I4 Hd). lia.
    + rewrite length_take in I3. lia.
  - intros c cap k (H0 & -> & H1 & H2). destruct (drop_key_nodup k _ H1) as (I1 & I2 & I3 & I4).
    split; [|done]. split; [done|]. split; [done|]. split; [done|lia].
Defined.

Definition demo_lru : LruMap ListLru :=
  {| lm_key_size := 1; lm_value_size := 1;
     lm_data := {| ll_cap := 2; ll_list := [([1], [10]); ([2], [20])] |} |}.

Lemma lru_map_correct_witness :
  let _ : BuildMode := true in
  match update_elem demo_lru [3] [30] 0 with
  | Ok m' => lru_iter (lm_data m') = [([3], [30]); ([1], [10])]
  | _ => False
  end.
Proof.
  intros b.
  assert (lru_wf (lm_data demo_lru) 2) as Hwf.
  { simpl. split; [lia|]. split; [lia|]. split; [|simpl; lia].
    constructor; [|constructor; [set_solver|constructor]]. vm_compute. intros Hin.
    apply elem_of_cons in Hin as [Hin|Hin]; [discriminate|]. by apply elem_of_nil in Hin. }
  destruct (lru_map_correct demo_lru 2 [3] [30] 0 Hwf eq_refl eq_refl) as [_ Hu].
  destruct (update_elem demo_lru [3] [30] 0) as [m'|e| |]; try done.
  - destruct Hu as (_ & _ & _ & _ & _ & Hev).
    apply (Hev [([1], [10])] ([2], [20])); [|reflexivity|reflexivity].
    vm_compute. intros Hin. apply elem_of_cons in Hin as [Hin|Hin]; [discriminate|].
    apply elem_of_cons in Hin as [Hin|Hin]; [discriminate|]. by apply elem_of_nil in Hin.
Defined.

(** ** Queues and stacks *)

(** Pushing one value after another, and popping until empty. *)
Fixpoint push_all {M} `{BpfMapCommonOps M} (m : M) (vs : list str) : BpfResult M :=
  match vs with
  | [] => Ok m
  | v :: vs => m ← push_elem m v 0; push_all m vs
  end.
Fixpoint pop_all {M} `{BpfMapCommonOps M} (fuel : nat) (m : M) (buf : str) : list str :=
  match fuel with
  | O => []
  | S fuel => match pop_elem m buf with Ok (v, m) => v :: pop_all fuel m buf | _ => [] end
  end.

(** The last [n] values. *)
Definition last_n {A} (n : nat) (l : list A) : list A := drop (length l - n) l.

Record queue_ok (q : QueueMap) : Prop := {
  qo_max : 0 < qm_max_entries q;
  qo_size : 0 ≤ qm_value_size q;
  qo_vals : Forall (λ v, Z.of_nat (length v) = qm_value_size q) (qm_data q);
  qo_room : Z.of_nat (length (qm_data q)) ≤ qm_max_entries q;
}.

Lemma queue_push_ok `{BuildMode} q v :
  queue_ok q → Z.of_nat (length v) = qm_value_size q →
  ∃ q', push_elem q v 0 = Ok q' ∧ queue_ok q' ∧ qm_max_entries q' = qm_max_entries q ∧
    qm_value_size q' = qm_value_size q ∧
    qm_data q' = last_n (Z.to_nat (qm_max_entries q)) (qm_data q ++ [v]).
Proof.
  intros [Hm Hs Hv Hr] Hl. simpl. unfold special_update. simpl. rewrite Hl, Z.eqb_refl. simpl.
  unfold queue_push. simpl. unfold queue_full.
  destruct (Z.eqb_spec (Z.of_nat (length (qm_data q))) (qm_max_entries q)) as [Hf|Hf].
  - destruct (qm_data q) as [|x d] eqn:Hd; [simpl in Hf; lia|]. simpl. eexists. split; [done|].
    apply Forall_cons in Hv as [_ Hv]. simpl in Hf, Hr. split; [|split; [done|split; [done|]]].
    + split; simpl; try done; [apply Forall_app_2; by auto|rewrite length_app; simpl; lia].
    + unfold last_n. simpl. rewrite length_app. simpl.
      replace (S (length d + 1) - Z.to_nat (qm_max_entries q))%nat with 1%nat by lia. done.
  - simpl. eexists. split; [done|]. split; [|split; [done|split; [done|]]].
    + split; simpl; try done; [apply Forall_app_2; by auto|rewrite length_app; simpl; lia].
    + unfold last_n. rewrite length_app. simpl.
      replace (length (qm_data q) + 1 - Z.to_nat (qm_max_entries q))%nat with 0%nat by lia. done.
Qed.

Lemma last_n_app {A} n (l : list A) x vs : last_n n (last_n n (l ++ [x]) ++ vs) = last_n n ((l ++ [x]) ++ vs).
Proof.
  unfold last_n. rewrite !length_app, length_drop, length_app. simpl.
  destruct (decide (length l + 1 ≤ n)%nat).
  - replace (length l + 1 - n)%nat with 0%nat by lia. simpl. do 2 f_equal; lia.
  - rewrite <- drop_app_le by (rewrite length_app; simpl; lia).
    rewrite drop_drop. f_equal. lia.
Qed.

Lemma queue_push_all `{BuildMode} q vs :
  queue_ok q → Forall (λ v, Z.of_nat (length v) = qm_value_size q) vs →
  ∃ q', push_all q vs = Ok q' ∧ queue_ok q' ∧ qm_value_size q' = qm_value_size q ∧
    qm_data q' = last_n (Z.to_nat (qm_max_entries q)) (qm_data q ++ vs).
Proof.
  intros Hok Hvs. revert q Hok Hvs. induction vs as [|v vs IH]; intros q Hok Hvs.
  - exists q. split; [done|]. split; [done|]. split; [done|]. rewrite app_nil_r. unfold last_n.
    destruct Hok. replace (length (qm_data q) - Z.to_nat (qm_max_entries q))%nat with 0%nat by lia. done.
  - apply Forall_cons in Hvs as [Hv Hvs]. destruct (queue_push_ok q v Hok Hv) as (q1 & Hp & Hok1 & Hm & Hs & Hd).
    cbn [push_all]. rewrite Hp. cbn [mbind res_bind]. rewrite <- Hs in Hvs.
    destruct (IH q1 Hok1 Hvs) as (q2 & -> & Hok2 & Hs2 & Hd2). exists q2. split; [done|]. split; [done|].
    split; [congruence|]. rewrite Hd2, Hm, Hd, last_n_app. by rewrite <- app_assoc.
Qed.

Lemma queue_pop_all `{BuildMode} q fuel :
  queue_ok q → (length (qm_data q) ≤ fuel)%nat →
  pop_all fuel q (zeros (qm_value_size q)) = qm_data q.
Proof.
  intros Hok Hf. revert q Hok Hf. induction fuel as [|fuel IH]; intros q Hok Hf.
  - destruct (qm_data q); [done|simpl in Hf; lia].
  - destruct Hok as [Hm Hs Hv Hr]. simpl. unfold special_lookup_and_delete. simpl.
    rewrite length_zeros by done. rewrite Z.eqb_refl. simpl. unfold queue_pop.
    destruct (qm_data q) as [|v d] eqn:Hd; [done|]. apply Forall_cons in Hv as [Hv1 Hv]. simpl in *.
    unfold copy_from. pose proof (length_zeros (qm_value_size q) Hs).
    rewrite (proj2 (Nat.eqb_eq _ _)) by lia. simpl. f_equal.
    apply (IH (with_queue q d)); [|simpl; lia]. split; simpl; try done; lia.
Qed.

(** A queue map is a bounded FIFO that forgets its oldest values: after
    pushing any sequence, popping returns the last [max_entries] of all the
    values, oldest first, and then ENOENT. *)
Theorem queue_fifo `{BuildMode} q vs :
  queue_ok q → Forall (λ v, Z.of_nat (length v) = qm_value_size q) vs →
  ∃ q', push_all q vs = Ok q' ∧
    pop_all (S (Z.to_nat (qm_max_entries q))) q' (zeros (qm_value_size q)) =
      last_n (Z.to_nat (qm_max_entries q)) (qm_data q ++ vs).
Proof.
  intros Hok Hvs. destruct (queue_push_all q vs Hok Hvs) as (q' & Hp & Hok' & Hs & Hd).
  exists q'. split; [done|]. rewrite <- Hd, <- Hs. apply queue_pop_all; [done|].
  rewrite Hd. unfold last_n. rewrite length_drop. lia.
Qed.

Definition demo_queue : QueueMap := {| qm_max_entries := 2; qm_value_size := 1; qm_data := [[1]] |}.
Lemma queue_fifo_witness :
  let _ : BuildMode := true in
  ∃ q', push_all demo_queue [[2]; [3]] = Ok q' ∧ pop_all 3 q' (zeros 1) = [[2]; [3]].
Proof.
  intros b. apply (queue_fifo demo_queue [[2]; [3]]).
  - split; simpl; try lia. by repeat constructor.
  - by repeat constructor.
Defined.

(** A stack map is a bounded LIFO: a push onto a stack with room is what
    the next pop returns, leaving the stack as it was; a push onto a full
    stack is ENOMEM and, with EXISTS, replaces the top. *)
Theorem stack_lifo `{BuildMode} s v buf flags :
  queue_ok (sm_queue s) → Z.of_nat (length v) = qm_value_size (sm_queue s) → length buf = length v →
  flags = 0 ∨ flags = BPF_EXISTS →
  let d := qm_data (sm_queue s) in
  if Z.of_nat (length d) <? qm_max_entries (sm_queue s) then
    ∃ s', push_elem s v flags = Ok s' ∧ pop_elem s' buf = Ok (v, s) ∧ peek_elem s' buf = Ok v
  else if flags =? 0 then push_elem s v flags = Err ENOMEM
  else ∃ s' s'', push_elem s v flags = Ok s' ∧ pop_elem s' buf = Ok (v, s'') ∧
         qm_data (sm_queue s'') = take (length d - 1) d.
Proof.
  intros [Hm Hs Hv Hr] Hl Hb Hfl d.
  assert (push_elem s v flags = stack_push s v flags) as ->.
  { simpl. unfold special_update. simpl. rewrite Hl, Z.eqb_refl. by destruct Hfl as [-> | ->]. }
  assert (∀ l, pop_elem (with_stack s (l ++ [v])) buf = Ok (v, with_stack s l)) as Hpop.
  { intros l. simpl. unfold special_lookup_and_delete. simpl. rewrite Hb, Hl, Z.eqb_refl. simpl.
    unfold stack_pop, vec_pop. simpl. rewrite last_snoc. unfold copy_from. rewrite Hb, Nat.eqb_refl. simpl.
    rewrite length_app. simpl. rewrite take_app_length' by lia. done. }
  assert (∀ l, peek_elem (with_stack s (l ++ [v])) buf = Ok v) as Hpeek.
  { intros l. simpl. unfold special_peek. simpl. rewrite Hb, Hl, Z.eqb_refl. simpl.
    rewrite last_snoc. simpl. unfold copy_from. by rewrite Hb, Nat.eqb_refl. }
  unfold stack_push, queue_full. fold d. fold d in Hr, Hv.
  destruct (Z.ltb_spec (Z.of_nat (length d)) (qm_max_entries (sm_queue s))) as [Hroom|Hfull].
  - rewrite (proj2 (Z.eqb_neq _ _)) by lia. cbn [mbind res_bind]. eexists. split; [done|]. rewrite Hpop, Hpeek.
    split; [|done]. do 2 f_equal. unfold with_stack, with_queue, d. by destruct s as [[]].
  - rewrite (proj2 (Z.eqb_eq (Z.of_nat (length d)) _)) by lia. destruct Hfl as [-> | ->]; [done|].
    change (contains BPF_EXISTS BPF_EXISTS) with true. change (BPF_EXISTS =? 0) with false. cbv match.
    cbn [mbind res_bind]. destruct d as [|x d'] eqn:Hd; [simpl in Hfull; lia|].
    unfold vec_pop. destruct (last (x :: d')) as [y|] eqn:Hlast; [|by apply last_None in Hlast].
    cbn [fmap option_fmap option_map snd default]. eexists _, _. split; [done|]. split; [apply Hpop|]. done.
Qed.

Lemma stack_lifo_witness :
  let _ : BuildMode := true in
  let s := {| sm_queue := demo_queue |} in
  ∃ s', push_elem s [9] 0 = Ok s' ∧ pop_elem s' [0] = Ok ([9], s) ∧ peek_elem s' [0] = Ok [9].
Proof.
  intros b s. apply (stack_lifo s [9] [0] 0); [|reflexivity|reflexivity|by left].
  split; simpl; try lia. by repeat constructor.
Defined.

(** In a release build the size of an array map wraps to 32 bits, so a map
    whose cells exceed 4 GiB is created with too little memory and a valid
    index panics. *)
Lemma array_size_wraps :
  let _ : BuildMode := false in
  let m := {| map_type := BPF_MAP_TYPE_ARRAY; key_size := 4; value_size := 65536; max_entries := 65536;
              map_flags := 0; map_name := [] |} in
  match ArrayMap_new m with Ok a => lookup_elem a [1; 0; 0; 0] = Panic | _ => False end.
Proof. vm_compute. reflexivity. Qed.
