(* ===== verification/UnifiedProps.v ===== *)
(** Properties of per-CPU maps and of the map system calls. *)
From S2P Require Import Prelude BpfBase RingMem RingBuf Maps Unified.

(** ** Per-CPU isolation *)

(** Documented behaviour of per-CPU storage: one value per CPU; [force_get]
    leaves it to its caller that the CPU exists, and a call that names another
    one is outside the contract ([None]). *)
Class PerCpuLaws `{PerCpuVariantsOps} := {
  pc_get_set : ∀ T (p : PC T) c c' (v : T), pc_get (pc_set p c v) c' = if c =? c' then v else pc_get p c';
  pc_create_law : ∀ T (v : T) p c, pc_create v = Some p → 0 ≤ c < pc_num_cpus → pc_get p c = v;
  pc_force_law : ∀ T (p : PC T) c, 0 ≤ c < pc_num_cpus → pc_force_get p c = Some (pc_get p c);
  pc_force_out : ∀ T (p : PC T) c, ¬ (0 ≤ c < pc_num_cpus) → pc_force_get p c = None;
}.

Lemma hash_update_lookup m key value flags m' :
  hash_update m key value flags = Ok m' → hash_lookup m' key = Ok (Some value, m').
Proof.
  unfold hash_update, hash_lookup. intros H. apply bind_ok in H as ([] & Hk & H).
  apply bind_ok in H as ([] & _ & H). apply bind_ok in H as ([] & _ & H).
  destruct (negb _ && _); [done|]. injection H as <-. simpl.
  change (validate_key (with_map m (<[key:=value]> (hm_data m))) key) with (validate_key m key).
  rewrite Hk. simpl. by rewrite lookup_insert_eq.
Qed.

(** Per-CPU hash maps keep CPUs apart: after a successful update on one
    CPU, a lookup on that CPU returns the new value, and every per-CPU lookup
    on another CPU returns what it returned before. *)
Theorem percpu_hash_isolation `{BuildMode} `{PerCpuLaws} cpu (p p' : PC BpfHashMap) key value flags c key' :
  update_elem (BpfMapCommonOps := PerCpuHashMap_ops cpu) p key value flags = Ok p' →
  c ≠ cpu → 0 ≤ c < pc_num_cpus →
  (fst <$> lookup_elem (BpfMapCommonOps := PerCpuHashMap_ops cpu) p' key) = Ok (Some value) ∧
  (fst <$> lookup_percpu p' key' c) = (fst <$> lookup_percpu p key' c).
Proof.
  simpl. unfold on_cpu_, on_cpu, lookup_percpu. intros Hu Hne Hc.
  apply bind_ok in Hu as (m' & Hu & [= <-]). split.
  - rewrite pc_get_set, Z.eqb_refl. simpl. by rewrite (hash_update_lookup _ _ _ _ _ Hu).
  - rewrite !pc_force_law by done. simpl. rewrite pc_get_set, (proj2 (Z.eqb_neq _ _)) by congruence.
    unfold hash_lookup. by destruct (validate_key _ _).
Qed.

(** Two CPUs as a function. *)
#[export] Instance fun_percpu : PerCpuVariantsOps := {
  PC T := Z → T;
  pc_create T v := Some (λ _, v);
  pc_num_cpus := 2;
  pc_get T p c := p c;
  pc_set T p c v := λ c', if c =? c' then v else p c';
  pc_force_get T p c := if (0 <=? c) && (c <? 2) then Some (p c) else None;
}.
#[export] Instance fun_percpu_laws : PerCpuLaws.
Proof. split; simpl; [done|by intros T v p c [= <-]| |]; intros T p c Hc; bdestruct_all; done || lia. Defined.

Definition demo_hmap : BpfHashMap :=
  {| hm_max_entries := 4; hm_key_size := 1; hm_value_size := 1; hm_data := ∅ |}.

Lemma percpu_hash_isolation_witness :
  let _ : BuildMode := true in
  let p : PC BpfHashMap := λ _, demo_hmap in
  let p' : PC BpfHashMap := pc_set p 0 (with_map demo_hmap {[ [1] := [2] ]}) in
  (fst <$> lookup_elem (BpfMapCommonOps := PerCpuHashMap_ops 0) p' [1]) = Ok (Some [2]) ∧
  (fst <$> lookup_percpu p' [1] 1) = (fst <$> lookup_percpu p [1] 1).
Proof.
  intros b p p'. apply (percpu_hash_isolation 0 p p' [1] [2] 0 1 [1]); [reflexivity|lia|simpl; lia].
Defined.

(** ** System calls *)

(** The update and lookup system calls agree on a hash map: once an
    update through a descriptor has succeeded, a lookup of the same key
    through it copies exactly the stored value to user space, and the other
    maps are untouched. *)
Theorem syscall_update_lookup `{BuildMode} `{PerCpuVariantsOps} {C} `{LruCache C} {U} `{UserMem U}
    (fd_lookup : Z → BpfResult Z) cpu h (um : U) (st st' : gmap Z (UnifiedMap (C := C))) arg arg' id u m key value :
  fd_lookup (ua_map_fd arg) = Ok id → st !! id = Some u → inner_map u = MHash m →
  copy_from_user um (ua_key arg) (key_size (map_meta u)) = Ok key →
  copy_from_user um (ua_value arg) (value_size (map_meta u)) = Ok value →
  ua_map_fd arg' = ua_map_fd arg → ua_key arg' = ua_key arg →
  bpf_map_update_elem fd_lookup cpu h um st arg = (Ok (), st') →
  fst (bpf_lookup_elem fd_lookup cpu h um st' arg') =
    copy_to_user um (ua_value arg') (value_size (map_meta u)) value ∧
  delete id st' = delete id st.
Proof.
  intros Hfd Hst Hu Hk Hv Hfd' Hk' Hup. unfold bpf_map_update_elem, with_fd in Hup.
  rewrite Hfd, Hst, Hu, Hk, Hv in Hup. simpl in Hup. unfold lift0 in Hup.
  destruct (hash_update m key value (ua_flags arg)) as [m'|e| |] eqn:Hm; simpl in Hup; try discriminate.
  injection Hup as <-. split; [|by rewrite delete_insert_eq].
  unfold bpf_lookup_elem, with_fd. rewrite Hfd', Hfd, lookup_insert_eq. simpl. rewrite Hk', Hk. simpl.
  by rewrite (hash_update_lookup _ _ _ _ _ Hm).
Qed.

(** User memory as a partial map from addresses to byte strings. *)
#[export] Instance gmap_user : UserMem (gmap Z str) := {
  copy_from_user um p n := ok_or (um !! p) EINVAL;
  copy_to_user um p n v := Ok (<[p := v]> um);
}.
#[export] Instance no_lru : LruCache () := {
  lru_new _ := (); lru_get _ _ := (None, ()); lru_contains _ _ := false;
  lru_put _ _ _ := (); lru_pop _ _ := (); lru_iter _ := [];
}.

Definition demo_user : gmap Z str := {[ 100 := [7]; 200 := [8] ]}.
Definition demo_unified : UnifiedMap (C := ()) :=
  {| inner_map := MHash demo_hmap;
     map_meta := {| map_type := BPF_MAP_TYPE_HASH; key_size := 1; value_size := 1; max_entries := 4;
                    map_flags := 0; map_name := [] |} |}.

Lemma syscall_update_lookup_witness :
  let _ : BuildMode := true in
  let arg := {| ua_map_fd := 3; ua_key := 100; ua_value := 200; ua_flags := 0 |} in
  let arg' := {| ua_map_fd := 3; ua_key := 100; ua_value := 300; ua_flags := 0 |} in
  let st : gmap Z (UnifiedMap (C := ())) := {[ 0 := demo_unified ]} in
  let st' := <[ 0 := with_inner demo_unified (MHash (with_map demo_hmap {[ [7] := [8] ]})) ]> st in
  fst (bpf_lookup_elem (λ _, Ok 0) 0 ∅ demo_user st' arg') = Ok (<[ 300 := [8] ]> demo_user) ∧
  delete 0 st' = delete 0 st.
Proof.
  intros b arg arg' st st'.
  exact (syscall_update_lookup (λ _, Ok 0) 0 ∅ demo_user st st' arg arg' 0 demo_unified demo_hmap [7] [8]
    eq_refl eq_refl eq_refl eq_refl eq_refl eq_refl eq_refl eq_refl).
Defined.
