(* ===== verification/MapTyping.v ===== *)
(** Typing of the BPF map table: every map that [bpf_map_create] and the
    map commands can produce agrees with its metadata (sizes of keys and
    values, capacity, kind), and on such maps no command panics.

    [MapContract] is the interface: what a map implementation promises to
    the commands.  Each kind of map discharges it, per-CPU storage lifts it,
    and the dynamic dispatch of [AnyMap] is proved against it alone. *)
From S2P Require Import Prelude BpfBase RingMem RingBuf Maps Unified MapProps UnifiedProps.

(** ** Outcomes *)

(** [outcome fits Q r]: [r] returns a value of [Q] or an error; it panics
    only when the size condition [fits] fails. *)
Definition outcome {E A} (fits : Prop) (Q : A → Prop) (r : res E A) : Prop :=
  match r with Ok a => Q a | Err _ => True | Panic => ¬ fits | OutOfFuel => False end.

Section outcomes.
Context {E : Type} (fits : Prop).

Lemma outcome_bind {A B} (Q : A → Prop) (Q' : B → Prop) (r : res E A) f :
  outcome fits Q r → (∀ a, Q a → outcome fits Q' (f a)) → outcome fits Q' (r ≫= f).
Proof. destruct r; simpl; eauto. Qed.
Lemma outcome_mono {A} (Q Q' : A → Prop) (r : res E A) :
  outcome fits Q r → (∀ a, Q a → Q' a) → outcome fits Q' r.
Proof. destruct r; simpl; eauto. Qed.
Lemma outcome_weaken {A} (fits' : Prop) (Q : A → Prop) (r : res E A) :
  (fits → fits') → outcome fits' Q r → outcome fits Q r.
Proof. destruct r; simpl; auto. Qed.
Lemma outcome_fmap {A B} (Q : B → Prop) (f : A → B) (r : res E A) :
  outcome fits (λ a, Q (f a)) r → outcome fits Q (f <$> r).
Proof. by destruct r. Qed.
Lemma outcome_ok_or {A} (Q : A → Prop) (o : option A) e :
  (∀ a, o = Some a → Q a) → outcome fits Q (ok_or (E := E) o e).
Proof. destruct o; simpl; auto. Qed.
Lemma outcome_validate n (l : str) : outcome fits (λ _, Z.of_nat (length l) = n) (validate_len n l).
Proof. unfold validate_len. destruct (Z.eqb_spec (Z.of_nat (length l)) n); simpl; auto. Qed.
End outcomes.
#[local] Hint Resolve outcome_validate outcome_ok_or : core.

Lemma outcome_copy_from fits n (Q : str → Prop) (dst src : str) :
  Z.of_nat (length dst) = n → Z.of_nat (length src) = n → Q src → outcome (E := BpfError) fits Q (copy_from dst src).
Proof. intros Hd Hs HQ. unfold copy_from. by rewrite (proj2 (Nat.eqb_eq _ _)) by lia. Qed.

Lemma outcome_flags fits flags b : outcome fits (λ _, True) (check_update_flags flags b).
Proof. unfold check_update_flags. destruct (from_bits UPDATE_ALL flags); simpl; [|done]. by repeat case_match. Qed.

(** ** The interface: what a map promises to the commands *)
Section contract.
Context (fits : Prop) (ks vs : Z).

Definition sized (n : Z) (l : str) : Prop := Z.of_nat (length l) = n.

Class MapContract {M} (ops : BpfMapCommonOps M) (T : M → Prop) : Prop := {
  mc_lookup m key : T m → Forall is_byte key →
    outcome fits (λ '(o, m'), T m' ∧ ∀ v, o = Some v → sized vs v) (lookup_elem m key);
  mc_update m key value flags : T m → Forall is_byte key → outcome fits T (update_elem m key value flags);
  mc_delete m key : T m → Forall is_byte key → outcome fits T (delete_elem m key);
  mc_lookup_and_delete m key value : T m → sized vs value →
    outcome fits (λ '(v, m'), T m' ∧ sized vs v) (lookup_and_delete_elem m key value);
  mc_next_key m key next : T m → sized ks next → (∀ k, key = Some k → Forall is_byte k) →
    outcome fits (sized ks) (get_next_key m key next);
  mc_freeze m : T m → outcome fits (λ _, True) (freeze m);
  mc_push m value flags : T m → outcome fits T (push_elem m value flags);
  mc_pop m value : T m → sized vs value → outcome fits (λ '(v, m'), T m' ∧ sized vs v) (pop_elem m value);
  mc_peek m value : T m → outcome fits (sized vs) (peek_elem m value);
}.
End contract.
Arguments mc_lookup {fits ks vs M ops T _}.
Arguments mc_update {fits ks vs M ops T _}.
Arguments mc_delete {fits ks vs M ops T _}.
Arguments mc_lookup_and_delete {fits ks vs M ops T _}.
Arguments mc_next_key {fits ks vs M ops T _}.
Arguments mc_freeze {fits ks vs M ops T _}.
Arguments mc_push {fits ks vs M ops T _}.
Arguments mc_pop {fits ks vs M ops T _}.
Arguments mc_peek {fits ks vs M ops T _}.

(** ** Array maps *)

(** The byte store of an array: its size is a 32-bit product, which wraps in
    a build without overflow checks. *)
Record data_typed (vs n : Z) (d : ArrayMapData) : Prop := {
  dt_vs : 0 < vs < 2 ^ 32;
  dt_n : 0 ≤ n < 2 ^ 32;
  dt_elem : elem_size d = vs;
  dt_len : Z.of_nat (length (adata d)) = wrapu 32 (vs * n);
}.

Section arrays.
Context `{BuildMode} (vs n : Z).
Let fits : Prop := vs * n < 2 ^ 32.

Definition as_array (d : ArrayMapData) : ArrayMap := {| am_data := d; am_value_size := vs; am_max_entries := n |}.

Lemma data_typed_ok d : 0 < n → data_typed vs n d → fits → array_ok (as_array d).
Proof.
  intros Hpos [Hv Hn He Hl] Hf. unfold fits in Hf. split; simpl; try lia. rewrite Hl. apply wrapu_small. lia.
Qed.

Lemma arith_outcome w z : 0 ≤ w → outcome (E := BpfError) (0 ≤ z < 2 ^ w) (λ x, 0 ≤ x < 2 ^ w) (arith w z).
Proof.
  intros Hw. unfold arith. destruct (in_u w z) eqn:Hi.
  - by apply in_u_spec in Hi.
  - assert (¬ (0 ≤ z < 2 ^ w)) by (rewrite <- in_u_spec; congruence).
    destruct overflow_checks; simpl; [done|]. by apply wrapu_range.
Qed.

(** A slice of a wrapped store is still one element long. *)
Lemma array_bounds_width d i a b :
  data_typed vs n d → array_bounds d i = Ok (a, b) → (a ≤ b)%nat → Z.of_nat (b - a) = vs.
Proof.
  intros [Hv Hn He Hl] Hb Hab. unfold array_bounds in Hb. rewrite He in Hb. bind_inv. injection Hb as <- <-.
  pose proof (arith_outcome 32 (i * vs) ltac:(done)) as H1. rewrite Ha in H1. simpl in H1.
  revert Ha0 Hab. unfold arith. destruct (in_u 32 (a0 + vs)) eqn:Hi.
  - apply in_u_spec in Hi. intros [= <-]. lia.
  - destruct overflow_checks; [done|]. intros [= <-]. assert (2 ^ 32 ≤ a0 + vs).
    { destruct (Z.lt_ge_cases (a0 + vs) (2 ^ 32)); [|done]. exfalso. rewrite (proj2 (in_u_spec 32 _)) in Hi; lia || done. }
    unfold wrapu. replace (a0 + vs) with (a0 + vs - 2 ^ 32 + 1 * 2 ^ 32) by lia.
    rewrite Z.mod_add, Z.mod_small by lia. lia.
Qed.

Lemma array_bounds_outcome d i : data_typed vs n d → 0 ≤ i < n → outcome fits (λ _, True) (array_bounds d i).
Proof.
  intros Hd Hi. destruct (decide fits) as [Hf|Hf].
  - pose proof (data_typed_ok d ltac:(lia) Hd Hf) as Hok. by rewrite (proj1 (array_bounds_ok (as_array d) i Hok Hi)).
  - assert (∀ z, outcome (E := BpfError) fits (λ _, True) (arith 32 z)) as Ha.
    { intros z. unfold arith. by destruct (in_u 32 z), overflow_checks. }
    unfold array_bounds. eapply outcome_bind; [apply Ha|]. intros a _. eapply outcome_bind; [apply Ha|]. done.
Qed.

Lemma array_index_outcome d i : data_typed vs n d → 0 ≤ i < n → outcome fits (sized vs) (array_index d i).
Proof.
  intros Hd Hi. pose proof (array_bounds_outcome d i Hd Hi) as Hb. unfold array_index.
  destruct (array_bounds d i) as [[a b]|e| |] eqn:He; simpl in *; try done.
  destruct (slice (adata d) a b) as [l|] eqn:Hs; simpl.
  - apply slice_inv in Hs as (Hab & -> & _). unfold sized. rewrite length_take, length_drop.
    pose proof (array_bounds_width d i a b Hd He ltac:(lia)). lia.
  - intros Hf. pose proof (data_typed_ok d ltac:(lia) Hd Hf) as Hok.
    pose proof (array_index_ok (as_array d) i Hok Hi) as Hx. unfold array_index in Hx. simpl in Hx.
    rewrite He in Hx. simpl in Hx. by rewrite Hs in Hx.
Qed.

Lemma array_set_outcome d i v :
  data_typed vs n d → 0 ≤ i < n → sized vs v → outcome fits (data_typed vs n) (array_set d i v).
Proof.
  intros Hd Hi Hv. pose proof (array_bounds_outcome d i Hd Hi) as Hb. unfold array_set.
  destruct (array_bounds d i) as [[a b]|e| |] eqn:He; simpl in *; try done.
  destruct (slice_copy (adata d) a b v) as [l|] eqn:Hs; simpl.
  - apply slice_copy_inv in Hs as (Hab & Hl & ->). destruct Hd as [Hvs Hn Hel Hlen].
    split; simpl; try done. rewrite length_splice by lia. done.
  - intros Hf. pose proof (data_typed_ok d ltac:(lia) Hd Hf) as Hok.
    destruct (array_set_ok (as_array d) i v Hok Hi Hv) as (d' & Hx & _). unfold array_set in Hx. simpl in Hx.
    rewrite He in Hx. simpl in Hx. by rewrite Hs in Hx.
Qed.

Lemma data_new : 0 < vs < 2 ^ 32 → 0 ≤ n < 2 ^ 32 → outcome fits (data_typed vs n) (ArrayMapData_new vs n).
Proof.
  intros Hv Hn. unfold ArrayMapData_new. rewrite (proj2 (Z.leb_gt vs 0)), andb_false_r by lia.
  unfold arith. destruct (in_u 32 (vs * n)) eqn:Hi; simpl.
  - apply in_u_spec in Hi. split; simpl; try done. rewrite length_zeros by lia. by rewrite wrapu_small.
  - assert (¬ fits). { intros Hf. unfold fits in Hf. rewrite (proj2 (in_u_spec 32 _)) in Hi; [done|lia]. }
    destruct overflow_checks; simpl; [done|]. split; simpl; try done. apply length_zeros, wrapu_range. done.
Qed.
End arrays.

Section array_contracts.
Context `{BuildMode} (fits : Prop) (ks vs n : Z).
Context (Hfits : fits → vs * n < 2 ^ 32).

Definition array_typed (m : ArrayMap) : Prop :=
  ks = 4 ∧ 0 < n ∧ am_value_size m = vs ∧ am_max_entries m = n ∧ data_typed vs n (am_data m).
Definition perf_typed (m : PerfEventArrayMap) : Prop :=
  ks = 4 ∧ vs = 4 ∧ num_cpus m = n ∧ data_typed 4 n (fds m).

(** A key that passes the length and range checks is an index. *)
Lemma index_range key : Forall is_byte key → (length key =? 4)%nat = true → (n <=? u32_key key) = false → 0 ≤ u32_key key < n.
Proof. intros Hb Hl Hn%Z.leb_gt. pose proof (u32_key_range key Hb Hl). lia. Qed.

#[export] Instance array_contract : MapContract fits ks vs ArrayMap_ops array_typed.
Proof using Hfits.
  split; [intros m key Hm Hk|intros m key value flags Hm Hk|done|done|intros m key next Hm Hn Hk|done..];
    destruct Hm as (-> & Hpos & Hv & Hmax & Hd); simpl.
  - unfold array_lookup. rewrite Hmax. destruct (length key =? 4)%nat eqn:Hl; [|done].
    destruct (n <=? u32_key key) eqn:Hr; [done|]. simpl.
    eapply outcome_bind; [eapply outcome_weaken; [exact Hfits|]; by apply array_index_outcome, index_range|].
    intros v Hs. split; [done|]. by intros ? [= <-].
  - unfold array_update. rewrite Hmax, Hv. destruct (length key =? 4)%nat eqn:Hl; [|done].
    destruct (Z.eqb_spec (Z.of_nat (length value)) vs); [|done]. simpl.
    apply (outcome_bind _ (λ _, True)); [by apply outcome_ok_or|]. intros fl _. do 2 (case_match; [done|]).
    destruct (n <=? u32_key key) eqn:Hr; [done|].
    eapply outcome_bind; [eapply outcome_weaken; [exact Hfits|]; by apply array_set_outcome; [|apply index_range|]|].
    intros d Hd'. done.
  - unfold array_get_next_key. unfold sized in Hn. rewrite (proj2 (Nat.eqb_eq _ _)) by lia. rewrite Hmax. destruct Hd as [_ Hn' _ _].
    destruct key as [key|]; [|by apply (outcome_copy_from _ 4)]. simpl.
    destruct (length key =? 4)%nat eqn:Hl; [|done]. simpl. rewrite (arith_ok 32 (n - 1)) by lia. cbn [mbind res_bind].
    destruct (Z.leb_spec (n - 1) (u32_key key)); [done|]. pose proof (u32_key_range key (Hk key eq_refl) Hl).
    rewrite (arith_ok 32 (_ + 1)) by lia. cbn [mbind res_bind]. by apply (outcome_copy_from _ 4).
Qed.

#[export] Instance perf_contract : MapContract fits ks vs PerfEventArrayMap_ops perf_typed.
Proof using Hfits.
  split; [intros m key Hm Hk|intros m key value flags Hm Hk|intros m key Hm Hk|done..];
    destruct Hm as (Hks & Hvs & Hmax & Hd); rewrite Hvs in Hfits; simpl.
  - unfold perf_lookup. rewrite Hmax. destruct (length key =? 4)%nat eqn:Hl; [|done].
    destruct (n <=? u32_key key) eqn:Hr; [done|]. simpl.
    eapply outcome_bind; [eapply outcome_weaken; [exact Hfits|]; by apply array_index_outcome, index_range|].
    intros v Hs. rewrite Hvs. split; [done|]. by intros ? [= <-].
  - unfold perf_update. rewrite Hmax. destruct (length key =? 4)%nat eqn:Hl; [|done].
    destruct (Nat.eqb_spec (length value) 4); [|done]. simpl.
    apply (outcome_bind _ (λ _, True)); [by apply outcome_ok_or|]. intros fl _. case_match; [done|].
    destruct (n <=? u32_key key) eqn:Hr; [done|].
    eapply outcome_bind; [eapply outcome_weaken; [exact Hfits|]; apply array_set_outcome; [done|by apply index_range|unfold sized; lia]|].
    intros d Hd'. done.
  - unfold perf_delete. rewrite Hmax. destruct (length key =? 4)%nat eqn:Hl; [|done].
    destruct (n <=? u32_key key) eqn:Hr; [done|]. simpl.
    eapply outcome_bind; [eapply outcome_weaken; [exact Hfits|]; by apply array_set_outcome; [|apply index_range|]|].
    intros d Hd'. done.
Qed.
End array_contracts.

(** ** Hash and LRU maps *)
Section hashes.
Context `{BuildMode} (fits : Prop) (ks vs n : Z).

Definition hash_typed (m : BpfHashMap) : Prop :=
  hm_key_size m = ks ∧ hm_value_size m = vs ∧ hm_max_entries m = n ∧ hash_ok m.

Lemma next_after_in key l p : next_after key l = Some p → p ∈ l.
Proof.
  induction l as [|[k v] l IH]; simpl; [done|]. case_decide; [|set_solver].
  destruct l; simpl; [done|]. intros [= <-]. set_solver.
Qed.

(** A walk over entries of the right size yields a key of the right size. *)
Lemma next_key_outcome iter present key next :
  Forall (λ p, sized ks p.1) iter → sized ks next → outcome fits (sized ks) (next_key_of iter ks present key next).
Proof.
  intros Hi Hn. unfold next_key_of. rewrite (proj2 (Z.eqb_eq _ _) Hn). simpl.
  assert (∀ p, head iter = Some p → p ∈ iter) as Hhead by (intros p; destruct iter; [done|]; intros [= <-]; set_solver).
  eapply (outcome_bind _ (λ o, ∀ p, o = Some p → p ∈ iter)).
  - destruct key as [key|]; simpl; [|done]. eapply outcome_bind; [apply outcome_validate|]. intros [] _.
    simpl. destruct (present key); [|done]. intros p. apply next_after_in.
  - intros [[k v]|] Hp; simpl; [|done]. rewrite Forall_forall in Hi.
    pose proof (Hi (k, v) (Hp _ eq_refl)) as Hk. by apply (outcome_copy_from _ ks).
Qed.

Lemma hash_delete_ok m key : hash_typed m → hash_typed (with_map m (delete key (hm_data m))).
Proof.
  intros (Hk & Hv & Hn & [H0 Hs Hr]). split_and!; try done. split; simpl; [done|by apply map_Forall_delete|].
  assert (size (delete key (hm_data m)) ≤ size (hm_data m))%nat; [|lia].
  destruct (hm_data m !! key) eqn:He.
  - rewrite map_size_delete_Some by (by rewrite He). lia.
  - by rewrite delete_id.
Qed.

Lemma hash_insert_ok m key v :
  hash_typed m → Z.of_nat (length key) = hm_key_size m → Z.of_nat (length v) = hm_value_size m →
  negb (bool_decide (is_Some (hm_data m !! key))) && (hm_max_entries m <=? Z.of_nat (size (hm_data m))) = false →
  hash_typed (with_map m (<[key := v]> (hm_data m))).
Proof.
  intros (Hk & Hv & Hn & [H0 Hs Hr]) Hks Hvs Hroom. split_and!; try done.
  split; simpl; [done|by apply map_Forall_insert_2|]. destruct (bool_decide_reflect (is_Some (hm_data m !! key))) as [Hp|Hp].
  - by rewrite map_size_insert_Some.
  - simpl in Hroom. apply Z.leb_gt in Hroom. rewrite map_size_insert_None by (by apply eq_None_not_Some). lia.
Qed.

Lemma hash_value_sized m key v : hash_typed m → hm_data m !! key = Some v → sized vs v.
Proof. intros (_ & <- & _ & [_ Hs _]) Hl. by apply (Hs key v Hl). Qed.

#[export] Instance hash_contract : MapContract fits ks vs BpfHashMap_ops hash_typed.
Proof.
  split; [intros m key Hm Hk|intros m key value flags Hm Hk|intros m key Hm Hk|intros m key value Hm Hv|intros m key next Hm Hn _|done..];
    simpl.
  - unfold hash_lookup, validate_key. eapply outcome_bind; [apply outcome_validate|]. intros [] _.
    simpl. split; [done|]. intros v. by apply hash_value_sized.
  - unfold hash_update, validate_key, validate_value. eapply outcome_bind; [apply outcome_validate|]. intros [] Hks.
    eapply outcome_bind; [apply outcome_validate|]. intros [] Hvs. eapply outcome_bind; [apply outcome_flags|]. intros [] _.
    case_match eqn:Hroom; [done|]. by apply hash_insert_ok.
  - unfold hash_delete, validate_key. eapply outcome_bind; [apply outcome_validate|]. intros [] _.
    by apply hash_delete_ok.
  - unfold hash_lookup_and_delete, validate_key, validate_value.
    do 2 (eapply outcome_bind; [apply outcome_validate|]; intros [] _).
    apply (outcome_bind _ (sized vs)); [apply outcome_ok_or; intros v; by apply hash_value_sized|].
    intros v Hs. apply (outcome_bind _ (sized vs)); [by apply (outcome_copy_from _ vs)|]. intros v' Hs'.
    split; [by apply hash_delete_ok|done].
  - destruct Hm as (Hks & _ & _ & [_ Hs _]). unfold hash_get_next_key. rewrite Hks. apply next_key_outcome; [|done].
    apply Forall_forall. intros [k v] Hp. rewrite btree_iter_perm in Hp. rewrite <- Hks.
    by apply (Hs k v), elem_of_map_to_list.
Qed.
End hashes.

Section lrus.
Context `{BuildMode} {C} `{LruLaws C} (fits : Prop) (ks vs n : Z).

Definition lru_typed (m : LruMap C) : Prop :=
  lm_key_size m = ks ∧ lm_value_size m = vs ∧ 0 < n ∧ lru_wf (lm_data m) n ∧
  Forall (λ p, sized ks p.1 ∧ sized vs p.2) (lru_iter (lm_data m)).

Lemma drop_key_Forall P k l : Forall P l → Forall P (drop_key k l).
Proof. rewrite !Forall_forall. intros Hl p [_ Hp]%list_elem_of_filter. by apply Hl. Qed.

Lemma lru_get_typed m key o d : lru_typed m → lru_get (lm_data m) key = (o, d) →
  lru_typed (with_lru m d) ∧ ∀ v, o = Some v → sized vs v ∧ sized ks key.
Proof.
  intros (Hk & Hv & Hn & Hwf & Hs) Hg. pose proof (lru_get_law _ _ key Hwf) as Hl. rewrite Hg in Hl.
  destruct Hl as (Hwf' & Ho & Hi).
  assert (∀ v, o = Some v → sized vs v ∧ sized ks key) as Hval.
  { intros v ->. symmetry in Ho. unfold find_key in Ho. apply fmap_Some in Ho as ([k w] & Hh & ->).
    assert ((k, w) ∈ filter (λ p, p.1 = key) (lru_iter (lm_data m))) as Hin
      by (destruct (filter _ _); simpl in *; simplify_eq; set_solver).
    apply list_elem_of_filter in Hin as [Hke Hin]. simpl in Hke. subst k.
    rewrite Forall_forall in Hs. destruct (Hs _ Hin) as [??]. done. }
  split; [|done]. split_and!; try done. simpl. rewrite Hi. destruct o as [v|]; [|done].
  constructor; [|by apply drop_key_Forall]. destruct (Hval v eq_refl). done.
Qed.

Lemma lru_pop_typed m key : lru_typed m → lru_typed (with_lru m (lru_pop (lm_data m) key)).
Proof.
  intros (Hk & Hv & Hn & Hwf & Hs). destruct (lru_pop_law _ _ key Hwf) as [Hwf' Hi].
  split_and!; try done. simpl. rewrite Hi. by apply drop_key_Forall.
Qed.

#[export] Instance lru_contract : MapContract fits ks vs LruMap_ops lru_typed.
Proof.
  split; [intros m key Hm Hk|intros m key value flags Hm Hk|intros m key Hm Hk|intros m key value Hm Hv|intros m key next Hm Hn _|done..];
    simpl.
  - unfold lru_lookup. eapply outcome_bind; [apply outcome_validate|]. intros [] _.
    destruct (lru_get (lm_data m) key) as [o d] eqn:Hg. destruct (lru_get_typed m key o d Hm Hg) as [? Hv].
    simpl. split; [done|]. intros v Ho. by destruct (Hv v Ho).
  - destruct Hm as (Hks & Hvs & Hn & Hwf & Hs). unfold lru_update. rewrite Hks, Hvs.
    eapply outcome_bind; [apply outcome_validate|]. intros [] Hkey.
    eapply outcome_bind; [apply outcome_validate|]. intros [] Hval. eapply outcome_bind; [apply outcome_flags|]. intros [] _.
    simpl. destruct (lru_put_law _ _ key value Hwf) as [Hwf' Hi]. split_and!; try done. simpl. rewrite Hi.
    constructor; [done|]. apply drop_key_Forall. case_decide; [done|]. by apply Forall_take.
  - unfold lru_delete. eapply outcome_bind; [apply outcome_validate|]. intros [] _. by apply lru_pop_typed.
  - unfold lru_lookup_and_delete. do 2 (eapply outcome_bind; [apply outcome_validate|]; intros [] _).
    destruct (lru_get (lm_data m) key) as [o d] eqn:Hg. destruct (lru_get_typed m key o d Hm Hg) as [Hm' Hval].
    apply (outcome_bind _ (sized vs)); [apply outcome_ok_or; intros v Ho; by destruct (Hval v Ho)|].
    intros v Hsv. unfold sized in *. rewrite slice_copy_some by lia. simpl.
    split; [by apply (lru_pop_typed (with_lru m d))|]. rewrite length_splice by lia. done.
  - destruct Hm as (Hks & _ & _ & _ & Hs). unfold lru_get_next_key. rewrite Hks. apply next_key_outcome; [|done].
    eapply Forall_impl; [exact Hs|]. by intros ? [].
Qed.
End lrus.

(** ** Queue and stack maps *)
Section queues.
Context `{BuildMode} (fits : Prop) (ks vs n : Z).

Definition queue_typed (q : QueueMap) : Prop :=
  ks = 0 ∧ qm_value_size q = vs ∧ qm_max_entries q = n ∧ queue_ok q.
Definition stack_typed (s : StackMap) : Prop := queue_typed (sm_queue s).

Lemma queue_set_typed q d :
  queue_typed q → Forall (sized (qm_value_size q)) d → Z.of_nat (length d) ≤ qm_max_entries q → queue_typed (with_queue q d).
Proof. intros (Hk & Hv & Hn & [Hm Hs _ _]) Hd Hr. split_and!; try done. Qed.

(** What [SpecialMap] promises, for the generic operations. *)
Class SpecialContract {T} `{SpecialMap T} (P : T → Prop) : Prop := {
  sc_value_size m : P m → sp_value_size m = vs;
  sc_peek m v : P m → sp_peek m = Some v → sized vs v;
  sc_push m v flags : P m → sized vs v → outcome fits P (sp_push m v flags);
  sc_pop m v m' : P m → sp_pop m = Some (v, m') → P m' ∧ sized vs v;
}.

#[export] Instance special_contract {T} `{SpecialMap T} (P : T → Prop) :
  SpecialContract P → MapContract fits ks vs special_ops P.
Proof.
  intros Hc.
  assert (∀ m key value flags, P m → outcome fits P (special_update m key value flags)) as Hup.
  { intros m key value flags Hm. unfold special_update. rewrite (sc_value_size m Hm). destruct (negb _); [done|].
    destruct (Z.eqb_spec (Z.of_nat (length value)) vs); [|done]. simpl.
    apply (outcome_bind _ (λ _, True)); [by apply outcome_ok_or|]. intros fl _. case_match; [done|]. by apply sc_push. }
  assert (∀ m key value, P m → sized vs value →
    outcome fits (λ '(v, m'), P m' ∧ sized vs v) (special_lookup_and_delete m key value)) as Hpop.
  { intros m key value Hm Hv. unfold special_lookup_and_delete. case_match; [done|]. destruct (sp_pop m) as [[v m']|] eqn:Hp; [|done].
    destruct (sc_pop m v m' Hm Hp) as [Hm' Hs].
    apply (outcome_bind _ (sized vs)); [by apply (outcome_copy_from _ vs)|]. by intros v' Hs'. }
  split; [intros m key Hm Hk|intros m key value flags Hm _; by apply Hup|done|exact Hpop|done|done|
    intros m value flags; by apply Hup|intros m value; by apply Hpop|intros m value Hm]; simpl.
  - unfold special_lookup. case_match; [done|]. simpl. split; [done|]. intros v. by apply sc_peek.
  - unfold special_peek. rewrite (sc_value_size m Hm). destruct (Z.eqb_spec (Z.of_nat (length value)) vs); [|done]. simpl.
    apply (outcome_bind _ (sized vs)); [apply outcome_ok_or; intros v; by apply sc_peek|].
    intros v Hs. by apply (outcome_copy_from _ vs).
Qed.

#[export] Instance queue_special : SpecialContract queue_typed.
Proof.
  split; simpl.
  - by intros q (_ & <- & _).
  - intros q v (_ & <- & _ & [_ _ Hv _]) Hh. destruct (qm_data q); [done|]. injection Hh as ->. by apply Forall_cons in Hv as [? _].
  - intros q v flags Hq Hs. pose proof Hq as (_ & Hvs & _ & [Hm _ Hv Hr]). rewrite <- Hvs in Hs.
    unfold queue_push, queue_full. case_match; [done|].
    destruct (Z.eqb_spec (Z.of_nat (length (qm_data q))) (qm_max_entries q)) as [Hf|Hf].
    + destruct (qm_data q) as [|x d]; simpl in Hf, Hr; [lia|]. simpl. apply Forall_cons in Hv as [_ Hv].
      apply queue_set_typed; [done|apply Forall_app_2; by auto|rewrite length_app; simpl; lia].
    + simpl. apply queue_set_typed; [done|apply Forall_app_2; by auto|rewrite length_app; simpl; lia].
  - intros q v q' Hq. unfold queue_pop. pose proof Hq as (_ & Hvs & _ & [Hm _ Hv Hr]).
    destruct (qm_data q) as [|x d] eqn:Hd; [done|]. intros [= <- <-]. simpl in Hr. apply Forall_cons in Hv as [Hx Hv].
    split; [|by rewrite <- Hvs]. apply queue_set_typed; [done|done|lia].
Qed.

Lemma vec_pop_app {A} (l : list A) x d : vec_pop l = Some (x, d) → l = d ++ [x].
Proof.
  unfold vec_pop. destruct (last l) as [y|] eqn:Hl; [|done]. intros [= <- <-].
  apply last_Some in Hl as [l' ->]. rewrite length_app. simpl. rewrite take_app_length' by lia. done.
Qed.

#[export] Instance stack_special : SpecialContract stack_typed.
Proof.
  split; simpl.
  - by intros s (_ & <- & _).
  - intros s v (_ & <- & _ & [_ _ Hv _]) Hh. apply last_Some in Hh as [l Hl]. rewrite Hl in Hv.
    apply Forall_app in Hv as [_ Hv]. by apply Forall_cons in Hv as [Hv _].
  - intros s v flags Hq Hs. pose proof Hq as (_ & Hvs & _ & [Hm _ Hv Hr]). rewrite <- Hvs in Hs.
    unfold stack_push, queue_full.
    destruct (Z.eqb_spec (Z.of_nat (length (qm_data (sm_queue s)))) (qm_max_entries (sm_queue s))) as [Hf|Hf].
    + case_match; [|done]. simpl. destruct (vec_pop (qm_data (sm_queue s))) as [[x d]|] eqn:Hp; simpl.
      * apply vec_pop_app in Hp. rewrite Hp in *. apply Forall_app in Hv as [Hv _]. rewrite length_app in Hr. simpl in Hr.
        apply queue_set_typed; [done|apply Forall_app_2; by auto|rewrite length_app; simpl; lia].
      * exfalso. unfold vec_pop in Hp. destruct (last _) eqn:Hl; [done|]. apply last_None in Hl. rewrite Hl in Hf. simpl in Hf. lia.
    + simpl. apply queue_set_typed; [done|apply Forall_app_2; by auto|rewrite length_app; simpl; lia].
  - intros s v s' Hq. unfold stack_pop. pose proof Hq as (_ & Hvs & _ & [Hm _ Hv Hr]).
    destruct (vec_pop (qm_data (sm_queue s))) as [[x d]|] eqn:Hp; [|done]. intros [= <- <-]. apply vec_pop_app in Hp.
    rewrite Hp in *. apply Forall_app in Hv as [Hv Hx]. apply Forall_cons in Hx as [Hx _]. rewrite length_app in Hr.
    split; [|by rewrite <- Hvs]. apply queue_set_typed; [done|done|simpl in Hr; lia].
Qed.
End queues.
