(* ===== verification/Helper.v ===== *)
(** The helper functions BPF programs call (bpf-basic/src/helper: mod.rs,
    consts.rs).

    A raw helper receives pointers; the memory they point into is a map from
    addresses to bytes, and an access outside it is [Panic].  A pointer into
    a map's value is the value, [None] the null pointer.  The formatting of
    [printf] and the writes it makes belong to the crate printf_compat and
    to the kernel, and are a parameter. *)
From S2P Require Import Prelude Text BpfBase RingMem RingBuf Maps Unified.

(** ** Helper numbers *)
Definition HELPER_MAP_LOOKUP_ELEM : Z := 1.
Definition HELPER_MAP_UPDATE_ELEM : Z := 2.
Definition HELPER_MAP_DELETE_ELEM : Z := 3.
Definition HELPER_BPF_PROBE_READ : Z := 4.
Definition HELPER_KTIME_GET_NS : Z := 5.
Definition HELPER_TRACE_PRINTF : Z := 6.
Definition HELPER_PERF_EVENT_OUTPUT : Z := 25.
Definition HELPER_MAP_PUSH_ELEM : Z := 87.
Definition HELPER_MAP_POP_ELEM : Z := 88.
Definition HELPER_MAP_PEEK_ELEM : Z := 89.
Definition HELPER_PROBE_READ_USER_STR : Z := 114.
Definition HELPER_BPF_RINGBUF_OUTPUT : Z := 130.
Definition HELPER_BPF_RINGBUF_RESERVE : Z := 131.
Definition HELPER_BPF_RINGBUF_SUBMIT : Z := 132.
Definition HELPER_BPF_RINGBUF_DISCARD : Z := 133.
Definition HELPER_BPF_RINGBUF_QUERY : Z := 134.
Definition HELPER_BPF_RINGBUF_RESERVE_DYNPTR : Z := 198.
Definition HELPER_BPF_RINGBUF_SUBMIT_DYNPTR : Z := 199.
Definition HELPER_BPF_RINGBUF_DISCARD_DYNPTR : Z := 200.
Definition HELPER_MAP_FOR_EACH_ELEM : Z := 164.
Definition HELPER_MAP_LOOKUP_PERCPU_ELEM : Z := 195.
Definition BPF_F_CURRENT_CPU : Z := 4294967295.

(** The functions of the table, by name. *)
Inductive RawHelper :=
  | Raw_map_lookup_elem | Raw_map_update_elem | Raw_map_delete_elem | Bpf_ktime_get_ns | Raw_map_for_each_elem
  | Raw_map_lookup_percpu_elem | Raw_perf_event_output | Raw_bpf_probe_read | Trace_printf | Raw_map_push_elem
  | Raw_map_pop_elem | Raw_map_peek_elem | Raw_probe_read_user_str | Raw_bpf_ringbuf_output
  | Raw_bpf_ringbuf_reserve | Raw_bpf_ringbuf_submit | Raw_bpf_ringbuf_discard | Raw_bpf_ringbuf_query
  | Raw_bpf_ringbuf_reserve_dynptr | Raw_bpf_ringbuf_submit_dynptr | Raw_bpf_ringbuf_discard_dynptr.

Definition init_helper_functions : gmap Z RawHelper :=
  let map := ∅ in
  let map := <[HELPER_MAP_LOOKUP_ELEM := Raw_map_lookup_elem]> map in
  let map := <[HELPER_MAP_UPDATE_ELEM := Raw_map_update_elem]> map in
  let map := <[HELPER_MAP_DELETE_ELEM := Raw_map_delete_elem]> map in
  let map := <[HELPER_KTIME_GET_NS := Bpf_ktime_get_ns]> map in
  let map := <[HELPER_MAP_FOR_EACH_ELEM := Raw_map_for_each_elem]> map in
  let map := <[HELPER_MAP_LOOKUP_PERCPU_ELEM := Raw_map_lookup_percpu_elem]> map in
  let map := <[HELPER_PERF_EVENT_OUTPUT := Raw_perf_event_output]> map in
  let map := <[HELPER_BPF_PROBE_READ := Raw_bpf_probe_read]> map in
  let map := <[HELPER_TRACE_PRINTF := Trace_printf]> map in
  let map := <[HELPER_MAP_PUSH_ELEM := Raw_map_push_elem]> map in
  let map := <[HELPER_MAP_POP_ELEM := Raw_map_pop_elem]> map in
  let map := <[HELPER_MAP_PEEK_ELEM := Raw_map_peek_elem]> map in
  let map := <[HELPER_PROBE_READ_USER_STR := Raw_probe_read_user_str]> map in
  let map := <[HELPER_BPF_RINGBUF_OUTPUT := Raw_bpf_ringbuf_output]> map in
  let map := <[HELPER_BPF_RINGBUF_RESERVE := Raw_bpf_ringbuf_reserve]> map in
  let map := <[HELPER_BPF_RINGBUF_SUBMIT := Raw_bpf_ringbuf_submit]> map in
  let map := <[HELPER_BPF_RINGBUF_DISCARD := Raw_bpf_ringbuf_discard]> map in
  let map := <[HELPER_BPF_RINGBUF_QUERY := Raw_bpf_ringbuf_query]> map in
  let map := <[HELPER_BPF_RINGBUF_RESERVE_DYNPTR := Raw_bpf_ringbuf_reserve_dynptr]> map in
  let map := <[HELPER_BPF_RINGBUF_SUBMIT_DYNPTR := Raw_bpf_ringbuf_submit_dynptr]> map in
  <[HELPER_BPF_RINGBUF_DISCARD_DYNPTR := Raw_bpf_ringbuf_discard_dynptr]> map.

(** ** Memory *)
Definition bytes_at : Type := gmap Z Z.
Fixpoint read_mem {E} (m : bytes_at) (p : Z) (n : nat) : res E str :=
  match n with
  | O => Ok []
  | S n => b ← unwrap (m !! p); l ← read_mem m (p + 1) n; Ok (b :: l)
  end.
Fixpoint write_mem {E} (m : bytes_at) (p : Z) (xs : str) : res E bytes_at :=
  match xs with
  | [] => Ok m
  | x :: xs => match m !! p with Some _ => write_mem (<[p := x]> m) (p + 1) xs | None => Panic end
  end.

(** ** Formats *)
Definition is_flag (c : Z) : bool := bool_decide (c ∈ bs "-+#0 .0123456789lhL*").
Definition is_spec (c : Z) : bool := bool_decide (c ∈ bs "cdieEfFgGosuxXpn").

(** The parse of one specifier, after its percent sign: past the flags, and
    the type letter if there is one. *)
Fixpoint skip_flags (l : str) : str :=
  match l with c :: l' => if is_flag c then skip_flags l' else l | [] => [] end.

(** [extract_format_specifiers], on the characters from [i] on. *)
Fixpoint extract_format_specifiers_loop (fuel : nat) (l : str) (fmt_arg_count : Z) : res () Z :=
  match fuel with
  | O => OutOfFuel
  | S fuel =>
      match l with
      | [] => Ok fmt_arg_count
      | c :: l =>
          if c =? ch "%" then
            match l with
            | c' :: l' =>
                if c' =? ch "%" then extract_format_specifiers_loop fuel l' fmt_arg_count
                else match skip_flags l with
                     | t :: rest => if is_spec t then extract_format_specifiers_loop fuel rest (fmt_arg_count + 1)
                                    else extract_format_specifiers_loop fuel (t :: rest) fmt_arg_count
                     | [] => extract_format_specifiers_loop fuel [] fmt_arg_count
                     end
            | [] => extract_format_specifiers_loop fuel [] fmt_arg_count
            end
          else extract_format_specifiers_loop fuel l fmt_arg_count
      end
  end.
Definition extract_format_specifiers (format_str : str) : res () Z :=
  extract_format_specifiers_loop (length format_str + 1) format_str 0.

Section helpers.
Context `{BuildMode} `{PerCpuVariantsOps} {C : Type} `{LruCache C}.
Context (lookup : Z → BpfResult Z) (errno : BpfError → Z) (cpu : Z) (h : Heap).
#[local] Instance here_ops : BpfMapCommonOps (AnyMap (C := C)) := AnyMap_ops cpu h.
Abbreviation Store := (gmap Z (UnifiedMap (C := C))).
Abbreviation UMap := (UnifiedMap (C := C)).

(** ** Maps *)

(** Every error of a lookup is the null pointer; the lookup may reorder the
    map. *)
Definition null_on_err {A} (r : BpfResult (option A)) : BpfResult (option A) :=
  match r with Err _ => Ok None | r => r end.
Definition map_lookup_elem (u : UMap) (key : str) : BpfResult (option str) * AnyMap :=
  let '(r, m) := commit_map (inner_map u) (lookup_elem (inner_map u) key) in (null_on_err r, m).
Definition raw_map_lookup_elem (mem : bytes_at) (st : Store) (map key : Z) : BpfResult (option str) * Store :=
  let '(r, st) := with_fd lookup st map (λ u,
    match read_mem mem key (Z.to_nat (key_size (map_meta u))) with
    | Ok key => map_lookup_elem u key
    | Err e => (Err e, inner_map u) | Panic => (Panic, inner_map u) | OutOfFuel => (OutOfFuel, inner_map u)
    end) in (null_on_err r, st).

Definition map_lookup_percpu_elem (u : UMap) (key : str) (c : Z) : BpfResult (option str) * AnyMap :=
  let '(r, m) := commit_map (inner_map u) (lookup_percpu_elem (inner_map u) key c) in (null_on_err r, m).
Definition raw_map_lookup_percpu_elem (mem : bytes_at) (st : Store) (map key c : Z) : BpfResult (option str) * Store :=
  let '(r, st) := with_fd lookup st map (λ u,
    match read_mem mem key (Z.to_nat (key_size (map_meta u))) with
    | Ok key => map_lookup_percpu_elem u key c
    | Err e => (Err e, inner_map u) | Panic => (Panic, inner_map u) | OutOfFuel => (OutOfFuel, inner_map u)
    end) in (null_on_err r, st).

Definition map_update_elem (u : UMap) (key value : str) (flags : Z) : BpfResult AnyMap :=
  update_elem (inner_map u) key value flags.
Definition raw_map_update_elem (mem : bytes_at) (st : Store) (map key value flags : Z) : res () Z * Store :=
  let '(r, st) := with_fd lookup st map (λ u, commit_map (inner_map u)
    (key ← read_mem mem key (Z.to_nat (key_size (map_meta u)));
     value ← read_mem mem value (Z.to_nat (value_size (map_meta u)));
     m ← map_update_elem u key value flags; Ok ((), m))) in
  (ret_code errno r, st).

Definition map_delete_elem (u : UMap) (key : str) : BpfResult AnyMap := delete_elem (inner_map u) key.
Definition raw_map_delete_elem (mem : bytes_at) (st : Store) (map key : Z) : res () Z * Store :=
  let '(r, st) := with_fd lookup st map (λ u, commit_map (inner_map u)
    (key ← read_mem mem key (Z.to_nat (key_size (map_meta u)));
     m ← map_delete_elem u key; Ok ((), m))) in
  (ret_code errno r, st).

(** The callback acts on a state [S] of its own; [cb = 0] is null. *)
Definition map_for_each_elem {S} (u : UMap) (cb : Callback S) (s : S) (flags : Z) : BpfResult (Z * S) :=
  for_each_elem S (inner_map u) cb s flags.
Definition raw_map_for_each_elem {S} (st : Store) (map cb : Z) (code : Callback S) (s : S) (flags : Z) : res () Z * S :=
  if cb =? 0 then (Ok (errno EINVAL), s) else
  match (id ← lookup map; u ← unwrap (st !! id); map_for_each_elem u code s flags) with
  | Ok (v, s) => (Ok v, s)
  | Err e => (Ok (errno e), s)
  | Panic => (Panic, s)
  | OutOfFuel => (OutOfFuel, s)
  end.

Definition map_push_elem (u : UMap) (value : str) (flags : Z) : BpfResult AnyMap := push_elem (inner_map u) value flags.
Definition raw_map_push_elem (mem : bytes_at) (st : Store) (map value flags : Z) : res () Z * Store :=
  let '(r, st) := with_fd lookup st map (λ u, commit_map (inner_map u)
    (value ← read_mem mem value (Z.to_nat (value_size (map_meta u)));
     m ← map_push_elem u value flags; Ok ((), m))) in
  (ret_code errno r, st).

Definition map_pop_elem (u : UMap) (value : str) : BpfResult (str * AnyMap) := pop_elem (inner_map u) value.
Definition map_peek_elem (u : UMap) (value : str) : BpfResult str := peek_elem (inner_map u) value.

(** The value is written to the caller's buffer. *)
Definition raw_map_pop_elem (mem : bytes_at) (st : Store) (map value : Z) : res () Z * bytes_at * Store :=
  let '(r, st) := with_fd lookup st map (λ u, commit_map (inner_map u)
    (buf ← read_mem mem value (Z.to_nat (value_size (map_meta u)));
     '(x, m) ← map_pop_elem u buf; mem ← write_mem mem value x; Ok (mem, m))) in
  (ret_code errno r, match r with Ok mem => mem | _ => mem end, st).
Definition raw_map_peek_elem (mem : bytes_at) (st : Store) (map value : Z) : res () Z * bytes_at :=
  let r : BpfResult bytes_at :=
    (id ← lookup map; u ← unwrap (st !! id);
     buf ← read_mem mem value (Z.to_nat (value_size (map_meta u)));
     x ← map_peek_elem u buf; write_mem mem value x) in
  (ret_code errno r, match r with Ok mem => mem | _ => mem end).

(** ** Events, time and memory *)
Context (kernel_perf_event_output : Z → Z → str → BpfResult ()).
Context (ebpf_time_ns : BpfResult Z) (string_from_user_cstr : Z → BpfResult str).

(** The file descriptor stored at the CPU's index gets the data. *)
Definition perf_event_output (u : UMap) (flags : Z) (data : str) : BpfResult () * AnyMap :=
  let index := wrapu 32 flags in
  let flags := wrapu 32 (Z.shiftr flags 32) in
  let key := if index =? wrapu 32 BPF_F_CURRENT_CPU then cpu else index in
  let '(r, m) := commit_map (inner_map u) (lookup_elem (inner_map u) (le_enc 4 key)) in
  (v ← r;
   fd ← ok_or v ENOENT;
   if (length fd =? 4)%nat then kernel_perf_event_output (le_dec fd) flags data else Err EINVAL, m).
Definition raw_perf_event_output (mem : bytes_at) (st : Store) (map flags data size : Z) : res () Z * Store :=
  let '(r, st) := with_fd lookup st map (λ u,
    match read_mem mem data (Z.to_nat size) with
    | Ok data => perf_event_output u flags data
    | Err e => (Err e, inner_map u) | Panic => (Panic, inner_map u) | OutOfFuel => (OutOfFuel, inner_map u)
    end) in (ret_code errno r, st).

Definition bpf_probe_read (dst src : str) : BpfResult str := copy_from dst src.
Definition raw_bpf_probe_read (mem : bytes_at) (dst size unsafe_ptr : Z) : res () Z * bytes_at :=
  let r : BpfResult bytes_at :=
    (d ← read_mem mem dst (Z.to_nat size); s ← read_mem mem unsafe_ptr (Z.to_nat size);
     x ← bpf_probe_read d s; write_mem mem dst x) in
  (ret_code errno r, match r with Ok mem => mem | _ => mem end).

Definition bpf_ktime_get_ns : res () Z :=
  match ebpf_time_ns with Ok t => Ok t | Err _ => Ok 0 | Panic => Panic | OutOfFuel => OutOfFuel end.

Definition probe_read_user_str (dst : str) (src : Z) : BpfResult (Z * str) :=
  if (length dst =? 0)%nat then Err EINVAL else
  s ← string_from_user_cstr src;
  let copy_len := Nat.min (length s) (length dst - 1) in
  head ← unwrap (slice s 0 copy_len);
  dst ← unwrap (slice_copy dst 0 copy_len head);
  dst ← (if (copy_len <? length dst)%nat then Ok (<[copy_len := 0]> dst) else Panic);
  Ok (Z.of_nat copy_len + 1, dst).
Definition raw_probe_read_user_str (mem : bytes_at) (dst size unsafe_ptr : Z) : res () Z * bytes_at :=
  let r : BpfResult (Z * bytes_at) :=
    (d ← read_mem mem dst (Z.to_nat size);
     '(len, x) ← probe_read_user_str d unsafe_ptr; mem ← write_mem mem dst x; Ok (len, mem)) in
  match r with
  | Ok (len, mem) => (Ok len, mem)
  | Err e => (Ok (errno e), mem)
  | Panic => (Panic, mem)
  | OutOfFuel => (OutOfFuel, mem)
  end.

(** ** Printing *)
Context (printf : str → list Z → res () Z).

(** [(arg as *const u64).read()]. *)
Definition read_u64 (mem : bytes_at) (p : Z) : res () Z := l ← read_mem mem p 8; Ok (le_dec l).

(** [printf] reads the format up to its NUL from [fmt_ptr]. *)
Definition trace_printf (mem : bytes_at) (fmt : str) (fmt_ptr fmt_len arg3 arg4 arg5 : Z) : res () Z :=
  fmt_str ← read_mem mem fmt_ptr (Z.to_nat fmt_len);
  fmt_arg_count ← extract_format_specifiers fmt_str;
  if fmt_arg_count =? 0 then printf fmt [0; 0; 0]
  else if fmt_arg_count =? 1 then a ← read_u64 mem arg3; printf fmt [a; 0; 0]
  else if fmt_arg_count =? 2 then a ← read_u64 mem arg3; b ← read_u64 mem arg4; printf fmt [a; b; 0]
  else if fmt_arg_count =? 3 then
    a ← read_u64 mem arg3; b ← read_u64 mem arg4; c ← read_u64 mem arg5; printf fmt [a; b; c]
  else Ok (-1).
End helpers.
