(* ===== verification/MapTable.v ===== *)
(** The table of BPF maps: what it means for an object to be well typed, and
    that creation and the map commands of bpf(2) keep it so. *)
From S2P Require Import Prelude BpfBase RingMem RingBuf RingBufProps Maps Unified MapProps UnifiedProps MapTyping.

(** ** Per-CPU storage lifts contracts *)
Section percpu_contract.
Context `{PerCpuLaws} (fits : Prop) (ks vs cpu : Z) (Hcpu : 0 ≤ cpu < pc_num_cpus).

Definition on_cpus {M} (T : M → Prop) (p : PC M) : Prop := ∀ c, 0 ≤ c < pc_num_cpus → T (pc_get p c).

Lemma on_cpus_set {M} (T : M → Prop) p c m : on_cpus T p → T m → on_cpus T (pc_set p c m).
Proof. intros Hp Hm c' Hc'. rewrite pc_get_set. destruct (c =? c'); auto. Qed.

Context {M} (ops : BpfMapCommonOps M) (T : M → Prop) {HC : MapContract fits ks vs ops T}.

#[export] Instance percpu_hash_contract : MapContract fits ks vs (PerCpuHashMap_ops cpu) (on_cpus T).
Proof using Hcpu HC H0.
  split; [intros p key Hp Hk|intros p key value flags Hp Hk|intros p key Hp Hk|intros p key value Hp Hv|intros p key next Hp Hn Hk|done..]; simpl.
  - unfold on_cpu. eapply outcome_bind; [by apply mc_lookup, Hk; auto|]. intros [o m'] [Hm' Ho].
    split; [by apply on_cpus_set|done].
  - unfold on_cpu_. eapply outcome_bind; [by apply mc_update; auto|]. intros m' Hm'. by apply on_cpus_set.
  - unfold on_cpu_. eapply outcome_bind; [by apply mc_delete; auto|]. intros m' Hm'. by apply on_cpus_set.
  - unfold on_cpu. eapply outcome_bind; [by apply mc_lookup_and_delete; auto|]. intros [v m'] [Hm' Ho].
    split; [by apply on_cpus_set|done].
  - by apply mc_next_key; auto.
Qed.

#[export] Instance percpu_array_contract : MapContract fits ks vs (PerCpuArrayMap_ops cpu) (on_cpus T).
Proof using Hcpu HC H0.
  split; [intros p key Hp Hk|intros p key value flags Hp Hk|intros p key Hp Hk|done|intros p key next Hp Hn Hk|done..]; simpl.
  - by apply (mc_lookup (ops := PerCpuHashMap_ops cpu)).
  - by apply (mc_update (ops := PerCpuHashMap_ops cpu)).
  - by apply (mc_delete (ops := PerCpuHashMap_ops cpu)).
  - by apply mc_next_key; auto.
Qed.
End percpu_contract.

(** ** Well-typed map objects *)
Section typing.
Context `{BuildMode} `{PerCpuLaws} {C} `{LruLaws C}.

Definition kind_of (a : AnyMap (C := C)) : BpfMapType :=
  match a with
  | MArray _ => BPF_MAP_TYPE_ARRAY
  | MPerCpuArray _ => BPF_MAP_TYPE_PERCPU_ARRAY
  | MPerfEventArray _ => BPF_MAP_TYPE_PERF_EVENT_ARRAY
  | MHash _ => BPF_MAP_TYPE_HASH
  | MPerCpuHash _ => BPF_MAP_TYPE_PERCPU_HASH
  | MQueue _ => BPF_MAP_TYPE_QUEUE
  | MStack _ => BPF_MAP_TYPE_STACK
  | MLru _ => BPF_MAP_TYPE_LRU_HASH
  | MPerCpuLru _ => BPF_MAP_TYPE_LRU_PERCPU_HASH
  | MRingBuf _ => BPF_MAP_TYPE_RINGBUF
  end.

(** The sizes that creation and the commands read are [u32]s. *)
Definition meta_u32 (m : BpfMapMeta) : Prop :=
  0 ≤ key_size m < 2 ^ 32 ∧ 0 ≤ value_size m < 2 ^ 32 ∧ 0 ≤ max_entries m < 2 ^ 32.

Definition agrees (m : BpfMapMeta) (a : AnyMap (C := C)) : Prop :=
  let ks := key_size m in let vs := value_size m in let n := max_entries m in
  match a with
  | MArray x => array_typed ks vs n x
  | MPerCpuArray p => on_cpus (array_typed ks vs n) p
  | MPerfEventArray x => perf_typed ks vs n x
  | MHash x => hash_typed ks vs n x
  | MPerCpuHash p => on_cpus (hash_typed ks vs n) p
  | MQueue x => queue_typed ks vs n x
  | MStack x => stack_typed ks vs n x
  | MLru x => lru_typed ks vs n x
  | MPerCpuLru p => on_cpus (lru_typed ks vs n) p
  | MRingBuf _ => True
  end.
Definition any_typed (m : BpfMapMeta) (a : AnyMap (C := C)) : Prop := map_type m = kind_of a ∧ agrees m a.
Definition well_typed (u : UnifiedMap (C := C)) : Prop := meta_u32 (map_meta u) ∧ any_typed (map_meta u) (inner_map u).

(** The byte size of the store of an array-like map fits in a [u32]. *)
Definition fits_u32 (m : BpfMapMeta) : Prop :=
  map_type m ∈ [BPF_MAP_TYPE_ARRAY; BPF_MAP_TYPE_PERCPU_ARRAY; BPF_MAP_TYPE_PERF_EVENT_ARRAY] →
  value_size m * max_entries m < 2 ^ 32.

Section dispatch.
Context (cpu : Z) (h : Heap) (Hcpu : 0 ≤ cpu < pc_num_cpus).

(** A property of the dispatch from the contracts alone. *)
Lemma with_ops_outcome {A} m (Q : A → Prop) (f : ∀ M, BpfMapCommonOps M → (M → AnyMap) → M → BpfResult A) ring a :
  any_typed m a →
  (∀ M ops k (T : M → Prop) x, MapContract (fits_u32 m) (key_size m) (value_size m) ops T →
     (∀ y, T y → any_typed m (k y)) → T x → outcome (fits_u32 m) Q (f M ops k x)) →
  (∀ base, outcome (fits_u32 m) Q (ring base)) →
  outcome (fits_u32 m) Q (with_ops cpu f ring a).
Proof using Hcpu H1 H3.
  intros [Hk Ha] Hf Hring.
  set (ks := key_size m) in *. set (vs := value_size m) in *. set (n := max_entries m) in *. set (fits := fits_u32 m) in *.
  assert (fits_in : ∀ k, map_type m = k → k ∈ [BPF_MAP_TYPE_ARRAY; BPF_MAP_TYPE_PERCPU_ARRAY; BPF_MAP_TYPE_PERF_EVENT_ARRAY] →
    fits → vs * n < 2 ^ 32) by (intros k <- Hin Hf'; by apply Hf').
  destruct a; cbn [kind_of agrees with_ops] in *; [| | | | | | | | |by apply Hring].
  - apply (Hf _ _ _ (array_typed ks vs n)); [apply array_contract; eapply fits_in; [exact Hk|set_solver]|by split|done].
  - apply (Hf _ _ _ (on_cpus (array_typed ks vs n))); [|by split|done].
    apply percpu_array_contract; [done|apply array_contract; eapply fits_in; [exact Hk|set_solver]].
  - apply (Hf _ _ _ (perf_typed ks vs n)); [apply perf_contract; eapply fits_in; [exact Hk|set_solver]|by split|done].
  - apply (Hf _ _ _ (hash_typed ks vs n)); [apply hash_contract|by split|done].
  - apply (Hf _ _ _ (on_cpus (hash_typed ks vs n))); [apply percpu_hash_contract; [done|apply hash_contract]|by split|done].
  - apply (Hf _ _ _ (queue_typed ks vs n)); [apply special_contract, queue_special|by split|done].
  - apply (Hf _ _ _ (stack_typed ks vs n)); [apply special_contract, stack_special|by split|done].
  - apply (Hf _ _ _ (lru_typed ks vs n)); [apply lru_contract|by split|done].
  - apply (Hf _ _ _ (on_cpus (lru_typed ks vs n))); [apply percpu_hash_contract; [done|apply lru_contract]|by split|done].
Qed.

#[export] Instance any_contract m :
  MapContract (fits_u32 m) (key_size m) (value_size m) (AnyMap_ops cpu h) (any_typed m).
Proof using Hcpu H1 H3.
  split; [intros a key Ha Hk|intros a key value flags Ha Hk|intros a key Ha Hk|intros a key value Ha Hv|intros a key next Ha Hn Hk|intros a Ha|
    intros a value flags Ha|intros a value Ha Hv|intros a value Ha];
    simpl; (apply with_ops_outcome; [done| |done]); intros M ops k T x HM HT Hx.
  - eapply outcome_bind; [by apply mc_lookup|]. intros [o m'] [Hm' Ho]. split; [by apply HT|done].
  - apply outcome_fmap. eapply outcome_mono; [by apply mc_update|exact HT].
  - apply outcome_fmap. eapply outcome_mono; [by apply mc_delete|exact HT].
  - eapply outcome_bind; [by apply mc_lookup_and_delete|]. intros [o m'] [Hm' Ho]. split; [by apply HT|done].
  - by apply mc_next_key.
  - by apply (mc_freeze (T := T)).
  - apply outcome_fmap. eapply outcome_mono; [by apply mc_push|exact HT].
  - eapply outcome_bind; [by apply mc_pop|]. intros [o m'] [Hm' Ho]. split; [by apply HT|done].
  - by apply mc_peek.
Qed.
End dispatch.

(** ** Creation *)
Lemma per_cpu_new_outcome {M} fits (T : M → Prop) (r : BpfResult M) :
  outcome fits T r → outcome fits (on_cpus T) (per_cpu_new r).
Proof using H1.
  intros Hr. eapply outcome_bind; [exact Hr|]. intros m Hm. apply outcome_ok_or. intros p Hp c Hc.
  by rewrite (pc_create_law _ m p c Hp Hc).
Qed.

Lemma new_array m : meta_u32 m →
  outcome (value_size m * max_entries m < 2 ^ 32) (array_typed (key_size m) (value_size m) (max_entries m)) (ArrayMap_new m).
Proof.
  intros (Hk & Hv & Hn). unfold ArrayMap_new.
  destruct (Z.eqb_spec (value_size m) 0), (Z.eqb_spec (max_entries m) 0), (Z.eqb_spec (key_size m) 4); simpl; try done.
  eapply outcome_bind; [by apply data_new; lia|]. intros d Hd. split_and!; try done. simpl. lia.
Qed.
Lemma new_perf_array m cpus : meta_u32 m →
  outcome (value_size m * max_entries m < 2 ^ 32) (perf_typed (key_size m) (value_size m) (max_entries m)) (PerfEventArrayMap_new m cpus).
Proof.
  intros (Hk & Hv & Hn). unfold PerfEventArrayMap_new.
  destruct (Z.eqb_spec (key_size m) 4), (Z.eqb_spec (value_size m) 4) as [->|], (Z.eqb_spec (max_entries m) cpus) as [<-|]; simpl; try done.
  eapply outcome_bind; [by apply data_new; lia|]. intros d Hd. done.
Qed.
Lemma new_hash fits m : meta_u32 m → outcome fits (hash_typed (key_size m) (value_size m) (max_entries m)) (BpfHashMap_new m).
Proof. intros (Hk & Hv & Hn). unfold BpfHashMap_new. case_match; [done|]. split_and!; try done. split; simpl; [lia|done|]. rewrite map_size_empty. lia. Qed.
Lemma new_lru fits m : meta_u32 m → outcome fits (lru_typed (C := C) (key_size m) (value_size m) (max_entries m)) (LruMap_new m).
Proof.
  intros (Hk & Hv & Hn). unfold LruMap_new.
  destruct (Z.eqb_spec (value_size m) 0), (Z.eqb_spec (max_entries m) 0), (Z.eqb_spec (key_size m) 0); simpl; try done.
  destruct (lru_new_law (max_entries m)) as [Hwf Hi]; [lia|]. split_and!; try done; simpl; [lia|by rewrite Hi].
Qed.
Lemma new_queue fits m : meta_u32 m → outcome fits (queue_typed (key_size m) (value_size m) (max_entries m)) (QueueMap_new m).
Proof.
  intros (Hk & Hv & Hn). unfold QueueMap_new.
  destruct (Z.eqb_spec (value_size m) 0), (Z.eqb_spec (max_entries m) 0), (Z.eqb_spec (key_size m) 0); simpl; try done.
  split_and!; try done. split; simpl; try done; lia.
Qed.

(** A created object agrees with the metadata it was created from; the
    creation of anything but a ring buffer panics only when the size of an
    array-like map does not fit. *)
Lemma create_outcome {S} `{PageOps S} m waker init h (s : S) :
  meta_u32 m → map_type m ≠ BPF_MAP_TYPE_RINGBUF →
  outcome (fits_u32 m) (λ u, map_meta u = m ∧ well_typed u) (bpf_map_create m waker init h s).1.1.
Proof using H1 H3.
  intros Hm Hr. unfold bpf_map_create, fits_u32.
  destruct (map_type m) eqn:Hk; simpl; try done; repeat apply outcome_fmap;
    (eapply outcome_mono; [|intros x Hx; split; [done|]; split; [done|]; split; [done|exact Hx]]); simpl.
  all: try (apply per_cpu_new_outcome).
  all: try solve [apply new_hash; done|apply new_lru; done|apply new_queue; done].
  all: (eapply outcome_weaken; [intros Hf; apply Hf; set_solver|]); (apply new_array || apply new_perf_array); done.
Qed.

Lemma create_typed {S} `{PageOps S} m waker init h (s : S) u h' s' :
  meta_u32 m → bpf_map_create m waker init h s = (Ok u, h', s') → map_meta u = m ∧ well_typed u.
Proof using H1 H3.
  intros Hm Hc. destruct (decide (map_type m = BPF_MAP_TYPE_RINGBUF)) as [Hr|Hr].
  - unfold bpf_map_create in Hc. rewrite Hr in Hc. destruct waker; [|done]. simpl in Hc.
    destruct (RingBuf_new m init s) as [[[base rb]|e| |] s1]; try done. injection Hc as <- <- <-. done.
  - pose proof (create_outcome m waker init h s Hm Hr) as Ho. by rewrite Hc in Ho.
Qed.

(** ** Operations on the table *)
Definition store_typed (st : gmap Z (UnifiedMap (C := C))) : Prop := map_Forall (λ _, well_typed) st.

(** What an operation that looks an object up does with it: it keeps the
    object typed and returns, or panics when [fits] fails. *)
Definition good_body {A} (fits : UnifiedMap (C := C) → Prop) (f : UnifiedMap (C := C) → BpfResult A * AnyMap) : Prop :=
  ∀ u, well_typed u → any_typed (map_meta u) (f u).2 ∧ outcome (fits u) (λ _, True) (f u).1.

(** An operation touches one object, keeps it typed, and returns. *)
Record sound {E A} (fits : UnifiedMap (C := C) → Prop) (find : Z → BpfResult Z) (st : gmap Z (UnifiedMap (C := C))) (fd : Z)
    (x : res E A * gmap Z (UnifiedMap (C := C))) : Prop := {
  so_typed : store_typed x.2;
  so_returns id u : find fd = Ok id → st !! id = Some u →
    outcome (fits u) (λ _, True) x.1 ∧ ∃ a, x.2 = <[id := with_inner u a]> st;
}.

Lemma commit_map_good {A} fits m a (Q : A → Prop) (r : BpfResult (A * AnyMap)) :
  any_typed m a → outcome fits (λ '(x, a'), any_typed m a' ∧ Q x) r →
  any_typed m (commit_map a r).2 ∧ outcome fits Q (commit_map a r).1.
Proof. intros Ha. destruct r as [[x a']|e| |]; simpl; tauto. Qed.

Lemma with_fd_sound {A} fits find st fd (f : UnifiedMap → BpfResult A * AnyMap) :
  good_body fits f → store_typed st → sound fits find st fd (with_fd find st fd f).
Proof.
  intros Hf Hst. unfold with_fd. destruct (find fd) as [id|e| |] eqn:Hfd; [|by split; [|congruence]..].
  destruct (st !! id) as [u|] eqn:Hu; [|by split; [|intros; congruence]].
  pose proof (Hst id u Hu) as Ht. destruct (Hf u Ht) as [Ha Ho]. destruct (f u) as [r a]. split; simpl.
  - apply map_Forall_insert_2; [|done]. by destruct Ht.
  - intros id' u' Hfd' Hu'. assert (id' = id) as -> by congruence. assert (u' = u) as -> by congruence. eauto.
Qed.

(** Only the reply changes. *)
Lemma reply_sound {E E' A B} fits find st fd (x : res E A * gmap Z UnifiedMap) (y : res E' B) :
  (∀ P, outcome P (λ _, True) x.1 → outcome P (λ _, True) y) → sound fits find st fd x → sound fits find st fd (y, x.2).
Proof.
  intros Hy [Ht Hr]. split; [done|]. intros id u Hfd Hu. destruct (Hr id u Hfd Hu) as [Ho Ha]. split; [by apply Hy|done].
Qed.

(** ** The commands *)

(** The kernel's copies move exactly the bytes asked for, or fail. *)
Class UserMemLaws (U : Type) `{UserMem U} : Prop := {
  from_user_law um p n : 0 ≤ n →
    safe (copy_from_user um p n) (λ l, sized n l ∧ Forall is_byte l) (λ _, True);
  to_user_law um p n v : sized n v → safe (copy_to_user um p n v) (λ _, True) (λ _, True);
}.

Inductive command :=
  | Update (arg : BpfMapUpdateArg)
  | Lookup (arg : BpfMapUpdateArg)
  | Delete (arg : BpfMapUpdateArg)
  | LookupAndDelete (arg : BpfMapUpdateArg)
  | NextKey (arg : BpfMapGetNextKeyArg)
  | Freeze (map_fd : Z).
Definition command_fd (c : command) : Z :=
  match c with
  | Update arg | Lookup arg | Delete arg | LookupAndDelete arg => ua_map_fd arg
  | NextKey arg => na_map_fd arg
  | Freeze fd => fd
  end.

Section commands.
Context {U} `{UserMemLaws U} (fd_lookup : Z → BpfResult Z).

(** One command; what it leaves in user memory is dropped. *)
Definition run_command (cpu : Z) (h : Heap) (um : U) (st : gmap Z (UnifiedMap (C := C))) (c : command) :
    BpfResult () * gmap Z (UnifiedMap (C := C)) :=
  let quiet (x : BpfResult U * gmap Z (UnifiedMap (C := C))) := ((λ _, ()) <$> x.1, x.2) in
  match c with
  | Update arg => bpf_map_update_elem fd_lookup cpu h um st arg
  | Lookup arg => quiet (bpf_lookup_elem fd_lookup cpu h um st arg)
  | Delete arg => bpf_map_delete_elem fd_lookup cpu h um st arg
  | LookupAndDelete arg => quiet (bpf_map_lookup_and_delete_elem fd_lookup cpu h um st arg)
  | NextKey arg => quiet (bpf_map_get_next_key fd_lookup cpu h um st arg)
  | Freeze fd => bpf_map_freeze fd_lookup cpu h st fd
  end.

Lemma copied fits um p n : 0 ≤ n → outcome fits (λ l, sized n l ∧ Forall is_byte l) (copy_from_user (U := U) um p n).
Proof using H5. intros Hn. pose proof (from_user_law um p n Hn). by destruct (copy_from_user um p n). Qed.
Lemma stored fits um p n v : sized n v → outcome fits (λ _, True) (copy_to_user (U := U) um p n v).
Proof using H5. intros Hn. pose proof (to_user_law um p n v Hn). by destruct (copy_to_user um p n v). Qed.

(** A command panics only when an array's size does not fit. *)
Definition size_fits (u : UnifiedMap (C := C)) : Prop := fits_u32 (map_meta u).

Section bodies.
Context (cpu : Z) (h : Heap) (um : U) (Hcpu : 0 ≤ cpu < pc_num_cpus).
#[local] Instance ops_here : BpfMapCommonOps AnyMap := AnyMap_ops cpu h.
#[local] Instance contract_here m : MapContract (fits_u32 m) (key_size m) (value_size m) ops_here (any_typed m) :=
  any_contract cpu h Hcpu m.

Lemma update_good arg : good_body size_fits (λ u : UnifiedMap (C := C),
  commit_map (inner_map u)
    (key ← copy_from_user um (ua_key arg) (key_size (map_meta u));
     value ← copy_from_user um (ua_value arg) (value_size (map_meta u));
     m ← update_elem (inner_map u) key value (ua_flags arg);
     Ok ((), m))).
Proof using H1 H3 H5 Hcpu.
  intros u [(Hk & Hv & _) Ht]. apply (commit_map_good (fits_u32 _)); [done|].
  eapply outcome_bind; [apply copied; lia|]. intros key [_ Hb]. eapply outcome_bind; [apply copied; lia|]. intros value _.
  eapply outcome_bind; [by apply mc_update|]. done.
Qed.

Lemma delete_good arg : good_body size_fits (λ u : UnifiedMap (C := C),
  commit_map (inner_map u)
    (key ← copy_from_user um (ua_key arg) (key_size (map_meta u));
     m ← delete_elem (inner_map u) key;
     Ok ((), m))).
Proof using H1 H3 H5 Hcpu.
  intros u [(Hk & Hv & _) Ht]. apply (commit_map_good (fits_u32 _)); [done|].
  eapply outcome_bind; [apply copied; lia|]. intros key [_ Hb]. eapply outcome_bind; [by apply mc_delete|]. done.
Qed.

Lemma freeze_good : good_body size_fits (λ u : UnifiedMap (C := C), (freeze (inner_map u), inner_map u)).
Proof using H1 H3 Hcpu. intros u [_ Ht]. split; [done|]. by apply mc_freeze. Qed.

Lemma lookup_good arg : good_body size_fits (λ u : UnifiedMap (C := C),
  let '(r, m) := commit_map (inner_map u)
    (key ← copy_from_user um (ua_key arg) (key_size (map_meta u)); lookup_elem (inner_map u) key) in
  (o ← r;
   match o with
   | Some v => copy_to_user um (ua_value arg) (value_size (map_meta u)) v
   | None => Err ENOENT
   end, m)).
Proof using H1 H3 H5 Hcpu.
  intros u [(Hk & Hv & _) Ht].
  destruct (commit_map_good (fits_u32 (map_meta u)) (map_meta u) (inner_map u) (λ o, ∀ v, o = Some v → sized (value_size (map_meta u)) v)
    (key ← copy_from_user um (ua_key arg) (key_size (map_meta u)); lookup_elem (inner_map u) key) Ht) as [Ha Ho].
  { eapply outcome_bind; [apply copied; lia|]. intros key [_ Hb]. by apply mc_lookup. }
  destruct (commit_map _ _) as [r m]. split; [done|]. eapply outcome_bind; [exact Ho|].
  intros [v|] Hs; [|done]. by apply stored, Hs.
Qed.

Lemma lookup_and_delete_good arg : good_body size_fits (λ u : UnifiedMap (C := C),
  let '(r, m) := commit_map (inner_map u)
    (key ← copy_from_user um (ua_key arg) (key_size (map_meta u));
     lookup_and_delete_elem (inner_map u) key (zeros (value_size (map_meta u)))) in
  (value ← r; copy_to_user um (ua_value arg) (value_size (map_meta u)) value, m)).
Proof using H1 H3 H5 Hcpu.
  intros u [(Hk & Hv & _) Ht].
  destruct (commit_map_good (fits_u32 (map_meta u)) (map_meta u) (inner_map u) (sized (value_size (map_meta u)))
    (key ← copy_from_user um (ua_key arg) (key_size (map_meta u));
     lookup_and_delete_elem (inner_map u) key (zeros (value_size (map_meta u)))) Ht) as [Ha Ho].
  { eapply outcome_bind; [apply copied; lia|]. intros key _. apply mc_lookup_and_delete; [done|]. apply length_zeros. lia. }
  destruct (commit_map _ _) as [r m]. split; [done|]. eapply outcome_bind; [exact Ho|]. intros v Hs. by apply stored.
Qed.

Lemma next_key_good arg : good_body size_fits (λ u : UnifiedMap (C := C),
  let ksize := key_size (map_meta u) in
  (next ← match na_key arg with
          | Some ptr => key ← copy_from_user um ptr ksize; get_next_key (inner_map u) (Some key) (zeros ksize)
          | None => get_next_key (inner_map u) None (zeros ksize)
          end;
   copy_to_user um (na_next_key arg) ksize next, inner_map u)).
Proof using H1 H3 H5 Hcpu.
  intros u [(Hk & Hv & _) Ht]. split; [done|]. cbv zeta. cbn [fst].
  pose proof (length_zeros (key_size (map_meta u)) ltac:(lia)) as Hz.
  apply (outcome_bind _ (sized (key_size (map_meta u)))); [|by intros; apply stored]. destruct (na_key arg) as [ptr|].
  - eapply outcome_bind; [apply copied; lia|]. intros key [_ Hb]. apply mc_next_key; [done|done|]. by intros k [= <-].
  - by apply mc_next_key.
Qed.
End bodies.

Lemma run_command_sound cpu h um st c :
  0 ≤ cpu < pc_num_cpus → store_typed st → sound size_fits fd_lookup st (command_fd c) (run_command cpu h um st c).
Proof using H1 H3 H5.
  intros Hcpu Hst. destruct c as [arg|arg|arg|arg|arg|fd]; simpl;
    try (apply reply_sound; [intros P Ho; by apply outcome_fmap|]); (apply with_fd_sound; [|done]).
  - by apply update_good.
  - by apply lookup_good.
  - by apply delete_good.
  - by apply lookup_and_delete_good.
  - by apply next_key_good.
  - by apply freeze_good.
Qed.
End commands.
End typing.

(** A user memory of bytes. *)
#[export] Instance byte_user : UserMem (gmap Z Z) := {
  copy_from_user um p n := Ok ((λ i, default 0 (um !! (p + Z.of_nat i)) mod 256) <$> seq 0 (Z.to_nat n));
  copy_to_user um p n v := Ok (list_to_map (zip ((λ i, p + Z.of_nat i) <$> seq 0 (length v)) v) ∪ um);
}.
#[export] Instance byte_user_laws : UserMemLaws (gmap Z Z).
Proof.
  split; [|done]. intros um p n Hn. split.
  - unfold sized. rewrite length_fmap, length_seq. lia.
  - apply Forall_fmap, Forall_forall. intros i _. simpl. apply Z.mod_pos_bound. lia.
Qed.
