(* ===== verification/MapSystem.v ===== *)
(** The table of BPF maps as a transition system: maps are created and closed,
    user space issues the commands of bpf(2), and BPF programs call the map
    helpers; and the type soundness of that system. *)
From S2P Require Import Prelude BpfBase RingMem RingBuf RingBufProps Maps Unified Helper MapProps UnifiedProps MapTyping MapTable.

(** ** Program memory *)
Definition in_mem (mem : bytes_at) (p n : Z) : Prop := ∀ i, 0 ≤ i < n → is_Some (mem !! (p + i)).

Lemma read_outcome {E} mem p n :
  map_Forall (λ _, is_byte) mem → 0 ≤ n →
  outcome (in_mem mem p n) (λ l, sized n l ∧ Forall is_byte l) (read_mem (E := E) mem p (Z.to_nat n)).
Proof.
  intros Hb Hn. assert (n = Z.of_nat (Z.to_nat n)) as He by lia. revert He. generalize (Z.to_nat n). intros k ->. clear Hn. revert p.
  induction k as [|k IH]; intros p; simpl; [done|]. destruct (mem !! p) as [x|] eqn:Hx; simpl.
  - eapply outcome_bind.
    + eapply outcome_weaken; [|apply IH]. intros Hin i Hi. replace (p + 1 + i) with (p + (i + 1)) by lia. apply Hin. lia.
    + intros l [Hl Hf]. split; [unfold sized in *; simpl; lia|]. constructor; [|done]. by apply (Hb p).
  - intros Hin. destruct (Hin 0) as [y Hy]; [lia|]. rewrite Z.add_0_r in Hy. congruence.
Qed.

(** What was read can be written back over. *)
Lemma write_outcome {E} (mem : bytes_at) p l x :
  read_mem (E := E) mem p (length x) = Ok l → ∃ mem', write_mem (E := E) mem p x = Ok mem'.
Proof.
  revert mem p l. induction x as [|y x IH]; intros mem p l Hr; simpl in *; [eauto|].
  destruct (mem !! p) as [b|] eqn:Hb; [|done]. simpl in Hr. apply bind_ok in Hr as (l' & Hr & _).
  assert (∀ k q, p < q → read_mem (E := E) (<[p := y]> mem) q k = read_mem (E := E) mem q k) as Hext.
  { clear. intros k. induction k as [|k IHk]; intros q Hq; simpl; [done|].
    assert ((<[p := y]> mem : bytes_at) !! q = mem !! q) as -> by (apply (lookup_insert_ne (M := gmap Z)); lia).
    destruct (mem !! q); cbn [unwrap mbind res_bind]; [|reflexivity]. rewrite IHk by lia. reflexivity. }
  apply (IH _ _ l'). rewrite Hext by lia. exact Hr.
Qed.

Section helpers.
Context `{BuildMode} `{PerCpuLaws} {C} `{LruLaws C}.

(** ** Helper calls *)
Inductive helper_call :=
  | HLookup (map key : Z)
  | HLookupPercpu (map key c : Z)
  | HUpdate (map key value flags : Z)
  | HDelete (map key : Z)
  | HPush (map value flags : Z)
  | HPop (map value : Z)
  | HPeek (map value : Z).
Definition helper_map (c : helper_call) : Z :=
  match c with
  | HLookup map _ | HLookupPercpu map _ _ | HUpdate map _ _ _ | HDelete map _ | HPush map _ _ | HPop map _ | HPeek map _ => map
  end.

Section calls.
Context (find : Z → BpfResult Z) (errno : BpfError → Z) (cpu : Z) (h : Heap) (mem : bytes_at).
Abbreviation Table := (gmap Z (UnifiedMap (C := C))).

(** A call of a raw helper; what it returns and writes is dropped. *)
Definition run_helper (st : Table) (c : helper_call) : res () () * Table :=
  let quiet {E A} (r : res E A) : res () () := map_err (λ _, ()) ((λ _, ()) <$> r) in
  match c with
  | HLookup map key => let '(r, st) := raw_map_lookup_elem find cpu h mem st map key in (quiet r, st)
  | HLookupPercpu map key c => let '(r, st) := raw_map_lookup_percpu_elem find cpu h mem st map key c in (quiet r, st)
  | HUpdate map key value flags => let '(r, st) := raw_map_update_elem find errno cpu h mem st map key value flags in (quiet r, st)
  | HDelete map key => let '(r, st) := raw_map_delete_elem find errno cpu h mem st map key in (quiet r, st)
  | HPush map value flags => let '(r, st) := raw_map_push_elem find errno cpu h mem st map value flags in (quiet r, st)
  | HPop map value => let '(r, _, st) := raw_map_pop_elem find errno cpu h mem st map value in (quiet r, st)
  | HPeek map value => (quiet (raw_map_peek_elem find errno cpu h mem st map value).1, st)
  end.

(** What the verifier promises: the buffers of the call are in memory. *)
Definition buffers (c : helper_call) (u : UnifiedMap (C := C)) : Prop :=
  let key p := in_mem mem p (key_size (map_meta u)) in
  let value p := in_mem mem p (value_size (map_meta u)) in
  match c with
  | HLookup _ k | HLookupPercpu _ k _ | HDelete _ k => key k
  | HUpdate _ k v _ => key k ∧ value v
  | HPush _ v _ | HPop _ v | HPeek _ v => value v
  end.
(** The CPU of a per-CPU lookup exists; the code does not check it. *)
Definition cpu_ok (c : helper_call) : Prop :=
  match c with HLookupPercpu _ _ c => 0 ≤ c < pc_num_cpus | _ => True end.
Definition call_fits (c : helper_call) (u : UnifiedMap (C := C)) : Prop :=
  fits_u32 (map_meta u) ∧ buffers c u ∧ cpu_ok c.

(** ** The calls keep the table typed *)
Context (Hcpu : 0 ≤ cpu < pc_num_cpus) (Hmem : map_Forall (λ _, is_byte) mem).
#[local] Instance ops_here : BpfMapCommonOps (AnyMap (C := C)) := AnyMap_ops cpu h.
#[local] Instance contract_here m : MapContract (fits_u32 m) (key_size m) (value_size m) ops_here (any_typed m) :=
  any_contract cpu h Hcpu m.

Lemma percpu_outcome m a key c :
  any_typed m a → Forall is_byte key →
  outcome (fits_u32 m ∧ 0 ≤ c < pc_num_cpus) (λ '(o, a'), any_typed m a' ∧ True) (lookup_percpu_elem a key c).
Proof using H1 H3 Hcpu.
  intros [Hk Ha] Hb.
  assert (∀ M (ops : BpfMapCommonOps M) (T : M → Prop) (k : PC M → AnyMap) p,
    MapContract (fits_u32 m) (key_size m) (value_size m) ops T → (∀ p', on_cpus T p' → any_typed m (k p')) → on_cpus T p →
    outcome (fits_u32 m ∧ 0 ≤ c < pc_num_cpus) (λ '(o, a'), any_typed m a' ∧ True) (lift1 k (lookup_percpu p key c))) as Hper.
  { intros M ops T k p HC HT Hp. unfold lift1, lookup_percpu. destruct (decide (0 ≤ c < pc_num_cpus)) as [Hc|Hc].
    2: { rewrite pc_force_out by done. intros [_ Hc2]. exact (Hc Hc2). }
    eapply (outcome_weaken _ (fits_u32 m)); [by intros [? _]|]. rewrite pc_force_law by done. cbn [unwrap mbind res_bind].
    eapply (outcome_bind _ (λ '(o, p'), on_cpus T p')).
    - eapply outcome_bind; [by apply mc_lookup, Hb; auto|]. intros [o m'] [Hm' _]. by apply on_cpus_set.
    - intros [o p'] Hp'. simpl. split; [by apply HT|done]. }
  assert (∀ k, map_type m = k → k ∈ [BPF_MAP_TYPE_ARRAY; BPF_MAP_TYPE_PERCPU_ARRAY; BPF_MAP_TYPE_PERF_EVENT_ARRAY] →
    fits_u32 m → value_size m * max_entries m < 2 ^ 32) as Hfits by (intros k <- Hin Hf'; by apply Hf').
  destruct a; try done; cbn [kind_of agrees] in *.
  - apply (Hper _ _ (array_typed (key_size m) (value_size m) (max_entries m)) MPerCpuArray); [|by split|done].
    apply array_contract. eapply Hfits; [exact Hk|right; left].
  - by apply (Hper _ _ (hash_typed (key_size m) (value_size m) (max_entries m)) MPerCpuHash); [apply hash_contract|split|].
  - by apply (Hper _ _ (lru_typed (key_size m) (value_size m) (max_entries m)) MPerCpuLru); [apply lru_contract|split|].
Qed.

(** Reading a buffer of the call, then operating on the object. *)
Lemma read_then {A} (c : helper_call) u p n (Q : A → Prop) (f : str → BpfResult A) :
  0 ≤ n → (buffers c u → in_mem mem p n) →
  (∀ l, sized n l → Forall is_byte l → outcome (call_fits c u) Q (f l)) →
  outcome (call_fits c u) Q (read_mem mem p (Z.to_nat n) ≫= f).
Proof using Hmem.
  intros Hn Hin Hf. eapply outcome_bind.
  - eapply outcome_weaken; [|by apply (read_outcome mem p n)]. intros (_ & Hb & _). by apply Hin.
  - intros l [Hl Hb]. by apply Hf.
Qed.

Lemma call_weaken {A} c u (Q : A → Prop) (r : BpfResult A) :
  outcome (fits_u32 (map_meta u)) Q r → outcome (call_fits c u) Q r.
Proof. intros Hr. eapply outcome_weaken; [|exact Hr]. by intros [Hf _]. Qed.

Lemma null_outcome {A} fits (r : BpfResult (option A)) : outcome fits (λ _, True) r → outcome fits (λ _, True) (null_on_err r).
Proof. by destruct r. Qed.

(** The two lookups. *)
Lemma lookup_call_good (c : helper_call) key (f : UnifiedMap (C := C) → str → BpfResult (option str * AnyMap)) :
  (∀ u, buffers c u → in_mem mem key (key_size (map_meta u))) →
  (∀ u k, well_typed u → Forall is_byte k →
    outcome (fits_u32 (map_meta u) ∧ cpu_ok c) (λ '(o, a), any_typed (map_meta u) a ∧ True) (f u k)) →
  good_body (call_fits c) (λ u,
    match read_mem mem key (Z.to_nat (key_size (map_meta u))) with
    | Ok key => let '(r, m) := commit_map (inner_map u) (f u key) in (null_on_err r, m)
    | Err e => (Err e, inner_map u) | Panic => (Panic, inner_map u) | OutOfFuel => (OutOfFuel, inner_map u)
    end).
Proof using Hmem.
  intros Hin Hf u Hu. pose proof Hu as [(Hk & _) Ht].
  pose proof (read_outcome (E := BpfError) mem key _ Hmem (proj1 Hk)) as Hr.
  destruct (read_mem mem key _) as [l|e| |]; simpl in *; [|done| |done].
  - destruct Hr as [_ Hb].
    destruct (commit_map_good (fits_u32 (map_meta u) ∧ cpu_ok c) (map_meta u) (inner_map u) (λ _, True) (f u l) Ht) as [Ha Ho].
    { by apply Hf. }
    destruct (commit_map _ _) as [r m]. split; [done|]. apply null_outcome. eapply outcome_weaken; [|exact Ho]. by intros (? & ? & ?).
  - split; [done|]. intros (_ & Hbuf & _). by apply Hr, Hin.
Qed.

Lemma quiet_outcome {E A} P (r : res E A) :
  outcome P (λ _, True) r → outcome P (λ _, True) (map_err (λ _, ()) ((λ _, ()) <$> r)).
Proof. by destruct r. Qed.
Lemma code_outcome {A} P (r : BpfResult A) : outcome P (λ _, True) r → outcome P (λ _, True) (ret_code errno r).
Proof. by destruct r. Qed.

Lemma update_call_good map key value flags : good_body (call_fits (HUpdate map key value flags)) (λ u, commit_map (inner_map u)
  (k ← read_mem mem key (Z.to_nat (key_size (map_meta u)));
   v ← read_mem mem value (Z.to_nat (value_size (map_meta u)));
   m ← map_update_elem cpu h u k v flags; Ok ((), m))).
Proof using H1 H3 Hcpu Hmem.
  intros u [(Hk & Hv & _) Ht]. apply commit_map_good; [done|].
  apply read_then; [lia|by intros []|]. intros k _ Hb. apply read_then; [lia|by intros []|]. intros v _ _.
  apply call_weaken. eapply outcome_bind; [by apply mc_update|]. done.
Qed.
Lemma delete_call_good map key : good_body (call_fits (HDelete map key)) (λ u, commit_map (inner_map u)
  (k ← read_mem mem key (Z.to_nat (key_size (map_meta u))); m ← map_delete_elem cpu h u k; Ok ((), m))).
Proof using H1 H3 Hcpu Hmem.
  intros u [(Hk & Hv & _) Ht]. apply commit_map_good; [done|].
  apply read_then; [lia|done|]. intros k _ Hb. apply call_weaken. eapply outcome_bind; [by apply mc_delete|]. done.
Qed.
Lemma push_call_good map value flags : good_body (call_fits (HPush map value flags)) (λ u, commit_map (inner_map u)
  (v ← read_mem mem value (Z.to_nat (value_size (map_meta u))); m ← map_push_elem cpu h u v flags; Ok ((), m))).
Proof using H1 H3 Hcpu Hmem.
  intros u [(Hk & Hv & _) Ht]. apply commit_map_good; [done|].
  apply read_then; [lia|done|]. intros v _ _. apply call_weaken. eapply outcome_bind; [by apply mc_push|]. done.
Qed.

(** The value popped or peeked fits the buffer that was read. *)
Lemma write_back {E} p n buf x : 0 ≤ n → read_mem (E := E) mem p (Z.to_nat n) = Ok buf → sized n x →
  ∃ mem', write_mem (E := E) mem p x = Ok mem'.
Proof using. intros Hn Hr Hx. apply (write_outcome mem p buf x). unfold sized in Hx. by replace (length x) with (Z.to_nat n) by lia. Qed.

Lemma pop_call_good map value : good_body (call_fits (HPop map value)) (λ u, commit_map (inner_map u)
  (buf ← read_mem mem value (Z.to_nat (value_size (map_meta u)));
   '(x, m) ← map_pop_elem cpu h u buf; mem' ← write_mem mem value x; Ok (mem', m))).
Proof using H1 H3 Hcpu Hmem.
  intros u [(Hk & Hv & _) Ht]. apply commit_map_good; [done|].
  pose proof (read_outcome (E := BpfError) mem value _ Hmem (proj1 Hv)) as Hr.
  destruct (read_mem mem value _) as [buf|e| |] eqn:Hread; simpl in *; [|done| |done].
  - apply call_weaken. eapply outcome_bind; [apply mc_pop; [done|by destruct Hr]|]. intros [x m] [Hm Hx].
    destruct (write_back value _ buf x (proj1 Hv) Hread Hx) as [mem' ->]. done.
  - intros (_ & Hb & _). by apply Hr.
Qed.

Lemma peek_call_good map value u : well_typed u →
  outcome (call_fits (HPeek map value) u) (λ _, True)
    (buf ← read_mem mem value (Z.to_nat (value_size (map_meta u))); x ← map_peek_elem cpu h u buf; write_mem mem value x).
Proof using H1 H3 Hcpu Hmem.
  intros [(Hk & Hv & _) Ht]. pose proof (read_outcome (E := BpfError) mem value _ Hmem (proj1 Hv)) as Hr.
  destruct (read_mem mem value _) as [buf|e| |] eqn:Hread; simpl in *; [|done| |done].
  - apply call_weaken. eapply outcome_bind; [by apply mc_peek|]. intros x Hx.
    destruct (write_back value _ buf x (proj1 Hv) Hread Hx) as [mem' ->]. done.
  - intros (_ & Hb & _). by apply Hr.
Qed.

Lemma raw_lookup_good map key : good_body (call_fits (HLookup map key)) (λ u,
  match read_mem mem key (Z.to_nat (key_size (map_meta u))) with
  | Ok key => map_lookup_elem cpu h u key
  | Err e => (Err e, inner_map u) | Panic => (Panic, inner_map u) | OutOfFuel => (OutOfFuel, inner_map u)
  end).
Proof using H1 H3 Hcpu Hmem.
  apply (lookup_call_good (HLookup map key) key (λ u k, lookup_elem (inner_map u) k)); [done|].
  intros u k [_ Ht] Hb. eapply outcome_weaken, outcome_mono; [by intros [? _]|by apply mc_lookup|]. by intros [o a] [? _].
Qed.
Lemma raw_lookup_percpu_good map key c : good_body (call_fits (HLookupPercpu map key c)) (λ u,
  match read_mem mem key (Z.to_nat (key_size (map_meta u))) with
  | Ok key => map_lookup_percpu_elem cpu h u key c
  | Err e => (Err e, inner_map u) | Panic => (Panic, inner_map u) | OutOfFuel => (OutOfFuel, inner_map u)
  end).
Proof using H1 H3 Hcpu Hmem.
  apply (lookup_call_good (HLookupPercpu map key c) key (λ u k, lookup_percpu_elem (inner_map u) k c)); [done|].
  intros u k [_ Ht] Hb. by apply percpu_outcome.
Qed.

Lemma run_helper_sound st c :
  store_typed st → sound (call_fits c) find st (helper_map c) (run_helper st c).
Proof using H1 H3 Hcpu Hmem.
  intros Hst.
  destruct c as [map key|map key c|map key value flags|map key|map value flags|map value|map value]; cbn [helper_map run_helper];
    [unfold raw_map_lookup_elem|unfold raw_map_lookup_percpu_elem|unfold raw_map_update_elem|unfold raw_map_delete_elem|
     unfold raw_map_push_elem|unfold raw_map_pop_elem|unfold raw_map_peek_elem];
    try (rewrite (surjective_pairing (with_fd find st map _)); apply reply_sound;
         [intros P Ho; apply quiet_outcome; (by apply null_outcome) || (by apply code_outcome)|apply with_fd_sound; [|done]]).
  - apply raw_lookup_good.
  - by apply raw_lookup_percpu_good.
  - apply update_call_good.
  - apply delete_call_good.
  - apply push_call_good.
  - apply pop_call_good.
  - split; [done|]. intros id u Hf Hu. cbn [fst snd]. split.
    + apply quiet_outcome, code_outcome. rewrite Hf. cbn [mbind res_bind]. rewrite Hu. apply (peek_call_good map), (Hst id u Hu).
    + exists (inner_map u). symmetry. rewrite insert_id; [done|]. rewrite Hu. f_equal. by destruct u.
Qed.
End calls.
End helpers.

(** The CPU number comes from the BPF program and is not checked: where
    there is no such CPU the per-CPU storage is accessed against its contract. *)
Lemma percpu_cpu_unchecked `{BuildMode} `{PerCpuVariantsOps} {C} `{LruCache C} find errno cpu h mem
    (st : gmap Z (UnifiedMap (C := C))) id u p map key c k :
  find map = Ok id → st !! id = Some u → inner_map u = MPerCpuHash p → pc_force_get p c = None →
  read_mem (E := BpfError) mem key (Z.to_nat (key_size (map_meta u))) = Ok k →
  (run_helper find errno cpu h mem st (HLookupPercpu map key c)).1 = Panic.
Proof.
  intros Hf Hu Hp Hc Hk. cbn [run_helper]. unfold raw_map_lookup_percpu_elem, with_fd. rewrite Hf, Hu, Hk.
  unfold map_lookup_percpu_elem. rewrite Hp. simpl. unfold lookup_percpu. by rewrite Hc.
Qed.

(** ** The transition system *)
Section system.
Context `{BuildMode} `{PerCpuLaws} {C} `{LruLaws C} {U} `{UserMemLaws U} {S} `{PageOps S}.
Context (fd_lookup ptr_lookup : Z → BpfResult Z) (errno : BpfError → Z).

Inductive table_step : gmap Z (UnifiedMap (C := C)) → gmap Z (UnifiedMap (C := C)) → Prop :=
  | step_create st id m waker init h (s : S) u h' s' :
      meta_u32 m → st !! id = None → bpf_map_create m waker init h s = (Ok u, h', s') → table_step st (<[id := u]> st)
  | step_close st id : table_step st (delete id st)   (* the kernel drops the last descriptor *)
  | step_command st cpu h (um : U) c r st' :
      0 ≤ cpu < pc_num_cpus → run_command fd_lookup cpu h um st c = (r, st') → table_step st st'
  | step_helper st cpu h mem c r st' :
      0 ≤ cpu < pc_num_cpus → map_Forall (λ _, is_byte) mem →
      run_helper ptr_lookup errno cpu h mem st c = (r, st') → table_step st st'.

Lemma table_step_typed st st' : table_step st st' → store_typed st → store_typed st'.
Proof using H1 H3 H5.
  intros [st0 id m waker init h s u h' s' Hm Hid Hc|st0 id|st0 cpu h um c r st1 Hcpu Hrun|st0 cpu h mem c r st1 Hcpu Hmem Hrun] Hst.
  - apply map_Forall_insert_2; [|done]. by destruct (create_typed _ _ _ _ _ _ _ _ Hm Hc).
  - by apply map_Forall_delete.
  - destruct (run_command_sound fd_lookup cpu h um st0 c Hcpu Hst) as [Ht _]. by rewrite Hrun in Ht.
  - destruct (run_helper_sound ptr_lookup errno cpu h mem Hcpu Hmem st0 c Hst) as [Ht _]. by rewrite Hrun in Ht.
Qed.
End system.

(** C5: type soundness of the table of BPF maps: however maps are created,
    closed, operated on by user space through the commands of bpf(2) and by
    BPF programs through the map helpers, every object agrees with its
    metadata: its kind is the declared one, its keys and values have the
    declared sizes, it holds at most the declared number of entries.  On such
    a table a command through a valid descriptor and a helper call on a valid
    map return a result or an error, except that a panic is possible where the
    byte size of an array-like map overflows 32 bits, where a buffer of the
    helper call is not in memory, and where the program asks for the element
    of a CPU that does not exist (the code hands the program's number to
    [force_get] unchecked, see [percpu_cpu_unchecked]); whatever happens, they
    change no other object and no metadata.  Commands and calls run on CPUs
    that exist, and memory holds bytes. *)
Theorem map_table_typed `{BuildMode} `{PerCpuLaws} {C} `{LruLaws C} {U} `{UserMemLaws U} {S} `{PageOps S}
    (fd_lookup ptr_lookup : Z → BpfResult Z) (errno : BpfError → Z) (st : gmap Z (UnifiedMap (C := C))) :
  rtc (table_step (U := U) (S := S) fd_lookup ptr_lookup errno) ∅ st →
  map_Forall (λ _, well_typed) st ∧
  (∀ cpu h (um : U) c id u,
    0 ≤ cpu < pc_num_cpus → fd_lookup (command_fd c) = Ok id → st !! id = Some u →
    outcome (fits_u32 (map_meta u)) (λ _, True) (run_command fd_lookup cpu h um st c).1 ∧
    ∃ a, (run_command fd_lookup cpu h um st c).2 = <[id := with_inner u a]> st) ∧
  (∀ cpu h mem c id u,
    0 ≤ cpu < pc_num_cpus → map_Forall (λ _, is_byte) mem → ptr_lookup (helper_map c) = Ok id → st !! id = Some u →
    outcome (fits_u32 (map_meta u) ∧ buffers mem c u ∧ cpu_ok c) (λ _, True) (run_helper ptr_lookup errno cpu h mem st c).1 ∧
    ∃ a, (run_helper ptr_lookup errno cpu h mem st c).2 = <[id := with_inner u a]> st).
Proof.
  intros Hst. assert (store_typed st) as Ht.
  { refine (rtc_ind_r (λ x, store_typed x) ∅ _ _ st Hst); [by apply map_Forall_empty|]. intros x y _ Hs Hx. by eapply table_step_typed. }
  split_and!; [done| |].
  - intros cpu h um c id u Hcpu. by apply (run_command_sound fd_lookup cpu h um st c Hcpu Ht).
  - intros cpu h mem c id u Hcpu Hmem. by apply (run_helper_sound ptr_lookup errno cpu h mem Hcpu Hmem st c Ht).
Qed.

(** An array of two cells: created, then updated and read through
    descriptor 3; index 2 is refused. *)
Definition demo_meta : BpfMapMeta :=
  {| map_type := BPF_MAP_TYPE_ARRAY; key_size := 4; value_size := 1; max_entries := 2; map_flags := 0; map_name := [] |}.
Definition table_mem : gmap Z Z := {[ 100 := 1; 200 := 9; 300 := 2 ]}.
Definition table_arg (key : Z) : BpfMapUpdateArg := {| ua_map_fd := 3; ua_key := key; ua_value := 200; ua_flags := 0 |}.
Definition demo_map (data : list Z) : UnifiedMap (C := ListLru) :=
  {| inner_map := MArray {| am_data := {| elem_size := 1; adata := data |}; am_value_size := 1; am_max_entries := 2 |};
     map_meta := demo_meta |}.

(** Program memory: the key 1 at 1000, a value at 2000. *)
Definition prog_mem : bytes_at := {[ 1000 := 1; 1001 := 0; 1002 := 0; 1003 := 0; 2000 := 8 ]}.

Lemma map_table_typed_witness :
  let _ : BuildMode := true in
  let st : gmap Z (UnifiedMap (C := ListLru)) := {[ 7 := demo_map [9; 8] ]} in
  map_Forall (λ _, well_typed) st ∧
  outcome (fits_u32 demo_meta) (λ _, True) (run_command (λ _, Ok 7) 0 ∅ table_mem st (Lookup (table_arg 300))).1 ∧
  outcome (fits_u32 demo_meta ∧ buffers prog_mem (HLookup 5 1000) (demo_map [9; 8]) ∧ cpu_ok (HLookup 5 1000)) (λ _, True)
    (run_helper (λ _, Ok 7) (λ _, -1) 0 ∅ prog_mem st (HLookup 5 1000)).1.
Proof.
  intros b st.
  assert (map_Forall (λ _, is_byte) prog_mem) as Hmem.
  { unfold prog_mem. repeat (apply map_Forall_insert_2; [unfold is_byte; lia|]). apply map_Forall_empty. }
  assert (rtc (table_step (U := gmap Z Z) (S := ListKernel) (λ _, Ok 7) (λ _, Ok 7) (λ _, -1)) ∅ st) as Hst.
  { eapply rtc_l; [apply (step_create _ _ _ ∅ 7 demo_meta false [] ∅ (Build_ListKernel 0 0 []) (demo_map [0; 0]) ∅ (Build_ListKernel 0 0 []));
      [by split_and!|done|reflexivity]|].
    eapply rtc_l; [apply (step_helper _ _ _ _ 0 ∅ prog_mem (HUpdate 5 1000 2000 0) (Ok ()) {[ 7 := demo_map [0; 8] ]}); [done|exact Hmem|reflexivity]|].
    eapply rtc_l; [|apply rtc_refl].
    apply (step_command _ _ _ _ 0 ∅ {[ 100 := 0; 200 := 9 ]} (Update (table_arg 100)) (Ok ()) st); [done|reflexivity]. }
  destruct (map_table_typed (U := gmap Z Z) (S := ListKernel) (λ _, Ok 7) (λ _, Ok 7) (λ _, -1) st Hst) as (Ht & Hcmd & Hcall).
  split; [exact Ht|]. split.
  - destruct (Hcmd 0 ∅ table_mem (Lookup (table_arg 300)) 7 (demo_map [9; 8])) as [Ho _]; [done|done|done|exact Ho].
  - destruct (Hcall 0 ∅ prog_mem (HLookup 5 1000) 7 (demo_map [9; 8])) as [Ho _]; [done|exact Hmem|done|done|exact Ho].
Defined.
