(* ===== verification/MapDict.v ===== *)
(** The commands of bpf(2) and the helper calls of BPF programs on a hash map
    are the operations of a dictionary: the specification, and the refinement
    by the code, over any interleaving with requests on other maps. *)
From S2P Require Import Prelude BpfBase RingMem RingBuf RingBufProps Maps Unified Helper MapProps UnifiedProps MapTyping MapTable MapSystem.

(** ** The dictionary *)
Abbreviation Dict := (gmap str str).

(** Flags: 0 is BPF_ANY, 1 BPF_NOEXIST, 2 BPF_EXIST; nothing else is
    supported.  [cap] bounds the number of keys. *)
Definition dict_update (cap : Z) (d : Dict) (key value : str) (flags : Z) : BpfResult Dict :=
  match d !! key with
  | Some _ => if flags =? 1 then Err EEXIST else if (flags =? 0) || (flags =? 2) then Ok (<[key := value]> d) else Err EINVAL
  | None => if flags =? 2 then Err ENOENT else if negb ((flags =? 0) || (flags =? 1)) then Err EINVAL else
      if Z.of_nat (size d) <? cap then Ok (<[key := value]> d) else Err ENOMEM
  end.

(** The least of some keys. *)
Definition least (l : list str) : option str :=
  foldr (λ k acc, match acc with Some k' => if lex_leb k' k then Some k' else Some k | None => Some k end) None l.
Definition dict_keys (d : Dict) : list str := (map_to_list d).*1.
(** The least key above [key]; without [key] in the dictionary, the least. *)
Definition dict_next (d : Dict) (key : option str) : option str :=
  match key with
  | Some key => match d !! key with
                | Some _ => least (filter (λ k, lex_leb k key = false) (dict_keys d))
                | None => least (dict_keys d)
                end
  | None => least (dict_keys d)
  end.

(** A result and a new state, or an error and the old one. *)
Definition or_keep {A S} (s : S) (r : BpfResult (BpfResult A * S)) : BpfResult A * S :=
  match r with Ok x => x | Err e => (Err e, s) | Panic => (Panic, s) | OutOfFuel => (OutOfFuel, s) end.

(** What user space or a BPF program asks for, with the memory it finds. *)
Inductive request (U : Type) :=
  | Syscall (um : U) (c : command)
  | Call (mem : bytes_at) (c : helper_call).
(** What it gets: the user memory a command leaves; the code a helper returns
    and the program memory it leaves; the value the pointer it returns is to. *)
Inductive reply (U : Type) :=
  | Wrote (r : BpfResult U)
  | Code (r : res () Z) (mem : bytes_at)
  | Value (r : BpfResult (option str)).
Arguments Syscall {U} um c.
Arguments Call {U} mem c.
Arguments Wrote {U} r.
Arguments Code {U} r mem.
Arguments Value {U} r.

Section spec.
Context {U} `{UserMem U} (errno : BpfError → Z) (ksize vsize cap : Z).

(** A command on the dictionary. *)
Definition dict_command (um : U) (d : Dict) (c : command) : BpfResult U * Dict :=
  let key_at ptr := copy_from_user um ptr ksize in
  let give ptr n o := match o with Some l => copy_to_user um ptr n l | None => Err ENOENT end in
  or_keep d
    match c with
    | Update arg =>
        key ← key_at (ua_key arg); value ← copy_from_user um (ua_value arg) vsize;
        d' ← dict_update cap d key value (ua_flags arg); Ok (Ok um, d')
    | Lookup arg => key ← key_at (ua_key arg); Ok (give (ua_value arg) vsize (d !! key), d)
    | Delete arg => key ← key_at (ua_key arg); Ok (Ok um, delete key d)
    | LookupAndDelete arg => key ← key_at (ua_key arg); Ok (give (ua_value arg) vsize (d !! key), delete key d)
    | NextKey arg =>
        key ← match na_key arg with Some ptr => Some <$> key_at ptr | None => Ok None end;
        Ok (give (na_next_key arg) ksize (dict_next d key), d)
    | Freeze _ => Err EPERM
    end.

(** A helper call on the dictionary.  It has no values per CPU, and is no
    queue. *)
Definition dict_call (mem : bytes_at) (d : Dict) (c : helper_call) : reply U * Dict :=
  let key_at p := read_mem mem p (Z.to_nat ksize) in
  let value_at p := read_mem mem p (Z.to_nat vsize) in
  let code r := let '(r, d) := or_keep d r in (Code (ret_code errno r) mem, d) in
  match c with
  | HLookup _ key => (Value ((λ k, d !! k) <$> key_at key), d)
  | HLookupPercpu _ key _ => (Value ((λ _, None) <$> key_at key), d)
  | HUpdate _ key value flags =>
      code (k ← key_at key; v ← value_at value; d' ← dict_update cap d k v flags; Ok (Ok (), d'))
  | HDelete _ key => code (k ← key_at key; Ok (Ok (), delete k d))
  | HPush _ value _ | HPop _ value | HPeek _ value => code (value_at value ≫= λ _, Err EPERM)
  end.

Definition dict_request (d : Dict) (q : request U) : reply U * Dict :=
  match q with
  | Syscall um c => let '(r, d) := dict_command um d c in (Wrote r, d)
  | Call mem c => dict_call mem d c
  end.
Fixpoint dict_requests (d : Dict) (l : list (request U)) : list (reply U) * Dict :=
  match l with
  | [] => ([], d)
  | q :: l => let '(r, d) := dict_request d q in let '(rs, d) := dict_requests d l in (r :: rs, d)
  end.
End spec.

(** ** Least keys *)
Lemma lex_leb_refl a : lex_leb a a = true.
Proof. by destruct (lex_leb_total a a). Qed.
Lemma lex_leb_antisym a b : lex_leb a b = true → lex_leb b a = true → a = b.
Proof.
  revert b. induction a as [|x a IH]; intros [|y b]; simpl; try done.
  destruct (Z.ltb_spec x y), (Z.ltb_spec y x); try done; try lia. intros Ha Hb. f_equal; [lia|by apply IH].
Qed.

Lemma least_spec l k : k ∈ l → (∀ k', k' ∈ l → lex_leb k k' = true) → least l = Some k.
Proof.
  revert k. induction l as [|x l IH]; intros k Hk Hle; [by apply not_elem_of_nil in Hk|]. simpl. fold (least l).
  assert (∀ m, least l = Some m → m ∈ l) as Hin.
  { clear. induction l as [|y l IH]; simpl; [done|]. fold (least l). intros m. destruct (least l) as [m'|].
    - destruct (lex_leb m' y); intros [= <-]; [right; by apply IH|by left].
    - intros [= <-]. by left. }
  apply elem_of_cons in Hk as [->|Hk].
  - destruct (least l) as [m|]; [|done]. case_match eqn:E; [|done]. f_equal.
    apply lex_leb_antisym; [done|]. apply Hle. right. by apply Hin.
  - rewrite (IH k Hk) by (intros k' Hk'; apply Hle; by right). destruct (lex_leb k x) eqn:E; [done|].
    rewrite Hle in E; [done|by left].
Qed.

(** The least key is the first in order. *)
Lemma least_sorted (l : list str) (s : list (str * str)) :
  StronglySorted key_le s → (∀ k, k ∈ l ↔ k ∈ s.*1) → least l = fst <$> head s.
Proof.
  intros Hs Hl. destruct Hs as [|[k v] s Hs Hall].
  - destruct l as [|x l]; [done|]. exfalso. apply (not_elem_of_nil x), Hl. by left.
  - apply least_spec; [apply Hl; by left|].
    intros k' [->|([k2 v2] & -> & Hp)%list_elem_of_fmap]%Hl%elem_of_cons; [apply lex_leb_refl|].
    exact (proj1 (Forall_forall _ _) Hall (k2, v2) Hp).
Qed.

Lemma dict_keys_spec d k : k ∈ dict_keys d ↔ is_Some (d !! k).
Proof. unfold dict_keys. by rewrite <- btree_iter_perm, btree_iter_keys. Qed.
Lemma btree_iter_sorted d : StronglySorted key_le (btree_iter d).
Proof. apply StronglySorted_merge_sort; apply _. Qed.
Lemma btree_iter_nodup d : NoDup (btree_iter d).*1.
Proof. rewrite btree_iter_perm. apply NoDup_fst_map_to_list. Qed.

Lemma after_key (s1 s2 : list (str * str)) k v k' :
  StronglySorted key_le (s1 ++ (k, v) :: s2) → NoDup (s1 ++ (k, v) :: s2).*1 →
  (k' ∈ (s1 ++ (k, v) :: s2).*1 ∧ lex_leb k' k = false) ↔ k' ∈ s2.*1.
Proof.
  intros Hs Hn. rewrite !fmap_app, fmap_cons in *. apply NoDup_app in Hn as (_ & _ & Hn). apply NoDup_cons in Hn as [Hk _].
  apply StronglySorted_app in Hs as (Hlt & _ & Hs2). apply StronglySorted_inv in Hs2 as [_ Hall].
  rewrite elem_of_app, elem_of_cons. split.
  - intros [[([k1 v1] & -> & Hin)%list_elem_of_fmap|[->|Hin]] Hk']; [|by rewrite lex_leb_refl in Hk'|done].
    assert (key_le (k1, v1) (k, v)) as Hle by (apply Hlt; [done|by left]). unfold key_le in Hle. simpl in *. congruence.
  - intros Hin. split; [by right; right|]. apply list_elem_of_fmap in Hin as ([k2 v2] & -> & Hin). simpl in *.
    pose proof (proj1 (Forall_forall _ _) Hall (k2, v2) Hin) as Hle. unfold key_le in Hle. simpl in Hle.
    destruct (lex_leb k2 k) eqn:E; [|done]. exfalso. apply Hk. rewrite (lex_leb_antisym k k2) by done.
    apply list_elem_of_fmap. by exists (k2, v2).
Qed.

(** What the iterator finds is the least key above. *)
Definition iter_next (d : Dict) (key : option str) : option (str * str) :=
  match key with
  | None => head (btree_iter d)
  | Some key => if bool_decide (is_Some (d !! key)) then next_after key (btree_iter d) else head (btree_iter d)
  end.
Lemma dict_next_iter d key : fst <$> iter_next d key = dict_next d key.
Proof.
  unfold iter_next.
  assert (least (dict_keys d) = fst <$> head (btree_iter d)) as Hall.
  { apply least_sorted; [apply btree_iter_sorted|]. intros k. by rewrite dict_keys_spec, btree_iter_keys. }
  unfold dict_next. destruct key as [key|]; [|done]. destruct (d !! key) as [v|] eqn:Hv.
  - rewrite bool_decide_true by eauto.
    assert ((key, v) ∈ btree_iter d) as Hin by (by rewrite btree_iter_perm, elem_of_map_to_list).
    pose proof (btree_iter_sorted d) as Hs. pose proof (btree_iter_nodup d) as Hn.
    apply list_elem_of_split in Hin as (s1 & s2 & He). rewrite He in *. rewrite next_after_suffix by done. symmetry.
    apply least_sorted.
    + apply StronglySorted_app in Hs as (_ & _ & Hs2). by apply StronglySorted_inv in Hs2 as [? _].
    + intros k. rewrite list_elem_of_filter, dict_keys_spec, <- btree_iter_keys, He, <- (after_key s1 s2 key v k Hs Hn). tauto.
  - rewrite bool_decide_false by (intros [? ?]; done). done.
Qed.

(** ** Updates *)
Lemma update_flags_cases flags present :
  check_update_flags flags present =
    if flags =? 0 then Ok () else
    if flags =? 1 then if present then Err EEXIST else Ok () else
    if flags =? 2 then if present then Ok () else Err ENOENT else Err EINVAL.
Proof.
  unfold check_update_flags, from_bits. destruct (Z.eqb_spec (Z.land flags (Z.lnot UPDATE_ALL)) 0) as [Hz|Hz].
  - assert (0 ≤ flags < 8) as Hr.
    { pose proof (Z.lor_ldiff_and flags UPDATE_ALL) as He. rewrite Z.ldiff_land, Hz, Z.lor_0_l in He.
      change UPDATE_ALL with (Z.ones 3) in He. rewrite Z.land_ones in He by lia.
      pose proof (Z.mod_pos_bound flags (2 ^ 3)). lia. }
    assert (flags ∈ [0; 1; 2; 3; 4; 5; 6; 7]) as Hf by (rewrite !elem_of_cons; lia).
    destruct present; repeat (apply elem_of_cons in Hf as [->|Hf]; [done|]); by apply not_elem_of_nil in Hf.
  - assert (flags ≠ 0 ∧ flags ≠ 1 ∧ flags ≠ 2) as (? & ? & ?) by (split_and!; intros ->; done).
    by rewrite !(proj2 (Z.eqb_neq _ _)).
Qed.

(** ** The hash map as a dictionary *)
Section hash.
Context `{BuildMode} (ks vs cap : Z) (m : BpfHashMap) (Hm : hash_typed ks vs cap m).

Lemma validate_sized n (l : str) : sized n l → validate_len n l = Ok ().
Proof. intros Hl. unfold validate_len. by rewrite (proj2 (Z.eqb_eq _ _)). Qed.

Lemma hash_update_dict key value flags :
  sized ks key → sized vs value → hash_update m key value flags = with_map m <$> dict_update cap (hm_data m) key value flags.
Proof using Hm.
  destruct Hm as (Hk & Hv & Hn & [_ _ Hroom]). intros Hsk Hsv. unfold hash_update, validate_key, validate_value.
  rewrite !validate_sized by congruence. cbn [mbind res_bind]. rewrite update_flags_cases. unfold dict_update.
  destruct (hm_data m !! key) as [v|] eqn:E.
  - rewrite bool_decide_true by eauto. destruct (Z.eqb_spec flags 0), (Z.eqb_spec flags 1), (Z.eqb_spec flags 2); try lia; done.
  - rewrite bool_decide_false by (intros [? ?]; done). rewrite Hn. unfold negb.
    destruct (Z.eqb_spec flags 0), (Z.eqb_spec flags 1), (Z.eqb_spec flags 2); try lia; try done; simpl;
      rewrite Z.leb_antisym; by destruct (_ <? _).
Qed.

Lemma hash_next_dict key :
  0 ≤ ks → (∀ k, key = Some k → sized ks k) →
  hash_get_next_key m key (zeros ks) = match dict_next (hm_data m) key with Some k => Ok k | None => Err ENOENT end.
Proof using Hm.
  destruct Hm as (Hk & Hv & Hn & [_ Hsz _]). intros H0 Hkey. unfold hash_get_next_key, next_key_of. rewrite Hk.
  rewrite length_zeros, Z.eqb_refl by done. simpl negb. cbv match.
  rewrite <- dict_next_iter.
  assert (match key with
          | None => Ok (head (btree_iter (hm_data m)))
          | Some key => validate_len ks key;; Ok (if bool_decide (is_Some (hm_data m !! key)) then next_after key (btree_iter (hm_data m)) else head (btree_iter (hm_data m)))
          end = Ok (E := BpfError) (iter_next (hm_data m) key)) as ->.
  { destruct key as [key|]; [|done]. by rewrite validate_sized by auto. }
  assert (∀ p, iter_next (hm_data m) key = Some p → sized ks p.1) as Hfound.
  { intros p Hp. assert (p ∈ btree_iter (hm_data m)) as Hin.
    { unfold iter_next in Hp. destruct key as [key|]; [destruct (bool_decide _); [by apply (next_after_in key)|]|]; by apply head_Some_elem_of. }
    rewrite btree_iter_perm in Hin. destruct p as [k v]. apply elem_of_map_to_list in Hin. unfold sized. rewrite <- Hk. by apply (Hsz k v). }
  destruct (iter_next _ _) as [[k v]|]; [|done]. simpl. unfold copy_from. rewrite (proj2 (Nat.eqb_eq _ _)); [done|].
  pose proof (Hfound _ eq_refl) as Hs. unfold sized in Hs. simpl in Hs. pose proof (length_zeros ks H0). lia.
Qed.

Lemma hash_take_dict key :
  0 ≤ vs → sized ks key →
  hash_lookup_and_delete m key (zeros vs) = match hm_data m !! key with Some v => Ok (v, with_map m (delete key (hm_data m))) | None => Err ENOENT end.
Proof using Hm.
  intros H0 Hs. pose proof (λ v, hash_value_sized _ _ _ m key v Hm) as Hval. destruct Hm as (Hk & Hv & Hn & _).
  unfold hash_lookup_and_delete, validate_key, validate_value. rewrite Hk, Hv, (validate_sized ks), (validate_sized vs) by (done || by apply length_zeros).
  cbn [mbind res_bind]. destruct (hm_data m !! key) as [v|] eqn:E; [|done]. simpl. unfold copy_from.
  rewrite (proj2 (Nat.eqb_eq _ _)); [done|]. pose proof (Hval v eq_refl) as Hsv. unfold sized in Hsv. pose proof (length_zeros vs H0). lia.
Qed.
(** An update of the dictionary keeps its sizes and its bound. *)
Lemma dict_update_typed key value flags d :
  sized ks key → sized vs value → dict_update cap (hm_data m) key value flags = Ok d → hash_typed ks vs cap (with_map m d).
Proof using Hm.
  intros Hsk Hsv. pose proof Hm as (Hk & Hv & Hn & _). unfold dict_update.
  assert (negb (bool_decide (is_Some (hm_data m !! key))) && (hm_max_entries m <=? Z.of_nat (size (hm_data m))) = false →
    hash_typed ks vs cap (with_map m (<[key := value]> (hm_data m)))) as Hins.
  { intros Hroom. apply hash_insert_ok; try done; unfold sized in *; congruence. }
  destruct (hm_data m !! key) as [v|] eqn:E.
  - rewrite bool_decide_true in Hins by eauto. repeat case_match; try done; intros [= <-]; by apply Hins.
  - rewrite bool_decide_false in Hins by (by intros [? ?]). repeat case_match; try done. intros [= <-].
    apply Hins. simpl. rewrite Hn. lia.
Qed.
End hash.

Lemma read_mem_sized mem p n :
  0 ≤ n → safe (E := BpfError) (read_mem mem p (Z.to_nat n)) (λ l, sized n l) (λ _, False) ∨ read_mem (E := BpfError) mem p (Z.to_nat n) = Panic.
Proof.
  intros Hn. assert (n = Z.of_nat (Z.to_nat n)) as He by lia. revert He. generalize (Z.to_nat n). intros k ->. clear Hn. revert p.
  induction k as [|k IH]; intros p; simpl; [by left|]. destruct (mem !! p); [|by right]. simpl.
  destruct (IH (p + 1)) as [Hs|Hp]; [|right; by rewrite Hp]. left. destruct (read_mem mem (p + 1) k); try done.
  simpl in *. unfold sized in *. simpl. lia.
Qed.

(** ** Traces *)
Section traces.
Context `{BuildMode} `{PerCpuVariantsOps} {C} `{LruCache C} {U} `{UserMemLaws U}.

Context (errno : BpfError → Z).
(** A request with what it runs on: the maps that descriptors and pointers
    refer to, the CPU, the mapped rings and the memory, all of which other
    threads change. *)
Record event := {
  ev_fds : Z → BpfResult Z; ev_ptrs : Z → BpfResult Z; ev_cpu : Z; ev_rings : Heap; ev_request : request U
}.
Abbreviation Table := (gmap Z (UnifiedMap (C := C))).

Definition do_command (e : event) (um : U) (c : command) (st : Table) : BpfResult U * Table :=
  let quiet (x : BpfResult () * Table) := ((λ _, um) <$> x.1, x.2) in
  match c with
  | Update arg => quiet (bpf_map_update_elem (ev_fds e) (ev_cpu e) (ev_rings e) um st arg)
  | Lookup arg => bpf_lookup_elem (ev_fds e) (ev_cpu e) (ev_rings e) um st arg
  | Delete arg => quiet (bpf_map_delete_elem (ev_fds e) (ev_cpu e) (ev_rings e) um st arg)
  | LookupAndDelete arg => bpf_map_lookup_and_delete_elem (ev_fds e) (ev_cpu e) (ev_rings e) um st arg
  | NextKey arg => bpf_map_get_next_key (ev_fds e) (ev_cpu e) (ev_rings e) um st arg
  | Freeze fd => quiet (bpf_map_freeze (ev_fds e) (ev_cpu e) (ev_rings e) st fd)
  end.
Definition do_call (e : event) (mem : bytes_at) (c : helper_call) (st : Table) : reply U * Table :=
  let value (x : BpfResult (option str) * Table) := (Value x.1, x.2) in
  let code (x : res () Z * Table) := (Code x.1 mem, x.2) in
  match c with
  | HLookup map key => value (raw_map_lookup_elem (ev_ptrs e) (ev_cpu e) (ev_rings e) mem st map key)
  | HLookupPercpu map key c => value (raw_map_lookup_percpu_elem (ev_ptrs e) (ev_cpu e) (ev_rings e) mem st map key c)
  | HUpdate map key v flags => code (raw_map_update_elem (ev_ptrs e) errno (ev_cpu e) (ev_rings e) mem st map key v flags)
  | HDelete map key => code (raw_map_delete_elem (ev_ptrs e) errno (ev_cpu e) (ev_rings e) mem st map key)
  | HPush map v flags => code (raw_map_push_elem (ev_ptrs e) errno (ev_cpu e) (ev_rings e) mem st map v flags)
  | HPop map v => let '(r, mem, st) := raw_map_pop_elem (ev_ptrs e) errno (ev_cpu e) (ev_rings e) mem st map v in (Code r mem, st)
  | HPeek map v => let '(r, mem) := raw_map_peek_elem (ev_ptrs e) errno (ev_cpu e) (ev_rings e) mem st map v in (Code r mem, st)
  end.
Definition do_event (e : event) (st : Table) : reply U * Table :=
  match ev_request e with
  | Syscall um c => let '(r, st) := do_command e um c st in (Wrote r, st)
  | Call mem c => do_call e mem c st
  end.
Fixpoint do_events (l : list event) (st : Table) : list (reply U) * Table :=
  match l with
  | [] => ([], st)
  | e :: l => let '(r, st) := do_event e st in let '(rs, st) := do_events l st in (r :: rs, st)
  end.

(** The events on one map, and the replies to them. *)
Definition target (e : event) : BpfResult Z :=
  match ev_request e with Syscall _ c => ev_fds e (command_fd c) | Call _ c => ev_ptrs e (helper_map c) end.
Definition on_map (id : Z) (e : event) : bool := match target e with Ok i => i =? id | _ => false end.
Definition requests (id : Z) (l : list event) : list (request U) := ev_request <$> filter (λ e, on_map id e) l.
Definition replies (id : Z) (l : list event) (rs : list (reply U)) : list (reply U) :=
  (filter (λ p, on_map id p.1) (zip l rs)).*2.

Lemma with_fd_other {A} fds (st : Table) fd f id :
  fds fd ≠ Ok id → (with_fd (A := A) fds st fd f).2 !! id = st !! id.
Proof.
  intros Hne. unfold with_fd. destruct (fds fd) as [i|e| |]; try done. destruct (st !! i) as [u|] eqn:Hu; [|done].
  destruct (f u). simpl. apply lookup_insert_ne. congruence.
Qed.

Lemma event_other e st id : on_map id e = false → (do_event e st).2 !! id = st !! id.
Proof.
  intros Hne. assert (target e ≠ Ok id) as Hfd.
  { unfold on_map in Hne. intros Heq. rewrite Heq, Z.eqb_refl in Hne. done. }
  unfold do_event, target in *. destruct (ev_request e) as [um c|mem c].
  - rewrite (surjective_pairing (do_command e um c st)). destruct c; by apply with_fd_other.
  - destruct c; simpl in *;
      [unfold raw_map_lookup_elem|unfold raw_map_lookup_percpu_elem|unfold raw_map_update_elem|unfold raw_map_delete_elem|
       unfold raw_map_push_elem|unfold raw_map_pop_elem|done];
      rewrite (surjective_pairing (with_fd (ev_ptrs e) st map _)); by apply with_fd_other.
Qed.

Lemma with_fd_map {A} fds (st : Table) fd f id u :
  fds fd = Ok id → st !! id = Some u → with_fd (A := A) fds st fd f = let '(r, m) := f u in (r, <[id := with_inner u m]> st).
Proof. intros Hfd Hu. unfold with_fd. by rewrite Hfd, Hu. Qed.

(** One command on a hash map. *)
Lemma command_hash e um c st id u m :
  ev_fds e (command_fd c) = Ok id → st !! id = Some u → inner_map u = MHash m → meta_u32 (map_meta u) →
  hash_typed (key_size (map_meta u)) (value_size (map_meta u)) (max_entries (map_meta u)) m →
  let '(r, d) := dict_command (key_size (map_meta u)) (value_size (map_meta u)) (max_entries (map_meta u)) um (hm_data m) c in
  do_command e um c st = (r, <[id := with_inner u (MHash (with_map m d))]> st).
Proof.
  intros Hfd Hu Hi (Hk & Hv & _) Hm. assert (with_map m (hm_data m) = m) as Hself by (by destruct m).
  assert (∀ ptr, safe (copy_from_user um ptr (key_size (map_meta u))) (λ l, sized (key_size (map_meta u)) l) (λ _, True)) as Hkey.
  { intros ptr. pose proof (from_user_law um ptr (key_size (map_meta u)) ltac:(lia)) as Hl.
    destruct (copy_from_user _ _ _); simpl in *; tauto. }
  unfold do_command, dict_command. destruct c as [arg|arg|arg|arg|arg|fd]; cbn [command_fd] in Hfd.
  - unfold bpf_map_update_elem. rewrite (with_fd_map _ _ _ _ _ _ Hfd Hu), Hi. specialize (Hkey (ua_key arg)).
    destruct (copy_from_user _ (ua_key arg) _) as [key|er| |]; try done; simpl; [|by rewrite Hself].
    pose proof (from_user_law um (ua_value arg) (value_size (map_meta u)) ltac:(lia)) as Hval.
    destruct (copy_from_user _ (ua_value arg) _) as [value|er| |]; try done; simpl; [|by rewrite Hself].
    rewrite (hash_update_dict _ _ _ m Hm) by (done || by destruct Hval).
    destruct (dict_update _ _ _ _ _) as [d|er| |]; simpl; by rewrite ?Hself.
  - unfold bpf_lookup_elem. rewrite (with_fd_map _ _ _ _ _ _ Hfd Hu), Hi. specialize (Hkey (ua_key arg)).
    destruct (copy_from_user _ (ua_key arg) _) as [key|er| |]; try done; simpl; [|by rewrite Hself].
    destruct Hm as (Hmk & _). unfold hash_lookup, validate_key. rewrite Hmk, validate_sized by done. simpl. rewrite Hself.
    by destruct (hm_data m !! key).
  - unfold bpf_map_delete_elem. rewrite (with_fd_map _ _ _ _ _ _ Hfd Hu), Hi. specialize (Hkey (ua_key arg)).
    destruct (copy_from_user _ (ua_key arg) _) as [key|er| |]; try done; simpl; [|by rewrite Hself].
    destruct Hm as (Hmk & _). unfold hash_delete, validate_key. rewrite Hmk, validate_sized by done. done.
  - unfold bpf_map_lookup_and_delete_elem. rewrite (with_fd_map _ _ _ _ _ _ Hfd Hu), Hi. specialize (Hkey (ua_key arg)).
    destruct (copy_from_user _ (ua_key arg) _) as [key|er| |]; try done; simpl; [|by rewrite Hself].
    rewrite (hash_take_dict _ _ _ m Hm) by (lia || done). destruct (hm_data m !! key) as [v|] eqn:E; simpl; [done|].
    by rewrite delete_id, Hself.
  - unfold bpf_map_get_next_key. rewrite (with_fd_map _ _ _ _ _ _ Hfd Hu), Hi.
    destruct (na_key arg) as [ptr|].
    + specialize (Hkey ptr). destruct (copy_from_user _ ptr _) as [key|er| |]; try done; simpl; [|by rewrite Hself].
      rewrite (hash_next_dict _ _ _ m Hm) by (lia || intros k [= <-]; exact Hkey). rewrite Hself.
      unfold dict_next. destruct (hm_data m !! key); by destruct (least _).
    + simpl. rewrite (hash_next_dict _ _ _ m Hm) by (lia || by intros). rewrite Hself.
      unfold dict_next. by destruct (least _).
  - unfold bpf_map_freeze. rewrite (with_fd_map _ _ _ _ _ _ Hfd Hu), Hi. simpl. by rewrite Hself.
Qed.

(** One helper call on a hash map. *)
Lemma call_hash e mem c st id u m :
  ev_ptrs e (helper_map c) = Ok id → st !! id = Some u → inner_map u = MHash m → meta_u32 (map_meta u) →
  hash_typed (key_size (map_meta u)) (value_size (map_meta u)) (max_entries (map_meta u)) m →
  let '(r, d) := dict_call errno (key_size (map_meta u)) (value_size (map_meta u)) (max_entries (map_meta u)) mem (hm_data m) c in
  do_call e mem c st = (r, <[id := with_inner u (MHash (with_map m d))]> st).
Proof.
  intros Hfd Hu Hi (Hk & Hv & _) Hm. assert (with_map m (hm_data m) = m) as Hself by (by destruct m).
  pose proof (λ p, read_mem_sized mem p _ (proj1 Hk)) as Hkey. pose proof (λ p, read_mem_sized mem p _ (proj1 Hv)) as Hval.
  assert (∀ key, sized (key_size (map_meta u)) key → validate_key m key = Ok ()) as Hvalid.
  { intros key Hs. unfold validate_key. rewrite (proj1 Hm). by apply validate_sized. }
  unfold do_call, dict_call.
  destruct c as [map key|map key cpu|map key value flags|map key|map value flags|map value|map value]; cbn [helper_map] in Hfd.
  - unfold raw_map_lookup_elem. rewrite (with_fd_map _ _ _ _ _ _ Hfd Hu). specialize (Hkey key).
    destruct (read_mem mem key _) as [k|er| |]; try (by destruct Hkey); simpl; [|by rewrite Hi, Hself].
    unfold map_lookup_elem. rewrite Hi. simpl. unfold hash_lookup. rewrite Hvalid by (by destruct Hkey). simpl. by rewrite Hself.
  - unfold raw_map_lookup_percpu_elem. rewrite (with_fd_map _ _ _ _ _ _ Hfd Hu). specialize (Hkey key).
    destruct (read_mem mem key _) as [k|er| |]; try (by destruct Hkey); simpl; [|by rewrite Hi, Hself].
    unfold map_lookup_percpu_elem. rewrite Hi. simpl. by rewrite Hself.
  - unfold raw_map_update_elem. rewrite (with_fd_map _ _ _ _ _ _ Hfd Hu), Hi. specialize (Hkey key).
    destruct (read_mem mem key _) as [k|er| |]; try (by destruct Hkey); simpl; [|by rewrite Hself].
    specialize (Hval value). destruct (read_mem mem value _) as [v|er| |]; try (by destruct Hval); simpl; [|by rewrite Hself].
    unfold map_update_elem. rewrite Hi. simpl. rewrite (hash_update_dict _ _ _ m Hm) by (by destruct Hkey, Hval).
    destruct (dict_update _ _ _ _ _) as [d|er| |]; simpl; by rewrite ?Hself.
  - unfold raw_map_delete_elem. rewrite (with_fd_map _ _ _ _ _ _ Hfd Hu), Hi. specialize (Hkey key).
    destruct (read_mem mem key _) as [k|er| |]; try (by destruct Hkey); simpl; [|by rewrite Hself].
    unfold map_delete_elem. rewrite Hi. simpl. unfold hash_delete. by rewrite Hvalid by (by destruct Hkey).
  - unfold raw_map_push_elem. rewrite (with_fd_map _ _ _ _ _ _ Hfd Hu), Hi. unfold map_push_elem. rewrite Hi.
    destruct (read_mem mem value _); simpl; by rewrite Hself.
  - unfold raw_map_pop_elem. rewrite (with_fd_map _ _ _ _ _ _ Hfd Hu), Hi. unfold map_pop_elem. rewrite Hi.
    destruct (read_mem mem value _); simpl; by rewrite Hself.
  - unfold raw_map_peek_elem. rewrite Hfd. simpl. rewrite Hu. simpl. unfold map_peek_elem. rewrite Hi.
    assert (<[id := with_inner u (MHash m)]> st = st) as Hst by (apply insert_id; rewrite Hu; f_equal; destruct u; by simpl in *; subst).
    destruct (read_mem mem value _); simpl; by rewrite Hself, Hst.
Qed.

Lemma event_hash e st id u m :
  on_map id e = true → st !! id = Some u → inner_map u = MHash m → meta_u32 (map_meta u) →
  hash_typed (key_size (map_meta u)) (value_size (map_meta u)) (max_entries (map_meta u)) m →
  let '(r, d) := dict_request errno (key_size (map_meta u)) (value_size (map_meta u)) (max_entries (map_meta u)) (hm_data m) (ev_request e) in
  do_event e st = (r, <[id := with_inner u (MHash (with_map m d))]> st).
Proof.
  intros Hon Hu Hi Hmeta Hm. assert (target e = Ok id) as Hfd.
  { unfold on_map in Hon. destruct (target e); try done. apply Z.eqb_eq in Hon. congruence. }
  unfold do_event, target in *. destruct (ev_request e) as [um c|mem c]; simpl.
  - pose proof (command_hash e um c st id u m Hfd Hu Hi Hmeta Hm) as Hc. destruct (dict_command _ _ _ _ _ _). by rewrite Hc.
  - by apply call_hash.
Qed.

(** The object stays a dictionary of its sizes. *)
Lemma or_keep_typed {A} (ks vs cap : Z) (m : BpfHashMap) (r : BpfResult (BpfResult A * Dict)) :
  hash_typed ks vs cap m → (∀ a d, r = Ok (a, d) → hash_typed ks vs cap (with_map m d)) →
  hash_typed ks vs cap (with_map m (or_keep (hm_data m) r).2).
Proof.
  intros Hm Hr. assert (with_map m (hm_data m) = m) as Hself by (by destruct m).
  destruct r as [[a d]|e| |]; simpl; [by apply (Hr a)|..]; by rewrite Hself.
Qed.

Lemma dict_request_typed (ks vs cap : Z) (m : BpfHashMap) (q : request U) :
  0 ≤ ks → 0 ≤ vs → hash_typed ks vs cap m → hash_typed ks vs cap (with_map m (dict_request errno ks vs cap (hm_data m) q).2).
Proof.
  intros Hk0 Hv0 Hm. assert (with_map m (hm_data m) = m) as Hself by (by destruct m).
  destruct q as [um c|mem c]; simpl.
  - rewrite (surjective_pairing (dict_command ks vs cap um (hm_data m) c)). simpl.
    destruct c as [arg|arg|arg|arg|arg|fd]; (apply or_keep_typed; [done|]); intros a d Hd;
      try (apply bind_ok in Hd as (key & Hkey & Hd)); try done; try (injection Hd as <- <-; solve [by rewrite Hself|by apply hash_delete_ok]).
    apply bind_ok in Hd as (value & Hvalue & Hd). apply bind_ok in Hd as (d' & Hup & [= <- <-]).
    pose proof (from_user_law um (ua_key arg) ks Hk0) as Hl. rewrite Hkey in Hl. destruct Hl as [Hks _].
    pose proof (from_user_law um (ua_value arg) vs Hv0) as Hl. rewrite Hvalue in Hl. destruct Hl as [Hvs _].
    by eapply dict_update_typed.
  - destruct c as [map key|map key cpu|map key value flags|map key|map value flags|map value|map value]; simpl;
      try (by rewrite Hself); match goal with |- context [or_keep ?d ?r] => rewrite (surjective_pairing (or_keep d r)) end; simpl;
      (apply or_keep_typed; [done|]); intros a d Hd; apply bind_ok in Hd as (k & Hk & Hd); try done.
    + apply bind_ok in Hd as (value' & Hvalue & Hd). apply bind_ok in Hd as (d' & Hup & [= <- <-]).
      destruct (read_mem_sized mem key ks Hk0) as [Hks|Hp]; [|congruence]. rewrite Hk in Hks.
      destruct (read_mem_sized mem value vs Hv0) as [Hvs|Hp]; [|congruence]. rewrite Hvalue in Hvs.
      by eapply dict_update_typed.
    + injection Hd as <- <-. by apply hash_delete_ok.
Qed.

Lemma run_events l st id u m :
  st !! id = Some u → inner_map u = MHash m → meta_u32 (map_meta u) →
  hash_typed (key_size (map_meta u)) (value_size (map_meta u)) (max_entries (map_meta u)) m →
  let '(rs, st') := do_events l st in
  let '(answers, d) := dict_requests errno (key_size (map_meta u)) (value_size (map_meta u)) (max_entries (map_meta u)) (hm_data m) (requests id l) in
  length rs = length l ∧ replies id l rs = answers ∧ st' !! id = Some (with_inner u (MHash (with_map m d))).
Proof.
  intros Hu Hi Hmeta Hm. pose proof Hmeta as ([Hk _] & [Hv _] & _).
  revert st m u Hu Hi Hmeta Hm Hk Hv. induction l as [|e l IH]; intros st m u Hu Hi Hmeta Hm Hk Hv; simpl.
  - split_and!; [done|done|]. rewrite Hu. f_equal. destruct u, m. simpl in *. by subst.
  - unfold requests. rewrite filter_cons. fold (requests id l). destruct (on_map id e) eqn:Hon.
    + rewrite decide_True by done. simpl. pose proof (event_hash e st id u m Hon Hu Hi Hmeta Hm) as He.
      pose proof (dict_request_typed _ _ _ m (ev_request e) Hk Hv Hm) as Hm'.
      destruct (dict_request _ _ _ _ _ _) as [r d]. rewrite He. simpl in Hm'.
      specialize (IH (<[id := with_inner u (MHash (with_map m d))]> st) (with_map m d) (with_inner u (MHash (with_map m d)))
        ltac:(by rewrite lookup_insert_eq) eq_refl Hmeta Hm' Hk Hv). simpl in IH. fold (requests id l) in *.
      destruct (do_events l _) as [rs st']. destruct (dict_requests _ _ _ _ _ _) as [answers d'].
      destruct IH as (Hl & Hr & Hst). split_and!; [simpl; by f_equal| |exact Hst].
      unfold replies. simpl.
      rewrite filter_cons_True by (simpl; by rewrite Hon). simpl. f_equal. exact Hr.
    + rewrite decide_False by (by intros []). pose proof (event_other e st id Hon) as Ho.
      destruct (do_event e st) as [r st1]. simpl in Ho.
      specialize (IH st1 m u ltac:(congruence) Hi Hmeta Hm Hk Hv). unfold requests in IH.
      destruct (do_events l st1) as [rs st']. destruct (dict_requests _ _ _ _ _ _) as [answers d'].
      destruct IH as (Hl & Hr & Hst). split_and!; [simpl; by f_equal| |exact Hst].
      unfold replies. simpl. rewrite filter_cons_False by (simpl; rewrite Hon; by intros []). exact Hr.
Qed.
End traces.

(** ** The refinement *)

(** The code never looks at the flags of a lookup-and-delete: a set
    [BPF_F_LOCK], which the command's documentation answers with [EINVAL] on a
    map without a spin lock, and a flag on a queue or a stack, where it asks
    for 0, are taken as 0. *)
Lemma lookup_and_delete_ignores_flags `{BuildMode} `{PerCpuVariantsOps} {C} `{LruCache C} {U} `{UserMem U}
    fds cpu h um (st : gmap Z (UnifiedMap (C := C))) fd key value flags flags' :
  bpf_map_lookup_and_delete_elem fds cpu h um st {| ua_map_fd := fd; ua_key := key; ua_value := value; ua_flags := flags |} =
  bpf_map_lookup_and_delete_elem fds cpu h um st {| ua_map_fd := fd; ua_key := key; ua_value := value; ua_flags := flags' |}.
Proof. reflexivity. Qed.

(** C6: a hash map created through bpf(2) is a dictionary.  Whatever
    commands threads issue and whatever helper calls BPF programs make on the
    table of maps, in any order, on any map, with any memory, every reply to
    a request on this map, and the memory a reply leaves, is the one the
    dictionary of its key size, value size and capacity gives to the same
    requests, starting empty; and the map holds that dictionary's bindings at
    the end.  The iterator of [bpf_map_get_next_key] answers the least key
    above the one given.  The dictionary has the code's answer where that
    differs from the commands' documentation: the flags of a lookup-and-delete
    are ignored, so [BPF_F_LOCK] finds and deletes the element where [EINVAL]
    is documented ([lookup_and_delete_ignores_flags]).  Requests that name a
    descriptor, a pointer or memory that does not exist get the error, or the
    panic, of the step that fails; sizes and capacity are 32-bit numbers. *)
Theorem hash_map_is_dictionary `{BuildMode} `{PerCpuVariantsOps} {C} `{LruCache C} {U} `{UserMemLaws U} {S} `{PageOps S}
    (errno : BpfError → Z) (st : gmap Z (UnifiedMap (C := C))) id mt waker init h (s : S) u h' s' (l : list event) :
  meta_u32 mt → map_type mt = BPF_MAP_TYPE_HASH → bpf_map_create mt waker init h s = (Ok u, h', s') →
  st !! id = Some u →
  let spec := dict_requests errno (key_size mt) (value_size mt) (max_entries mt) ∅ (requests id l) in
  replies id l (do_events errno l st).1 = spec.1 ∧
  ∃ m, (do_events errno l st).2 !! id = Some {| inner_map := MHash m; map_meta := mt |} ∧ hm_data m = spec.2.
Proof.
  intros Hmeta Hkind Hc Hu. unfold bpf_map_create in Hc. rewrite Hkind in Hc. injection Hc as Hc _ _.
  pose proof (new_hash True mt Hmeta) as Hnew. unfold BpfHashMap_new in *.
  destruct (_ || _ || _) in Hc, Hnew; [done|]. simpl in Hc. injection Hc as <-.
  pose proof (run_events errno l st id _ _ Hu eq_refl Hmeta Hnew) as Hr. cbn [map_meta hm_data] in Hr.
  destruct (do_events errno l st) as [rs st']. destruct (dict_requests _ _ _ _ _ _) as [answers d].
  destruct Hr as (_ & Hr & Hst). split; [exact Hr|]. by eexists.
Qed.

(** Two maps: the requests on the other one change nothing here.  The program
    finds what user space stored, overwrites it and deletes it. *)
Definition dict_meta : BpfMapMeta :=
  {| map_type := BPF_MAP_TYPE_HASH; key_size := 1; value_size := 1; max_entries := 2; map_flags := 0; map_name := [] |}.
Definition dict_map : UnifiedMap (C := ListLru) :=
  {| inner_map := MHash {| hm_max_entries := 2; hm_key_size := 1; hm_value_size := 1; hm_data := ∅ |}; map_meta := dict_meta |}.
Definition ask (q : request (gmap Z Z)) : event :=
  {| ev_fds fd := Ok (fd + 4); ev_ptrs p := Ok (p - 1000); ev_cpu := 0; ev_rings := ∅; ev_request := q |}.
Definition by_user (c : command) : event := ask (Syscall {[ 100 := 1; 200 := 9; 300 := 2 ]} c).
Definition by_prog (c : helper_call) : event := ask (Call {[ 16 := 1; 24 := 5 ]} c).
Definition fd_arg (fd key : Z) : BpfMapUpdateArg := {| ua_map_fd := fd; ua_key := key; ua_value := 200; ua_flags := 0 |}.
Definition some_events : list event :=
  [by_user (Update (fd_arg 3 300)); by_user (Update (fd_arg 5 100)); by_user (Update (fd_arg 3 100));
   by_user (NextKey {| na_map_fd := 3; na_key := Some 100; na_next_key := 400 |});
   by_prog (HLookup 1007 16); by_prog (HUpdate 1007 16 24 0); by_prog (HLookup 1007 16); by_prog (HDelete 1009 16);
   by_prog (HDelete 1007 16); by_user (Lookup (fd_arg 3 100))].

Lemma hash_map_is_dictionary_witness :
  let _ : BuildMode := true in
  let st : gmap Z (UnifiedMap (C := ListLru)) := {[ 7 := dict_map; 9 := dict_map ]} in
  (λ r, match r with Wrote (Ok um) => Some (um !! 400) | Value (Ok o) => Some (o ≫= head) | _ => None end) <$>
    replies 7 some_events (do_events (λ _, -1) some_events st).1 =
    [Some None; Some None; Some (Some 2); Some (Some 9); None; Some (Some 5); None; None] ∧
  ∃ m, (do_events (λ _, -1) some_events st).2 !! 7 = Some {| inner_map := MHash m; map_meta := dict_meta |} ∧ hm_data m = {[ [2] := [9] ]}.
Proof.
  intros b st.
  destruct (hash_map_is_dictionary (S := ListKernel) (λ _, -1) st 7 dict_meta false [] ∅ (Build_ListKernel 0 0 []) dict_map ∅ (Build_ListKernel 0 0 []) some_events
    ltac:(by split_and!) eq_refl eq_refl eq_refl) as (Hr & m & Hst & Hd).
  split; [rewrite Hr; by vm_compute|]. exists m. split; [exact Hst|]. rewrite Hd. apply (bool_decide_unpack _). by vm_compute.
Defined.
