(* ===== verification/MapModel.v ===== *)
(** What each kind of BPF map is, abstractly: lists of cells, dictionaries,
    entries by recency, bounded queues and stacks, and one of these per CPU.

    [ModelOps] are the operations of an abstract map on keys and values of
    the declared sizes.  [Refines] is the interface between a kind's code, an
    instance of [BpfMapCommonOps], and its abstract map: under a relation of
    their states every operation has the same outcome.  Every kind discharges
    it, and per-CPU storage lifts it. *)
From S2P Require Import Prelude BpfBase RingMem RingBuf RingBufProps Maps Unified Helper MapProps UnifiedProps MapTyping MapTable MapSystem MapDict.

Class ModelOps (D : Type) := {
  md_lookup : D → str → BpfResult (option str * D);
  md_update : D → str → str → Z → BpfResult D;
  md_delete : D → str → BpfResult D;
  md_take : D → str → BpfResult (str * D);     (* lookup and delete *)
  md_next : D → option str → BpfResult str;
  md_lookup_on : D → Z → str → BpfResult (option str * D); (* on a given CPU *)
  md_push : D → str → Z → BpfResult D;
  md_pop : D → BpfResult (str * D);
  md_peek : D → BpfResult str;
  md_freeze : D → BpfResult ();
}.

(** ** The abstract maps *)
Section models.
(** The size of values and the capacity. *)
Context (vs cap : Z).

(** An array: the key is the index, little-endian. *)
Abbreviation index_of key := (Z.to_nat (le_dec key)).
Definition cell_at (d : list str) (key : str) : BpfResult str := ok_or (d !! index_of key) EINVAL.
Definition array_model : ModelOps (list str) := {|
  md_lookup d key := v ← cell_at d key; Ok (Some v, d);
  md_update d key value flags :=
    if (flags =? 1) || (flags =? 3) then Err EEXIST
    else if (flags =? 0) || (flags =? 2) then _ ← cell_at d key; Ok (<[index_of key := value]> d)
    else Err EINVAL;
  md_delete _ _ := Err EPERM;
  md_take _ _ := Err EPERM;
  md_next d key :=
    match key with
    | None => Ok (le_enc 4 0)
    | Some key => if le_dec key + 1 <? cap then Ok (le_enc 4 (le_dec key + 1)) else Err ENOENT
    end;
  md_lookup_on _ _ _ := Err EPERM;
  md_push _ _ _ := Err EPERM;
  md_pop _ := Err EPERM;
  md_peek _ := Err EPERM;
  md_freeze _ := Ok ();
|}.

(** A perf event array: a file descriptor per CPU; deleting clears it. *)
Definition perf_model : ModelOps (list str) := {|
  md_lookup d key := v ← cell_at d key; Ok (Some v, d);
  md_update d key value flags :=
    if flags =? 0 then _ ← cell_at d key; Ok (<[index_of key := value]> d) else Err EINVAL;
  md_delete d key := _ ← cell_at d key; Ok (<[index_of key := [0; 0; 0; 0]]> d);
  md_take _ _ := Err EPERM;
  md_next _ _ := Err EPERM;
  md_lookup_on _ _ _ := Err EPERM;
  md_push _ _ _ := Err EPERM;
  md_pop _ := Err EPERM;
  md_peek _ := Err EPERM;
  md_freeze _ := Err EPERM;
|}.

Definition found {A} (o : option A) : BpfResult A := ok_or o ENOENT.

Definition dict_model : ModelOps Dict := {|
  md_lookup d key := Ok (d !! key, d);
  md_update := dict_update cap;
  md_delete d key := Ok (delete key d);
  md_take d key := v ← found (d !! key); Ok (v, delete key d);
  md_next d key := found (dict_next d key);
  md_lookup_on _ _ _ := Err EPERM;
  md_push _ _ _ := Err EPERM;
  md_pop _ := Err EPERM;
  md_peek _ := Err EPERM;
  md_freeze _ := Err EPERM;
|}.

(** Entries from the most to the least recently used.  A lookup that finds
    its key moves it to the front, as an update does; a new key takes the
    place of the last entry when there is no room. *)
Fixpoint key_after (key : str) (l : list str) : option str :=
  match l with [] => None | k :: l => if decide (k = key) then head l else key_after key l end.
Definition recent_put (l : list (str * str)) (key value : str) : list (str * str) :=
  (key, value) :: drop_key key (if decide (key ∈ l.*1) then l else take (Z.to_nat cap - 1) l).
Definition recent_model : ModelOps (list (str * str)) := {|
  md_lookup l key :=
    match find_key key l with
    | Some v => Ok (Some v, (key, v) :: drop_key key l)
    | None => Ok (None, l)
    end;
  md_update l key value flags :=
    let present := bool_decide (key ∈ l.*1) in
    if flags =? 0 then Ok (recent_put l key value)
    else if flags =? 1 then if present then Err EEXIST else Ok (recent_put l key value)
    else if flags =? 2 then if present then Ok (recent_put l key value) else Err ENOENT
    else Err EINVAL;
  md_delete l key := Ok (drop_key key l);
  md_take l key := v ← found (find_key key l); Ok (v, drop_key key l);
  md_next l key :=
    found match key with
          | Some key => if decide (key ∈ l.*1) then key_after key l.*1 else head l.*1
          | None => head l.*1
          end;
  md_lookup_on _ _ _ := Err EPERM;
  md_push _ _ _ := Err EPERM;
  md_pop _ := Err EPERM;
  md_peek _ := Err EPERM;
  md_freeze _ := Err EPERM;
|}.

(** A queue, oldest first, and a stack, top first; the key is empty. *)
Definition shift (l : list str) : BpfResult (str * list str) :=
  match l with [] => Err ENOENT | v :: l => Ok (v, l) end.
Definition line_model (push : list str → str → Z → BpfResult (list str)) : ModelOps (list str) := {|
  md_lookup l _ := Ok (head l, l);
  md_update l _ value flags := push l value flags;
  md_delete _ _ := Err EPERM;
  md_take l _ := shift l;
  md_next _ _ := Err EPERM;
  md_lookup_on _ _ _ := Err EPERM;
  md_push := push;
  md_pop := shift;
  md_peek l := found (head l);
  md_freeze _ := Err EPERM;
|}.
(** A full queue forgets its oldest value. *)
Definition queue_model : ModelOps (list str) := line_model (λ l value flags,
  if flags =? 0 then Ok (last_n (Z.to_nat cap) (l ++ [value])) else Err EINVAL).
(** A full stack refuses a push, or with BPF_EXIST replaces its top. *)
Definition stack_model : ModelOps (list str) := line_model (λ l value flags,
  if (flags =? 0) || (flags =? 1) || (flags =? 2) then
    if Z.of_nat (length l) <? cap then Ok (value :: l)
    else if flags =? 2 then Ok (value :: tail l) else Err ENOMEM
  else Err EINVAL).

(** One abstract map per CPU; requests run on CPU [cpu]. *)
Definition on_state {D A} (cpu : Z) (r : BpfResult (A * D)) (f : Z → D) : BpfResult (A * (Z → D)) :=
  '(a, d) ← r; Ok (a, λ c, if cpu =? c then d else f c).
Definition put_state {D} (cpu : Z) (r : BpfResult D) (f : Z → D) : BpfResult (Z → D) :=
  d ← r; Ok (λ c, if cpu =? c then d else f c).
Definition per_cpu_model {D} `{ModelOps D} (cpu : Z) : ModelOps (Z → D) := {|
  md_lookup f key := on_state cpu (md_lookup (f cpu) key) f;
  md_update f key value flags := put_state cpu (md_update (f cpu) key value flags) f;
  md_delete f key := put_state cpu (md_delete (f cpu) key) f;
  md_take f key := on_state cpu (md_take (f cpu) key) f;
  md_next f key := md_next (f cpu) key;
  md_lookup_on f c key := on_state c (md_lookup (f c) key) f;
  md_push _ _ _ := Err EPERM;
  md_pop _ := Err EPERM;
  md_peek _ := Err EPERM;
  md_freeze _ := Err EPERM;
|}.
(** An array of values per CPU refuses to be emptied in its own way. *)
Definition per_cpu_array_model (cpu : Z) : ModelOps (Z → list str) :=
  let M := per_cpu_model (H := array_model) cpu in {|
  md_lookup := md_lookup; md_update := md_update; md_delete := md_delete;
  md_take _ _ := Err EINVAL;
  md_next := md_next; md_lookup_on := md_lookup_on;
  md_push := md_push; md_pop := md_pop; md_peek := md_peek; md_freeze := md_freeze;
|}.

(** A ring buffer answers none of these requests. *)
Definition closed_model : ModelOps () := {|
  md_lookup _ _ := Err EPERM; md_update _ _ _ _ := Err EPERM; md_delete _ _ := Err EPERM;
  md_take _ _ := Err EPERM; md_next _ _ := Err EPERM; md_lookup_on _ _ _ := Err EPERM;
  md_push _ _ _ := Err EPERM; md_pop _ := Err EPERM; md_peek _ := Err EPERM; md_freeze _ := Err EPERM;
|}.
End models.

(** ** The interface *)
Section interface.
Context (ks vs ncpu : Z).

(** A value next to the new state of the code, and of the model. *)
Definition both {A M D} (R : M → D → Prop) (x : A * M) (y : A * D) : Prop := x.1 = y.1 ∧ R x.2 y.2.

Definition a_key (key : str) : Prop := sized ks key ∧ Forall is_byte key.

Class Refines {M D} (ops : BpfMapCommonOps M) (spec : ModelOps D) (R : M → D → Prop) : Prop := {
  rf_lookup m d key : R m d → a_key key → res_rel (both R) (lookup_elem m key) (md_lookup d key);
  rf_update m d key value flags : R m d → a_key key → sized vs value →
    res_rel R (update_elem m key value flags) (md_update d key value flags);
  rf_delete m d key : R m d → a_key key → res_rel R (delete_elem m key) (md_delete d key);
  rf_take m d key : R m d → a_key key →
    res_rel (both R) (lookup_and_delete_elem m key (zeros vs)) (md_take d key);
  rf_next m d key : R m d → (∀ k, key = Some k → a_key k) → get_next_key m key (zeros ks) = md_next d key;
  rf_lookup_on m d key c : R m d → a_key key → 0 ≤ c < ncpu →
    res_rel (both R) (lookup_percpu_elem m key c) (md_lookup_on d c key);
  rf_push m d value flags : R m d → sized vs value → res_rel R (push_elem m value flags) (md_push d value flags);
  rf_pop m d buf : R m d → sized vs buf → res_rel (both R) (pop_elem m buf) (md_pop d);
  rf_peek m d buf : R m d → sized vs buf → peek_elem m buf = md_peek d;
  rf_freeze m d : R m d → freeze m = md_freeze d;
}.
End interface.

(** ** The kinds discharge it *)

(** The update flags are three bits. *)
Lemma update_bits flags :
  (from_bits UPDATE_ALL flags = Some flags ∧ flags ∈ [0; 1; 2; 3; 4; 5; 6; 7]) ∨
  (from_bits UPDATE_ALL flags = None ∧ (flags < 0 ∨ 8 ≤ flags)).
Proof.
  unfold from_bits. destruct (Z.eqb_spec (Z.land flags (Z.lnot UPDATE_ALL)) 0) as [Hz|Hz]; [left|right]; (split; [done|]).
  - assert (0 ≤ flags < 8) as Hr.
    { pose proof (Z.lor_ldiff_and flags UPDATE_ALL) as He. rewrite Z.ldiff_land, Hz, Z.lor_0_l in He.
      change UPDATE_ALL with (Z.ones 3) in He. rewrite Z.land_ones in He by lia.
      pose proof (Z.mod_pos_bound flags (2 ^ 3)). lia. }
    rewrite !elem_of_cons. lia.
  - destruct (decide (0 ≤ flags < 8)) as [Hr|]; [|lia]. exfalso. apply Hz.
    change UPDATE_ALL with (2 ^ 3 - 1). rewrite land_lnot_mask, Z.mod_small by lia. lia.
Qed.

(** Case analysis on the flags of an update. *)
Ltac update_flags flags :=
  let Hf := fresh "Hf" in
  destruct (update_bits flags) as [[-> Hf]|[-> Hf]];
    [rewrite !elem_of_cons in Hf; destruct Hf as [->|[->|[->|[->|[->|[->|[->|[->|Hf]]]]]]]]; [..|by apply not_elem_of_nil in Hf]
    |repeat match goal with |- context [flags =? ?k] => rewrite (proj2 (Z.eqb_neq flags k)) by lia end].

Lemma a_key_range key : a_key 4 key → (length key =? 4)%nat = true ∧ 0 ≤ u32_key key < 2 ^ 32.
Proof.
  unfold a_key, sized. intros [Hs Hb]. assert ((length key =? 4)%nat = true) as Hl by (apply Nat.eqb_eq; lia).
  split; [done|by apply u32_key_range].
Qed.

Section arrays.
Context `{BuildMode} (ks vs n ncpu : Z) (Hfits : vs * n < 2 ^ 32).

Definition array_rel (m : ArrayMap) (d : list str) : Prop := array_typed ks vs n m ∧ cells m = d.
Definition perf_rel (m : PerfEventArrayMap) (d : list str) : Prop :=
  perf_typed ks vs n m ∧ 0 < n ∧ cells (as_array vs n (fds m)) = d.

Lemma array_typed_ok m : array_typed ks vs n m → ks = 4 ∧ array_ok m ∧ am_value_size m = vs ∧ am_max_entries m = n ∧ n < 2 ^ 32.
Proof using Hfits.
  intros (Hk & Hn & Hv & Hm & Hd). split; [done|]. pose proof (data_typed_ok vs n _ Hn Hd Hfits) as Hok.
  destruct m as [d v x]. simpl in *. subst v x. split_and!; try done. by destruct Hd as [_ [_ ?] _ _].
Qed.

Lemma cell_at_spec m key : array_ok m → 0 ≤ u32_key key → cell_at (cells m) key =
  if am_max_entries m <=? u32_key key then Err EINVAL else array_index (am_data m) (u32_key key).
Proof using.
  intros Hok Hr. unfold cell_at. fold (u32_key key). rewrite cells_lookup by done.
  destruct (Z.leb_spec (am_max_entries m) (u32_key key)), (Z.ltb_spec (u32_key key) (am_max_entries m)); try lia; [done|].
  by rewrite array_index_ok by (done || lia).
Qed.

#[export] Instance array_refines : Refines ks vs ncpu ArrayMap_ops (array_model n) array_rel.
Proof using Hfits.
  split; try done.
  - intros m d key [Ht <-] Hkey. destruct (array_typed_ok m Ht) as (Hks & Hok & Hv & Hm & _). rewrite Hks in Hkey. destruct (a_key_range key Hkey) as [Hl Hr].
    simpl. unfold array_lookup. rewrite Hl, cell_at_spec by (done || lia). simpl. destruct (Z.leb_spec (am_max_entries m) (u32_key key)); [done|].
    rewrite array_index_ok by (done || lia). split; [done|by split].
  - intros m d key value flags [Ht <-] Hkey Hval. pose proof (array_typed_ok m Ht) as (Hks & Hok & Hv & Hm & _). rewrite Hks in Hkey.
    destruct (a_key_range key Hkey) as [Hl Hr]. simpl. unfold array_update. rewrite Hl, Hv, (proj2 (Z.eqb_eq _ _) Hval). simpl.
    assert (res_rel array_rel
      (if am_max_entries m <=? u32_key key then Err EINVAL else d ← array_set (am_data m) (u32_key key) value; Ok (with_data m d))
      (_ ← cell_at (cells m) key; Ok (<[Z.to_nat (u32_key key) := value]> (cells m)))) as Hgo.
    { rewrite cell_at_spec by (done || lia). destruct (Z.leb_spec (am_max_entries m) (u32_key key)); [done|].
      unfold sized in Hval. rewrite <- Hv in Hval. rewrite array_index_ok by (done || lia).
      destruct (array_set_ok m (u32_key key) value Hok ltac:(lia) Hval) as (d & Hset & Hok' & Hc). rewrite Hset. simpl. split; [|done].
      destruct Ht as (? & ? & ? & ? & Hd). split_and!; try done. destruct Hok' as [_ _ He _ Hlen]. destruct Hd as [? ? _ Hold].
      simpl in He, Hlen. split; simpl; try done; [congruence|]. rewrite Hlen, Hv, Hm, wrapu_small by nia. done. }
    update_flags flags; try exact Hgo; done.
  - intros m d key [Ht <-] Hkey. destruct (array_typed_ok m Ht) as (Hks & Hok & Hv & Hm & Hlt). rewrite Hks in Hkey |- *. simpl.
    unfold array_get_next_key. simpl. destruct key as [key|]; [|done]. destruct (a_key_range key (Hkey key eq_refl)) as [-> Hr].
    simpl. rewrite Hm. destruct Hok as [_ Hpos _ _ _]. rewrite Hm in Hpos. rewrite (arith_ok 32 (n - 1)) by lia. simpl.
    unfold u32_key in *. destruct (Z.leb_spec (n - 1) (le_dec key)), (Z.ltb_spec (le_dec key + 1) n); try lia; [done|].
    rewrite arith_ok by lia. done.
Qed.

#[export] Instance perf_refines : Refines ks vs ncpu PerfEventArrayMap_ops perf_model perf_rel.
Proof using Hfits.
  assert (∀ m, perf_typed ks vs n m → 0 < n → array_ok (as_array vs n (fds m))) as Hget.
  { intros m (_ & Hv & _ & Hd) Hn. apply data_typed_ok; [done| |done]. by rewrite Hv. }
  assert (∀ m key value, perf_typed ks vs n m → 0 < n → a_key ks key → length value = 4%nat →
    res_rel perf_rel
      (if num_cpus m <=? u32_key key then Err EINVAL
       else d ← array_set (fds m) (u32_key key) value; Ok {| fds := d; num_cpus := num_cpus m |})
      (_ ← cell_at (cells (as_array vs n (fds m))) key;
       Ok (<[Z.to_nat (u32_key key) := value]> (cells (as_array vs n (fds m)))))) as Hset.
  { intros m key value Ht Hn Hkey Hval. pose proof (Hget m Ht Hn) as Hok. destruct Ht as (Hks & Hv & Hm & Hd). rewrite Hks in Hkey.
    destruct (a_key_range key Hkey) as [Hl Hr]. rewrite cell_at_spec by (done || lia). rewrite Hm. simpl.
    destruct (Z.leb_spec n (u32_key key)); [done|]. rewrite (array_index_ok (as_array vs n (fds m))) by (done || simpl; lia).
    destruct (array_set_ok (as_array vs n (fds m)) (u32_key key) value Hok) as (d & Hs & Hok' & Hc); [simpl; lia|simpl; lia|].
    simpl in Hs. rewrite Hs. simpl. split; [|done]. split_and!; try done. simpl. destruct Hok' as [_ _ He _ Hlen].
    destruct Hd as [? ? _ _]. simpl in He, Hlen. split; try done; [congruence|]. rewrite Hlen, wrapu_small by nia. congruence. }
  split; try done.
  - intros m d key (Ht & Hn & <-) Hkey. pose proof (Hget m Ht Hn) as Hok. pose proof Ht as (Hks & Hv & Hm & _). rewrite Hks in Hkey.
    destruct (a_key_range key Hkey) as [Hl Hr]. simpl. unfold perf_lookup. rewrite Hl, cell_at_spec by (done || lia). rewrite Hm. simpl.
    destruct (Z.leb_spec n (u32_key key)); [done|]. rewrite (array_index_ok (as_array vs n (fds m))) by (done || simpl; lia).
    by split.
  - intros m d key value flags (Ht & Hn & <-) Hkey Hval. pose proof Ht as (Hks & Hv & Hm & _). unfold sized in Hval.
    pose proof (Hset m key value Ht Hn Hkey ltac:(lia)) as Hgo. rewrite Hks in Hkey. destruct (a_key_range key Hkey) as [Hl Hr].
    simpl. unfold perf_update. rewrite Hl, (proj2 (Nat.eqb_eq (length value) 4)) by lia. simpl.
    update_flags flags; try exact Hgo; done.
  - intros m d key (Ht & Hn & <-) Hkey. pose proof (Hset m key [0; 0; 0; 0] Ht Hn Hkey eq_refl) as Hgo. pose proof Ht as (Hks & _).
    rewrite Hks in Hkey. destruct (a_key_range key Hkey) as [Hl Hr]. simpl. unfold perf_delete. rewrite Hl. exact Hgo.
Qed.
End arrays.

Section hash.
Context `{BuildMode} (ks vs cap ncpu : Z) (Hk0 : 0 ≤ ks) (Hv0 : 0 ≤ vs).

Definition dict_rel (m : BpfHashMap) (d : Dict) : Prop := hash_typed ks vs cap m ∧ hm_data m = d.

#[export] Instance hash_refines : Refines ks vs ncpu BpfHashMap_ops (dict_model cap) dict_rel.
Proof using Hk0 Hv0.
  split; try done.
  - intros m d key [Ht <-] [Hs _]. pose proof Ht as (Hks & _). simpl. unfold hash_lookup, validate_key.
    rewrite Hks, validate_sized by done. by split.
  - intros m d key value flags [Ht <-] [Hs _] Hval. simpl. rewrite (hash_update_dict ks vs cap m Ht) by done.
    destruct (dict_update cap (hm_data m) key value flags) as [d|e| |] eqn:Hu; simpl; try done.
    split; [by eapply dict_update_typed|done].
  - intros m d key [Ht <-] [Hs _]. pose proof Ht as (Hks & _). simpl. unfold hash_delete, validate_key.
    rewrite Hks, validate_sized by done. split; [by apply hash_delete_ok|done].
  - intros m d key [Ht <-] [Hs _]. simpl. rewrite (hash_take_dict ks vs cap m Ht) by done.
    destruct (hm_data m !! key); simpl; [|done]. split; [done|]. split; [by apply hash_delete_ok|done].
  - intros m d key [Ht <-] Hkey. simpl. rewrite (hash_next_dict ks vs cap m Ht); [by destruct (dict_next _ _)|done|].
    intros k Hk. by apply Hkey.
Qed.
End hash.

Section lru.
Context `{BuildMode} {C} `{LruLaws C} (ks vs cap ncpu : Z) (Hk0 : 0 ≤ ks) (Hv0 : 0 ≤ vs).

Definition recent_rel (m : LruMap C) (l : list (str * str)) : Prop := lru_typed ks vs cap m ∧ lru_iter (lm_data m) = l.

Lemma next_after_keys key (l : list (str * str)) : fst <$> next_after key l = key_after key l.*1.
Proof using. induction l as [|[k v] l IH]; simpl; [done|]. case_decide; [by destruct l|done]. Qed.

Lemma drop_key_twice k v (l : list (str * str)) : drop_key k ((k, v) :: drop_key k l) = drop_key k l.
Proof using.
  unfold drop_key. rewrite filter_cons_False by (simpl; tauto). rewrite list_filter_filter.
  apply list_filter_iff. intros p. tauto.
Qed.

Lemma recent_get m key :
  lru_typed ks vs cap m → recent_rel (with_lru m (lru_get (lm_data m) key).2)
    (match find_key key (lru_iter (lm_data m)) with
     | Some v => (key, v) :: drop_key key (lru_iter (lm_data m)) | None => lru_iter (lm_data m) end) ∧
  (lru_get (lm_data m) key).1 = find_key key (lru_iter (lm_data m)).
Proof using.
  intros Ht. destruct (lru_get (lm_data m) key) as [o c] eqn:Hg. destruct (lru_get_typed ks vs cap m key o c Ht Hg) as [Ht' _].
  destruct Ht as (_ & _ & _ & Hwf & _). pose proof (lru_get_law _ _ key Hwf) as Hl. rewrite Hg in Hl. destruct Hl as (_ & -> & Hi).
  simpl. split; [by split|done].
Qed.

#[export] Instance lru_refines : Refines ks vs ncpu LruMap_ops (recent_model cap) recent_rel.
Proof using Hk0 Hv0.
  split; try done.
  - intros m l key [Ht <-] [Hs _]. destruct (recent_get m key Ht) as [Hrel Ho]. destruct Ht as (Hks & _). simpl.
    unfold lru_lookup. rewrite Hks, validate_sized by done. cbn [mbind res_bind].
    destruct (lru_get (lm_data m) key) as [o c]. simpl in *. subst o. by destruct (find_key _ _).
  - intros m l key value flags [Ht <-] [Hs _] Hval. pose proof Ht as (Hks & Hvs & Hn & Hwf & Hall). simpl.
    unfold lru_update. rewrite Hks, Hvs, !validate_sized by done. cbn [mbind res_bind].
    rewrite update_flags_cases, (lru_contains_law _ cap) by done.
    assert (recent_rel (with_lru m (lru_put (lm_data m) key value)) (recent_put cap (lru_iter (lm_data m)) key value)) as Hput.
    { destruct (lru_put_law _ _ key value Hwf) as [Hwf' Hi]. split; [|exact Hi]. split_and!; try done. simpl. rewrite Hi.
      constructor; [done|]. apply drop_key_Forall. case_decide; [done|]. by apply Forall_take. }
    destruct (flags =? 0); [done|]. destruct (flags =? 1); [by case_bool_decide|].
    destruct (flags =? 2); [by case_bool_decide|done].
  - intros m l key [Ht <-] [Hs _]. pose proof Ht as (Hks & Hvs & Hn & Hwf & Hall). simpl. unfold lru_delete.
    rewrite Hks, validate_sized by done. simpl. split; [by apply lru_pop_typed|]. by destruct (lru_pop_law _ _ key Hwf).
  - intros m l key [Ht <-] [Hs _]. destruct (recent_get m key Ht) as [[Hrel Hi] Ho]. pose proof Ht as (Hks & Hvs & Hn & _ & Hall). simpl.
    unfold lru_lookup_and_delete. rewrite Hks, Hvs, !validate_sized by (done || by apply length_zeros). cbn [mbind res_bind].
    destruct (lru_get (lm_data m) key) as [o c] eqn:Hg. destruct (lru_get_typed _ _ _ m key o c Ht Hg) as [_ Hsz].
    simpl in Ho, Hi, Hrel. subst o. destruct (find_key key _) as [v|] eqn:Hf; simpl; [|done].
    destruct (Hsz v eq_refl) as [Hv _]. unfold sized in Hv. pose proof (length_zeros vs Hv0) as Hz.
    rewrite slice_copy_some by lia. simpl. split; simpl.
    + unfold splice. rewrite take_0, drop_ge by lia. by rewrite app_nil_r.
    + split; [by apply (lru_pop_typed _ _ _ (with_lru m c))|]. destruct Hrel as (_ & _ & _ & Hwf & _). simpl in *.
      destruct (lru_pop_law _ _ key Hwf) as [_ ->]. rewrite Hi. apply drop_key_twice.
  - intros m l key [Ht <-] Hkey. pose proof Ht as (Hks & Hvs & Hn & Hwf & Hall). simpl. unfold lru_get_next_key, next_key_of.
    rewrite Hks, length_zeros, Z.eqb_refl by done. simpl negb. cbv match.
    assert (∀ o : option (str * str), (∀ p, o = Some p → p ∈ lru_iter (lm_data m)) →
      match o with Some (k, _) => copy_from (zeros ks) k | None => Err ENOENT end = found (fst <$> o)) as Hend.
    { intros [[k v]|] Hin; [|done]. simpl. unfold copy_from. rewrite Forall_forall in Hall.
      destruct (Hall (k, v) (Hin _ eq_refl)) as [Hsk _]. unfold sized in Hsk. simpl in Hsk. pose proof (length_zeros ks Hk0).
      rewrite (proj2 (Nat.eqb_eq _ _)) by lia. done. }
    assert (∀ p, head (lru_iter (lm_data m)) = Some p → p ∈ lru_iter (lm_data m)) as Hhd by (intros p; apply head_Some_elem_of).
    assert (head (lru_iter (lm_data m)).*1 = fst <$> head (lru_iter (lm_data m))) as -> by (by destruct (lru_iter _)).
    destruct key as [key|]; cbn [mbind res_bind]; [|by apply Hend].
    destruct (Hkey key eq_refl) as [Hs _]. rewrite validate_sized by done. cbn [mbind res_bind]. rewrite (lru_contains_law _ cap) by done.
    case_bool_decide; [rewrite decide_True by done|rewrite decide_False by done; by apply Hend].
    rewrite <- next_after_keys. apply Hend. intros p. apply next_after_in.
Qed.
End lru.

Section lines.
Context `{BuildMode} (ks vs cap ncpu : Z) (Hv0 : 0 ≤ vs).

Definition queue_rel (q : QueueMap) (l : list str) : Prop := queue_typed ks vs cap q ∧ qm_data q = l.
(** The top of the stack is the end of the vector. *)
Definition stack_rel (s : StackMap) (l : list str) : Prop := stack_typed ks vs cap s ∧ reverse (qm_data (sm_queue s)) = l.

(** What [SpecialMap] promises a model of lines. *)
Class SpecialRefines {T} `{SpecialMap T} (push : list str → str → Z → BpfResult (list str)) (R : T → list str → Prop) : Prop := {
  sr_sizes m l : R m l → ks = 0 ∧ sp_value_size m = vs ∧ Forall (sized vs) l;
  sr_peek m l : R m l → sp_peek m = head l;
  sr_pop m l : R m l → match l with
    | [] => sp_pop m = None
    | v :: l => ∃ m', sp_pop m = Some (v, m') ∧ R m' l
    end;
  sr_push m l v flags : R m l → sized vs v → flags ∈ [0; 1; 2] → res_rel R (sp_push m v flags) (push l v flags);
  sr_flags l v flags : flags < 0 ∨ 3 ≤ flags → push l v flags = Err EINVAL;
}.

#[export] Instance special_refines {T} `{SpecialMap T} push R :
  SpecialRefines push R → Refines ks vs ncpu (special_ops (T := T)) (line_model push) R.
Proof using Hv0.
  intros HR.
  assert (∀ m l key value flags, R m l → sized 0 key → sized vs value →
    res_rel R (special_update m key value flags) (push l value flags)) as Hup.
  { intros m l key value flags Hm Hkey Hval. destruct (sr_sizes m l Hm) as (_ & Hs & _). unfold sized in Hkey. unfold special_update.
    rewrite (proj2 (Nat.eqb_eq (length key) 0)) by lia. rewrite Hs, (proj2 (Z.eqb_eq _ _) Hval). simpl.
    destruct (decide (flags ∈ [0; 1; 2])) as [Hin|Hout].
    - rewrite !elem_of_cons in Hin. destruct Hin as [->|[->|[->|Hin]]]; [..|by apply not_elem_of_nil in Hin];
        simpl; (apply sr_push; [done|done|]); set_solver.
    - rewrite sr_flags by (rewrite !elem_of_cons in Hout; lia). update_flags flags; try done; exfalso; apply Hout; set_solver. }
  assert (∀ m l key value, R m l → sized 0 key → sized vs value →
    res_rel (both R) (special_lookup_and_delete m key value) (shift l)) as Hpop.
  { intros m l key value Hm Hkey Hval. destruct (sr_sizes m l Hm) as (_ & Hs & Hl). unfold sized in Hkey. unfold special_lookup_and_delete.
    rewrite (proj2 (Nat.eqb_eq (length key) 0)) by lia. rewrite Hs, (proj2 (Z.eqb_eq _ _) Hval). simpl.
    pose proof (sr_pop m l Hm) as Hp. destruct l as [|v l]; [by rewrite Hp|]. destruct Hp as (m' & -> & Hm').
    apply Forall_cons in Hl as [Hv _]. unfold sized in *. unfold copy_from. rewrite (proj2 (Nat.eqb_eq _ _)) by lia. by split. }
  split; try done.
  - intros m l key Hm [Hs _]. destruct (sr_sizes m l Hm) as (Hks & _ & _). rewrite Hks in Hs. unfold sized in Hs. simpl.
    unfold special_lookup. rewrite (proj2 (Nat.eqb_eq _ 0)) by lia. split; [|done]. by apply sr_peek.
  - intros m l key value flags Hm [Hs _] Hval. destruct (sr_sizes m l Hm) as (Hks & _ & _). rewrite Hks in Hs. by apply Hup.
  - intros m l key Hm [Hs _]. destruct (sr_sizes m l Hm) as (Hks & _ & _). rewrite Hks in Hs. apply Hpop; [done|done|by apply length_zeros].
  - intros m l value flags Hm Hval. by apply Hup.
  - intros m l buf Hm Hb. by apply Hpop.
  - intros m l buf Hm Hb. destruct (sr_sizes m l Hm) as (_ & Hs & Hl). simpl. unfold special_peek.
    rewrite Hs, (proj2 (Z.eqb_eq _ _) Hb), (sr_peek m l Hm). destruct l as [|v l]; [done|]. simpl.
    apply Forall_cons in Hl as [Hv _]. unfold sized in *. unfold copy_from. by rewrite (proj2 (Nat.eqb_eq _ _)) by lia.
Qed.

#[export] Instance queue_refines : Refines ks vs ncpu QueueMap_ops (queue_model cap) queue_rel.
Proof using Hv0.
  apply special_refines. split.
  - intros q l [(Hks & Hv & _ & [_ _ Hl _]) <-]. rewrite <- Hv at 2. done.
  - by intros q l [_ <-].
  - intros q l [Hq <-]. pose proof Hq as (_ & Hvs & _ & [_ _ Hv Hr]). simpl. unfold queue_pop.
    destruct (qm_data q) as [|v d]; [done|]. eexists. split; [done|]. simpl in Hr. apply Forall_cons in Hv as [_ Hv].
    split; [|done]. apply queue_set_typed; [done|done|lia].
  - intros q l v flags [Hq <-] Hsv Hf. pose proof Hq as (Hks & Hvs & Hn & [Hm Hv0' Hv Hr]). simpl. unfold queue_push.
    destruct (Z.eqb_spec flags 0); [|done]. simpl. rewrite <- Hvs in Hsv. unfold queue_full. rewrite <- Hn.
    destruct (Z.eqb_spec (Z.of_nat (length (qm_data q))) (qm_max_entries q)) as [Hfull|Hroom].
    + destruct (qm_data q) as [|x d]; simpl in Hfull, Hr; [lia|]. simpl. apply Forall_cons in Hv as [_ Hv]. split.
      * apply queue_set_typed; [done|apply Forall_app_2; by auto|rewrite length_app; simpl; lia].
      * simpl. unfold last_n. simpl. rewrite length_app. simpl.
        replace (S (length d + 1) - Z.to_nat (qm_max_entries q))%nat with 1%nat by lia. done.
    + simpl. split.
      * apply queue_set_typed; [done|apply Forall_app_2; by auto|rewrite length_app; simpl; lia].
      * simpl. unfold last_n. rewrite length_app. simpl.
        by replace (length (qm_data q) + 1 - Z.to_nat (qm_max_entries q))%nat with 0%nat by lia.
  - intros l v flags Hf. by rewrite (proj2 (Z.eqb_neq flags 0)) by lia.
Qed.

#[export] Instance stack_refines : Refines ks vs ncpu StackMap_ops (stack_model cap) stack_rel.
Proof using Hv0.
  apply special_refines. split.
  - intros s l [(Hks & Hv & _ & [_ _ Hl _]) <-]. split_and!; [done|done|]. rewrite <- Hv. by apply Forall_reverse.
  - intros s l [_ <-]. simpl. by rewrite head_reverse.
  - intros s l [Hq <-]. pose proof Hq as (_ & Hvs & _ & [_ _ Hv Hr]). simpl. unfold stack_pop, vec_pop.
    destruct (qm_data (sm_queue s)) as [|x d _] eqn:Hd using rev_ind; [done|].
    rewrite reverse_snoc, last_snoc, length_app, take_app_length' by (simpl; lia). eexists. split; [done|].
    apply Forall_app in Hv as [Hv _]. rewrite length_app in Hr. simpl in Hr.
    split; [|done]. apply queue_set_typed; [done|done|lia].
  - intros s l v flags [Hq <-] Hsv Hf. pose proof Hq as (Hks & Hvs & Hn & [Hm Hv0' Hv Hr]). simpl. unfold stack_push, queue_full.
    rewrite <- Hvs in Hsv. rewrite length_reverse, <- Hn.
    assert (∀ d, Forall (sized (qm_value_size (sm_queue s))) d → Z.of_nat (length d) < qm_max_entries (sm_queue s) →
      stack_rel (with_stack s (d ++ [v])) (v :: reverse d)) as Hpush.
    { intros d Hd Hlen. split; [|simpl; by rewrite reverse_snoc].
      apply queue_set_typed; [done|apply Forall_app_2; by auto|rewrite length_app; simpl; lia]. }
    assert ((flags =? 0) || (flags =? 1) || (flags =? 2) = true) as -> by (rewrite !elem_of_cons in Hf; destruct Hf as [->|[->|[->|Hf]]];
      [done..|by apply not_elem_of_nil in Hf]).
    destruct (Z.eqb_spec (Z.of_nat (length (qm_data (sm_queue s)))) (qm_max_entries (sm_queue s))) as [Hfull|Hroom].
    + rewrite (proj2 (Z.ltb_ge _ _)) by lia.
      assert (contains flags BPF_EXISTS = (flags =? 2)) as -> by (rewrite !elem_of_cons in Hf; destruct Hf as [->|[->|[->|Hf]]];
        [done..|by apply not_elem_of_nil in Hf]).
      destruct (flags =? 2); [|done]. simpl. unfold vec_pop.
      destruct (qm_data (sm_queue s)) as [|x d _] eqn:Hd using rev_ind; [simpl in Hfull; lia|].
      rewrite last_snoc, length_app, take_app_length', reverse_snoc by (simpl; lia). simpl.
      apply Forall_app in Hv as [Hv _]. rewrite length_app in Hfull. simpl in Hfull. apply Hpush; [done|lia].
    + rewrite (proj2 (Z.ltb_lt _ _)) by lia. simpl. apply Hpush; [done|lia].
  - intros l v flags Hf. by rewrite !(proj2 (Z.eqb_neq flags _)) by lia.
Qed.
End lines.

(** ** Per-CPU storage lifts it *)
Section percpu.
Context `{PerCpuLaws} (ks vs cpu : Z) (Hcpu : 0 ≤ cpu < pc_num_cpus).

Definition per_cpu_rel {M D} (R : M → D → Prop) (p : PC M) (f : Z → D) : Prop :=
  ∀ c, 0 ≤ c < pc_num_cpus → R (pc_get p c) (f c).

Lemma per_cpu_rel_set {M D} (R : M → D → Prop) p f c m d :
  per_cpu_rel R p f → R m d → per_cpu_rel R (pc_set p c m) (λ c', if c =? c' then d else f c').
Proof using H0. intros Hp Hm c' Hc'. rewrite pc_get_set. destruct (c =? c'); auto. Qed.

Context {M D} (ops : BpfMapCommonOps M) (spec : ModelOps D) (R : M → D → Prop) {HR : Refines ks vs pc_num_cpus ops spec R}.

Lemma state_rel {A} (c : Z) (r : BpfResult (A * M)) (r' : BpfResult (A * D)) p f :
  per_cpu_rel R p f → res_rel (both R) r r' →
  res_rel (both (per_cpu_rel R)) ('(a, m) ← r; Ok (a, pc_set p c m)) (on_state c r' f).
Proof using H0.
  intros Hp Hr. eapply res_rel_bind; [exact Hr|]. intros [a m] [a' d] [Ha Hm]. split; [done|by apply per_cpu_rel_set].
Qed.

Lemma store_rel (r : BpfResult M) r' p f :
  per_cpu_rel R p f → res_rel R r r' → res_rel (per_cpu_rel R) (m ← r; Ok (pc_set p cpu m)) (put_state cpu r' f).
Proof using H0. intros Hp Hr. eapply res_rel_bind; [exact Hr|]. intros m d Hm. by apply per_cpu_rel_set. Qed.

#[export] Instance percpu_refines :
  Refines ks vs pc_num_cpus (PerCpuHashMap_ops cpu) (per_cpu_model cpu) (per_cpu_rel R).
Proof using H0 Hcpu HR.
  split; try done; simpl.
  - intros p f key Hp Hk. apply state_rel; [done|]. apply (rf_lookup ks vs pc_num_cpus); auto.
  - intros p f key value flags Hp Hk Hv. apply store_rel; [done|]. apply (rf_update ks vs pc_num_cpus); auto.
  - intros p f key Hp Hk. apply store_rel; [done|]. apply (rf_delete ks vs pc_num_cpus); auto.
  - intros p f key Hp Hk. apply state_rel; [done|]. apply (rf_take ks vs pc_num_cpus); auto.
  - intros p f key Hp Hk. apply (rf_next ks vs pc_num_cpus); auto.
  - intros p f key c Hp Hk Hc. unfold lookup_percpu. rewrite pc_force_law by done. cbn [unwrap mbind res_bind].
    apply state_rel; [done|]. apply (rf_lookup ks vs pc_num_cpus); auto.
Qed.
End percpu.

Section percpu_array.
Context `{BuildMode} `{PerCpuLaws} (ks vs n cpu : Z) (Hfits : vs * n < 2 ^ 32) (Hcpu : 0 ≤ cpu < pc_num_cpus).

#[export] Instance percpu_array_refines :
  Refines ks vs pc_num_cpus (PerCpuArrayMap_ops cpu) (per_cpu_array_model n cpu) (per_cpu_rel (array_rel ks vs n)).
Proof using H1 Hfits Hcpu.
  pose proof (percpu_refines ks vs cpu Hcpu _ _ _ (HR := array_refines ks vs n pc_num_cpus Hfits)) as HR.
  by destruct HR.
Qed.
End percpu_array.

(** ** The dispatch *)
Section dispatch.
Context `{BuildMode} `{PerCpuVariantsOps} {C} `{LruCache C} (ks vs ncpu cpu : Z) (h : Heap).

(** A kind of map refines its model as an object of any kind. *)
Lemma dispatch_refines {M D} (ops : BpfMapCommonOps M) (spec : ModelOps D) (R : M → D → Prop) (k : M → AnyMap (C := C)) :
  (∀ T (f : ∀ M, BpfMapCommonOps M → (M → AnyMap) → M → T) ring m, with_ops cpu f ring (k m) = f M ops k m) →
  Refines ks vs ncpu ops spec R → Refines ks vs ncpu (AnyMap_ops cpu h) spec (λ a d, ∃ m, a = k m ∧ R m d).
Proof.
  intros Hk HR.
  assert (∀ A (r : BpfResult (A * M)) r', res_rel (both R) r r' →
    res_rel (both (λ a d, ∃ m, a = k m ∧ R m d)) (lift1 k r) r') as H1'.
  { intros A r r' Hr. destruct r as [[a m]|e| |], r' as [[a' d]|e'| |]; simpl in *; try done.
    destruct Hr as [Ha Hm]. split; [done|]. by exists m. }
  assert (∀ (r : BpfResult M) r', res_rel R r r' → res_rel (λ a d, ∃ m, a = k m ∧ R m d) (lift0 k r) r') as H0'.
  { intros r r' Hr. destruct r, r'; simpl in *; try done. by eexists. }
  split; simpl.
  - intros a d key [m [-> Hm]] Hkey. rewrite Hk. by apply H1', (rf_lookup ks vs ncpu).
  - intros a d key value flags [m [-> Hm]] Hkey Hv. rewrite Hk. by apply H0', (rf_update ks vs ncpu).
  - intros a d key [m [-> Hm]] Hkey. rewrite Hk. by apply H0', (rf_delete ks vs ncpu).
  - intros a d key [m [-> Hm]] Hkey. rewrite Hk. by apply H1', (rf_take ks vs ncpu).
  - intros a d key [m [-> Hm]] Hkey. rewrite Hk. by apply (rf_next ks vs ncpu).
  - intros a d key c [m [-> Hm]] Hkey Hc. rewrite Hk. by apply H1', (rf_lookup_on ks vs ncpu).
  - intros a d value flags [m [-> Hm]] Hv. rewrite Hk. by apply H0', (rf_push ks vs ncpu).
  - intros a d buf [m [-> Hm]] Hb. rewrite Hk. by apply H1', (rf_pop ks vs ncpu).
  - intros a d buf [m [-> Hm]] Hb. rewrite Hk. by apply (rf_peek ks vs ncpu).
  - intros a d [m [-> Hm]]. rewrite Hk. by apply (rf_freeze ks vs ncpu).
Qed.

Lemma ring_refines base : Refines ks vs ncpu (AnyMap_ops cpu h) closed_model (λ (a : AnyMap (C := C)) _, a = MRingBuf base).
Proof. split; intros; subst; done. Qed.
End dispatch.
