(* ===== verification/MapRefine.v ===== *)
(** Every kind of BPF map refines its abstract map, over any interleaving of
    bpf(2) commands and BPF programs' helper calls on the table of maps.

    The requests are interpreted once, on any instance of [ModelOps]; the
    simulation is proved against the interface [Refines] alone, and creation
    picks the model of the declared kind. *)
From S2P Require Import Prelude BpfBase RingMem RingBuf RingBufProps Maps Unified Helper MapProps UnifiedProps MapTyping MapTable MapSystem MapDict MapModel.

(** ** Requests on an abstract map *)

(** A result and a new state, or an error and the old one. *)
Definition keep {A S} (s : S) (r : BpfResult (A * S)) : BpfResult A * S :=
  match r with Ok (a, s) => (Ok a, s) | Err e => (Err e, s) | Panic => (Panic, s) | OutOfFuel => (OutOfFuel, s) end.

Section spec.
Context {U} `{UserMem U} (errno : BpfError → Z) (ksize vsize : Z) {D} (ops : Z → ModelOps D).

(** A command, issued on CPU [cpu]. *)
Definition model_command (cpu : Z) (um : U) (d : D) (c : command) : BpfResult U * D :=
  let _ := ops cpu in
  let key_at ptr := copy_from_user um ptr ksize in
  let quiet (r : BpfResult (() * D)) := let '(r, d) := keep d r in ((λ _, um) <$> r, d) in
  match c with
  | Update arg => quiet (key ← key_at (ua_key arg); value ← copy_from_user um (ua_value arg) vsize;
                         d' ← md_update d key value (ua_flags arg); Ok ((), d'))
  | Lookup arg =>
      let '(r, d') := keep d (key ← key_at (ua_key arg); md_lookup d key) in
      (o ← r; match o with Some v => copy_to_user um (ua_value arg) vsize v | None => Err ENOENT end, d')
  | Delete arg => quiet (key ← key_at (ua_key arg); d' ← md_delete d key; Ok ((), d'))
  | LookupAndDelete arg =>
      let '(r, d') := keep d (key ← key_at (ua_key arg); md_take d key) in
      (v ← r; copy_to_user um (ua_value arg) vsize v, d')
  | NextKey arg =>
      (key ← match na_key arg with Some ptr => Some <$> key_at ptr | None => Ok None end;
       k ← md_next d key; copy_to_user um (na_next_key arg) ksize k, d)
  | Freeze _ => ((λ _, um) <$> md_freeze d, d)
  end.

(** A helper call; a value is given back in the buffer of the call. *)
Definition model_call (cpu : Z) (mem : bytes_at) (d : D) (c : helper_call) : reply U * D :=
  let _ := ops cpu in
  let key_at p := read_mem mem p (Z.to_nat ksize) in
  let value_at p := read_mem mem p (Z.to_nat vsize) in
  let value r := let '(r, d) := keep d r in (Value (null_on_err r), d) in
  let code r := let '(r, d) := keep d r in (Code (ret_code errno r) mem, d) in
  let fill r := let '(r, d) := keep d r in
                (Code (ret_code errno r) (match r with Ok mem => mem | _ => mem end), d) in
  match c with
  | HLookup _ key => value (k ← key_at key; md_lookup d k)
  | HLookupPercpu _ key c => value (k ← key_at key; md_lookup_on d c k)
  | HUpdate _ key v flags => code (k ← key_at key; v ← value_at v; d' ← md_update d k v flags; Ok ((), d'))
  | HDelete _ key => code (k ← key_at key; d' ← md_delete d k; Ok ((), d'))
  | HPush _ v flags => code (v ← value_at v; d' ← md_push d v flags; Ok ((), d'))
  | HPop _ v => fill (_ ← value_at v; '(x, d') ← md_pop d; mem ← write_mem mem v x; Ok (mem, d'))
  | HPeek _ v => fill (_ ← value_at v; x ← md_peek d; mem ← write_mem mem v x; Ok (mem, d))
  end.

Definition model_request (d : D) (q : Z * request U) : reply U * D :=
  match q with
  | (cpu, Syscall um c) => let '(r, d) := model_command cpu um d c in (Wrote r, d)
  | (cpu, Call mem c) => model_call cpu mem d c
  end.
Fixpoint model_requests (d : D) (l : list (Z * request U)) : list (reply U) * D :=
  match l with
  | [] => ([], d)
  | q :: l => let '(r, d) := model_request d q in let '(rs, d) := model_requests d l in (r :: rs, d)
  end.
End spec.

(** ** The model of a map *)
Record model := { mo_state : Type; mo_ops : Z → ModelOps mo_state; mo_new : mo_state }.

(** By its kind; the operations of a per-CPU map act on the current CPU. *)
Definition model_of (m : BpfMapMeta) : model :=
  let n := max_entries m in
  let cells vs := replicate (Z.to_nat n) (zeros vs) in
  match map_type m with
  | BPF_MAP_TYPE_ARRAY => {| mo_ops _ := array_model n; mo_new := cells (value_size m) |}
  | BPF_MAP_TYPE_PERF_EVENT_ARRAY => {| mo_ops _ := perf_model; mo_new := cells 4 |}
  | BPF_MAP_TYPE_HASH => {| mo_ops _ := dict_model n; mo_new := ∅ |}
  | BPF_MAP_TYPE_LRU_HASH => {| mo_ops _ := recent_model n; mo_new := [] |}
  | BPF_MAP_TYPE_QUEUE => {| mo_ops _ := queue_model n; mo_new := [] |}
  | BPF_MAP_TYPE_STACK => {| mo_ops _ := stack_model n; mo_new := [] |}
  | BPF_MAP_TYPE_PERCPU_ARRAY => {| mo_ops := per_cpu_array_model n; mo_new := λ _, cells (value_size m) |}
  | BPF_MAP_TYPE_PERCPU_HASH => {| mo_ops := per_cpu_model (H := dict_model n); mo_new := λ _, ∅ |}
  | BPF_MAP_TYPE_LRU_PERCPU_HASH => {| mo_ops := per_cpu_model (H := recent_model n); mo_new := λ _, [] |}
  | _ => {| mo_ops _ := closed_model; mo_new := () |}
  end.

(** ** The simulation *)
Section simulation.
Context `{BuildMode} `{PerCpuVariantsOps} {C} `{LruCache C} {U} `{UserMemLaws U} (errno : BpfError → Z).
Abbreviation Table := (gmap Z (UnifiedMap (C := C))).

(** The requests on one map, with the CPUs they come from. *)
Definition requests_on (id : Z) (l : list (event (U := U))) : list (Z * request U) :=
  (λ e, (ev_cpu e, ev_request e)) <$> filter (λ e, on_map id e) l.

(** Events happen on CPUs that exist and find bytes in memory. *)
Definition event_ok (e : event (U := U)) : Prop :=
  0 ≤ ev_cpu e < pc_num_cpus ∧
  match ev_request e with
  | Syscall _ _ => True
  | Call mem c => map_Forall (λ _, is_byte) mem ∧ cpu_ok c
  end.

Context {D} (ops : Z → ModelOps D) (R : AnyMap (C := C) → D → Prop) (mt : BpfMapMeta) (Hmt : meta_u32 mt).
Abbreviation ks := (key_size mt).
Abbreviation vs := (value_size mt).
Context (HR : ∀ cpu h, 0 ≤ cpu < pc_num_cpus → Refines ks vs pc_num_cpus (AnyMap_ops cpu h) (ops cpu) R).

(** The code's reply and table against the model's. *)
Definition follows {A} (id : Z) (u : UnifiedMap (C := C)) (st : Table) (x : A * Table) (y : A * D) : Prop :=
  ∃ a, x = (y.1, <[id := with_inner u a]> st) ∧ R a y.2.

Lemma with_fd_follows {A} fds st fd f id u (y : BpfResult A * D) :
  fds fd = Ok id → st !! id = Some u → (f u).1 = y.1 ∧ R (f u).2 y.2 → follows id u st (with_fd fds st fd f) y.
Proof using.
  intros Hfd Hu [H1' H2']. unfold with_fd. rewrite Hfd, Hu. destruct (f u) as [r a]. simpl in *. exists a. by subst.
Qed.

(** A reply computed from the first one. *)
Lemma follows_map {A B} (f : A → B) id u st (x : A * Table) (y : A * D) :
  follows id u st x y → follows id u st (let '(r, s) := x in (f r, s)) (let '(r, d) := y in (f r, d)).
Proof using. intros (a & -> & Ha). destruct y. by exists a. Qed.
Lemma follows_quiet {A B} (f : A → B) id u st (x : A * Table) (y : A * D) :
  follows id u st x y → follows id u st (f x.1, x.2) (let '(r, d) := y in (f r, d)).
Proof using. intros (a & -> & Ha). destruct y. by exists a. Qed.

Lemma follows_code {A B E} (g : A → B) (f : B → E) id u st (x : A * Table) (y : A * D) :
  follows id u st x y →
  follows id u st (f (let '(r, s) := x in (g r, s)).1, (let '(r, s) := x in (g r, s)).2) (let '(r, d) := y in (f (g r), d)).
Proof using. intros (a & -> & Ha). destruct y. by exists a. Qed.

Lemma keep_rel {A} a d (r : BpfResult (A * AnyMap)) (r' : BpfResult (A * D)) :
  R a d → res_rel (both R) r r' → (commit_map a r).1 = (keep d r').1 ∧ R (commit_map a r).2 (keep d r').2.
Proof using.
  intros Ha Hr. destruct r as [[x a']|e| |], r' as [[y d']|e'| |]; simpl in *; try done; [|by subst].
  destruct Hr as [Hx Hr]. simpl in *. by subst.
Qed.

(** A key or a value read from user memory or from program memory. *)
Lemma user_read_rel {A B} um p n (P : A → B → Prop) (f : str → BpfResult A) (g : str → BpfResult B) :
  0 ≤ n → (∀ l, sized n l → Forall is_byte l → res_rel P (f l) (g l)) →
  res_rel P (copy_from_user (U := U) um p n ≫= f) (copy_from_user um p n ≫= g).
Proof.
  intros Hn Hf. pose proof (from_user_law um p n Hn) as Hl. destruct (copy_from_user um p n); simpl; try done.
  destruct Hl as [? ?]. by apply Hf.
Qed.
Lemma mem_read_rel {A B} mem p n (P : A → B → Prop) (f : str → BpfResult A) (g : str → BpfResult B) :
  map_Forall (λ _, is_byte) mem → 0 ≤ n → (∀ l, sized n l → Forall is_byte l → res_rel P (f l) (g l)) →
  res_rel P (read_mem mem p (Z.to_nat n) ≫= f) (read_mem mem p (Z.to_nat n) ≫= g).
Proof using.
  intros Hb Hn Hf. pose proof (read_outcome (E := BpfError) mem p n Hb Hn) as Hl.
  destruct (read_mem mem p _); simpl in *; try done. destruct Hl as [? ?]. by apply Hf.
Qed.

Lemma keep_pair {A B} (f : BpfResult A → B) a d (r : BpfResult (A * AnyMap)) (r' : BpfResult (A * D)) :
  R a d → res_rel (both R) r r' →
  (let '(x, a) := commit_map a r in (f x, a)).1 = (let '(x, d) := keep d r' in (f x, d)).1 ∧
  R (let '(x, a) := commit_map a r in (f x, a)).2 (let '(x, d) := keep d r' in (f x, d)).2.
Proof.
  intros Ha Hr. pose proof (keep_rel a d r r' Ha Hr) as [Hx Hr']. destruct (commit_map a r), (keep d r').
  simpl in *. by subst.
Qed.

(** One command on the map. *)
Lemma command_follows e um c st id u d :
  ev_fds e (command_fd c) = Ok id → st !! id = Some u → map_meta u = mt → 0 ≤ ev_cpu e < pc_num_cpus → R (inner_map u) d →
  follows id u st (do_command e um c st) (model_command ks vs ops (ev_cpu e) um d c).
Proof.
  intros Hfd Hu Hm Hcpu Hd. pose proof (HR (ev_cpu e) (ev_rings e) Hcpu) as Href. destruct Hmt as ([Hk0 _] & [Hv0 _] & _).
  unfold do_command, model_command. destruct c as [arg|arg|arg|arg|arg|fd]; cbn [command_fd] in Hfd; cbv zeta.
  - apply (follows_quiet (fmap (λ _, um))). unfold bpf_map_update_elem.
    apply with_fd_follows; [done|done|]; rewrite Hm. apply keep_rel; [done|].
    apply user_read_rel; [done|]. intros key Hks Hkb. apply user_read_rel; [done|]. intros value Hvs _.
    eapply res_rel_bind; [by apply (rf_update _ _ _ (Refines := Href))|by intros].
  - unfold bpf_lookup_elem. apply with_fd_follows; [done|done|]; rewrite Hm.
    apply (keep_pair (λ r, o ← r; match o with Some v => _ | None => _ end)); [done|].
    apply user_read_rel; [done|]. intros key Hks Hkb. by apply (rf_lookup _ _ _ (Refines := Href)).
  - apply (follows_quiet (fmap (λ _, um))). unfold bpf_map_delete_elem.
    apply with_fd_follows; [done|done|]; rewrite Hm. apply keep_rel; [done|].
    apply user_read_rel; [done|]. intros key Hks Hkb.
    eapply res_rel_bind; [by apply (rf_delete _ _ _ (Refines := Href))|by intros].
  - unfold bpf_map_lookup_and_delete_elem. apply with_fd_follows; [done|done|]; rewrite Hm.
    apply (keep_pair (λ r, v ← r; _)); [done|].
    apply user_read_rel; [done|]. intros key Hks Hkb. by apply (rf_take _ _ _ (Refines := Href)).
  - unfold bpf_map_get_next_key. apply with_fd_follows; [done|done|]; rewrite Hm. split; [|done]. simpl.
    destruct (na_key arg) as [ptr|]; simpl.
    + pose proof (from_user_law um ptr ks Hk0) as Hl. destruct (copy_from_user um ptr ks) as [key| | |]; simpl; try done.
      f_equal. apply (rf_next _ _ _ (Refines := Href)); [done|]. by intros k [= <-].
    + f_equal. by apply (rf_next _ _ _ (Refines := Href)).
  - apply (follows_quiet (fmap (λ _, um)) _ _ _ _ (md_freeze d, d)). unfold bpf_map_freeze.
    apply with_fd_follows; [done|done|]. split; [|done]. by apply (rf_freeze _ _ _ (Refines := Href)).
Qed.

Lemma lookup_call_follows fds mem st map key id u d (f : UnifiedMap → str → BpfResult (option str * AnyMap)) g :
  fds map = Ok id → st !! id = Some u → map_meta u = mt → map_Forall (λ _, is_byte) mem → R (inner_map u) d →
  (∀ k, a_key ks k → res_rel (both R) (f u k) (g k)) →
  follows id u st
    (let '(r, st) := with_fd fds st map (λ u,
       match read_mem mem key (Z.to_nat (key_size (map_meta u))) with
       | Ok key => let '(r, m) := commit_map (inner_map u) (f u key) in (null_on_err r, m)
       | Err e => (Err e, inner_map u) | Panic => (Panic, inner_map u) | OutOfFuel => (OutOfFuel, inner_map u)
       end) in (null_on_err r, st))
    (let '(r, d) := keep d (k ← read_mem mem key (Z.to_nat ks); g k) in (null_on_err r, d)).
Proof.
  intros Hfd Hu Hm Hb Hd Hfg. unfold with_fd. rewrite Hfd, Hu, Hm. destruct Hmt as ([Hk0 _] & _).
  pose proof (read_outcome (E := BpfError) mem key ks Hb Hk0) as Hread.
  destruct (read_mem mem key _) as [k|e| |]; [|exists (inner_map u); by split|exists (inner_map u); by split|done]. simpl.
  destruct (keep_rel (inner_map u) d (f u k) (g k) Hd (Hfg k Hread)) as [Hx Hr].
  destruct (commit_map _ _) as [r a], (keep d _) as [r' d']. simpl in *. subst r'. exists a. split; [|done]. by destruct r.
Qed.

(** One helper call on the map. *)
Lemma call_follows e mem c st id u d :
  ev_ptrs e (helper_map c) = Ok id → st !! id = Some u → map_meta u = mt → 0 ≤ ev_cpu e < pc_num_cpus →
  map_Forall (λ _, is_byte) mem → cpu_ok c → R (inner_map u) d →
  follows id u st (do_call errno e mem c st) (model_call (U := U) errno ks vs ops (ev_cpu e) mem d c).
Proof.
  intros Hfd Hu Hm Hcpu Hb Hc Hd. pose proof (HR (ev_cpu e) (ev_rings e) Hcpu) as Href. destruct Hmt as ([Hk0 _] & [Hv0 _] & _).
  unfold do_call, model_call.
  destruct c as [map key|map key cpu|map key value flags|map key|map value flags|map value|map value]; cbn [helper_map] in Hfd; cbv zeta.
  - assert (follows id u st (raw_map_lookup_elem (ev_ptrs e) (ev_cpu e) (ev_rings e) mem st map key)
      (let '(r, d) := keep d (k ← read_mem mem key (Z.to_nat ks); md_lookup (ModelOps := ops (ev_cpu e)) d k) in (null_on_err r, d))) as (a & -> & Ha).
    { apply (lookup_call_follows _ _ _ _ _ _ _ _ (λ u key, lookup_elem (BpfMapCommonOps := AnyMap_ops (ev_cpu e) (ev_rings e)) (inner_map u) key));
        try done. intros k Hk. by apply (rf_lookup _ _ _ (Refines := Href)). }
    destruct (keep d _). by exists a.
  - assert (follows id u st (raw_map_lookup_percpu_elem (ev_ptrs e) (ev_cpu e) (ev_rings e) mem st map key cpu)
      (let '(r, d) := keep d (k ← read_mem mem key (Z.to_nat ks); md_lookup_on (ModelOps := ops (ev_cpu e)) d cpu k) in (null_on_err r, d))) as (a & -> & Ha).
    { apply (lookup_call_follows _ _ _ _ _ _ _ _ (λ u key, lookup_percpu_elem (BpfMapCommonOps := AnyMap_ops (ev_cpu e) (ev_rings e)) (inner_map u) key cpu));
        try done. intros k Hk. by apply (rf_lookup_on _ _ _ (Refines := Href)). }
    destruct (keep d _). by exists a.
  - apply (follows_code (ret_code errno) (λ r, Code r mem)). apply with_fd_follows; [done|done|]; rewrite Hm. apply keep_rel; [done|].
    apply mem_read_rel; [done|done|]. intros k Hks Hkb. apply mem_read_rel; [done|done|]. intros v Hvs _.
    eapply res_rel_bind; [by apply (rf_update _ _ _ (Refines := Href))|by intros].
  - apply (follows_code (ret_code errno) (λ r, Code r mem)). apply with_fd_follows; [done|done|]; rewrite Hm. apply keep_rel; [done|].
    apply mem_read_rel; [done|done|]. intros k Hks Hkb.
    eapply res_rel_bind; [by apply (rf_delete _ _ _ (Refines := Href))|by intros].
  - apply (follows_code (ret_code errno) (λ r, Code r mem)). apply with_fd_follows; [done|done|]; rewrite Hm. apply keep_rel; [done|].
    apply mem_read_rel; [done|done|]. intros v Hvs _.
    eapply res_rel_bind; [by apply (rf_push _ _ _ (Refines := Href))|by intros].
  - unfold raw_map_pop_elem.
    match goal with |- context [keep d ?r] => match goal with |- context [with_fd (ev_ptrs e) st map ?f] =>
      assert (follows id u st (with_fd (ev_ptrs e) st map f) (keep d r)) as (a & -> & Ha) end end.
    { apply with_fd_follows; [done|done|]; rewrite Hm. apply keep_rel; [done|].
      apply mem_read_rel; [done|done|]. intros buf Hbuf _.
      eapply res_rel_bind; [by apply (rf_pop _ _ _ (Refines := Href))|]. intros [x a] [x' d'] [Hx Hr]. simpl in Hx, Hr. subst x'.
      by destruct (write_mem mem value x). }
    destruct (keep d _). by exists a.
  - unfold raw_map_peek_elem. rewrite Hfd. cbn [mbind res_bind]. rewrite Hu. cbn [unwrap mbind res_bind]. rewrite Hm.
    exists (inner_map u). assert (<[id := with_inner u (inner_map u)]> st = st) as ->.
    { apply insert_id. rewrite Hu. f_equal. by destruct u. }
    pose proof (read_outcome (E := BpfError) mem value vs Hb Hv0) as Hread.
    destruct (read_mem mem value _) as [buf|er| |]; [|by split|by split|done]. simpl. destruct Hread as [Hbuf _].
    unfold map_peek_elem. rewrite (rf_peek _ _ _ (Refines := Href) _ d) by done.
    destruct (md_peek d) as [x|er| |]; simpl; [|by split..]. destruct (write_mem mem value x); by split.
Qed.

Lemma event_follows e st id u d :
  on_map id e = true → event_ok e → st !! id = Some u → map_meta u = mt → R (inner_map u) d →
  follows id u st (do_event errno e st) (model_request errno ks vs ops d (ev_cpu e, ev_request e)).
Proof.
  intros Hon [Hcpu Hok] Hu Hm Hd. assert (target e = Ok id) as Hfd.
  { unfold on_map in Hon. destruct (target e); try done. apply Z.eqb_eq in Hon. congruence. }
  unfold do_event, target in *. destruct (ev_request e) as [um c|mem c]; simpl.
  - apply (follows_map Wrote). by apply command_follows.
  - destruct Hok. by apply call_follows.
Qed.

Lemma run_follows l st id u d :
  st !! id = Some u → map_meta u = mt → R (inner_map u) d → (∀ e, e ∈ l → on_map id e = true → event_ok e) →
  let '(rs, st') := do_events errno l st in
  let '(answers, d') := model_requests errno ks vs ops d (requests_on id l) in
  length rs = length l ∧ replies id l rs = answers ∧ ∃ a, st' !! id = Some (with_inner u a) ∧ R a d'.
Proof.
  revert st u d. induction l as [|e l IH]; intros st u d Hu Hm Hd Hok; simpl.
  - split; [done|]. split; [done|]. exists (inner_map u). split; [|done]. rewrite Hu. f_equal. by destruct u.
  - assert (∀ e', e' ∈ l → on_map id e' = true → event_ok e') as Hok' by (intros e' He'; apply Hok; by right).
    unfold requests_on. rewrite filter_cons. destruct (on_map id e) eqn:Hon.
    + rewrite decide_True by done. rewrite fmap_cons. fold (requests_on id l). cbn [model_requests].
      destruct (event_follows e st id u d Hon (Hok e ltac:(by left) Hon) Hu Hm Hd) as (a & -> & Ha).
      destruct (model_request _ _ _ _ d _) as [r d1]. cbn [fst snd] in *.
      specialize (IH (<[id := with_inner u a]> st) (with_inner u a) d1 ltac:(by rewrite lookup_insert_eq) Hm Ha Hok').
      destruct (do_events errno l _) as [rs st']. destruct (model_requests _ _ _ _ d1 _) as [answers d'].
      destruct IH as (Hl & Hr & Hend). split; [simpl; by f_equal|]. split; [|exact Hend].
      unfold replies. simpl. rewrite filter_cons_True by (simpl; by rewrite Hon). simpl. f_equal. exact Hr.
    + rewrite decide_False by (by intros []). fold (requests_on id l). pose proof (event_other errno e st id Hon) as Ho.
      destruct (do_event errno e st) as [r st1]. simpl in Ho. specialize (IH st1 u d ltac:(congruence) Hm Hd Hok').
      destruct (do_events errno l st1) as [rs st']. destruct (model_requests _ _ _ _ d _) as [answers d'].
      destruct IH as (Hl & Hr & Hend). split; [simpl; by f_equal|]. split; [|exact Hend].
      unfold replies. simpl. rewrite filter_cons_False by (simpl; rewrite Hon; by intros []). exact Hr.
Qed.
End simulation.

(** ** Creation picks the model *)
Section creation.
Context `{BuildMode} `{PerCpuLaws} {C} `{LruLaws C}.

Lemma zeros_replicate n : zeros n = replicate (Z.to_nat n) 0.
Proof. unfold zeros. induction (Z.to_nat n) as [|k IH]; simpl; by f_equal. Qed.

Lemma new_cells vs n d :
  0 < vs → 0 ≤ n → vs * n < 2 ^ 32 → ArrayMapData_new vs n = Ok d →
  cells (as_array vs n d) = replicate (Z.to_nat n) (zeros vs).
Proof.
  intros Hv Hn Hf. unfold ArrayMapData_new. rewrite (proj2 (Z.leb_gt vs 0)), andb_false_r by lia.
  rewrite arith_ok by nia. intros [= <-]. apply list_eq. intros i. unfold cells. simpl.
  destruct (decide (i < Z.to_nat n)%nat) as [Hi|Hi].
  - rewrite list_lookup_fmap, lookup_seq_lt, lookup_replicate_2 by done. simpl. f_equal. unfold cell. simpl.
    rewrite !zeros_replicate, drop_replicate, take_replicate. f_equal.
    assert (Z.of_nat (Z.to_nat (vs * n)) = vs * n) by nia. nia.
  - rewrite !lookup_ge_None_2; [done|..]; rewrite ?length_replicate, ?length_map, ?length_seq; lia.
Qed.

Lemma per_cpu_new_rel {M D} (R : M → D → Prop) (r : BpfResult M) p d :
  per_cpu_new r = Ok p → (∀ m, r = Ok m → R m d) → per_cpu_rel R p (λ _, d).
Proof.
  intros Hp Hr. apply bind_ok in Hp as (m & -> & Hp). destruct (pc_create m) as [p'|] eqn:Hc; [|done]. injection Hp as ->.
  intros c Hc'. rewrite (pc_create_law _ _ _ _ Hc) by done. by apply Hr.
Qed.

(** The object created is related to the fresh model of its kind, by a
    relation under which the code refines it. *)
Definition starts (mt : BpfMapMeta) (u : UnifiedMap (C := C)) (M : model) : Prop :=
  map_meta u = mt ∧ ∃ R : AnyMap (C := C) → mo_state M → Prop,
    R (inner_map u) (mo_new M) ∧
    ∀ cpu rings, 0 ≤ cpu < pc_num_cpus →
      Refines (key_size mt) (value_size mt) pc_num_cpus (AnyMap_ops cpu rings) (mo_ops M cpu) R.

Lemma starts_kind {K} (ops : Z → BpfMapCommonOps K) (M : model) (R : K → mo_state M → Prop) (k : K → AnyMap (C := C)) (r : BpfResult K) mt u (h h' : Heap) {S} (s s' : S) :
  (∀ cpu T (f : ∀ M, BpfMapCommonOps M → (M → AnyMap) → M → T) ring m, with_ops cpu f ring (k m) = f K (ops cpu) k m) →
  (∀ cpu, 0 ≤ cpu < pc_num_cpus → Refines (key_size mt) (value_size mt) pc_num_cpus (ops cpu) (mo_ops M cpu) R) →
  (∀ m, r = Ok m → R m (mo_new M)) →
  ((λ i, {| inner_map := i; map_meta := mt |}) <$> (k <$> r), h, s) = (Ok u, h', s') → starts mt u M.
Proof.
  intros Hk HR Hr Hc. destruct r as [m| | |]; try done. injection Hc as <- _ _. split; [done|].
  exists (λ a d, ∃ m, a = k m ∧ R m d). split; [exists m; by auto|].
  intros cpu rings Hcpu. apply (dispatch_refines _ _ _ _ _ (ops cpu)); auto.
Qed.

Lemma new_array_rel mt m :
  meta_u32 mt → value_size mt * max_entries mt < 2 ^ 32 → ArrayMap_new mt = Ok m →
  array_rel (key_size mt) (value_size mt) (max_entries mt) m (replicate (Z.to_nat (max_entries mt)) (zeros (value_size mt))).
Proof.
  intros Hmt Hf Hm. pose proof (new_array mt Hmt) as Hnew. rewrite Hm in Hnew. split; [exact Hnew|].
  destruct Hnew as (_ & Hn & Hv & Hmax & [? ? _ _]). unfold ArrayMap_new in Hm. destruct (_ || _ || _); [done|].
  apply bind_ok in Hm as (d & Hd & [= <-]). apply new_cells; try done; lia.
Qed.

Lemma new_perf_rel mt m :
  meta_u32 mt → 0 < pc_num_cpus → value_size mt * max_entries mt < 2 ^ 32 → PerfEventArrayMap_new mt pc_num_cpus = Ok m →
  perf_rel (key_size mt) (value_size mt) (max_entries mt) m (replicate (Z.to_nat (max_entries mt)) (zeros 4)).
Proof.
  intros Hmt Hn Hf Hm. pose proof (new_perf_array mt pc_num_cpus Hmt) as Hnew. rewrite Hm in Hnew. unfold PerfEventArrayMap_new in Hm.
  destruct (negb _ || negb _ || _) eqn:Hc; [done|]. apply orb_false_iff in Hc as [[_ Hv]%orb_false_iff Hmax].
  apply negb_false_iff, Z.eqb_eq in Hv, Hmax. rewrite <- Hmax in Hm, Hn. apply bind_ok in Hm as (d & Hd & [= <-]).
  split; [exact Hnew|]. split; [done|]. rewrite Hv in Hf |- *. apply new_cells; try done; lia.
Qed.

Lemma created_starts {S} `{PageOps S} mt waker init h (s : S) u h' s' :
  meta_u32 mt → fits_u32 mt → 0 < pc_num_cpus → bpf_map_create (C := C) mt waker init h s = (Ok u, h', s') →
  starts mt u (model_of mt).
Proof.
  intros Hmt Hf Hn Hc. pose proof Hmt as ([Hk0 _] & [Hv0 _] & Hn0 & _).
  assert (map_type mt ∈ [BPF_MAP_TYPE_ARRAY; BPF_MAP_TYPE_PERCPU_ARRAY; BPF_MAP_TYPE_PERF_EVENT_ARRAY] →
    value_size mt * max_entries mt < 2 ^ 32) as Hfits by exact Hf.
  pose proof (new_hash True mt Hmt) as Hhash. pose proof (new_lru (C := C) True mt Hmt) as Hlru. pose proof (new_queue True mt Hmt) as Hqueue.
  assert (∀ m, BpfHashMap_new mt = Ok m → dict_rel (key_size mt) (value_size mt) (max_entries mt) m ∅) as Hhash'.
  { intros m Hm. rewrite Hm in Hhash. split; [exact Hhash|]. unfold BpfHashMap_new in Hm. destruct (_ || _ || _); [done|]. by injection Hm as <-. }
  assert (∀ m, LruMap_new (C := C) mt = Ok m → recent_rel (key_size mt) (value_size mt) (max_entries mt) m []) as Hlru'.
  { intros m Hm. rewrite Hm in Hlru. split; [exact Hlru|]. destruct Hlru as (_ & _ & Hpos & _). unfold LruMap_new in Hm.
    destruct (_ || _ || _); [done|]. injection Hm as <-. by apply lru_new_law. }
  assert (∀ m, QueueMap_new mt = Ok m → queue_rel (key_size mt) (value_size mt) (max_entries mt) m []) as Hqueue'.
  { intros m Hm. rewrite Hm in Hqueue. split; [exact Hqueue|]. unfold QueueMap_new in Hm. destruct (_ || _ || _); [done|]. by injection Hm as <-. }
  unfold bpf_map_create in Hc. unfold model_of. destruct (map_type mt) eqn:Hkind; simpl in Hc; try done.
  - eapply (starts_kind (λ _, BpfHashMap_ops) _ _ MHash); [done|intros; by apply hash_refines|exact Hhash'|exact Hc].
  - eapply (starts_kind (λ _, ArrayMap_ops) _ _ MArray); [done|intros; apply array_refines, Hfits; rewrite !elem_of_cons; auto| |exact Hc].
    intros m Hm. apply new_array_rel; [done|by apply Hfits; rewrite !elem_of_cons; auto|done].
  - eapply (starts_kind (λ _, PerfEventArrayMap_ops) _ _ MPerfEventArray); [done|intros; eapply perf_refines, Hfits; rewrite !elem_of_cons; auto| |exact Hc].
    intros m Hm. apply new_perf_rel; [done|done|by apply Hfits; rewrite !elem_of_cons; auto|done].
  - eapply (starts_kind PerCpuHashMap_ops _ _ MPerCpuHash); [done|intros; apply percpu_refines; [done|by apply hash_refines]| |exact Hc].
    intros p Hp. by apply (per_cpu_new_rel _ _ _ _ Hp).
  - eapply (starts_kind PerCpuArrayMap_ops _ _ MPerCpuArray); [done|intros; apply percpu_array_refines; [by apply Hfits; rewrite !elem_of_cons; auto|done]| |exact Hc].
    intros p Hp. apply (per_cpu_new_rel _ _ _ _ Hp). intros m Hm. apply new_array_rel; [done|by apply Hfits; rewrite !elem_of_cons; auto|done].
  - eapply (starts_kind (λ _, LruMap_ops) _ _ MLru); [done|intros; by apply lru_refines|exact Hlru'|exact Hc].
  - eapply (starts_kind PerCpuLruMap_ops _ _ MPerCpuLru); [done|intros; apply percpu_refines; [done|by apply lru_refines]| |exact Hc].
    intros p Hp. by apply (per_cpu_new_rel _ _ _ _ Hp).
  - eapply (starts_kind (λ _, QueueMap_ops) _ _ MQueue); [done|intros; by apply queue_refines|exact Hqueue'|exact Hc].
  - eapply (starts_kind (λ _, StackMap_ops) _ _ MStack); [done|intros; by apply stack_refines| |exact Hc].
    intros m Hm. apply bind_ok in Hm as (q & Hq & [= <-]). destruct (Hqueue' q Hq) as [Ht Hd]. split; [exact Ht|]. simpl. by rewrite Hd.
  - destruct (negb waker); [done|]. destruct (RingBuf_new mt init s) as [[[base rb]| | |] s1]; try done.
    injection Hc as <- _ _. split; [done|]. exists (λ a _, a = MRingBuf base). split; [done|]. intros. apply ring_refines.
Qed.
End creation.

(** ** The refinement *)

(** Freezing an array succeeds and changes nothing: the writes that follow,
    which the command is documented to prevent, are carried out as before. *)
Lemma frozen_array_writable `{BuildMode} `{PerCpuVariantsOps} {C} `{LruCache C} {U} `{UserMem U}
    fds cpu h (um : U) (st : gmap Z (UnifiedMap (C := C))) fd id u a arg :
  fds fd = Ok id → st !! id = Some u → inner_map u = MArray a →
  (bpf_map_freeze fds cpu h st fd).1 = Ok () ∧
  bpf_map_update_elem fds cpu h um (bpf_map_freeze fds cpu h st fd).2 arg = bpf_map_update_elem fds cpu h um st arg.
Proof.
  intros Hfd Hu Ha. assert (bpf_map_freeze fds cpu h st fd = (Ok (), st)) as ->; [|done].
  unfold bpf_map_freeze, with_fd. rewrite Hfd, Hu. simpl. rewrite Ha. simpl. f_equal. apply insert_id. rewrite Hu. f_equal.
  rewrite <- Ha. by destruct u.
Qed.

(** C7: every kind of map created through bpf(2) refines its abstract map:
    an array is a list of cells, a perf event array one that can be cleared,
    a hash map a bounded dictionary, an LRU map a list of entries by recency
    that drops the last one, a queue and a stack bounded lists, a per-CPU map
    one of these for each CPU, and a ring buffer answers none of the requests.
    Whatever commands threads issue and whatever helper calls BPF programs
    make on the table of maps, in any order, on any map, every reply to a
    request on this map, errors, codes and the memory it leaves included, is
    the one the abstract map gives to the same requests, starting new.

    The requests on the map come from CPUs that exist, ask for elements of
    CPUs that exist, and find bytes in memory ([event_ok]); there is at least
    one CPU, and the byte size of an array-like map fits 32 bits
    ([fits_u32]).  The abstract maps have the code's answers where these
    differ from the commands' documentation: the flags of a lookup-and-delete
    are ignored, on queues and stacks too ([lookup_and_delete_ignores_flags]),
    and freezing an array succeeds and freezes nothing
    ([frozen_array_writable]), while every other kind refuses to be frozen. *)
Theorem maps_refine_models `{BuildMode} `{PerCpuLaws} {C} `{LruLaws C} {U} `{UserMemLaws U} {S} `{PageOps S}
    (errno : BpfError → Z) (st : gmap Z (UnifiedMap (C := C))) id mt waker init h (s : S) u h' s' (l : list event) :
  meta_u32 mt → fits_u32 mt → 0 < pc_num_cpus → bpf_map_create mt waker init h s = (Ok u, h', s') →
  st !! id = Some u → (∀ e, e ∈ l → on_map id e = true → event_ok e) →
  replies id l (do_events errno l st).1 =
    (model_requests errno (key_size mt) (value_size mt) (mo_ops (model_of mt)) (mo_new (model_of mt)) (requests_on id l)).1.
Proof.
  intros Hmt Hf Hn Hc Hu Hok.
  destruct (created_starts mt waker init h s u h' s' Hmt Hf Hn Hc) as (Hm & R & HR & Href).
  pose proof (run_follows errno (mo_ops (model_of mt)) R mt Hmt Href l st id u (mo_new (model_of mt)) Hu Hm HR Hok) as Hrun.
  destruct (do_events errno l st) as [rs st']. destruct (model_requests _ _ _ _ _ _) as [answers d].
  destruct Hrun as (_ & Hr & _). exact Hr.
Qed.

(** An LRU map of one entry per CPU, and a map of another kind next to it:
    the second key on CPU 0 takes the place of the first; CPU 1 keeps its
    own; a program on CPU 0 looks into the map of CPU 1. *)
Definition recent_meta : BpfMapMeta :=
  {| map_type := BPF_MAP_TYPE_LRU_PERCPU_HASH; key_size := 1; value_size := 1; max_entries := 1; map_flags := 0; map_name := [] |}.
Definition recent_map : UnifiedMap (C := ListLru) :=
  {| inner_map := MPerCpuLru (λ _, {| lm_key_size := 1; lm_value_size := 1; lm_data := lru_new (C := ListLru) 1 |}); map_meta := recent_meta |}.
Definition ask_on (cpu : Z) (q : request (gmap Z Z)) : event :=
  {| ev_fds fd := Ok (fd + 4); ev_ptrs p := Ok (p - 1000); ev_cpu := cpu; ev_rings := ∅; ev_request := q |}.
Definition user_on (cpu : Z) (c : command) : event := ask_on cpu (Syscall {[ 100 := 1; 200 := 9; 300 := 2 ]} c).
Definition recent_events : list event :=
  [user_on 0 (Update (fd_arg 3 100)); user_on 1 (Update (fd_arg 3 100)); user_on 0 (Update (fd_arg 3 300));
   user_on 0 (Update (fd_arg 5 100)); user_on 0 (Lookup (fd_arg 3 100)); user_on 1 (Lookup (fd_arg 3 100));
   ask_on 0 (Call {[ 16 := 1 ]} (HLookup 1007 16)); ask_on 0 (Call {[ 16 := 1 ]} (HLookupPercpu 1007 16 1))].

Lemma maps_refine_models_witness :
  let _ : BuildMode := true in
  let st : gmap Z (UnifiedMap (C := ListLru)) := {[ 7 := recent_map; 9 := dict_map ]} in
  (λ r, match r with Wrote (Ok _) => Some [] | Value (Ok o) => o | _ => None end) <$>
    replies 7 recent_events (do_events (λ _, -1) recent_events st).1 =
    [Some []; Some []; Some []; None; Some []; None; Some [9]].
Proof.
  intros b st.
  assert (∀ e, e ∈ recent_events → on_map 7 e = true → event_ok e) as Hok.
  { intros e He _. assert (map_Forall (λ _ : Z, is_byte) ({[ 16 := 1 ]} : gmap Z Z)) as Hmem
      by (apply map_Forall_insert_2; [unfold is_byte; lia|apply map_Forall_empty]).
    unfold recent_events in He. rewrite !elem_of_cons in He.
    destruct He as [->|[->|[->|[->|[->|[->|[->|[->|He]]]]]]]]; [..|by apply not_elem_of_nil in He];
      (split; [simpl; lia|]); simpl; auto; (split; [exact Hmem|simpl; lia || done]). }
  rewrite (maps_refine_models (S := ListKernel) (λ _, -1) st 7 recent_meta false [] ∅ (Build_ListKernel 0 0 []) recent_map ∅ (Build_ListKernel 0 0 [])
    recent_events ltac:(by split_and!) ltac:(intros Hin; by apply (bool_decide_unpack _)) ltac:(simpl; lia) eq_refl eq_refl Hok).
  vm_compute. reflexivity.
Defined.
