(* ===== verification/Preproc.v ===== *)
(** The preprocessor of BPF programs (bpf-basic/src/preprocessor.rs): map
    descriptors in 64-bit immediate loads become addresses.

    The kernel translates bytes to instructions and knows its descriptors
    and the addresses of its maps; these are parameters. *)
From S2P Require Import Prelude BpfBase RingMem RingBuf Maps Unified.

(** [EbpfInst]; an immediate is an [i32]. *)
Class EbpfInst (I : Type) := {
  opc : I → Z;
  imm : I → Z;
  src : I → Z;
  set_imm : I → Z → I;
  to_array : I → str;
}.

Definition LD_DW_IMM : Z := 0x18.
Definition BPF_PSEUDO_MAP_FD : Z := 1.
Definition BPF_PSEUDO_MAP_VALUE : Z := 2.

Record EbpfPreProcessor := { new_insn : str; raw_file_ptr : list Z }.
Definition get_new_insn (p : EbpfPreProcessor) : str := new_insn p.
Definition get_raw_file_ptr (p : EbpfPreProcessor) : list Z := raw_file_ptr p.

Section preprocess.
Context `{BuildMode} `{PerCpuVariantsOps} {C : Type} `{LruCache C} {I : Type} `{EbpfInst I}.
Context (translate_instruction : str → BpfResult (list I)).
Context (fd_lookup : Z → BpfResult Z) (map_ptr_from_fd : Z → BpfResult Z) (values_addr : Z → Z).
Context (cpu : Z) (h : Heap) (maps : gmap Z (UnifiedMap (C := C))).
#[local] Instance here_ops : BpfMapCommonOps (AnyMap (C := C)) := AnyMap_ops cpu h.

(** The start of [map_values_ptr_range] of the map with this descriptor. *)
Definition values_ptr_from_fd (fd : Z) : BpfResult Z :=
  id ← fd_lookup fd;
  u ← unwrap (maps !! id);
  _ ← map_values_len (inner_map u);
  Ok (values_addr id).

(** The address to load, and the map pointer to remember. *)
Definition reloc_target (insn next_insn : I) : BpfResult (option Z * list Z) :=
  let map_fd := wrapu 64 (imm insn) in
  if src insn =? BPF_PSEUDO_MAP_VALUE then
    start ← values_ptr_from_fd (wrapu 32 map_fd);
    let offset := wrapu 64 (imm next_insn) in
    p ← arith 64 (start + offset);
    Ok (Some p, [])
  else if src insn =? BPF_PSEUDO_MAP_FD then
    map_ptr ← map_ptr_from_fd (wrapu 32 map_fd);
    Ok (Some map_ptr, [map_ptr])
  else Ok (None, []).

(** [ptr as i32] and [(ptr >> 32) as i32]. *)
Definition reloc_pair (insn next_insn : I) (ptr : Z) : I * I :=
  (set_imm insn (wraps 32 ptr), set_imm next_insn (wraps 32 (Z.shiftr ptr 32))).

Fixpoint preprocess_loop (fuel : nat) (index : nat) (fmt_insn : list I) (raw : list Z) : BpfResult (list I * list Z) :=
  match fuel with
  | O => OutOfFuel
  | S fuel =>
      if (length fmt_insn <=? index)%nat then Ok (fmt_insn, raw) else
      insn ← unwrap (fmt_insn !! index);
      if opc insn =? LD_DW_IMM then
        next_insn ← unwrap (fmt_insn !! (index + 1)%nat);
        '(target, ptrs) ← reloc_target insn next_insn;
        match target with
        | Some ptr =>
            let '(insn, next_insn) := reloc_pair insn next_insn ptr in
            preprocess_loop fuel (index + 2) (<[(index + 1)%nat := next_insn]> (<[index := insn]> fmt_insn)) (raw ++ ptrs)
        | None => preprocess_loop fuel (index + 1) fmt_insn raw
        end
      else preprocess_loop fuel (index + 1) fmt_insn raw
  end.

(** [instructions[idx..idx + 8].copy_from_slice(&bytes)]. *)
Fixpoint write_back (idx : nat) (l : list I) (instructions : str) : BpfResult str :=
  match l with
  | [] => Ok instructions
  | i :: l => x ← unwrap (slice_copy instructions idx (idx + 8) (to_array i)); write_back (idx + 8) l x
  end.

Definition preprocess (instructions : str) : BpfResult EbpfPreProcessor :=
  fmt_insn ← translate_instruction instructions;
  '(l, raw) ← preprocess_loop (length fmt_insn + 1) 0 fmt_insn [];
  x ← write_back 0 l instructions;
  Ok {| new_insn := x; raw_file_ptr := raw |}.

(** ** What it computes *)

(** Every 64-bit load of a map descriptor or of a value in a map, with its
    two immediates replaced. *)
Fixpoint relocated (l : list I) : BpfResult (list I * list Z) :=
  match l with
  | [] => Ok ([], [])
  | insn :: rest =>
      if opc insn =? LD_DW_IMM then
        match rest with
        | [] => Panic
        | next_insn :: rest' =>
            '(target, ptrs) ← reloc_target insn next_insn;
            match target with
            | Some ptr =>
                '(r, raw) ← relocated rest';
                Ok ((reloc_pair insn next_insn ptr).1 :: (reloc_pair insn next_insn ptr).2 :: r, ptrs ++ raw)
            | None => '(r, raw) ← relocated rest; Ok (insn :: r, raw)
            end
        end
      else '(r, raw) ← relocated rest; Ok (insn :: r, raw)
  end.

Lemma loop_relocated fuel done_ l raw :
  (length l < fuel)%nat →
  preprocess_loop fuel (length done_) (done_ ++ l) raw = '(r, ptrs) ← relocated l; Ok (done_ ++ r, raw ++ ptrs).
Proof.
  revert done_ l raw. induction fuel as [|fuel IH]; intros done_ l raw Hl; [lia|]. cbn [preprocess_loop].
  destruct l as [|insn rest].
  { rewrite app_nil_r, Nat.leb_refl. cbn. by rewrite !app_nil_r. }
  rewrite (proj2 (Nat.leb_gt _ _)) by (rewrite length_app; simpl; lia).
  rewrite (list_lookup_middle done_ rest insn _ eq_refl). cbn [unwrap mbind res_bind relocated].
  assert (∀ raw', preprocess_loop fuel (length done_ + 1) (done_ ++ insn :: rest) raw' =
    '(r, ptrs) ← relocated rest; Ok (done_ ++ insn :: r, raw' ++ ptrs)) as Hskip.
  { intros raw'. pose proof (IH (done_ ++ [insn]) rest raw' ltac:(simpl in Hl; lia)) as E.
    rewrite length_app, <- app_assoc in E. simpl in E. rewrite E. destruct (relocated rest) as [[r ps]|e| |]; try done.
    cbn. by rewrite <- app_assoc. }
  destruct (opc insn =? LD_DW_IMM); [|rewrite Hskip; by destruct (relocated rest) as [[r ps]|e| |]].
  destruct rest as [|next rest'].
  { rewrite lookup_app_r by lia. by replace (length done_ + 1 - length done_)%nat with 1%nat by lia. }
  rewrite lookup_app_r by lia. replace (length done_ + 1 - length done_)%nat with 1%nat by lia.
  cbn [lookup list_lookup unwrap mbind res_bind].
  destruct (reloc_target insn next) as [[[ptr|] ptrs]|e| |]; cbn [mbind res_bind]; try done.
  - destruct (reloc_pair insn next ptr) as [i' n'] eqn:Hp. cbn [fst snd].
    rewrite insert_app_r_alt, Nat.sub_diag by lia. cbn [insert list_insert].
    rewrite insert_app_r_alt by lia. replace (length done_ + 1 - length done_)%nat with 1%nat by lia. cbn [insert list_insert].
    pose proof (IH (done_ ++ [i'; n']) rest' (raw ++ ptrs) ltac:(simpl in Hl; lia)) as E.
    rewrite length_app, <- app_assoc in E. simpl in E. rewrite E. destruct (relocated rest') as [[r ps]|e| |]; try done.
    cbn. by rewrite <- !app_assoc.
  - rewrite Hskip. destruct (relocated _) as [[r ps]|e| |]; try done.
Qed.

Lemma relocated_length l r raw : relocated l = Ok (r, raw) → length r = length l.
Proof.
  remember (length l) as n eqn:Hn. revert l Hn r raw. induction n as [n IH] using lt_wf_ind. intros l -> r raw Hr.
  destruct l as [|insn rest]; cbn [relocated] in Hr; [by simplify_eq|].
  assert (∀ x raw', relocated rest = Ok (x, raw') → length x = length rest) as Hrest.
  { intros x raw' Hx. eapply (IH (length rest)); [simpl; lia|done|done]. }
  destruct (opc insn =? LD_DW_IMM).
  - destruct rest as [|next rest']; [done|].
    destruct (reloc_target insn next) as [[[ptr|] ptrs]|e| |]; cbn [mbind res_bind] in Hr; try done.
    + destruct (relocated rest') as [[x raw']|e| |] eqn:Hx; cbn [mbind res_bind] in Hr; simplify_eq.
      simpl. do 2 f_equal. eapply (IH (length rest')); [simpl; lia|done|done].
    + destruct (relocated (next :: rest')) as [[x raw']|e| |] eqn:Hx; cbn [mbind res_bind] in Hr; simplify_eq.
      simpl. f_equal. by eapply Hrest.
  - destruct (relocated rest) as [[x raw']|e| |] eqn:Hx; cbn [mbind res_bind] in Hr; simplify_eq. simpl. f_equal. by eapply Hrest.
Qed.
End preprocess.

(** What the kernel's instructions promise: eight bytes, and an immediate
    that can be set without touching the rest. *)
Class EbpfInstLaws (I : Type) `{EbpfInst I} : Prop := {
  to_array_length i : length (to_array i) = 8%nat;
  imm_set i x : - 2 ^ 31 ≤ x < 2 ^ 31 → imm (set_imm i x) = x;
  opc_set i x : opc (set_imm i x) = opc i;
  src_set i x : src (set_imm i x) = src i;
}.

(** The value a 64-bit immediate load puts in its register. *)
Definition dw_imm {I : Type} `{EbpfInst I} (insn next_insn : I) : Z := wrapu 32 (imm insn) + wrapu 32 (imm next_insn) * 2 ^ 32.
