(* ===== verification/ProgLoad.v ===== *)
(** Loading programs (bpf-basic/src: prog/mod.rs, raw_tracepoint.rs): the
    fields of [bpf_attr] they read and what becomes of them.  Reads of user
    memory are the kernel's. *)
From S2P Require Import Prelude Text BpfBase Unified.

(** [bpf_prog_type::try_from] and [bpf_attach_type::try_from]: a derived
    conversion that accepts the discriminants, 0 to 33 and 0 to 56. *)
Definition MAX_BPF_PROG_TYPE : Z := 33.
Definition MAX_BPF_ATTACH_TYPE : Z := 56.
Definition int_enum (max z : Z) : option Z := if (0 <=? z) && (z <=? max) then Some z else None.

(** The fields of [bpf_attr__bindgen_ty_4] that are read. *)
Record prog_attr := {
  at_prog_type : Z;
  at_insn_cnt : Z;
  at_insns : Z;
  at_license : Z;
  at_log_level : Z;
  at_log_size : Z;
  at_log_buf : Z;
  at_kern_version : Z;
  at_prog_flags : Z;
  at_prog_name : str;
  at_expected_attach_type : Z;
}.

Record BpfProgMeta := {
  prog_flags : Z;
  prog_type : Z;
  expected_attach_type : Z;
  insns : option str;
  license : str;
  kern_version : Z;
  prog_name : str;
}.
(** The instructions once taken. *)
Definition take_insns (m : BpfProgMeta) : option str * BpfProgMeta :=
  (insns m, {| prog_flags := prog_flags m; prog_type := prog_type m; expected_attach_type := expected_attach_type m;
               insns := None; license := license m; kern_version := kern_version m; prog_name := prog_name m |}).

Section load.
Context `{BuildMode} {U : Type} `{UserMem U} (string_from_user_cstr : Z → BpfResult str).

Definition try_from_bpf_attr (um : U) (u : prog_attr) : BpfResult BpfProgMeta :=
  ty ← ok_or (int_enum MAX_BPF_PROG_TYPE (at_prog_type u)) EINVAL;
  attach ← ok_or (int_enum MAX_BPF_ATTACH_TYPE (at_expected_attach_type u)) EINVAL;
  name ← ok_or (cstr_until_nul (at_prog_name u)) EINVAL;
  if negb (utf8_valid name) then Err EINVAL else
  lic ← (if negb (at_license u =? 0) then string_from_user_cstr (at_license u) else Ok []);
  buf ← (if at_insns u =? 0 then (if at_insn_cnt u =? 0 then Ok [] else Panic)
         else copy_from_user um (at_insns u) (at_insn_cnt u * 8));
  Ok {| prog_flags := at_prog_flags u; prog_type := ty; expected_attach_type := attach; insns := Some buf;
        license := lic; kern_version := at_kern_version u; prog_name := name |}.

(** *** Verifier information *)
Definition LOG_DEBUG : Z := 1.
Definition LOG_VERBOSE : Z := Z.lor 2 LOG_DEBUG.
Definition LOG_STATS : Z := 4.
(** [from_bits_truncate]: the unknown bits are dropped. *)
Definition VerifierLogLevel_ALL : Z := Z.lor LOG_DEBUG (Z.lor LOG_VERBOSE LOG_STATS).
Record BpfProgVerifierInfo := { log_level : Z; log_buf_size : Z; log_buf_ptr : Z }.
Definition verifier_info_from (u : prog_attr) : BpfProgVerifierInfo :=
  {| log_level := Z.land (at_log_level u) VerifierLogLevel_ALL; log_buf_size := at_log_size u; log_buf_ptr := at_log_buf u |}.

(** *** Raw tracepoints *)
Record BpfRawTracePointArg := { rt_name : str; rt_prog_fd : Z }.
Definition raw_tracepoint_from (name_ptr prog_fd : Z) : BpfResult BpfRawTracePointArg :=
  name ← string_from_user_cstr name_ptr; Ok {| rt_name := name; rt_prog_fd := prog_fd |}.


(** No instructions but a count that is not zero, both from user space. *)
Lemma null_insns_panics um u name :
  int_enum MAX_BPF_PROG_TYPE (at_prog_type u) = Some (at_prog_type u) →
  int_enum MAX_BPF_ATTACH_TYPE (at_expected_attach_type u) = Some (at_expected_attach_type u) →
  cstr_until_nul (at_prog_name u) = Some name → utf8_valid name = true → at_license u = 0 →
  at_insns u = 0 → at_insn_cnt u ≠ 0 → try_from_bpf_attr um u = Panic.
Proof.
  intros H1 H2 H3 H4 H5 H6 H7. unfold try_from_bpf_attr. rewrite H1, H2, H3, H5, H6. cbn [ok_or mbind res_bind].
  rewrite H4. cbn [negb]. rewrite !Z.eqb_refl. cbn [negb mbind res_bind]. by destruct (Z.eqb_spec (at_insn_cnt u) 0).
Qed.
End load.
