(* ===== verification/HelperProps.v ===== *)
(** What the preprocessor does to a program, and the helpers that do more
    than call a map: the printk format scan and the user string read. *)
From S2P Require Import Prelude Text BpfBase RingMem RingBuf Maps Unified MapProps UnifiedProps Preproc ProgLoad Helper.

(** ** Preprocessor *)
Lemma wraps32_range z : - 2 ^ 31 ≤ wraps 32 z < 2 ^ 31.
Proof. unfold wraps. pose proof (Z.mod_pos_bound (z + 2 ^ (32 - 1)) (2 ^ 32) ltac:(lia)). lia. Qed.
Lemma wrapu_wraps32 z : wrapu 32 (wraps 32 z) = wrapu 32 z.
Proof.
  unfold wrapu, wraps. rewrite Zminus_mod, Zmod_mod, <- Zminus_mod. f_equal. lia.
Qed.

Section preprocess.
Context `{BuildMode} `{PerCpuVariantsOps} {C : Type} `{LruCache C} {I : Type} `{EbpfInstLaws I}.
Context (translate_instruction : str → BpfResult (list I)).
Context (fd_lookup : Z → BpfResult Z) (map_ptr_from_fd : Z → BpfResult Z) (values_addr : Z → Z).
Context (cpu : Z) (h : Heap) (maps : gmap Z (UnifiedMap (C := C))).

Lemma write_back_spec l pre rest :
  length rest = (8 * length l)%nat →
  write_back (length pre) l (pre ++ rest) = Ok (pre ++ concat (map to_array l)).
Proof.
  revert pre rest. induction l as [|i l IH]; intros pre rest Hr; cbn [write_back].
  { apply nil_length_inv in Hr as ->. done. }
  pose proof (to_array_length i) as Hi. simpl in Hr.
  rewrite <- (take_drop 8 rest).
  assert (slice_copy (pre ++ take 8 rest ++ drop 8 rest) (length pre) (length pre + 8) (to_array i) =
    Some ((pre ++ to_array i) ++ drop 8 rest)) as ->.
  { unfold slice_copy. rewrite (proj2 (Nat.leb_le _ _)) by lia.
    rewrite (proj2 (Nat.leb_le _ _)) by (rewrite take_drop, length_app; lia).
    rewrite (proj2 (Nat.eqb_eq _ _)) by lia. cbn [andb]. f_equal. unfold splice.
    rewrite take_app_length, Hi, <- app_assoc. do 2 f_equal.
    rewrite drop_app_ge by lia. replace (length pre + 8 - length pre)%nat with 8%nat by lia.
    by rewrite take_drop. }
  cbn [unwrap mbind res_bind]. replace (length pre + 8)%nat with (length (pre ++ to_array i)) by (rewrite length_app; lia).
  rewrite IH by (rewrite length_drop; lia). simpl. by rewrite <- app_assoc.
Qed.

(** What the instruction set says of a 64-bit load, opcode 0x18, whose source
    register is 1 or 2: the first immediate names a map descriptor, and the
    register gets the address of the map, or that of the first value in the
    map plus the second immediate, a signed offset. *)
Definition map_load (insn : I) : Prop := opc insn = 0x18 ∧ (src insn = 1 ∨ src insn = 2).
Definition descriptor (insn : I) : Z := imm insn mod 2 ^ 32.
Definition first_value (fd : Z) : BpfResult Z :=
  id ← fd_lookup fd;
  match maps !! id with
  | Some u => _ ← map_values_len (BpfMapCommonOps := AnyMap_ops cpu h) (inner_map u); Ok (values_addr id)
  | None => Panic
  end.

(** [a] and [b] are the pair [insn], [next] with [ptr] in its immediates. *)
Definition loads (insn next : I) (ptr : Z) (a b : I) : Prop :=
  a = set_imm insn (imm a) ∧ b = set_imm next (imm b) ∧ - 2 ^ 31 ≤ imm a < 2 ^ 31 ∧ - 2 ^ 31 ≤ imm b < 2 ^ 31 ∧
  dw_imm a b = ptr mod 2 ^ 64.

(** An address that a checked build computes without overflow, the offset
    taken as unsigned: a negative offset overflows. *)
Definition value_fits (start off : Z) : Prop := overflow_checks = true → start + off mod 2 ^ 64 < 2 ^ 64.

(** A program, and what is made of it: the program rewritten and the map
    pointers, or the failure of the first load that fails. *)
Inductive reloc : list I → BpfResult (list I * list Z) → Prop :=
  | reloc_end : reloc [] (Ok ([], []))
  | reloc_keep insn rest r :
      ¬ map_load insn → (opc insn = 0x18 → rest ≠ []) → reloc rest r →
      reloc (insn :: rest) ('(l, raw) ← r; Ok (insn :: l, raw))
  | reloc_map insn next rest ptr a b r :
      opc insn = 0x18 → src insn = 1 → map_ptr_from_fd (descriptor insn) = Ok ptr → loads insn next ptr a b → reloc rest r →
      reloc (insn :: next :: rest) ('(l, raw) ← r; Ok (a :: b :: l, ptr :: raw))
  | reloc_value insn next rest start a b r :
      opc insn = 0x18 → src insn = 2 → first_value (descriptor insn) = Ok start → value_fits start (imm next) →
      loads insn next (start + imm next) a b → reloc rest r →
      reloc (insn :: next :: rest) ('(l, raw) ← r; Ok (a :: b :: l, raw))
  | reloc_no_map insn next rest :
      opc insn = 0x18 → src insn = 1 → (∀ ptr, map_ptr_from_fd (descriptor insn) ≠ Ok ptr) →
      reloc (insn :: next :: rest) (_ ← map_ptr_from_fd (descriptor insn); Panic)
  | reloc_no_value insn next rest :
      opc insn = 0x18 → src insn = 2 → (∀ start, first_value (descriptor insn) ≠ Ok start) →
      reloc (insn :: next :: rest) (_ ← first_value (descriptor insn); Panic)
  | reloc_overflow insn next rest start :
      opc insn = 0x18 → src insn = 2 → first_value (descriptor insn) = Ok start → ¬ value_fits start (imm next) →
      reloc (insn :: next :: rest) Panic
  | reloc_cut insn : opc insn = 0x18 → reloc [insn] Panic.

Lemma reloc_pair_loads insn next ptr :
  loads insn next ptr (reloc_pair insn next ptr).1 (reloc_pair insn next ptr).2.
Proof.
  unfold loads, reloc_pair, dw_imm. cbn [fst snd]. pose proof (wraps32_range ptr). pose proof (wraps32_range (Z.shiftr ptr 32)).
  rewrite !imm_set by done. split_and!; try done; try lia. rewrite !wrapu_wraps32. unfold wrapu.
  rewrite Z.shiftr_div_pow2 by lia. change (2 ^ 64) with (2 ^ 32 * 2 ^ 32). rewrite Z.rem_mul_r by lia. lia.
Qed.

Lemma wrapu32_inj x y : - 2 ^ 31 ≤ x < 2 ^ 31 → - 2 ^ 31 ≤ y < 2 ^ 31 → wrapu 32 x = wrapu 32 y → x = y.
Proof.
  unfold wrapu. intros Hx Hy He. pose proof (Z.div_mod x (2 ^ 32) ltac:(lia)). pose proof (Z.div_mod y (2 ^ 32) ltac:(lia)).
  assert (x / 2 ^ 32 = -1 ∨ x / 2 ^ 32 = 0) by (pose proof (Z.mod_pos_bound x (2 ^ 32)); lia).
  assert (y / 2 ^ 32 = -1 ∨ y / 2 ^ 32 = 0) by (pose proof (Z.mod_pos_bound y (2 ^ 32)); lia). lia.
Qed.

(** The address determines the pair. *)
Lemma loads_fun insn next ptr a b a' b' : loads insn next ptr a b → loads insn next ptr a' b' → a = a' ∧ b = b'.
Proof.
  intros (Ea & Eb & Ha & Hb & Hp) (Ea' & Eb' & Ha' & Hb' & Hp'). unfold dw_imm in *.
  pose proof (wrapu_range 32 (imm a) ltac:(lia)). pose proof (wrapu_range 32 (imm a') ltac:(lia)).
  pose proof (wrapu_range 32 (imm b) ltac:(lia)). pose proof (wrapu_range 32 (imm b') ltac:(lia)).
  assert (imm a = imm a') by (apply wrapu32_inj; [done|done|lia]).
  assert (imm b = imm b') by (apply wrapu32_inj; [done|done|lia]). split; congruence.
Qed.

Lemma wrapu32_64 x : wrapu 32 (wrapu 64 x) = x mod 2 ^ 32.
Proof. unfold wrapu. change (2 ^ 64) with (2 ^ 32 * 2 ^ 32). apply Z.mod_mod_divide. by exists (2 ^ 32). Qed.

(** The code's target of a load is the address the specification gives. *)
Lemma target_map insn next :
  src insn = 1 →
  reloc_target fd_lookup map_ptr_from_fd values_addr cpu h maps insn next =
    (ptr ← map_ptr_from_fd (descriptor insn); Ok (Some ptr, [ptr])).
Proof. intros Hs. unfold reloc_target, descriptor. by rewrite Hs, wrapu32_64. Qed.

Lemma target_value insn next :
  src insn = 2 →
  reloc_target fd_lookup map_ptr_from_fd values_addr cpu h maps insn next =
    (start ← first_value (descriptor insn); p ← arith 64 (start + wrapu 64 (imm next)); Ok (Some p, [])).
Proof.
  intros Hs. unfold reloc_target, descriptor. rewrite Hs, wrapu32_64. cbn [Z.eqb Pos.eqb BPF_PSEUDO_MAP_VALUE].
  unfold first_value, values_ptr_from_fd. destruct (fd_lookup _) as [id| | |]; try done. cbn [mbind res_bind].
  by destruct (maps !! id).
Qed.

Lemma target_other insn next :
  src insn ≠ 1 → src insn ≠ 2 → reloc_target fd_lookup map_ptr_from_fd values_addr cpu h maps insn next = Ok (None, []).
Proof.
  intros Hs1 Hs2. unfold reloc_target. by rewrite (proj2 (Z.eqb_neq _ BPF_PSEUDO_MAP_VALUE)), (proj2 (Z.eqb_neq _ BPF_PSEUDO_MAP_FD)).
Qed.

Context (Haddr : ∀ id, 0 ≤ values_addr id).

Lemma first_value_pos fd start : first_value fd = Ok start → 0 ≤ start.
Proof.
  unfold first_value. intros Hf. apply bind_ok in Hf as (id & _ & Hf). destruct (maps !! id); [|done].
  apply bind_ok in Hf as (? & _ & [= <-]). apply Haddr.
Qed.

Lemma value_arith start off :
  0 ≤ start →
  (value_fits start off ∧ ∃ p, arith (E := BpfError) 64 (start + wrapu 64 off) = Ok p ∧ p mod 2 ^ 64 = (start + off) mod 2 ^ 64) ∨
  (¬ value_fits start off ∧ arith (E := BpfError) 64 (start + wrapu 64 off) = Panic).
Proof.
  intros Hs. unfold value_fits, arith. change (off mod 2 ^ 64) with (wrapu 64 off). pose proof (wrapu_range 64 off ltac:(lia)).
  assert ((start + wrapu 64 off) mod 2 ^ 64 = (start + off) mod 2 ^ 64) as Hm by (unfold wrapu; by rewrite Zplus_mod_idemp_r).
  destruct (in_u 64 _) eqn:Hu.
  - left. apply in_u_spec in Hu. split; [lia|]. by eexists.
  - assert (¬ start + wrapu 64 off < 2 ^ 64) as Hn by (intros Hlt; rewrite (proj2 (in_u_spec _ _)) in Hu by lia; done).
    destruct overflow_checks; [right; split; [tauto|done]|]. left. split; [done|]. eexists. split; [done|].
    unfold wrapu at 1. by rewrite Zmod_mod.
Qed.

Lemma loads_mod insn next p p' a b : p mod 2 ^ 64 = p' mod 2 ^ 64 → loads insn next p a b → loads insn next p' a b.
Proof. unfold loads. by intros ->. Qed.

#[local] Abbreviation relocated_ := (relocated fd_lookup map_ptr_from_fd values_addr cpu h maps).

Lemma reloc_total insns : reloc insns (relocated_ insns).
Proof.
  induction insns as [insns IH] using (induction_ltof1 _ length); unfold ltof in IH.
  destruct insns as [|insn rest]; [constructor|]. cbn [relocated].
  assert (reloc rest (relocated_ rest)) as Hrest by (apply IH; simpl; lia).
  destruct (Z.eqb_spec (opc insn) LD_DW_IMM) as [Ho|Ho]; [|by apply reloc_keep; [intros [? _]| |]].
  destruct rest as [|next rest]; [by constructor|].
  assert (reloc rest (relocated_ rest)) as Hrest' by (apply IH; simpl; lia).
  destruct (decide (src insn = 1)) as [Hs1|Hs1]; [|destruct (decide (src insn = 2)) as [Hs2|Hs2]].
  - rewrite target_map by done. destruct (map_ptr_from_fd (descriptor insn)) as [ptr|e| |] eqn:Hp.
    + eapply reloc_map; [done|done|exact Hp|apply reloc_pair_loads|exact Hrest'].
    + pose proof (reloc_no_map insn next rest Ho Hs1) as Hf. rewrite Hp in Hf. by apply Hf.
    + pose proof (reloc_no_map insn next rest Ho Hs1) as Hf. rewrite Hp in Hf. by apply Hf.
    + pose proof (reloc_no_map insn next rest Ho Hs1) as Hf. rewrite Hp in Hf. by apply Hf.
  - rewrite target_value by done. destruct (first_value (descriptor insn)) as [start|e| |] eqn:Hp.
    + cbn [mbind res_bind]. destruct (value_arith start (imm next) (first_value_pos _ _ Hp)) as [(Hfit & p & -> & Hm)|(Hfit & ->)]; cbn [mbind res_bind].
      * eapply reloc_value; [done|done|exact Hp|done|eapply loads_mod; [exact Hm|apply reloc_pair_loads]|exact Hrest'].
      * by eapply reloc_overflow.
    + pose proof (reloc_no_value insn next rest Ho Hs2) as Hf. rewrite Hp in Hf. by apply Hf.
    + pose proof (reloc_no_value insn next rest Ho Hs2) as Hf. rewrite Hp in Hf. by apply Hf.
    + pose proof (reloc_no_value insn next rest Ho Hs2) as Hf. rewrite Hp in Hf. by apply Hf.
  - rewrite target_other by done. cbn [mbind res_bind]. apply reloc_keep; [intros [_ []]; done|done|exact Hrest].
Qed.

Lemma wide_load (insn : I) : opc insn = 0x18 → (opc insn =? LD_DW_IMM) = true.
Proof. by intros ->. Qed.

(** The specification has one answer, the code's. *)
Lemma reloc_relocated insns r : reloc insns r → relocated_ insns = r.
Proof.
  induction 1 as [|insn rest r Hno Hne Hr IH|insn next rest ptr a b r Ho Hs Hp Hl Hr IH|insn next rest start a b r Ho Hs Hp Hfit Hl Hr IH
    |insn next rest Ho Hs Hp|insn next rest Ho Hs Hp|insn next rest start Ho Hs Hp Hfit|insn Ho]; [done|..]; cbn [relocated].
  - destruct (Z.eqb_spec (opc insn) LD_DW_IMM) as [Ho|Ho]; [|by rewrite IH].
    destruct rest as [|next rest]; [by destruct (Hne Ho)|].
    rewrite target_other by (intros Hs; apply Hno; split; [done|by auto]). cbn [mbind res_bind]. by rewrite IH.
  - rewrite (wide_load _ Ho), target_map, Hp by done. cbn [mbind res_bind]. rewrite IH.
    by destruct (loads_fun _ _ _ _ _ _ _ (reloc_pair_loads insn next ptr) Hl) as [-> ->].
  - rewrite (wide_load _ Ho), target_value, Hp by done. cbn [mbind res_bind].
    destruct (value_arith start (imm next) (first_value_pos _ _ Hp)) as [(_ & p & -> & Hm)|(Hf & _)]; [|done]. cbn [mbind res_bind]. rewrite IH.
    destruct (loads_fun _ _ _ _ _ _ _ (loads_mod _ _ _ _ _ _ Hm (reloc_pair_loads insn next p)) Hl) as [-> ->]. by destruct r as [[]| | |].
  - rewrite (wide_load _ Ho), target_map by done. by destruct (map_ptr_from_fd _) as [ptr|e| |] eqn:Hm; [destruct (Hp ptr)|..].
  - rewrite (wide_load _ Ho), target_value by done. by destruct (first_value _) as [ptr|e| |] eqn:Hm; [destruct (Hp ptr)|..].
  - rewrite (wide_load _ Ho), target_value, Hp by done. cbn [mbind res_bind].
    by destruct (value_arith start (imm next) (first_value_pos _ _ Hp)) as [(Hf & _)|(_ & ->)].
  - by rewrite (wide_load _ Ho).
Qed.

(** C19: preprocessing a program rewrites exactly the 64-bit loads of a map
    (opcode 0x18, source register 1) or of the first value of a map (source
    register 2), in order and each once: the two immediates of such a load
    become the low and the high half of the map's address, or of the first
    value's plus the signed offset in the second immediate; every other
    instruction and field is as before, and the map pointers are collected in
    program order.  When a load fails, by its descriptor, for want of values
    or of a second half, or, with overflow checks on, because its address
    overflows (a negative offset does), the first that fails gives the
    outcome.  It always ends.  The program decodes into its 8-byte
    instructions, and the addresses of values are not negative. *)
Theorem preprocess_correct instructions insns :
  translate_instruction instructions = Ok insns → length instructions = (8 * length insns)%nat →
  (∃ r, reloc insns r) ∧
  ∀ r, reloc insns r →
    preprocess translate_instruction fd_lookup map_ptr_from_fd values_addr cpu h maps instructions =
      ('(l, raw) ← r; Ok {| new_insn := concat (map to_array l); raw_file_ptr := raw |}).
Proof.
  intros Ht Hlen. split; [eexists; apply reloc_total|]. intros r0 <-%reloc_relocated.
  unfold preprocess. rewrite Ht. cbn [mbind res_bind].
  pose proof (loop_relocated fd_lookup map_ptr_from_fd values_addr cpu h maps (length insns + 1) [] insns [] ltac:(lia)) as E.
  cbn [length app] in E. rewrite E.
  destruct (relocated_ insns) as [[r ptrs]|e| |] eqn:Hr; cbn [mbind res_bind]; try done.
  apply relocated_length in Hr.
  pose proof (write_back_spec r [] instructions ltac:(rewrite Hr; done)) as W. cbn [length app] in W.
  by rewrite W.
Qed.

(** A wide load in the last slot has no second half to look at. *)
Lemma wide_load_last_panics instructions insns i :
  translate_instruction instructions = Ok (insns ++ [i]) → (∀ j, j ∈ insns → opc j ≠ LD_DW_IMM) → opc i = LD_DW_IMM →
  preprocess translate_instruction fd_lookup map_ptr_from_fd values_addr cpu h maps instructions = Panic.
Proof.
  intros Ht Hno Hi. unfold preprocess. rewrite Ht. cbn [mbind res_bind].
  pose proof (loop_relocated fd_lookup map_ptr_from_fd values_addr cpu h maps (length (insns ++ [i]) + 1) [] (insns ++ [i]) [] ltac:(lia)) as E.
  cbn [length app] in E. rewrite E. clear E Ht.
  assert (relocated fd_lookup map_ptr_from_fd values_addr cpu h maps (insns ++ [i]) = Panic) as ->; [|done].
  induction insns as [|j insns IH]; cbn [app relocated].
  - by rewrite Hi.
  - rewrite (proj2 (Z.eqb_neq _ _)) by (apply Hno; left). rewrite IH by (intros k Hk; apply Hno; by right). done.
Qed.
End preprocess.

(** ** Formats *)

(** A format string as C reads it. *)
Inductive Piece := Lit (c : Z) | Percent | Spec (flags : str) (t : Z).
Definition render (p : Piece) : str :=
  match p with Lit c => [c] | Percent => bs "%%" | Spec f t => ch "%" :: f ++ [t] end.
Definition piece_ok (p : Piece) : Prop :=
  match p with
  | Lit c => c ≠ ch "%"
  | Percent => True
  | Spec f t => Forall (λ c, is_flag c = true) f ∧ is_spec t = true
  end.
Definition is_Spec (p : Piece) : bool := match p with Spec _ _ => true | _ => false end.

Lemma spec_not_flag t : is_spec t = true → is_flag t = false.
Proof.
  intros Ht. unfold is_spec in Ht. apply bool_decide_eq_true in Ht.
  assert (Forall (λ c, is_flag c = false) (bs "cdieEfFgGosuxXpn")) as Hall by (repeat constructor).
  by eapply Forall_forall in Hall.
Qed.
Lemma flag_not_percent c : is_flag c = true ∨ is_spec c = true → c ≠ ch "%".
Proof. intros Hc ->. by destruct Hc. Qed.
Lemma skip_flags_app f l : Forall (λ c, is_flag c = true) f → skip_flags (f ++ l) = skip_flags l.
Proof. induction 1 as [|c f Hc _ IH]; simpl; [done|]. by rewrite Hc. Qed.
Lemma skip_flags_length l : (length (skip_flags l) ≤ length l)%nat.
Proof. induction l as [|c l IH]; simpl; [lia|]. destruct (is_flag c); simpl; lia. Qed.

Lemma format_loop_pieces fuel ps n :
  Forall piece_ok ps → (length (ps ≫= render) < fuel)%nat →
  extract_format_specifiers_loop fuel (ps ≫= render) n = Ok (n + Z.of_nat (length (List.filter is_Spec ps))).
Proof.
  intros Hps. revert fuel n. induction Hps as [|p ps Hp Hps IH]; intros fuel n Hf.
  { destruct fuel; [simpl in Hf; lia|]. simpl. f_equal. lia. }
  rewrite bind_cons in Hf |- *. rewrite length_app in Hf. destruct fuel as [|fuel]; [lia|].
  destruct p as [c| |f t]; cbn [render app] in Hf |- *.
  - cbn [extract_format_specifiers_loop]. rewrite (proj2 (Z.eqb_neq _ _)) by done. simpl in Hf. rewrite IH by lia. done.
  - change (bs "%%" ++ ps ≫= render) with (ch "%" :: ch "%" :: ps ≫= render).
    change (length (bs "%%")) with 2%nat in Hf.
    cbn [extract_format_specifiers_loop]. rewrite !Z.eqb_refl. rewrite IH by lia. done.
  - destruct Hp as [Hfl Ht]. cbn [extract_format_specifiers_loop]. rewrite Z.eqb_refl.
    assert (skip_flags ((f ++ [t]) ++ ps ≫= render) = t :: ps ≫= render) as Hskip.
    { rewrite <- app_assoc, skip_flags_app by done. simpl. by rewrite spec_not_flag. }
    destruct ((f ++ [t]) ++ ps ≫= render) as [|c l] eqn:Hl; [by destruct f|].
    assert (c ≠ ch "%") as Hc.
    { apply flag_not_percent. destruct f as [|c0 f]; simpl in Hl; injection Hl as <- _; [by right|left]. by inversion Hfl. }
    rewrite (proj2 (Z.eqb_neq _ _)) by done. rewrite Hskip, Ht.
    simpl in Hf. rewrite length_app in Hf. simpl in Hf. rewrite IH by lia. simpl. f_equal. lia.
Qed.

Lemma format_loop_total fuel l n :
  (length l < fuel)%nat → ∃ k, extract_format_specifiers_loop fuel l n = Ok (n + k) ∧ 0 ≤ k ≤ Z.of_nat (length l).
Proof.
  revert l n. induction fuel as [|fuel IH]; intros l n Hl; [lia|]. destruct l as [|c l]; cbn [extract_format_specifiers_loop].
  { exists 0. split; [f_equal; lia|simpl; lia]. }
  assert (∀ l', (length l' ≤ length l)%nat → ∃ k, extract_format_specifiers_loop fuel l' n = Ok (n + k) ∧ 0 ≤ k ≤ Z.of_nat (length l)) as Hrec.
  { intros l' Hl'. destruct (IH l' n) as (k & -> & Hk); [simpl in Hl; lia|]. exists k. split; [done|lia]. }
  assert (∀ l', (length l' ≤ length l)%nat → ∃ k, extract_format_specifiers_loop fuel l' n = Ok (n + k) ∧ 0 ≤ k ≤ Z.of_nat (length (c :: l))) as Hrec'.
  { intros l' Hl'. destruct (Hrec l' Hl') as (k & -> & Hk). exists k. split; [done|simpl; lia]. }
  destruct (c =? ch "%"); [|by apply Hrec'].
  destruct l as [|c' l']; [by apply Hrec'|].
  destruct (c' =? ch "%"); [apply Hrec'; simpl; lia|].
  pose proof (skip_flags_length (c' :: l')) as Hs. destruct (skip_flags (c' :: l')) as [|t rest]; [apply Hrec'; simpl; lia|].
  simpl in Hs. destruct (is_spec t); [|apply Hrec'; simpl; lia].
  destruct (IH rest (n + 1)) as (k & -> & Hk); [simpl in Hl; lia|]. exists (k + 1). split; [f_equal; lia|simpl; lia].
Qed.

(** Counting the specifiers of a printk format ends on every string
    with at most one per character, and on a format of plain characters,
    doubled percent signs and specifiers it finds exactly the
    specifiers. *)
Theorem format_specifiers_counted s :
  (∃ n, extract_format_specifiers s = Ok n ∧ 0 ≤ n ≤ Z.of_nat (length s)) ∧
  ∀ ps, Forall piece_ok ps → s = ps ≫= render →
    extract_format_specifiers s = Ok (Z.of_nat (length (List.filter is_Spec ps))).
Proof.
  split.
  - unfold extract_format_specifiers. destruct (format_loop_total (length s + 1) s 0 ltac:(lia)) as (k & -> & Hk). eauto.
  - intros ps Hps ->. unfold extract_format_specifiers. rewrite format_loop_pieces by (done || lia). done.
Qed.

(** ** Strings from user space *)

(** Reading a user string into a buffer keeps the buffer's length,
    writes as much of the string as leaves room for a terminating zero, the
    zero, and nothing behind it, and returns the number of bytes written;
    an empty buffer is refused. *)
Theorem probe_read_user_str_correct string_from_user_cstr dst src s :
  string_from_user_cstr src = Ok s →
  probe_read_user_str string_from_user_cstr dst src =
    match length dst with
    | O => Err EINVAL
    | Datatypes.S room => let n := Nat.min (length s) room in Ok (Z.of_nat n + 1, take n s ++ 0 :: drop (n + 1) dst)
    end.
Proof.
  intros Hs. unfold probe_read_user_str. rewrite Hs. destruct dst as [|d dst]; [done|].
  set (b := d :: dst). change (length (d :: dst)) with (length b).
  assert (length b = Datatypes.S (length dst)) as Hb by done. rewrite Hb. cbn [Nat.eqb mbind res_bind].
  rewrite Nat.sub_1_r, Nat.pred_succ. set (n := Nat.min (length s) (length dst)).
  rewrite slice_some by lia. rewrite Nat.sub_0_r, drop_0. cbn [unwrap mbind res_bind].
  assert (length (take n s) = n) as Hn by (rewrite length_take; lia).
  assert (slice_copy b 0 n (take n s) = Some (take n s ++ drop n b)) as ->.
  { unfold slice_copy. rewrite (proj2 (Nat.leb_le _ _)) by lia. rewrite (proj2 (Nat.leb_le _ _)) by lia.
    rewrite (proj2 (Nat.eqb_eq _ _)) by lia. cbn [andb]. f_equal. unfold splice. by rewrite take_0, Hn. }
  cbn [unwrap mbind res_bind].
  assert ((n <? length (take n s ++ drop n b))%nat = true) as ->.
  { apply Nat.ltb_lt. rewrite length_app, length_drop. lia. }
  cbn [mbind res_bind]. do 2 f_equal.
  rewrite insert_app_r_alt by lia. rewrite Hn, Nat.sub_diag. f_equal.
  assert (n < length b)%nat as Hlt by lia. apply lookup_lt_is_Some_2 in Hlt as [x Hx].
  rewrite (drop_S b x n Hx). by rewrite Nat.add_1_r.
Qed.

(** ** Runs *)

(** The wire format of an instruction. *)
Record WireInst := { w_opc : Z; w_regs : Z; w_off : Z; w_imm : Z }.
#[export] Instance WireInst_ops : EbpfInst WireInst := {|
  opc := w_opc; imm := w_imm; src i := w_regs i / 16;
  set_imm i x := {| w_opc := w_opc i; w_regs := w_regs i; w_off := w_off i; w_imm := x |};
  to_array i := [w_opc i; w_regs i] ++ le_enc 2 (w_off i) ++ le_enc 4 (w_imm i) |}.
#[export] Instance WireInst_laws : EbpfInstLaws WireInst.
Proof. by split. Qed.

(** [r1 = map 5; r2 = value 4 bytes into map 6; exit], the map at
    0x1122334455667788, the values at 0x5000. *)
Definition demo_prog : list WireInst :=
  [ {| w_opc := 0x18; w_regs := 0x11; w_off := 0; w_imm := 5 |}; {| w_opc := 0; w_regs := 0; w_off := 0; w_imm := 0 |};
    {| w_opc := 0x18; w_regs := 0x22; w_off := 0; w_imm := 6 |}; {| w_opc := 0; w_regs := 0; w_off := 0; w_imm := 4 |};
    {| w_opc := 0x95; w_regs := 0; w_off := 0; w_imm := 0 |} ].
Definition demo_bytes : str := concat (map to_array demo_prog).
Definition demo_ptr (fd : Z) : BpfResult Z := if fd =? 5 then Ok 0x1122334455667788 else Err EPERM.
Definition demo_fd (fd : Z) : BpfResult Z := if fd =? 6 then Ok 0 else Err EPERM.
Definition demo_values : gmap Z (UnifiedMap (C := ())) :=
  {[ 0 := {| inner_map := MArray {| am_data := {| elem_size := 8; adata := zeros 8 |}; am_value_size := 8; am_max_entries := 1 |};
             map_meta := {| map_type := BPF_MAP_TYPE_ARRAY; key_size := 4; value_size := 8; max_entries := 1; map_flags := 0; map_name := [] |} |} ]}.

Lemma preprocess_correct_witness :
  let _ : BuildMode := true in
  preprocess (λ _, Ok demo_prog) demo_fd demo_ptr (λ _, 0x5000) 0 ∅ demo_values demo_bytes =
  Ok {| new_insn := [0x18; 0x11; 0; 0; 0x88; 0x77; 0x66; 0x55; 0; 0; 0; 0; 0x44; 0x33; 0x22; 0x11;
                     0x18; 0x22; 0; 0; 0x04; 0x50; 0; 0; 0; 0; 0; 0; 0; 0; 0; 0; 0x95; 0; 0; 0; 0; 0; 0; 0];
        raw_file_ptr := [0x1122334455667788] |}.
Proof.
  intros b. destruct (preprocess_correct (λ _, Ok demo_prog) demo_fd demo_ptr (λ _, 0x5000) 0 ∅ demo_values ltac:(intros; lia)
    demo_bytes demo_prog eq_refl eq_refl) as [_ H]. eapply eq_trans.
  - apply H. eapply (reloc_map _ _ _ 0 ∅ _ _ _ _ 0x1122334455667788
      {| w_opc := 0x18; w_regs := 0x11; w_off := 0; w_imm := 0x55667788 |} {| w_opc := 0; w_regs := 0; w_off := 0; w_imm := 0x11223344 |});
      [reflexivity|reflexivity|reflexivity|by repeat split|].
    eapply (reloc_value _ _ _ 0 ∅ _ _ _ _ 0x5000
      {| w_opc := 0x18; w_regs := 0x22; w_off := 0; w_imm := 0x5004 |} {| w_opc := 0; w_regs := 0; w_off := 0; w_imm := 0 |});
      [reflexivity|reflexivity|by vm_compute|intros _; by vm_compute|by repeat split|].
    apply reloc_keep; [intros [Hx _]; discriminate Hx|intros Hx; discriminate Hx|apply reloc_end].
  - by vm_compute.
Defined.

Lemma probe_read_user_str_correct_witness :
  probe_read_user_str (λ _, Ok (bs "hello")) (repeat 7 4) 0 = Ok (4, bs "hel" ++ [0]) ∧
  probe_read_user_str (λ _, Ok (bs "hi")) (repeat 7 4) 0 = Ok (3, bs "hi" ++ [0; 7]).
Proof.
  split.
  - rewrite (probe_read_user_str_correct (λ _, Ok (bs "hello")) (repeat 7 4) 0 (bs "hello") eq_refl). by vm_compute.
  - rewrite (probe_read_user_str_correct (λ _, Ok (bs "hi")) (repeat 7 4) 0 (bs "hi") eq_refl). by vm_compute.
Defined.

(** The descriptors of map values may be loaded with a negative offset, which
    overflows the address computation of a checked build. *)
Lemma negative_offset_panics :
  let _ : BuildMode := true in
  reloc_target (I := WireInst) (C := ()) (λ _, Ok 0) (λ _, Err EPERM) (λ _, 0x5000) 0 ∅
    {[ 0 := {| inner_map := MArray {| am_data := {| elem_size := 8; adata := zeros 8 |}; am_value_size := 8; am_max_entries := 1 |};
               map_meta := {| map_type := BPF_MAP_TYPE_ARRAY; key_size := 4; value_size := 8; max_entries := 1; map_flags := 0; map_name := [] |} |} ]}
    {| w_opc := 0x18; w_regs := 0x21; w_off := 0; w_imm := 5 |} {| w_opc := 0; w_regs := 0; w_off := 0; w_imm := -1 |} = Panic.
Proof. by vm_compute. Qed.

Lemma format_specifiers_counted_witness : extract_format_specifiers (bs "pid %d: %-8s 9%%") = Ok 2.
Proof.
  refine (proj2 (format_specifiers_counted (bs "pid %d: %-8s 9%%"))
    (map Lit (bs "pid ") ++ [Spec [] (ch "d")] ++ map Lit (bs ": ") ++ [Spec (bs "-8") (ch "s")] ++ map Lit (bs " 9") ++ [Percent]) _ _).
  - simpl. repeat (apply Forall_cons_2; [first [exact I|discriminate|split; [repeat constructor|reflexivity]]|]).
    apply Forall_nil_2.
  - by vm_compute.
Defined.
