(* ===== verification/Perf.v ===== *)
(** The perf event ring of bpf-basic/src/perf (bpf.rs, util.rs): the page
    shared with user space, sample and lost records, and [BpfPerfEvent].

    [pdata] is the data region that follows the first page; user space owns
    [data_tail].  Writing a record is a sequence of slice copies that wrap at
    the end of the region. *)
From S2P Require Import Prelude BpfBase RingMem.

(** ** Records (util.rs, linux_bpf.rs) *)
Definition PAGE_SIZE : Z := 4096.
Definition PERF_RECORD_LOST : Z := 2.
Definition PERF_RECORD_SAMPLE : Z := 9.
Definition HEADER_SIZE : Z := 8.         (* perf_event_header *)
Definition SAMPLE_HEADER_SIZE : Z := 12. (* SampleHeader *)
Definition LOST_SIZE : Z := 24.          (* LostSamples *)

Definition perf_event_header (type_ misc size : Z) : str := le_enc 4 type_ ++ le_enc 2 misc ++ le_enc 2 size.
(** [SampleHeader::as_bytes] and [LostSamples::as_bytes]. *)
Definition sample_header (size16 size : Z) : str := perf_event_header PERF_RECORD_SAMPLE 0 size16 ++ le_enc 4 size.
Definition lost_samples (size16 id count : Z) : str :=
  perf_event_header PERF_RECORD_LOST 0 size16 ++ le_enc 8 id ++ le_enc 8 count.

Definition calculate_size (value_size : Z) : Z := SAMPLE_HEADER_SIZE + value_size.

(** ** The ring page *)
Record RingPage := {
  ptr : Z;
  rp_size : Z;
  data_region_size : Z;
  lost : Z;
  data_head : Z;
  data_tail : Z;
  pdata : list Z;
}.

Definition RingPage_empty : RingPage :=
  {| ptr := 0; rp_size := 0; data_region_size := 0; lost := 0; data_head := 0; data_tail := 0; pdata := [] |}.

(** [RingPage::init]: two assertions, then the first page is filled in; the
    region keeps the bytes [region] it had. *)
Definition RingPage_init (p size : Z) (region : list Z) : res () RingPage :=
  if negb (size mod PAGE_SIZE =? 0) then Panic
  else if negb (2 <=? size / PAGE_SIZE) then Panic
  else Ok {| ptr := p; rp_size := size; data_region_size := size - PAGE_SIZE; lost := 0;
             data_head := 0; data_tail := 0; pdata := region |}.

Definition with_head (r : RingPage) (d : list Z) (h l : Z) : RingPage :=
  {| ptr := ptr r; rp_size := rp_size r; data_region_size := data_region_size r; lost := l;
     data_head := h; data_tail := data_tail r; pdata := d |}.

Section ops.
Context `{BuildMode}.

Definition can_write (r : RingPage) (data_size : Z) : BpfResult bool :=
  a ← arith 64 (data_region_size r - data_head r);
  capacity ← arith 64 (a + data_tail r);
  Ok (data_size <=? capacity).

(** [write_any]: two copies when the record wraps. *)
Definition write_any (r : RingPage) (d : list Z) (xs : str) (head : Z) : BpfResult (list Z) :=
  let n := data_region_size r in
  sum ← arith 64 (head + Z.of_nat (length xs));
  let start := head mod n in
  let end_ := sum mod n in
  if start <? end_ then unwrap (slice_copy d (Z.to_nat start) (Z.to_nat end_) xs)
  else
    let first_len := Z.to_nat (n - start) in
    first ← unwrap (slice xs 0 first_len);
    rest ← unwrap (slice xs first_len (length xs));
    d ← unwrap (slice_copy d (Z.to_nat start) (Z.to_nat start + first_len) first);
    unwrap (slice_copy d 0 (Z.to_nat end_) rest).

(** Space skipped so that no header wraps. *)
Definition fill_size (r : RingPage) (head_mod : Z) : Z :=
  if data_region_size r - head_mod <? HEADER_SIZE then data_region_size r - head_mod else 0.

Definition write_sample (r : RingPage) (xs : str) (head : Z) : BpfResult (list Z * Z) :=
  let n := Z.of_nat (length xs) in
  let sample_size := calculate_size n in
  maybe_end ← arith 64 (head + sample_size);
  let fill := fill_size r (maybe_end mod data_region_size r) in
  s1 ← arith 16 (SAMPLE_HEADER_SIZE + wrapu 16 n);
  size16 ← arith 16 (s1 + wrapu 16 fill);
  d ← write_any r (pdata r) (sample_header size16 (wrapu 32 n)) head;
  d ← write_any r d xs (head + SAMPLE_HEADER_SIZE);
  new_head ← arith 64 (head + sample_size + fill);
  Ok (d, new_head).

Definition write_lost (r : RingPage) (head : Z) : BpfResult (list Z * Z) :=
  maybe_end ← arith 64 (head + LOST_SIZE);
  let fill := fill_size r (maybe_end mod data_region_size r) in
  size16 ← arith 16 (LOST_SIZE + wrapu 16 fill);
  d ← write_any r (pdata r) (lost_samples size16 0 (lost r)) head;
  new_head ← arith 64 (head + LOST_SIZE + fill);
  Ok (d, new_head).

Definition count_lost (r : RingPage) : BpfResult RingPage :=
  l ← arith 64 (lost r + 1); Ok (with_head r (pdata r) (data_head r) l).

(** [write_event]: it calls itself once, after flushing the lost count. *)
Fixpoint write_event (fuel : nat) (r : RingPage) (xs : str) : BpfResult RingPage :=
  match fuel with
  | O => OutOfFuel
  | S fuel =>
      hdr ← can_write r HEADER_SIZE;
      if hdr : bool then
        room ← can_write r LOST_SIZE;
        if (0 <? lost r) && room then
          '(d, h) ← write_lost r (data_head r);
          write_event fuel (with_head r d h 0) xs
        else
          ok ← can_write r (calculate_size (Z.of_nat (length xs)));
          if ok : bool then
            '(d, h) ← write_sample r xs (data_head r);
            Ok (with_head r d h (lost r))
          else count_lost r
      else count_lost r
  end.
Definition RingPage_write_event (r : RingPage) (xs : str) : BpfResult RingPage := write_event 2 r xs.

Definition readable (r : RingPage) : bool := negb (data_tail r =? data_head r).

(** ** [BpfPerfEvent] *)
Record BpfPerfEvent := { enabled : bool; mmap_page : RingPage; pe_offset : Z }.

Definition BpfPerfEvent_new : BpfPerfEvent :=
  {| enabled := false; mmap_page := RingPage_empty; pe_offset := 0 |}.

Definition do_mmap (e : BpfPerfEvent) (start len offset : Z) (region : list Z) : res () BpfPerfEvent :=
  page ← RingPage_init start len region;
  Ok {| enabled := enabled e; mmap_page := page; pe_offset := offset |}.

(** Before [do_mmap] the page pointer is null: dereferencing it is
    undefined behaviour, [Panic] here. *)
Definition perf_write_event (e : BpfPerfEvent) (xs : str) : BpfResult BpfPerfEvent :=
  if enabled e then
    if ptr (mmap_page e) =? 0 then Panic else
    page ← RingPage_write_event (mmap_page e) xs;
    Ok {| enabled := true; mmap_page := page; pe_offset := pe_offset e |}
  else Ok e.

Definition set_enabled (e : BpfPerfEvent) (b : bool) : BpfPerfEvent :=
  {| enabled := b; mmap_page := mmap_page e; pe_offset := pe_offset e |}.
Definition enable (e : BpfPerfEvent) : BpfPerfEvent := set_enabled e true.
Definition disable (e : BpfPerfEvent) : BpfPerfEvent := set_enabled e false.
Definition writeable (e : BpfPerfEvent) : bool := false.
End ops.

(** ** [PerfProbeArgs] (util.rs) *)
Inductive PerfTypeId :=
  | PERF_TYPE_HARDWARE | PERF_TYPE_SOFTWARE | PERF_TYPE_TRACEPOINT | PERF_TYPE_HW_CACHE
  | PERF_TYPE_RAW | PERF_TYPE_BREAKPOINT | PERF_TYPE_KPROBE | PERF_TYPE_UPROBE.
#[export] Instance PerfTypeId_eq_dec : EqDecision PerfTypeId.
Proof. solve_decision. Defined.
Definition perf_type_of (z : Z) : option PerfTypeId :=
  [PERF_TYPE_HARDWARE; PERF_TYPE_SOFTWARE; PERF_TYPE_TRACEPOINT; PERF_TYPE_HW_CACHE;
   PERF_TYPE_RAW; PERF_TYPE_BREAKPOINT; PERF_TYPE_KPROBE; PERF_TYPE_UPROBE] !! Z.to_nat z.

(** [perf_sw_ids::try_from] and [perf_event_sample_format::try_from]. *)
Definition perf_sw_id_of (z : Z) : option Z := if z <=? 12 then Some z else None.
Definition sample_format_of (z : Z) : option Z :=
  if existsb (λ k, z =? 2 ^ k) (seqZ 0 26) then Some z else None.

Inductive PerfProbeConfig := PerfSwIds (id : Z) | Raw (config : Z).

(** The fields of [perf_event_attr] that are read. *)
Record perf_attr := { pa_type : Z; pa_size : Z; pa_config : Z; pa_sample_type : Z; pa_config1 : Z; pa_config2 : Z }.

Record PerfProbeArgs := {
  ppa_config : PerfProbeConfig; ppa_name : str; ppa_offset : Z; ppa_size : Z; ppa_type : PerfTypeId;
  ppa_pid : Z; ppa_cpu : Z; ppa_group_fd : Z; ppa_flags : Z; ppa_sample_type : option Z;
}.

Definition PERF_OPEN_FLAGS_ALL : Z := 15.

(** [F::string_from_user_cstr] is the kernel's. *)
Definition try_from_perf_attr (string_from_user_cstr : Z → BpfResult str)
    (a : perf_attr) (pid cpu group_fd flags : Z) : BpfResult PerfProbeArgs :=
  ty ← ok_or (perf_type_of (pa_type a)) EINVAL;
  config ← match ty with
           | PERF_TYPE_KPROBE | PERF_TYPE_UPROBE | PERF_TYPE_TRACEPOINT => Ok (Raw (pa_config a))
           | _ => PerfSwIds <$> ok_or (perf_sw_id_of (wrapu 32 (pa_config a))) EINVAL
           end;
  name ← match ty with
         | PERF_TYPE_KPROBE | PERF_TYPE_UPROBE => string_from_user_cstr (pa_config1 a)
         | _ => Ok []
         end;
  Ok {| ppa_config := config; ppa_name := name; ppa_offset := pa_config2 a; ppa_size := pa_size a;
        ppa_type := ty; ppa_pid := pid; ppa_cpu := cpu; ppa_group_fd := group_fd;
        ppa_flags := Z.land flags PERF_OPEN_FLAGS_ALL;
        ppa_sample_type := sample_format_of (wrapu 32 (pa_sample_type a)) |}.
