(* ===== verification/PerfProps.v ===== *)
(** Properties of the perf event ring: records never overlap unread ones,
    no record header wraps around the region, and every event is either in
    the ring or counted as lost. *)
From S2P Require Import Prelude BpfBase RingMem Perf.

#[local] Arguments le_enc : simpl never.

(** ** Records and their layout *)
Inductive PRec := PSample (xs : str) | PLost (n : Z).

Definition rec_size (r : PRec) : Z :=
  match r with PSample xs => SAMPLE_HEADER_SIZE + Z.of_nat (length xs) | PLost _ => LOST_SIZE end.
Definition rec_bytes (r : PRec) (fill : Z) : str :=
  match r with
  | PSample xs => sample_header (SAMPLE_HEADER_SIZE + Z.of_nat (length xs) + fill) (Z.of_nat (length xs)) ++ xs
  | PLost n => lost_samples (LOST_SIZE + fill) 0 n
  end.

(** Padding after a record that ends at [e], in a region of [n] bytes. *)
Definition fill_at (n e : Z) : Z := if n - e mod n <? HEADER_SIZE then n - e mod n else 0.
(** Where the record after [r] at [p] starts. *)
Definition next_pos (n p : Z) (r : PRec) : Z := p + rec_size r + fill_at n (p + rec_size r).

Fixpoint end_pos (n p : Z) (rs : list PRec) : Z :=
  match rs with [] => p | r :: rs => end_pos n (next_pos n p r) rs end.

Fixpoint playout (d : list Z) (p : Z) (rs : list PRec) : Prop :=
  match rs with
  | [] => True
  | r :: rs =>
      let b := rec_bytes r (fill_at (dlen d) (p + rec_size r)) in
      dread d p (length b) = b ∧ playout d (next_pos (dlen d) p r) rs
  end.

(** A position where an 8-byte header fits before the end of the region. *)
Definition header_fits (n p : Z) : Prop := p mod n ≤ n - HEADER_SIZE.

Record perf_inv (r : RingPage) (rs : list PRec) : Prop := {
  pi_region : 4096 ≤ data_region_size r < 2 ^ 62 ∧ dlen (pdata r) = data_region_size r;
  pi_tail : 0 ≤ data_tail r ∧ header_fits (data_region_size r) (data_tail r);
  pi_head : data_head r = end_pos (data_region_size r) (data_tail r) rs;
  pi_room : data_head r - data_tail r ≤ data_region_size r;
  pi_lost : 0 ≤ lost r;
  pi_layout : playout (pdata r) (data_tail r) rs;
}.

Lemma length_rec_bytes r f : Z.of_nat (length (rec_bytes r f)) = rec_size r.
Proof.
  destruct r as [xs|n]; unfold rec_bytes, rec_size, sample_header, lost_samples, perf_event_header.
  - rewrite !length_app, !length_le_enc. unfold SAMPLE_HEADER_SIZE. lia.
  - rewrite !length_app, !length_le_enc. unfold LOST_SIZE. lia.
Qed.

Lemma rec_size_pos r : 8 < rec_size r.
Proof. destruct r; unfold rec_size, SAMPLE_HEADER_SIZE, LOST_SIZE; lia. Qed.

Lemma fill_range n e : 0 < n → 0 ≤ fill_at n e < 8.
Proof.
  intros Hn. unfold fill_at, HEADER_SIZE. pose proof (Z.mod_pos_bound e n Hn).
  destruct (Z.ltb_spec (n - e mod n) 8); lia.
Qed.

(** After the padding a header fits. *)
Lemma fill_header n e : 8 ≤ n → header_fits n (e + fill_at n e).
Proof.
  intros Hn. unfold header_fits, fill_at, HEADER_SIZE. pose proof (Z.mod_pos_bound e n ltac:(lia)).
  destruct (Z.ltb_spec (n - e mod n) 8); [|rewrite Z.add_0_r; lia].
  rewrite <- Zplus_mod_idemp_l. replace (e mod n + (n - e mod n)) with n by lia.
  rewrite Z.mod_same by lia. lia.
Qed.

(** The padding never reaches a position one region after a header. *)
Lemma fill_room n t e : 8 ≤ n → header_fits n t → e ≤ t + n → e + fill_at n e ≤ t + n.
Proof.
  intros Hn Ht He. unfold header_fits, fill_at, HEADER_SIZE in *.
  pose proof (Z.mod_pos_bound e n ltac:(lia)) as Hm.
  destruct (Z.ltb_spec (n - e mod n) 8) as [Hf|]; [|lia].
  destruct (Z.le_gt_cases (e + (n - e mod n)) (t + n)) as [|Hgt]; [done|exfalso].
  assert (t mod n = e mod n + (t + n - e)) as Hmod.
  { symmetry. apply Z.mod_unique with (t / n - (t / n - (e / n - 1))); [left; lia|].
    pose proof (Z.div_mod e n ltac:(lia)). lia. }
  lia.
Qed.

Lemma end_pos_app n p rs1 rs2 : end_pos n p (rs1 ++ rs2) = end_pos n (end_pos n p rs1) rs2.
Proof. revert p. induction rs1 as [|r rs1 IH]; intros p; simpl; auto. Qed.

Lemma end_pos_ge n p rs : 0 < n → p ≤ end_pos n p rs.
Proof.
  intros Hn. revert p. induction rs as [|r rs IH]; intros p; simpl; [lia|].
  specialize (IH (next_pos n p r)). unfold next_pos in *. pose proof (rec_size_pos r).
  pose proof (fill_range n (p + rec_size r) Hn). lia.
Qed.

Lemma end_pos_header n p rs : 8 ≤ n → header_fits n p → header_fits n (end_pos n p rs).
Proof.
  intros Hn. revert p. induction rs as [|r rs IH]; intros p Hp; simpl; [done|].
  apply IH. unfold next_pos. by apply fill_header.
Qed.

Lemma playout_app d p rs1 rs2 :
  playout d p (rs1 ++ rs2) ↔ playout d p rs1 ∧ playout d (end_pos (dlen d) p rs1) rs2.
Proof.
  revert p. induction rs1 as [|r rs1 IH]; intros p; simpl; [tauto|]. rewrite IH. tauto.
Qed.

Lemma playout_store_other d p rs q xs :
  0 < dlen d → Z.of_nat (length xs) ≤ dlen d →
  end_pos (dlen d) p rs ≤ q → q + Z.of_nat (length xs) ≤ p + dlen d →
  playout d p rs → playout (dstore d q xs) p rs.
Proof.
  intros Hd Hl Hq Hw. revert p Hq Hw. induction rs as [|r rs IH]; intros p Hq Hw; simpl; [done|].
  simpl in Hq. rewrite dlen_dstore. intros [Hb Hr].
  pose proof (end_pos_ge (dlen d) (next_pos (dlen d) p r) rs Hd).
  pose proof (rec_size_pos r). pose proof (fill_range (dlen d) (p + rec_size r) Hd).
  assert (p + rec_size r ≤ next_pos (dlen d) p r) by (unfold next_pos; lia).
  split; [|apply IH; try done; lia].
  rewrite dread_dstore_other; try done. rewrite length_rec_bytes. unfold disjoint_win. lia.
Qed.

(** ** The code's arithmetic *)

(** In a build without overflow checks the free space is always right; one
    with them panics once the head has passed the region. *)
Definition head_usable `{BuildMode} (r : RingPage) : Prop :=
  overflow_checks = false ∨ data_head r ≤ data_region_size r.

Lemma can_write_spec `{BuildMode} r rs n :
  perf_inv r rs → head_usable r →
  can_write r n = Ok (n <=? data_region_size r - (data_head r - data_tail r)).
Proof.
  intros [[Hreg _] [Ht _] Hh Hroom _ _] Hrel. unfold can_write.
  pose proof (end_pos_ge (data_region_size r) (data_tail r) rs ltac:(lia)). destruct Hrel as [Hrel|Hle].
  2: { do 2 arith_step. do 2 f_equal. lia. }
  assert (∀ z, arith (E:=BpfError) 64 z = Ok (wrapu 64 z)) as Ha.
  { intros z. unfold arith. rewrite Hrel. destruct (in_u 64 z) eqn:Hi; [|done].
    apply in_u_spec in Hi. by rewrite wrapu_small. }
  rewrite Ha. cbn [mbind res_bind]. rewrite Ha. cbn [mbind res_bind]. unfold wrapu.
  rewrite Zplus_mod_idemp_l. rewrite Z.mod_small by lia. do 2 f_equal. lia.
Qed.

(** [write_any] stores the bytes, wrapping, whenever there are any. *)
Lemma write_any_spec `{BuildMode} r d xs head :
  dlen d = data_region_size r → 0 < Z.of_nat (length xs) ≤ dlen d →
  0 ≤ head → head + Z.of_nat (length xs) < 2 ^ 64 →
  write_any r d xs head = Ok (dstore d head xs).
Proof.
  intros Hd Hl Hh Hb. unfold write_any. rewrite <- Hd. arith_step.
  assert (0 < dlen d) as Hpos by lia. pose proof (Z.mod_pos_bound head (dlen d) Hpos) as Hs.
  rewrite <- (dstore_mod d head xs). set (s := head mod dlen d) in *.
  assert ((head + Z.of_nat (length xs)) mod dlen d = (s + Z.of_nat (length xs)) mod dlen d) as ->.
  { unfold s. by rewrite Zplus_mod_idemp_l. }
  destruct (Z.lt_ge_cases (s + Z.of_nat (length xs)) (dlen d)) as [Hfit|Hwrap].
  - rewrite (Z.mod_small (s + _)) by lia. destruct (Z.ltb_spec s (s + Z.of_nat (length xs))); [|lia].
    rewrite slice_copy_some by (unfold dlen in *; lia). simpl. by rewrite dstore_splice by lia.
  - assert ((s + Z.of_nat (length xs)) mod dlen d = s + Z.of_nat (length xs) - dlen d) as ->.
    { symmetry. apply Z.mod_unique with 1; lia. }
    destruct (Z.ltb_spec s (s + Z.of_nat (length xs) - dlen d)); [lia|].
    assert (Z.of_nat (Z.to_nat (dlen d - s)) = dlen d - s) as Hfz by lia.
    set (f := Z.to_nat (dlen d - s)) in *. clearbody f.
    rewrite (slice_some xs 0 f) by lia. cbn [unwrap mbind res_bind].
    rewrite (slice_some xs f) by lia. cbn [unwrap mbind res_bind].
    rewrite Nat.sub_0_r, drop_0, (take_ge (drop f xs)) by (rewrite length_drop; lia).
    assert (length (take f xs) = f) as Hf by (rewrite length_take; lia).
    assert (length (splice d (Z.to_nat s) (take f xs)) = length d) as Hd2.
    { rewrite length_splice; [done|]. unfold dlen in *. lia. }
    rewrite slice_copy_some by (unfold dlen in *; lia). cbn [unwrap mbind res_bind].
    rewrite slice_copy_some by (rewrite ?length_drop; unfold dlen in *; lia). simpl.
    rewrite <- (take_drop f xs) at 3. rewrite dstore_app, Hf, (dstore_splice d) by lia.
    rewrite <- (dstore_mod _ (s + _)). unfold dlen at 1. rewrite Hd2. fold (dlen d).
    replace (s + Z.of_nat f) with (0 + 1 * dlen d) by lia. rewrite Z_mod_plus_full, Z.mod_0_l by lia.
    rewrite dstore_splice; [done|lia|]. unfold dlen in *. rewrite Hd2, length_drop. lia.
Qed.

(** The common part of the two record writers. *)
Definition put (r : RingPage) (rc : PRec) : RingPage :=
  let n := data_region_size r in
  let h := data_head r in
  with_head r (dstore (pdata r) h (rec_bytes rc (fill_at n (h + rec_size rc)))) (next_pos n h rc) (lost r).

Lemma with_lost_inv r rs l : perf_inv r rs → 0 ≤ l → perf_inv (with_head r (pdata r) (data_head r) l) rs.
Proof. intros [H1 H2 H3 H4 _ H6] Hl. exact (Build_perf_inv (with_head r _ _ l) rs H1 H2 H3 H4 Hl H6). Qed.

Lemma pdata_put r rc : pdata (put r rc) =
  dstore (pdata r) (data_head r) (rec_bytes rc (fill_at (data_region_size r) (data_head r + rec_size rc))).
Proof. done. Qed.
Lemma head_put r rc : data_head (put r rc) = next_pos (data_region_size r) (data_head r) rc.
Proof. done. Qed.

Lemma put_inv r rs rc l :
  perf_inv r rs → rec_size rc ≤ data_region_size r - (data_head r - data_tail r) → 0 ≤ l →
  perf_inv (with_head r (pdata (put r rc)) (data_head (put r rc)) l) (rs ++ [rc]).
Proof.
  intros [[Hreg Hd] [Ht Hth] Hh Hroom Hl0 Hlay] Hfit Hl.
  pose proof (rec_size_pos rc). pose proof (length_rec_bytes rc (fill_at (data_region_size r) (data_head r + rec_size rc))) as Hlen.
  pose proof (end_pos_ge (data_region_size r) (data_tail r) rs ltac:(lia)).
  split; simpl; try done.
  - by rewrite dlen_dstore.
  - rewrite end_pos_app, <- Hh. done.
  - unfold next_pos. pose proof (fill_room (data_region_size r) (data_tail r) (data_head r + rec_size rc)
      ltac:(lia) Hth ltac:(lia)). lia.
  - apply playout_app. rewrite dlen_dstore, Hd, <- Hh. split.
    + apply playout_store_other; rewrite ?Hd, ?Hlen; try done; rewrite <- ?Hh; lia.
    + simpl. rewrite dlen_dstore, Hd. split; [|done]. apply dread_dstore_same; rewrite ?Hlen; lia.
Qed.

Definition pos_bound (r : RingPage) : Prop := data_head r < 2 ^ 62.

Lemma length_sample_header a b : Z.of_nat (length (sample_header a b)) = 12.
Proof. unfold sample_header, perf_event_header. rewrite !length_app, !length_le_enc. lia. Qed.

Lemma write_sample_spec `{BuildMode} r rs xs :
  perf_inv r rs → pos_bound r → 0 < Z.of_nat (length xs) < 2 ^ 16 - 20 →
  rec_size (PSample xs) ≤ data_region_size r - (data_head r - data_tail r) →
  write_sample r xs (data_head r) =
    Ok (pdata (put r (PSample xs)), data_head (put r (PSample xs))).
Proof.
  intros Hinv Hb Hx Hfit. destruct Hinv as [[Hreg Hd] [Ht Hth] Hh Hroom Hl0 Hlay]. unfold pos_bound in Hb.
  pose proof (end_pos_ge (data_region_size r) (data_tail r) rs ltac:(lia)).
  pose proof (fill_range (data_region_size r) (data_head r + rec_size (PSample xs)) ltac:(lia)) as Hf.
  unfold write_sample, calculate_size, SAMPLE_HEADER_SIZE. unfold rec_size, SAMPLE_HEADER_SIZE in Hfit, Hf.
  arith_step. unfold fill_size.
  change (if data_region_size r - (data_head r + (12 + Z.of_nat (length xs))) mod data_region_size r <? HEADER_SIZE
    then data_region_size r - (data_head r + (12 + Z.of_nat (length xs))) mod data_region_size r else 0)
    with (fill_at (data_region_size r) (data_head r + (12 + Z.of_nat (length xs)))) in *.
  set (f := fill_at _ _) in *.
  rewrite (wrapu_small 16 (Z.of_nat (length xs))) by lia.
  arith_step. rewrite (wrapu_small 16 f) by lia. arith_step.
  rewrite (wrapu_small 32) by lia.
  rewrite write_any_spec by (rewrite ?length_sample_header; done || lia).
  cbn [mbind res_bind].
  rewrite write_any_spec; rewrite ?dlen_dstore; [|done|lia|lia|lia].
  cbn [mbind res_bind]. arith_step. rewrite pdata_put, head_put. unfold next_pos, rec_bytes, rec_size.
  change SAMPLE_HEADER_SIZE with 12. fold f. by rewrite dstore_app, length_sample_header, Z.add_assoc.
Qed.

Lemma write_lost_spec `{BuildMode} r rs :
  perf_inv r rs → pos_bound r →
  rec_size (PLost (lost r)) ≤ data_region_size r - (data_head r - data_tail r) →
  write_lost r (data_head r) =
    Ok (pdata (put r (PLost (lost r))), data_head (put r (PLost (lost r)))).
Proof.
  intros Hinv Hb Hfit. destruct Hinv as [[Hreg Hd] [Ht Hth] Hh Hroom Hl0 Hlay]. unfold pos_bound in Hb.
  pose proof (end_pos_ge (data_region_size r) (data_tail r) rs ltac:(lia)).
  pose proof (fill_range (data_region_size r) (data_head r + LOST_SIZE) ltac:(lia)) as Hf.
  pose proof (length_rec_bytes (PLost (lost r)) (fill_at (data_region_size r) (data_head r + LOST_SIZE))) as Hlen.
  unfold rec_size in Hfit, Hlen. unfold write_lost. assert (LOST_SIZE = 24) as HL by done.
  arith_step. unfold fill_size. fold (fill_at (data_region_size r) (data_head r + LOST_SIZE)).
  set (f := fill_at _ _) in *. rewrite (wrapu_small 16 f) by lia. arith_step.
  unfold rec_bytes in Hlen. rewrite write_any_spec; [|done|lia|lia|lia]. cbn [mbind res_bind]. arith_step.
  unfold put, next_pos. simpl. fold f. do 2 f_equal.
Qed.

(** ** Accounting *)

(** Events a record stands for. *)
Definition events (rs : list PRec) : Z :=
  foldr (λ r n, match r with PSample _ => 1 | PLost k => k end + n) 0 rs.

Lemma events_app rs1 rs2 : events (rs1 ++ rs2) = events rs1 + events rs2.
Proof. induction rs1 as [|r rs1 IH]; simpl; [done|]. rewrite IH. destruct r; lia. Qed.

(** What one event does to a ring with nothing pending. *)
Lemma write_event_plain `{BuildMode} r rs xs fuel :
  perf_inv r rs → head_usable r → pos_bound r → lost r + 1 < 2 ^ 64 →
  0 < Z.of_nat (length xs) < 2 ^ 16 - 20 →
  (lost r = 0 ∨ data_region_size r - (data_head r - data_tail r) < LOST_SIZE) →
  let fits := rec_size (PSample xs) <=? data_region_size r - (data_head r - data_tail r) in
  write_event (S fuel) r xs =
    Ok (if fits then put r (PSample xs) else with_head r (pdata r) (data_head r) (lost r + 1)).
Proof.
  intros Hinv Hrel Hb Hl Hx Hpend fits. pose proof (pi_lost _ _ Hinv) as Hl0.
  assert (count_lost r = Ok (with_head r (pdata r) (data_head r) (lost r + 1))) as Hcl.
  { unfold count_lost. by arith_step. }
  cbn [write_event]. rewrite !(can_write_spec r rs) by done. cbn [mbind res_bind].
  pose proof (rec_size_pos (PSample xs)) as Hrs. unfold fits, calculate_size.
  destruct (Z.leb_spec HEADER_SIZE (data_region_size r - (data_head r - data_tail r))) as [Hh|Hh].
  - assert ((0 <? lost r) && (LOST_SIZE <=? data_region_size r - (data_head r - data_tail r)) = false) as ->.
    { apply andb_false_iff. rewrite Z.ltb_ge, Z.leb_gt. lia. }
    change (SAMPLE_HEADER_SIZE + Z.of_nat (length xs)) with (rec_size (PSample xs)).
    destruct (Z.leb_spec (rec_size (PSample xs)) (data_region_size r - (data_head r - data_tail r))); [|done].
    rewrite (write_sample_spec r rs) by done. done.
  - unfold HEADER_SIZE in Hh. rewrite (proj2 (Z.leb_gt _ _)) by lia. done.
Qed.

(** Pending losses that fit are flushed first. *)
Definition flushed (r : RingPage) : RingPage :=
  with_head r (pdata (put r (PLost (lost r)))) (data_head (put r (PLost (lost r)))) 0.

Lemma write_event_flush `{BuildMode} r rs xs fuel :
  perf_inv r rs → head_usable r → pos_bound r → 0 < lost r →
  LOST_SIZE ≤ data_region_size r - (data_head r - data_tail r) →
  write_event (S fuel) r xs = write_event fuel (flushed r) xs.
Proof.
  intros Hinv Hrel Hb Hl Hroom. cbn [write_event]. assert (HEADER_SIZE = 8 ∧ LOST_SIZE = 24) as [HH HL] by done.
  rewrite !(can_write_spec r rs) by done. cbn [mbind res_bind].
  rewrite (proj2 (Z.leb_le HEADER_SIZE _)), (proj2 (Z.leb_le LOST_SIZE _)), (proj2 (Z.ltb_lt 0 (lost r))) by lia.
  cbn [andb]. by rewrite (write_lost_spec r rs).
Qed.

(** What is free, and what an event is to leave behind: a lost record first,
    if losses are pending and its 24 bytes fit, then the sample if its header
    of 12 bytes and its payload fit in the room that is left. *)
Definition free_space (r : RingPage) : Z := data_region_size r - (data_head r - data_tail r).
Definition flushes (r : RingPage) : list PRec := if (0 <? lost r) && (24 <=? free_space r) then [PLost (lost r)] else [].
Definition still_lost (r : RingPage) : Z := if (0 <? lost r) && (24 <=? free_space r) then 0 else lost r.
Definition room_left (r : RingPage) : Z :=
  data_region_size r - (end_pos (data_region_size r) (data_head r) (flushes r) - data_tail r).

(** C10: no event is silently dropped, and none corrupts the ring.  Writing
    an event of 1 to 65515 bytes appends to the ring a lost record when
    losses are pending and it fits, then the sample exactly when it fits, and
    counts the event as lost exactly when it does not; all this behind the
    records user space has not read yet and without touching them.  So the
    samples in the ring, the losses it reports and the losses still pending
    account for exactly one more event.

    The build has no overflow checks, or the head is still inside the first
    turn of the region (else the write panics, [perf_write_panics_checked]);
    the head is below 2^62 - 2^16 and the count of losses below 2^64 - 1.  An
    event without payload panics ([perf_empty_event_panics]), and a payload
    above 65515 bytes wraps the 16-bit size of its record
    ([perf_size_wraps]). *)
Theorem perf_write_accounts `{BuildMode} r rs xs :
  perf_inv r rs → (overflow_checks = false ∨ data_head r + 32 ≤ data_region_size r) →
  data_head r + 2 ^ 16 < 2 ^ 62 → lost r + 1 < 2 ^ 64 → 0 < Z.of_nat (length xs) < 2 ^ 16 - 20 →
  let fits := 12 + Z.of_nat (length xs) <=? room_left r in
  let new := flushes r ++ (if fits then [PSample xs] else []) in
  ∃ r', RingPage_write_event r xs = Ok r' ∧ perf_inv r' (rs ++ new) ∧ data_tail r' = data_tail r ∧
    lost r' = (if fits then still_lost r else still_lost r + 1) ∧
    events (rs ++ new) + lost r' = events rs + lost r + 1.
Proof.
  intros Hinv Hrel Hb Hl Hx fits new.
  assert (∃ r', RingPage_write_event r xs = Ok r' ∧ perf_inv r' (rs ++ new) ∧ data_tail r' = data_tail r ∧
    lost r' = (if fits then still_lost r else still_lost r + 1)) as (r' & Hw & Hi & Ht & Hlost).
  2: { exists r'. split_and!; try done. rewrite Hlost, events_app. unfold new. rewrite events_app.
       unfold flushes, still_lost. destruct (_ && _), fits; simpl; lia. }
  unfold RingPage_write_event. pose proof (pi_lost _ _ Hinv) as Hl0.
  assert (head_usable r) as Hus by (destruct Hrel; [by left|right; lia]).
  destruct ((0 <? lost r) && (24 <=? free_space r)) eqn:Hflush.
  - apply andb_true_iff in Hflush as Hfl. rewrite Z.ltb_lt, Z.leb_le in Hfl. destruct Hfl as [Hnz Hroom].
    assert (flushes r = [PLost (lost r)]) as Hfs by (unfold flushes; by rewrite Hflush).
    assert (still_lost r = 0) as -> by (unfold still_lost; by rewrite Hflush).
    pose proof (put_inv r rs (PLost (lost r)) 0 Hinv Hroom ltac:(lia)) as Hinv1. fold (flushed r) in Hinv1.
    rewrite (write_event_flush r rs) by (done || (unfold pos_bound; lia)).
    assert (room_left r = free_space (flushed r)) as Hrl by (unfold room_left; by rewrite Hfs).
    assert (data_head (flushed r) < data_head r + 32) as Hh1.
    { simpl. unfold next_pos, rec_size. pose proof (fill_range (data_region_size r) (data_head r + LOST_SIZE)).
      assert (LOST_SIZE = 24) by done. destruct Hinv as [[? _]]. lia. }
    rewrite (write_event_plain (flushed r) (rs ++ [PLost (lost r)])) by first
      [done | (unfold pos_bound; lia) | (destruct Hrel; [by left|right; change (data_region_size (flushed r)) with (data_region_size r); lia])
      | by left | simpl; lia].
    subst new fits. rewrite Hfs, Hrl, app_assoc.
    change (rec_size (PSample xs)) with (12 + Z.of_nat (length xs)). fold (free_space (flushed r)).
    destruct (Z.leb_spec (12 + Z.of_nat (length xs)) (free_space (flushed r))) as [Hf|Hf].
    + eexists. split; [done|]. split; [|done]. exact (put_inv (flushed r) _ (PSample xs) 0 Hinv1 Hf ltac:(lia)).
    + eexists. split; [done|]. split; [|done]. rewrite app_nil_r. apply with_lost_inv; [exact Hinv1|simpl; lia].
  - assert (flushes r = []) as Hfs by (unfold flushes; by rewrite Hflush).
    assert (still_lost r = lost r) as -> by (unfold still_lost; by rewrite Hflush).
    assert (room_left r = free_space r) as Hrl by (unfold room_left; by rewrite Hfs).
    rewrite andb_false_iff, Z.ltb_ge, Z.leb_gt in Hflush. unfold free_space in Hflush at 1.
    rewrite (write_event_plain r rs) by (done || (unfold pos_bound; lia) || (change LOST_SIZE with 24; lia)).
    subst new fits. rewrite Hfs, Hrl. change (rec_size (PSample xs)) with (12 + Z.of_nat (length xs)). fold (free_space r).
    destruct (Z.leb_spec (12 + Z.of_nat (length xs)) (free_space r)) as [Hf|Hf]; cbn [app].
    + eexists. split; [done|]. split; [|done]. by apply (put_inv r rs (PSample xs) (lost r)).
    + eexists. split; [done|]. split; [|done]. rewrite app_nil_r. apply with_lost_inv; [exact Hinv|lia].
Qed.

Definition demo_page (h t l : Z) : RingPage :=
  {| ptr := 65536; rp_size := 8192; data_region_size := 4096; lost := l; data_head := h; data_tail := t;
     pdata := repeat 0 4096 |}.
Lemma demo_page_inv t l : 0 ≤ t → t mod 4096 ≤ 4088 → 0 ≤ l → perf_inv (demo_page t t l) [].
Proof.
  intros Ht Hf Hl. apply Build_perf_inv; simpl; [|by split|done|lia|done|done]. split; [lia|].
  reflexivity.
Qed.

Lemma perf_write_accounts_witness :
  let _ : BuildMode := false in
  let r := demo_page 8176 8176 3 in
  ∃ r', RingPage_write_event r [1; 2; 3] = Ok r' ∧ perf_inv r' [PLost 3; PSample [1; 2; 3]] ∧ lost r' = 0.
Proof.
  intros b r.
  destruct (perf_write_accounts r [] [1; 2; 3]) as (r' & Hw & Hi & _ & Hl & _).
  - apply demo_page_inv; [lia|vm_compute; congruence|lia].
  - by left.
  - simpl. lia.
  - simpl. lia.
  - simpl. lia.
  - exists r'. by split_and!.
Defined.

(** User space reads the first records and advances [data_tail] past them. *)
Definition user_reads (r : RingPage) (rs : list PRec) : RingPage :=
  {| ptr := ptr r; rp_size := rp_size r; data_region_size := data_region_size r; lost := lost r;
     data_head := data_head r; data_tail := end_pos (data_region_size r) (data_tail r) rs; pdata := pdata r |}.

(** Reading is the inverse of writing and needs no more than the headers:
    a reader that advances the tail past any prefix of the unread records
    finds the next header contiguous in the region, never wrapped around its
    end, the remaining records intact, and the ring in a state the writer
    accepts. *)
Theorem perf_headers_contiguous r rs1 rs2 :
  perf_inv r (rs1 ++ rs2) →
  perf_inv (user_reads r rs1) rs2 ∧
  header_fits (data_region_size r) (data_tail (user_reads r rs1)) ∧
  (readable (user_reads r rs1) = true ↔ rs2 ≠ []).
Proof.
  intros [[Hreg Hd] [Ht Hth] Hh Hroom Hl Hlay].
  pose proof (end_pos_ge (data_region_size r) (data_tail r) rs1 ltac:(lia)) as He.
  pose proof (end_pos_header (data_region_size r) (data_tail r) rs1 ltac:(unfold HEADER_SIZE; lia) Hth) as Hf.
  rewrite end_pos_app in Hh. split; [|split; [done|]].
  - apply playout_app in Hlay as [_ Hl2]. rewrite Hd in Hl2.
    apply Build_perf_inv; simpl; [done|split; [lia|done]|done|lia|done|done].
  - unfold readable. simpl. rewrite Hh. destruct rs2 as [|rc rs2]; simpl.
    + rewrite Z.eqb_refl. naive_solver.
    + pose proof (end_pos_ge (data_region_size r)
        (next_pos (data_region_size r) (end_pos (data_region_size r) (data_tail r) rs1) rc) rs2 ltac:(lia)) as Hg.
      unfold next_pos in Hg at 1. pose proof (rec_size_pos rc).
      pose proof (fill_range (data_region_size r)
        (end_pos (data_region_size r) (data_tail r) rs1 + rec_size rc) ltac:(lia)).
      split; [done|]. intros _. apply negb_true_iff, Z.eqb_neq. lia.
Qed.

Lemma perf_headers_contiguous_witness :
  let r := demo_page 8176 8176 3 in
  perf_inv (user_reads r []) [] ∧ header_fits 4096 8176 ∧ (readable (user_reads r []) = true ↔ ([] : list PRec) ≠ []).
Proof.
  intros r. apply (perf_headers_contiguous r [] []).
  apply demo_page_inv; [lia|vm_compute; congruence|lia].
Defined.

(** With overflow checks the free-space computation underflows as soon as
    the head has passed the size of the region: the next event panics. *)
Lemma perf_write_panics_checked `{BuildMode} r xs :
  overflow_checks = true → 0 ≤ data_region_size r < data_head r →
  RingPage_write_event r xs = Panic.
Proof.
  intros Hc Hh. assert (can_write r HEADER_SIZE = Panic) as Hp.
  { unfold can_write. assert (arith (E:=BpfError) 64 (data_region_size r - data_head r) = Panic) as ->; [|done].
    unfold arith, in_u. rewrite (proj2 (Z.leb_gt _ _)) by lia. by rewrite Hc. }
  unfold RingPage_write_event. cbn [write_event]. by rewrite Hp.
Qed.

(** An empty event panics in [write_any]. *)
Lemma perf_empty_event_panics :
  let _ : BuildMode := false in RingPage_write_event (demo_page 0 0 0) [] = Panic.
Proof. vm_compute. reflexivity. Qed.

(** The header of a record has 16 bits for its size: with a payload of 65524
    bytes the record takes 65536 bytes of the ring and says that it has none. *)
Lemma perf_size_wraps `{BuildMode} r rs xs :
  perf_inv r rs → overflow_checks = false → pos_bound r → Z.of_nat (length xs) = 65524 → 65536 ≤ data_region_size r →
  fill_at (data_region_size r) (data_head r + 65536) = 0 →
  write_sample r xs (data_head r) =
    Ok (dstore (pdata r) (data_head r) (sample_header 0 65524 ++ xs), data_head r + 65536).
Proof.
  intros [[Hreg Hd] [Ht Hth] Hh Hroom Hl0 Hlay] Hrel Hb Hx Hn Hf. unfold pos_bound in Hb.
  pose proof (end_pos_ge (data_region_size r) (data_tail r) rs ltac:(lia)).
  unfold write_sample, calculate_size, SAMPLE_HEADER_SIZE. rewrite Hx. arith_step. unfold fill_size.
  fold (fill_at (data_region_size r) (data_head r + (12 + 65524))). change (12 + 65524) with 65536. rewrite Hf.
  assert (arith (E:=BpfError) 16 (12 + wrapu 16 65524) = Ok 0) as -> by (unfold arith; by rewrite Hrel).
  cbn [mbind res_bind]. assert (arith (E:=BpfError) 16 (0 + wrapu 16 0) = Ok 0) as -> by done. cbn [mbind res_bind].
  change (wrapu 32 65524) with 65524.
  rewrite write_any_spec by (rewrite ?length_sample_header; done || lia). cbn [mbind res_bind].
  rewrite write_any_spec; rewrite ?dlen_dstore; [|done|lia|lia|lia]. cbn [mbind res_bind]. arith_step.
  rewrite dstore_app, length_sample_header. do 2 f_equal. lia.
Qed.

(** Writing before [do_mmap] dereferences a null page. *)
Lemma perf_write_unmapped `{BuildMode} xs : perf_write_event (enable BpfPerfEvent_new) xs = Panic.
Proof. reflexivity. Qed.
