(* ===== verification/StaticKey.v ===== *)
(** The interface to the static-keys crate, shared by dynamic debug and
    tracepoints. *)
From S2P Require Import Prelude.

(** [RawStaticFalseKey] of the static-keys crate: reading it is the branch
    [static_branch_unlikely!] takes. *)
Class StaticKey (K : Type) := {
  key_enabled : K → bool;
  key_enable : K → K;
  key_disable : K → K;
}.
(** Its documented behaviour: the branch follows the last call. *)
Class StaticKeyLaws (K : Type) `{StaticKey K} : Prop := {
  enabled_enable k : key_enabled (key_enable k) = true;
  enabled_disable k : key_enabled (key_disable k) = false;
}.

(** A static key that is its own state. *)
#[export] Instance bool_key : StaticKey bool :=
  {| key_enabled := id; key_enable := λ _, true; key_disable := λ _, false |}.
#[export] Instance bool_key_laws : StaticKeyLaws bool.
Proof. by split. Qed.
