(* ===== verification/Ddebug.v ===== *)
(** Dynamic debug (ddebug/src: runtime.rs, control.rs, lib.rs): debug sites
    and their flags, the command language of the control file, and the
    control file itself.

    A static key is an interface: each site owns the key its macro defines.
    The kernel's text output and thread id are arguments. *)
From S2P Require Import Prelude Text StaticKey.

(** ** Sites and flags (runtime.rs) *)
Definition FLAG_PRINT : Z := Z.shiftl 1 0.
Definition FLAG_THREAD : Z := Z.shiftl 1 1.
Definition FLAG_MODULE : Z := Z.shiftl 1 2.
Definition FLAG_FUNC : Z := Z.shiftl 1 3.
Definition FLAG_SOURCE : Z := Z.shiftl 1 4.
Definition FLAG_LINE : Z := Z.shiftl 1 5.

(** [flags & bit != 0]. *)
Definition has_flag (flags bit : Z) : bool := negb (Z.land flags bit =? 0).

Record DebugSite (K : Type) := {
  flags : Z;
  line : Z;
  module : text;
  file : text;
  function : text;
  format : text;
  key : K;
}.
Arguments flags {K}. Arguments line {K}. Arguments module {K}. Arguments file {K}.
Arguments function {K}. Arguments format {K}. Arguments key {K}.

Section sites.
Context {K : Type} `{StaticKey K}.

Definition DebugSite_new (key : K) (module file : text) (line : Z) (function format : text) : DebugSite K :=
  {| flags := 0; line := line; module := module; file := file; function := function; format := format; key := key |}.

Definition set_flags (s : DebugSite K) (next : Z) : DebugSite K :=
  let prev_print := has_flag (flags s) FLAG_PRINT in
  let next_print := has_flag next FLAG_PRINT in
  {| flags := next; line := line s; module := module s; file := file s; function := function s;
     format := format s;
     key := if Bool.eqb prev_print next_print then key s
            else if next_print then key_enable (key s) else key_disable (key s) |}.

Definition flag_mask_for (c : Z) : option Z :=
  if c =? ch "p" then Some FLAG_PRINT
  else if c =? ch "t" then Some FLAG_THREAD
  else if c =? ch "m" then Some FLAG_MODULE
  else if c =? ch "f" then Some FLAG_FUNC
  else if c =? ch "s" then Some FLAG_SOURCE
  else if c =? ch "l" then Some FLAG_LINE
  else None.

Definition flag_chars : list (Z * Z) :=
  [(FLAG_PRINT, ch "p"); (FLAG_THREAD, ch "t"); (FLAG_MODULE, ch "m");
   (FLAG_FUNC, ch "f"); (FLAG_SOURCE, ch "s"); (FLAG_LINE, ch "l")].

Definition flags_to_string (flags : Z) : text :=
  let out := bs "=" ++ map snd (List.filter (λ bc, has_flag flags bc.1) flag_chars) in
  if (length out =? 1)%nat then out ++ bs "_" else out.
Definition flags_string (s : DebugSite K) : text := flags_to_string (flags s).

(** [append_prefix]: the text added in front of a message. *)
Definition append_prefix (thread_id : Z) (s : DebugSite K) (flags : Z) : text :=
  (if has_flag flags FLAG_THREAD then bs "tid=" ++ show_u 10 thread_id ++ bs " " else []) ++
  (if has_flag flags FLAG_MODULE then bs "[" ++ module s ++ bs "] " else []) ++
  (if has_flag flags FLAG_FUNC && negb (bool_decide (function s = [])) then function s ++ bs " " else []) ++
  (if has_flag flags FLAG_SOURCE then
     file s ++ (if has_flag flags FLAG_LINE then bs ":" ++ show_u 10 (line s) else []) ++ bs " "
   else if has_flag flags FLAG_LINE then bs "line:" ++ show_u 10 (line s) ++ bs " " else []).

(** [__dynamic_pr_debug]: the line passed to [emit], if any; [args] is the
    formatted message. *)
Definition dynamic_pr_debug (thread_id : Z) (s : DebugSite K) (args : text) : option text :=
  if negb (has_flag (flags s) FLAG_PRINT) then None
  else
    let line := append_prefix thread_id s (flags s) ++ args in
    Some (if ends_with line [10] then line else line ++ [10]).

(** The expansion of [pr_debug!] and [pr_debug_fn!]. *)
Definition pr_debug (thread_id : Z) (s : DebugSite K) (args : text) : option text :=
  if key_enabled (key s) then dynamic_pr_debug thread_id s args else None.

(** *** [scan_debug_sites]: a stable sort *)
Definition text_compare (a b : text) : comparison := str_compare (to_utf8 a) (to_utf8 b).
(** [Ordering::then]. *)
Definition then_ (c d : comparison) : comparison := match c with Eq => d | _ => c end.

Definition site_compare (l r : DebugSite K) : comparison :=
  then_ (then_ (then_ (then_ (text_compare (file l) (file r)) (line l ?= line r))
    (text_compare (module l) (module r))) (text_compare (function l) (function r)))
    (text_compare (format l) (format r)).

Definition scan_debug_sites (raw_sites : list (DebugSite K)) : list (DebugSite K) :=
  sort_by site_compare raw_sites.
End sites.

(** ** Selectors (control.rs) *)
Definition has_glob (pattern : text) : bool :=
  existsb (λ b, (b =? ch "*") || (b =? ch "?")) (to_utf8 pattern).

(** The two loops of [glob_match], on indices; [star] is [star_idx] with
    [star_match]. *)
Fixpoint glob_skip (fuel : nat) (pattern : str) (pat_idx : nat) : nat :=
  match fuel with
  | O => pat_idx
  | S fuel => match pattern !! pat_idx with
              | Some x => if x =? ch "*" then glob_skip fuel pattern (S pat_idx) else pat_idx
              | None => pat_idx
              end
  end.
Fixpoint glob_loop (fuel : nat) (pattern value : str) (pat_idx val_idx : nat) (star : option (nat * nat))
    : res () bool :=
  match fuel with
  | O => OutOfFuel
  | S fuel =>
      match value !! val_idx with
      | None => Ok (glob_skip (length pattern) pattern pat_idx =? length pattern)%nat
      | Some v =>
          let p := pattern !! pat_idx in
          if match p with Some x => (x =? ch "?") || (x =? v) | None => false end then
            glob_loop fuel pattern value (S pat_idx) (S val_idx) star
          else if match p with Some x => x =? ch "*" | None => false end then
            glob_loop fuel pattern value (S pat_idx) val_idx (Some (pat_idx, val_idx))
          else match star with
               | Some (star_idx, star_match) =>
                   glob_loop fuel pattern value (S star_idx) (S star_match) (Some (star_idx, S star_match))
               | None => Ok false
               end
      end
  end.
Definition glob_fuel (pattern value : str) : nat :=
  S ((S (length value)) * S (length pattern) + length pattern).
Definition glob_match (pattern value : text) : res () bool :=
  let p := to_utf8 pattern in let v := to_utf8 value in glob_loop (glob_fuel p v) p v 0 0 None.

(** [a || b] where [b] may not be evaluated. *)
Definition or_else {E} (a b : res E bool) : res E bool := x ← a; if x : bool then Ok true else b.

Definition matches_file (pattern value : text) : res () bool :=
  if has_glob pattern then glob_match pattern value
  else Ok (bool_decide (value = pattern) || ends_with value pattern).

Definition matches_module (pattern value : text) : res () bool :=
  if has_glob pattern then glob_match pattern value
  else if bool_decide (value = pattern) then Ok true
  else Ok (match strip_suffix value pattern with Some prefix => ends_with prefix (bs "::") | None => false end).

Definition matches_func (pattern value : text) : res () bool :=
  let tail := rsplit_last (ch ":") (ch ":") value in
  if has_glob pattern then or_else (glob_match pattern value) (glob_match pattern tail)
  else Ok (bool_decide (value = pattern) || bool_decide (tail = pattern)).

Definition matches_format (pattern value : text) : res () bool :=
  if has_glob pattern then glob_match pattern value else Ok (contains value pattern).

Record LineRange := { start : Z; end_ : Z }.
Definition range_contains (r : LineRange) (line : Z) : bool := (start r <=? line) && (line <=? end_ r).

Inductive Selector :=
  | File (pattern : text)
  | Func (pattern : text)
  | Module_ (pattern : text)
  | Line (range : LineRange)
  | Format (pattern : text).

Inductive FlagOpKind := Add | Remove | Replace.
Record FlagOp := { kind : FlagOpKind; fmask : Z }.
Definition FlagOp_apply (o : FlagOp) (current : Z) : Z :=
  match kind o with
  | Add => Z.lor current (fmask o)
  | Remove => Z.land current (wrapu 8 (Z.lnot (fmask o)))
  | Replace => fmask o
  end.

Record Command := { selectors : list Selector; operation : FlagOp }.

Definition selector_matches {K} (sel : Selector) (s : DebugSite K) : res () bool :=
  match sel with
  | File p => matches_file p (file s)
  | Func p => matches_func p (function s)
  | Module_ p => matches_module p (module s)
  | Line r => Ok (range_contains r (line s))
  | Format p => matches_format p (format s)
  end.
(** [iter().all]: stops at the first selector that does not match. *)
Fixpoint all_match {K} (sels : list Selector) (s : DebugSite K) : res () bool :=
  match sels with
  | [] => Ok true
  | sel :: sels => b ← selector_matches sel s; if b : bool then all_match sels s else Ok false
  end.
Definition matches {K} (c : Command) (s : DebugSite K) : res () bool := all_match (selectors c) s.
Definition apply (c : Command) (current : Z) : Z := FlagOp_apply (operation c) current.

(** ** The command language *)
Record Error := { msg : text }.
Definition error (m : text) : Error := {| msg := m |}.
(** Backquoted [x] in a message. *)
Definition quoted (x : text) : text := bs "`" ++ x ++ bs "`".

(** *** [tokenize] *)
Record TokState := {
  commands : list (list text);
  current : list text;
  token : text;
  quote : option Z;
  escape : bool;
}.
Definition tok_init : TokState := {| commands := []; current := []; token := []; quote := None; escape := false |}.

Definition push_char (st : TokState) (c : Z) : TokState :=
  {| commands := commands st; current := current st; token := token st ++ [c]; quote := quote st; escape := false |}.
Definition set_escape (st : TokState) : TokState :=
  {| commands := commands st; current := current st; token := token st; quote := quote st; escape := true |}.
Definition set_quote (st : TokState) (q : option Z) : TokState :=
  {| commands := commands st; current := current st; token := token st; quote := q; escape := false |}.
Definition finish_token (st : TokState) : TokState :=
  if bool_decide (token st = []) then st
  else {| commands := commands st; current := current st ++ [token st]; token := []; quote := quote st; escape := escape st |}.
Definition finish_command (st : TokState) : TokState :=
  if bool_decide (current st = []) then st
  else {| commands := commands st ++ [current st]; current := []; token := token st; quote := quote st; escape := escape st |}.

Definition tok_step (st : TokState) (c : Z) : TokState :=
  if escape st then push_char st c
  else match quote st with
  | Some q =>
      if c =? ch "\" then set_escape st else if c =? q then set_quote st None else push_char st c
  | None =>
      if c =? ch "\" then set_escape st
      else if (c =? 34) || (c =? 39) then set_quote st (Some c)
      else if (c =? ch ";") || (c =? 10) then finish_command (finish_token st)
      else if is_whitespace c then finish_token st
      else push_char st c
  end.

Definition tokenize (input : text) : res Error (list (list text)) :=
  let st := foldl tok_step tok_init input in
  match quote st with
  | Some _ => Err (error (bs "unterminated quoted string in dynamic debug command"))
  | None =>
      let st := if escape st then push_char st (ch "\") else st in
      Ok (commands (finish_command (finish_token st)))
  end.

(** *** Tokens to commands *)
Definition is_flag_token (token : text) : bool :=
  match token with
  | head :: _ => (head =? ch "+") || (head =? ch "-") || (head =? ch "=")
  | [] => false
  end.

Fixpoint flag_mask (token rest : text) (mask : Z) : res Error Z :=
  match rest with
  | [] => Ok mask
  | c :: rest =>
      if c =? ch "_" then Err (error (bs "underscore is only valid in the exact form `=_`, got " ++ quoted token))
      else match flag_mask_for c with
           | Some flag => flag_mask token rest (Z.lor mask flag)
           | None => Err (error (bs "unknown dynamic debug flag " ++ quoted [c] ++ bs " in " ++ quoted token))
           end
  end.
Definition parse_flag_op (token : text) : res Error FlagOp :=
  match token with
  | [] => Err (error (bs "empty flag operation"))
  | head :: rest =>
      if (head =? ch "=") && bool_decide (rest = bs "_") then Ok {| kind := Replace; fmask := 0 |}
      else if bool_decide (rest = []) then
        Err (error (bs "flag operation " ++ quoted token ++ bs " does not specify any flags"))
      else
        mask ← flag_mask token rest 0;
        if head =? ch "+" then Ok {| kind := Add; fmask := mask |}
        else if head =? ch "-" then Ok {| kind := Remove; fmask := mask |}
        else if head =? ch "=" then Ok {| kind := Replace; fmask := mask |}
        else Panic
  end.

Definition parse_u32 (t what : text) : res Error Z :=
  map_err (λ _, error (bs "invalid " ++ what ++ bs " " ++ quoted t)) (parse_unsigned 32 (to_utf8 t)).

Definition parse_line_range (t : text) : res Error LineRange :=
  match split_once (ch "-") t with
  | Some (a, b) =>
      a ← parse_u32 a (bs "line range start");
      b ← parse_u32 b (bs "line range end");
      if b <? a then
        Err (error (bs "invalid line range " ++ quoted t ++ bs ": start is greater than end"))
      else Ok {| start := a; end_ := b |}
  | None => l ← parse_u32 t (bs "line"); Ok {| start := l; end_ := l |}
  end.

Inductive Keyword := KFile | KFunc | KModule | KLine | KFormat.
Definition keyword_text (k : Keyword) : text :=
  match k with
  | KFile => bs "file" | KFunc => bs "func" | KModule => bs "module" | KLine => bs "line" | KFormat => bs "format"
  end.
Definition keyword_of (token : text) : option Keyword :=
  List.find (λ k, bool_decide (token = keyword_text k)) [KFile; KFunc; KModule; KLine; KFormat].
Definition make_selector (k : Keyword) (value : text) : res Error Selector :=
  match k with
  | KFile => Ok (File value)
  | KFunc => Ok (Func value)
  | KModule => Ok (Module_ value)
  | KLine => r ← parse_line_range value; Ok (Line r)
  | KFormat => Ok (Format value)
  end.

(** The [while] loop of [parse_command]; a keyword consumes two tokens. *)
Fixpoint parse_tokens (tokens : list text) (selectors : list Selector) (operation : option FlagOp)
    : res Error (list Selector * option FlagOp) :=
  match tokens with
  | [] => Ok (selectors, operation)
  | token :: tokens =>
      if is_flag_token token then
        match operation with
        | Some _ => Err (error (bs "multiple flag operations in one command"))
        | None => o ← parse_flag_op token; parse_tokens tokens selectors (Some o)
        end
      else match keyword_of token with
      | Some k =>
          match tokens with
          | [] => Err (error (bs "missing value after " ++ quoted (keyword_text k)))
          | value :: tokens => s ← make_selector k value; parse_tokens tokens (selectors ++ [s]) operation
          end
      | None => Err (error (bs "unknown dynamic debug token " ++ quoted token))
      end
  end.
Definition parse_command (tokens : list text) : res Error Command :=
  '(selectors, operation) ← parse_tokens tokens [] None;
  operation ← ok_or operation (error (bs "missing flag operation such as `+p`"));
  Ok {| selectors := selectors; operation := operation |}.

Fixpoint parse_all (token_lines : list (list text)) : res Error (list Command) :=
  match token_lines with
  | [] => Ok []
  | tokens :: lines => c ← parse_command tokens; cs ← parse_all lines; Ok (c :: cs)
  end.
Definition parse_commands (input : text) : res Error (list Command) :=
  token_lines ← tokenize input;
  if bool_decide (token_lines = []) then Err (error (bs "empty dynamic debug command"))
  else parse_all token_lines.

(** ** The control file *)
Section control.
Context `{BuildMode} {K : Type} `{StaticKey K}.

Record ControlFile := { sites : list (DebugSite K) }.
Definition ControlFile_new (s : list (DebugSite K)) : ControlFile := {| sites := s |}.
Definition site_count (ctl : ControlFile) : nat := length (sites ctl).

Definition write_site_line (out : text) (s : DebugSite K) : text :=
  out ++ file s ++ bs ":" ++ show_u 10 (line s) ++ bs " [" ++ module s ++ bs "]" ++
  (if bool_decide (function s = []) then bs " " else function s ++ bs " ") ++
  flags_string s ++ [32; 34] ++ format s ++ [34; 10].
Definition read (ctl : ControlFile) : text :=
  foldl write_site_line (bs "# filename:lineno [module]function flags format" ++ [10]) (sites ctl).

(** [apply_command]: the sites after it and the number of matches. *)
Fixpoint apply_command (c : Command) (sites : list (DebugSite K)) (n : Z) : res () (list (DebugSite K) * Z) :=
  match sites with
  | [] => Ok ([], n)
  | s :: sites =>
      b ← matches c s;
      if b : bool then
        n ← arith 64 (n + 1);
        '(sites, n) ← apply_command c sites n; Ok (set_flags s (apply c (flags s)) :: sites, n)
      else '(sites, n) ← apply_command c sites n; Ok (s :: sites, n)
  end.
Fixpoint apply_commands (cs : list Command) (sites : list (DebugSite K)) (total : Z)
    : res () (list (DebugSite K) * Z) :=
  match cs with
  | [] => Ok (sites, total)
  | c :: cs =>
      '(sites, n) ← apply_command c sites 0;
      total ← arith 64 (total + n);
      apply_commands cs sites total
  end.

(** [ControlFile::write]: every command is parsed before any is applied. *)
Definition write (ctl : ControlFile) (query : text) : res Error (Z * ControlFile) :=
  cs ← parse_commands query;
  '(s, n) ← map_err (λ _, error []) (apply_commands cs (sites ctl) 0);
  Ok (n, {| sites := s |}).

Definition dynamic_debug_init (raw_sites : list (DebugSite K)) : ControlFile :=
  ControlFile_new (scan_debug_sites raw_sites).
End control.
Arguments ControlFile K : clear implicits.
