(* ===== verification/DdebugGlob.v ===== *)
(** The wildcard matcher of dynamic debug: its backtracking loop against the
    language of a pattern. *)
From S2P Require Import Prelude Text Ddebug.

(** ** The wildcard matcher *)

(** The language of a pattern. *)
Inductive wild : str → str → Prop :=
  | wild_nil : wild [] []
  | wild_one p c v : wild p v → wild (ch "?" :: p) (c :: v)
  | wild_lit x p v : x ≠ ch "?" → x ≠ ch "*" → wild p v → wild (x :: p) (x :: v)
  | wild_skip p v : wild p v → wild (ch "*" :: p) v
  | wild_more p c v : wild (ch "*" :: p) v → wild (ch "*" :: p) (c :: v).

Lemma wild_star p v : wild (ch "*" :: p) v ↔ ∃ i, wild p (drop i v).
Proof.
  split.
  - intros H. remember (ch "*" :: p) as q eqn:Hq. revert p Hq.
    induction H as [|q c v Hw IH|x q v H1 H2 Hw IH|q v Hw IH|q c v Hw IH]; intros p' Hq;
      simplify_eq.
    + by exists 0%nat.
    + destruct (IH p' eq_refl) as [i Hi]. by exists (S i).
  - intros [i Hi]. revert v Hi. induction i as [|i IH]; intros v Hi; [by apply wild_skip|].
    destruct v as [|c v]; [by apply wild_skip|]. apply wild_more. by apply IH.
Qed.

Lemma wild_cons_inv x p c v :
  wild (x :: p) (c :: v) → x ≠ ch "*" → (x = ch "?" ∨ x = c) ∧ wild p v.
Proof. intros H Hx. inversion H; subst; auto; congruence. Qed.

(** A star-free prefix consumes one byte per byte. *)
Lemma wild_prefix q p v :
  ch "*" ∉ q → wild (q ++ p) v → (length q ≤ length v)%nat ∧ wild p (drop (length q) v).
Proof.
  revert v. induction q as [|x q IH]; intros v Hq H; [split; [simpl; lia|done]|].
  apply not_elem_of_cons in Hq as [Hx Hq].
  destruct v as [|c v]; [inversion H; subst; congruence|].
  apply wild_cons_inv in H as [_ H]; [|congruence]. destruct (IH v Hq H). simpl. split; [lia|done].
Qed.

Section glob.
Context (P V : str).

Definition glob_goal (star : option (nat * nat)) (pi vi : nat) : Prop :=
  wild (drop pi P) (drop vi V) ∨
  match star with Some (si, sm) => wild (ch "*" :: drop (S si) P) (drop (S sm) V) | None => False end.

(** What was consumed since the last star is star-free, byte for byte. *)
Definition glob_inv (star : option (nat * nat)) (pi vi : nat) : Prop :=
  (pi ≤ length P)%nat ∧ (vi ≤ length V)%nat ∧
  match star with
  | Some (si, sm) =>
      P !! si = Some (ch "*") ∧ (si < pi)%nat ∧ (vi + S si = pi + sm)%nat ∧
      (ch "*" ∉ V → ch "*" ∉ take (pi - S si) (drop (S si) P))
  | None => True
  end.

Definition glob_measure (star : option (nat * nat)) (pi : nat) : nat :=
  match star with Some (_, sm) => length V - sm | None => S (length V) end * S (length P) + (length P - pi).

(** The pending backtrack, seen from the current position. *)
Lemma glob_backtrack si sm pi vi :
  glob_inv (Some (si, sm)) pi vi → ch "*" ∉ V →
  wild (ch "*" :: drop (S si) P) (drop (S sm) V) →
  ∃ i, (S i ≤ length V - vi ∨ pi = S si)%nat ∧ wild (drop pi P) (drop (vi + S i) V).
Proof.
  intros (Hp & Hv & _ & Hlt & Hk & Hq) Hns [i Hi]%wild_star. specialize (Hq Hns). exists i.
  rewrite <- (take_drop (pi - S si) (drop (S si) P)) in Hi. apply wild_prefix in Hi as [Hl Hw]; [|done].
  rewrite length_take, !length_drop in Hl. rewrite length_take, !length_drop, !drop_drop in Hw.
  split; [lia|]. replace (vi + S i)%nat with (S sm + (i + (pi - S si) `min` (length P - S si)))%nat by lia.
  by replace (S si + (pi - S si))%nat with pi in Hw by lia.
Qed.

Lemma glob_skip_spec fuel pi :
  (pi ≤ length P)%nat → (length P - pi ≤ fuel)%nat →
  (glob_skip fuel P pi =? length P)%nat = true ↔ wild (drop pi P) [].
Proof.
  revert pi. induction fuel as [|fuel IH]; intros pi Hp Hf; simpl.
  - rewrite drop_ge by lia. rewrite Nat.eqb_eq. split; [constructor|lia].
  - destruct (P !! pi) as [x|] eqn:Hx.
    + pose proof (lookup_lt_Some _ _ _ Hx). rewrite (drop_S _ _ _ Hx).
      destruct (Z.eqb_spec x (ch "*")) as [->|Hs].
      * rewrite IH by lia. split; [apply wild_skip|]. by inversion 1.
      * rewrite Nat.eqb_eq. split; [lia|]. by inversion 1.
    + apply lookup_ge_None in Hx. rewrite drop_ge by lia. rewrite Nat.eqb_eq. split; [constructor|lia].
Qed.

(** The three moves of the loop. *)
Lemma glob_advance star pi vi x v :
  glob_inv star pi vi → P !! pi = Some x → V !! vi = Some v → x = ch "?" ∨ x = v →
  glob_inv star (S pi) (S vi) ∧ (glob_goal star (S pi) (S vi) → glob_goal star pi vi) ∧
  (ch "*" ∉ V → glob_goal star pi vi → glob_goal star (S pi) (S vi)).
Proof.
  intros (Hp & Hv & Hs) Hx Hv' Hm. pose proof (lookup_lt_Some _ _ _ Hx). pose proof (lookup_lt_Some _ _ _ Hv').
  unfold glob_goal. rewrite (drop_S _ _ _ Hx), (drop_S _ _ _ Hv'). split; [|split].
  - split; [lia|]. split; [lia|]. destruct star as [[si sm]|]; [|done]. destruct Hs as (H1 & H2 & H3 & H4).
    split; [done|]. split; [lia|]. split; [lia|]. intros Hns. specialize (H4 Hns).
    replace (S pi - S si)%nat with (S (pi - S si)) by lia.
    assert (drop (S si) P !! (pi - S si)%nat = Some x) as Hx'.
    { rewrite lookup_drop. by replace (S si + (pi - S si))%nat with pi by lia. }
    rewrite (take_S_r _ _ _ Hx'). rewrite elem_of_app, list_elem_of_singleton. intros [?|Heq]; [done|].
    destruct Hm as [->| ->]; [done|]. apply Hns. rewrite Heq. by eapply list_elem_of_lookup_2.
  - intros [Hw|Hw]; [left|by right]. destruct (Z.eq_dec x (ch "?")) as [->|Hq]; [by constructor|].
    destruct Hm as [?|<-]; [done|]. destruct (Z.eq_dec x (ch "*")) as [->|]; [|by constructor].
    by apply wild_more, wild_skip.
  - intros Hns [Hw|Hw]; [left|by right]. apply wild_cons_inv in Hw as [_ Hw]; [done|]. intros ->.
    destruct Hm as [?|<-]; [done|]. apply Hns. by eapply list_elem_of_lookup_2.
Qed.

Lemma glob_push star pi vi :
  glob_inv star pi vi → P !! pi = Some (ch "*") → (vi < length V)%nat →
  glob_inv (Some (pi, vi)) (S pi) vi ∧ (glob_goal (Some (pi, vi)) (S pi) vi → glob_goal star pi vi) ∧
  (ch "*" ∉ V → glob_goal star pi vi → glob_goal (Some (pi, vi)) (S pi) vi).
Proof.
  intros Hinv Hx Hlt. pose proof (lookup_lt_Some _ _ _ Hx). unfold glob_goal.
  rewrite (drop_S _ _ _ Hx). split; [|split].
  - split; [lia|]. split; [lia|]. split; [done|]. split; [lia|]. split; [lia|].
    intros _. rewrite Nat.sub_diag. simpl. apply not_elem_of_nil.
  - intros [Hw|[i Hi]%wild_star]; left; apply wild_star; [by exists 0%nat|].
    exists (S i). rewrite drop_drop in Hi. by rewrite drop_drop, Nat.add_succ_r.
  - intros Hns [[[|i] Hi]%wild_star|Hw]; [by left|right|right].
    + apply wild_star. exists i. rewrite drop_drop in Hi. by rewrite drop_drop, Nat.add_succ_comm.
    + destruct star as [[si sm]|]; [|done].
      destruct (glob_backtrack _ _ _ _ Hinv Hns Hw) as (i & _ & Hi). rewrite (drop_S _ _ _ Hx) in Hi.
      apply wild_star in Hi as [j Hj]. apply wild_star. exists (i + j)%nat. rewrite drop_drop in Hj.
      rewrite drop_drop. by replace (S vi + (i + j))%nat with (vi + S i + j)%nat by lia.
Qed.

Lemma glob_retry si sm pi vi :
  glob_inv (Some (si, sm)) pi vi → (vi < length V)%nat → ¬ wild (drop pi P) (drop vi V) →
  glob_inv (Some (si, S sm)) (S si) (S sm) ∧
  (glob_goal (Some (si, S sm)) (S si) (S sm) ↔ glob_goal (Some (si, sm)) pi vi).
Proof.
  intros (Hp & Hv & Hs & Hlt & Hk & _) Hvi Hno. split.
  - split; [lia|]. split; [lia|]. split; [done|]. split; [lia|]. split; [lia|].
    intros _. rewrite Nat.sub_diag. simpl. apply not_elem_of_nil.
  - unfold glob_goal. rewrite !wild_star. split.
    + intros [Hw|[i Hi]]; right; [by exists 0%nat|]. exists (S i). rewrite drop_drop in *.
      by rewrite Nat.add_succ_r.
    + intros [?|[[|i] Hi]]; [done|by left|right]. exists i. rewrite drop_drop in *. by rewrite Nat.add_succ_comm.
Qed.

Lemma glob_mismatch pi vi v :
  V !! vi = Some v →
  match P !! pi with Some x => (x =? ch "?") || (x =? v) | None => false end = false →
  match P !! pi with Some x => x =? ch "*" | None => false end = false →
  ¬ wild (drop pi P) (drop vi V).
Proof.
  intros Hv H1 H2 Hw. rewrite (drop_S _ _ _ Hv) in Hw. destruct (P !! pi) as [x|] eqn:Hx.
  - apply orb_false_iff in H1 as [?%Z.eqb_neq ?%Z.eqb_neq]. apply Z.eqb_neq in H2.
    rewrite (drop_S _ _ _ Hx) in Hw. apply wild_cons_inv in Hw as [[?|?] _]; congruence.
  - apply lookup_ge_None in Hx. rewrite drop_ge in Hw by lia. inversion Hw.
Qed.

(** At the end of the value no backtrack can help. *)
Lemma glob_end star pi vi :
  glob_inv star pi vi → V !! vi = None → ch "*" ∉ V → glob_goal star pi vi → wild (drop pi P) [].
Proof.
  intros Hinv Hv%lookup_ge_None Hns [Hw|Hw]; [by rewrite (drop_ge V) in Hw|].
  destruct star as [[si sm]|]; [|done]. destruct (glob_backtrack _ _ _ _ Hinv Hns Hw) as (i & _ & Hi).
  by rewrite (drop_ge V) in Hi by lia.
Qed.

Lemma glob_loop_spec fuel star pi vi :
  glob_inv star pi vi → (glob_measure star pi < fuel)%nat →
  ∃ b, glob_loop fuel P V pi vi star = Ok b ∧ (b = true → glob_goal star pi vi) ∧
       (ch "*" ∉ V → glob_goal star pi vi → b = true).
Proof.
  revert star pi vi. induction fuel as [|fuel IH]; intros star pi vi Hinv Hf; [lia|]. cbn [glob_loop].
  destruct (V !! vi) as [v|] eqn:Hv.
  2: { eexists. split; [done|]. pose proof Hinv as (Hp & _). rewrite glob_skip_spec by lia. split.
       - apply lookup_ge_None in Hv. left. by rewrite (drop_ge V).
       - intros Hns Hg. by apply glob_end with star vi. }
  pose proof (lookup_lt_Some _ _ _ Hv) as Hvl. unfold glob_measure in *.
  destruct (match P !! pi with Some x => (x =? ch "?") || (x =? v) | None => false end) eqn:H1;
    [|destruct (match P !! pi with Some x => x =? ch "*" | None => false end) eqn:H2].
  - destruct (P !! pi) as [x|] eqn:Hx; [|done]. pose proof (lookup_lt_Some _ _ _ Hx).
    rewrite orb_true_iff, !Z.eqb_eq in H1.
    destruct (glob_advance _ _ _ _ _ Hinv Hx Hv H1) as (Hi & Hs & Hc).
    destruct (IH star (S pi) (S vi) Hi ltac:(lia)) as (b & -> & Hb1 & Hb2). exists b. naive_solver.
  - destruct (P !! pi) as [x|] eqn:Hx; [|done]. pose proof (lookup_lt_Some _ _ _ Hx).
    apply Z.eqb_eq in H2 as ->. destruct (glob_push _ _ _ Hinv Hx Hvl) as (Hi & Hs & Hc).
    destruct (IH _ _ _ Hi) as (b & -> & Hb1 & Hb2); [|exists b; naive_solver].
    destruct star as [[si sm]|]; [destruct Hinv as (? & ? & ? & ? & ? & _)|]; nia.
  - pose proof (glob_mismatch _ _ _ Hv H1 H2) as Hno. destruct star as [[si sm]|].
    + destruct (glob_retry _ _ _ _ Hinv Hvl Hno) as [Hi Hg]. pose proof Hinv as (? & ? & ? & ? & ? & _).
      destruct (IH _ _ _ Hi) as (b & -> & Hb1 & Hb2); [nia|]. exists b. rewrite <- Hg. naive_solver.
    + exists false. split; [done|]. split; [done|]. intros _ [?|?]; done.
Qed.
End glob.

(** The matcher always answers; a match is never wrong, and none is missed
    in a value without a literal star. *)
Lemma glob_match_spec p v :
  ∃ b, glob_match p v = Ok b ∧ (b = true → wild (to_utf8 p) (to_utf8 v)) ∧
       (ch "*" ∉ to_utf8 v → wild (to_utf8 p) (to_utf8 v) → b = true).
Proof.
  unfold glob_match, glob_fuel. set (P := to_utf8 p). set (V := to_utf8 v).
  destruct (glob_loop_spec P V (S (S (length V) * S (length P) + length P)) None 0 0) as (b & Hb & H1 & H2).
  - split; [lia|]. split; [lia|done].
  - unfold glob_measure. lia.
  - exists b. split; [exact Hb|]. unfold glob_goal in *. rewrite !drop_0 in *. naive_solver.
Qed.

(** C31: the matcher of [file], [func], [module] and [format] selectors
    terminates on every pattern and value; a match is always in the language
    of the pattern ([?] one byte, [*] any bytes), and every value of the
    language that holds no literal [*] is matched. *)
Theorem dd_glob_correct p v :
  ∃ b, glob_match p v = Ok b ∧ (b = true → wild (to_utf8 p) (to_utf8 v)) ∧
       (ch "*" ∉ to_utf8 v → (b = true ↔ wild (to_utf8 p) (to_utf8 v))).
Proof. destruct (glob_match_spec p v) as (b & Hb & H1 & H2). exists b. naive_solver. Qed.

(** A star of the value is compared with the pattern before the pattern's
    own star is tried as a wildcard: [*] does not match [*x]. *)
Lemma dd_glob_star_missed : glob_match (bs "*") (bs "*x") = Ok false ∧ wild (bs "*") (bs "*x").
Proof. split; [reflexivity|]. repeat (apply wild_more || apply wild_skip || apply wild_nil). Qed.

