(* ===== verification/DdebugProps.v ===== *)
(** Dynamic debug: the meaning of selectors, the effect of a control-file
    write, and the link between a site's flags, its static key and what it
    prints. *)
From S2P Require Import Prelude Text StaticKey Ddebug DdebugGlob.

(** ** Selectors *)

(** The last component of a [::] path. *)
Definition path_tail (f t : text) : Prop :=
  ((∃ u, f = u ++ bs "::" ++ t) ∧ ∀ u' t', f = u' ++ bs "::" ++ t' → (length t ≤ length t')%nat) ∨
  ((∀ u v, f ≠ u ++ bs "::" ++ v) ∧ t = f).

Lemma path_tail_spec f t : path_tail f t ↔ rsplit_last (ch ":") (ch ":") f = t.
Proof.
  unfold path_tail, rsplit_last. change (bs "::") with [ch ":"; ch ":"]. simpl.
  destruct (after_last (ch ":") (ch ":") f) as [t0|] eqn:Hf; simpl.
  - rewrite <- after_last_some, Hf. pose proof (proj1 (after_last_some _ _ _ _) Hf) as [[u Hu] _].
    split; [|by intros ->; left]. intros [[=]|[Hno _]]; [done|]. by destruct (Hno u t0).
  - rewrite <- after_last_some, Hf. pose proof (after_last_none _ _ _ Hf). split; [intros [|[_ ?]]; done|].
    intros <-. by right.
Qed.

(** What each selector means; a pattern with a wildcard is a language, one
    without has a meaning of its own per selector. *)
Definition pattern_means (p v : text) (plain : Prop) : Prop :=
  if has_glob p then wild (to_utf8 p) (to_utf8 v) else plain.

Definition sel_means {K} (sel : Selector) (s : DebugSite K) : Prop :=
  match sel with
  | File p => pattern_means p (file s) (p `suffix_of` file s)
  | Func p => ∃ t, path_tail (function s) t ∧
      (pattern_means p (function s) (function s = p) ∨ pattern_means p t (t = p))
  | Module_ p => pattern_means p (module s) (module s = p ∨ ∃ u, module s = u ++ bs "::" ++ p)
  | Line r => start r ≤ line s ≤ end_ r
  | Format p => pattern_means p (format s) (∃ u v, format s = u ++ p ++ v)
  end.
Definition selected {K} (c : Command) (s : DebugSite K) : Prop := Forall (λ sel, sel_means sel s) (selectors c).

(** A selector whose wildcard looks at a text with a literal star may miss
    it ([dd_glob_star_missed]); every other one decides its meaning. *)
Definition no_star (v : text) : Prop := ch "*" ∉ to_utf8 v.
Definition plain_for {K} (s : DebugSite K) (sel : Selector) : Prop :=
  match sel with
  | File p => has_glob p = true → no_star (file s)
  | Func p => has_glob p = true → no_star (function s)
  | Module_ p => has_glob p = true → no_star (module s)
  | Line _ => True
  | Format p => has_glob p = true → no_star (format s)
  end.
Definition plain_to {K} (c : Command) (s : DebugSite K) : Prop := Forall (plain_for s) (selectors c).

(** A test that answers, is never wrong, and misses nothing plain. *)
Definition finds {E} (r : res E bool) (P plain : Prop) : Prop :=
  ∃ b, r = Ok b ∧ (b = true → P) ∧ (plain → P → b = true).
Lemma decides_finds {E} (r : res E bool) P plain : decides r P → finds r P plain.
Proof. intros (b & -> & Hb). exists b. naive_solver. Qed.

Lemma dd_glob_finds p v plain : (plain → no_star v) → finds (glob_match p v) (wild (to_utf8 p) (to_utf8 v)) plain.
Proof. intros Hv. destruct (glob_match_spec p v) as (b & -> & H1 & H2). exists b. naive_solver. Qed.

Lemma path_tail_no_star f t : path_tail f t → no_star f → no_star t.
Proof.
  intros [[[u ->] _]|[_ ->]]; [|done]. unfold no_star. rewrite !to_utf8_app, !elem_of_app. tauto.
Qed.

Lemma matches_func_spec p f :
  finds (matches_func p f)
    (∃ t, path_tail f t ∧ (pattern_means p f (f = p) ∨ pattern_means p t (t = p))) (has_glob p = true → no_star f).
Proof.
  unfold matches_func, pattern_means. set (t := rsplit_last _ _ f).
  assert (path_tail f t) as Ht by (by apply path_tail_spec).
  assert (∀ Q : text → Prop, (∃ t', path_tail f t' ∧ Q t') ↔ Q t) as Hex.
  { intros Q. split; [|by exists t]. intros (t' & Ht' & HQ). apply path_tail_spec in Ht'. by subst t'. }
  unfold finds. setoid_rewrite Hex. destruct (has_glob p).
  - destruct (dd_glob_finds p f (no_star f)) as (b & -> & Hb1 & Hb2); [done|]. unfold or_else. simpl.
    destruct b; [exists true; naive_solver|].
    destruct (dd_glob_finds p t (no_star f)) as (b' & -> & Hb1' & Hb2'); [by apply path_tail_no_star|].
    exists b'. naive_solver.
  - eexists. split; [reflexivity|]. rewrite orb_true_iff, !bool_decide_eq_true. done.
Qed.

Lemma matches_module_spec p m :
  finds (matches_module p m) (pattern_means p m (m = p ∨ ∃ u, m = u ++ bs "::" ++ p)) (has_glob p = true → no_star m).
Proof.
  unfold matches_module, pattern_means. destruct (has_glob p); [by apply dd_glob_finds; auto|].
  apply decides_finds. case_bool_decide as Heq; [apply decides_true; by left|]. apply decides_ok.
  destruct (strip_suffix m p) as [pre|] eqn:Hp.
  - apply strip_suffix_spec in Hp as ->. unfold ends_with. rewrite bool_decide_eq_true. split.
    + intros [u ->]. right. exists u. by rewrite <- app_assoc.
    + intros [?|[u Hu]]; [done|]. rewrite app_assoc in Hu. apply (inj (.++ p)) in Hu as ->. by exists u.
  - split; [done|]. intros [?|[u ->]]; [done|]. rewrite app_assoc in Hp.
    by rewrite (proj2 (strip_suffix_spec _ _ _) eq_refl) in Hp.
Qed.

Lemma selector_matches_spec {K} sel (s : DebugSite K) :
  finds (selector_matches sel s) (sel_means sel s) (plain_for s sel).
Proof.
  destruct sel as [p|p|p|r|p]; simpl.
  - unfold matches_file, pattern_means. destruct (has_glob p); [by apply dd_glob_finds; auto|].
    apply decides_finds, decides_ok. unfold ends_with. rewrite orb_true_iff, !bool_decide_eq_true.
    split; [intros [->|?]; [by exists []|done]|by right].
  - by apply matches_func_spec.
  - by apply matches_module_spec.
  - apply decides_finds, decides_ok. unfold range_contains. rewrite andb_true_iff, !Z.leb_le. done.
  - unfold matches_format, pattern_means. destruct (has_glob p); [by apply dd_glob_finds; auto|].
    apply decides_finds, decides_ok, contains_spec.
Qed.

Lemma matches_spec {K} c (s : DebugSite K) : finds (matches c s) (selected c s) (plain_to c s).
Proof.
  unfold matches, selected, plain_to. induction (selectors c) as [|sel sels IH]; simpl.
  - apply decides_finds, decides_true. constructor.
  - destruct (selector_matches_spec sel s) as (b & -> & Hb1 & Hb2). simpl. destruct b.
    + destruct IH as (b & -> & Hb3 & Hb4). exists b. rewrite !Forall_cons. naive_solver.
    + exists false. split; [done|]. split; [done|]. rewrite !Forall_cons. naive_solver.
Qed.

(** ** Parsing never panics, and what it produces *)
Definition op_ok (o : FlagOp) : Prop := 0 ≤ fmask o < 2 ^ 6.
Definition command_ok (c : Command) : Prop := op_ok (operation c).

Lemma lor_bound a b : 0 ≤ a < 2 ^ 6 → 0 ≤ b < 2 ^ 6 → 0 ≤ Z.lor a b < 2 ^ 6.
Proof.
  intros Ha Hb. split; [apply Z.lor_nonneg; lia|]. apply bits_bound; [lia|apply Z.lor_nonneg; lia|].
  intros i Hi. by rewrite Z.lor_spec, !(bound_bits 6) by lia.
Qed.

Lemma flag_mask_for_bound c m : flag_mask_for c = Some m → 0 ≤ m < 2 ^ 6.
Proof. unfold flag_mask_for. repeat case_match; intros [= <-]; by vm_compute. Qed.

Lemma flag_mask_safe tok rest m :
  0 ≤ m < 2 ^ 6 → safe (flag_mask tok rest m) (λ m, 0 ≤ m < 2 ^ 6) (λ _, True).
Proof.
  revert m. induction rest as [|c rest IH]; intros m Hm; simpl; [done|].
  destruct (c =? ch "_"); [done|]. destruct (flag_mask_for c) eqn:Hc; [|done].
  apply IH, lor_bound; [done|by eapply flag_mask_for_bound].
Qed.

Lemma parse_flag_op_safe t : is_flag_token t = true → safe (parse_flag_op t) op_ok (λ _, True).
Proof.
  destruct t as [|h rest]; [done|]. unfold is_flag_token, parse_flag_op. intros Hh.
  destruct ((h =? ch "=") && _); [by vm_compute|]. case_bool_decide; [done|].
  eapply safe_bind; [by apply flag_mask_safe|]. intros m Hm.
  destruct (h =? ch "+"); [done|]. destruct (h =? ch "-"); [done|]. by destruct (h =? ch "=").
Qed.

Lemma parse_u32_safe t w : safe (parse_u32 t w) (λ _, True) (λ _, True).
Proof.
  unfold parse_u32, parse_unsigned. destruct (to_utf8 t) as [|c l]; [done|].
  pose proof (λ l, digits_pos_safe (2 ^ 32 - 1) 10 0 l) as Hd.
  repeat case_match; try done; [destruct (digits_pos _ _ _ (_ :: _)) eqn:Hx|destruct (digits_pos _ _ _ (_ :: _)) eqn:Hx];
    try done; match type of Hx with digits_pos _ _ _ ?s = _ => specialize (Hd s); by rewrite Hx in Hd end.
Qed.

Lemma parse_line_range_safe t : safe (parse_line_range t) (λ _, True) (λ _, True).
Proof.
  unfold parse_line_range. destruct (split_once _ t) as [[a b]|].
  - eapply safe_bind; [apply parse_u32_safe|]. intros x _. eapply safe_bind; [apply parse_u32_safe|].
    intros y _. by destruct (y <? x).
  - by eapply safe_bind; [apply parse_u32_safe|].
Qed.

Lemma make_selector_safe k v : safe (make_selector k v) (λ _, True) (λ _, True).
Proof. destruct k; try done. simpl. by eapply safe_bind; [apply parse_line_range_safe|]. Qed.

Lemma parse_tokens_safe toks sels op :
  default True (op_ok <$> op) →
  safe (parse_tokens toks sels op) (λ r, default True (op_ok <$> r.2)) (λ _, True).
Proof.
  remember (length toks) as n eqn:Hn. revert toks Hn sels op.
  induction n as [n IH] using lt_wf_ind. intros toks -> sels op Hop. destruct toks as [|t toks]; [done|].
  cbn [parse_tokens]. destruct (is_flag_token t) eqn:Ht.
  - destruct op; [done|]. eapply safe_bind; [by apply parse_flag_op_safe|]. intros o Ho.
    by eapply IH; [|done|]; [simpl; lia|].
  - destruct (keyword_of t) as [k|]; [|done]. destruct toks as [|v toks]; [done|].
    eapply safe_bind; [apply make_selector_safe|]. intros s _. eapply IH; [|done|done]. simpl. lia.
Qed.

Lemma parse_command_safe toks : safe (parse_command toks) command_ok (λ _, True).
Proof.
  unfold parse_command. eapply safe_bind; [by apply parse_tokens_safe|]. intros [sels [o|]] Ho; done.
Qed.

Lemma parse_all_safe lines :
  safe (parse_all lines) (λ cs, Forall command_ok cs ∧ length cs = length lines) (λ _, True).
Proof.
  induction lines as [|l lines IH]; simpl; [by split|].
  eapply safe_bind; [apply parse_command_safe|]. intros c Hc. eapply safe_bind; [exact IH|].
  intros cs [Hcs Hl]. simpl. split; [by constructor|lia].
Qed.

(** Each character finishes at most one command. *)
Lemma finish_token_commands st : commands (finish_token st) = commands st.
Proof. unfold finish_token. by case_bool_decide. Qed.
Lemma finish_command_length st :
  (length (commands (finish_command st)) ≤ S (length (commands st)))%nat.
Proof. unfold finish_command. case_bool_decide; simpl; rewrite ?length_app; simpl; lia. Qed.
Lemma tok_step_length st c : (length (commands (tok_step st c)) ≤ S (length (commands st)))%nat.
Proof.
  unfold tok_step. repeat case_match; simpl; try lia.
  - pose proof (finish_command_length (finish_token st)). by rewrite finish_token_commands in *.
  - rewrite finish_token_commands. lia.
Qed.
Lemma tok_fold_length st input :
  (length (commands (foldl tok_step st input)) ≤ length input + length (commands st))%nat.
Proof.
  revert st. induction input as [|c input IH]; intros st; simpl; [lia|].
  pose proof (IH (tok_step st c)). pose proof (tok_step_length st c). lia.
Qed.

Lemma tokenize_safe input :
  safe (tokenize input) (λ ls, (length ls ≤ S (length input))%nat) (λ _, True).
Proof.
  unfold tokenize. pose proof (tok_fold_length tok_init input) as Hl. simpl in Hl.
  destruct (quote _); [done|]. simpl. set (st := foldl tok_step tok_init input) in *.
  etrans; [apply finish_command_length|]. rewrite finish_token_commands. destruct (escape st); simpl; lia.
Qed.

Lemma parse_commands_safe q :
  safe (parse_commands q) (λ cs, Forall command_ok cs ∧ (length cs ≤ S (length q))%nat) (λ _, True).
Proof.
  unfold parse_commands. eapply safe_bind; [apply tokenize_safe|]. intros ls Hl. case_bool_decide; [done|].
  eapply safe_mono; [apply parse_all_safe|]. intros cs [? ->]. done.
Qed.

(** ** Flags *)

(** What an operation does to the flags, bit by bit. *)
Definition op_effect (o : FlagOp) (f f' : Z) : Prop :=
  ∀ i, 0 ≤ i → Z.testbit f' i =
    match kind o with
    | Add => Z.testbit f i || Z.testbit (fmask o) i
    | Remove => Z.testbit f i && negb (Z.testbit (fmask o) i)
    | Replace => Z.testbit (fmask o) i
    end.

Lemma FlagOp_apply_spec o f :
  op_ok o → 0 ≤ f < 2 ^ 6 → op_effect o f (FlagOp_apply o f) ∧ 0 ≤ FlagOp_apply o f < 2 ^ 6.
Proof.
  intros Hm Hf. assert (op_effect o f (FlagOp_apply o f)) as Heff.
  { intros i Hi. unfold FlagOp_apply, wrapu. destruct (kind o); [apply Z.lor_spec| |done].
    rewrite Z.land_spec, Z.testbit_mod_pow2, Z.lnot_spec by lia.
    destruct (Z.ltb_spec i 8); [done|]. by rewrite (bound_bits 6 f) by lia. }
  split; [done|]. assert (0 ≤ FlagOp_apply o f) as Hn.
  { unfold FlagOp_apply, op_ok in *. destruct (kind o); [apply Z.lor_nonneg; lia|apply Z.land_nonneg; lia|lia]. }
  split; [done|]. apply bits_bound; [lia|done|]. intros i Hi. rewrite Heff by lia.
  rewrite !(bound_bits 6) by (unfold op_ok in Hm; lia). by destruct (kind o).
Qed.

Lemma has_flag_print f : has_flag f FLAG_PRINT = Z.testbit f 0.
Proof.
  unfold has_flag. change FLAG_PRINT with (Z.ones 1). rewrite Z.land_ones by lia. change (2 ^ 1) with 2.
  rewrite Z.bit0_odd, Zmod_odd. by destruct (Z.odd f).
Qed.

(** ** The control file *)
Section control.
Context `{BuildMode} {K : Type} `{StaticKey K} `{!StaticKeyLaws K}.

(** A site whose static key follows its print flag. *)
Definition site_ok (s : DebugSite K) : Prop :=
  0 ≤ flags s < 2 ^ 6 ∧ key_enabled (key s) = Z.testbit (flags s) 0.

Definition same_site (s s' : DebugSite K) : Prop :=
  line s' = line s ∧ module s' = module s ∧ file s' = file s ∧ function s' = function s ∧ format s' = format s.

(** Commands run on one site, in order; the number counts those that select it. *)
Inductive effect (s : DebugSite K) : list Command → Z → Z → nat → Prop :=
  | effect_nil f : effect s [] f f 0
  | effect_hit c cs f f1 f' n :
      selected c s → op_effect (operation c) f f1 → effect s cs f1 f' n → effect s (c :: cs) f f' (S n)
  | effect_miss c cs f f' n : ¬ (selected c s ∧ plain_to c s) → effect s cs f f' n → effect s (c :: cs) f f' n.

Definition hits (c : Command) (s : DebugSite K) : bool := match matches c s with Ok b => b | _ => false end.
Definition run1 (c : Command) (s : DebugSite K) : DebugSite K :=
  if hits c s then set_flags s (apply c (flags s)) else s.

Lemma set_flags_ok s f : site_ok s → 0 ≤ f < 2 ^ 6 → site_ok (set_flags s f).
Proof.
  intros [_ Hk] Hf. split; [done|]. unfold set_flags. cbn [key flags]. rewrite !has_flag_print.
  destruct (Bool.eqb _ _) eqn:He; [apply Bool.eqb_prop in He; congruence|].
  destruct (Z.testbit f 0); [apply enabled_enable|apply enabled_disable].
Qed.

Lemma run1_same c s : same_site s (run1 c s).
Proof. unfold run1, same_site. by destruct (hits c s). Qed.
Lemma same_site_trans s1 s2 s3 : same_site s1 s2 → same_site s2 s3 → same_site s1 s3.
Proof. intros (?&?&?&?&?) (?&?&?&?&?). repeat split; congruence. Qed.

Lemma run1_ok c s : command_ok c → site_ok s → site_ok (run1 c s).
Proof.
  intros Hc Hs. unfold run1. destruct (hits c s); [|done]. apply set_flags_ok; [done|].
  apply FlagOp_apply_spec; [done|apply Hs].
Qed.

Lemma sel_means_same sel s s' : same_site s s' → sel_means sel s' ↔ sel_means sel s.
Proof. intros (H1 & H2 & H3 & H4 & H5). destruct sel; simpl; by rewrite ?H1, ?H2, ?H3, ?H4, ?H5. Qed.
Lemma selected_same c s s' : same_site s s' → selected c s' ↔ selected c s.
Proof. intros Hs. unfold selected. rewrite !Forall_forall. by setoid_rewrite (λ sel, sel_means_same sel s s' Hs). Qed.

Lemma plain_to_same c s s' : same_site s s' → plain_to c s' ↔ plain_to c s.
Proof.
  intros (H1 & H2 & H3 & H4 & H5). unfold plain_to. rewrite !Forall_forall.
  assert (∀ sel, plain_for s' sel ↔ plain_for s sel) as He by (intros []; simpl; by rewrite ?H1, ?H2, ?H3, ?H4, ?H5).
  by setoid_rewrite He.
Qed.

Lemma effect_same cs s s' f f' n : same_site s s' → effect s' cs f f' n → effect s cs f f' n.
Proof.
  intros Hs. induction 1; econstructor; try done; rewrite <- ?(selected_same _ s s'), <- ?(plain_to_same _ s s'); done.
Qed.

Lemma hits_spec c s : (hits c s = true → selected c s) ∧ (plain_to c s → selected c s → hits c s = true).
Proof. destruct (matches_spec c s) as (b & Hb & Hm). unfold hits. by rewrite Hb. Qed.

Lemma effect_step c cs s f' n :
  command_ok c → site_ok s → effect (run1 c s) cs (flags (run1 c s)) f' n →
  effect s (c :: cs) (flags s) f' ((if hits c s then 1 else 0) + n)%nat.
Proof.
  intros Hc Hs He. apply (effect_same _ s) in He; [|apply run1_same].
  destruct (hits_spec c s) as [Hh1 Hh2]. unfold run1 in He. destruct (hits c s).
  - eapply effect_hit; [by apply Hh1| |exact He]. apply FlagOp_apply_spec; [done|apply Hs].
  - apply effect_miss; [|done]. intros [Hsel Hpl]. by specialize (Hh2 Hpl Hsel).
Qed.

Lemma apply_command_spec c ss n :
  0 ≤ n → n + Z.of_nat (length ss) < 2 ^ 64 →
  apply_command c ss n = Ok (map (run1 c) ss, n + Z.of_nat (length (List.filter (hits c) ss))).
Proof.
  revert n. induction ss as [|s ss IH]; intros n Hn Hl; simpl.
  - by rewrite Z.add_0_r.
  - simpl in Hl. destruct (matches_spec c s) as (b & Hb & _).
    assert (hits c s = b) as Hh by (unfold hits; by rewrite Hb). unfold run1 at 1. rewrite Hb, Hh. simpl.
    destruct b; [arith_step|]; rewrite IH by lia; simpl; do 2 f_equal. lia.
Qed.

(** The effect of commands on a list of sites: [ns] counts the matches. *)
Definition effects (cs : list Command) (ss ss' : list (DebugSite K)) (ns : list nat) : Prop :=
  Forall3 (λ s s' n, same_site s s' ∧ effect s cs (flags s) (flags s') n) ss ss' ns.

Lemma effects_step c cs ss ss' ns :
  command_ok c → Forall site_ok ss → effects cs (map (run1 c) ss) ss' ns →
  ∃ ns', effects (c :: cs) ss ss' ns' ∧ sum_list ns' = (length (List.filter (hits c) ss) + sum_list ns)%nat.
Proof.
  intros Hc Hok. revert ss' ns. induction Hok as [|s ss Hs Hss IH]; intros ss' ns He; simpl in He.
  - inversion He; subst. exists []. split; [constructor|done].
  - inversion He as [|? y n ? ? ns1 [Hsame Heff] He']; subst.
    destruct (IH _ _ He') as (ns' & Hns & Hsum).
    exists (((if hits c s then 1 else 0) + n)%nat :: ns'). split.
    + constructor; [|done]. split; [|by apply effect_step].
      by apply same_site_trans with (run1 c s); [apply run1_same|].
    + simpl. rewrite Hsum. destruct (hits c s); simpl; lia.
Qed.

Lemma apply_commands_spec cs ss total :
  Forall command_ok cs → Forall site_ok ss → 0 ≤ total →
  total + Z.of_nat (length cs * length ss) < 2 ^ 64 →
  ∃ ss' ns, apply_commands cs ss total = Ok (ss', total + Z.of_nat (sum_list ns)) ∧
    effects cs ss ss' ns ∧ Forall site_ok ss'.
Proof.
  intros Hcs. revert ss total. induction Hcs as [|c cs Hc Hcs IH]; intros ss total Hok Ht Hb; simpl.
  - exists ss, (replicate (length ss) 0%nat). split; [|split; [|done]].
    + do 2 f_equal. induction (length ss); simpl in *; lia.
    + clear. induction ss as [|s ss IH]; simpl; constructor; [|done]. split; [done|constructor].
  - simpl in Hb. rewrite apply_command_spec by (done || lia). simpl.
    pose proof (filter_length_le (hits c) ss) as Hl. rewrite arith_ok, Z.add_0_l by lia. simpl.
    destruct (IH (map (run1 c) ss) (total + Z.of_nat (length (List.filter (hits c) ss))))
      as (ss' & ns & Ha & He & Hok').
    + apply Forall_map. eapply Forall_impl; [exact Hok|]. intros s. by apply run1_ok.
    + lia.
    + rewrite length_map. lia.
    + destruct (effects_step c cs ss ss' ns) as (ns' & He' & Hsum); [done..|].
      exists ss', ns'. split; [|done]. rewrite Ha, Hsum. do 2 f_equal. lia.
Qed.

(** C22: writing to the control file is all or nothing and does what the
    commands say: either some command does not parse and nothing changes, or
    every site ends with its flags changed, in order, by commands whose
    selectors it satisfies, and nothing else of it changed; the number
    returned is the number of (command, site) matches.  It never panics, and
    static keys keep following the print flags.

    A command is applied to every site that satisfies its selectors, except
    that a selector with a wildcard may miss a site in which the text it
    looks at (file, module, function or format) holds a literal star
    ([plain_to]; [dd_glob_star_missed] is such a miss).  At the start flags
    have their six bits and keys follow the print flags ([site_ok], which
    every reachable control file has), and the product of the text's length
    and the number of sites is below 2^64. *)
Theorem control_write_correct (ctl : ControlFile K) q :
  Forall site_ok (sites ctl) → Z.of_nat (S (length q) * length (sites ctl)) < 2 ^ 64 →
  (∃ e, parse_commands q = Err e ∧ write ctl q = Err e) ∨
  (∃ cs ss' ns, parse_commands q = Ok cs ∧
    write ctl q = Ok (Z.of_nat (sum_list ns), {| sites := ss' |}) ∧
    effects cs (sites ctl) ss' ns ∧ Forall site_ok ss').
Proof.
  intros Hok Hb. pose proof (parse_commands_safe q) as Hs. unfold write.
  destruct (parse_commands q) as [cs|e| |]; try done; [right|left; by exists e].
  destruct Hs as [Hcs Hl]. destruct (apply_commands_spec cs (sites ctl) 0) as (ss' & ns & Ha & He & Hok');
    try done; [nia|].
  exists cs, ss', ns. simpl. by rewrite Ha.
Qed.
End control.

Definition demo_site (f : Z) : DebugSite bool :=
  {| flags := f; line := 7; module := bs "m::n"; file := bs "src/a.rs"; function := bs "m::n::go";
     format := bs "x={}"; key := Z.testbit f 0 |}.
Definition demo_ctl : ControlFile bool := {| sites := [demo_site 0; demo_site 1] |}.

Lemma control_write_correct_witness :
  let _ : BuildMode := true in
  let q := bs "func go module n line 5-9 +p" in
  (∃ e, parse_commands q = Err e ∧ write demo_ctl q = Err e) ∨
  (∃ cs ss' ns, parse_commands q = Ok cs ∧
    write demo_ctl q = Ok (Z.of_nat (sum_list ns), {| sites := ss' |}) ∧
    effects cs (sites demo_ctl) ss' ns ∧ Forall site_ok ss').
Proof.
  intros b q. apply (control_write_correct demo_ctl q).
  - repeat constructor; vm_compute; congruence.
  - vm_compute. reflexivity.
Defined.

(** ** What sites print *)
Section runtime.
Context `{BuildMode} {K : Type} `{StaticKey K} `{!StaticKeyLaws K}.

(** A site as the macros create it. *)
Definition fresh (s : DebugSite K) : Prop := flags s = 0 ∧ key_enabled (key s) = false.

(** Control files that follow from [dynamic_debug_init] by successful writes
    (a failed write leaves the file as it was). *)
Inductive reachable (raw : list (DebugSite K)) : ControlFile K → Prop :=
  | reach_init : Forall fresh raw → reachable raw (dynamic_debug_init raw)
  | reach_write ctl q n ctl' : reachable raw ctl → write ctl q = Ok (n, ctl') → reachable raw ctl'.

Lemma apply_command_inv c (ss ss' : list (DebugSite K)) n n' :
  command_ok c → Forall site_ok ss → apply_command c ss n = Ok (ss', n') →
  Forall site_ok ss' ∧ Forall2 same_site ss ss'.
Proof.
  intros Hc Hok. revert n ss'. induction Hok as [|s ss Hs Hss IH]; intros n ss' Ha; simpl in Ha.
  - simplify_eq. by split.
  - apply bind_ok in Ha as (b & _ & Ha). destruct b.
    + apply bind_ok in Ha as (m & _ & Ha). apply bind_ok in Ha as ([ss1 m'] & Ha & [= <- <-]).
      destruct (IH _ _ Ha). split; constructor; try done. apply set_flags_ok; [done|].
      apply FlagOp_apply_spec; [done|apply Hs].
    + apply bind_ok in Ha as ([ss1 m'] & Ha & [= <- <-]). destruct (IH _ _ Ha). split; by constructor.
Qed.

Lemma same_sites_trans (l1 l2 l3 : list (DebugSite K)) :
  Forall2 same_site l1 l2 → Forall2 same_site l2 l3 → Forall2 same_site l1 l3.
Proof.
  intros Hl0. revert l3. induction Hl0; intros l3 Hl; inversion Hl; subst; constructor; auto.
  by eapply same_site_trans.
Qed.

Lemma same_sites_refl (l : list (DebugSite K)) : Forall2 same_site l l.
Proof. by apply Forall_Forall2_diag, Forall_true. Qed.

Lemma apply_commands_inv cs (ss ss' : list (DebugSite K)) n n' :
  Forall command_ok cs → Forall site_ok ss → apply_commands cs ss n = Ok (ss', n') →
  Forall site_ok ss' ∧ Forall2 same_site ss ss'.
Proof.
  intros Hcs. revert ss n. induction Hcs as [|c cs Hc Hcs IH]; intros ss n Hok Ha; simpl in Ha.
  - simplify_eq. split; [done|]. apply same_sites_refl.
  - apply bind_ok in Ha as ([ss1 m] & Ha & Hb). apply bind_ok in Hb as (t & _ & Hb).
    destruct (apply_command_inv _ _ _ _ _ Hc Hok Ha) as [Hok1 Hs1].
    destruct (IH _ _ Hok1 Hb). split; [done|]. by apply same_sites_trans with ss1.
Qed.

Lemma reachable_inv raw ctl :
  reachable raw ctl → Forall site_ok (sites ctl) ∧ Forall2 same_site (scan_debug_sites raw) (sites ctl).
Proof.
  induction 1 as [Hf|ctl q n ctl' _ [Hok Hs] Hw].
  - split; [|apply same_sites_refl]. simpl. unfold scan_debug_sites; rewrite sort_by_perm. eapply Forall_impl; [exact Hf|].
    intros s [Hfl Hk]. split; [by rewrite Hfl|]. by rewrite Hfl, Hk.
  - unfold write in Hw. apply bind_ok in Hw as (cs & Hcs & Hw). apply bind_ok in Hw as ([ss m] & Ha & [= <- <-]).
    pose proof (safe_ok _ _ _ _ (parse_commands_safe q) Hcs) as [Hc _].
    destruct (apply_commands cs (sites ctl) 0) as [[ss0 m0]| | |] eqn:He; simplify_eq/=.
    destruct (apply_commands_inv _ _ _ _ _ Hc Hok He). split; [done|]. by apply same_sites_trans with (sites ctl).
Qed.

Lemma pr_debug_spec tid (s : DebugSite K) args :
  site_ok s →
  pr_debug tid s args =
    if Z.testbit (flags s) 0 then
      let l := append_prefix tid s (flags s) ++ args in Some (if ends_with l [10] then l else l ++ [10])
    else None.
Proof. intros [_ Hk]. unfold pr_debug, dynamic_pr_debug. rewrite Hk, has_flag_print. by destruct (Z.testbit _ 0). Qed.

(** C30: whatever is written to the control file, the sites stay the ones the
    scan found, sorted; a site prints exactly when its print flag is set (its
    static key never disagrees), and what it prints is the message behind the
    prefix the flags ask for, as one line that ends in a newline. *)
Theorem ddebug_prints raw ctl :
  reachable raw ctl →
  Forall2 same_site (scan_debug_sites raw) (sites ctl) ∧
  Forall (λ s, ∀ tid args,
    (Z.testbit (flags s) 0 = false ∧ pr_debug tid s args = None) ∨
    (Z.testbit (flags s) 0 = true ∧ ∃ l nl, pr_debug tid s args = Some l ∧ last l = Some 10 ∧
       l = append_prefix tid s (flags s) ++ args ++ nl ∧ (nl = [] ∨ nl = [10]))) (sites ctl).
Proof.
  intros Hr. destruct (reachable_inv _ _ Hr) as [Hok Hs]. split; [done|].
  eapply Forall_impl; [exact Hok|]. intros s Hs' tid args. rewrite pr_debug_spec by done.
  destruct (Z.testbit (flags s) 0); [right|by left]. split; [done|]. cbv zeta.
  unfold ends_with. case_bool_decide as He.
  - eexists _, []. split; [done|]. rewrite app_nil_r. split; [|by auto]. destruct He as [k ->]. apply last_snoc.
  - eexists _, [10]. split; [done|]. split; [apply last_snoc|]. rewrite <- app_assoc. auto.
Qed.
End runtime.

Lemma ddebug_prints_witness :
  let _ : BuildMode := true in
  let ctl := dynamic_debug_init [demo_site 0] in
  Forall2 same_site (scan_debug_sites [demo_site 0]) (sites ctl) ∧
  Forall (λ s, ∀ tid args,
    (Z.testbit (flags s) 0 = false ∧ pr_debug tid s args = None) ∨
    (Z.testbit (flags s) 0 = true ∧ ∃ l nl, pr_debug tid s args = Some l ∧ last l = Some 10 ∧
       l = append_prefix tid s (flags s) ++ args ++ nl ∧ (nl = [] ∨ nl = [10]))) (sites ctl).
Proof. intros b ctl. apply (ddebug_prints [demo_site 0] ctl), reach_init. by repeat constructor. Defined.

