(* ===== verification/DdebugCmd.v ===== *)
(** The command language of dynamic debug read back: quoted tokens, commands,
    flag strings; and the order of the catalog. *)
From S2P Require Import Prelude Text StaticKey Ddebug DdebugProps.

(** ** Writing commands back *)

(** A token in double quotes, commands ended by semicolons. *)
Definition escaped (c : Z) : text := if (c =? ch "\") || (c =? 34) then [ch "\"; c] else [c].
Definition render_token (t : text) : text := 34 :: (t ≫= escaped) ++ [34; 32].
Definition render_line (toks : list text) : text := (toks ≫= render_token) ++ bs ";".
Definition render (lines : list (list text)) : text := lines ≫= render_line.

Definition op_token (o : FlagOp) : text :=
  match kind o with Add => ch "+" | Remove => ch "-" | Replace => ch "=" end :: tail (flags_to_string (fmask o)).
Definition range_text (r : LineRange) : text := show_u 10 (start r) ++ bs "-" ++ show_u 10 (end_ r).
Definition sel_tokens (sel : Selector) : list text :=
  match sel with
  | File p => [keyword_text KFile; p]
  | Func p => [keyword_text KFunc; p]
  | Module_ p => [keyword_text KModule; p]
  | Line r => [keyword_text KLine; range_text r]
  | Format p => [keyword_text KFormat; p]
  end.
Definition command_tokens (c : Command) : list text := (selectors c ≫= sel_tokens) ++ [op_token (operation c)].
Definition show_commands (cs : list Command) : text := render (map command_tokens cs).

(** Commands that can be written: no empty pattern, ordered line ranges, and
    some flag unless the flags are replaced. *)
Definition sel_writable (sel : Selector) : Prop :=
  match sel with
  | File p | Func p | Module_ p | Format p => p ≠ []
  | Line r => 0 ≤ start r ≤ end_ r ∧ end_ r < 2 ^ 32
  end.
Definition writable (c : Command) : Prop :=
  Forall sel_writable (selectors c) ∧ op_ok (operation c) ∧ (kind (operation c) = Replace ∨ fmask (operation c) ≠ 0).

Definition tok_state (cs : list (list text)) (cur : list text) (tok : text) (q : option Z) : TokState :=
  {| commands := cs; current := cur; token := tok; quote := q; escape := false |}.

Lemma tok_escaped cs cur tok t :
  foldl tok_step (tok_state cs cur tok (Some 34)) (t ≫= escaped) = tok_state cs cur (tok ++ t) (Some 34).
Proof.
  revert tok. induction t as [|c t IH]; intros tok; [by rewrite app_nil_r|].
  rewrite bind_cons, foldl_app. replace (tok ++ c :: t) with ((tok ++ [c]) ++ t) by (by rewrite <- app_assoc).
  rewrite <- IH. f_equal. unfold escaped. destruct ((c =? ch "\") || (c =? 34)) eqn:Hc; [done|].
  apply orb_false_iff in Hc as [H1 H2]. simpl. unfold tok_step. simpl. by rewrite H1, H2.
Qed.

Lemma tok_token cs cur t :
  t ≠ [] → foldl tok_step (tok_state cs cur [] None) (render_token t) = tok_state cs (cur ++ [t]) [] None.
Proof.
  intros Ht. unfold render_token. change (34 :: ?l) with ([34] ++ l). rewrite !foldl_app.
  change (foldl tok_step (tok_state cs cur [] None) [34]) with (tok_state cs cur [] (Some 34)).
  rewrite tok_escaped. simpl. change (tok_step (tok_state cs cur t (Some 34)) 34) with (tok_state cs cur t None).
  unfold tok_step. simpl. unfold finish_token. simpl. by rewrite bool_decide_eq_false_2.
Qed.

Lemma tok_tokens cs cur toks :
  Forall (.≠ []) toks →
  foldl tok_step (tok_state cs cur [] None) (toks ≫= render_token) = tok_state cs (cur ++ toks) [] None.
Proof.
  intros Ht. revert cur. induction Ht as [|t toks Ht _ IH]; intros cur; [by rewrite app_nil_r|].
  rewrite bind_cons, foldl_app, tok_token by done. rewrite IH. by rewrite <- app_assoc.
Qed.

Lemma tok_semicolon cs cur :
  cur ≠ [] → tok_step (tok_state cs cur [] None) (ch ";") = tok_state (cs ++ [cur]) [] [] None.
Proof.
  intros Hc. unfold tok_step. simpl. unfold finish_command. simpl. by rewrite bool_decide_eq_false_2.
Qed.

Lemma tok_lines cs lines :
  Forall (λ toks, toks ≠ [] ∧ Forall (.≠ []) toks) lines →
  foldl tok_step (tok_state cs [] [] None) (render lines) = tok_state (cs ++ lines) [] [] None.
Proof.
  intros Hl. revert cs. induction Hl as [|toks lines [Hn Ht] _ IH]; intros cs; [by rewrite app_nil_r|].
  unfold render. rewrite bind_cons, foldl_app. unfold render_line at 1. rewrite foldl_app, tok_tokens by done.
  change (foldl tok_step ?st (bs ";")) with (tok_step st (ch ";")). rewrite app_nil_l, tok_semicolon by done.
  fold (render lines). rewrite IH. by rewrite <- app_assoc.
Qed.

Lemma tokenize_render lines :
  Forall (λ toks, toks ≠ [] ∧ Forall (.≠ []) toks) lines → tokenize (render lines) = Ok lines.
Proof. intros Hl. unfold tokenize. change tok_init with (tok_state [] [] [] None). by rewrite tok_lines. Qed.

(** The flag operations, by enumeration of the 64 masks. *)
Definition op_same (r : res Error FlagOp) (o : FlagOp) : bool :=
  match r with
  | Ok o' => (fmask o' =? fmask o) &&
      match kind o', kind o with Add, Add | Remove, Remove | Replace, Replace => true | _, _ => false end
  | _ => false
  end.
Definition op_check (k : FlagOpKind) (m : Z) : bool :=
  match k with Replace => false | _ => m =? 0 end ||
  (is_flag_token (op_token {| kind := k; fmask := m |}) &&
   op_same (parse_flag_op (op_token {| kind := k; fmask := m |})) {| kind := k; fmask := m |}).

Lemma op_check_all k : forallb (op_check k) (seqZ 0 64) = true.
Proof. destruct k; vm_compute; reflexivity. Qed.

Lemma parse_op_token o :
  op_ok o → kind o = Replace ∨ fmask o ≠ 0 →
  is_flag_token (op_token o) = true ∧ parse_flag_op (op_token o) = Ok o.
Proof.
  destruct o as [k m]. unfold op_ok. cbn [kind fmask]. intros Hm Hk.
  pose proof (proj1 (forallb_forall _ _) (op_check_all k) m) as Hc.
  assert (op_check k m = true) as Hc'.
  { apply Hc, list_elem_of_In, elem_of_seqZ. lia. }
  unfold op_check in Hc'. apply orb_true_iff in Hc' as [Hz|[-> Hs]%andb_true_iff].
  - destruct k; try done; apply Z.eqb_eq in Hz; by destruct Hk.
  - split; [done|]. unfold op_same in Hs. destruct (parse_flag_op _) as [[k' m']| | |]; try done.
    apply andb_true_iff in Hs as [Hm' Hk']. simpl in *. apply Z.eqb_eq in Hm' as ->. by destruct k', k.
Qed.

Lemma show_u_ascii n : Forall (λ c, c < 128) (show_u 10 n).
Proof. eapply Forall_impl; [apply show_u_digits|]. intros c. change (ch "9") with 57. simpl. lia. Qed.

Lemma parse_u32_show n w : 0 ≤ n < 2 ^ 32 → parse_u32 (show_u 10 n) w = Ok n.
Proof.
  intros Hn. unfold parse_u32. rewrite to_utf8_ascii by apply show_u_ascii. by rewrite parse_unsigned_show.
Qed.

Lemma parse_range_text r : 0 ≤ start r ≤ end_ r → end_ r < 2 ^ 32 → parse_line_range (range_text r) = Ok r.
Proof.
  intros Hr He. unfold parse_line_range, range_text. change (bs "-") with [ch "-"]. simpl ([_] ++ _).
  rewrite split_once_spec.
  - rewrite !parse_u32_show by lia. simpl. destruct (Z.ltb_spec (end_ r) (start r)); [lia|]. by destruct r.
  - intros Hin. pose proof (show_u_digits (start r)) as Hd. rewrite Forall_forall in Hd.
    apply Hd in Hin as [Hin _]. by vm_compute in Hin.
Qed.

Lemma parse_sel_tokens sel toks sels op :
  sel_writable sel →
  parse_tokens (sel_tokens sel ++ toks) sels op = parse_tokens toks (sels ++ [sel]) op.
Proof.
  intros Hs. destruct sel as [p|p|p|r|p]; try reflexivity. destruct Hs as [Hr He].
  change (parse_tokens (sel_tokens (Line r) ++ toks) sels op) with
    (s ← (r ← parse_line_range (range_text r); Ok (Line r)); parse_tokens toks (sels ++ [s]) op).
  by rewrite parse_range_text.
Qed.

Lemma parse_command_tokens c : writable c → parse_command (command_tokens c) = Ok c.
Proof.
  intros (Hs & Ho & Hk). unfold parse_command, command_tokens.
  assert (∀ sels acc op, Forall sel_writable sels →
    parse_tokens ((sels ≫= sel_tokens) ++ [op_token (operation c)]) acc op =
    parse_tokens [op_token (operation c)] (acc ++ sels) op) as Hsel.
  { intros sels acc op Hw. revert acc. induction Hw as [|sel sels Hw _ IH]; intros acc.
    - by rewrite app_nil_r.
    - rewrite bind_cons, <- app_assoc, parse_sel_tokens, IH by done. by rewrite <- app_assoc. }
  rewrite Hsel by done. destruct (parse_op_token _ Ho Hk) as [H1 H2]. cbn [parse_tokens]. rewrite H1, H2.
  simpl. by destruct c.
Qed.

Lemma command_tokens_nonempty c :
  writable c → command_tokens c ≠ [] ∧ Forall (.≠ []) (command_tokens c).
Proof.
  intros (Hs & _ & _). unfold command_tokens. split; [by intros [_ ?]%app_eq_nil|].
  apply Forall_app. split; [|by repeat constructor]. clear -Hs. induction Hs as [|sel sels Hw _ IH]; [constructor|].
  rewrite bind_cons. apply Forall_app. split; [|done].
  destruct sel as [p|p|p|r|p]; simpl in *; repeat constructor; try done. unfold range_text. by intros [_ ?]%app_eq_nil.
Qed.

(** C29: the command language loses nothing: commands written with every
    token quoted and escaped, whatever characters their patterns contain,
    parse back to the same commands. *)
Theorem ddebug_command_roundtrip cs :
  Forall writable cs → cs ≠ [] → parse_commands (show_commands cs) = Ok cs.
Proof.
  intros Hw Hn. unfold parse_commands, show_commands.
  rewrite tokenize_render; [|apply Forall_map; eapply Forall_impl; [exact Hw|apply command_tokens_nonempty]].
  simpl. rewrite bool_decide_eq_false_2 by (by destruct cs). clear Hn.
  induction Hw as [|c cs Hc _ IH]; [done|]. simpl. rewrite parse_command_tokens by done. simpl. by rewrite IH.
Qed.

Lemma ddebug_command_roundtrip_witness :
  let cs := [{| selectors := [Format [34; 92; 59; 10; 233]; Line {| start := 3; end_ := 90 |}];
                operation := {| kind := Add; fmask := 5 |} |}] in
  Forall writable cs ∧ parse_commands (show_commands cs) = Ok cs.
Proof.
  assert (Forall writable [{| selectors := [Format [34; 92; 59; 10; 233]; Line {| start := 3; end_ := 90 |}];
                operation := {| kind := Add; fmask := 5 |} |}]) as Hw.
  { repeat constructor; simpl; first [done | lia | (by right)]. }
  split; [exact Hw|]. apply ddebug_command_roundtrip; [exact Hw|discriminate].
Defined.

(** An empty pattern cannot be written: the tokenizer drops empty tokens. *)
Lemma ddebug_empty_pattern_lost :
  parse_commands (show_commands [{| selectors := [Format []; Func (bs "f")]; operation := {| kind := Add; fmask := 1 |} |}]) ≠
  Ok [{| selectors := [Format []; Func (bs "f")]; operation := {| kind := Add; fmask := 1 |} |}].
Proof. vm_compute. congruence. Qed.

(** The flags column of the catalog is a command: writing back the
    flags that [read] shows for a site replaces any flags by the site's. *)
Theorem ddebug_flags_roundtrip {K} (s : DebugSite K) :
  0 ≤ flags s < 2 ^ 6 →
  ∃ o, parse_flag_op (flags_string s) = Ok o ∧ ∀ f, FlagOp_apply o f = flags s.
Proof.
  intros Hf. exists {| kind := Replace; fmask := flags s |}. split; [|done].
  destruct (parse_op_token {| kind := Replace; fmask := flags s |} Hf) as [_ Hp]; [by left|].
  rewrite <- Hp. unfold flags_string, op_token. simpl kind. simpl fmask. unfold flags_to_string. cbv zeta.
  by case_match.
Qed.

Lemma ddebug_flags_roundtrip_witness :
  0 ≤ flags (demo_site 37) < 2 ^ 6 ∧
  ∃ o, parse_flag_op (bs "=pml") = Ok o ∧ ∀ f, FlagOp_apply o f = 37.
Proof. split; [simpl; lia|]. apply (ddebug_flags_roundtrip (demo_site 37)). simpl. lia. Defined.

(** ** The catalog's order *)
Lemma site_compare_antisym {K} (l r : DebugSite K) : site_compare r l = CompOpp (site_compare l r).
Proof.
  unfold site_compare, text_compare. rewrite (str_compare_antisym (to_utf8 (file l))), (Z.compare_antisym (line l)),
    (str_compare_antisym (to_utf8 (module l))), (str_compare_antisym (to_utf8 (function l))),
    (str_compare_antisym (to_utf8 (format l))).
  repeat (destruct (str_compare _ _); simpl; try done); destruct (line l ?= line r); simpl; try done;
    repeat (destruct (str_compare _ _); simpl; try done).
Qed.

(** The scan returns the registered sites, each once, in the catalog
    order (file, line, module, function, format). *)
Theorem ddebug_scan_sorted {K} (raw : list (DebugSite K)) :
  scan_debug_sites raw ≡ₚ raw ∧ Sorted (λ l r, site_compare l r ≠ Gt) (scan_debug_sites raw).
Proof.
  split; [apply sort_by_perm|]. apply sort_by_sorted. intros x y. apply site_compare_antisym.
Qed.
