(* ===== verification/Ksym.v ===== *)
(** The symbol table reader (ksym/src/lib.rs): mapping a binary blob, names
    behind an optional prefix token, and lookups by address and by name.

    Names are the bytes of the returned [str].  A [&'static str] error is its
    text.  Reading a slice past the end of the blob through a raw pointer is
    undefined behaviour, [Panic] here. *)
From S2P Require Import Prelude Text.

Definition TOKEN_MARKER : Z := 255.
Definition LENGTH_BYTES : nat := 2.
Definition KSYM_NAME_LEN : nat := 4096.
Definition TY_LEN : nat := 1.
Definition PREFIX_LEN : nat := LENGTH_BYTES + TY_LEN.

Record KallsymsMapped := {
  token_table : str;
  token_index : list Z;
  kallsyms_names : str;
  kallsyms_offsets : list Z;
  kallsyms_seqs_of_names : list Z;
  kallsyms_addresses : list Z;
  kallsyms_num_syms : Z;
  stext : Z;
  etext : Z;
}.

(** ** Mapping a blob *)
Fixpoint le_words (w n : nat) (l : str) : list Z :=
  match n with
  | O => []
  | S n => le_dec (take w l) :: le_words w n (drop w l)
  end.

Section blob.
Context `{BuildMode}.

(** [from_le_bytes(blob[off..off + 8])]. *)
Definition read_u64 (blob : str) (off : Z) : res text Z :=
  le_dec <$> unwrap (slice blob (Z.to_nat off) (Z.to_nat off + 8)).
(** [from_raw_parts(blob[off..].as_ptr(), n)] at [w]-byte integers. *)
Definition raw_parts (w : nat) (blob : str) (off n : Z) : res text (list Z) :=
  if off + Z.of_nat w * n <=? Z.of_nat (length blob)
  then Ok (le_words w (Z.to_nat n) (drop (Z.to_nat off) blob)) else Panic.

(** The closure [align_off]; [base] is the address of the blob. *)
Definition align_off (base align off : Z) : res text Z :=
  addr ← arith 64 (base + off);
  a1 ← arith 64 (addr + align);
  a2 ← arith 64 (a1 - 1);
  arith 64 (Z.land a2 (Z.lnot (align - 1)) - base).

(** [if off + need > blob.len() return Err(e)]. *)
Definition check_room (blob : str) (off need : Z) (e : text) : res text () :=
  end_ ← arith 64 (off + need);
  if Z.of_nat (length blob) <? end_ then Err e else Ok ().

(** An array of [n] [w]-byte integers, and the offset behind it. *)
Definition read_array (w : nat) (blob : str) (off n : Z) (e : text) : res text (list Z * Z) :=
  need ← arith 64 (n * Z.of_nat w);
  check_room blob off need e;;
  xs ← raw_parts w blob off n;
  off ← arith 64 (off + need);
  Ok (xs, off).
(** A length followed by that many bytes. *)
Definition read_bytes (blob : str) (off : Z) (e_len e : text) : res text (str * Z) :=
  check_room blob off 8 e_len;;
  n ← read_u64 blob off;
  check_room blob (off + 8) n e;;
  xs ← unwrap (slice blob (Z.to_nat (off + 8)) (Z.to_nat (off + 8) + Z.to_nat n));
  Ok (xs, off + 8 + n).

Definition check_total_bytes (blob : str) : res text Z :=
  if Z.of_nat (length blob) <? 8 then Err (bs "Blob is too small to contain the total byte count")
  else read_u64 blob 0.

Definition from_blob (base : Z) (blob : str) (stext etext : Z) : res text KallsymsMapped :=
  total_bytes ← check_total_bytes blob;
  if negb (total_bytes =? Z.of_nat (length blob)) then
    Err (bs "The total bytes in the blob does not match the actual blob length")
  else
  check_room blob 8 8 (bs "The number of symbols is missing");;
  num_syms ← read_u64 blob 8;
  off ← align_off base 8 16;
  '(addresses, off) ← read_array 8 blob off num_syms (bs "The addresses array is missing");
  off ← align_off base 4 off;
  '(offsets, off) ← read_array 4 blob off num_syms (bs "The offsets array is missing");
  off ← align_off base 4 off;
  '(seqs, off) ← read_array 4 blob off num_syms (bs "The seqs array is missing");
  off ← align_off base 8 off;
  '(names, off) ← read_bytes blob off (bs "The names length is missing") (bs "The names array is missing");
  off ← align_off base 8 off;
  '(table, off) ← read_bytes blob off (bs "The token table length is missing")
                                      (bs "The token table array is missing");
  off ← align_off base 8 off;
  check_room blob off 8 (bs "The token index length is missing");;
  token_index_len ← read_u64 blob off;
  off ← align_off base 4 (off + 8);
  need ← arith 64 (token_index_len * 4);
  check_room blob off need (bs "The token index array is missing");;
  index ← raw_parts 4 blob off token_index_len;
  Ok {| token_table := table; token_index := index; kallsyms_names := names; kallsyms_offsets := offsets;
        kallsyms_seqs_of_names := seqs; kallsyms_addresses := addresses; kallsyms_num_syms := num_syms;
        stext := stext; etext := etext |}.
End blob.

(** ** Names *)

(** The outcomes below are values or panics, never errors. *)
Definition at_ {A} (l : list A) (i : Z) : res () A := unwrap (l !! Z.to_nat i).
Definition slice_ {A} (l : list A) (a b : Z) : res () (list A) := unwrap (slice l (Z.to_nat a) (Z.to_nat b)).

Section reader.
Context (m : KallsymsMapped).

(** Copying into the 4096-byte buffer behind what is there. *)
Definition append_cut (out xs : str) : str := out ++ take (KSYM_NAME_LEN - length out) xs.

(** [0xFF id 0xFF] or [0xFF id_hi id_lo 0xFF]: the id and its length. *)
Definition parse_token (bytes : str) : option Z * nat :=
  match bytes with
  | _ :: id :: x2 :: rest =>
      if x2 =? TOKEN_MARKER then (Some id, 3%nat)
      else match rest with
           | x3 :: _ => if x3 =? TOKEN_MARKER then (Some (Z.lor (Z.shiftl id 8) x2), 4%nat) else (None, 0%nat)
           | [] => (None, 0%nat)
           end
  | _ => (None, 0%nat)
  end.

Definition token_str (id : Z) : res () str :=
  start ← at_ (token_index m) id;
  end_ ← (if id + 1 <? Z.of_nat (length (token_index m)) then at_ (token_index m) (id + 1)
          else Ok (Z.of_nat (length (token_table m))));
  slice_ (token_table m) start end_.

(** [expand_symbol]: [bytes[0]] panics on an empty record. *)
Definition expand_symbol (bytes : str) : res () str :=
  b0 ← at_ bytes 0;
  out ← (if b0 =? TOKEN_MARKER then
           let '(token_id, i) := parse_token bytes in
           tok ← match token_id with
                 | Some id => if id <? Z.of_nat (length (token_index m)) then token_str id else Ok []
                 | None => Ok []
                 end;
           Ok (append_cut (append_cut [] tok) (drop i bytes))
         else Ok (append_cut [] bytes));
  Ok (if utf8_valid out then out else []).

Definition read_compressed_len_and_type (bytes : str) : Z * Z :=
  match bytes with
  | ty :: lo :: hi :: _ => (Z.lor (Z.shiftl hi 8) lo, ty)
  | _ => (0, 32)
  end.

(** The name record of the symbol at address-order index [seq]. *)
Definition decode (seq : Z) : res () (str * Z) :=
  start ← at_ (kallsyms_offsets m) seq;
  rest ← slice_ (kallsyms_names m) start (Z.of_nat (length (kallsyms_names m)));
  let '(len, ty) := read_compressed_len_and_type rest in
  let end_ := start + Z.of_nat PREFIX_LEN + len in
  bytes ← slice_ (kallsyms_names m) (start + Z.of_nat PREFIX_LEN) end_;
  name ← expand_symbol bytes;
  Ok (name, ty).

(** [{:016x}], and a [char] below 256 as UTF-8. *)
Definition hex16 (z : Z) : str := let h := show_u 16 z in repeat (ch "0") (16 - length h) ++ h.
Fixpoint dump_lines (n : nat) (i : Z) : res () str :=
  match n with
  | O => Ok []
  | S n =>
      addr ← at_ (kallsyms_addresses m) i;
      '(name, ty) ← decode i;
      rest ← dump_lines n (i + 1);
      Ok (hex16 addr ++ bs " " ++ push_latin1 ty ++ bs " " ++ name ++ [10] ++ rest)
  end.
Definition dump_all_symbols : res () str := dump_lines (Z.to_nat (kallsyms_num_syms m)) 0.

(** ** Lookup by address *)
Fixpoint search_address (fuel : nat) (addr low high : Z) : res () Z :=
  match fuel with
  | O => OutOfFuel
  | S fuel =>
      if 1 <? high - low then
        let mid := low + (high - low) / 2 in
        a ← at_ (kallsyms_addresses m) mid;
        if a <=? addr then search_address fuel addr mid high else search_address fuel addr low mid
      else Ok low
  end.
(** Back over the symbols whose address is [addr]. *)
Fixpoint first_alias (addr : Z) (low : nat) : res () nat :=
  match low with
  | O => Ok O
  | S l => a ← unwrap (kallsyms_addresses m !! l); if a =? addr then first_alias addr l else Ok low
  end.
(** The first of the addresses in [l] that is larger. *)
Definition next_address (start : Z) (l : list Z) : option Z := List.find (λ a, start <? a) l.

Definition lookup_address `{BuildMode} (addr : Z) : res () (option (str * Z * Z * Z)) :=
  let n := kallsyms_num_syms m in
  if (addr <? stext m) || (etext m <=? addr) || (n =? 0) then Ok None else
  low ← search_address (S (Z.to_nat n)) addr 0 n;
  if n <=? low then Ok None else
  low ← first_alias addr (Z.to_nat low);
  symbol_start ← unwrap (kallsyms_addresses m !! low);
  let symbol_end := default (etext m)
    (next_address symbol_start (drop (S low) (take (Z.to_nat n) (kallsyms_addresses m)))) in
  '(name, ty) ← decode (Z.of_nat low);
  size ← arith 64 (symbol_end - symbol_start);
  offset ← arith 64 (addr - symbol_start);
  Ok (Some (name, size, offset, ty)).

(** ** Lookup by name *)
Definition name_at (i : Z) : res () str :=
  seq ← at_ (kallsyms_seqs_of_names m) i; fst <$> decode seq.

(** The [while low <= high] loop: [Some mid] on a match. *)
Fixpoint search_name (fuel : nat) (name : str) (low high : Z) : res () (option Z) :=
  match fuel with
  | O => OutOfFuel
  | S fuel =>
      if low <=? high then
        let mid := low + (high - low) / 2 in
        mid_name ← name_at mid;
        match str_compare name mid_name with
        | Eq => Ok (Some mid)
        | Lt => if mid =? 0 then Ok None else search_name fuel name low (mid - 1)
        | Gt => search_name fuel name (mid + 1) high
        end
      else Ok None
  end.
Fixpoint first_match (name : str) (low : nat) : res () nat :=
  match low with
  | O => Ok O
  | S l => x ← name_at (Z.of_nat l); if bool_decide (x = name) then first_match name l else Ok low
  end.
(** [n] is the number of symbols behind [high]. *)
Fixpoint last_match (name : str) (n : nat) (high : Z) : res () Z :=
  match n with
  | O => Ok high
  | S n => x ← name_at (high + 1); if bool_decide (x = name) then last_match name n (high + 1) else Ok high
  end.

Definition lookup_names (name : str) (need_end : bool) : res () (option (Z * Z)) :=
  let n := kallsyms_num_syms m in
  if n =? 0 then Ok None else
  o ← search_name (S (Z.to_nat n)) name 0 (n - 1);
  match o with
  | None => Ok None
  | Some mid =>
      low ← first_match name (Z.to_nat mid);
      high ← (if need_end then last_match name (Z.to_nat (n - 1 - mid)) mid else Ok 0);
      Ok (Some (Z.of_nat low, high))
  end.

Definition lookup_name_by_idx (idx : Z) : option Z :=
  if Z.of_nat (length (kallsyms_seqs_of_names m)) <=? idx then None else
  seq ← kallsyms_seqs_of_names m !! Z.to_nat idx;
  if Z.of_nat (length (kallsyms_addresses m)) <=? seq then None else kallsyms_addresses m !! Z.to_nat seq.

Definition lookup_name (name : str) : res () (option Z) :=
  o ← lookup_names name false;
  match o with
  | None => Ok None
  | Some (start_idx, _) =>
      seq ← at_ (kallsyms_seqs_of_names m) start_idx;
      a ← at_ (kallsyms_addresses m) seq;
      Ok (Some a)
  end.
End reader.
