(* ===== verification/KsymGen.v ===== *)
(** The symbol table generator (ksym/src/bin/gen_ksym.rs): tokens, the
    compressed names, the sort orders and the binary layout of the blob.

    A symbol is its name (bytes), address and type character.  A [HashMap] is
    a finite map; the order in which the counted prefixes leave it, which the
    standard library leaves open, is an argument. *)
From S2P Require Import Prelude Text Ksym.

Definition Symbol : Type := str * Z * Z.
Definition sym_name (s : Symbol) : str := s.1.1.
Definition sym_addr (s : Symbol) : Z := s.1.2.
Definition sym_ty (s : Symbol) : Z := s.2.

Definition PREFIX_CANDIDATE_LENS : list nat :=
  [10; 24; 31; 40; 56; 60; 70; 80; 90; 100; 150; 200; 250; 300; 400; 500; 600; 700; 800; 900;
   1000; 1200; 1400; 1600; 1800; 2000]%nat.
Definition MAX_TOKEN : nat := 512.

Record KallsymsBlob := {
  kb_token_table : str;
  kb_token_index : list Z;
  kb_token_map : gmap str Z;
  kb_names : str;
  kb_offsets : list Z;
  kb_seqs_of_names : list Z;
  kb_addresses : list Z;
  kb_num_syms : Z;
}.
Definition KallsymsBlob_new : KallsymsBlob :=
  {| kb_token_table := []; kb_token_index := []; kb_token_map := ∅; kb_names := []; kb_offsets := [];
     kb_seqs_of_names := []; kb_addresses := []; kb_num_syms := 0 |}.

Definition add_token (b : KallsymsBlob) (token : str) : KallsymsBlob :=
  match kb_token_map b !! token with
  | Some _ => b
  | None =>
      {| kb_token_table := kb_token_table b ++ token;
         kb_token_index := kb_token_index b ++ [wrapu 32 (Z.of_nat (length (kb_token_table b)))];
         kb_token_map := <[token := wrapu 16 (Z.of_nat (size (kb_token_map b)))]> (kb_token_map b);
         kb_names := kb_names b; kb_offsets := kb_offsets b; kb_seqs_of_names := kb_seqs_of_names b;
         kb_addresses := kb_addresses b; kb_num_syms := kb_num_syms b |}
  end.

Section gen.
Context `{BuildMode}.
(** The order in which [token_count.into_iter()] yields its entries. *)
Context (iter_order : gmap str nat → list (str * nat)).

(** *** Token selection *)
Definition count_token (counts : gmap str nat) (token : str) : gmap str nat :=
  <[token := S (default 0%nat (counts !! token))]> counts.
(** One name against one candidate length; [from_utf8(..).unwrap()] panics
    when the prefix ends inside a character. *)
Definition count_len (name : str) (counts : gmap str nat) (len : nat) : res () (gmap str nat) :=
  if (len <=? length name)%nat then
    if utf8_valid (take len name) then Ok (count_token counts (take len name)) else Panic
  else if negb (bool_decide (name = [])) && (len =? 10)%nat then Ok (count_token counts name)
  else Ok counts.
Fixpoint count_lens (name : str) (lens : list nat) (counts : gmap str nat) : res () (gmap str nat) :=
  match lens with
  | [] => Ok counts
  | len :: lens => counts ← count_len name counts len; count_lens name lens counts
  end.
Fixpoint count_tokens (symbols : list Symbol) (counts : gmap str nat) : res () (gmap str nat) :=
  match symbols with
  | [] => Ok counts
  | s :: symbols => counts ← count_lens (sym_name s) PREFIX_CANDIDATE_LENS counts; count_tokens symbols counts
  end.

(** Heavier first. *)
Definition weight (t : str * nat) : Z := Z.of_nat t.2 * Z.of_nat (length t.1).
Definition by_weight (a b : str * nat) : comparison := weight b ?= weight a.

Definition starts_with (s p : str) : bool := bool_decide (p `prefix_of` s).
Fixpoint select_tokens (tokens : list (str * nat)) (final : list str) : list str :=
  match tokens with
  | [] => final
  | (tok, _) :: tokens =>
      if (MAX_TOKEN <=? length final)%nat then final
      else if existsb (λ existing, starts_with existing tok) final then select_tokens tokens final
      else select_tokens tokens (final ++ [tok])
  end.

(** *** Names *)
(** [&sym[..l]]: panics inside a character. *)
Definition is_char_boundary (s : str) (i : nat) : bool :=
  match s !! i with Some b => negb (is_continuation b) | None => (i =? length s)%nat end.

(** The token the name starts with: the longest candidate length first. *)
Fixpoint find_token (map : gmap str Z) (sym : str) (lens : list nat) : res () (option (Z * nat)) :=
  match lens with
  | [] => Ok None
  | l :: lens =>
      if (length sym <? l)%nat then find_token map sym lens
      else if negb (is_char_boundary sym l) then Panic
      else match map !! take l sym with
           | Some id => Ok (Some (id, l))
           | None => find_token map sym lens
           end
  end.

Definition le16 (z : Z) : str := [Z.land z 255; wrapu 8 (Z.shiftr z 8)].
Definition emit_name (map : gmap str Z) (sym : str) (ty : Z) : res () str :=
  let rem := length sym in
  o ← find_token map sym (reverse PREFIX_CANDIDATE_LENS);
  match o with
  | Some (id, l) =>
      length_ ← arith 16 ((if id <? 256 then 3 else 4) + wrapu 16 (Z.of_nat (rem - l)));
      Ok ([wrapu 8 ty] ++ le16 length_ ++ [TOKEN_MARKER] ++
          (if id <? 256 then [wrapu 8 id] else [wrapu 8 (Z.shiftr id 8); Z.land id 255]) ++
          [TOKEN_MARKER] ++ drop l sym)
  | None => Ok ([wrapu 8 ty] ++ le16 (wrapu 16 (Z.of_nat rem)) ++ sym)
  end.

Definition push_symbol (b : KallsymsBlob) (s : Symbol) : res () KallsymsBlob :=
  rec ← emit_name (kb_token_map b) (sym_name s) (sym_ty s);
  Ok {| kb_token_table := kb_token_table b; kb_token_index := kb_token_index b; kb_token_map := kb_token_map b;
        kb_names := kb_names b ++ rec;
        kb_offsets := kb_offsets b ++ [wrapu 32 (Z.of_nat (length (kb_names b)))];
        kb_seqs_of_names := kb_seqs_of_names b;
        kb_addresses := kb_addresses b ++ [sym_addr s]; kb_num_syms := kb_num_syms b |}.
Fixpoint push_symbols (b : KallsymsBlob) (symbols : list Symbol) (idx : list nat) : res () KallsymsBlob :=
  match idx with
  | [] => Ok b
  | i :: idx => s ← unwrap (symbols !! i); b ← push_symbol b s; push_symbols b symbols idx
  end.

(** *** Sort orders *)
Definition addr_of (symbols : list Symbol) (i : nat) : Z := default 0 (sym_addr <$> symbols !! i).
Definition name_of (symbols : list Symbol) (i : nat) : str := default [] (sym_name <$> symbols !! i).
Definition idx_by_addr (symbols : list Symbol) : list nat :=
  sort_by (λ i j, addr_of symbols i ?= addr_of symbols j) (seq 0 (length symbols)).
Definition idx_by_name (symbols : list Symbol) : list nat :=
  sort_by (λ i j, str_compare (name_of symbols i) (name_of symbols j)) (seq 0 (length symbols)).
(** [for (addr_pos, &orig_idx) in idx_by_addr.iter().enumerate()]. *)
Fixpoint positions (pos : nat) (idx : list nat) (v : list nat) : list nat :=
  match idx with
  | [] => v
  | orig_idx :: idx => positions (S pos) idx (<[orig_idx := pos]> v)
  end.
Definition orig_to_addr_idx (symbols : list Symbol) : list nat :=
  positions 0 (idx_by_addr symbols) (replicate (length symbols) 0%nat).

Definition seqs_of_names (symbols : list Symbol) : res () (list Z) :=
  mapM (λ i, p ← unwrap (orig_to_addr_idx symbols !! i); Ok (wrapu 32 (Z.of_nat p))) (idx_by_name symbols).

Definition compress_symbols (b : KallsymsBlob) (symbols : list Symbol) : res () KallsymsBlob :=
  if (length symbols =? 0)%nat then Ok b else
  counts ← count_tokens symbols ∅;
  let tokens := sort_by by_weight (iter_order counts) in
  let b := foldl add_token b (select_tokens tokens []) in
  b ← push_symbols b symbols (idx_by_addr symbols);
  seqs ← seqs_of_names symbols;
  Ok {| kb_token_table := kb_token_table b; kb_token_index := kb_token_index b; kb_token_map := kb_token_map b;
        kb_names := kb_names b; kb_offsets := kb_offsets b;
        kb_seqs_of_names := kb_seqs_of_names b ++ seqs;
        kb_addresses := kb_addresses b; kb_num_syms := Z.of_nat (length symbols) |}.
End gen.

(** *** The blob *)
Definition pad (align : nat) (v : str) : str :=
  let rem := (length v mod align)%nat in
  if (rem =? 0)%nat then v else v ++ repeat 0 (align - rem).
Definition words (w : nat) (l : list Z) : str := l ≫= le_enc w.
Definition u64_len {A} (l : list A) : str := le_enc 8 (Z.of_nat (length l)).

Definition to_blob (b : KallsymsBlob) : str :=
  let blob := le_enc 8 0 in
  let blob := blob ++ le_enc 8 (kb_num_syms b) in
  let blob := pad 8 blob ++ words 8 (kb_addresses b) in
  let blob := pad 4 blob ++ words 4 (kb_offsets b) in
  let blob := pad 4 blob ++ words 4 (kb_seqs_of_names b) in
  let blob := pad 8 blob ++ u64_len (kb_names b) ++ kb_names b in
  let blob := pad 8 blob ++ u64_len (kb_token_table b) ++ kb_token_table b in
  let blob := pad 8 blob ++ u64_len (kb_token_index b) in
  let blob := pad 4 blob ++ words 4 (kb_token_index b) in
  splice blob 0 (le_enc 8 (Z.of_nat (length blob))).

(** ** Input lines *)

(** [str::split_whitespace] on characters. *)
Fixpoint split_ws (cur : text) (s : text) : list text :=
  match s with
  | [] => if bool_decide (cur = []) then [] else [cur]
  | c :: s =>
      if is_whitespace c then if bool_decide (cur = []) then split_ws [] s else cur :: split_ws [] s
      else split_ws (cur ++ [c]) s
  end.
Fixpoint join (sep : text) (l : list text) : text :=
  match l with
  | [] => []
  | [x] => x
  | x :: l => x ++ sep ++ join sep l
  end.
(** [u64::from_str_radix(s, 16)]. *)
Definition parse_hex64 (s : str) : res IntErrorKind Z :=
  match s with
  | [] => Err IntEmpty
  | c :: rest =>
      if c =? ch "+" then match rest with [] => Err InvalidDigit | _ => digits_pos (2 ^ 64 - 1) 16 0 rest end
      else digits_pos (2 ^ 64 - 1) 16 0 s
  end.
Definition read_symbol (line : text) : res () (option Symbol) :=
  if 4096 <? Z.of_nat (length (to_utf8 line)) then Panic else
  match split_ws [] line with
  | addr :: (ty :: _) :: parts =>
      match parse_hex64 (to_utf8 addr) with
      | Ok vaddr => Ok (Some (to_utf8 (join (bs " ") parts), vaddr, ty))
      | _ => Ok None
      end
  | _ => Ok None
  end.

(** [str::trim] on characters. *)
Fixpoint skip_whitespace (s : text) : text :=
  match s with
  | c :: s' => if is_whitespace c then skip_whitespace s' else s
  | [] => []
  end.
Definition trim_text (s : text) : text := reverse (skip_whitespace (reverse (skip_whitespace s))).

(** [read_map] on the lines of the standard input: lines that are not
    symbols are skipped. *)
Fixpoint read_map (lines : list text) : res () (list Symbol) :=
  match lines with
  | [] => Ok []
  | line :: lines =>
      o ← read_symbol (trim_text line);
      rest ← read_map lines;
      Ok (match o with Some entry => entry :: rest | None => rest end)
  end.
(** [main]: the bytes written to the standard output. *)
Definition gen_main `{BuildMode} (iter_order : gmap str nat → list (str * nat)) (lines : list text) : res () str :=
  symbol_table ← read_map lines;
  blob ← compress_symbols iter_order KallsymsBlob_new symbol_table;
  Ok (to_blob blob).

Example gen_main_sample :
  let _ : BuildMode := true in
  (blob ← gen_main map_to_list [bs " 0000000000001000 T do_mkdir"; bs "junk"; bs "2000 t a b "];
   m ← map_err (λ _, ()) (from_blob 0 blob 4096 12288);
   lookup_address m 8193) = Ok (Some (bs "a b", 4096, 1, ch "t")).
Proof. vm_compute. reflexivity. Qed.
