(* ===== verification/KsymLookup.v ===== *)
(** Lookups of the symbol table: what [lookup_address] and [lookup_names]
    return on a mapped table that represents a list of symbols. *)
From S2P Require Import Prelude Text Ksym KsymGen.

Definition name_le (a b : str) : Prop := str_compare a b ≠ Gt.

(** [m] holds the symbols [tbl] in address order; [ord] lists their indices
    in name order. *)
Record represents (m : KallsymsMapped) (tbl : list Symbol) (ord : list nat) : Prop := {
  rp_num : kallsyms_num_syms m = Z.of_nat (length tbl);
  rp_addrs : kallsyms_addresses m = map sym_addr tbl;
  rp_decode i s : tbl !! i = Some s → decode m (Z.of_nat i) = Ok (sym_name s, sym_ty s);
  rp_sorted : StronglySorted Z.le (map sym_addr tbl);
  rp_seqs : kallsyms_seqs_of_names m = map Z.of_nat ord;
  rp_ord : ord ≡ₚ seq 0 (length tbl);
  rp_names : StronglySorted name_le (map (name_of tbl) ord);
}.

Lemma sorted_lookup {A} (R : A → A → Prop) l i j x y :
  StronglySorted R l → (i < j)%nat → l !! i = Some x → l !! j = Some y → R x y.
Proof.
  intros Hs. revert i j. induction Hs as [|z l Hs IH Hz]; intros i j Hij Hi Hj; [done|].
  destruct j as [|j]; [lia|]. destruct i as [|i]; simpl in *.
  - simplify_eq. rewrite Forall_forall in Hz. apply Hz. by eapply list_elem_of_lookup_2.
  - apply IH with i j; [lia|done|done].
Qed.

Lemma sorted_drop {A} (R : A → A → Prop) n l : StronglySorted R l → StronglySorted R (drop n l).
Proof.
  intros Hs. revert n. induction Hs as [|x l Hs IH Hx]; intros [|n]; simpl; try constructor; auto.
Qed.

Lemma find_larger a (l : list Z) :
  StronglySorted Z.le l →
  match List.find (λ x, a <? x) l with
  | Some e => a < e ∧ e ∈ l ∧ ∀ x, x ∈ l → a < x → e ≤ x
  | None => ∀ x, x ∈ l → x ≤ a
  end.
Proof.
  induction 1 as [|y l Hs IH Hy]; simpl; [by intros x ?%not_elem_of_nil|].
  rewrite Forall_forall in Hy. destruct (Z.ltb_spec a y).
  - split; [done|]. split; [apply list_elem_of_here|]. intros x [->|Hx]%elem_of_cons; [lia|]. intros _. by apply Hy.
  - destruct (List.find _ l).
    + destruct IH as (H1 & H2 & H3). split; [done|]. split; [by apply list_elem_of_further|].
      intros x [->|Hx]%elem_of_cons; [lia|]. by apply H3.
    + intros x [->|Hx]%elem_of_cons; [lia|]. by apply IH.
Qed.

Section lookup.
Context `{BuildMode} (m : KallsymsMapped) (tbl : list Symbol) (ord : list nat).
Context (Hm : represents m tbl ord).

Lemma addr_lookup i s : tbl !! i = Some s → kallsyms_addresses m !! i = Some (sym_addr s).
Proof. intros Hi. rewrite (rp_addrs _ _ _ Hm). by apply list_lookup_fmap_Some_2. Qed.

Lemma addr_mono i j s s' :
  (i ≤ j)%nat → tbl !! i = Some s → tbl !! j = Some s' → sym_addr s ≤ sym_addr s'.
Proof.
  intros Hij Hi Hj. destruct (decide (i = j)) as [->|]; [simplify_eq; lia|].
  eapply (sorted_lookup Z.le (map sym_addr tbl) i j); [apply Hm|lia|..]; by apply list_lookup_fmap_Some_2.
Qed.

(** ** By address *)

(** [low] is the last symbol at or below [addr] among the first [high]. *)
Lemma search_address_spec fuel addr low high :
  0 ≤ low < high → high ≤ Z.of_nat (length tbl) → high - low ≤ Z.of_nat fuel →
  (∃ s, tbl !! Z.to_nat low = Some s ∧ sym_addr s ≤ addr) →
  (∀ s j, (Z.to_nat high ≤ j)%nat → tbl !! j = Some s → addr < sym_addr s) →
  ∃ i s, search_address m fuel addr low high = Ok (Z.of_nat i) ∧ tbl !! i = Some s ∧ sym_addr s ≤ addr ∧
    ∀ s' j, (i < j)%nat → tbl !! j = Some s' → addr < sym_addr s'.
Proof.
  revert low high. induction fuel as [|fuel IH]; intros low high Hl Hh Hf Hlow Hhigh; [lia|].
  cbn [search_address]. destruct (Z.ltb_spec 1 (high - low)) as [Hd|Hd].
  - set (mid := low + (high - low) / 2).
    assert (low < mid < high) as Hmid.
    { subst mid. pose proof (Z.div_lt (high - low) 2). pose proof (Z.div_le_lower_bound (high - low) 2 1). lia. }
    destruct (lookup_lt_is_Some_2 tbl (Z.to_nat mid)) as [s Hs]; [lia|].
    unfold at_. rewrite (addr_lookup _ _ Hs). simpl. destruct (Z.leb_spec (sym_addr s) addr).
    + apply IH; [lia|lia|lia|by exists s|done].
    + apply IH; [lia|lia|lia|done|]. intros s' j Hj Hj'.
      pose proof (addr_mono (Z.to_nat mid) j s s'). lia || (assert (sym_addr s ≤ sym_addr s') by auto; lia).
  - destruct Hlow as (s & Hs & Ha). exists (Z.to_nat low), s. split; [by rewrite Z2Nat.id by lia|].
    split; [done|]. split; [done|]. intros s' j Hj. apply Hhigh. lia.
Qed.

Lemma first_alias_spec addr low s :
  tbl !! low = Some s →
  ∃ i s', first_alias m addr low = Ok i ∧ (i ≤ low)%nat ∧ tbl !! i = Some s' ∧
    (∀ j s'', (i ≤ j < low)%nat → tbl !! j = Some s'' → sym_addr s'' = addr) ∧
    (∀ s'' j, i = S j → tbl !! j = Some s'' → sym_addr s'' ≠ addr).
Proof.
  revert s. induction low as [|low IH]; intros s Hs; simpl.
  - exists 0%nat, s. repeat split; try done; lia.
  - destruct (lookup_lt_is_Some_2 tbl low) as [s' Hs']; [apply lookup_lt_Some in Hs; lia|].
    rewrite (addr_lookup _ _ Hs'). simpl. destruct (Z.eqb_spec (sym_addr s') addr) as [Ha|Ha].
    + destruct (IH s' Hs') as (i & s1 & Hi & Hle & H1 & H2 & H3). exists i, s1.
      split; [done|]. split; [lia|]. split; [done|]. split; [|done]. intros j s2 Hj Hj2.
      destruct (decide (j = low)) as [->|]; [by simplify_eq|]. apply (H2 j); [lia|done].
    + exists (S low), s. split; [done|]. split; [done|]. split; [done|]. split; [lia|].
      intros s2 j [= <-] Hj. by simplify_eq.
Qed.

(** The end of a symbol that starts at [a]: the next larger address of the
    table, or the end of the section. *)
Definition symbol_end (a e : Z) : Prop :=
  (e = etext m ∧ ∀ s, s ∈ tbl → sym_addr s ≤ a) ∨
  (a < e ∧ (∃ s, s ∈ tbl ∧ sym_addr s = e) ∧ ∀ s, s ∈ tbl → a < sym_addr s → e ≤ sym_addr s).

Lemma next_address_spec i s :
  tbl !! i = Some s →
  symbol_end (sym_addr s) (default (etext m)
    (next_address (sym_addr s)
      (drop (S i) (take (Z.to_nat (kallsyms_num_syms m)) (kallsyms_addresses m))))).
Proof.
  intros Hi. rewrite (rp_num _ _ _ Hm), (rp_addrs _ _ _ Hm), Nat2Z.id, take_ge by (by rewrite length_map).
  pose proof (find_larger (sym_addr s) _ (sorted_drop _ (S i) _ (rp_sorted _ _ _ Hm))) as Hf.
  assert (∀ s', s' ∈ tbl → sym_addr s' ≤ sym_addr s ∨ sym_addr s' ∈ drop (S i) (map sym_addr tbl)) as Hsplit.
  { intros s' [j Hj]%list_elem_of_lookup. destruct (decide (j ≤ i)%nat); [left; by eapply addr_mono|right].
    apply list_elem_of_lookup. exists (j - S i)%nat. rewrite lookup_drop.
    replace (S i + (j - S i))%nat with j by lia. by apply list_lookup_fmap_Some_2. }
  unfold symbol_end, next_address in *. destruct (List.find _ _) as [e|]; simpl.
  - destruct Hf as (Hlt & Hin & Hmin). right. split; [done|]. split.
    + apply list_elem_of_lookup in Hin as [j Hj]. rewrite lookup_drop in Hj. apply list_lookup_fmap_Some in Hj as (s' & -> & Hj).
      exists s'. split; [by eapply list_elem_of_lookup_2|done].
    + intros s' [?|?]%Hsplit ?; [lia|by apply Hmin].
  - left. split; [done|]. intros s' [?|?]%Hsplit; [done|by apply Hf].
Qed.
(** C21: address lookup: for an address of the text section at or past the
    first symbol, [lookup_address] always answers with a symbol of the table
    whose address is the greatest one not above it, with the distance to it,
    its size up to the next larger address or the section's end, and its name
    and type; among symbols that share the address looked up it is the first.
    Outside the section it answers nothing. *)
Theorem ksym_lookup_address addr :
  0 ≤ addr < 2 ^ 64 → 0 ≤ etext m < 2 ^ 64 → (∀ s, s ∈ tbl → 0 ≤ sym_addr s < 2 ^ 64) →
  (addr < stext m ∨ etext m ≤ addr → lookup_address m addr = Ok None) ∧
  (stext m ≤ addr < etext m → (∃ s, tbl !! 0%nat = Some s ∧ sym_addr s ≤ addr) →
   ∃ i s e, lookup_address m addr = Ok (Some (sym_name s, e - sym_addr s, addr - sym_addr s, sym_ty s)) ∧
     tbl !! i = Some s ∧ sym_addr s ≤ addr ∧ symbol_end (sym_addr s) e ∧
     (∀ s', s' ∈ tbl → sym_addr s' ≤ addr → sym_addr s' ≤ sym_addr s) ∧
     (sym_addr s = addr → ∀ j s', (j < i)%nat → tbl !! j = Some s' → sym_addr s' < addr)).
Proof.
  intros Haddr He Hall. split.
  { intros Ho. unfold lookup_address. assert ((addr <? stext m) || (etext m <=? addr) = true) as ->; [|done].
    apply orb_true_iff. rewrite Z.ltb_lt, Z.leb_le. lia. }
  intros Hin (s0 & Hs0 & Ha0). pose proof (lookup_lt_Some _ _ _ Hs0) as Hlen.
  pose proof (rp_num _ _ _ Hm) as Hn. unfold lookup_address. cbv zeta.
  assert ((addr <? stext m) || (etext m <=? addr) || (kallsyms_num_syms m =? 0) = false) as ->.
  { rewrite !orb_false_iff, Z.ltb_ge, Z.leb_gt, Z.eqb_neq. lia. }
  destruct (search_address_spec (S (Z.to_nat (kallsyms_num_syms m))) addr 0 (kallsyms_num_syms m))
    as (low & sl & -> & Hlow & Hle & Hlast); [lia|lia|lia|by exists s0| |].
  { intros s j Hj Hs. apply lookup_lt_Some in Hs. lia. }
  pose proof (lookup_lt_Some _ _ _ Hlow). cbn [mbind res_bind].
  destruct (Z.leb_spec (kallsyms_num_syms m) (Z.of_nat low)); [lia|]. rewrite Nat2Z.id.
  destruct (first_alias_spec addr low sl Hlow) as (i & s & -> & Hile & Hs & Hal & Hfirst). cbn [mbind res_bind].
  assert (sym_addr s = sym_addr sl) as Hsl.
  { destruct (decide (i = low)) as [->|]; [by simplify_eq|].
    pose proof (Hal i s ltac:(lia) Hs). pose proof (addr_mono i low s sl Hile Hs Hlow). lia. }
  rewrite (addr_lookup _ _ Hs). cbn [unwrap mbind res_bind].
  pose proof (next_address_spec i s Hs) as Hend. set (e := default _ _) in *. clearbody e.
  rewrite (rp_decode _ _ _ Hm _ _ Hs). cbn [mbind res_bind].
  assert (s ∈ tbl) as Hst by (by eapply list_elem_of_lookup_2). pose proof (Hall s Hst).
  assert (sym_addr s ≤ e < 2 ^ 64).
  { destruct Hend as [[-> _]|(? & (s' & Hs' & <-) & _)]; [lia|]. pose proof (Hall s' Hs'). lia. }
  arith_step. arith_step. exists i, s, e. split; [done|]. split; [done|]. split; [lia|]. split; [done|]. split.
  - intros s' [j Hj]%list_elem_of_lookup Hs'. destruct (decide (j ≤ low)%nat).
    + rewrite Hsl. by eapply addr_mono.
    + pose proof (Hlast s' j ltac:(lia) Hj). lia.
  - intros Heq j s' Hj Hs'. destruct i as [|i]; [lia|].
    destruct (lookup_lt_is_Some_2 tbl i) as [s1 Hs1]; [apply lookup_lt_Some in Hs; lia|].
    pose proof (Hfirst s1 i eq_refl Hs1). pose proof (addr_mono i (S i) s1 s ltac:(lia) Hs1 Hs).
    pose proof (addr_mono j i s' s1 ltac:(lia) Hs' Hs1). lia.
Qed.

(** ** By name *)

(** Names in name order. *)
Definition names : list str := map (name_of tbl) ord.

Lemma length_ord : length ord = length tbl.
Proof. rewrite (rp_ord _ _ _ Hm). apply length_seq. Qed.

Lemma name_at_spec k : (k < length tbl)%nat → ∃ x, names !! k = Some x ∧ name_at m (Z.of_nat k) = Ok x.
Proof.
  intros Hk. destruct (lookup_lt_is_Some_2 ord k) as [i Hi]; [by rewrite length_ord|].
  assert (i < length tbl)%nat as Hil.
  { apply list_elem_of_lookup_2 in Hi. rewrite (rp_ord _ _ _ Hm) in Hi. apply elem_of_seq in Hi. lia. }
  destruct (lookup_lt_is_Some_2 tbl i Hil) as [s Hs]. exists (sym_name s). split.
  - apply list_lookup_fmap_Some. exists i. split; [|done]. unfold name_of. by rewrite Hs.
  - unfold name_at, at_. rewrite Nat2Z.id, (rp_seqs _ _ _ Hm).
    assert (map Z.of_nat ord !! k = Some (Z.of_nat i)) as -> by (by apply (list_lookup_fmap_Some_2 Z.of_nat)). simpl. by rewrite (rp_decode _ _ _ Hm _ _ Hs).
Qed.

Lemma names_le j k x y : (j ≤ k)%nat → names !! j = Some x → names !! k = Some y → name_le x y.
Proof.
  intros Hjk Hj Hk. destruct (decide (j = k)) as [->|].
  - simplify_eq. unfold name_le. by rewrite (proj2 (str_compare_eq _ _) eq_refl).
  - eapply sorted_lookup; [apply (rp_names _ _ _ Hm)|..|exact Hj|exact Hk]. lia.
Qed.

Lemma name_le_antisym x y : name_le x y → name_le y x → x = y.
Proof.
  unfold name_le. rewrite (str_compare_antisym x y). destruct (str_compare x y) eqn:Hc; try done.
  intros _ _. by apply str_compare_eq.
Qed.

(** Between two equal names all are equal. *)
Lemma names_between i j k x y :
  (i ≤ j ≤ k)%nat → names !! i = Some x → names !! k = Some x → names !! j = Some y → y = x.
Proof.
  intros Hij Hi Hk Hj. apply name_le_antisym; [apply (names_le j k)|apply (names_le i j)]; done || lia.
Qed.

Lemma search_name_spec fuel name low high :
  0 ≤ low → high < Z.of_nat (length tbl) → low ≤ high + 1 → high - low + 1 < Z.of_nat fuel →
  (∀ k, names !! k = Some name → low ≤ Z.of_nat k ≤ high) →
  ∃ o, search_name m fuel name low high = Ok o ∧
    match o with
    | Some mid => ∃ k, mid = Z.of_nat k ∧ names !! k = Some name
    | None => name ∉ names
    end.
Proof.
  revert low high. induction fuel as [|fuel IH]; intros low high Hl Hh Hlh Hf Hin; [lia|].
  cbn [search_name]. destruct (Z.leb_spec low high) as [Hle|Hgt].
  - set (mid := low + (high - low) / 2).
    assert (low ≤ mid ≤ high) as Hmid.
    { subst mid. assert (0 ≤ (high - low) / 2 ≤ high - low); [|lia].
      split; [apply Z.div_pos; lia|apply Z.div_le_upper_bound; lia]. }
    clearbody mid. destruct (name_at_spec (Z.to_nat mid)) as (x & Hx & Hat); [lia|].
    rewrite Z2Nat.id in Hat by lia. rewrite Hat. simpl.
    destruct (str_compare name x) eqn:Hc.
    + apply str_compare_eq in Hc as ->. exists (Some mid). split; [done|]. exists (Z.to_nat mid). split; [lia|done].
    + assert (∀ k, names !! k = Some name → Z.of_nat k < mid) as Hlt.
      { intros k Hk. destruct (Z_lt_le_dec (Z.of_nat k) mid); [done|].
        pose proof (names_le (Z.to_nat mid) k x name ltac:(lia) Hx Hk) as Hn. unfold name_le in Hn.
        rewrite (str_compare_antisym name x), Hc in Hn. done. }
      destruct (Z.eqb_spec mid 0).
      * exists None. split; [done|]. intros [k Hk]%list_elem_of_lookup. specialize (Hlt k Hk). lia.
      * apply IH; [lia..|]. intros k Hk. specialize (Hlt k Hk). specialize (Hin k Hk). lia.
    + apply IH; [lia..|]. intros k Hk. specialize (Hin k Hk). split; [|lia].
      destruct (Z_le_gt_dec (mid + 1) (Z.of_nat k)); [done|].
      pose proof (names_le k (Z.to_nat mid) name x ltac:(lia) Hk Hx) as Hn. unfold name_le in Hn. by rewrite Hc in Hn.
  - exists None. split; [done|]. intros [k Hk]%list_elem_of_lookup. specialize (Hin k Hk). lia.
Qed.

Lemma first_match_spec name low :
  (low < length tbl)%nat →
  ∃ i, first_match m name low = Ok i ∧ (i ≤ low)%nat ∧
    (∀ j, (i ≤ j < low)%nat → names !! j = Some name) ∧ (∀ j, i = S j → names !! j ≠ Some name).
Proof.
  induction low as [|low IH]; intros Hl; simpl.
  - exists 0%nat. repeat split; try done; lia.
  - destruct (name_at_spec low) as (x & Hx & ->); [lia|]. simpl. case_bool_decide as Heq.
    + subst x. destruct IH as (i & -> & Hi & Hr & Hb); [lia|]. exists i. split; [done|]. split; [lia|]. split; [|done].
      intros j Hj. destruct (decide (j = low)) as [->|]; [done|apply Hr; lia].
    + exists (S low). split; [done|]. split; [done|]. split; [lia|]. intros j [= <-]. congruence.
Qed.

Lemma last_match_spec name n high :
  (high + n < length tbl)%nat →
  ∃ i, last_match m name n (Z.of_nat high) = Ok (Z.of_nat i) ∧ (high ≤ i ≤ high + n)%nat ∧
    (∀ j, (high < j ≤ i)%nat → names !! j = Some name) ∧ ((i < high + n)%nat → names !! S i ≠ Some name).
Proof.
  revert high. induction n as [|n IH]; intros high Hl; simpl.
  - exists high. repeat split; try done; lia.
  - destruct (name_at_spec (S high)) as (x & Hx & Hat); [lia|].
    replace (Z.of_nat high + 1) with (Z.of_nat (S high)) by lia. rewrite Hat. simpl. case_bool_decide as Heq.
    + subst x. destruct (IH (S high)) as (i & -> & Hi & Hr & Hb); [lia|]. exists i. split; [done|].
      split; [lia|]. split; [|intros; apply Hb; lia].
      intros j Hj. destruct (decide (j = S high)) as [->|]; [done|apply Hr; lia].
    + exists high. split; [done|]. split; [lia|]. split; [lia|]. intros _. congruence.
Qed.
(** C32: name lookup: [lookup_names] terminates and finds exactly the run of
    the name order that carries the name, or answers nothing when no symbol
    has it; [lookup_name] is the address of the run's first symbol. *)
Theorem ksym_lookup_name name :
  (name ∉ names → lookup_names m name true = Ok None ∧ lookup_name m name = Ok None) ∧
  (name ∈ names →
   ∃ lo hi i s, lookup_names m name true = Ok (Some (Z.of_nat lo, Z.of_nat hi)) ∧
     (∀ k, names !! k = Some name ↔ (lo ≤ k ≤ hi)%nat) ∧
     ord !! lo = Some i ∧ tbl !! i = Some s ∧ sym_name s = name ∧ lookup_name m name = Ok (Some (sym_addr s))).
Proof.
  pose proof (rp_num _ _ _ Hm) as Hn. pose proof length_ord as Hlo.
  assert (length names = length tbl) as Hlen by (unfold names; by rewrite length_map).
  unfold lookup_name, lookup_names. destruct (Z.eqb_spec (kallsyms_num_syms m) 0) as [Hz|Hz].
  { split; [done|]. intros [k Hk]%list_elem_of_lookup. apply lookup_lt_Some in Hk. lia. }
  destruct (search_name_spec (S (Z.to_nat (kallsyms_num_syms m))) name 0 (kallsyms_num_syms m - 1))
    as (o & -> & Ho); [lia..| |].
  { intros k Hk. apply lookup_lt_Some in Hk. lia. }
  cbn [mbind res_bind]. destruct o as [mid|]; [|split; [done|intros ?; done]].
  destruct Ho as (k & -> & Hk). split; [intros []; by eapply list_elem_of_lookup_2|]. intros _.
  pose proof (lookup_lt_Some _ _ _ Hk) as Hkl. rewrite Nat2Z.id.
  destruct (first_match_spec name k) as (lo & -> & Hle & Hr1 & Hb1); [lia|]. cbn [mbind res_bind].
  destruct (last_match_spec name (Z.to_nat (kallsyms_num_syms m - 1 - Z.of_nat k)) k)
    as (hi & -> & Hge & Hr2 & Hb2); [lia|]. cbn [mbind res_bind].
  assert (names !! lo = Some name) as Hnlo.
  { destruct (decide (lo = k)) as [->|]; [done|apply Hr1; lia]. }
  apply list_lookup_fmap_Some in Hnlo as (i & Hnm & Hi).
  assert (i < length tbl)%nat as Hil.
  { apply list_elem_of_lookup_2 in Hi. rewrite (rp_ord _ _ _ Hm) in Hi. apply elem_of_seq in Hi. lia. }
  destruct (lookup_lt_is_Some_2 tbl i Hil) as [s Hs]. exists lo, hi, i, s. split; [done|]. split.
  - intros j. split.
    + intros Hj. pose proof (lookup_lt_Some _ _ _ Hj). split.
      * destruct (decide (lo ≤ j)%nat); [done|exfalso]. destruct lo as [|l]; [lia|]. apply (Hb1 l eq_refl).
        destruct (lookup_lt_is_Some_2 names l) as [x Hx]; [lia|]. rewrite Hx. f_equal.
        by apply (names_between j l k _ x); [lia|..].
      * destruct (decide (j ≤ hi)%nat); [done|exfalso]. apply Hb2; [lia|].
        destruct (lookup_lt_is_Some_2 names (S hi)) as [x Hx]; [lia|]. rewrite Hx. f_equal.
        by apply (names_between k (S hi) j _ x); [lia|..].
    + intros Hj. destruct (decide (j = k)) as [->|]; [done|]. destruct (decide (j < k)%nat); [apply Hr1|apply Hr2]; lia.
  - split; [done|]. split; [done|]. split; [rewrite Hnm; unfold name_of; by rewrite Hs|].
    unfold at_. rewrite Nat2Z.id, (rp_seqs _ _ _ Hm).
    assert (map Z.of_nat ord !! lo = Some (Z.of_nat i)) as -> by (by apply (list_lookup_fmap_Some_2 Z.of_nat)).
    simpl. by rewrite Nat2Z.id, (addr_lookup _ _ Hs).
Qed.
End lookup.

(** ** A concrete table *)
Definition demo_table : list Symbol := [(bs "b", 4096, ch "T"); (bs "c", 4096, ch "T"); (bs "a", 8192, ch "t")].
Definition demo_mapped : KallsymsMapped :=
  {| token_table := []; token_index := [];
     kallsyms_names := [ch "T"; 1; 0; ch "b"; ch "T"; 1; 0; ch "c"; ch "t"; 1; 0; ch "a"];
     kallsyms_offsets := [0; 4; 8]; kallsyms_seqs_of_names := [2; 0; 1];
     kallsyms_addresses := [4096; 4096; 8192]; kallsyms_num_syms := 3; stext := 2048; etext := 12288 |}.

Lemma demo_represents : represents demo_mapped demo_table [2; 0; 1]%nat.
Proof.
  apply Build_represents; try reflexivity.
  - intros [|[|[|i]]] s; simpl; intros [= <-]; vm_compute; reflexivity.
  - repeat constructor; vm_compute; congruence.
  - apply (bool_decide_unpack _). vm_compute. exact I.
  - repeat constructor; vm_compute; congruence.
Qed.

Lemma ksym_lookup_address_witness :
  let _ : BuildMode := true in
  stext demo_mapped ≤ 5000 < etext demo_mapped ∧
  ∃ i s e, lookup_address demo_mapped 5000 = Ok (Some (sym_name s, e - sym_addr s, 5000 - sym_addr s, sym_ty s)) ∧
     demo_table !! i = Some s ∧ sym_addr s ≤ 5000 ∧ symbol_end demo_mapped demo_table (sym_addr s) e ∧
     (∀ s', s' ∈ demo_table → sym_addr s' ≤ 5000 → sym_addr s' ≤ sym_addr s) ∧
     (sym_addr s = 5000 → ∀ j s', (j < i)%nat → demo_table !! j = Some s' → sym_addr s' < 5000).
Proof.
  intros b. assert (∀ s, s ∈ demo_table → 0 ≤ sym_addr s < 2 ^ 64) as Hall.
  { intros s Hs. unfold demo_table in Hs. rewrite !elem_of_cons in Hs.
    destruct Hs as [->|[->|[->|[]%not_elem_of_nil]]]; vm_compute; split; congruence. }
  split; [simpl; lia|].
  apply (proj2 (ksym_lookup_address demo_mapped demo_table [2; 0; 1]%nat demo_represents 5000
    ltac:(lia) ltac:(simpl; lia) Hall)).
  - simpl. lia.
  - eexists. split; [reflexivity|]. vm_compute. congruence.
Defined.

Lemma ksym_lookup_name_witness :
  bs "c" ∈ names demo_table [2; 0; 1]%nat ∧
  ∃ lo hi i s, lookup_names demo_mapped (bs "c") true = Ok (Some (Z.of_nat lo, Z.of_nat hi)) ∧
     (∀ k, names demo_table [2; 0; 1]%nat !! k = Some (bs "c") ↔ (lo ≤ k ≤ hi)%nat) ∧
     [2; 0; 1]%nat !! lo = Some i ∧ demo_table !! i = Some s ∧ sym_name s = bs "c" ∧
     lookup_name demo_mapped (bs "c") = Ok (Some (sym_addr s)).
Proof.
  assert (bs "c" ∈ names demo_table [2; 0; 1]%nat) as Hin by (apply (bool_decide_unpack _); vm_compute; exact I).
  split; [exact Hin|].
  apply (proj2 (ksym_lookup_name demo_mapped demo_table [2; 0; 1]%nat demo_represents (bs "c"))). exact Hin.
Defined.

(** Inside an aliased symbol the last alias answers, at its start the first. *)
Lemma ksym_alias_inside :
  let _ : BuildMode := true in
  lookup_address demo_mapped 4096 = Ok (Some (bs "b", 4096, 0, ch "T")) ∧
  lookup_address demo_mapped 4097 = Ok (Some (bs "c", 4096, 1, ch "T")).
Proof. split; vm_compute; reflexivity. Qed.

(** An address of the section below the first symbol underflows. *)
Lemma ksym_below_first_panics :
  let _ : BuildMode := true in lookup_address demo_mapped 3000 = Panic.
Proof. vm_compute. reflexivity. Qed.
