(* ===== verification/KsymBlob.v ===== *)
(** The binary layout of the symbol table: [from_blob] reads back what
    [to_blob] wrote. *)
From S2P Require Import Prelude Text Ksym KsymGen.

#[local] Arguments le_enc : simpl never.

Lemma words_cons w x l : words w (x :: l) = le_enc w x ++ words w l.
Proof. done. Qed.
Lemma length_words w l : length (words w l) = (w * length l)%nat.
Proof.
  induction l as [|x l IH]; [simpl; lia|]. rewrite words_cons, length_app, length_le_enc, IH. simpl. lia.
Qed.

Lemma le_words_enc w l rest :
  Forall (λ z, 0 ≤ z < 2 ^ (8 * Z.of_nat w)) l → le_words w (length l) (words w l ++ rest) = l.
Proof.
  induction 1 as [|z l Hz _ IH]; [done|]. rewrite words_cons, <- app_assoc. cbn [length le_words].
  rewrite take_app_length', drop_app_length' by (by rewrite length_le_enc). rewrite IH. f_equal.
  rewrite le_dec_enc. by apply Z.mod_small.
Qed.

(** ** Reading at a position *)

(** [xs] stands at [off] in [blob]. *)
Definition stands (blob : str) (off : Z) (xs : str) : Prop :=
  ∃ pre post, blob = pre ++ xs ++ post ∧ off = Z.of_nat (length pre).

Lemma stands_app blob off xs ys :
  stands blob off (xs ++ ys) → stands blob off xs ∧ stands blob (off + Z.of_nat (length xs)) ys.
Proof.
  intros (pre & post & -> & ->). split.
  - exists pre, (ys ++ post). by rewrite <- app_assoc.
  - exists (pre ++ xs), post. rewrite length_app, <- !app_assoc. split; [done|lia].
Qed.
Lemma stands_at blob off off' xs : stands blob off xs → off = off' → stands blob off' xs.
Proof. by intros Hs <-. Qed.
Lemma stands_bound blob off xs :
  stands blob off xs → 0 ≤ off ∧ off + Z.of_nat (length xs) ≤ Z.of_nat (length blob).
Proof. intros (pre & post & -> & ->). rewrite !length_app. lia. Qed.

Lemma stands_slice blob off xs :
  stands blob off xs → slice blob (Z.to_nat off) (Z.to_nat off + length xs) = Some xs.
Proof. intros (pre & post & -> & ->). rewrite Nat2Z.id. apply slice_app_mid. Qed.

Section reading.
Context `{BuildMode} (blob : str) (base : Z).
Context (Hbase : base mod 8 = 0) (Hpos : 0 ≤ base) (Hfit : base + Z.of_nat (length blob) + 8 < 2 ^ 64).

Lemma read_u64_stands off z : stands blob off (le_enc 8 z) → 0 ≤ z < 2 ^ 64 → read_u64 blob off = Ok z.
Proof.
  intros Hs Hz. unfold read_u64. apply stands_slice in Hs. rewrite length_le_enc in Hs. rewrite Hs.
  change (Ok (E:=text) (le_dec (le_enc 8 z)) = Ok z). rewrite le_dec_enc. change (8 * Z.of_nat 8) with 64. by rewrite Z.mod_small.
Qed.

Lemma check_room_stands off xs e :
  stands blob off xs → check_room blob off (Z.of_nat (length xs)) e = Ok ().
Proof.
  intros Hs. apply stands_bound in Hs. unfold check_room. arith_step.
  by destruct (Z.ltb_spec (Z.of_nat (length blob)) (off + Z.of_nat (length xs))); [lia|].
Qed.

Lemma raw_parts_at w off l :
  stands blob off (words w l) → Forall (λ z, 0 ≤ z < 2 ^ (8 * Z.of_nat w)) l →
  raw_parts w blob off (Z.of_nat (length l)) = Ok l.
Proof.
  intros Hs Hl. pose proof (stands_bound _ _ _ Hs) as [H0 Hb]. rewrite length_words in Hb.
  unfold raw_parts. destruct Hs as (pre & post & Hblob & ->).
  destruct (Z.leb_spec (Z.of_nat (length pre) + Z.of_nat w * Z.of_nat (length l)) (Z.of_nat (length blob))); [|lia].
  rewrite !Nat2Z.id. rewrite Hblob at 1. by rewrite drop_app_length, le_words_enc.
Qed.

Lemma read_array_stands w off l e :
  stands blob off (words w l) → Forall (λ z, 0 ≤ z < 2 ^ (8 * Z.of_nat w)) l →
  read_array w blob off (Z.of_nat (length l)) e = Ok (l, off + Z.of_nat (length (words w l))).
Proof.
  intros Hs Hl. pose proof (stands_bound _ _ _ Hs) as [H0 Hb]. unfold read_array.
  assert (Z.of_nat (length l) * Z.of_nat w = Z.of_nat (length (words w l))) as Hw by (rewrite length_words; lia).
  rewrite Hw. arith_step. rewrite (check_room_stands off (words w l)) by done. cbn [mbind res_bind].
  rewrite (raw_parts_at w off l) by done. cbn [mbind res_bind]. arith_step. done.
Qed.

Lemma read_bytes_stands off xs e1 e2 :
  stands blob off (u64_len xs ++ xs) →
  read_bytes blob off e1 e2 = Ok (xs, off + 8 + Z.of_nat (length xs)).
Proof.
  intros Hs. pose proof (stands_app _ _ _ _ Hs) as [H1 H2]. unfold u64_len in *. rewrite length_le_enc in H2.
  change (Z.of_nat 8) with 8 in H2. pose proof (stands_bound _ _ _ H2). unfold read_bytes.
  pose proof (check_room_stands _ _ e1 H1) as Hc. rewrite length_le_enc in Hc. change (Z.of_nat 8) with 8 in Hc.
  rewrite Hc. cbn [mbind res_bind]. rewrite (read_u64_stands off (Z.of_nat (length xs))) by (done || lia).
  cbn [mbind res_bind]. rewrite (check_room_stands _ _ e2 H2). cbn [mbind res_bind].
  rewrite Nat2Z.id, (stands_slice _ _ _ H2). simpl. done.
Qed.

Lemma align_off_stands k off pad :
  (k = 2 ∨ k = 3) → 0 ≤ off → off + pad ≤ Z.of_nat (length blob) → 0 ≤ pad < 2 ^ k → (off + pad) mod 2 ^ k = 0 →
  align_off base (2 ^ k) off = Ok (off + pad).
Proof.
  intros Hk Ho Hl Hp Hm. unfold align_off.
  assert (2 ^ k = 4 ∨ 2 ^ k = 8) as Hk2 by (destruct Hk as [-> | ->]; auto).
  assert (base mod 2 ^ k = 0) as Hbk.
  { destruct Hk as [-> | ->]; [|done]. change (2 ^ 2) with 4. pose proof (Z.div_mod base 8 ltac:(lia)) as Hd.
    rewrite Hbase, Z.add_0_r in Hd. rewrite Hd, Z.mul_comm. replace (base / 8 * 8) with (base / 8 * 2 * 4) by lia.
    apply Z.mod_mul. lia. }
  arith_step. arith_step. arith_step. rewrite land_lnot_mask by lia.
  replace (base + off + 2 ^ k - 1) with (base + (off + pad) + (2 ^ k - 1 - pad)) by lia.
  assert ((base + (off + pad)) mod 2 ^ k = 0) as Hx.
  { by rewrite <- Zplus_mod_idemp_l, Hbk, Z.add_0_l. }
  assert ((base + (off + pad) + (2 ^ k - 1 - pad)) mod 2 ^ k = 2 ^ k - 1 - pad) as ->.
  { rewrite <- Zplus_mod_idemp_l, Hx, Z.add_0_l. apply Z.mod_small. lia. }
  rewrite arith_ok by lia. f_equal. lia.
Qed.

Lemma read_array_at w off off2 n l e :
  stands blob off (words w l) → Forall (λ z, 0 ≤ z < 2 ^ (8 * Z.of_nat w)) l →
  Z.of_nat (length l) = n → off + Z.of_nat w * n = off2 → read_array w blob off n e = Ok (l, off2).
Proof.
  intros Hs Hl <- <-. rewrite (read_array_stands w off l e Hs Hl), length_words. do 2 f_equal. lia.
Qed.

Lemma align8 off off' :
  0 ≤ off ≤ off' → off' < off + 8 → off' ≤ Z.of_nat (length blob) → off' mod 8 = 0 → align_off base 8 off = Ok off'.
Proof.
  intros Ho Hl Hb Hm. replace off' with (off + (off' - off)) by lia.
  apply (align_off_stands 3); [by right|lia|lia|lia|]. by replace (off + (off' - off)) with off' by lia.
Qed.
Lemma align4 off : 0 ≤ off ≤ Z.of_nat (length blob) → off mod 4 = 0 → align_off base 4 off = Ok off.
Proof.
  intros Ho Hm. rewrite <- (Z.add_0_r off) at 2.
  apply (align_off_stands 2); [by left|lia|lia|lia|]. by rewrite Z.add_0_r.
Qed.

Lemma check_room_u64 off z e : stands blob off (le_enc 8 z) → check_room blob off 8 e = Ok ().
Proof. intros Hs. rewrite <- (check_room_stands off _ e Hs). by rewrite length_le_enc. Qed.
End reading.

(** ** The blob *)
Record blob_ok (b : KallsymsBlob) : Prop := {
  bo_num : 0 ≤ kb_num_syms b;
  bo_addrs : Z.of_nat (length (kb_addresses b)) = kb_num_syms b ∧ Forall (λ z, 0 ≤ z < 2 ^ 64) (kb_addresses b);
  bo_offsets : Z.of_nat (length (kb_offsets b)) = kb_num_syms b ∧ Forall (λ z, 0 ≤ z < 2 ^ 32) (kb_offsets b);
  bo_seqs : Z.of_nat (length (kb_seqs_of_names b)) = kb_num_syms b ∧
            Forall (λ z, 0 ≤ z < 2 ^ 32) (kb_seqs_of_names b);
  bo_index : Forall (λ z, 0 ≤ z < 2 ^ 32) (kb_token_index b);
}.

(** What a mapping of the blob shows. *)
Definition mapped_of (b : KallsymsBlob) (stext etext : Z) : KallsymsMapped :=
  {| token_table := kb_token_table b; token_index := kb_token_index b; kallsyms_names := kb_names b;
     kallsyms_offsets := kb_offsets b; kallsyms_seqs_of_names := kb_seqs_of_names b;
     kallsyms_addresses := kb_addresses b; kallsyms_num_syms := kb_num_syms b; stext := stext; etext := etext |}.

Definition padding (align : nat) (v : str) : str :=
  if (length v mod align =? 0)%nat then [] else repeat 0 (align - length v mod align).

Lemma pad_eq align v : pad align v = v ++ padding align v.
Proof. unfold pad, padding. cbv zeta. case_match; [by rewrite app_nil_r|done]. Qed.
Lemma padding_nil align v : (length v mod align = 0)%nat → padding align v = [].
Proof. intros Hv. unfold padding. by rewrite Hv. Qed.
Lemma padding_spec align v :
  (0 < align)%nat → (length (padding align v) < align)%nat ∧ ((length v + length (padding align v)) mod align = 0)%nat.
Proof.
  intros Ha. unfold padding. pose proof (Nat.mod_upper_bound (length v) align ltac:(lia)) as Hm.
  pose proof (Nat.div_mod (length v) align ltac:(lia)) as Hd.
  destruct (Nat.eqb_spec (length v mod align) 0); simpl; [rewrite Nat.add_0_r; lia|].
  rewrite repeat_length. split; [lia|].
  replace (length v + (align - length v mod align))%nat with ((length v / align + 1) * align)%nat by lia.
  apply Nat.Div0.mod_mul.
Qed.

Lemma mod_mul_eq a m k : m = (k * a)%nat → (m mod a = 0)%nat.
Proof. intros ->. apply Nat.Div0.mod_mul. Qed.
Lemma mod_mul_ex a m : (m mod a = 0)%nat → ∃ k, m = (k * a)%nat.
Proof. intros Hm. exists (m / a)%nat. pose proof (Nat.Div0.div_mod m a). lia. Qed.
Lemma mod_mul4 z : (∃ k, z = k * 4) → z mod 4 = 0.
Proof. intros [k ->]. apply Z.mod_mul. lia. Qed.
Lemma mod_mul_z z : (∃ k, z = k * 8) → z mod 8 = 0.
Proof. intros [k ->]. apply Z.mod_mul. lia. Qed.

(** The blob as the concatenation of its segments; only the segments behind
    the names and the token table need padding. *)
Lemma to_blob_layout b :
  blob_ok b →
  ∃ p1 p2,
    let body := le_enc 8 (kb_num_syms b) ++ words 8 (kb_addresses b) ++ words 4 (kb_offsets b) ++
      words 4 (kb_seqs_of_names b) ++ (u64_len (kb_names b) ++ kb_names b) ++ p1 ++
      (u64_len (kb_token_table b) ++ kb_token_table b) ++ p2 ++ u64_len (kb_token_index b) ++ words 4 (kb_token_index b) in
    to_blob b = le_enc 8 (8 + Z.of_nat (length body)) ++ body ∧
    (length p1 < 8)%nat ∧ (length p2 < 8)%nat ∧
    (Z.of_nat (length (kb_names b)) + Z.of_nat (length p1)) mod 8 = 0 ∧
    (Z.of_nat (length (kb_token_table b)) + Z.of_nat (length p2)) mod 8 = 0.
Proof.
  intros [Hn [Ha _] [Ho _] [Hs _] _]. unfold to_blob. cbv zeta.
  set (n := length (kb_addresses b)) in *.
  assert (length (kb_offsets b) = n ∧ length (kb_seqs_of_names b) = n) as [Ho' Hs'] by lia.
  set (v1 := le_enc 8 0 ++ le_enc 8 (kb_num_syms b)).
  assert (length v1 = 16%nat) as Hv1 by (unfold v1; by rewrite length_app, !length_le_enc).
  rewrite !pad_eq, (padding_nil 8 v1), app_nil_r by (by rewrite Hv1).
  set (v2 := v1 ++ words 8 (kb_addresses b)).
  assert (length v2 = 16 + 8 * n)%nat as Hv2 by (unfold v2; rewrite length_app, length_words, Hv1; done).
  rewrite (padding_nil 4 v2), app_nil_r by (apply (mod_mul_eq _ _ (4 + 2 * n)); lia).
  set (v3 := v2 ++ words 4 (kb_offsets b)).
  assert (length v3 = 16 + 12 * n)%nat as Hv3 by (unfold v3; rewrite length_app, length_words, Hv2, Ho'; lia).
  rewrite (padding_nil 4 v3), app_nil_r by (apply (mod_mul_eq _ _ (4 + 3 * n)); lia).
  set (v4 := v3 ++ words 4 (kb_seqs_of_names b)).
  assert (length v4 = 16 + 16 * n)%nat as Hv4 by (unfold v4; rewrite length_app, length_words, Hv3, Hs'; lia).
  rewrite (padding_nil 8 v4), app_nil_r by (apply (mod_mul_eq _ _ (2 + 2 * n)); lia).
  set (v5 := v4 ++ u64_len (kb_names b) ++ kb_names b).
  assert (length v5 = 24 + 16 * n + length (kb_names b))%nat as Hv5.
  { unfold v5, u64_len. rewrite !length_app, length_le_enc, Hv4. lia. }
  destruct (padding_spec 8 v5 ltac:(lia)) as [Hp1 Hm1]. set (p1 := padding 8 v5) in *.
  set (v6 := (v5 ++ p1) ++ u64_len (kb_token_table b) ++ kb_token_table b).
  assert (length v6 = length v5 + length p1 + 8 + length (kb_token_table b))%nat as Hv6.
  { unfold v6, u64_len. rewrite !length_app, length_le_enc. lia. }
  destruct (padding_spec 8 v6 ltac:(lia)) as [Hp2 Hm2]. set (p2 := padding 8 v6) in *.
  set (v7 := (v6 ++ p2) ++ u64_len (kb_token_index b)).
  assert (length v7 = length v6 + length p2 + 8)%nat as Hv7.
  { unfold v7, u64_len. rewrite !length_app, length_le_enc. lia. }
  apply mod_mul_ex in Hm1 as [k1 Hk1], Hm2 as [k2 Hk2].
  rewrite (padding_nil 4 v7), app_nil_r by (apply (mod_mul_eq _ _ (2 * k2 + 2)); lia).
  exists p1, p2. split; [|split; [done|split; [done|split; apply mod_mul_z]]].
  - unfold splice. rewrite take_0, length_le_enc, app_nil_l. unfold v7, v6, v5, v4, v3, v2, v1.
    rewrite <- !app_assoc. rewrite (drop_app_length' (le_enc 8 0)) by (by rewrite length_le_enc).
    rewrite length_app, length_le_enc. do 2 f_equal. lia.
  - exists (Z.of_nat k1 - 3 - 2 * Z.of_nat n). lia.
  - exists (Z.of_nat k2 - Z.of_nat k1 - 1). lia.
Qed.

(** Where the segments stand; [k1] and [k2] are the two paddings. *)
Record segments (b : KallsymsBlob) (blob : str) (o6 o7 k1 k2 : Z) : Prop := {
  sg_len : Z.of_nat (length blob) = o7 + 8 + 4 * Z.of_nat (length (kb_token_index b));
  sg_o6 : o6 = 24 + 16 * kb_num_syms b + Z.of_nat (length (kb_names b)) + k1 ∧ 0 ≤ k1 < 8 ∧ o6 mod 8 = 0;
  sg_o7 : o7 = o6 + 8 + Z.of_nat (length (kb_token_table b)) + k2 ∧ 0 ≤ k2 < 8 ∧ o7 mod 8 = 0;
  sg_total : stands blob 0 (le_enc 8 (Z.of_nat (length blob)));
  sg_num : stands blob 8 (le_enc 8 (kb_num_syms b));
  sg_addrs : stands blob 16 (words 8 (kb_addresses b));
  sg_offsets : stands blob (16 + 8 * kb_num_syms b) (words 4 (kb_offsets b));
  sg_seqs : stands blob (16 + 12 * kb_num_syms b) (words 4 (kb_seqs_of_names b));
  sg_names : stands blob (16 + 16 * kb_num_syms b) (u64_len (kb_names b) ++ kb_names b);
  sg_table : stands blob o6 (u64_len (kb_token_table b) ++ kb_token_table b);
  sg_index_len : stands blob o7 (u64_len (kb_token_index b));
  sg_index : stands blob (o7 + 8) (words 4 (kb_token_index b));
}.

Lemma to_blob_segments b : blob_ok b → ∃ o6 o7 k1 k2, segments b (to_blob b) o6 o7 k1 k2.
Proof.
  intros Hb. destruct (to_blob_layout b Hb) as (p1 & p2 & Hblob & Hl1 & Hl2 & Hm1 & Hm2).
  cbv zeta in Hblob. destruct Hb as [Hn [Ha _] [Ho _] [Hs _] _].
  assert (stands (to_blob b) 0 (to_blob b)) as Hall by (exists [], []; by rewrite app_nil_r).
  rewrite Hblob in Hall at 2. pose proof (f_equal length Hblob) as Hlen. rewrite length_app, length_le_enc in Hlen.
  set (blob := to_blob b) in *. set (n := kb_num_syms b) in *.
  set (o6 := 24 + 16 * n + Z.of_nat (length (kb_names b)) + Z.of_nat (length p1)).
  set (o7 := o6 + 8 + Z.of_nat (length (kb_token_table b)) + Z.of_nat (length p2)).
  apply stands_app in Hall as [S0 Hall].
  replace (8 + Z.of_nat _) with (Z.of_nat (length blob)) in S0 by lia.
  rewrite !length_app, !length_words in Hlen. unfold u64_len in Hlen. rewrite !length_le_enc in Hlen.
  do 5 apply stands_app in Hall as [? Hall]. apply stands_app in Hall as [_ Hall].
  apply stands_app in Hall as [S6 Hall]. apply stands_app in Hall as [_ Hall]. apply stands_app in Hall as [S7 S8].
  unfold u64_len in *. rewrite ?length_app, ?length_words, ?length_le_enc in *.
  assert (o6 mod 8 = 0) as H6.
  { unfold o6. rewrite <- Z.add_assoc, Z.add_mod, Hm1 by lia. rewrite Z.add_0_r, Z.mod_mod by lia.
    apply mod_mul_z. exists (3 + 2 * n). lia. }
  assert (o7 mod 8 = 0) as H7.
  { unfold o7. rewrite <- Z.add_assoc, Z.add_mod, Hm2, Z.add_0_r, Z.mod_mod by lia.
    rewrite Z.add_mod, H6 by lia. done. }
  exists o6, o7, (Z.of_nat (length p1)), (Z.of_nat (length p2)).
  split; fold n; unfold u64_len; try done; try lia;
    (match goal with Hs : stands _ _ ?x |- stands _ _ ?x => apply (stands_at _ _ _ _ Hs); lia end).
Qed.

Lemma blob_roundtrip `{BuildMode} b base st et :
  blob_ok b → base mod 8 = 0 → 0 ≤ base → base + Z.of_nat (length (to_blob b)) + 8 < 2 ^ 64 →
  from_blob base (to_blob b) st et = Ok (mapped_of b st et).
Proof.
  intros Hb Hbase Hpos Hfit. destruct (to_blob_segments b Hb) as (o6 & o7 & k1 & k2 & Sg).
  set (blob := to_blob b) in *. clearbody blob. destruct Sg as [Hlen Ho6 Ho7 S0 S1 S2 S3 S4 S5 S6 S7 S8].
  destruct Hb as [Hn [Ha Hra] [Ho Hro] [Hs Hrs] Hri]. set (n := kb_num_syms b) in *.
  unfold from_blob, check_total_bytes. destruct (Z.ltb_spec (Z.of_nat (length blob)) 8); [lia|].
  rewrite (read_u64_stands blob _ _ S0) by lia. cbn [mbind res_bind]. rewrite Z.eqb_refl. cbn [negb].
  pose proof (λ a b, align8 blob base Hbase Hpos Hfit a b) as A8.
  pose proof (λ a, align4 blob base Hbase Hpos Hfit a) as A4.
  rewrite (check_room_u64 _ base Hpos Hfit _ _ _ S1). cbn [mbind res_bind].
  rewrite (read_u64_stands _ _ _ S1) by lia. cbn [mbind res_bind].
  rewrite (A8 16 16) by (done || lia). cbn [mbind res_bind].
  rewrite (read_array_at _ base Hpos Hfit 8 16 (16 + 8 * n) n _ _ S2 Hra Ha) by lia. cbn [mbind res_bind].
  rewrite A4 by (lia || (apply mod_mul4; exists (4 + 2 * n); lia)). cbn [mbind res_bind].
  rewrite (read_array_at _ base Hpos Hfit 4 _ (16 + 12 * n) n _ _ S3 Hro Ho) by lia. cbn [mbind res_bind].
  rewrite A4 by (lia || (apply mod_mul4; exists (4 + 3 * n); lia)). cbn [mbind res_bind].
  rewrite (read_array_at _ base Hpos Hfit 4 _ (16 + 16 * n) n _ _ S4 Hrs Hs) by lia. cbn [mbind res_bind].
  rewrite (A8 (16 + 16 * n) (16 + 16 * n)) by (lia || (apply mod_mul_z; exists (2 + 2 * n); lia)).
  cbn [mbind res_bind]. rewrite (read_bytes_stands _ base Hpos Hfit _ _ _ _ S5). cbn [mbind res_bind].
  rewrite (A8 _ o6) by lia. cbn [mbind res_bind].
  rewrite (read_bytes_stands _ base Hpos Hfit _ _ _ _ S6). cbn [mbind res_bind].
  rewrite (A8 _ o7) by lia. cbn [mbind res_bind].
  rewrite (check_room_u64 _ base Hpos Hfit _ _ _ S7). cbn [mbind res_bind].
  rewrite (read_u64_stands _ _ _ S7) by lia. cbn [mbind res_bind].
  assert ((o7 + 8) mod 4 = 0) as H4.
  { destruct Ho7 as (_ & _ & Hm). apply mod_mul4. exists (o7 / 8 * 2 + 2).
    pose proof (Z.div_mod o7 8 ltac:(lia)). lia. }
  rewrite A4 by (done || lia). cbn [mbind res_bind]. arith_step.
  pose proof (check_room_stands _ base Hpos Hfit _ _ (bs "The token index array is missing") S8) as Hc.
  rewrite length_words in Hc. replace (Z.of_nat (4 * length (kb_token_index b)))
    with (Z.of_nat (length (kb_token_index b)) * 4) in Hc by lia.
  rewrite Hc. cbn [mbind res_bind]. by rewrite (raw_parts_at _ 4 _ _ S8 Hri).
Qed.

(** C33: the binary format is lossless: mapping the bytes that [to_blob]
    writes, at any 8-byte aligned address, gives back every table, with all
    bounds checks passed and no arithmetic overflow. *)
Theorem ksym_blob_roundtrip `{BuildMode} b base st et :
  blob_ok b → base mod 8 = 0 → 0 ≤ base → base + Z.of_nat (length (to_blob b)) + 8 < 2 ^ 64 →
  from_blob base (to_blob b) st et = Ok (mapped_of b st et).
Proof. apply blob_roundtrip. Qed.

Definition demo_blob : KallsymsBlob :=
  {| kb_token_table := bs "do_"; kb_token_index := [0]; kb_token_map := ∅;
     kb_names := [ch "T"; 7; 0; 255; 0; 255] ++ bs "fork"; kb_offsets := [0]; kb_seqs_of_names := [0];
     kb_addresses := [4096]; kb_num_syms := 1 |}.
Lemma demo_blob_ok : blob_ok demo_blob.
Proof. apply Build_blob_ok; simpl; try lia; try (split; [done|]); repeat constructor; lia. Qed.

Lemma ksym_blob_roundtrip_witness :
  let _ : BuildMode := true in
  blob_ok demo_blob ∧ from_blob 65536 (to_blob demo_blob) 4096 8192 = Ok (mapped_of demo_blob 4096 8192).
Proof.
  intros m. split; [exact demo_blob_ok|].
  apply (ksym_blob_roundtrip demo_blob 65536 4096 8192 demo_blob_ok); [reflexivity|lia|]. vm_compute. reflexivity.
Defined.

(** The bounds checks multiply without care: in a release build a blob of 16
    bytes that claims 2^61 symbols passes them and is read out of range. *)
Lemma from_blob_check_wraps :
  let _ : BuildMode := false in from_blob 0 (le_enc 8 16 ++ le_enc 8 (2 ^ 61)) 0 0 = Panic.
Proof. vm_compute. reflexivity. Qed.
