(* ===== verification/KsymGenProps.v ===== *)
(** The generator against the reader: tokens, compressed names and sort
    orders, up to the theorem that the generated table represents its input. *)
From S2P Require Import Prelude Text Ksym KsymGen KsymLookup KsymBlob.

(** ** Bytes *)
Lemma join_bytes z : Z.lor (Z.shiftl (Z.shiftr z 8) 8) (Z.land z 255) = z.
Proof. change 255 with (Z.ones 8). rewrite <- Z.ldiff_ones_r by lia. apply Z.lor_ldiff_and. Qed.

Lemma shiftr_byte z n : 0 ≤ z < 2 ^ (8 + n) → 0 ≤ n → 0 ≤ Z.shiftr z 8 < 2 ^ n.
Proof.
  intros Hz Hn. rewrite Z.shiftr_div_pow2 by lia. rewrite Z.pow_add_r in Hz by lia.
  split; [apply Z.div_pos; lia|apply Z.div_lt_upper_bound; lia].
Qed.
Lemma land_255 z : Z.land z 255 = z mod 256.
Proof. apply (land_mask 8). lia. Qed.

Definition ascii (s : str) : Prop := Forall (λ c, 0 ≤ c < 128) s.

Lemma ascii_utf8 s : ascii s → utf8_valid s = true.
Proof. intros Hs. apply utf8_valid_ascii. eapply Forall_impl; [exact Hs|]. simpl. lia. Qed.

(** ** Name records *)
Definition rec_ok (m : KallsymsMapped) (r : str) (s : Symbol) : Prop :=
  ∃ payload, r = [sym_ty s] ++ le16 (Z.of_nat (length payload)) ++ payload ∧
    Z.of_nat (length payload) < 2 ^ 16 ∧ expand_symbol m payload = Ok (sym_name s).

Lemma slice_at {A} (l : list A) a b : slice_ l (Z.of_nat a) (Z.of_nat b) = unwrap (slice l a b).
Proof. unfold slice_. by rewrite !Nat2Z.id. Qed.
Lemma slice_app_end {A} (pre xs : list A) : slice (pre ++ xs) (length pre) (length (pre ++ xs)) = Some xs.
Proof. rewrite slice_some by (rewrite ?length_app; lia). f_equal. rewrite drop_app_length, take_ge; [done|]. rewrite length_app. lia. Qed.

Lemma decode_at m i s pre r post :
  kallsyms_names m = pre ++ r ++ post → kallsyms_offsets m !! i = Some (Z.of_nat (length pre)) →
  rec_ok m r s → decode m (Z.of_nat i) = Ok (sym_name s, sym_ty s).
Proof.
  intros Hn Ho (payload & -> & Hl & He). unfold decode, at_. rewrite Nat2Z.id, Ho. cbn [unwrap mbind res_bind].
  set (hdr := [sym_ty s] ++ le16 (Z.of_nat (length payload))).
  assert (kallsyms_names m = pre ++ (hdr ++ payload) ++ post) as Hn' by (rewrite Hn; unfold hdr; by rewrite <- !app_assoc).
  assert (length hdr = 3%nat) as Hh by done.
  rewrite (slice_at (kallsyms_names m)), Hn'.
  rewrite slice_app_end. cbn [unwrap mbind res_bind].
  assert (read_compressed_len_and_type ((hdr ++ payload) ++ post) = (Z.of_nat (length payload), sym_ty s)) as ->.
  { unfold hdr, le16. simpl. pose proof (shiftr_byte (Z.of_nat (length payload)) 8 ltac:(lia) ltac:(lia)).
    by rewrite wrapu_small, join_bytes by lia. }
  replace (Z.of_nat (length pre) + Z.of_nat PREFIX_LEN) with (Z.of_nat (length (pre ++ hdr)))
    by (rewrite length_app, Hh; unfold PREFIX_LEN, LENGTH_BYTES, TY_LEN; lia).
  rewrite <- Nat2Z.inj_add, slice_at, <- app_assoc, app_assoc, slice_app_mid. cbn [unwrap mbind res_bind].
  by rewrite He.
Qed.

(** ** Tokens *)

(** The token tables hold the list [toks]. *)
Record toks_ok (table : str) (index : list Z) (map : gmap str Z) (toks : list str) : Prop := {
  tk_nodup : NoDup toks;
  tk_small : Z.of_nat (length toks) ≤ 512 ∧ Forall (λ t, Z.of_nat (length t) ≤ 4096) toks;
  tk_table : table = concat toks;
  tk_index_len : length index = length toks;
  tk_index i : (i < length toks)%nat → index !! i = Some (Z.of_nat (length (concat (take i toks))));
  tk_map t : map !! t = None ↔ t ∉ toks;
  tk_map_some t z : map !! t = Some z → ∃ i, toks !! i = Some t ∧ z = Z.of_nat i;
  tk_size : size map = length toks;
}.

Lemma length_concat_le (toks : list str) :
  Forall (λ t, Z.of_nat (length t) ≤ 4096) toks → Z.of_nat (length (concat toks)) ≤ 4096 * Z.of_nat (length toks).
Proof. induction 1; cbn [concat length]; rewrite ?length_app; lia. Qed.

Lemma token_str_ok m map toks i t :
  toks_ok (token_table m) (token_index m) map toks → toks !! i = Some t → token_str m (Z.of_nat i) = Ok t.
Proof.
  intros [_ _ Htab Hil Hidx _ _ _] Hi. pose proof (lookup_lt_Some _ _ _ Hi) as Hlt.
  unfold token_str, at_. rewrite Nat2Z.id, (Hidx i Hlt). cbn [unwrap mbind res_bind].
  assert (concat toks = concat (take i toks) ++ t ++ concat (drop (S i) toks)) as Hsplit.
  { rewrite <- (take_drop i toks) at 1. rewrite (drop_S _ _ _ Hi), concat_app. done. }
  assert (concat (take (S i) toks) = concat (take i toks) ++ t) as HS.
  { rewrite (take_S_r _ _ _ Hi), concat_app. simpl. by rewrite app_nil_r. }
  set (a := concat (take i toks)) in *.
  assert ((if Z.of_nat i + 1 <? Z.of_nat (length (token_index m)) then
      unwrap (token_index m !! Z.to_nat (Z.of_nat i + 1)) else Ok (E:=()) (Z.of_nat (length (token_table m)))) =
    Ok (Z.of_nat (length a + length t))) as ->.
  { destruct (Z.ltb_spec (Z.of_nat i + 1) (Z.of_nat (length (token_index m)))).
    - replace (Z.to_nat (Z.of_nat i + 1)) with (S i) by lia. rewrite Hidx by lia. simpl. by rewrite HS, length_app.
    - rewrite Htab, Hsplit, (drop_ge toks) by lia. simpl. by rewrite app_nil_r, length_app. }
  cbn [mbind res_bind]. unfold slice_. rewrite !Nat2Z.id, Htab, Hsplit. by rewrite slice_app_mid.
Qed.

Lemma add_token_ok b toks t :
  toks_ok (kb_token_table b) (kb_token_index b) (kb_token_map b) toks →
  Z.of_nat (length t) ≤ 4096 → Z.of_nat (length toks) < 512 →
  ∃ toks', toks_ok (kb_token_table (add_token b t)) (kb_token_index (add_token b t)) (kb_token_map (add_token b t)) toks' ∧
    (length toks' ≤ S (length toks))%nat ∧
    kb_names (add_token b t) = kb_names b ∧ kb_offsets (add_token b t) = kb_offsets b ∧
    kb_addresses (add_token b t) = kb_addresses b ∧ kb_seqs_of_names (add_token b t) = kb_seqs_of_names b.
Proof.
  intros Hok Ht Hlt. unfold add_token. destruct (kb_token_map b !! t) as [z|] eqn:Hz.
  { exists toks. split; [done|]. split; [lia|done]. }
  destruct Hok as [Hnd [Hsm Hle] Htab Hil Hidx Hmap Hsome Hsize].
  pose proof (length_concat_le toks Hle) as Hcl. exists (toks ++ [t]). simpl.
  split; [|split; [rewrite length_app; simpl; lia|done]]. split.
  - apply NoDup_app. split; [done|]. split; [|apply NoDup_singleton].
    intros x Hx ->%list_elem_of_singleton. by apply Hmap in Hz.
  - split; [rewrite length_app; simpl; lia|]. apply Forall_app. split; [done|by constructor].
  - rewrite concat_app, Htab. simpl. by rewrite app_nil_r.
  - rewrite !length_app. simpl. lia.
  - intros i Hi. rewrite length_app in Hi. simpl in Hi. destruct (decide (i < length toks)%nat) as [Hi'|Hi'].
    + rewrite lookup_app_l by lia. rewrite take_app_le by lia. by apply Hidx.
    + assert (i = length toks) as -> by lia. rewrite lookup_app_r by lia. rewrite Hil, Nat.sub_diag. simpl.
      rewrite take_app_length, Htab, wrapu_small by lia. done.
  - intros x. rewrite lookup_insert_None, Hmap, elem_of_app, list_elem_of_singleton. naive_solver.
  - intros x z. rewrite lookup_insert_Some. intros [[<- <-]|[_ Hx]].
    + exists (length toks). rewrite lookup_app_r, Nat.sub_diag by lia. split; [done|].
      rewrite Hsize. apply wrapu_small. lia.
    + destruct (Hsome _ _ Hx) as (i & Hi & ->). exists i. split; [by apply lookup_app_l_Some|done].
  - rewrite map_size_insert_None by done. rewrite Hsize, length_app. simpl. lia.
Qed.

(** ** Encoding one name *)
Definition good_name (s : str) : Prop := s ≠ [] ∧ ascii s ∧ Z.of_nat (length s) ≤ 4096.
Definition good_symbol (s : Symbol) : Prop :=
  good_name (sym_name s) ∧ 0 ≤ sym_addr s < 2 ^ 64 ∧ 0 ≤ sym_ty s < 256.

Lemma ascii_boundary s l : ascii s → (l ≤ length s)%nat → is_char_boundary s l = true.
Proof.
  intros Hs Hl. unfold is_char_boundary. destruct (s !! l) as [b|] eqn:Hb.
  - unfold ascii in Hs. rewrite Forall_forall in Hs. apply list_elem_of_lookup_2, Hs in Hb.
    unfold is_continuation. rewrite (proj2 (Z.leb_gt 128 b)) by lia. done.
  - apply lookup_ge_None in Hb. apply Nat.eqb_eq. lia.
Qed.

Lemma find_token_ok map sym lens :
  ascii sym →
  ∃ o, find_token map sym lens = Ok o ∧
    match o with Some (id, l) => l ∈ lens ∧ (l ≤ length sym)%nat ∧ map !! take l sym = Some id | None => True end.
Proof.
  intros Hs. induction lens as [|l lens IH]; simpl; [by exists None|].
  destruct IH as (o & Ho & Hspec).
  assert (∃ o', find_token map sym lens = Ok o' ∧ match o' with
    Some (id, l0) => l0 ∈ l :: lens ∧ (l0 ≤ length sym)%nat ∧ map !! take l0 sym = Some id | None => True end) as Hrest.
  { exists o. split; [done|]. destruct o as [[id l0]|]; [|done]. rewrite elem_of_cons. naive_solver. }
  destruct (Nat.ltb_spec (length sym) l); [done|]. rewrite ascii_boundary by (done || lia). simpl.
  destruct (map !! take l sym) as [id|] eqn:Hid; [|done]. exists (Some (id, l)). split; [done|].
  split; [apply list_elem_of_here|done].
Qed.

Lemma append_cut_short a b : Z.of_nat (length a + length b) ≤ 4096 → append_cut a b = a ++ b.
Proof.
  intros Hl. unfold append_cut. rewrite take_ge; [done|].
  assert (Z.of_nat KSYM_NAME_LEN = 4096) by reflexivity. lia.
Qed.

Lemma expand_raw m s : good_name s → expand_symbol m s = Ok s.
Proof.
  intros (Hn & Hs & Hl). destruct s as [|c s]; [done|]. unfold expand_symbol.
  change (at_ (c :: s) 0) with (Ok (E:=()) c). cbn [mbind res_bind].
  assert (c =? TOKEN_MARKER = false) as ->.
  { apply Forall_cons in Hs as [Hc _]. apply Z.eqb_neq. unfold TOKEN_MARKER. lia. }
  cbn [mbind res_bind]. rewrite append_cut_short by (simpl in *; lia). simpl app. by rewrite ascii_utf8.
Qed.

(** A token code followed by the rest of the name. *)
Definition token_code (id : Z) : str :=
  [TOKEN_MARKER] ++ (if id <? 256 then [wrapu 8 id] else [wrapu 8 (Z.shiftr id 8); Z.land id 255]) ++ [TOKEN_MARKER].

Lemma parse_token_code id rest :
  0 ≤ id < 511 → parse_token (token_code id ++ rest) = (Some id, length (token_code id)).
Proof.
  intros Hid. unfold token_code. destruct (Z.ltb_spec id 256).
  - rewrite wrapu_small by lia. reflexivity.
  - pose proof (shiftr_byte id 8 ltac:(lia) ltac:(lia)). rewrite wrapu_small by lia.
    assert (Z.land id 255 =? TOKEN_MARKER = false) as Hlo.
    { apply Z.eqb_neq. rewrite land_255. unfold TOKEN_MARKER. pose proof (Z.div_mod id 256 ltac:(lia)).
      assert (id / 256 = 1); [|lia]. apply Z.le_antisymm; [|apply Z.div_le_lower_bound; lia].
      apply Z.lt_succ_r, Z.div_lt_upper_bound; lia. }
    simpl. unfold parse_token. simpl. rewrite Hlo. simpl. by rewrite join_bytes.
Qed.

Lemma expand_token m map toks i t rest :
  toks_ok (token_table m) (token_index m) map toks → toks !! i = Some t → Z.of_nat i < 511 →
  good_name (t ++ rest) → expand_symbol m (token_code (Z.of_nat i) ++ rest) = Ok (t ++ rest).
Proof.
  intros Htk Ht Hi (_ & Hs & Hl). rewrite length_app in Hl. unfold expand_symbol.
  change (at_ (token_code (Z.of_nat i) ++ rest) 0) with (Ok (E:=()) TOKEN_MARKER). cbn [mbind res_bind].
  rewrite Z.eqb_refl, parse_token_code by lia.
  pose proof (lookup_lt_Some _ _ _ Ht). rewrite (tk_index_len _ _ _ _ Htk).
  rewrite (proj2 (Z.ltb_lt _ _)) by lia. rewrite (token_str_ok m map toks i t Htk Ht). cbn [mbind res_bind].
  rewrite drop_app_length, !append_cut_short by (rewrite ?append_cut_short by (simpl; lia); simpl; lia).
  simpl app. by rewrite ascii_utf8.
Qed.

Lemma length_token_code id : length (token_code id) = if id <? 256 then 3%nat else 4%nat.
Proof. unfold token_code. by destruct (id <? 256). Qed.

Lemma emit_name_ok `{BuildMode} m map toks s :
  toks_ok (token_table m) (token_index m) map toks → Z.of_nat (length toks) ≤ 512 → good_symbol s →
  ∃ r, emit_name map (sym_name s) (sym_ty s) = Ok r ∧ (Z.of_nat (length toks) ≤ 511 → rec_ok m r s) ∧
    (length r ≤ 8 + length (sym_name s))%nat.
Proof.
  intros Htk Hl (Hn & _ & Hty). pose proof Hn as (_ & Hs & Hlen). unfold emit_name.
  destruct (find_token_ok map (sym_name s) (reverse PREFIX_CANDIDATE_LENS) Hs) as (o & -> & Ho).
  cbn [mbind res_bind]. rewrite (wrapu_small 8 (sym_ty s)) by lia. destruct o as [[id l]|].
  - destruct Ho as (Hin & Hle & Hmap). destruct (tk_map_some _ _ _ _ Htk _ _ Hmap) as (i & Hi & ->).
    pose proof (lookup_lt_Some _ _ _ Hi). rewrite (wrapu_small 16) by lia.
    set (rest := drop l (sym_name s)). assert (length rest = length (sym_name s) - l)%nat as Hrest by apply length_drop.
    assert (0 < l)%nat as Hpos.
    { apply elem_of_reverse in Hin. assert (Forall (λ l, 0 < l)%nat PREFIX_CANDIDATE_LENS) as Hall.
      { repeat (constructor; [apply Nat.lt_0_succ|]). constructor. }
      rewrite Forall_forall in Hall. by apply Hall. }
    assert ((if Z.of_nat i <? 256 then 3 else 4) + Z.of_nat (length (sym_name s) - l) =
      Z.of_nat (length (token_code (Z.of_nat i) ++ rest))) as Hc.
    { rewrite length_app, length_token_code, Hrest. destruct (Z.of_nat i <? 256); lia. }
    rewrite Hc. assert (length (token_code (Z.of_nat i) ++ rest) ≤ 4 + length (sym_name s))%nat as Hpl.
    { rewrite length_app, length_token_code, Hrest. destruct (Z.of_nat i <? 256); lia. }
    arith_step. eexists. split; [done|]. split.
    + intros Hfew. exists (token_code (Z.of_nat i) ++ rest). split; [unfold token_code; by rewrite <- !app_assoc|].
      split; [lia|]. rewrite (expand_token m map toks i (take l (sym_name s))) by
        (done || lia || (unfold rest; by rewrite take_drop)).
      unfold rest. by rewrite take_drop.
    + unfold le16. rewrite !length_app. simpl. rewrite length_app, length_token_code in Hpl.
      unfold token_code in *. destruct (Z.of_nat i <? 256); simpl; lia.
  - rewrite wrapu_small by lia. eexists. split; [done|]. split.
    + intros _. exists (sym_name s). split; [done|]. split; [lia|by apply expand_raw].
    + unfold le16. rewrite !length_app. simpl. lia.
Qed.

(** ** All names *)
Definition sym_at (symbols : list Symbol) (i : nat) : Symbol := default ([], 0, 0) (symbols !! i).

(** Room for the name records. *)
Fixpoint names_room (l : list Symbol) : Z :=
  match l with [] => 0 | s :: l => 8 + Z.of_nat (length (sym_name s)) + names_room l end.
Lemma names_room_nonneg l : 0 ≤ names_room l.
Proof. induction l; simpl; lia. Qed.
Lemma names_room_length l : Z.of_nat (length l) ≤ names_room l.
Proof. induction l; simpl; lia. Qed.
#[export] Instance names_room_perm : Proper ((≡ₚ) ==> eq) names_room.
Proof. intros l1 l2. induction 1; simpl; lia. Qed.

Fixpoint offsets_from (p : nat) (recs : list str) : list nat :=
  match recs with [] => [] | r :: recs => p :: offsets_from (p + length r) recs end.
Lemma length_offsets p recs : length (offsets_from p recs) = length recs.
Proof. revert p. induction recs; intros p; simpl; auto. Qed.
Lemma offsets_lookup p recs i :
  (i < length recs)%nat → offsets_from p recs !! i = Some (p + length (concat (take i recs)))%nat.
Proof.
  revert p i. induction recs as [|r recs IH]; intros p [|i] Hi; simpl in *; try lia; [by rewrite Nat.add_0_r|].
  rewrite IH by lia. rewrite length_app. f_equal. lia.
Qed.

Lemma sym_at_some symbols i s : symbols !! i = Some s → sym_at symbols i = s.
Proof. intros Hs. exact (f_equal (default ([], 0, 0)) Hs). Qed.

Definition pushed (b : KallsymsBlob) (r : str) (s : Symbol) : KallsymsBlob :=
  {| kb_token_table := kb_token_table b; kb_token_index := kb_token_index b; kb_token_map := kb_token_map b;
     kb_names := kb_names b ++ r; kb_offsets := kb_offsets b ++ [Z.of_nat (length (kb_names b))];
     kb_seqs_of_names := kb_seqs_of_names b; kb_addresses := kb_addresses b ++ [sym_addr s];
     kb_num_syms := kb_num_syms b |}.

Lemma push_symbol_ok `{BuildMode} m toks b s :
  toks_ok (token_table m) (token_index m) (kb_token_map b) toks → Z.of_nat (length toks) ≤ 512 → good_symbol s →
  Z.of_nat (length (kb_names b)) < 2 ^ 32 →
  ∃ r, (Z.of_nat (length toks) ≤ 511 → rec_ok m r s) ∧ Z.of_nat (length r) ≤ 8 + Z.of_nat (length (sym_name s)) ∧ push_symbol b s = Ok (pushed b r s).
Proof.
  intros Htk Hl Hgs Hn. destruct (emit_name_ok m (kb_token_map b) toks s Htk Hl Hgs) as (r & Hr & Hrec & Hlen).
  exists r. split; [done|]. split; [lia|]. unfold push_symbol. rewrite Hr. cbn [mbind res_bind].
  rewrite wrapu_small by lia. reflexivity.
Qed.

Lemma push_symbols_eq `{BuildMode} b symbols i idx :
  push_symbols b symbols (i :: idx) = (s ← unwrap (symbols !! i); b ← push_symbol b s; push_symbols b symbols idx).
Proof. reflexivity. Qed.

Lemma bind_some {E A B} (o : option A) (a : A) (f : A → res E B) : o = Some a → unwrap o ≫= f = f a.
Proof. by intros ->. Qed.
Lemma bind_is_ok {E A B} (m : res E A) (a : A) (f : A → res E B) : m = Ok a → m ≫= f = f a.
Proof. by intros ->. Qed.

Lemma push_symbols_cons `{BuildMode} b b1 symbols i idx s :
  symbols !! i = Some s → push_symbol b s = Ok b1 → push_symbols b symbols (i :: idx) = push_symbols b1 symbols idx.
Proof. intros Hs Hp. by rewrite push_symbols_eq, (bind_some _ _ _ Hs), (bind_is_ok _ _ _ Hp). Qed.

Lemma good_lookup symbols i s : Forall good_symbol symbols → symbols !! i = Some s → good_symbol s.
Proof. intros Hg Hs. by eapply Forall_lookup_1. Qed.

Lemma push_symbols_ok `{BuildMode} m toks b symbols idx :
  toks_ok (token_table m) (token_index m) (kb_token_map b) toks → Z.of_nat (length toks) ≤ 512 →
  Forall (λ i, i < length symbols)%nat idx → Forall good_symbol symbols →
  Z.of_nat (length (kb_names b)) + names_room (map (sym_at symbols) idx) < 2 ^ 32 →
  ∃ recs, Forall2 (λ r s, Z.of_nat (length toks) ≤ 511 → rec_ok m r s) recs (map (sym_at symbols) idx) ∧
    Z.of_nat (length (concat recs)) ≤ names_room (map (sym_at symbols) idx) ∧
    push_symbols b symbols idx = Ok
      {| kb_token_table := kb_token_table b; kb_token_index := kb_token_index b; kb_token_map := kb_token_map b;
         kb_names := kb_names b ++ concat recs;
         kb_offsets := kb_offsets b ++ map Z.of_nat (offsets_from (length (kb_names b)) recs);
         kb_seqs_of_names := kb_seqs_of_names b;
         kb_addresses := kb_addresses b ++ map sym_addr (map (sym_at symbols) idx); kb_num_syms := kb_num_syms b |}.
Proof.
  intros Htk Hl Hidx Hgood. revert b Htk. induction Hidx as [|i idx Hi Hidx IH]; intros b Htk Hroom.
  - exists []. split; [constructor|]. split; [done|]. simpl. rewrite !app_nil_r. by destruct b.
  - destruct (lookup_lt_is_Some_2 symbols i Hi) as [s Hs]. pose proof (sym_at_some _ _ _ Hs) as Hat.
    pose proof (good_lookup _ _ _ Hgood Hs) as Hgs.
    cbn [map names_room] in Hroom. rewrite Hat in Hroom. pose proof (names_room_nonneg (map (sym_at symbols) idx)).
    destruct (push_symbol_ok m toks b s Htk Hl Hgs ltac:(lia)) as (r & Hrec & Hlen & Hpush).
    set (b1 := pushed b r s) in *.
    destruct (IH b1 Htk) as (recs & Hrecs & Hrl & Hps).
    { unfold b1, pushed, kb_names. rewrite length_app. unfold kb_names in Hroom. lia. }
    exists (r :: recs). split; [cbn [map]; rewrite Hat; by constructor|].
    split; [cbn [map concat names_room]; rewrite Hat, length_app; lia|].
    rewrite (push_symbols_cons b b1 symbols i idx s Hs Hpush), Hps. unfold b1. apply f_equal. unfold pushed.
    cbn [kb_token_table kb_token_index kb_token_map kb_names kb_offsets kb_seqs_of_names kb_addresses kb_num_syms].
    rewrite length_app. cbn [map concat offsets_from]. rewrite Hat, <- !app_assoc. reflexivity.
Qed.

(** ** Token selection *)
Definition short (t : str) : Prop := Z.of_nat (length t) ≤ 4096.

Lemma count_lens_ok name lens counts :
  ascii name → short name → map_Forall (λ k _, short k) counts →
  ∃ counts', count_lens name lens counts = Ok counts' ∧ map_Forall (λ k _, short k) counts'.
Proof.
  intros Ha Hs. revert counts. induction lens as [|l lens IH]; intros counts Hc; simpl; [by exists counts|].
  assert (∀ t, short t → map_Forall (λ k _, short k) (count_token counts t)) as Hct.
  { intros t Ht. by apply map_Forall_insert_2. }
  unfold count_len. destruct (l <=? length name)%nat.
  - rewrite ascii_utf8 by (by apply Forall_take). apply IH, Hct. unfold short in *. rewrite length_take. lia.
  - destruct (_ && _); apply IH; auto.
Qed.

Lemma count_tokens_ok symbols counts :
  Forall good_symbol symbols → map_Forall (λ k _, short k) counts →
  ∃ counts', count_tokens symbols counts = Ok counts' ∧ map_Forall (λ k _, short k) counts'.
Proof.
  intros Hg. revert counts. induction Hg as [|s symbols Hs _ IH]; intros counts Hc; cbn [count_tokens]; [by exists counts|].
  destruct Hs as ((_ & Ha & Hl) & _).
  destruct (count_lens_ok (sym_name s) PREFIX_CANDIDATE_LENS counts Ha Hl Hc) as (c1 & -> & Hc1).
  cbn [mbind res_bind]. by apply IH.
Qed.

Lemma select_tokens_ok tokens final :
  Forall (λ t, short t.1) tokens → Forall short final → Z.of_nat (length final) ≤ 512 →
  Forall short (select_tokens tokens final) ∧ Z.of_nat (length (select_tokens tokens final)) ≤ 512.
Proof.
  intros Ht. revert final. induction Ht as [|[t c] tokens Ht _ IH]; intros final Hf Hl; cbn [select_tokens]; [done|].
  destruct (Nat.leb_spec MAX_TOKEN (length final)) as [|Hm]; [done|].
  destruct (existsb _ final); [by apply IH|]. apply IH.
  - apply Forall_app. split; [done|by constructor].
  - rewrite length_app. simpl. unfold MAX_TOKEN in Hm. assert (Z.of_nat 512 = 512) by reflexivity. lia.
Qed.

Lemma add_tokens_ok b toks l :
  toks_ok (kb_token_table b) (kb_token_index b) (kb_token_map b) toks →
  Forall short l → Z.of_nat (length toks + length l) ≤ 512 →
  let b' := foldl add_token b l in
  ∃ toks', toks_ok (kb_token_table b') (kb_token_index b') (kb_token_map b') toks' ∧
    (length toks' ≤ length toks + length l)%nat ∧ kb_names b' = kb_names b ∧ kb_offsets b' = kb_offsets b ∧ kb_addresses b' = kb_addresses b ∧
    kb_seqs_of_names b' = kb_seqs_of_names b.
Proof.
  intros Hok Hl. revert b toks Hok. induction Hl as [|t l Ht _ IH]; intros b toks Hok Hlen; simpl in *; [exists toks; split; [done|]; split; [lia|done]|].
  destruct (add_token_ok b toks t Hok Ht ltac:(lia)) as (toks1 & Hok1 & Hl1 & Hn & Ho & Ha & Hs).
  destruct (IH _ _ Hok1 ltac:(lia)) as (toks2 & Hok2 & Hl2 & Hn2 & Ho2 & Ha2 & Hs2).
  exists toks2. split; [done|]. split; [lia|]. repeat split; congruence.
Qed.

Lemma toks_ok_new : toks_ok [] [] ∅ [].
Proof.
  apply Build_toks_ok; [constructor|by split|done|done| | | |done].
  - intros i Hi. by apply Nat.nlt_0_r in Hi.
  - intros t. split; [intros _; apply not_elem_of_nil|done].
  - intros t z. by rewrite lookup_empty.
Qed.

(** ** Sort orders *)
Lemma positions_other pos idx v i : i ∉ idx → positions pos idx v !! i = v !! i.
Proof.
  revert pos v. induction idx as [|j idx IH]; intros pos v Hi; simpl; [done|].
  apply not_elem_of_cons in Hi as [Hij Hi]. rewrite IH by done. by apply list_lookup_insert_ne.
Qed.
Lemma positions_lookup pos idx v p i :
  NoDup idx → Forall (λ i, i < length v)%nat idx → idx !! p = Some i →
  positions pos idx v !! i = Some (pos + p)%nat.
Proof.
  intros Hnd. revert pos v p. induction Hnd as [|j idx Hj Hnd IH]; intros pos v p Hv Hp; [done|].
  apply Forall_cons in Hv as [Hjv Hv]. destruct p as [|p]; simpl in *.
  - simplify_eq. rewrite positions_other by done. rewrite list_lookup_insert_eq by done. by rewrite Nat.add_0_r.
  - rewrite (IH _ _ p) by (done || (rewrite length_insert; done)). f_equal. lia.
Qed.

Section orders.
Context (symbols : list Symbol).

(** The symbols in address order, and the name order over them. *)
Definition table : list Symbol := map (sym_at symbols) (idx_by_addr symbols).
Definition position (i : nat) : nat := default 0%nat (orig_to_addr_idx symbols !! i).
Definition name_order : list nat := map position (idx_by_name symbols).

Lemma idx_by_addr_perm : idx_by_addr symbols ≡ₚ seq 0 (length symbols).
Proof. apply sort_by_perm. Qed.
Lemma idx_by_name_perm : idx_by_name symbols ≡ₚ seq 0 (length symbols).
Proof. apply sort_by_perm. Qed.
Lemma idx_by_addr_bound : Forall (λ i, i < length symbols)%nat (idx_by_addr symbols).
Proof. apply Forall_forall. intros i. rewrite idx_by_addr_perm, elem_of_seq. lia. Qed.
Lemma length_table : length table = length symbols.
Proof. unfold table. rewrite length_map, idx_by_addr_perm. apply length_seq. Qed.

Lemma position_lookup p i : idx_by_addr symbols !! p = Some i → orig_to_addr_idx symbols !! i = Some p.
Proof.
  intros Hp. unfold orig_to_addr_idx. apply (positions_lookup 0 _ _ p); [|rewrite length_replicate; apply idx_by_addr_bound|done].
  rewrite idx_by_addr_perm. apply NoDup_seq.
Qed.
(** Every symbol of the input has its place. *)
Lemma position_of i : (i < length symbols)%nat →
  ∃ p, orig_to_addr_idx symbols !! i = Some p ∧ (p < length symbols)%nat ∧ idx_by_addr symbols !! p = Some i.
Proof.
  intros Hi. assert (i ∈ idx_by_addr symbols) as [p Hp]%list_elem_of_lookup.
  { rewrite idx_by_addr_perm, elem_of_seq. lia. }
  exists p. split; [by apply position_lookup|]. split; [|done].
  apply lookup_lt_Some in Hp. rewrite <- length_table. unfold table. by rewrite length_map.
Qed.

Lemma name_order_perm : name_order ≡ₚ seq 0 (length table).
Proof.
  unfold name_order. rewrite idx_by_name_perm, <- idx_by_addr_perm, length_table.
  assert (map position (idx_by_addr symbols) = seq 0 (length symbols)) as ->; [|done].
  apply list_eq. intros p. destruct (idx_by_addr symbols !! p) as [i|] eqn:Hp.
  - assert (p < length symbols)%nat.
    { apply lookup_lt_Some in Hp. rewrite <- length_table. unfold table. by rewrite length_map. }
    rewrite (lookup_seq_lt 0 (length symbols) p) by done. apply list_lookup_fmap_Some. exists i.
    split; [|done]. unfold position. by rewrite (position_lookup p i Hp).
  - apply lookup_ge_None in Hp. rewrite !(proj2 (lookup_ge_None _ _)); [done|..].
    + rewrite length_seq, <- length_table. unfold table. by rewrite length_map.
    + by rewrite length_map.
Qed.

Lemma addr_of_sym_at i : addr_of symbols i = sym_addr (sym_at symbols i).
Proof. unfold addr_of, sym_at. by destruct (symbols !! i). Qed.

Lemma table_sorted : StronglySorted Z.le (map sym_addr table).
Proof.
  apply Sorted_StronglySorted; [intros x y z; lia|]. unfold table, idx_by_addr. rewrite map_map.
  assert (∀ x y, (addr_of symbols y ?= addr_of symbols x) = CompOpp (addr_of symbols x ?= addr_of symbols y)) as Ha
    by (intros; apply Z.compare_antisym).
  pose proof (sort_by_sorted _ (seq 0 (length symbols)) Ha) as Hs.
  induction Hs as [|i l Hs IH Hhd]; simpl; [constructor|]. constructor; [done|].
  destruct Hhd as [|j l Hij]; simpl; constructor. by rewrite <- !addr_of_sym_at.
Qed.

Lemma name_of_table i : (i < length symbols)%nat → name_of table (position i) = name_of symbols i.
Proof.
  intros Hi. destruct (position_of i Hi) as (p & Hp & _ & Hip). unfold position. rewrite Hp. simpl.
  destruct (lookup_lt_is_Some_2 symbols i Hi) as [s Hs].
  assert (table !! p = Some s) as Ht.
  { apply list_lookup_fmap_Some. exists i. split; [|done]. by rewrite (sym_at_some _ _ _ Hs). }
  unfold name_of. by rewrite Ht, Hs.
Qed.

Lemma name_order_sorted : StronglySorted name_le (map (name_of table) name_order).
Proof.
  apply Sorted_StronglySorted; [intros x y z; apply str_compare_trans|]. unfold name_order. rewrite map_map.
  assert (map (λ i, name_of table (position i)) (idx_by_name symbols) = map (name_of symbols) (idx_by_name symbols)) as ->.
  { apply map_ext_in. intros i Hi%list_elem_of_In. apply name_of_table. rewrite idx_by_name_perm, elem_of_seq in Hi. lia. }
  pose proof (sort_by_sorted _ (seq 0 (length symbols))
    (λ x y, str_compare_antisym (name_of symbols x) (name_of symbols y))) as Hs.
  unfold idx_by_name. induction Hs as [|i l Hs IH Hhd]; simpl; [constructor|]. constructor; [done|].
  destruct Hhd as [|j l Hij]; simpl; by constructor.
Qed.

Lemma seqs_of_names_ok : Z.of_nat (length symbols) < 2 ^ 32 → seqs_of_names symbols = Ok (map Z.of_nat name_order).
Proof.
  intros Hn. unfold seqs_of_names, name_order.
  assert (Forall (λ i, i < length symbols)%nat (idx_by_name symbols)) as Hall.
  { apply Forall_forall. intros i. rewrite idx_by_name_perm, elem_of_seq. lia. }
  induction Hall as [|i l Hi _ IH]; [done|]. simpl. destruct (position_of i Hi) as (p & Hp & Hlt & _).
  pose proof (f_equal (default 0%nat) Hp : position i = p) as Hpos.
  rewrite Hp. simpl. rewrite IH. simpl. rewrite Hpos, wrapu_small by lia. done.
Qed.
End orders.

(** ** The generated table *)
Lemma expand_symbol_tables m m' bytes :
  token_table m = token_table m' → token_index m = token_index m' → expand_symbol m bytes = expand_symbol m' bytes.
Proof. intros Ht Hi. unfold expand_symbol, token_str. by rewrite Ht, Hi. Qed.

Lemma table_perm symbols : table symbols ≡ₚ symbols.
Proof.
  unfold table. rewrite idx_by_addr_perm.
  assert (map (sym_at symbols) (seq 0 (length symbols)) = symbols) as ->; [|done].
  apply list_eq. intros i. destruct (symbols !! i) as [s|] eqn:Hs.
  - apply list_lookup_fmap_Some. exists i. rewrite (sym_at_some _ _ _ Hs). split; [done|].
    apply lookup_seq_lt. by eapply lookup_lt_Some.
  - apply lookup_ge_None in Hs. apply lookup_ge_None. by rewrite length_map, length_seq.
Qed.

(** The records of the table, in order, make a table the reader decodes. *)
Lemma records_represent m symbols recs :
  Forall2 (rec_ok m) recs (table symbols) →
  kallsyms_names m = concat recs → kallsyms_offsets m = map Z.of_nat (offsets_from 0 recs) →
  kallsyms_num_syms m = Z.of_nat (length symbols) → kallsyms_addresses m = map sym_addr (table symbols) →
  kallsyms_seqs_of_names m = map Z.of_nat (name_order symbols) →
  represents m (table symbols) (name_order symbols).
Proof.
  intros Hrecs Hn Ho Hnum Ha Hs. apply Build_represents.
  - by rewrite length_table.
  - done.
  - intros i s Hi. destruct (Forall2_lookup_r _ _ _ _ _ Hrecs Hi) as (r & Hr & Hok).
    apply (decode_at m i s (concat (take i recs)) r (concat (drop (S i) recs))); [|..|done].
    + rewrite Hn, <- (take_drop i recs) at 1. by rewrite (drop_S _ _ _ Hr), concat_app.
    + rewrite Ho. apply list_lookup_fmap_Some. exists (length (concat (take i recs))). split; [done|].
      rewrite offsets_lookup; [done|]. by eapply lookup_lt_Some.
  - apply table_sorted.
  - done.
  - apply name_order_perm.
  - apply name_order_sorted.
Qed.

Section generate.
Context `{BuildMode} (iter_order : gmap str nat → list (str * nat)).
Context (Hiter : ∀ m, iter_order m ≡ₚ map_to_list m).

(** Fewer tokens than the limit: see [ksym_token_511]. *)
Definition few_tokens (symbols : list Symbol) : Prop :=
  ∀ counts, count_tokens symbols ∅ = Ok counts →
    Z.of_nat (length (select_tokens (sort_by by_weight (iter_order counts)) [])) ≤ 511.

Lemma iter_short counts : map_Forall (λ k _, short k) counts →
  Forall (λ t, short t.1) (sort_by by_weight (iter_order counts)).
Proof.
  intros Hc. rewrite sort_by_perm, Hiter. apply Forall_forall. intros [k n] Hk.
  apply elem_of_map_to_list in Hk. exact (Hc _ _ Hk).
Qed.

(** The blob of [symbols] with the tokens of [b] and the records [recs]. *)
Definition generated (b : KallsymsBlob) (recs : list str) (symbols : list Symbol) : KallsymsBlob :=
  {| kb_token_table := kb_token_table b; kb_token_index := kb_token_index b; kb_token_map := kb_token_map b;
     kb_names := concat recs; kb_offsets := map Z.of_nat (offsets_from 0 recs);
     kb_seqs_of_names := map Z.of_nat (name_order symbols);
     kb_addresses := map sym_addr (table symbols); kb_num_syms := Z.of_nat (length symbols) |}.

Lemma generated_ok b toks recs symbols :
  toks_ok (kb_token_table b) (kb_token_index b) (kb_token_map b) toks → Forall good_symbol symbols →
  length recs = length symbols → Z.of_nat (length (concat recs)) < 2 ^ 32 → Z.of_nat (length symbols) < 2 ^ 32 →
  blob_ok (generated b recs symbols).
Proof.
  intros Htk Hgood Hl Hc Hn. pose proof (length_table symbols) as Hlt.
  assert (length (name_order symbols) = length symbols) as Hln.
  { rewrite (name_order_perm symbols), length_seq. apply length_table. }
  apply Build_blob_ok; simpl.
  - lia.
  - rewrite length_map, Hlt. split; [done|]. rewrite (table_perm symbols). apply Forall_map.
    eapply Forall_impl; [exact Hgood|]. intros s (_ & Hs & _). exact Hs.
  - rewrite length_map, length_offsets, Hl. split; [done|]. apply Forall_map, Forall_lookup.
    intros i o Hi. pose proof (lookup_lt_Some _ _ _ Hi) as Hil. rewrite length_offsets in Hil.
    rewrite offsets_lookup in Hi by done. simplify_eq. rewrite <- (take_drop i recs) in Hc.
    rewrite concat_app, length_app in Hc. lia.
  - rewrite length_map, Hln. split; [done|]. apply Forall_map, Forall_forall.
    intros i Hi. rewrite (name_order_perm symbols), elem_of_seq, Hlt in Hi. lia.
  - destruct Htk as [_ [Hsm Hle] _ Hil Hidx _ _ _]. apply Forall_lookup. intros i o Hi.
    pose proof (lookup_lt_Some _ _ _ Hi) as Hlt'. rewrite Hil in Hlt'. rewrite (Hidx i Hlt') in Hi. simplify_eq.
    pose proof (length_concat_le (take i toks) ltac:(by apply Forall_take)) as Hcl. rewrite length_take in Hcl. lia.
Qed.

Lemma compress_ok symbols :
  symbols ≠ [] → Forall good_symbol symbols → names_room symbols < 2 ^ 32 →
  ∃ b recs, compress_symbols iter_order KallsymsBlob_new symbols = Ok b ∧ blob_ok b ∧
    (few_tokens symbols → ∀ st et, Forall2 (rec_ok (mapped_of b st et)) recs (table symbols)) ∧
    kb_names b = concat recs ∧ kb_offsets b = map Z.of_nat (offsets_from 0 recs) ∧
    kb_num_syms b = Z.of_nat (length symbols) ∧ kb_addresses b = map sym_addr (table symbols) ∧
    kb_seqs_of_names b = map Z.of_nat (name_order symbols).
Proof.
  intros Hne Hgood Hroom. unfold compress_symbols.
  destruct (Nat.eqb_spec (length symbols) 0) as [Hz|_]; [by apply length_zero_iff_nil in Hz|].
  destruct (count_tokens_ok symbols ∅ Hgood (map_Forall_empty _)) as (counts & Hc & Hshort).
  rewrite Hc. cbn [mbind res_bind]. cbv zeta. set (l := select_tokens _ []) in *.
  destruct (select_tokens_ok (sort_by by_weight (iter_order counts)) [] (iter_short _ Hshort)) as [Hls Hl512];
    [constructor|simpl; lia|]. fold l in Hls, Hl512.
  destruct (add_tokens_ok KallsymsBlob_new [] l toks_ok_new Hls) as (toks & Htk & Hlt & Hn & Ho & Ha & Hs);
    [simpl; lia|]. cbv zeta in Htk, Hn, Ho, Ha, Hs. set (b1 := foldl add_token KallsymsBlob_new l) in *. clearbody b1.
  pose proof (names_room_length symbols) as Hsl.
  assert (names_room (map (sym_at symbols) (idx_by_addr symbols)) = names_room symbols) as Hnr
    by apply names_room_perm, table_perm.
  destruct (push_symbols_ok (mapped_of b1 0 0) toks b1 symbols (idx_by_addr symbols)) as (recs & Hrecs & Hrl & Hps);
    [done|simpl in Hlt; lia|apply idx_by_addr_bound|done|rewrite Hn, Hnr; exact Hroom|].
  rewrite Hps. cbn [mbind res_bind]. rewrite seqs_of_names_ok by lia. cbn [mbind res_bind].
  exists (generated b1 recs symbols), recs. split; [|split; [|split]].
  - f_equal. unfold generated.
    cbn [kb_token_table kb_token_index kb_token_map kb_names kb_offsets kb_seqs_of_names kb_addresses kb_num_syms].
    by rewrite Hn, Ho, Ha, Hs.
  - apply (generated_ok b1 toks); [done|done| |lia|lia].
    rewrite (Forall2_length _ _ _ Hrecs). apply length_table.
  - intros Hfew st et. specialize (Hfew _ Hc). fold l in Hfew. eapply Forall2_impl; [exact Hrecs|].
    intros r s Hrec. destruct Hrec as (payload & -> & Hl & He); [simpl in Hlt; lia|].
    exists payload. split; [done|]. split; [done|]. rewrite <- He. by apply expand_symbol_tables.
  - done.
Qed.

(** C20: the generator is correct.  For any symbols it accepts (below) it
    never panics, whatever order the hash map yields its entries in, and the
    blob it writes can be mapped again.  The mapped table represents the
    symbols: they are sorted by address, every record decodes to its symbol's
    name and type, and the name order is sorted.

    The symbols: at least one; ASCII names, not empty, of at most 4096 bytes
    ([good_symbol]; an empty or a non-ASCII name makes the code panic,
    [ksym_empty_name_panics], [ksym_non_ascii_panics]); with 8 bytes beside
    each name, less than 2^32 bytes of them ([names_room]).  The blob is
    mapped at an address aligned to 8, with its end below 2^64.  That the records decode also needs [few_tokens], at most
    511 tokens selected: the code selects up to 512, and the last one, id 511,
    is encoded in a way that decodes as token 1 ([ksym_token_511]). *)
Theorem ksym_generate_represents symbols base st et :
  symbols ≠ [] → Forall good_symbol symbols → names_room symbols < 2 ^ 32 →
  ∃ b, compress_symbols iter_order KallsymsBlob_new symbols = Ok b ∧
    (base mod 8 = 0 → 0 ≤ base → base + Z.of_nat (length (to_blob b)) + 8 < 2 ^ 64 →
     ∃ m, from_blob base (to_blob b) st et = Ok m ∧ stext m = st ∧ etext m = et ∧
       (few_tokens symbols → represents m (table symbols) (name_order symbols)) ∧ table symbols ≡ₚ symbols).
Proof.
  intros Hne Hgood Hroom. destruct (compress_ok symbols Hne Hgood Hroom)
    as (b & recs & Hb & Hok & Hrecs & Hn & Ho & Hnum & Ha & Hs).
  exists b. split; [done|]. intros H1 H2 H3. exists (mapped_of b st et).
  split; [by apply blob_roundtrip|]. split; [done|]. split; [done|]. split; [|apply table_perm].
  intros Hfew. by apply (records_represent _ symbols recs (Hrecs Hfew st et)).
Qed.
End generate.

Definition demo_symbols : list Symbol := [(bs "do_mkdir", 8192, ch "T"); (bs "cpu_startup_entry", 4096, ch "t")].

Lemma demo_symbols_good : Forall good_symbol demo_symbols.
Proof.
  assert (forallb (λ s, forallb (λ c, (0 <=? c) && (c <? 128)) (sym_name s) && negb (bool_decide (sym_name s = [])) &&
    (Z.of_nat (length (sym_name s)) <=? 4096) && (0 <=? sym_addr s) && (sym_addr s <? 2 ^ 64) &&
    (0 <=? sym_ty s) && (sym_ty s <? 256)) demo_symbols = true) as Hb by (vm_compute; reflexivity).
  rewrite forallb_forall in Hb. apply Forall_forall. intros s Hs%list_elem_of_In%Hb.
  rewrite !andb_true_iff, !Z.leb_le, !Z.ltb_lt, negb_true_iff, bool_decide_eq_false, forallb_forall in Hs.
  destruct Hs as ((((((Hc & Hn) & Hl) & ?) & ?) & ?) & ?). split; [|lia]. split; [done|]. split; [|done].
  apply Forall_forall. intros c Hin%list_elem_of_In%Hc. rewrite andb_true_iff, Z.leb_le, Z.ltb_lt in Hin. done.
Qed.

Lemma demo_symbols_few : few_tokens map_to_list demo_symbols.
Proof.
  intros counts Hc.
  destruct (count_tokens demo_symbols ∅) as [c| | |] eqn:Hd; try done. injection Hc as <-.
  assert (match count_tokens demo_symbols ∅ with
          | Ok c => Z.of_nat (length (select_tokens (sort_by by_weight (map_to_list c)) [])) <=? 511
          | _ => false end = true) as Hb by (vm_compute; reflexivity).
  rewrite Hd in Hb. by apply Z.leb_le in Hb.
Qed.

Lemma ksym_generate_represents_witness :
  let _ : BuildMode := true in
  ∃ b, compress_symbols map_to_list KallsymsBlob_new demo_symbols = Ok b ∧
    ∃ m, from_blob 65536 (to_blob b) 4096 12288 = Ok m ∧ represents m (table demo_symbols) (name_order demo_symbols).
Proof.
  intros mode.
  destruct (ksym_generate_represents map_to_list (λ m, reflexivity (map_to_list m)) demo_symbols 65536 4096 12288)
    as (b & Hb & Hm).
  - discriminate.
  - exact demo_symbols_good.
  - vm_compute. reflexivity.
  - exists b. split; [exact Hb|]. destruct Hm as (m & Hm & _ & _ & Hr & _).
    + reflexivity.
    + lia.
    + assert (match compress_symbols map_to_list KallsymsBlob_new demo_symbols with
              | Ok b => Z.of_nat (length (to_blob b)) <? 2 ^ 32 | _ => false end = true) as Hlen by (vm_compute; reflexivity).
      rewrite Hb in Hlen. apply Z.ltb_lt in Hlen. lia.
    + exists m. split; [exact Hm|]. apply Hr, demo_symbols_few.
Defined.

(** ** Gaps *)

(** With 512 tokens the last id's code is read as the code of token 1. *)
Lemma ksym_token_511 rest : parse_token (token_code 511 ++ rest) = (Some 1, 3%nat).
Proof. reflexivity. Qed.

(** A line without a name is a symbol with an empty name, and expanding its
    record panics. *)
Lemma ksym_empty_name_panics m :
  read_symbol (bs "1000 T") = Ok (Some ([], 4096, ch "T")) ∧ expand_symbol m [] = Panic.
Proof. split; reflexivity. Qed.

(** A candidate length inside a character of a name panics the generator. *)
Lemma ksym_non_ascii_panics :
  let _ : BuildMode := true in
  compress_symbols map_to_list KallsymsBlob_new [(to_utf8 (bs "a" ++ repeat 233 5), 4096, ch "T")] = Panic.
Proof. vm_compute. reflexivity. Qed.
