(* ===== verification/TracePoint.v ===== *)
(** Tracepoints (ktracepoint/src: point.rs, ptr.rs): the record header, the
    callbacks of a tracepoint and their registration, the conversion of
    tracepoint arguments to raw words.

    A [&'static TracePoint] is shared by the tracepoint map and the runtime
    state, and its id and static key are changed through that reference, as
    the enable flag of an event callback is through its [Arc]: they live in a
    store, indexed by address. *)
From stdpp Require Import functions.
From S2P Require Import Prelude Text IntLit Lexer Parser Eval StaticKey.

(** ** The record header *)
Record TraceEntry := {
  common_type : Z;
  common_flags : Z;
  common_preempt_count : Z;
  common_pid : Z;
}.

(** Its memory ([repr(C)]: u16, u8, u8, i32, without padding). *)
Definition TRACE_ENTRY_SIZE : Z := 8.
Definition TraceEntry_bytes (e : TraceEntry) : str :=
  le_enc 2 (common_type e) ++ le_enc 1 (common_flags e) ++ le_enc 1 (common_preempt_count e) ++
  le_enc 4 (common_pid e).
(** [&*(entry.as_ptr() as *const TraceEntry)]. *)
Definition TraceEntry_read (buf : str) : TraceEntry :=
  {| common_type := le_dec (take 2 buf);
     common_flags := le_dec (take 1 (drop 2 buf));
     common_preempt_count := le_dec (take 1 (drop 3 buf));
     common_pid := wraps 32 (le_dec (take 4 (drop 4 buf))) |}.

Definition trace_print_lat_fmt (e : TraceEntry) : str :=
  let irqs_off := bs "." in
  let resched := bs "." in
  let hardsoft_irq := bs "." in
  let preempt_low :=
    if negb (Z.land (common_preempt_count e) 15 =? 0)
    then [ch "0" + Z.land (common_preempt_count e) 15] else bs "." in
  let preempt_high :=
    if negb (Z.shiftr (common_preempt_count e) 4 =? 0)
    then [ch "0" + Z.shiftr (common_preempt_count e) 4] else bs "." in
  irqs_off ++ resched ++ hardsoft_irq ++ preempt_low ++ preempt_high.

(** ** Callbacks *)

(** [Arc<T>]: a value with the address that identifies it. *)
Record Arc (A : Type) := { arc_ptr : Z; arc_val : A }.
Arguments arc_ptr {A}. Arguments arc_val {A}.
Definition ptr_eq {A} (a b : Arc A) : bool := arc_ptr a =? arc_ptr b.

(** Functions and closures are known by their address; [D] is the type of
    the data stored with a callback. *)
Section callbacks.
Context {D : Type}.

Record TraceEventFunc := { ef_func : Z; ef_data : D; ef_perf_enable : Z }.
Record RawTraceEventFunc := { rf_func : Z; rf_data : D }.
Record TraceDefaultFunc := { df_func : Z; df_data : D }.

Inductive TraceCallbackType :=
  | Default (f : Arc TraceDefaultFunc)
  | Event (f : Arc TraceEventFunc)
  | RawEvent (f : Arc RawTraceEventFunc).

(** [impl PartialEq for TraceCallbackType]. *)
Definition callback_eq (a b : TraceCallbackType) : bool :=
  match a, b with
  | Default f, Default g => ptr_eq f g
  | Event f, Event g => ptr_eq f g
  | RawEvent f, RawEvent g => ptr_eq f g
  | _, _ => false
  end.
End callbacks.
Arguments TraceEventFunc : clear implicits.
Arguments RawTraceEventFunc : clear implicits.
Arguments TraceDefaultFunc : clear implicits.
Arguments TraceCallbackType : clear implicits.

(** ** Tracepoints *)
Record TracePoint := {
  tp_addr : Z;                        (* its address: the place of [id] *)
  tp_name : str;
  tp_system : str;
  tp_key : Z;                         (* the address of the static key *)
  trace_entry_fmt_func : str → str;
  trace_print_func : str;             (* what the function returns *)
  tp_schema : Schema;
  tp_flags : Z;
}.

(** The shared cells: ids, static keys, enable flags of event callbacks. *)
Record Store (K : Type) := { st_id : Z → Z; st_key : Z → K; st_perf : Z → bool }.
Arguments st_id {K}. Arguments st_key {K}. Arguments st_perf {K}.

Section tracepoint.
Context {K : Type} `{StaticKey K} {D : Type}.

(** [TracePoint::new]: a static, its id cell starts at zero. *)
Definition TracePoint_new (addr key : Z) (name system : str) (fmt_func : str → str)
    (print_func : str) (schema : Schema) : TracePoint :=
  {| tp_addr := addr; tp_name := name; tp_system := system; tp_key := key; tp_flags := 0;
     trace_entry_fmt_func := fmt_func; trace_print_func := print_func; tp_schema := schema |}.

Definition id (st : Store K) (tp : TracePoint) : Z := st_id st (tp_addr tp).
Definition set_id (st : Store K) (tp : TracePoint) (n : Z) : Store K :=
  {| st_id := <[tp_addr tp := n]> (st_id st); st_key := st_key st; st_perf := st_perf st |}.

Definition with_key (st : Store K) (tp : TracePoint) (f : K → K) : Store K :=
  {| st_id := st_id st; st_key := <[tp_key tp := f (st_key st (tp_key tp))]> (st_key st);
     st_perf := st_perf st |}.
Definition enable_key (st : Store K) (tp : TracePoint) : Store K := with_key st tp key_enable.
Definition disable_key (st : Store K) (tp : TracePoint) : Store K := with_key st tp key_disable.
Definition key_is_enabled (st : Store K) (tp : TracePoint) : bool := key_enabled (st_key st (tp_key tp)).

Definition print_fmt (st : Store K) (tp : TracePoint) : str :=
  let post_str := trace_print_func tp in
  bs "name: " ++ tp_name tp ++ [10] ++ bs "ID: " ++ show_u 10 (id st tp) ++ [10] ++ post_str ++ [10].

(** [TraceEventFunc::new], its flag at the fresh address [perf]. *)
Definition TraceEventFunc_new (st : Store K) (perf func : Z) (data : D) : Store K * TraceEventFunc D :=
  ({| st_id := st_id st; st_key := st_key st; st_perf := <[perf := false]> (st_perf st) |},
   {| ef_func := func; ef_data := data; ef_perf_enable := perf |}).
Definition set_perf_enable (st : Store K) (f : TraceEventFunc D) (enable : bool) : Store K :=
  {| st_id := st_id st; st_key := st_key st; st_perf := <[ef_perf_enable f := enable]> (st_perf st) |}.
Definition perf_enabled (st : Store K) (f : TraceEventFunc D) : bool := st_perf st (ef_perf_enable f).

(** ** Runtime state *)
Record ExtTracePoint := {
  tracepoint : TracePoint;
  callbacks : list (TraceCallbackType D);
  compiled_expr : option Compiled;
  default_callback : Arc (TraceDefaultFunc D);
}.

Definition ExtTracePoint_new (tp : TracePoint) (cb : Arc (TraceDefaultFunc D)) : ExtTracePoint :=
  {| tracepoint := tp; callbacks := []; default_callback := cb; compiled_expr := None |}.

Definition set_compiled_expr (e : ExtTracePoint) (c : option Compiled) : ExtTracePoint :=
  {| tracepoint := tracepoint e; callbacks := callbacks e; compiled_expr := c;
     default_callback := default_callback e |}.

Definition with_callbacks (e : ExtTracePoint) (l : list (TraceCallbackType D)) : ExtTracePoint :=
  {| tracepoint := tracepoint e; callbacks := l; compiled_expr := compiled_expr e;
     default_callback := default_callback e |}.

Definition is_empty {A} (l : list A) : bool := match l with [] => true | _ => false end.

Definition register (st : Store K) (e : ExtTracePoint) (cb : TraceCallbackType D) : Store K * ExtTracePoint :=
  let e := if existsb (λ f, callback_eq f cb) (callbacks e) then e
           else with_callbacks e (callbacks e ++ [cb]) in
  let st := if negb (is_empty (callbacks e)) then enable_key st (tracepoint e) else st in
  (st, e).

Definition unregister (st : Store K) (e : ExtTracePoint) (cb : TraceCallbackType D) : Store K * ExtTracePoint :=
  let e := with_callbacks e (List.filter (λ f, negb (callback_eq f cb)) (callbacks e)) in
  let st := if is_empty (callbacks e) then disable_key st (tracepoint e) else st in
  (st, e).
End tracepoint.
Arguments ExtTracePoint : clear implicits.

(** ** Raw arguments (ptr.rs)

    The types that implement [AsU64]: integers, [bool] and [char], and
    everything behind a pointer, of which the address is passed. *)
Inductive ArgVal :=
  | AInt (v : Z)               (* an integer of up to 64 bits *)
  | ABool (b : bool)
  | AChar (c : Z)
  | APtr (addr : Z)            (* [&T], [&mut T], [*const T], [*mut T] *)
  | AStr (addr len : Z)        (* [&str] *)
  | ABytes (addr len : Z).     (* [&[u8]] *)

Definition as_u64 (a : ArgVal) : Z :=
  match a with
  | AInt v => wrapu 64 v
  | ABool b => if b then 1 else 0
  | AChar c => c
  | APtr addr => addr
  | AStr addr _ => addr
  | ABytes addr _ => addr
  end.
