(* ===== verification/TracePipe.v ===== *)
(** The trace pipe and the command-line cache (ktracepoint/src/trace_pipe.rs).

    The LRU cache is a third-party crate and an interface here. *)
From S2P Require Import Prelude Text IntLit Lexer Parser Eval StaticKey TracePoint.

(** ** Records and the pipe *)
Record TracePipeRecord := { timestamp : Z; cpu_id : Z; event : str }.
Definition TracePipeRecord_new (timestamp cpu_id : Z) (event : str) : TracePipeRecord :=
  {| timestamp := timestamp; cpu_id := cpu_id; event := event |}.

Record TracePipeRaw := { max_record : Z; event_buf : list TracePipeRecord }.
Definition TracePipeRaw_new (max_record : Z) : TracePipeRaw := {| max_record := max_record; event_buf := [] |}.

Definition set_max_record (p : TracePipeRaw) (n : Z) : TracePipeRaw :=
  let len := Z.of_nat (length (event_buf p)) in
  {| max_record := n;
     event_buf := if n <? len then drop (Z.to_nat (len - n)) (event_buf p) else event_buf p |}.

(** [Vec::remove(0)] panics on an empty vector. *)
Definition remove_first {A} (l : list A) : res () (A * list A) :=
  match l with [] => Panic | x :: l => Ok (x, l) end.

Definition push_record (p : TracePipeRaw) (timestamp cpu_id : Z) (event : str) : res () TracePipeRaw :=
  if max_record p =? 0 then Ok p else
  buf ← (if max_record p <=? Z.of_nat (length (event_buf p))
         then snd <$> remove_first (event_buf p) else Ok (event_buf p));
  Ok {| max_record := max_record p; event_buf := buf ++ [TracePipeRecord_new timestamp cpu_id event] |}.
Definition push_event (p : TracePipeRaw) (event : str) : res () TracePipeRaw := push_record p 0 0 event.

Definition event_count (p : TracePipeRaw) : Z := Z.of_nat (length (event_buf p)).
Definition clear (p : TracePipeRaw) : TracePipeRaw := {| max_record := max_record p; event_buf := [] |}.

(** [TracePipeOps], for the pipe and for its snapshots. *)
Definition peek_records (l : list TracePipeRecord) : option TracePipeRecord := head l.
Definition pop_records (l : list TracePipeRecord) : res () (option TracePipeRecord * list TracePipeRecord) :=
  if is_empty l then Ok (None, l) else prod_map Some (λ l, l) <$> remove_first l.
Definition pop (p : TracePipeRaw) : res () (option TracePipeRecord * TracePipeRaw) :=
  prod_map (λ o, o) (λ l, {| max_record := max_record p; event_buf := l |}) <$> pop_records (event_buf p).

Record TracePipeSnapshot := { snap : list TracePipeRecord }.
Definition snapshot (p : TracePipeRaw) : TracePipeSnapshot := {| snap := event_buf p |}.
Definition snapshot_pop (s : TracePipeSnapshot) : res () (option TracePipeRecord * TracePipeSnapshot) :=
  prod_map (λ o, o) (λ l, {| snap := l |}) <$> pop_records (snap s).

Definition newline : str := [10].
Definition default_fmt_str (s : TracePipeSnapshot) : str :=
  let n := show_u 10 (Z.of_nat (length (snap s))) in
  bs "# tracer: nop" ++ newline ++ bs "#" ++ newline ++
  bs "# entries-in-buffer/entries-written: " ++ n ++ bs "/" ++ n ++ bs "   #P:32" ++ newline ++
  bs "#" ++ newline ++
  bs "#" ++ newline ++
  bs "#                                _-----=> irqs-off/BH-disabled" ++ newline ++
  bs "#                               / _----=> need-resched" ++ newline ++
  bs "#                              | / _---=> hardirq/softirq" ++ newline ++
  bs "#                              || / _--=> preempt-depth" ++ newline ++
  bs "#                              ||| / _-=> migrate-disable" ++ newline ++
  bs "#                              |||| /     delay" ++ newline ++
  bs "#           TASK-PID     CPU#  |||||  TIMESTAMP  FUNCTION" ++ newline ++
  bs "#              | |         |   |||||     |         |" ++ newline.

(** ** Command lines *)

(** What [TraceCmdLineCache] uses of [lru::LruCache<u32, String>]; [iter]
    goes from the most to the least recently used entry. *)
Class CmdLru (C : Type) := {
  cl_new : Z → C;
  cl_put : C → Z → str → C;
  cl_iter : C → list (Z * str);
  cl_resize : C → Z → C;
  cl_cap : C → Z;
}.

(** [str::split_at(mid)]: panics off a character boundary. *)
Definition split_at (s : str) (mid : nat) : res () (str * str) :=
  if is_char_boundary s mid then Ok (take mid s, drop mid s) else Panic.
(** [trim_end_matches(c)] of an ASCII character. *)
Fixpoint trim_end_matches (c : Z) (s : str) : str :=
  match s with
  | [] => []
  | x :: s => match trim_end_matches c s with
              | [] => if x =? c then [] else [x]
              | t => x :: t
              end
  end.

Section cmdline.
Context {C : Type} `{CmdLru C}.

Record TraceCmdLineCache := { cmdline : C }.
Definition TraceCmdLineCache_new (max_record : Z) : TraceCmdLineCache := {| cmdline := cl_new max_record |}.

Definition MAX_CMDLINE_LEN : nat := 16.
Definition insert (c : TraceCmdLineCache) (id : Z) (name : str) : res () TraceCmdLineCache :=
  '(name, _) ← split_at name (MAX_CMDLINE_LEN `min` length name);
  let line := show_u 10 id ++ bs " " ++ name ++ newline in
  Ok {| cmdline := cl_put (cmdline c) id line |}.

(** [line.splitn(2, ' ').nth(1).unwrap().trim_end_matches(newline)]. *)
Definition cmdline_of (line : str) : res () str :=
  '(_, rest) ← unwrap (split_once (ch " ") line);
  Ok (trim_end_matches 10 rest).
Definition get (c : TraceCmdLineCache) (id : Z) : res () (option str) :=
  match find (λ kv, kv.1 =? id) (cl_iter (cmdline c)) with
  | None => Ok None
  | Some (_, line) => Some <$> cmdline_of line
  end.

Definition cache_set_max_record (c : TraceCmdLineCache) (max_len : Z) : TraceCmdLineCache :=
  {| cmdline := cl_resize (cmdline c) max_len |}.
Definition cache_max_record (c : TraceCmdLineCache) : Z := cl_cap (cmdline c).

Record TraceCmdLineCacheSnapshot := { lines : list str }.
Definition cache_snapshot (c : TraceCmdLineCache) : TraceCmdLineCacheSnapshot :=
  {| lines := map snd (rev (cl_iter (cmdline c))) |}.
Definition cache_peek (s : TraceCmdLineCacheSnapshot) : option str := head (lines s).
Definition cache_pop (s : TraceCmdLineCacheSnapshot) : res () (option str * TraceCmdLineCacheSnapshot) :=
  if is_empty (lines s) then Ok (None, s)
  else prod_map Some (λ l, {| lines := l |}) <$> remove_first (lines s).
End cmdline.
Arguments TraceCmdLineCache : clear implicits.

(** ** Printing a record ([TraceEntryParser::parse]) *)
Section parse.
Context {K : Type} {C : Type} `{CmdLru C}.

(** The header is read through a raw pointer and the payload is
    [entry[8..]]: a shorter record panics there. *)
Definition TraceEntryParser_parse (tracepoint_map : gmap Z TracePoint) (cache : TraceCmdLineCache C)
    (record : TracePipeRecord) : res () str :=
  let entry := event record in
  payload ← unwrap (slice entry (Z.to_nat TRACE_ENTRY_SIZE) (length entry));
  let trace_entry := TraceEntry_read entry in
  let id := common_type trace_entry in
  tp ← unwrap (tracepoint_map !! id);
  let s := trace_entry_fmt_func tp payload in
  let time := timestamp record in
  let pid := common_pid trace_entry in
  pname ← get cache (wrapu 32 pid);
  let secs := time / 1000000000 in
  let usec_rem := time mod 1000000000 / 1000 in
  Ok (pad_left 16 (ch " ") (default (bs "<...>") pname) ++ bs "-" ++ pad_right 7 (ch " ") (show_i64 pid) ++
      bs " [" ++ pad_left 3 (ch "0") (show_u 10 (cpu_id record)) ++ bs "] " ++
      trace_print_lat_fmt trace_entry ++ bs " " ++
      pad_left 5 (ch " ") (show_u 10 secs) ++ bs "." ++ pad_left 6 (ch "0") (show_u 10 usec_rem) ++ bs ": " ++
      tp_name tp ++ bs "(" ++ s ++ bs ")" ++ newline).
End parse.
