(* ===== verification/TraceFs.v ===== *)
(** The control files of a tracepoint and the initialisation of the event
    subsystem (ktracepoint/src/lib.rs).

    The registry behind [KernelTraceOps] and the text of a filter error
    message are interfaces. *)
From S2P Require Import Prelude Text IntLit Lexer Parser Eval StaticKey TracePoint.

(** [KernelTraceOps::read_tracepoint_state] and [write_tracepoint_state]: the
    host's registry of runtime states. *)
Class TracepointStates (R D : Type) := {
  ts_read : R → Z → option (ExtTracePoint D);
  ts_write : R → Z → ExtTracePoint D → R;
}.
Class TracepointStatesLaws (R D : Type) `{TracepointStates R D} : Prop := {
  ts_read_write r i e : is_Some (ts_read r i) → ts_read (ts_write r i e) i = Some e;
  ts_read_write_ne r i j e : i ≠ j → ts_read (ts_write r i e) j = ts_read r j;
}.

(** A registry that is a finite map. *)
#[export] Instance gmap_states D : TracepointStates (gmap Z (ExtTracePoint D)) D :=
  {| ts_read r i := r !! i; ts_write r i e := <[i := e]> r |}.
#[export] Instance gmap_states_laws D : TracepointStatesLaws (gmap Z (ExtTracePoint D)) D.
Proof. split; simpl; intros; [apply lookup_insert_eq | by apply lookup_insert_ne]. Qed.

(** The rendering of a parse error message ([ParseError::message]). *)
Class Render := render : PMsg → str.

Section files.
Context {K : Type} `{StaticKey K} {D : Type}.

(** ** Format, enable and id files *)
Definition format_read (st : Store K) (tp : TracePoint) : str := print_fmt st tp.

Definition enable_read (st : Store K) (tp : TracePoint) : str :=
  if key_is_enabled st tp then bs "1" ++ [10] else bs "0" ++ [10].
Definition enable_write (st : Store K) (e : ExtTracePoint D) (enable : Z) : Store K * ExtTracePoint D :=
  if enable =? ch "1" then register st e (Default (default_callback e))
  else if enable =? ch "0" then unregister st e (Default (default_callback e))
  else (st, e).

Definition id_read (st : Store K) (tp : TracePoint) : str := show_u 10 (id st tp) ++ [10].

(** ** The filter file *)
Record TraceFilterFile := { filter_expr : option str; pre_error : option str }.
Definition TraceFilterFile_new : TraceFilterFile := {| filter_expr := None; pre_error := None |}.

Definition filter_read (f : TraceFilterFile) : str :=
  match pre_error f with
  | Some err => err
  | None => match filter_expr f with Some filter => filter | None => bs "none" ++ [10] end
  end.

(** [filter.as_bytes()[0]] panics on an empty filter.  The file, the runtime
    state, and the value returned. *)
Definition filter_write `{Render} (f : TraceFilterFile) (e : ExtTracePoint D) (filter : str) :
    res () (TraceFilterFile * ExtTracePoint D * res str ()) :=
  first ← unwrap (filter !! 0%nat);
  if first =? ch "0" then
    Ok ({| filter_expr := None; pre_error := None |}, set_compiled_expr e None, Ok ())
  else
    match compile_with_schema filter (tp_schema (tracepoint e)) with
    | Ok compiled_expr =>
        Ok ({| filter_expr := Some filter; pre_error := None |},
            set_compiled_expr e (Some compiled_expr), Ok ())
    | Err er =>
        Ok ({| filter_expr := None; pre_error := Some (render (pe_message er) ++ [10]) |},
            set_compiled_expr e None, Err (bs "compile error"))
    | Panic => Panic
    | OutOfFuel => OutOfFuel
    end.

(** ** Initialisation *)

(** [CommonTracePointMeta]. *)
Record Meta := { trace_point : TracePoint; print_func : Z }.

Definition meta_compare (a b : Meta) : comparison :=
  match str_compare (tp_name (trace_point a)) (tp_name (trace_point b)) with
  | Eq => str_compare (tp_system (trace_point a)) (tp_system (trace_point b))
  | c => c
  end.

Record InitState := {
  is_store : Store K;
  is_next_id : Z;                           (* TRACE_POINT_ID *)
  tp_map : gmap Z TracePoint;
  ext_tps : list (ExtTracePoint D);
}.

(** One iteration; [unit_data] is the boxed unit, [fresh] allocates the
    [Arc] of the default callback. *)
Definition init_step (unit_data : D) (fresh : Meta → Z) (s : InitState) (m : Meta) : InitState :=
  let tp := trace_point m in
  let i := is_next_id s in
  let default_callback :=
    {| arc_ptr := fresh m; arc_val := {| df_func := print_func m; df_data := unit_data |} |} in
  {| is_store := set_id (is_store s) tp i;
     is_next_id := wrapu 32 (i + 1);
     tp_map := <[i := tp]> (tp_map s);
     ext_tps := ext_tps s ++ [ExtTracePoint_new tp default_callback] |}.

(** [section] is the linker section between [__start_tracepoint] and
    [__stop_tracepoint]; it is sorted in place. *)
Definition global_init_events (unit_data : D) (fresh : Meta → Z) (section : list Meta)
    (st : Store K) (next_id : Z) : list Meta * InitState :=
  let section := sort_by meta_compare section in
  (section,
   foldl (init_step unit_data fresh) {| is_store := st; is_next_id := next_id; tp_map := ∅; ext_tps := [] |} section).
End files.
Arguments InitState : clear implicits.
