(* ===== verification/TraceEvent.v ===== *)
(** What [define_event_trace!] generates (ktracepoint/src/basic_macro.rs):
    the memory layout of an event, its schema and format text, the
    registration functions, and the tracepoint itself.

    The macro's arguments (the fields and their types, the assignments, the
    conversion of the arguments) are the parameters of an [EventDef]; the
    calls a tracepoint makes into the kernel and into callbacks are the list
    of effects it returns. *)
From S2P Require Import Prelude Text IntLit Lexer Parser Eval StaticKey TracePoint TraceFs.

(** ** Layout *)

(** A field of [TP_STRUCT__entry]: its name, its type as written and as
    [type_name] prints it, its classification, size and alignment. *)
Record FieldDecl := {
  fl_name : str;
  fl_text : str;
  fl_type_name : str;
  fl_ty : RTy;
  fl_size : Z;
  fl_align : Z;
}.

(** [repr(C)]: fields in order, each at the next multiple of its alignment. *)
Definition align_up (n a : Z) : Z := (n + a - 1) / a * a.
Fixpoint field_offsets (off : Z) (fs : list FieldDecl) : list Z :=
  match fs with
  | [] => []
  | f :: fs => let o := align_up off (fl_align f) in o :: field_offsets (o + fl_size f) fs
  end.
Fixpoint fields_end (off : Z) (fs : list FieldDecl) : Z :=
  match fs with
  | [] => off
  | f :: fs => fields_end (align_up off (fl_align f) + fl_size f) fs
  end.
Definition struct_align (fs : list FieldDecl) : Z := foldr (λ f, Z.max (fl_align f)) 1 fs.
(** [size_of::<Entry>()]. *)
Definition entry_size (fs : list FieldDecl) : Z := align_up (fields_end 0 fs) (struct_align fs).

(** [FullEntry]: the 8-byte, 4-aligned header, then the entry. *)
Definition entry_offset (fs : list FieldDecl) : Z := align_up TRACE_ENTRY_SIZE (struct_align fs).
Definition full_size (fs : list FieldDecl) : Z :=
  align_up (entry_offset fs + entry_size fs) (Z.max 4 (struct_align fs)).
(** [offset_of!(FullEntry, entry.f)], for every field. *)
Definition full_offsets (fs : list FieldDecl) : list Z := map (Z.add (entry_offset fs)) (field_offsets 0 fs).

Section event.
Context `{BuildMode}.

Definition event_schema (fs : list FieldDecl) : Schema :=
  [ {| fd_name := bs "common_type"; fd_type := FIELD_TYPE (RInt (TPrim U16)); fd_offset := 0; fd_len := 2 |};
    {| fd_name := bs "common_flags"; fd_type := FIELD_TYPE (RInt (TPrim U8)); fd_offset := 2; fd_len := 1 |};
    {| fd_name := bs "common_preempt_count"; fd_type := FIELD_TYPE (RInt (TPrim U8)); fd_offset := 3; fd_len := 1 |};
    {| fd_name := bs "common_pid"; fd_type := FIELD_TYPE (RInt (TPrim I32)); fd_offset := 4; fd_len := 4 |} ] ++
  zip_with (λ f o, {| fd_name := fl_name f; fd_type := FIELD_TYPE (fl_ty f); fd_offset := o; fd_len := fl_size f |})
    fs (full_offsets fs).

(** The bytes of a [FullEntry]: padding bytes are whatever [pad] says. *)
Fixpoint write_fields (buf : str) (offs : list Z) (values : list str) : str :=
  match offs, values with
  | o :: offs, v :: values => write_fields (splice buf (Z.to_nat o) v) offs values
  | _, _ => buf
  end.
Definition full_entry (pad : nat → Z) (fs : list FieldDecl) (common : TraceEntry) (values : list str) : str :=
  let buf := map pad (seq 0 (Z.to_nat (full_size fs))) in
  write_fields (splice buf 0 (TraceEntry_bytes common)) (full_offsets fs) values.

(** ** Format text ([trace_fmt_show_NAME]) *)
Definition is_signed (type_name : str) : bool :=
  bool_decide (type_name ∈ [bs "i8"; bs "i16"; bs "i32"; bs "i64"; bs "i128"; bs "isize"]).

Definition tab : str := [9].
Definition nl : str := [10].
Definition quote : str := [34].
Definition show_field (f : FieldDecl) (offset : Z) : str :=
  tab ++ bs "field: " ++ fl_text f ++ bs " " ++ fl_name f ++ bs " offset: " ++ show_u 10 offset ++
  bs "; size: " ++ show_u 10 (fl_size f) ++ bs "; signed: " ++
  (if is_signed (fl_type_name f) then bs "1" else bs "0") ++ bs ";" ++ nl.
Definition trace_fmt_show (fs : list FieldDecl) (fmt_expr : str) : str :=
  bs "format:" ++ nl ++
  tab ++ bs "field: u16 common_type; offset: 0; size: 2; signed: 0;" ++ nl ++
  tab ++ bs "field: u8 common_flags; offset: 2; size: 1; signed: 0;" ++ nl ++
  tab ++ bs "field: u8 common_preempt_count; offset: 3; size: 1; signed: 0;" ++ nl ++
  tab ++ bs "field: i32 common_pid; offset: 4; size: 4; signed: 1;" ++ nl ++ nl ++
  mjoin (zip_with show_field fs (full_offsets fs)) ++
  nl ++ bs "print fmt: " ++ quote ++ fmt_expr ++ quote.

(** ** The tracepoint *)
Context {K : Type} `{StaticKey K} {D A R : Type} `{TracepointStates R D}.

(** An invocation of the macro, [A] the tuple of its arguments. *)
Record EventDef := {
  ev_tp : TracePoint;               (* the static __NAME *)
  ev_default : Z;                   (* the address of trace_default_NAME *)
  ev_fields : list FieldDecl;       (* TP_STRUCT__entry *)
  ev_assign : A → list str;         (* TP_fast_assign: the bytes of each field *)
  ev_args : A → list ArgVal;        (* the arguments as they are passed raw *)
}.

(** The static __NAME, [fmt] being [trace_fmt_NAME]. *)
Definition event_tracepoint (addr key : Z) (name system : str) (fs : list FieldDecl)
    (fmt : str → str) (fmt_expr : str) : TracePoint :=
  TracePoint_new addr key name system fmt (trace_fmt_show fs fmt_expr) (event_schema fs).

Inductive Effect :=
  | CmdlinePush (pid : Z)                       (* trace_cmdline_push *)
  | PipePush (buf : str)                        (* trace_pipe_push_raw_record *)
  | CallDefault (func : Z) (data : D) (args : A)
  | CallEvent (func : Z) (data : D) (buf : str)
  | CallRaw (func : Z) (data : D) (args : list Z).

Definition event_buf_of (st : Store K) (pad : nat → Z) (ev : EventDef) (pid : Z) (args : A) : str :=
  let common := {| common_type := wrapu 16 (id st (ev_tp ev));
                   common_flags := tp_flags (ev_tp ev);
                   common_preempt_count := 0;
                   common_pid := wraps 32 pid |} in
  full_entry pad (ev_fields ev) common (ev_assign ev args).

Definition trace_default (st : Store K) (pad : nat → Z) (ev : EventDef) (tp_compiled_expr : option Compiled)
    (pid : Z) (args : A) : res () (list Effect) :=
  let event_buf := event_buf_of st pad ev pid args in
  keep ← match tp_compiled_expr with
         | Some compiled_expr => evaluate compiled_expr {| buf := event_buf; bc_schema := tp_schema (ev_tp ev) |}
         | None => Ok true
         end;
  if keep : bool then Ok [CmdlinePush pid; PipePush event_buf] else Ok [].

Definition default_handler (st : Store K) (pad : nat → Z) (ev : EventDef) (ext_tp : ExtTracePoint D) (pid : Z) (args : A)
    (f : TraceDefaultFunc D) : res () (list Effect) :=
  if df_func f =? ev_default ev then trace_default st pad ev (compiled_expr ext_tp) pid args
  else Ok [CallDefault (df_func f) (df_data f) args].

Definition event_handler (st : Store K) (pad : nat → Z) (ev : EventDef) (pid : Z) (args : A) (f : TraceEventFunc D) :
    list Effect :=
  if perf_enabled st f then [CallEvent (ef_func f) (ef_data f) (event_buf_of st pad ev pid args)] else [].

Definition raw_event_handler (ev : EventDef) (args : A) (f : RawTraceEventFunc D) : list Effect :=
  [CallRaw (rf_func f) (rf_data f) (map as_u64 (ev_args ev args))].

Definition run_callback (st : Store K) (pad : nat → Z) (ev : EventDef) (ext_tp : ExtTracePoint D) (pid : Z) (args : A)
    (cb : TraceCallbackType D) : res () (list Effect) :=
  match cb with
  | Default f => default_handler st pad ev ext_tp pid args (arc_val f)
  | Event f => Ok (event_handler st pad ev pid args (arc_val f))
  | RawEvent f => Ok (raw_event_handler ev args (arc_val f))
  end.

Fixpoint run_callbacks (st : Store K) (pad : nat → Z) (ev : EventDef) (ext_tp : ExtTracePoint D) (pid : Z) (args : A)
    (cbs : list (TraceCallbackType D)) : res () (list Effect) :=
  match cbs with
  | [] => Ok []
  | cb :: cbs =>
      es ← run_callback st pad ev ext_tp pid args cb;
      rest ← run_callbacks st pad ev ext_tp pid args cbs;
      Ok (es ++ rest)
  end.

(** [trace_NAME]. *)
Definition trace (st : Store K) (states : R) (pad : nat → Z) (ev : EventDef) (pid : Z) (args : A) : res () (list Effect) :=
  if key_is_enabled st (ev_tp ev) then
    ext_tp ← unwrap (ts_read states (id st (ev_tp ev)));
    run_callbacks st pad ev ext_tp pid args (callbacks ext_tp)
  else Ok [].

(** [register_trace_NAME], [ptr] the address of the new [Arc]. *)
Definition register_trace (st : Store K) (states : R) (ev : EventDef) (func ptr : Z) (data : D) :
    res () (Store K * R * TraceCallbackType D) :=
  let callback := {| df_func := func; df_data := data |} in
  let callback_type := Default {| arc_ptr := ptr; arc_val := callback |} in
  let i := id st (ev_tp ev) in
  ext_tp ← unwrap (ts_read states i);
  let '(st, ext_tp) := register st ext_tp callback_type in
  Ok (st, ts_write states i ext_tp, callback_type).

(** [unregister_trace_NAME]. *)
Definition unregister_trace (st : Store K) (states : R) (ev : EventDef) (callback : TraceCallbackType D) :
    res () (Store K * R) :=
  let i := id st (ev_tp ev) in
  ext_tp ← unwrap (ts_read states i);
  let '(st, ext_tp) := unregister st ext_tp callback in
  Ok (st, ts_write states i ext_tp).
End event.
Arguments EventDef : clear implicits.
Arguments Effect : clear implicits.
