(* ===== verification/TraceProps.v ===== *)
(** Properties of the trace pipe, the command-line cache, the control files
    and the initialisation of tracepoints. *)
From stdpp Require Import functions.
From S2P Require Import Prelude Text IntLit Lexer Parser Eval StaticKey TracePoint TracePipe TraceFs.

(** ** The trace pipe *)
Inductive PipeOp :=
  | OpPush (timestamp cpu_id : Z) (event : str)
  | OpPop
  | OpClear
  | OpResize (n : Z).

(** One operation: the pipe after it, and the record it returned. *)
Definition pipe_step (p : TracePipeRaw) (o : PipeOp) : res () (TracePipeRaw * list TracePipeRecord) :=
  match o with
  | OpPush t c e => (λ p, (p, [])) <$> push_record p t c e
  | OpPop => '(r, p) ← pop p; Ok (p, option_list r)
  | OpClear => Ok (clear p, [])
  | OpResize n => Ok (set_max_record p n, [])
  end.
Fixpoint pipe_run (p : TracePipeRaw) (ops : list PipeOp) : res () (TracePipeRaw * list TracePipeRecord) :=
  match ops with
  | [] => Ok (p, [])
  | o :: ops => '(p, rs) ← pipe_step p o; '(p, rs') ← pipe_run p ops; Ok (p, rs ++ rs')
  end.
Definition pushed_by (o : PipeOp) : list TracePipeRecord :=
  match o with OpPush t c e => [TracePipeRecord_new t c e] | _ => [] end.
Definition is_push (o : PipeOp) : bool := match o with OpPush _ _ _ => true | _ => false end.
Definition op_ok (o : PipeOp) : Prop := match o with OpResize n => 0 ≤ n | _ => True end.

Definition pipe_ok (p : TracePipeRaw) : Prop := Z.of_nat (length (event_buf p)) ≤ max_record p.

(** What one operation keeps: the buffer is what was there and what is
    pushed, less a prefix that holds the record returned. *)
Ltac pipe_done := simpl; repeat split; try done; try lia; apply sublist_nil_l.
Lemma pipe_step_spec p o :
  pipe_ok p → op_ok o →
  ∃ p' rs dropped, pipe_step p o = Ok (p', rs) ∧ pipe_ok p' ∧
    event_buf p ++ pushed_by o = dropped ++ event_buf p' ∧ rs `sublist_of` dropped ∧
    (is_push o = true → max_record p' = max_record p ∧
       event_buf p' = drop (length (event_buf p) + 1 - Z.to_nat (max_record p)) (event_buf p ++ pushed_by o)).
Proof.
  unfold pipe_ok. intros Hp Ho. destruct o as [t c e| | |n]; simpl in *.
  - unfold push_record. destruct (Z.eqb_spec (max_record p) 0) as [Hz|Hz].
    { destruct (event_buf p) eqn:Hb; simpl in *; [|lia].
      exists p, [], [TracePipeRecord_new t c e]. rewrite Hb, Hz. pipe_done. }
    destruct (Z.leb_spec (max_record p) (Z.of_nat (length (event_buf p)))).
    + destruct (event_buf p) as [|x l] eqn:Hb; simpl in *; [lia|].
      eexists _, [], [x]. split; [reflexivity|]. simpl. rewrite length_app. simpl.
      replace (_ - Z.to_nat (max_record p))%nat with 1%nat by lia. pipe_done.
    + eexists _, [], []. split; [reflexivity|]. simpl. rewrite length_app. simpl.
      replace (_ - _)%nat with 0%nat by lia. pipe_done.
  - unfold pop, pop_records. destruct (event_buf p) as [|x l] eqn:Hb; simpl.
    + eexists _, [], []. split; [reflexivity|]. simpl in *. pipe_done.
    + eexists _, [x], [x]. split; [reflexivity|]. simpl in *. rewrite app_nil_r. pipe_done.
  - eexists _, [], (event_buf p). split; [reflexivity|]. pipe_done.
  - unfold set_max_record. destruct (Z.ltb_spec n (Z.of_nat (length (event_buf p)))).
    + eexists _, [], (take (Z.to_nat (Z.of_nat (length (event_buf p)) - n)) (event_buf p)).
      split; [reflexivity|]. simpl. rewrite length_drop, app_nil_r, take_drop. pipe_done.
    + eexists _, [], []. split; [reflexivity|]. simpl. rewrite app_nil_r. pipe_done.
Qed.

Lemma pipe_run_spec ops : ∀ p,
  pipe_ok p → Forall op_ok ops →
  ∃ p' rs dropped, pipe_run p ops = Ok (p', rs) ∧ pipe_ok p' ∧
    event_buf p ++ (ops ≫= pushed_by) = dropped ++ event_buf p' ∧ rs `sublist_of` dropped ∧
    (forallb is_push ops = true → max_record p' = max_record p ∧
       event_buf p' = drop (length (event_buf p) + length ops - Z.to_nat (max_record p))
                           (event_buf p ++ (ops ≫= pushed_by))).
Proof.
  induction ops as [|o ops IH]; intros p Hp Hops; cbn [pipe_run forallb length].
  { exists p, [], []. simpl. rewrite app_nil_r. unfold pipe_ok in Hp.
    replace (_ - _)%nat with 0%nat by lia. repeat split; done. }
  apply Forall_cons in Hops as [Ho Hops].
  destruct (pipe_step_spec p o Hp Ho) as (p1 & rs1 & d1 & -> & Hp1 & Hb1 & Hs1 & Hpush1). cbn [mbind res_bind].
  destruct (IH p1 Hp1 Hops) as (p2 & rs2 & d2 & -> & Hp2 & Hb2 & Hs2 & Hpush2). cbn [mbind res_bind].
  exists p2, (rs1 ++ rs2), (d1 ++ d2). rewrite bind_cons. split_and!; try done.
  - by rewrite app_assoc, Hb1, <- !app_assoc, Hb2.
  - by apply sublist_app.
  - intros [H1 H2]%andb_true_iff. destruct (Hpush1 H1) as [Hm He], (Hpush2 H2) as [Hm2 ->].
    split; [congruence|].
    unfold pipe_ok in *. rewrite Hm, app_assoc. rewrite He.
    assert (length (pushed_by o) = 1%nat) as Hl by (destruct o; done).
    rewrite <- drop_app_le by (rewrite length_app; lia). rewrite drop_drop. f_equal.
    rewrite length_drop, length_app. lia.
Qed.

(** ** The command-line cache *)

(** The documented behaviour of [lru::LruCache]; [cl_wf c cap] says that [c]
    is a cache of capacity [cap]. *)
Class CmdLruLaws (C : Type) `{CmdLru C} := {
  cl_wf : C → Z → Prop;
  cl_new_law cap : 0 < cap → cl_wf (cl_new cap) cap ∧ cl_iter (cl_new cap) = [];
  cl_bound c cap : cl_wf c cap → NoDup (cl_iter c).*1 ∧ Z.of_nat (length (cl_iter c)) ≤ cap ∧ cl_cap c = cap;
  cl_put_law c cap k v : cl_wf c cap →
    cl_wf (cl_put c k v) cap ∧
    cl_iter (cl_put c k v) =
      (k, v) :: filter (λ kv, kv.1 ≠ k)
        (if decide (k ∈ (cl_iter c).*1) then cl_iter c else take (Z.to_nat cap - 1) (cl_iter c));
  cl_resize_law c cap n : cl_wf c cap → 0 < n →
    cl_wf (cl_resize c n) n ∧ cl_iter (cl_resize c n) = take (Z.to_nat n) (cl_iter c);
}.

Section cmdline.
Context {C : Type} `{CmdLruLaws C}.

(** Every entry is a line that starts with its key. *)
Definition line_for (id : Z) (name : str) : str := show_u 10 id ++ bs " " ++ name ++ newline.
Definition cache_ok (c : TraceCmdLineCache C) : Prop :=
  Forall (λ kv, ∃ name, kv.2 = line_for kv.1 name) (cl_iter (cmdline c)).

Lemma cmdline_of_line id name : cmdline_of (line_for id name) = Ok (trim_end_matches 10 (name ++ newline)).
Proof.
  unfold cmdline_of, line_for. change (bs " ") with [ch " "]. simpl app. rewrite split_once_spec; [done|].
  intros Hin. pose proof (show_u_digits id) as Hd. rewrite Forall_forall in Hd. apply Hd in Hin.
  unfold ch in Hin. simpl in Hin. lia.
Qed.

Lemma trim_end_app c s : trim_end_matches c (s ++ [c]) = trim_end_matches c s.
Proof. induction s as [|x s IH]; simpl; [by rewrite Z.eqb_refl|]. by rewrite IH. Qed.

Lemma trim_end_spec c s : ∃ k, s = trim_end_matches c s ++ repeat c k ∧ last (trim_end_matches c s) ≠ Some c.
Proof.
  induction s as [|x s (k & Hs & Hl)]; simpl; [by exists 0%nat|].
  destruct (trim_end_matches c s) as [|y t] eqn:Ht.
  - destruct (Z.eqb_spec x c) as [->|Hx].
    + exists (S k). simpl. by rewrite Hs at 1.
    + exists k. simpl. split; [by rewrite Hs at 1|congruence].
  - exists k. split; [by rewrite Hs at 1|]. done.
Qed.

Lemma find_drop_key (j k : Z) (l : list (Z * str)) :
  j ≠ k → find (λ kv, kv.1 =? j) (filter (λ kv, kv.1 ≠ k) l) = find (λ kv, kv.1 =? j) l.
Proof.
  intros Hj. induction l as [|[a v] l IH]; [done|]. rewrite filter_cons. simpl.
  destruct (decide (a ≠ k)) as [Ha|Ha]; simpl; rewrite IH; [done|].
  apply dec_stable in Ha as ->. by destruct (Z.eqb_spec k j).
Qed.

Lemma find_pid_none (j : Z) (l : list (Z * str)) : find (λ kv, kv.1 =? j) l = None ↔ j ∉ l.*1.
Proof.
  induction l as [|[a v] l IH]; simpl; [set_solver|].
  destruct (Z.eqb_spec a j) as [->|Ha]; [split; [done|set_solver]|]. rewrite IH. set_solver.
Qed.

Lemma find_take (j : Z) (l : list (Z * str)) n :
  j ∉ (drop n l).*1 → find (λ kv, kv.1 =? j) (take n l) = find (λ kv, kv.1 =? j) l.
Proof.
  revert n. induction l as [|[a v] l IH]; intros [|n] Hj; simpl; try done.
  - symmetry. by apply find_pid_none in Hj.
  - destruct (a =? j); [done|]. by apply IH.
Qed.

Lemma split_last {A} (l : list A) n : length l = S n → ∃ x, drop n l = [x] ∧ last l = Some x ∧ l = take n l ++ [x].
Proof.
  intros Hl. destruct (drop n l) as [|x [|]] eqn:Hd; apply (f_equal length) in Hd as Hn;
    rewrite length_drop in Hn; simpl in Hn; try lia.
  assert (l = take n l ++ [x]) as Hx by (by rewrite <- Hd, take_drop).
  exists x. split_and!; [done| |done]. rewrite Hx. apply last_snoc.
Qed.

Lemma get_ok c j : cache_ok c → ∃ o, get c j = Ok o ∧ (o = None ↔ j ∉ (cl_iter (cmdline c)).*1).
Proof.
  intros Hc. unfold get. destruct (find _ _) as [[k v]|] eqn:Hf.
  - pose proof Hf as Hin. apply find_some in Hin as [Hin _]. apply list_elem_of_In in Hin.
    unfold cache_ok in Hc. rewrite Forall_forall in Hc. destruct (Hc _ Hin) as [name Hl]. simpl in Hl. subst v.
    rewrite cmdline_of_line. eexists. split; [done|]. split; [done|].
    intros Hn%find_pid_none. congruence.
  - exists None. split; [done|]. split; [|done]. intros _. by apply find_pid_none.
Qed.

Definition cached (c : TraceCmdLineCache C) : list Z := (cl_iter (cmdline c)).*1.

Lemma insert_spec c cap id name :
  cl_wf (cmdline c) cap → 0 < cap → cache_ok c →
  is_char_boundary name (16 `min` length name) = true →
  ∃ c', insert c id name = Ok c' ∧ cl_wf (cmdline c') cap ∧ cache_ok c' ∧
    get c' id = Ok (Some (trim_end_matches 10 (take 16 name))) ∧
    ∀ j, j ≠ id →
      (id ∈ cached c ∨ Z.of_nat (length (cached c)) < cap ∨ last (cached c) ≠ Some j → get c' j = get c j) ∧
      (id ∉ cached c → Z.of_nat (length (cached c)) = cap → last (cached c) = Some j → get c' j = Ok None).
Proof.
  intros Hwf Hcap Hok Hb. unfold cached.
  assert (insert c id name = Ok {| cmdline := cl_put (cmdline c) id (line_for id (take 16 name)) |}) as ->.
  { unfold insert, split_at, MAX_CMDLINE_LEN. rewrite Hb. cbn [mbind res_bind].
    destruct (Nat.min_spec 16 (length name)) as [[_ ->]|[? ->]]; [done|]. by rewrite !take_ge by lia. }
  eexists. split; [reflexivity|]. cbn [cmdline].
  destruct (cl_put_law (cmdline c) cap id (line_for id (take 16 name)) Hwf) as [Hwf' Hit].
  destruct (cl_bound _ _ Hwf) as (Hnd & Hlen & _).
  split; [done|]. split; [|split].
  - unfold cache_ok in *. cbn [cmdline]. rewrite Hit. constructor; [by eexists|].
    apply Forall_forall. intros kv [_ Hin]%list_elem_of_filter. rewrite Forall_forall in Hok. apply Hok.
    destruct (decide _); [done|]. apply elem_of_take in Hin as (i & Hi & _).
    by apply list_elem_of_lookup_2 in Hi.
  - unfold get. cbn [cmdline]. rewrite Hit. cbn [find fst]. rewrite Z.eqb_refl, cmdline_of_line.
    unfold newline. by rewrite trim_end_app.
  - intros j Hj. unfold get. cbn [cmdline]. rewrite Hit. cbn [find fst]. destruct (Z.eqb_spec id j); [congruence|].
    rewrite find_drop_key by done. split.
    + intros Hcase. destruct (decide _) as [Hin|Hin]; [done|]. rewrite find_take; [done|].
      destruct Hcase as [?|Hcase]; [done|]. rewrite length_fmap in Hcase.
      destruct (decide (Z.of_nat (length (cl_iter (cmdline c))) < cap)).
      { rewrite drop_ge by lia. set_solver. }
      destruct Hcase as [?|Hlast]; [done|]. intros Hj'. apply Hlast.
      destruct (split_last (cl_iter (cmdline c)) (Z.to_nat cap - 1)) as (x & Hd & Hx & _); [lia|].
      rewrite Hd in Hj'. rewrite fmap_last, Hx. simpl. set_solver.
    + intros Hin Hfull Hlast. destruct (decide _); [done|].
      destruct (find _ _) as [[k v]|] eqn:Hf; [|done]. exfalso.
      assert (j ∈ (take (Z.to_nat cap - 1) (cl_iter (cmdline c))).*1) as Hin'.
      { destruct (decide (j ∈ (take (Z.to_nat cap - 1) (cl_iter (cmdline c))).*1)); [done|].
        apply find_pid_none in n1. congruence. }
      rewrite length_fmap in Hfull.
      destruct (split_last (cl_iter (cmdline c)) (Z.to_nat cap - 1)) as (x & Hd & Hx & Hl); [lia|].
      rewrite fmap_last, Hx in Hlast. simplify_eq/=.
      rewrite Hl, fmap_app in Hnd. apply NoDup_app in Hnd as (_ & Hnd & _). apply (Hnd _ Hin'). simpl. set_solver.
Qed.
End cmdline.

(** ** Control files *)
Section files.
Context {K : Type} `{StaticKey K} `{!StaticKeyLaws K} {D : Type}.

Lemma compile_safe s sch :
  utf8 s → safe (compile_with_schema s sch) (λ c, cp_schema c = sch ∧ well_typed sch (cp_expr c)) (λ _, True).
Proof.
  intros Hu. pose proof (parse_str_ok s Hu) as Hp. unfold compile_with_schema.
  destruct (parse_str s) as [e|e| |]; simpl in *; try done.
  pose proof (validate_spec sch e). by destruct (validate e sch).
Qed.

(** The filter file and the runtime state say the same thing. *)
Definition filter_agrees (f : TraceFilterFile) (e : ExtTracePoint D) : Prop :=
  match filter_expr f with
  | Some s => pre_error f = None ∧
      ∃ c, compiled_expr e = Some c ∧ compile_with_schema s (tp_schema (tracepoint e)) = Ok c
  | None => compiled_expr e = None
  end.

(** ** Registration *)
Lemma ptr_eq_spec {A} (a b : Arc A) : ptr_eq a b = true ↔ arc_ptr a = arc_ptr b.
Proof. apply Z.eqb_eq. Qed.

Lemma callback_eq_refl (a : TraceCallbackType D) : callback_eq a a = true.
Proof. destruct a; simpl; by apply ptr_eq_spec. Qed.
Lemma callback_eq_sym (a b : TraceCallbackType D) : callback_eq a b = callback_eq b a.
Proof. destruct a, b; simpl; try done; apply Z.eqb_sym. Qed.

(** No two callbacks of the list are the same. *)
Fixpoint distinct (l : list (TraceCallbackType D)) : Prop :=
  match l with [] => True | a :: l => Forall (λ b, callback_eq a b = false) l ∧ distinct l end.

Lemma distinct_snoc l a : distinct l → existsb (λ f, callback_eq f a) l = false → distinct (l ++ [a]).
Proof.
  induction l as [|b l IH]; simpl; [by repeat constructor|].
  intros [Hb Hl] [Hba Ha]%orb_false_iff. split; [|by apply IH].
  apply Forall_app. split; [done|]. by constructor.
Qed.
Lemma distinct_filter (P : TraceCallbackType D → bool) l : distinct l → distinct (List.filter P l).
Proof.
  induction l as [|b l IH]; simpl; [done|]. intros [Hb Hl]. destruct (P b); [|by apply IH].
  split; [|by apply IH]. rewrite Forall_forall in *. intros x [Hx _]%list_elem_of_In%filter_In.
  apply Hb. by apply list_elem_of_In.
Qed.

(** The static key follows the callbacks. *)
Definition ext_ok (st : Store K) (e : ExtTracePoint D) : Prop :=
  key_is_enabled st (tracepoint e) = negb (is_empty (callbacks e)) ∧ distinct (callbacks e).

Lemma enabled_enable_key (st : Store K) tp : key_is_enabled (enable_key st tp) tp = true.
Proof. unfold key_is_enabled, enable_key, with_key; simpl. rewrite fn_lookup_insert. apply enabled_enable. Qed.
Lemma enabled_disable_key (st : Store K) tp : key_is_enabled (disable_key st tp) tp = false.
Proof. unfold key_is_enabled, disable_key, with_key; simpl. rewrite fn_lookup_insert. apply enabled_disable. Qed.
Lemma enabled_with_key_ne (st : Store K) tp tp' f :
  tp_key tp ≠ tp_key tp' → key_is_enabled (with_key st tp f) tp' = key_is_enabled st tp'.
Proof. intros Hne. unfold key_is_enabled, with_key; simpl. by rewrite fn_lookup_insert_ne. Qed.

Lemma register_spec (st : Store K) (e : ExtTracePoint D) cb :
  ext_ok st e →
  let r := register st e cb in
  ext_ok r.1 r.2 ∧ tracepoint r.2 = tracepoint e ∧ compiled_expr r.2 = compiled_expr e ∧
  default_callback r.2 = default_callback e ∧
  st_id r.1 = st_id st ∧ st_perf r.1 = st_perf st ∧
  r.1 = enable_key st (tracepoint e) ∧
  callbacks r.2 = callbacks e ++ (if existsb (λ f, callback_eq f cb) (callbacks e) then [] else [cb]).
Proof.
  intros [Hk Hd]. unfold register. destruct (existsb _ _) eqn:He; simpl.
  - assert (is_empty (callbacks e) = false) as Hne by (by destruct (callbacks e)).
    rewrite Hne. simpl. rewrite app_nil_r. unfold ext_ok. simpl. rewrite enabled_enable_key, Hne. done.
  - assert (is_empty (callbacks e ++ [cb]) = false) as -> by (by destruct (callbacks e)). simpl.
    unfold ext_ok. simpl. rewrite enabled_enable_key.
    repeat split; try done; [by destruct (callbacks e)|by apply distinct_snoc].
Qed.

Lemma unregister_spec (st : Store K) (e : ExtTracePoint D) cb :
  ext_ok st e →
  let r := unregister st e cb in
  ext_ok r.1 r.2 ∧ tracepoint r.2 = tracepoint e ∧ compiled_expr r.2 = compiled_expr e ∧
  default_callback r.2 = default_callback e ∧
  st_id r.1 = st_id st ∧ st_perf r.1 = st_perf st ∧
  (r.1 = st ∨ r.1 = disable_key st (tracepoint e)) ∧
  callbacks r.2 = List.filter (λ f, negb (callback_eq f cb)) (callbacks e).
Proof.
  intros [Hk Hd]. unfold unregister, ext_ok. simpl.
  set (l := List.filter (λ f, negb (callback_eq f cb)) (callbacks e)).
  assert (distinct l) as Hl by (by apply distinct_filter).
  destruct (is_empty l) eqn:Hem; simpl.
  - rewrite enabled_disable_key. repeat split; auto.
  - repeat split; auto. rewrite Hk. subst l. destruct (callbacks e); done.
Qed.

(** ** The system: the store and the registered runtime states *)
Record Sys := { sy_store : Store K; sy_states : gmap Z (ExtTracePoint D) }.

Inductive sys_step : Sys → Sys → Prop :=
  | SysRegister st m i e cb :
      m !! i = Some e →
      sys_step {| sy_store := st; sy_states := m |}
        {| sy_store := (register st e cb).1; sy_states := <[i := (register st e cb).2]> m |}
  | SysUnregister st m i e cb :
      m !! i = Some e →
      sys_step {| sy_store := st; sy_states := m |}
        {| sy_store := (unregister st e cb).1; sy_states := <[i := (unregister st e cb).2]> m |}
  | SysEnableWrite st m i e c :
      m !! i = Some e →
      sys_step {| sy_store := st; sy_states := m |}
        {| sy_store := (enable_write st e c).1; sy_states := <[i := (enable_write st e c).2]> m |}
  | SysFilterWrite `{Render} st m i e f s f' e' r :
      m !! i = Some e → filter_write f e s = Ok (f', e', r) →
      sys_step {| sy_store := st; sy_states := m |} {| sy_store := st; sy_states := <[i := e']> m |}
  | SysPerf st m (f : TraceEventFunc D) b :
      sys_step {| sy_store := st; sy_states := m |} {| sy_store := set_perf_enable st f b; sy_states := m |}.

Record sys_ok (s : Sys) : Prop := {
  so_ext i e : sy_states s !! i = Some e → ext_ok (sy_store s) e;
  so_id i e : sy_states s !! i = Some e → id (sy_store s) (tracepoint e) = i;
  so_keys i j e e' : sy_states s !! i = Some e → sy_states s !! j = Some e' →
    tp_key (tracepoint e) = tp_key (tracepoint e') → i = j;
}.

(** Replacing one runtime state by one of the same tracepoint. *)
Lemma sys_ok_update st m i e st' e' :
  sys_ok {| sy_store := st; sy_states := m |} → m !! i = Some e →
  ext_ok st' e' → tracepoint e' = tracepoint e → st_id st' = st_id st →
  (∀ tp, tp_key (tracepoint e) ≠ tp_key tp → key_is_enabled st' tp = key_is_enabled st tp) →
  sys_ok {| sy_store := st'; sy_states := <[i := e']> m |}.
Proof.
  intros [Hext Hid Hkeys] Hi Hok' Htp Hsid Hkey. simpl in *. split; simpl.
  - intros j x [[<- <-]|[Hne Hj]]%lookup_insert_Some; [done|].
    destruct (Hext _ _ Hj) as [Hk Hd]. split; [|done]. rewrite Hkey; [done|].
    intros Heq. by destruct (Hne (Hkeys _ _ _ _ Hi Hj Heq)).
  - intros j x [[<- <-]|[Hne Hj]]%lookup_insert_Some; unfold id; rewrite Hsid.
    + rewrite Htp. by apply Hid.
    + by apply Hid.
  - intros j k x y Hj Hk Heq.
    apply lookup_insert_Some in Hj as [[<- <-]|[_ Hj]], Hk as [[<- <-]|[_ Hk]]; [done|..].
    + rewrite Htp in Heq. by eapply Hkeys.
    + rewrite Htp in Heq. by eapply Hkeys.
    + by eapply Hkeys.
Qed.

Lemma filter_write_ext `{Render} f (e : ExtTracePoint D) s f' e' r :
  filter_write f e s = Ok (f', e', r) → ∃ c, e' = set_compiled_expr e c.
Proof.
  unfold filter_write. intros (x & _ & H1)%bind_ok. destruct (x =? ch "0"); [simplify_eq; by eexists|].
  destruct (compile_with_schema _ _); simplify_eq; by eexists.
Qed.

Lemma sys_step_ok s s' : sys_ok s → sys_step s s' → sys_ok s'.
Proof.
  intros Hs Hstep.
  assert (∀ st m i e cb, sys_ok {| sy_store := st; sy_states := m |} → m !! i = Some e →
    sys_ok {| sy_store := (register st e cb).1; sy_states := <[i := (register st e cb).2]> m |}) as Hreg.
  { intros st m i e cb Hok Hi. pose proof (so_ext _ Hok _ _ Hi) as He. simpl in He.
    destruct (register_spec st e cb He) as (H1 & H2 & _ & _ & H3 & _ & H4 & _).
    eapply sys_ok_update; try done. intros tp Hne. rewrite H4. by apply enabled_with_key_ne. }
  assert (∀ st m i e cb, sys_ok {| sy_store := st; sy_states := m |} → m !! i = Some e →
    sys_ok {| sy_store := (unregister st e cb).1; sy_states := <[i := (unregister st e cb).2]> m |}) as Hun.
  { intros st m i e cb Hok Hi. pose proof (so_ext _ Hok _ _ Hi) as He. simpl in He.
    destruct (unregister_spec st e cb He) as (H1 & H2 & _ & _ & H3 & _ & H4 & _).
    eapply sys_ok_update; try done. intros tp Hne. destruct H4 as [->| ->]; [done|]. by apply enabled_with_key_ne. }
  destruct Hstep as [st m i e cb Hi|st m i e cb Hi|st m i e c Hi|? st m i e f s f' e' r Hi Hf|st m f b]; auto.
  - unfold enable_write. destruct (c =? ch "1"); [by apply Hreg|]. destruct (c =? ch "0"); [by apply Hun|].
    simpl. by rewrite insert_id.
  - apply filter_write_ext in Hf as [c ->]. pose proof (so_ext _ Hs _ _ Hi).
    by eapply sys_ok_update.
  - destruct Hs as [H1 H2 H3]. by split.
Qed.
End files.

(** ** Initialisation *)
Section init.
Context {K : Type} `{StaticKey K} {D : Type} (unit_data : D) (fresh : Meta → Z).

Definition meta_addr (m : Meta) : Z := tp_addr (trace_point m).
Definition meta_key (m : Meta) : Z := tp_key (trace_point m).
Definition ext_of (m : Meta) : ExtTracePoint D :=
  ExtTracePoint_new (trace_point m)
    {| arc_ptr := fresh m; arc_val := {| df_func := print_func m; df_data := unit_data |} |}.

Lemma init_loop_spec ms : ∀ s : InitState K D,
  NoDup (map meta_addr ms) → 0 ≤ is_next_id s → is_next_id s + Z.of_nat (length ms) ≤ 2 ^ 32 →
  let n := is_next_id s in
  let s' := foldl (init_step unit_data fresh) s ms in
  (∀ k m, ms !! k = Some m → id (is_store s') (trace_point m) = n + Z.of_nat k) ∧
  (∀ a, a ∉ map meta_addr ms → st_id (is_store s') a = st_id (is_store s) a) ∧
  st_key (is_store s') = st_key (is_store s) ∧
  (∀ i, tp_map s' !! i = if decide (n ≤ i < n + Z.of_nat (length ms))
                         then trace_point <$> ms !! Z.to_nat (i - n) else tp_map s !! i) ∧
  ext_tps s' = ext_tps s ++ map ext_of ms.
Proof.
  induction ms as [|m ms IH]; intros s Hnd Hn Hlen; simpl.
  { rewrite app_nil_r. split_and!; try done. intros i. by rewrite decide_False by lia. }
  inversion Hnd as [|? ? Hm Hnd']; subst. simpl in Hlen.
  set (s1 := init_step unit_data fresh s m).
  destruct ms as [|m' ms'].
  { simpl. subst s1. split_and!; simpl; try done.
    - intros [|k] m0; simpl; [|done]. intros [= <-]. unfold id, set_id; simpl. rewrite fn_lookup_insert. lia.
    - intros a Ha. unfold meta_addr in Ha. rewrite fn_lookup_insert_ne; [done|set_solver].
    - intros i. case_decide as Hi.
      + replace i with (is_next_id s) by lia. rewrite lookup_insert_eq, Z.sub_diag. done.
      + by rewrite lookup_insert_ne by lia. }
  assert (is_next_id s1 = is_next_id s + 1) as Hn1 by (apply wrapu_small; simpl in Hlen; lia).
  destruct (IH s1) as (H1 & H2 & H3 & H4 & H5); [done|lia|simpl in *; lia|].
  cbv zeta in *. revert H1 H2 H3 H4 H5. generalize dependent (m' :: ms'). intros ms Hnd Hlen Hm Hnd' IH H1 H2 H3 H4 H5.
  rewrite Hn1 in *. split_and!.
  - intros [|k] m0; simpl.
    + intros [= <-]. unfold id. rewrite (H2 (tp_addr (trace_point m))) by done. simpl.
      rewrite fn_lookup_insert. lia.
    + intros Hk. rewrite (H1 _ _ Hk). lia.
  - intros a Ha. apply not_elem_of_cons in Ha as [Ha1 Ha2]. rewrite (H2 _ Ha2). simpl.
    by rewrite fn_lookup_insert_ne.
  - by rewrite H3.
  - intros i. rewrite H4. destruct (decide (i = is_next_id s)) as [->|Hi].
    + rewrite decide_False by lia. rewrite decide_True by (simpl; lia). simpl.
      by rewrite lookup_insert_eq, Z.sub_diag.
    + assert (tp_map s1 !! i = tp_map s !! i) as -> by (simpl; by rewrite lookup_insert_ne).
      destruct (decide (is_next_id s ≤ i < is_next_id s + Z.of_nat (S (length ms)))).
      * rewrite decide_True by lia. replace (Z.to_nat (i - is_next_id s)) with (S (Z.to_nat (i - (is_next_id s + 1)))) by lia.
        done.
      * by rewrite decide_False by lia.
  - rewrite H5. simpl. by rewrite <- app_assoc.
Qed.

Lemma meta_compare_antisym a b : meta_compare b a = CompOpp (meta_compare a b).
Proof.
  unfold meta_compare. rewrite str_compare_antisym.
  destruct (str_compare (tp_name (trace_point a)) _); simpl; try done. apply str_compare_antisym.
Qed.

(** The host installs the runtime states under their ids. *)
Definition install (s : InitState K D) : Sys :=
  {| sy_store := is_store s;
     sy_states := list_to_map (map (λ e, (id (is_store s) (tracepoint e), e)) (ext_tps s)) |}.

Lemma init_sys_ok section st next_id :
  NoDup (map meta_addr section) → NoDup (map meta_key section) →
  0 ≤ next_id → next_id + Z.of_nat (length section) ≤ 2 ^ 32 →
  (∀ m, m ∈ section → key_is_enabled st (trace_point m) = false) →
  sys_ok (install (global_init_events unit_data fresh section st next_id).2).
Proof.
  intros Ha Hk H0 Hlen Hdis. unfold global_init_events; simpl.
  pose proof (sort_by_perm meta_compare section) as Hp. set (ms := sort_by meta_compare section) in *.
  rewrite <- Hp in Ha. rewrite <- Hp in Hk. rewrite <- Hp in Hlen.
  destruct (init_loop_spec ms {| is_store := st; is_next_id := next_id; tp_map := ∅; ext_tps := [] |} Ha H0 Hlen)
    as (H1 & _ & H3 & _ & H5). cbv zeta in *. simpl in *.
  set (s := foldl _ _ ms) in *. unfold install.
  assert (∀ i e, list_to_map (M := gmap Z _) (map (λ e, (id (is_store s) (tracepoint e), e)) (ext_tps s)) !! i = Some e →
    ∃ m, m ∈ ms ∧ e = ext_of m ∧ i = id (is_store s) (tracepoint e)) as Hin.
  { intros i e Hi%elem_of_list_to_map_2. rewrite H5 in Hi.
    apply list_elem_of_fmap in Hi as (e' & [= -> ->] & (m & -> & Hm)%list_elem_of_fmap). by exists m. }
  split; simpl.
  - intros i e (m & Hm & -> & _)%Hin. split; [|done]. unfold key_is_enabled. simpl. rewrite H3.
    apply Hdis. by rewrite <- Hp.
  - by intros i e (m & _ & _ & ->)%Hin.
  - intros i j e e' (m & Hm & -> & ->)%Hin (m' & Hm' & -> & ->)%Hin Heq. simpl in *.
    apply list_elem_of_lookup in Hm as [a Hm], Hm' as [b Hm'].
    assert (a = b) as -> by (eapply NoDup_lookup; [exact Hk|by rewrite list_lookup_fmap, Hm; simpl|rewrite list_lookup_fmap, Hm'; unfold meta_key in *; simpl; by rewrite Heq]).
    by simplify_eq.
Qed.
End init.
