(* ===== verification/TraceClaims.v ===== *)
(** The contracts of the trace pipe, the command-line cache, the control
    files and the registration of callbacks, with concrete instances. *)
From stdpp Require Import functions.
From S2P Require Import Prelude Text IntLit Lexer Parser Eval StaticKey TracePoint TracePipe TraceFs TraceProps.

(** C27: the trace pipe keeps the newest records: whatever is pushed, popped,
    cleared or resized, no operation panics, the buffer never exceeds its
    limit, it is a suffix of everything pushed, and what was popped comes, in
    order, from the records no longer in it; when records are only pushed
    exactly the last [max_record] of them remain. *)
Theorem trace_pipe_keeps_newest n ops :
  0 ≤ n → Forall op_ok ops →
  ∃ p popped dropped, pipe_run (TracePipeRaw_new n) ops = Ok (p, popped) ∧
    event_count p ≤ max_record p ∧
    ops ≫= pushed_by = dropped ++ event_buf p ∧ popped `sublist_of` dropped ∧
    (forallb is_push ops = true → event_buf p = drop (length ops - Z.to_nat n) (ops ≫= pushed_by)).
Proof.
  intros Hn Hops.
  destruct (pipe_run_spec ops (TracePipeRaw_new n)) as (p & rs & d & Hr & Hp & Hb & Hs & Hpush); [exact Hn|done|].
  exists p, rs, d. split_and!; try done. intros Hf. apply Hpush in Hf as [_ ->]. done.
Qed.

Lemma trace_pipe_keeps_newest_witness :
  ∃ p popped dropped,
    pipe_run (TracePipeRaw_new 2) [OpPush 1 0 [7]; OpPush 2 0 [8]; OpPop; OpPush 3 1 [9]; OpPush 4 1 []] = Ok (p, popped) ∧
    event_count p ≤ max_record p ∧
    [OpPush 1 0 [7]; OpPush 2 0 [8]; OpPop; OpPush 3 1 [9]; OpPush 4 1 []] ≫= pushed_by = dropped ++ event_buf p ∧
    popped `sublist_of` dropped.
Proof.
  destruct (trace_pipe_keeps_newest 2 [OpPush 1 0 [7]; OpPush 2 0 [8]; OpPop; OpPush 3 1 [9]; OpPush 4 1 []])
    as (p & r & d & H1 & H2 & H3 & H4 & _); [lia|by repeat constructor|]. by exists p, r, d.
Defined.

(** The command-line cache: inserting a name that can be cut at 16 bytes
    makes [get] return it cut there and without trailing newlines; the cache
    stays within its capacity; every other process keeps its name, except
    that a new process evicts the least recently used one from a full cache;
    and a name whose 16th byte splits a character panics. *)
Theorem cmdline_cache_correct {C} `{CmdLruLaws C} (c : TraceCmdLineCache C) cap id name :
  cl_wf (cmdline c) cap → 0 < cap → cache_ok c →
  match insert c id name with
  | Ok c' =>
      is_char_boundary name (16 `min` length name) = true ∧
      cl_wf (cmdline c') cap ∧ cache_ok c' ∧ Z.of_nat (length (cached c')) ≤ cap ∧
      get c' id = Ok (Some (trim_end_matches 10 (take 16 name))) ∧
      ∀ j, j ≠ id →
        (id ∈ cached c ∨ Z.of_nat (length (cached c)) < cap ∨ last (cached c) ≠ Some j → get c' j = get c j) ∧
        (id ∉ cached c → Z.of_nat (length (cached c)) = cap → last (cached c) = Some j → get c' j = Ok None)
  | Panic => is_char_boundary name (16 `min` length name) = false
  | _ => False
  end.
Proof.
  intros Hwf Hcap Hok. destruct (is_char_boundary name (16 `min` length name)) eqn:Hb.
  - destruct (insert_spec c cap id name Hwf Hcap Hok Hb) as (c' & -> & Hwf' & Hok' & Hget & Hj).
    split_and!; try done. unfold cached. rewrite length_fmap. by apply cl_bound.
  - unfold insert, split_at, MAX_CMDLINE_LEN. by rewrite Hb.
Qed.

(** A cache that is a list with a capacity. *)
Record ListCmd := { lc_cap : Z; lc_list : list (Z * str) }.
#[export] Instance ListCmd_lru : CmdLru ListCmd := {
  cl_new n := {| lc_cap := n; lc_list := [] |};
  cl_put c k v := {| lc_cap := lc_cap c;
    lc_list := (k, v) :: filter (λ kv, kv.1 ≠ k)
      (if decide (k ∈ (lc_list c).*1) then lc_list c else take (Z.to_nat (lc_cap c) - 1) (lc_list c)) |};
  cl_iter := lc_list;
  cl_resize c n := {| lc_cap := n; lc_list := take (Z.to_nat n) (lc_list c) |};
  cl_cap := lc_cap;
}.
Lemma filter_length_lt (k : Z) (l : list (Z * str)) :
  k ∈ l.*1 → (length (filter (λ kv, kv.1 ≠ k) l) < length l)%nat.
Proof.
  induction l as [|[a v] l IH]; simpl; [set_solver|]. intros Hin. rewrite filter_cons. simpl.
  destruct (decide (a ≠ k)) as [Ha|Ha]; simpl.
  - apply elem_of_cons in Hin as [?|Hin]; [congruence|]. specialize (IH Hin). lia.
  - pose proof (length_filter (λ kv : Z * str, kv.1 ≠ k) l). lia.
Qed.
#[export] Instance ListCmd_laws : CmdLruLaws ListCmd.
Proof.
  refine {| cl_wf c n := lc_cap c = n ∧ 0 < n ∧ NoDup (lc_list c).*1 ∧ Z.of_nat (length (lc_list c)) ≤ n |}.
  - intros cap Hc. repeat split; simpl; try done; [constructor|lia].
  - intros c cap (<- & _ & Hnd & Hl). done.
  - intros c cap k v (<- & Hpos & Hnd & Hl). split; [|done]. split_and!; [done|done|..]; simpl.
    + constructor; [by intros ([? ?] & -> & [? _]%list_elem_of_filter)%list_elem_of_fmap|].
      eapply sublist_NoDup; [exact Hnd|]. apply fmap_sublist.
      etrans; [apply sublist_filter|]. destruct (decide _); [done|]. apply sublist_take.
    + destruct (decide _) as [Hin|]; [pose proof (filter_length_lt _ _ Hin); lia|].
      pose proof (length_filter (λ kv : Z * str, kv.1 ≠ k) (take (Z.to_nat (lc_cap c) - 1) (lc_list c))) as Hf.
      rewrite length_take in Hf. lia.
  - intros c cap n (<- & Hpos & Hnd & Hl) Hn. split; [|done]. split_and!; [done|done|..]; simpl.
    + eapply sublist_NoDup; [exact Hnd|]. apply fmap_sublist, sublist_take.
    + rewrite length_take. lia.
Defined.

Definition demo_cache : TraceCmdLineCache ListCmd :=
  {| cmdline := {| lc_cap := 1; lc_list := [(5, line_for 5 (bs "init"))] |} |}.
Lemma cmdline_cache_correct_witness :
  match insert demo_cache 12 (bs "kworker/u8:2-events_unbound") with
  | Ok c' => get c' 12 = Ok (Some (bs "kworker/u8:2-eve")) ∧ get c' 5 = Ok None
  | _ => False
  end.
Proof.
  assert (cl_wf (cmdline demo_cache) 1) as Hwf.
  { simpl. repeat split; try lia. apply NoDup_singleton. }
  assert (cache_ok demo_cache) as Hok by (repeat constructor; by exists (bs "init")).
  pose proof (cmdline_cache_correct demo_cache 1 12 (bs "kworker/u8:2-events_unbound") Hwf eq_refl Hok) as Ht.
  destruct (insert demo_cache 12 (bs "kworker/u8:2-events_unbound")) as [c'| | |] eqn:Hi.
  - destruct Ht as (_ & _ & _ & _ & Hg & Hj).
    split; [rewrite Hg; vm_compute; reflexivity|].
    apply (Hj 5); [lia| |reflexivity|reflexivity]. unfold cached. simpl. set_solver.
  - revert Hi. vm_compute. discriminate.
  - revert Hi. vm_compute. discriminate.
  - revert Hi. vm_compute. discriminate.
Defined.

(** C26: writing the filter file: an empty write panics; a text that starts
    with 0 removes the filter; any other UTF-8 text is compiled against the
    schema of the tracepoint, and either becomes both the installed filter
    and what the file reads back, or removes the filter, fails with
    [compile error] and leaves the message as the contents of the file.  The
    registered callbacks never change, and the file and the runtime state
    agree afterwards. *)
Theorem filter_write_correct {D} `{Render} f (e : ExtTracePoint D) s :
  utf8 s →
  match filter_write f e s with
  | Ok (f', e', r) =>
      s ≠ [] ∧ filter_agrees f' e' ∧
      tracepoint e' = tracepoint e ∧ callbacks e' = callbacks e ∧ default_callback e' = default_callback e ∧
      (head s = Some (ch "0") → r = Ok () ∧ compiled_expr e' = None ∧ filter_read f' = bs "none" ++ [10]) ∧
      (head s ≠ Some (ch "0") →
       match compile_with_schema s (tp_schema (tracepoint e)) with
       | Ok c => r = Ok () ∧ compiled_expr e' = Some c ∧ filter_read f' = s
       | Err er => r = Err (bs "compile error") ∧ compiled_expr e' = None ∧
                   filter_read f' = render (pe_message er) ++ [10]
       | _ => False
       end)
  | Panic => s = []
  | _ => False
  end.
Proof.
  intros Hu. pose proof (compile_safe s (tp_schema (tracepoint e)) Hu) as Hc.
  unfold filter_write. destruct s as [|x s]; simpl; [done|].
  destruct (Z.eqb_spec x (ch "0")) as [->|Hx]; simpl.
  - split_and!; try done.
  - destruct (compile_with_schema (x :: s) _) as [c|er| |] eqn:Hcomp; simpl in *; try done; split_and!; try done; try congruence.
    unfold filter_agrees. simpl. split; [done|]. exists c. by rewrite Hcomp.
Qed.

Definition demo_tp `{BuildMode} : TracePoint :=
  TracePoint_new 1 1 (bs "sched_switch") (bs "sched") (λ _, []) [] demo_schema.
Definition demo_ext `{BuildMode} : ExtTracePoint () :=
  ExtTracePoint_new demo_tp {| arc_ptr := 9; arc_val := {| df_func := 1; df_data := () |} |}.

Lemma filter_write_correct_witness :
  let _ : BuildMode := true in
  let _ : Render := λ _, bs "error" in
  utf8 (bs "sig > 1") ∧
  match filter_write TraceFilterFile_new demo_ext (bs "sig > 1") with
  | Ok (f', e', _) => filter_read f' = bs "sig > 1" ∧ is_Some (compiled_expr e')
  | _ => False
  end.
Proof.
  intros m r.
  assert (utf8 (bs "sig > 1")) as Hu by (apply (utf8b_sound 8); [vm_compute; lia | vm_compute; reflexivity]).
  split; [exact Hu|]. pose proof (filter_write_correct TraceFilterFile_new demo_ext (bs "sig > 1") Hu) as Ht.
  destruct (filter_write TraceFilterFile_new demo_ext (bs "sig > 1")) as [[[f' e'] q]| | |]; try exact Ht; try discriminate Ht.
  destruct Ht as (_ & _ & _ & _ & _ & _ & Ht).
  assert (∃ c, compile_with_schema (bs "sig > 1") demo_schema = Ok c) as [c Hc].
  { unfold compile_with_schema.
    assert (parse_str (bs "sig > 1") = Ok (NumCmp (bs "sig") {| sp_start := 0; sp_end := 3 |} None NGt 1)) as ->
      by (vm_compute; reflexivity).
    by eexists. }
  change (tp_schema (tracepoint demo_ext)) with demo_schema in Ht. rewrite Hc in Ht.
  destruct Ht as (_ & -> & ->); [discriminate|]. split; [reflexivity|by eexists].
Defined.

(** Initialisation numbers the tracepoints: the section is sorted by
    name and then system, the ids are consecutive from the counter on in that
    order, the map takes exactly these ids to the tracepoints, and every
    runtime state starts without callbacks or filter and with the
    tracepoint's own print function as its default callback. *)
Theorem init_events_correct {K} `{StaticKey K} {D} (unit_data : D) fresh section (st : Store K) next_id :
  NoDup (map meta_addr section) → 0 ≤ next_id → next_id + Z.of_nat (length section) ≤ 2 ^ 32 →
  let '(sec, s) := global_init_events unit_data fresh section st next_id in
  sec ≡ₚ section ∧ Sorted (cmp_le meta_compare) sec ∧
  length (ext_tps s) = length section ∧
  (∀ k m, sec !! k = Some m →
     let i := next_id + Z.of_nat k in
     id (is_store s) (trace_point m) = i ∧ tp_map s !! i = Some (trace_point m) ∧
     ∃ e, ext_tps s !! k = Some e ∧ tracepoint e = trace_point m ∧ callbacks e = [] ∧ compiled_expr e = None ∧
          arc_val (default_callback e) = {| df_func := print_func m; df_data := unit_data |}) ∧
  (∀ i, is_Some (tp_map s !! i) ↔ next_id ≤ i < next_id + Z.of_nat (length section)).
Proof.
  intros Ha H0 Hlen. unfold global_init_events.
  pose proof (sort_by_perm meta_compare section) as Hp.
  pose proof (sort_by_sorted meta_compare section meta_compare_antisym) as Hs.
  set (sec := sort_by meta_compare section) in *. rewrite <- Hp in Ha. rewrite <- (Permutation_length Hp) in *.
  destruct (init_loop_spec unit_data fresh sec {| is_store := st; is_next_id := next_id; tp_map := ∅; ext_tps := [] |} Ha H0 Hlen)
    as (H1 & _ & _ & H4 & H5). cbv zeta in *. simpl in *.
  split_and!; try done.
  - rewrite H5. by rewrite length_fmap.
  - intros k m Hk. pose proof (lookup_lt_Some _ _ _ Hk) as Hlt. split_and!; [by apply H1| |].
    + rewrite H4, decide_True by lia. replace (Z.to_nat _) with k by lia. by rewrite Hk.
    + exists (ext_of unit_data fresh m). rewrite H5. by rewrite list_lookup_fmap, Hk.
  - intros i. rewrite H4. case_decide as Hi.
    + destruct (lookup_lt_is_Some_2 sec (Z.to_nat (i - next_id))) as [m ->]; [lia|]. by split; [|eexists].
    + split; [by intros []|done].
Qed.

Definition demo_meta (a : Z) (name : string) : Meta :=
  {| trace_point := TracePoint_new a a (bs name) (bs "sys") (λ _, []) [] []; print_func := a |}.
Definition demo_store : Store bool := {| st_id _ := 0; st_key _ := false; st_perf _ := false |}.
Definition demo_section : list Meta := [demo_meta 10 "write"; demo_meta 20 "open"; demo_meta 30 "read"].

Lemma init_events_correct_witness :
  let s := (global_init_events () meta_addr demo_section demo_store 5).2 in
  id (is_store s) (trace_point (demo_meta 20 "open")) = 5 ∧ is_Some (tp_map s !! 7) ∧ ¬ is_Some (tp_map s !! 8).
Proof.
  assert (NoDup [10; 20; 30]) as Hnd by (apply (bool_decide_eq_true_1 (NoDup [10; 20; 30])); vm_compute; reflexivity).
  pose proof (init_events_correct () meta_addr demo_section demo_store 5 Hnd ltac:(lia) ltac:(vm_compute; discriminate)) as Ht.
  destruct (global_init_events () meta_addr demo_section demo_store 5) as [sec s] eqn:Hg. cbv zeta. simpl.
  destruct Ht as (_ & _ & _ & Hk & Hi).
  split; [|split].
  - refine (proj1 (Hk 0%nat (demo_meta 20 "open") _)). apply (f_equal fst) in Hg. simpl in Hg. rewrite <- Hg. reflexivity.
  - apply Hi. simpl. lia.
  - intros Hs%Hi. simpl in Hs. lia.
Defined.

(** C23: the branch of a tracepoint is on exactly while somebody listens:
    from initialisation on, whatever callbacks are registered and
    unregistered, directly or through the enable files, whatever filters are
    written and whichever event callbacks are enabled, every tracepoint's
    static key is enabled iff its list of callbacks is not empty, no callback
    is listed twice, and it is found under its own id. *)
Theorem tracepoint_key_invariant {K} `{StaticKeyLaws K} {D} (unit_data : D) fresh section (st : Store K) next_id s :
  NoDup (map meta_addr section) → NoDup (map meta_key section) →
  0 ≤ next_id → next_id + Z.of_nat (length section) ≤ 2 ^ 32 →
  (∀ m, m ∈ section → key_is_enabled st (trace_point m) = false) →
  rtc sys_step (install (global_init_events unit_data fresh section st next_id).2) s →
  ∀ i e, sy_states s !! i = Some e →
    key_is_enabled (sy_store s) (tracepoint e) = negb (is_empty (callbacks e)) ∧
    distinct (callbacks e) ∧ id (sy_store s) (tracepoint e) = i.
Proof.
  intros Ha Hk Hn Hlen Hdis Hrtc.
  pose proof (init_sys_ok unit_data fresh section st next_id Ha Hk Hn Hlen Hdis) as Hok.
  assert (sys_ok s) as [Hext Hid _].
  { clear - Hrtc Hok H0. revert Hok. induction Hrtc as [|x y z Hxy _ IH]; [done|].
    intros Hok. by eapply IH, sys_step_ok. }
  intros i e Hi. destruct (Hext _ _ Hi) as [? ?]. split_and!; [done..|by apply Hid].
Qed.

(** Enabling the tracepoint with id 1 through its enable file. *)
Definition demo_sys : Sys := install (global_init_events () meta_addr demo_section demo_store 0).2.
Definition demo_enable (e : ExtTracePoint ()) : Sys :=
  {| sy_store := (enable_write (sy_store demo_sys) e (ch "1")).1;
     sy_states := <[1 := (enable_write (sy_store demo_sys) e (ch "1")).2]> (sy_states demo_sys) |}.

Lemma tracepoint_key_invariant_witness :
  ∃ e, sy_states demo_sys !! 1 = Some e ∧ rtc sys_step demo_sys (demo_enable e) ∧
    key_is_enabled (sy_store (demo_enable e)) (tracepoint e) = true.
Proof.
  assert (NoDup [10; 20; 30]) as Hnd by (apply (bool_decide_eq_true_1 (NoDup [10; 20; 30])); vm_compute; reflexivity).
  destruct (sy_states demo_sys !! 1) as [e|] eqn:He; [|exfalso; revert He; vm_compute; discriminate].
  exists e. split; [reflexivity|].
  assert (rtc sys_step demo_sys (demo_enable e)) as Hstep.
  { apply rtc_once. unfold demo_enable. destruct demo_sys as [st m]. simpl in *.
    by apply (SysEnableWrite st m 1 e (ch "1")). }
  split; [exact Hstep|].
  pose proof (tracepoint_key_invariant () meta_addr demo_section demo_store 0 (demo_enable e) Hnd Hnd
    ltac:(lia) ltac:(vm_compute; discriminate)) as Ht.
  specialize (Ht ltac:(intros; reflexivity) Hstep 1 (enable_write (sy_store demo_sys) e (ch "1")).2).
  unfold demo_enable in Ht at 1. simpl in Ht. rewrite lookup_insert_eq in Ht.
  destruct (Ht eq_refl) as [Hkey _]. simpl.
  revert He Hkey. unfold register. destruct (existsb _ _) eqn:Hex; simpl; intros He ->;
    (destruct (callbacks e); [reflexivity || discriminate Hex | reflexivity]).
Defined.
