(* ===== verification/TraceEventProps.v ===== *)
(** Properties of generated tracepoints: their memory layout, the filter on
    the fields of the event, and the printing of the recorded bytes. *)
From stdpp Require Import functions.
From S2P Require Import Prelude Text IntLit Lexer Parser Glob Eval StaticKey TracePoint TracePipe TraceFs TraceEvent.

(** ** Layout *)
Definition wf_field (f : FieldDecl) : Prop := 0 < fl_align f ∧ 0 ≤ fl_size f.

Lemma align_up_bounds n a : 0 < a → n ≤ align_up n a < n + a.
Proof.
  intros Ha. unfold align_up. pose proof (Z.div_mod (n + a - 1) a ltac:(lia)).
  pose proof (Z.mod_pos_bound (n + a - 1) a Ha). lia.
Qed.

(** Non-overlapping intervals in order between [lo] and [hi]. *)
Fixpoint spaced (lo : Z) (offs sizes : list Z) (hi : Z) : Prop :=
  match offs, sizes with
  | [], [] => lo ≤ hi
  | o :: offs, n :: sizes => lo ≤ o ∧ spaced (o + n) offs sizes hi
  | _, _ => False
  end.

Lemma spaced_field_offsets fs : ∀ off,
  Forall wf_field fs → spaced off (field_offsets off fs) (map fl_size fs) (fields_end off fs).
Proof.
  induction fs as [|f fs IH]; intros off Hwf; simpl; [lia|].
  apply Forall_cons in Hwf as [[Ha Hn] Hwf]. split; [by apply align_up_bounds|]. by apply IH.
Qed.
Lemma spaced_shift k offs : ∀ lo sizes hi,
  spaced lo offs sizes hi → spaced (k + lo) (map (Z.add k) offs) sizes (k + hi).
Proof.
  induction offs as [|o offs IH]; intros lo [|n sizes] hi; simpl; try done; [lia|].
  intros [H1 H2]. split; [lia|]. apply IH in H2. by rewrite <- Z.add_assoc.
Qed.
Lemma spaced_weaken offs : ∀ lo sizes hi hi', hi ≤ hi' → spaced lo offs sizes hi → spaced lo offs sizes hi'.
Proof.
  induction offs as [|o offs IH]; intros lo [|n sizes] hi hi' Hle; simpl; try done; [lia|].
  intros [H1 H2]. split; [done|]. by eapply IH.
Qed.
Lemma spaced_weaken_lo offs lo lo' sizes hi : lo' ≤ lo → spaced lo offs sizes hi → spaced lo' offs sizes hi.
Proof. destruct offs, sizes; simpl; try done; intros; [lia|]. intuition lia. Qed.
Lemma spaced_end offs : ∀ lo sizes hi, Forall (Z.le 0) sizes → spaced lo offs sizes hi → lo ≤ hi.
Proof.
  induction offs as [|o offs IH]; intros lo [|n sizes] hi Hs; simpl; try done.
  apply Forall_cons in Hs as [Hn Hs]. intros [H1 H2]. apply IH in H2; [lia|done].
Qed.

Lemma struct_align_pos fs : 1 ≤ struct_align fs.
Proof. unfold struct_align. induction fs as [|f fs IH]; simpl; lia. Qed.

(** The fields of the event lie after the header, apart, inside the record. *)
Lemma spaced_full fs :
  Forall wf_field fs → spaced TRACE_ENTRY_SIZE (full_offsets fs) (map fl_size fs) (full_size fs).
Proof.
  intros Hwf. pose proof (struct_align_pos fs) as Ha.
  apply (spaced_weaken_lo _ (entry_offset fs + 0)).
  { unfold entry_offset. pose proof (align_up_bounds TRACE_ENTRY_SIZE (struct_align fs)). lia. }
  eapply spaced_weaken; [|by apply spaced_shift, spaced_field_offsets].
  unfold full_size, entry_size.
  pose proof (align_up_bounds (fields_end 0 fs) (struct_align fs) ltac:(lia)).
  pose proof (align_up_bounds (entry_offset fs + align_up (fields_end 0 fs) (struct_align fs))
    (Z.max 4 (struct_align fs)) ltac:(lia)). lia.
Qed.

Lemma full_size_ge fs : Forall wf_field fs → 8 ≤ full_size fs.
Proof.
  intros Hwf. apply (spaced_end (full_offsets fs) _ (map fl_size fs)); [|by apply spaced_full].
  apply Forall_fmap. eapply Forall_impl; [exact Hwf|]. by intros f [_ ?].
Qed.

(** ** Bytes *)
Definition sizes_of (values : list str) : list Z := map (λ v, Z.of_nat (length v)) values.

Lemma sizes_of_nonneg values : Forall (Z.le 0) (sizes_of values).
Proof. apply Forall_fmap, Forall_forall. simpl. intros. lia. Qed.

Lemma write_fields_spec offs : ∀ lo values buf,
  0 ≤ lo → spaced lo offs (sizes_of values) (Z.of_nat (length buf)) →
  length (write_fields buf offs values) = length buf ∧
  (∀ a b, (b ≤ Z.to_nat lo)%nat → slice (write_fields buf offs values) a b = slice buf a b) ∧
  (∀ i o v, offs !! i = Some o → values !! i = Some v →
     lo ≤ o ∧ slice (write_fields buf offs values) (Z.to_nat o) (Z.to_nat o + length v) = Some v).
Proof.
  induction offs as [|o offs IH]; intros lo [|v values] buf Hlo; simpl; try done.
  intros [H1 H2]. pose proof (spaced_end _ _ _ _ (sizes_of_nonneg values) H2) as Hend.
  assert (length (splice buf (Z.to_nat o) v) = length buf) as Hlen by (apply length_splice; lia).
  destruct (IH (o + Z.of_nat (length v)) values (splice buf (Z.to_nat o) v)) as (IH1 & IH2 & IH3);
    [lia|by rewrite Hlen|].
  split_and!.
  - by rewrite IH1.
  - intros a b Hb. rewrite IH2 by lia. apply slice_splice_other; lia.
  - intros [|i] o' v'; simpl.
    + intros [= ->] [= ->]. split; [done|]. rewrite IH2 by lia. apply slice_splice_same. lia.
    + intros Ho Hv. destruct (IH3 i o' v' Ho Hv). split; [lia|done].
Qed.

Lemma slice_app_eq {A} (l : list A) a b s :
  slice l a b = Some s → l = take a l ++ s ++ drop b l ∧ length (take a l) = a ∧ b = (a + length s)%nat.
Proof.
  intros (Hab & -> & Hl)%slice_inv. rewrite length_take. split_and!; [|lia|lia].
  assert (drop b l = drop (b - a) (drop a l)) as -> by (rewrite drop_drop; f_equal; lia).
  by rewrite take_drop, take_drop.
Qed.

Lemma slice_split {A} (l : list A) a b s :
  slice l a b = Some s → ∃ pre post, l = pre ++ s ++ post ∧ length pre = a.
Proof. intros (Hl & Ha & _)%slice_app_eq. eauto. Qed.

Lemma length_TraceEntry_bytes e : length (TraceEntry_bytes e) = 8%nat.
Proof. unfold TraceEntry_bytes. by rewrite !length_app, !length_le_enc. Qed.

(** Where everything is in a recorded event. *)
Lemma full_entry_spec pad fs common values :
  Forall wf_field fs → sizes_of values = map fl_size fs →
  let b := full_entry pad fs common values in
  Z.of_nat (length b) = full_size fs ∧
  (∃ payload, b = TraceEntry_bytes common ++ payload) ∧
  (∀ i o v, full_offsets fs !! i = Some o → values !! i = Some v →
     8 ≤ o ∧ slice b (Z.to_nat o) (Z.to_nat o + length v) = Some v).
Proof.
  intros Hwf Hsz b. pose proof (full_size_ge fs Hwf) as Hge. pose proof (spaced_full fs Hwf) as Hsp.
  rewrite <- Hsz in Hsp. subst b. unfold full_entry.
  set (buf0 := map pad (seq 0 (Z.to_nat (full_size fs)))).
  assert (length buf0 = Z.to_nat (full_size fs)) as H0 by (subst buf0; by rewrite length_map, length_seq).
  assert (length (splice buf0 0 (TraceEntry_bytes common)) = length buf0) as Hl.
  { apply length_splice. rewrite length_TraceEntry_bytes. lia. }
  destruct (write_fields_spec (full_offsets fs) TRACE_ENTRY_SIZE values (splice buf0 0 (TraceEntry_bytes common)))
    as (H1 & H2 & H3); [unfold TRACE_ENTRY_SIZE; lia|rewrite Hl, H0; by rewrite Z2Nat.id by lia|].
  split_and!; [rewrite H1, Hl, H0; lia| |exact H3].
  specialize (H2 0%nat 8%nat ltac:(unfold TRACE_ENTRY_SIZE; lia)).
  pose proof (slice_splice_same buf0 0 (TraceEntry_bytes common)) as Hs.
  rewrite length_TraceEntry_bytes in Hs. simpl in Hs. rewrite Hs in H2 by lia.
  apply slice_app_eq in H2 as (-> & _ & _). simpl. by eexists.
Qed.

Lemma TraceEntry_read_bytes e rest :
  0 ≤ common_type e < 2 ^ 16 → 0 ≤ common_flags e < 2 ^ 8 → 0 ≤ common_preempt_count e < 2 ^ 8 →
  - 2 ^ 31 ≤ common_pid e < 2 ^ 31 →
  TraceEntry_read (TraceEntry_bytes e ++ rest) = e.
Proof.
  destruct e as [ty fl pc pid].
  cbn [common_type common_flags common_preempt_count common_pid]. intros H1 H2 H3 H4. unfold TraceEntry_read, TraceEntry_bytes.
  assert (∀ n z r, take n (le_enc n z ++ r) = le_enc n z) as Ht by (intros; by rewrite take_app_length' by (by rewrite length_le_enc)).
  assert (∀ n z r, drop n (le_enc n z ++ r) = r) as Hd by (intros; by rewrite drop_app_length' by (by rewrite length_le_enc)).
  cbn [common_type common_flags common_preempt_count common_pid]. rewrite <- !app_assoc. f_equal.
  - rewrite Ht, le_dec_enc. by apply Z.mod_small.
  - rewrite Hd, Ht, le_dec_enc. by apply Z.mod_small.
  - rewrite <- (drop_drop _ 1 2), Hd, Hd, Ht, le_dec_enc. by apply Z.mod_small.
  - rewrite <- (drop_drop _ 2 2), Hd, <- (drop_drop _ 1 1), Hd, Hd, Ht, le_dec_enc.
    change (2 ^ (8 * Z.of_nat 4)) with (2 ^ 32).
    assert (wraps 32 (pid mod 2 ^ 32) = wraps 32 pid) as -> by (unfold wraps; by rewrite Zplus_mod_idemp_l).
    by apply wraps_small.
Qed.

(** ** Field values *)
Inductive field_value := VInt (t : ITy) (v : Z) | VBytes (b : str).
Definition value_bytes (v : field_value) : str :=
  match v with VInt t z => to_ne_bytes t z | VBytes b => b end.

(** The bytes before the first NUL. *)
Fixpoint until_nul (b : str) : str :=
  match b with [] => [] | x :: b => if x =? 0 then [] else x :: until_nul b end.
Lemma until_nul_spec b : (0 ∉ until_nul b) ∧ (∃ z, b = until_nul b ++ z ∧ (head z = None ∨ head z = Some 0)).
Proof.
  induction b as [|x b (IH & z & Hz & Hh)]; simpl; [split; [set_solver|]; exists []; auto|].
  destruct (Z.eqb_spec x 0) as [->|Hx]; [split; [set_solver|]; exists (0 :: b); auto|].
  split; [set_solver|]. exists z. simpl. by rewrite <- Hz.
Qed.

Section reading.
Context `{BuildMode}.

(** A value of the type of its field; integers are in the range in which the
    filter sees them exactly. *)
Definition value_ok (f : FieldDecl) (v : field_value) : Prop :=
  match v with
  | VInt t z => fl_ty f = RInt t ∧ in_ty t z ∧ is_i64 z ∧ fl_size f = size_of t
  | VBytes b => FIELD_TYPE (fl_ty f) = Bytes ∧ Z.of_nat (length b) = fl_size f
  end.

(** A field of the record with its offset and value. *)
Record Cell := { ce_decl : FieldDecl; ce_off : Z; ce_val : field_value }.
Definition cell_field (c : Cell) : Field :=
  {| fd_name := fl_name (ce_decl c); fd_type := FIELD_TYPE (fl_ty (ce_decl c)); fd_offset := ce_off c;
     fd_len := fl_size (ce_decl c) |}.
Definition cell_ok (buffer : str) (c : Cell) : Prop :=
  value_ok (ce_decl c) (ce_val c) ∧ 0 ≤ ce_off c ∧
  slice buffer (Z.to_nat (ce_off c)) (Z.to_nat (ce_off c) + length (value_bytes (ce_val c))) =
    Some (value_bytes (ce_val c)).

(** The values a filter talks about: the first field of a name counts. *)
Fixpoint cell_value (cells : list Cell) (name : str) : option field_value :=
  match cells with
  | [] => None
  | c :: cells => if decide (fl_name (ce_decl c) = name) then Some (ce_val c) else cell_value cells name
  end.
Definition cells_num (cells : list Cell) (name : str) : option Z :=
  match cell_value cells name with Some (VInt _ z) => Some z | _ => None end.
Definition cells_bytes (cells : list Cell) (name : str) : option str :=
  match cell_value cells name with Some (VBytes b) => Some (until_nul b) | _ => None end.

Lemma schema_get_cells cells name t off len :
  schema_get (map cell_field cells) name = Some (t, off, len) →
  ∃ c, c ∈ cells ∧ cell_value cells name = Some (ce_val c) ∧
       t = FIELD_TYPE (fl_ty (ce_decl c)) ∧ off = ce_off c ∧ len = fl_size (ce_decl c).
Proof.
  induction cells as [|c cells IH]; simpl; [done|]. case_decide.
  - intros [= <- <- <-]. exists c. set_solver.
  - intros (c' & Hin & Hc)%IH. exists c'. set_solver.
Qed.

Lemma seen_i64 t v : in_ty t v → is_i64 v → seen t v = Ok v.
Proof.
  intros Hv Hi. destruct t as [p| | |p]; simpl; rewrite as_i64_small by done; try done.
  destruct Hv as [_ Hv]. by rewrite (proj2 (Z.eqb_neq _ _) Hv).
Qed.

Lemma length_value_bytes f v : value_ok f v → Z.of_nat (length (value_bytes v)) = fl_size f.
Proof.
  destruct v as [t z|b]; simpl; [intros (_ & _ & _ & ->)|by intros []].
  unfold to_ne_bytes. rewrite length_le_enc. pose proof (size_of_range t). lia.
Qed.

(** Every field a well-typed filter compares is read from the buffer. *)
Lemma cells_read cells buffer e :
  Forall (cell_ok buffer) cells → Z.of_nat (length buffer) < 2 ^ 64 →
  well_typed (map cell_field cells) e →
  reads (cells_num cells) (cells_bytes cells) {| buf := buffer; bc_schema := map cell_field cells |} e.
Proof.
  intros Hok Hlen. rewrite Forall_forall in Hok.
  induction e as [l IHl r IHr|l IHl r IHr|f sp m op rhs|f sp op p|e IH]; simpl; [naive_solver| naive_solver| | |done].
  - intros (conv & off & len & Hg & _). unfold BufContext_get_integer. simpl. rewrite Hg.
    destruct (schema_get_cells _ _ _ _ _ Hg) as (c & Hin & Hc & Ht & -> & ->).
    destruct (Hok _ Hin) as (Hv & H0 & Hs). unfold cells_num. rewrite Hc.
    destruct (ce_val c) as [t z|b]; simpl in *; [|destruct Hv; congruence].
    destruct Hv as (Hty & Hz & Hi & ->). rewrite Hty in Ht. simpl in Ht. simplify_eq. simpl.
    rewrite Z.eqb_refl. apply slice_split in Hs as (pre & post & Hb & Hpre). rewrite Hb in Hlen |- *.
    replace (ce_off c) with (Z.of_nat (length pre)) by lia. rewrite read_int by done. by rewrite seen_i64.
  - intros (off & len & Hg). unfold BufContext_get_str_bytes. simpl. rewrite Hg.
    destruct (schema_get_cells _ _ _ _ _ Hg) as (c & Hin & Hc & Ht & -> & ->).
    destruct (Hok _ Hin) as (Hv & H0 & Hs). unfold cells_bytes. rewrite Hc.
    destruct (ce_val c) as [t z|b]; simpl in *; [destruct Hv as (Hty & _); rewrite Hty in Ht; done|].
    destruct Hv as (_ & <-). apply slice_split in Hs as (pre & post & Hb & Hpre). rewrite Hb in Hlen |- *.
    destruct (until_nul_spec b) as (Hn & z & Hz & Hh). replace (ce_off c) with (Z.of_nat (length pre)) by lia.
    generalize dependent (until_nul b). intros b' Hn Hz. subst b. by rewrite read_str.
Qed.
End reading.

(** ** The event *)
Section event.
Context `{BuildMode} {K : Type} `{StaticKey K} {D A R : Type} `{TracepointStates R D}.

Definition common_of (st : Store K) (ev : EventDef A) (pid : Z) : TraceEntry :=
  {| common_type := wrapu 16 (id st (ev_tp ev)); common_flags := tp_flags (ev_tp ev);
     common_preempt_count := 0; common_pid := wraps 32 pid |}.

(** The header fields, as fields of the record. *)
Definition common_cell (name : string) (ty : ITy) (off v : Z) : Cell :=
  {| ce_decl := {| fl_name := bs name; fl_text := []; fl_type_name := []; fl_ty := RInt ty;
                   fl_size := size_of ty; fl_align := 1 |};
     ce_off := off; ce_val := VInt ty v |}.
Definition event_cells (fs : list FieldDecl) (common : TraceEntry) (vals : list field_value) : list Cell :=
  [ common_cell "common_type" (TPrim U16) 0 (common_type common);
    common_cell "common_flags" (TPrim U8) 2 (common_flags common);
    common_cell "common_preempt_count" (TPrim U8) 3 (common_preempt_count common);
    common_cell "common_pid" (TPrim I32) 4 (common_pid common) ] ++
  zip_with (λ fo v, {| ce_decl := fo.1; ce_off := fo.2; ce_val := v |}) (zip fs (full_offsets fs)) vals.

Lemma length_field_offsets fs : ∀ off, length (field_offsets off fs) = length fs.
Proof. induction fs as [|f fs IH]; intros off; simpl; [done|]. by rewrite IH. Qed.
Lemma length_full_offsets fs : length (full_offsets fs) = length fs.
Proof. unfold full_offsets. by rewrite length_map, length_field_offsets. Qed.

Lemma event_cells_schema fs common vals :
  length vals = length fs → map cell_field (event_cells fs common vals) = event_schema fs.
Proof.
  intros Hl. unfold event_cells, event_schema. rewrite map_app. simpl. do 4 f_equal.
  pose proof (length_full_offsets fs) as Ho. revert Ho. generalize (full_offsets fs). revert vals Hl.
  induction fs as [|f fs IH]; intros [|v vals] Hl [|o offs] Ho; simpl in *; try done.
  f_equal. apply IH; lia.
Qed.

Lemma common_cell_ok buffer name ty off v pre post :
  in_ty ty v → is_i64 v → buffer = pre ++ to_ne_bytes ty v ++ post → off = Z.of_nat (length pre) →
  cell_ok buffer (common_cell name ty off v).
Proof.
  intros Hv Hi -> ->. split; [done|]. split; [simpl; lia|]. simpl. rewrite Nat2Z.id. apply slice_app_mid.
Qed.

Lemma event_cells_ok pad fs common vals :
  Forall wf_field fs → Forall2 value_ok fs vals →
  0 ≤ common_type common < 2 ^ 16 → 0 ≤ common_flags common < 2 ^ 8 → 0 ≤ common_preempt_count common < 2 ^ 8 →
  - 2 ^ 31 ≤ common_pid common < 2 ^ 31 →
  Forall (cell_ok (full_entry pad fs common (map value_bytes vals))) (event_cells fs common vals).
Proof.
  intros Hwf Hvals Hc1 Hc2 Hc3 Hc4.
  assert (sizes_of (map value_bytes vals) = map fl_size fs) as Hsz.
  { clear - Hvals. induction Hvals as [|f v fs vals Hv _ IH]; simpl; [done|].
    f_equal; [by apply length_value_bytes|exact IH]. }
  destruct (full_entry_spec pad fs common (map value_bytes vals) Hwf Hsz) as (_ & (payload & Hb) & Hf).
  set (b := full_entry _ _ _ _) in *. unfold event_cells. apply Forall_app. split.
  - unfold TraceEntry_bytes in Hb. rewrite <- !app_assoc in Hb.
    set (t := le_enc 2 (common_type common)) in *. set (f := le_enc 1 (common_flags common)) in *.
    set (p := le_enc 1 (common_preempt_count common)) in *.
    assert (∀ v, - 2 ^ 31 ≤ v < 2 ^ 31 → is_i64 v) as Hi by (unfold is_i64, i64_min, i64_max; lia).
    rewrite !Forall_cons. split_and!; [| | | |constructor].
    + by eapply (common_cell_ok _ _ _ _ _ []); [|apply Hi; lia|exact Hb|].
    + eapply (common_cell_ok _ _ _ _ _ t); [done|apply Hi; lia|exact Hb|]. subst t. by rewrite length_le_enc.
    + eapply (common_cell_ok _ _ _ _ _ (t ++ f)); [done|apply Hi; lia|rewrite Hb; by rewrite <- !app_assoc|].
      subst t f. by rewrite length_app, !length_le_enc.
    + eapply (common_cell_ok _ _ _ _ _ (t ++ f ++ p)); [exact Hc4|apply Hi; lia|rewrite Hb; by rewrite <- !app_assoc|].
      subst t f p. by rewrite !length_app, !length_le_enc.
  - apply Forall_lookup. intros i c Hc.
    apply lookup_zip_with_Some in Hc as (fo & v & -> & (f & o & -> & Hfi & Ho)%lookup_zip_with_Some & Hv).
    simpl in *. destruct (Hf i o (value_bytes v) Ho) as [Hge Hs]; [by rewrite list_lookup_fmap, Hv|].
    split; [|split]; simpl; [|lia|done].
    by apply (Forall2_lookup_lr _ _ _ _ _ _ Hvals Hfi Hv).
Qed.

(** What a callback does when the filter lets the event through or not. *)
Definition effects_of (st : Store K) pad (ev : EventDef A) pid args (keep : bool) (cb : TraceCallbackType D) : list (Effect D A) :=
  let b := event_buf_of st pad ev pid args in
  match cb with
  | Default f =>
      if df_func (arc_val f) =? ev_default ev then (if keep then [CmdlinePush pid; PipePush b] else [])
      else [CallDefault (df_func (arc_val f)) (df_data (arc_val f)) args]
  | Event f => if perf_enabled st (arc_val f) then [CallEvent (ef_func (arc_val f)) (ef_data (arc_val f)) b] else []
  | RawEvent f => [CallRaw (rf_func (arc_val f)) (rf_data (arc_val f)) (map as_u64 (ev_args ev args))]
  end.

Lemma run_callbacks_spec st pad (ev : EventDef A) (ext : ExtTracePoint D) pid args keep cbs :
  match compiled_expr ext with
  | Some c => evaluate c {| buf := event_buf_of st pad ev pid args; bc_schema := tp_schema (ev_tp ev) |} = Ok keep
  | None => keep = true
  end →
  run_callbacks st pad ev ext pid args cbs = Ok (cbs ≫= effects_of st pad ev pid args keep).
Proof.
  intros Hk. induction cbs as [|cb cbs IH]; [done|]. cbn [run_callbacks]. rewrite IH, bind_cons.
  assert (run_callback st pad ev ext pid args cb = Ok (effects_of st pad ev pid args keep cb)) as ->; [|done].
  destruct cb as [f|f|f]; simpl; try done. unfold default_handler, trace_default.
  destruct (df_func (arc_val f) =? ev_default ev); [|done].
  destruct (compiled_expr ext) as [c|]; [rewrite Hk|rewrite Hk]; simpl; by destruct keep.
Qed.

(** The event an [EventDef] describes: its static has the schema of its
    fields, and the assignments produce values of the declared types. *)
Record event_ok (ev : EventDef A) (args : A) (vals : list field_value) : Prop := {
  eo_schema : tp_schema (ev_tp ev) = event_schema (ev_fields ev);
  eo_wf : Forall wf_field (ev_fields ev);
  eo_vals : Forall2 value_ok (ev_fields ev) vals;
  eo_assign : ev_assign ev args = map value_bytes vals;
  eo_flags : 0 ≤ tp_flags (ev_tp ev) < 2 ^ 8;
  eo_size : full_size (ev_fields ev) < 2 ^ 64;
}.

Lemma common_of_range (st : Store K) (ev : EventDef A) pid args vals :
  event_ok ev args vals →
  let c := common_of st ev pid in
  0 ≤ common_type c < 2 ^ 16 ∧ 0 ≤ common_flags c < 2 ^ 8 ∧ 0 ≤ common_preempt_count c < 2 ^ 8 ∧
  - 2 ^ 31 ≤ common_pid c < 2 ^ 31.
Proof.
  intros Hok. pose proof (wrapu_range 16 (id st (ev_tp ev)) ltac:(lia)).
  pose proof (wraps_range 32 pid ltac:(lia)). pose proof (eo_flags _ _ _ Hok). simpl. lia.
Qed.

Lemma sizes_of_values fs vals : Forall2 value_ok fs vals → sizes_of (map value_bytes vals) = map fl_size fs.
Proof.
  intros Hv. induction Hv as [|f v fs vals Hv _ IH]; simpl; [done|].
  f_equal; [by apply length_value_bytes|exact IH].
Qed.

(** The filter sees the values of the event. *)
Lemma event_filter st pad (ev : EventDef A) pid args vals s c :
  event_ok ev args vals → compile_with_schema s (tp_schema (ev_tp ev)) = Ok c →
  let cells := event_cells (ev_fields ev) (common_of st ev pid) vals in
  ∃ keep, evaluate c {| buf := event_buf_of st pad ev pid args; bc_schema := tp_schema (ev_tp ev) |} = Ok keep ∧
    (keep = true ↔ default True (holds (cells_num cells) (cells_bytes cells) (cp_expr c))).
Proof.
  intros Hok Hc cells. destruct (compile_ok _ _ _ Hc) as (Hs & Hwt & _).
  destruct (common_of_range st ev pid args vals Hok) as (H1' & H2' & H3' & H4').
  pose proof (eo_vals _ _ _ Hok) as Hv. pose proof (Forall2_length _ _ _ Hv) as Hl.
  pose proof (event_cells_ok pad _ _ _ (eo_wf _ _ _ Hok) Hv H1' H2' H3' H4') as Hcells.
  destruct (full_entry_spec pad _ (common_of st ev pid) _ (eo_wf _ _ _ Hok) (sizes_of_values _ _ Hv)) as (Hlen & _).
  fold cells in Hcells. unfold event_buf_of. rewrite (eo_assign _ _ _ Hok).
  fold (common_of st ev pid). set (b := full_entry _ _ _ _) in *.
  assert (tp_schema (ev_tp ev) = map cell_field cells) as Hsch.
  { rewrite (eo_schema _ _ _ Hok). symmetry. by apply event_cells_schema. }
  rewrite Hsch in *. rewrite <- ?Hs in Hwt.
  assert (well_typed (map cell_field cells) (cp_expr c)) as Hwt' by congruence.
  pose proof (cells_read cells b _ Hcells ltac:(rewrite Hlen; apply (eo_size _ _ _ Hok)) Hwt') as Hr.
  rewrite <- Hs in Hwt'.
  destruct (eval_expr_spec {| buf := b; bc_schema := map cell_field cells |} _ _ _ _ Hwt' Hr) as (t & He & Hm).
  unfold evaluate, try_evaluate. rewrite He. simpl.
  destruct t; destruct (holds _ _ (cp_expr c)) as [p|]; simpl in *; try done; eexists; (split; [done|]); by split.
Qed.
End event.
