(* ===== verification/TraceEventClaims.v ===== *)
(** What a tracepoint does when it is hit, and what its record prints as. *)
From stdpp Require Import functions.
From S2P Require Import Prelude Text IntLit Lexer Parser Glob Eval StaticKey TracePoint TracePipe TraceFs TraceEvent TraceEventProps.

(** C24: hitting a tracepoint: with the key off nothing happens; with the key
    on the callbacks run in registration order, each once, event callbacks
    only when enabled, and the default callback caches the process name and
    pushes the record exactly when the installed filter, compiled against
    the schema the macro generates, holds of the values of the event (in
    memory layout, at the generated offsets), or when no filter is
    installed. *)
Theorem trace_runs_callbacks `{BuildMode} {K} `{StaticKey K} {D A R} `{TracepointStates R D}
    (st : Store K) (states : R) pad (ev : EventDef A) pid args vals (ext : ExtTracePoint D) :
  event_ok ev args vals →
  ts_read states (id st (ev_tp ev)) = Some ext →
  (∀ c, compiled_expr ext = Some c → ∃ s, compile_with_schema s (tp_schema (ev_tp ev)) = Ok c) →
  (key_is_enabled st (ev_tp ev) = false → trace st states pad ev pid args = Ok []) ∧
  (key_is_enabled st (ev_tp ev) = true →
   let cells := event_cells (ev_fields ev) (common_of st ev pid) vals in
   ∃ keep, trace st states pad ev pid args = Ok (callbacks ext ≫= effects_of st pad ev pid args keep) ∧
     (keep = true ↔
      match compiled_expr ext with
      | Some c => default True (holds (cells_num cells) (cells_bytes cells) (cp_expr c))
      | None => True
      end)).
Proof.
  intros Hok Hread Hc. unfold trace. split; intros ->; [done|]. rewrite Hread. simpl.
  destruct (compiled_expr ext) as [c|] eqn:He.
  - destruct (Hc c eq_refl) as [s Hs].
    destruct (event_filter st pad ev pid args vals s c Hok Hs) as (keep & Hk & Hiff).
    exists keep. split; [|done]. apply run_callbacks_spec. by rewrite He.
  - exists true. split; [|done]. apply run_callbacks_spec. by rewrite He.
Qed.

Definition demo_fields : list FieldDecl :=
  [ {| fl_name := bs "n"; fl_text := bs "u8"; fl_type_name := bs "u8"; fl_ty := RInt (TPrim U8);
       fl_size := 1; fl_align := 1 |};
    {| fl_name := bs "a"; fl_text := bs "i32"; fl_type_name := bs "i32"; fl_ty := RInt (TPrim I32);
       fl_size := 4; fl_align := 4 |};
    {| fl_name := bs "comm"; fl_text := bs "[u8; 4]"; fl_type_name := bs "[u8; 4]";
       fl_ty := RArray (RInt (TPrim U8)) 4; fl_size := 4; fl_align := 1 |} ].
Definition demo_values (a : Z) : list field_value :=
  [VInt (TPrim U8) 9; VInt (TPrim I32) a; VBytes (bs "sh" ++ [0; 0])].
Definition demo_event `{BuildMode} : EventDef Z :=
  {| ev_tp := event_tracepoint 1 1 (bs "demo") (bs "test") demo_fields (λ b, b) (bs "x"); ev_default := 77;
     ev_fields := demo_fields; ev_assign a := map value_bytes (demo_values a); ev_args a := [AInt a] |}.
Definition demo_default : TraceCallbackType () :=
  Default {| arc_ptr := 5; arc_val := {| df_func := 77; df_data := () |} |}.
Definition demo_states `{BuildMode} (c : option Compiled) : gmap Z (ExtTracePoint ()) :=
  {[ 0 := {| tracepoint := ev_tp demo_event; callbacks := [demo_default]; compiled_expr := c;
             default_callback := {| arc_ptr := 5; arc_val := {| df_func := 77; df_data := () |} |} |} ]}.
Definition demo_on : Store bool := {| st_id _ := 0; st_key _ := true; st_perf _ := false |}.

Lemma demo_event_ok `{BuildMode} a : - 2 ^ 31 ≤ a < 2 ^ 31 → event_ok demo_event a (demo_values a).
Proof.
  intros Ha. split; try done.
  - unfold demo_fields. repeat (apply Forall_cons; split; [split; simpl; lia|]). constructor.
  - unfold demo_fields, demo_values. constructor; [|constructor; [|constructor; [|constructor]]]; simpl.
    + split_and!; try done; unfold is_i64, i64_min, i64_max; lia.
    + split_and!; try done; unfold is_i64, i64_min, i64_max; lia.
    + done.
Qed.

Lemma trace_runs_callbacks_witness :
  let _ : BuildMode := true in
  ∃ c, compile_with_schema (bs "a < -3 && comm ~ s*") (event_schema demo_fields) = Ok c ∧
    trace demo_on (demo_states (Some c)) (λ _, 170) demo_event 42 (-7) =
      Ok [CmdlinePush 42;
          PipePush ([0; 0; 0; 0; 42; 0; 0; 0] ++ [9; 170; 170; 170; 249; 255; 255; 255] ++ bs "sh" ++ [0; 0])].
Proof.
  intros m.
  assert (∃ e, parse_str (bs "a < -3 && comm ~ s*") = Ok e ∧
    e = And (NumCmp (bs "a") {| sp_start := 0; sp_end := 1 |} None NLt (-3))
            (StrCmp (bs "comm") {| sp_start := 10; sp_end := 14 |} SGlob (bs "s*"))) as (e & He & Hee).
  { eexists. split; vm_compute; reflexivity. }
  set (c := {| cp_expr := e; cp_schema := event_schema demo_fields |}).
  assert (compile_with_schema (bs "a < -3 && comm ~ s*") (event_schema demo_fields) = Ok c) as Hc.
  { unfold compile_with_schema. rewrite He. subst c e. reflexivity. }
  exists c. split; [exact Hc|].
  destruct (trace_runs_callbacks demo_on (demo_states (Some c)) (λ _, 170) demo_event 42 (-7) (demo_values (-7))
    {| tracepoint := ev_tp demo_event; callbacks := [demo_default]; compiled_expr := Some c;
       default_callback := {| arc_ptr := 5; arc_val := {| df_func := 77; df_data := () |} |} |}) as [_ Ht].
  - apply demo_event_ok. clear. split; [discriminate|reflexivity].
  - reflexivity.
  - intros c' [= <-]. by exists (bs "a < -3 && comm ~ s*").
  - destruct (Ht eq_refl) as (keep & -> & Hkeep). rewrite (proj2 Hkeep); [vm_compute; reflexivity|].
    subst c. simpl. rewrite Hee. simpl. split; [vm_compute; reflexivity|].
    destruct (glob_match_decides (bs "s*") (bs "sh")) as (b & Hb & Hg). apply Hg.
    revert Hb. vm_compute. congruence.
Defined.

(** ** Printing *)
Section printing.
Context `{BuildMode} {K : Type} `{StaticKey K} {A C : Type} `{CmdLru C}.

Lemma drop_slice {A'} (l : list A') n a b :
  (n ≤ a ≤ b)%nat → (b ≤ length l)%nat → slice (drop n l) (a - n) (b - n) = slice l a b.
Proof.
  intros Hn Hb. rewrite !slice_some by (rewrite ?length_drop; lia). rewrite drop_drop.
  do 2 f_equal; [lia|]. f_equal. lia.
Qed.

Lemma align_up_divide n a : 0 < a → (a | n) → align_up n a = n.
Proof.
  intros Ha [k ->]. unfold align_up. replace (k * a + a - 1) with ((a - 1) + k * a) by lia.
  rewrite Z.div_add by lia. rewrite Z.div_small by lia. lia.
Qed.

(** The record read back: its header, and the payload, where the entry
    starts when no field is aligned beyond 8 bytes. *)
Lemma event_buf_read (st : Store K) pad (ev : EventDef A) pid args vals :
  event_ok ev args vals →
  let b := event_buf_of st pad ev pid args in
  (8 ≤ length b)%nat ∧ TraceEntry_read b = common_of st ev pid ∧
  ((struct_align (ev_fields ev) | 8) →
   ∀ i o v, field_offsets 0 (ev_fields ev) !! i = Some o → vals !! i = Some v →
     slice (drop 8 b) (Z.to_nat o) (Z.to_nat o + length (value_bytes v)) = Some (value_bytes v)).
Proof.
  intros Hok. destruct (common_of_range st ev pid args vals Hok) as (H1' & H2' & H3' & H4').
  pose proof (eo_vals _ _ _ Hok) as Hv. pose proof (full_size_ge _ (eo_wf _ _ _ Hok)) as Hge.
  destruct (full_entry_spec pad _ (common_of st ev pid) _ (eo_wf _ _ _ Hok) (sizes_of_values _ _ Hv))
    as (Hlen & (payload & Hb) & Hf).
  cbv zeta in *. unfold event_buf_of. rewrite (eo_assign _ _ _ Hok). fold (common_of st ev pid).
  set (b := full_entry _ _ _ _) in *. split_and!; [lia|by rewrite Hb; apply TraceEntry_read_bytes|].
  intros Hal i o v Ho Hvi. pose proof (struct_align_pos (ev_fields ev)).
  assert (full_offsets (ev_fields ev) !! i = Some (8 + o)) as Ho'.
  { unfold full_offsets, entry_offset. rewrite align_up_divide by (done || lia).
    change (map ?f ?l) with (f <$> l). by rewrite list_lookup_fmap, Ho. }
  destruct (Hf i _ (value_bytes v) Ho') as [H8 Hs]; [by rewrite list_lookup_fmap, Hvi|].
  pose proof Hs as (Hb' & _ & _)%slice_inv. rewrite <- Hs. rewrite <- (drop_slice b 8) by lia. f_equal; lia.
Qed.
End printing.

(** The line of a record. *)
Definition record_line (name : option str) (pid cpu ts : Z) (tp : TracePoint) (entry : str) : str :=
  pad_left 16 (ch " ") (default (bs "<...>") name) ++ bs "-" ++
  pad_right 7 (ch " ") (show_i64 (wraps 32 pid)) ++
  bs " [" ++ pad_left 3 (ch "0") (show_u 10 cpu) ++ bs "] ..... " ++
  pad_left 5 (ch " ") (show_u 10 (ts / 1000000000)) ++ bs "." ++
  pad_left 6 (ch "0") (show_u 10 (ts mod 1000000000 / 1000)) ++ bs ": " ++
  tp_name tp ++ bs "(" ++ trace_entry_fmt_func tp entry ++ bs ")" ++ newline.

(** A record prints as the event that made it: a record pushed by a
    tracepoint whose id is below 65536 is printed by [TraceEntryParser] with
    that tracepoint's name, the cached name of the process that hit it (or
    [<...>]), its pid, the record's CPU and time split into seconds and
    microseconds, and the text that the tracepoint's formatter makes of the
    entry, whose fields lie at their [repr(C)] offsets; parsing does not
    panic. *)
Lemma trace_record_prints `{BuildMode} {K} `{StaticKey K} {A C} `{CmdLru C}
    (st : Store K) pad (ev : EventDef A) pid args vals tracepoint_map (cache : TraceCmdLineCache C) name ts cpu :
  event_ok ev args vals → (struct_align (ev_fields ev) | 8) →
  0 ≤ id st (ev_tp ev) < 2 ^ 16 → 0 ≤ pid < 2 ^ 32 →
  tracepoint_map !! id st (ev_tp ev) = Some (ev_tp ev) → get cache pid = Ok name →
  let pipe_record := TracePipeRecord_new ts cpu (event_buf_of st pad ev pid args) in
  ∃ entry,
    TraceEntryParser_parse tracepoint_map cache pipe_record =
      Ok (record_line name pid cpu ts (ev_tp ev) entry) ∧
    ∀ i o v, field_offsets 0 (ev_fields ev) !! i = Some o → vals !! i = Some v →
      slice entry (Z.to_nat o) (Z.to_nat o + length (value_bytes v)) = Some (value_bytes v).
Proof.
  intros Hok Hal Hid Hpid Hmap Hget pipe_record.
  destruct (event_buf_read st pad ev pid args vals Hok) as (Hlen & Hread & Hpay). cbv zeta in *.
  unfold TraceEntryParser_parse, pipe_record. cbn [event timestamp cpu_id TracePipeRecord_new].
  set (b := event_buf_of st pad ev pid args) in *.
  change (Z.to_nat TRACE_ENTRY_SIZE) with 8%nat. rewrite slice_some by lia. cbn [unwrap mbind res_bind].
  rewrite Hread. cbn [common_of common_type common_pid]. rewrite (wrapu_small 16 _ Hid), Hmap. cbn [unwrap mbind res_bind].
  assert (wrapu 32 (wraps 32 pid) = pid) as ->.
  { unfold wraps, wrapu. rewrite Zminus_mod_idemp_l. replace (pid + 2 ^ (32 - 1) - 2 ^ (32 - 1)) with pid by lia.
    by apply Z.mod_small. }
  rewrite Hget. cbn [mbind res_bind].
  exists (take (length b - 8) (drop 8 b)). split; [reflexivity|].
  rewrite take_ge by (rewrite length_drop; lia). by apply Hpay.
Qed.

(** Above 65535 the id stored in a record is another tracepoint's. *)
Lemma trace_id_truncated {K} `{StaticKey K} {A} (st : Store K) (ev ev' : EventDef A) pid :
  id st (ev_tp ev') = id st (ev_tp ev) + 2 ^ 16 → tp_flags (ev_tp ev') = tp_flags (ev_tp ev) →
  common_of st ev' pid = common_of st ev pid.
Proof.
  intros Hid Hfl. unfold common_of. rewrite Hfl, Hid. f_equal. unfold wrapu.
  by rewrite <- (Z.mul_1_l (2 ^ 16)) at 1; rewrite Z.mod_add.
Qed.
