(* ===== verification/TraceReader.v ===== *)
(** From a tracepoint to the reader of the trace pipe: the host of
    ktracepoint/examples/usage.rs, which keeps a pipe and a cache of process
    names and prints a snapshot of the pipe. *)
From S2P Require Import Prelude Text IntLit Lexer Parser Eval StaticKey TracePoint TracePipe TraceFs TraceProps TraceClaims TraceEvent TraceEventProps TraceEventClaims.

(** ** The host *)
Section host.
Context `{BuildMode} {K} `{StaticKey K} {D A R C : Type} `{TracepointStates R D} `{CmdLru C}.

(** TRACE_RAW_PIPE and TRACE_CMDLINE_CACHE. *)
Record Host := { raw_pipe : TracePipeRaw; cmdline_cache : TraceCmdLineCache C }.

(** A tracepoint that is hit: by which process, where and when. *)
Record Hit := {
  hit_event : EventDef A; hit_args : A; hit_pid : Z; hit_name : str; hit_cpu : Z; hit_time : Z
}.

(** [KernelTraceOps] of the host. *)
Definition trace_pipe_push_raw_record (x : Hit) (h : Host) (buf : str) : res () Host :=
  p ← push_record (raw_pipe h) (hit_time x) (hit_cpu x) buf;
  Ok {| raw_pipe := p; cmdline_cache := cmdline_cache h |}.
Definition trace_cmdline_push (x : Hit) (h : Host) (pid : Z) : res () Host :=
  c ← insert (cmdline_cache h) pid (hit_name x);
  Ok {| raw_pipe := raw_pipe h; cmdline_cache := c |}.

(** The effects of a hit on the host; the callbacks of others do not touch it. *)
Definition do_effect (x : Hit) (h : Host) (e : Effect D A) : res () Host :=
  match e with
  | CmdlinePush pid => trace_cmdline_push x h pid
  | PipePush buf => trace_pipe_push_raw_record x h buf
  | CallDefault _ _ _ | CallEvent _ _ _ | CallRaw _ _ _ => Ok h
  end.
Fixpoint do_effects (x : Hit) (h : Host) (es : list (Effect D A)) : res () Host :=
  match es with [] => Ok h | e :: es => h ← do_effect x h e; do_effects x h es end.
Definition do_hit (st : Store K) (states : R) (pad : nat → Z) (x : Hit) (h : Host) : res () Host :=
  es ← trace st states pad (hit_event x) (hit_pid x) (hit_args x); do_effects x h es.
Fixpoint do_hits (st : Store K) (states : R) (pad : nat → Z) (l : list Hit) (h : Host) : res () Host :=
  match l with [] => Ok h | x :: l => h ← do_hit st states pad x h; do_hits st states pad l h end.

(** [print_trace_records]: the header and the lines it prints. *)
Fixpoint print_loop (fuel : nat) (tracepoint_map : gmap Z TracePoint) (cache : TraceCmdLineCache C) (s : TracePipeSnapshot) :
    res () (list str) :=
  match fuel with
  | O => OutOfFuel
  | S fuel =>
      match peek_records (snap s) with
      | Some event =>
          trace_str ← TraceEntryParser_parse tracepoint_map cache event;
          '(_, s) ← snapshot_pop s;
          rest ← print_loop fuel tracepoint_map cache s; Ok (trace_str :: rest)
      | None => Ok []
      end
  end.
Definition print_trace_records (tracepoint_map : gmap Z TracePoint) (h : Host) : res () (str * list str) :=
  let snapshot := TracePipe.snapshot (raw_pipe h) in
  lines ← print_loop (length (snap snapshot) + 1) tracepoint_map (cmdline_cache h) snapshot;
  Ok (default_fmt_str snapshot, lines).
End host.
Arguments Host : clear implicits.
Arguments Hit : clear implicits.

(** ** One hit *)
Section hits.
Context `{BuildMode} {K} `{StaticKey K} {D A R C : Type} `{TracepointStates R D} `{CmdLruLaws C}.
Context (st : Store K) (states : R) (pad : nat → Z) (tracepoint_map : gmap Z TracePoint) (vals : Hit A → list field_value).

(** The callback that records the event. *)
Definition records (ev : EventDef A) (cb : TraceCallbackType D) : Prop :=
  match cb with Default f => df_func (arc_val f) = ev_default ev | _ => False end.
#[local] Instance records_dec ev cb : Decision (records ev cb).
Proof. destruct cb; simpl; apply _. Defined.

(** A hit of an event the macro defines; when it is enabled its state is
    registered, with the recording callback once and a filter of its schema. *)
Record hit_ok (x : Hit A) : Prop := {
  hi_event : event_ok (hit_event x) (hit_args x) (vals x);
  hi_align : (struct_align (ev_fields (hit_event x)) | 8);
  hi_id : 0 ≤ id st (ev_tp (hit_event x)) < 2 ^ 16;
  hi_pid : 0 ≤ hit_pid x < 2 ^ 32;
  hi_name : is_char_boundary (hit_name x) (16 `min` length (hit_name x)) = true;
  hi_map : tracepoint_map !! id st (ev_tp (hit_event x)) = Some (ev_tp (hit_event x));
  hi_state : key_is_enabled st (ev_tp (hit_event x)) = true → ∃ ext, ts_read states (id st (ev_tp (hit_event x))) = Some ext ∧
    length (filter (records (hit_event x)) (callbacks ext)) = 1%nat ∧
    ∀ c, compiled_expr ext = Some c → ∃ s, compile_with_schema s (tp_schema (ev_tp (hit_event x))) = Ok c;
}.

(** What is recorded: the hits of an enabled event whose filter holds of its
    values. *)
Definition recorded (x : Hit A) : Prop :=
  let ev := hit_event x in
  let cells := event_cells (ev_fields ev) (common_of st ev (hit_pid x)) (vals x) in
  key_is_enabled st (ev_tp ev) = true ∧
  ∀ ext c, ts_read states (id st (ev_tp ev)) = Some ext → compiled_expr ext = Some c →
    default True (holds (cells_num cells) (cells_bytes cells) (cp_expr c)).

(** The filter's answer, as the code computes it. *)
Definition keeps (x : Hit A) : bool :=
  key_is_enabled st (ev_tp (hit_event x)) &&
  match ts_read states (id st (ev_tp (hit_event x))) with
  | Some ext =>
      match compiled_expr ext with
      | Some c => bool_decide (evaluate c {| buf := event_buf_of st pad (hit_event x) (hit_pid x) (hit_args x);
                                             bc_schema := tp_schema (ev_tp (hit_event x)) |} = Ok true)
      | None => true
      end
  | None => false
  end.

Definition record_of (x : Hit A) : TracePipeRecord :=
  TracePipeRecord_new (hit_time x) (hit_cpu x) (event_buf_of st pad (hit_event x) (hit_pid x) (hit_args x)).

Lemma do_effects_skip (x : Hit A) (h : Host C) cbs keep :
  (∀ cb, cb ∈ cbs → ¬ records (hit_event x) cb) →
  ∀ es, do_effects x h ((cbs ≫= effects_of st pad (hit_event x) (hit_pid x) (hit_args x) keep) ++ es) = do_effects x h es.
Proof.
  intros Hcbs es. induction cbs as [|cb cbs IH]; [done|]. rewrite bind_cons, <- app_assoc.
  assert (∀ es, do_effects x h (effects_of st pad (hit_event x) (hit_pid x) (hit_args x) keep cb ++ es) = do_effects x h es) as ->.
  { clear IH es. intros es. pose proof (Hcbs cb ltac:(by left)) as Hn. destruct cb as [f|f|f]; simpl in *; [|by case_match|done].
    by rewrite (proj2 (Z.eqb_neq _ _)). }
  apply IH. intros cb' Hin. apply Hcbs. by right.
Qed.

(** A list with one element of a kind. *)
Lemma filter_one {X} (P : X → Prop) `{∀ x, Decision (P x)} l :
  length (filter P l) = 1%nat → ∃ a x b, l = a ++ x :: b ∧ P x ∧ (∀ y, y ∈ a → ¬ P y) ∧ (∀ y, y ∈ b → ¬ P y).
Proof.
  induction l as [|y l IH]; [done|]. rewrite filter_cons. destruct (decide (P y)) as [Hy|Hy].
  - intros [= Hl%length_zero_iff_nil]. exists [], y, l. split_and!; [done|done|by intros ? ?%elem_of_nil|].
    intros z Hz HP. assert (z ∈ filter P l) as Hin by (by apply list_elem_of_filter). rewrite Hl in Hin. by apply elem_of_nil in Hin.
  - intros (a & x & b & -> & Hx & Ha & Hb)%IH. exists (y :: a), x, b. split_and!; [done|done| |done].
    intros z [->|Hz]%elem_of_cons; [done|by apply Ha].
Qed.

Lemma keeps_recorded x : hit_ok x → keeps x = true ↔ recorded x.
Proof.
  intros Hx. unfold keeps, recorded. destruct (key_is_enabled st (ev_tp (hit_event x))) eqn:Hon; [|by split; [|intros [? _]]].
  rewrite andb_true_l. destruct (hi_state x Hx Hon) as (ext & Hread & _ & Hc). rewrite Hread.
  destruct (compiled_expr ext) as [c|] eqn:He.
  - destruct (Hc c eq_refl) as [s Hs].
    destruct (event_filter st pad (hit_event x) (hit_pid x) (hit_args x) (vals x) s c (hi_event x Hx) Hs) as (keep & Hk & Hiff).
    rewrite Hk, bool_decide_eq_true. split.
    + intros [= Hkeep]. split; [done|]. intros ext' c' [= <-] Hc'. assert (c' = c) as -> by congruence. by apply Hiff.
    + intros [_ Hh]. f_equal. by apply Hiff, (Hh ext c).
  - split; [|done]. intros _. split; [done|]. intros ext' c' [= <-] Hc'. congruence.
Qed.

(** What the callbacks of an enabled event leave to do on the host. *)
Lemma enabled_hit x :
  hit_ok x → key_is_enabled st (ev_tp (hit_event x)) = true →
  ∀ h : Host C, do_hit st states pad x h =
    do_effects (D := D) x h (if keeps x then [CmdlinePush (hit_pid x); PipePush (event (record_of x))] else []).
Proof.
  intros Hx Hon h. destruct (hi_state x Hx Hon) as (ext & Hread & Hone & Hc).
  assert (match compiled_expr ext with
    | Some c => evaluate c {| buf := event_buf_of st pad (hit_event x) (hit_pid x) (hit_args x); bc_schema := tp_schema (ev_tp (hit_event x)) |} = Ok (keeps x)
    | None => keeps x = true
    end) as Heval.
  { unfold keeps. rewrite Hon, Hread. destruct (compiled_expr ext) as [c|]; [|done]. destruct (Hc c eq_refl) as [s Hs].
    destruct (event_filter st pad (hit_event x) (hit_pid x) (hit_args x) (vals x) s c (hi_event x Hx) Hs) as (keep & -> & _).
    by destruct keep. }
  unfold do_hit, trace. rewrite Hon, Hread. cbn [unwrap mbind res_bind].
  rewrite (run_callbacks_spec st pad (hit_event x) ext _ _ (keeps x) _ Heval). cbn [mbind res_bind]. clear Heval.
  destruct (filter_one (records (hit_event x)) (callbacks ext) Hone) as (a & cb & b & -> & Hcb & Ha & Hb).
  rewrite bind_app, bind_cons. rewrite do_effects_skip by done.
  destruct cb as [f| |]; [|done..]. simpl in Hcb. cbn [effects_of]. rewrite Hcb, Z.eqb_refl.
  assert (∀ h, do_effects x h (b ≫= effects_of st pad (hit_event x) (hit_pid x) (hit_args x) (keeps x)) = Ok h) as Hrest.
  { intros h0. rewrite <- (app_nil_r (b ≫= _)). by apply do_effects_skip. }
  destruct (keeps x); simpl; [|apply Hrest]. destruct (trace_cmdline_push x h (hit_pid x)) as [h1|e| |]; simpl; try done.
  destruct (trace_pipe_push_raw_record x h1 _); simpl; [apply Hrest|done..].
Qed.

(** A hit pushes at most its own record; the cache stays a cache, and gives
    no process the name of another. *)
Definition pushes (x : Hit A) : list PipeOp :=
  if keeps x then [OpPush (hit_time x) (hit_cpu x) (event (record_of x))] else [].
Definition host_ok (cap : Z) (h : Host C) : Prop :=
  0 < cap ∧ cl_wf (cmdline (cmdline_cache h)) cap ∧ cache_ok (cmdline_cache h) ∧ pipe_ok (raw_pipe h).
Definition cached_name (x : Hit A) : str := trim_end_matches 10 (take 16 (hit_name x)).
Definition named (seen : list (Hit A)) (c : TraceCmdLineCache C) : Prop :=
  ∀ j name, get c j = Ok (Some name) → ∃ y, y ∈ seen ∧ recorded y ∧ hit_pid y = j ∧ name = cached_name y.

Lemma insert_named x c cap c' seen :
  cl_wf (cmdline c) cap → 0 < cap → cache_ok c → hit_ok x → recorded x → insert c (hit_pid x) (hit_name x) = Ok c' →
  named seen c → named (seen ++ [x]) c'.
Proof.
  intros Hwf Hcap Hok Hx Hrec Hins Hn j name Hget.
  destruct (insert_spec c cap (hit_pid x) (hit_name x) Hwf Hcap Hok (hi_name x Hx)) as (c2 & Hi2 & _ & _ & Hself & Hother).
  assert (c2 = c') as -> by congruence. destruct (decide (j = hit_pid x)) as [->|Hj].
  - exists x. split; [apply elem_of_app; right; by left|]. split_and!; [done|done|]. unfold cached_name. congruence.
  - destruct (Hother j Hj) as [Hsame Hgone]. destruct (cl_bound _ _ Hwf) as (_ & Hlen & _).
    assert (get c j = Ok (Some name)) as Hold.
    { destruct (decide (hit_pid x ∈ cached c)) as [Hin|Hout]; [rewrite <- Hsame; auto|].
      destruct (decide (Z.of_nat (length (cached c)) < cap)) as [Hlt|Hge]; [rewrite <- Hsame; auto|].
      destruct (decide (last (cached c) = Some j)) as [Hl|Hl]; [|rewrite <- Hsame; auto].
      rewrite Hgone in Hget; [done|done| |done]. unfold cached in *. rewrite length_fmap in *. lia. }
    destruct (Hn j name Hold) as (y & Hy & Hrest). exists y. split; [apply elem_of_app; by left|done].
Qed.

Lemma do_hit_spec x (h : Host C) cap :
  hit_ok x → host_ok cap h →
  ∃ h' rs, do_hit st states pad x h = Ok h' ∧ host_ok cap h' ∧ pipe_run (raw_pipe h) (pushes x) = Ok (raw_pipe h', rs) ∧
    ∀ seen, named seen (cmdline_cache h) → named (seen ++ [x]) (cmdline_cache h').
Proof.
  intros Hx (Hcap & Hwf & Hcache & Hpipe). unfold pushes.
  assert (∀ seen, named seen (cmdline_cache h) → named (seen ++ [x]) (cmdline_cache h)) as Hskip.
  { intros seen Hn j name Hg. destruct (Hn j name Hg) as (y & Hy & Hrest). exists y. split; [apply elem_of_app; by left|done]. }
  destruct (key_is_enabled st (ev_tp (hit_event x))) eqn:Hon.
  - rewrite (enabled_hit x Hx Hon). destruct (keeps x) eqn:Hk; [|by exists h, []]. apply keeps_recorded in Hk; [|done].
    destruct (insert_spec _ cap (hit_pid x) _ Hwf Hcap Hcache (hi_name x Hx)) as (c' & Hins & Hwf' & Hok' & _).
    destruct (pipe_step_spec (raw_pipe h) (OpPush (hit_time x) (hit_cpu x) (event (record_of x))) Hpipe I) as (p' & rs & d & Hstep & Hp' & _).
    exists {| raw_pipe := p'; cmdline_cache := c' |}, (rs ++ []). split; [|split; [|split]].
    + simpl. unfold trace_cmdline_push. rewrite Hins. simpl. unfold trace_pipe_push_raw_record. simpl.
      cbn [pipe_step] in Hstep. destruct (push_record _ _ _ _); by simplify_eq/=.
    + done.
    + cbn [pipe_run]. by rewrite Hstep.
    + intros seen. by eapply insert_named.
  - exists h, []. assert (keeps x = false) as -> by (unfold keeps; by rewrite Hon). split_and!; try done.
    unfold do_hit, trace. by rewrite Hon.
Qed.

(** Any number of hits: the pipe is pushed the recorded ones, in order. *)
Lemma pipe_run_app p ops1 ops2 p1 r1 p2 r2 :
  pipe_run p ops1 = Ok (p1, r1) → pipe_run p1 ops2 = Ok (p2, r2) → pipe_run p (ops1 ++ ops2) = Ok (p2, r1 ++ r2).
Proof.
  revert p r1. induction ops1 as [|o ops1 IH]; intros p r1 Hp Hq; cbn [pipe_run app] in *; [by injection Hp as -> <-|].
  destruct (pipe_step p o) as [[p' r']|e| |]; simpl in *; try done.
  destruct (pipe_run p' ops1) as [[p'' r'']|e| |] eqn:Hr; simpl in *; try done.
  injection Hp as -> <-. rewrite (IH _ _ Hr Hq). simpl. by rewrite app_assoc.
Qed.
Lemma do_hits_spec l cap : ∀ (h : Host C) seen,
  Forall hit_ok l → host_ok cap h → named seen (cmdline_cache h) →
  ∃ h' rs, do_hits st states pad l h = Ok h' ∧ named (seen ++ l) (cmdline_cache h') ∧
    pipe_run (raw_pipe h) (l ≫= pushes) = Ok (raw_pipe h', rs) ∧ host_ok cap h'.
Proof.
  induction l as [|x l IH]; intros h seen Hl Hh Hn; [by exists h, []; rewrite app_nil_r|]. apply Forall_cons in Hl as [Hx Hl].
  destruct (do_hit_spec x h cap Hx Hh) as (h1 & rs1 & Hd & Hh1 & Hp & Hn1).
  destruct (IH h1 (seen ++ [x]) Hl Hh1 (Hn1 seen Hn)) as (h' & rs & Hds & Hn' & Hps & Hh').
  exists h', (rs1 ++ rs). rewrite <- app_assoc in Hn'. split; [cbn [do_hits]; by rewrite Hd|]. split; [exact Hn'|]. split; [|done].
  rewrite bind_cons. by eapply pipe_run_app.
Qed.

Lemma pushes_records l : (l ≫= pushes) ≫= pushed_by = record_of <$> List.filter keeps l.
Proof.
  induction l as [|x l IH]; [done|]. rewrite bind_cons, bind_app, IH. unfold pushes. simpl. by destruct (keeps x).
Qed.
Lemma pushes_push l : forallb is_push (l ≫= pushes) = true ∧ length (l ≫= pushes) = length (List.filter keeps l).
Proof.
  induction l as [|x l [IH1 IH2]]; [done|]. rewrite bind_cons. unfold pushes at 1 3. simpl. destruct (keeps x); simpl; [|done].
  split; [done|]. by f_equal.
Qed.

(** ** The reader *)

(** The line of a hit: its own values, under its process's name or none. *)
Definition line_of (l : list (Hit A)) (x : Hit A) (line : str) : Prop :=
  ∃ name entry,
    line = record_line name (hit_pid x) (hit_cpu x) (hit_time x) (ev_tp (hit_event x)) entry ∧
    (∀ i o v, field_offsets 0 (ev_fields (hit_event x)) !! i = Some o → vals x !! i = Some v →
      slice entry (Z.to_nat o) (Z.to_nat o + length (value_bytes v)) = Some (value_bytes v)) ∧
    (∀ n, name = Some n → ∃ y, y ∈ l ∧ recorded y ∧ hit_pid y = hit_pid x ∧ n = cached_name y).

Lemma parse_hit (c : TraceCmdLineCache C) l x :
  hit_ok x → cache_ok c → named l c → ∃ line, TraceEntryParser_parse tracepoint_map c (record_of x) = Ok line ∧ line_of l x line.
Proof.
  intros Hx Hc Hn. destruct (get_ok c (hit_pid x) Hc) as (name & Hget & _).
  destruct (trace_record_prints st pad (hit_event x) (hit_pid x) (hit_args x) (vals x) tracepoint_map c name (hit_time x) (hit_cpu x))
    as (entry & Hp & Hf); [apply Hx..|done|].
  eexists. split; [exact Hp|]. exists name, entry. split_and!; [done|done|]. intros n ->. by apply Hn.
Qed.

Lemma print_loop_spec (c : TraceCmdLineCache C) l shown fuel :
  (length shown < fuel)%nat → Forall hit_ok shown → cache_ok c → named l c →
  ∃ lines, print_loop fuel tracepoint_map c {| snap := record_of <$> shown |} = Ok lines ∧ Forall2 (line_of l) shown lines.
Proof.
  intros Hf Hs Hc Hn. revert fuel Hf. induction Hs as [|x shown Hx Hs IH]; intros [|fuel] Hf; simpl in Hf; try lia; [by exists []|].
  destruct (parse_hit c l x Hx Hc Hn) as (line & Hp & Hl). destruct (IH fuel ltac:(lia)) as (lines & Hr & Hls).
  exists (line :: lines). split; [|by constructor]. cbn [print_loop snap fmap list_fmap peek_records head]. rewrite Hp. cbn [mbind res_bind].
  assert (snapshot_pop {| snap := record_of x :: (record_of <$> shown) |} = Ok (Some (record_of x), {| snap := record_of <$> shown |})) as -> by done.
  cbn [mbind res_bind]. by rewrite Hr.
Qed.
End hits.

(** C25: what the reader of the trace pipe sees.  Whatever hits happen of
    events and by processes as below, with whatever filters, nothing panics
    and the reader prints, in order, one line for each of the last [n] hits
    that are recorded: those of an enabled tracepoint whose filter holds of
    the event's values, in memory layout, a missing field dropping its
    conjunct.  The line has the tracepoint's name, the pid, CPU and time of
    the hit and the text its formatter makes of an entry that holds the
    event's values; the process name in it is one under which that very
    process recorded an event, cut at 16 bytes, or the placeholder.

    The hits ([hit_ok]): the tracepoint is the registered one of its id, the
    id is below 2^16 (the record has 16 bits for it, [trace_id_truncated]);
    while it is enabled, the recording callback is registered exactly once,
    any others in any number; the filter was compiled for the event's schema.
    The event's structs are aligned to at most 8 bytes and below 2^64 bytes,
    its integers fit both their type and an i64, its other fields are byte arrays of the
    declared size, its flags fit a byte ([event_ok]); the pid is 32-bit; the
    process name can be cut after 16 bytes, that is, byte 16 does not lie
    inside a character (else the code panics, [cmdline_cache_correct]).  The
    callbacks' own code does not use the pipe, and the cache of names has room
    for at least one. *)
Theorem trace_pipe_shows_events `{BuildMode} {K} `{StaticKey K} {D A R C : Type} `{TracepointStates R D} `{CmdLruLaws C}
    (st : Store K) (states : R) (pad : nat → Z) (tracepoint_map : gmap Z TracePoint) (vals : Hit A → list field_value)
    (l : list (Hit A)) n cap :
  0 ≤ n → 0 < cap → Forall (hit_ok st states tracepoint_map vals) l →
  let h0 : Host C := {| raw_pipe := TracePipeRaw_new n; cmdline_cache := TraceCmdLineCache_new cap |} in
  ∃ h keep lines,
    do_hits st states pad l h0 = Ok h ∧
    (∀ x, x ∈ l → keep x = true ↔ recorded st states vals x) ∧
    let kept := List.filter keep l in
    print_trace_records tracepoint_map h = Ok (default_fmt_str (snapshot (raw_pipe h)), lines) ∧
    Forall2 (line_of st states vals l) (drop (length kept - Z.to_nat n) kept) lines.
Proof.
  intros Hn Hcap Hl h0. destruct (cl_new_law cap Hcap) as [Hwf Hempty].
  assert (cache_ok (TraceCmdLineCache_new (C := C) cap)) as Hc0 by (unfold cache_ok; simpl; rewrite Hempty; constructor).
  destruct (do_hits_spec st states pad tracepoint_map vals l cap h0 []) as (h & rs & Hd & Hnm & Hp & (_ & _ & Hc & _)); [done|..].
  { split; [done|]. split; [done|]. split; [done|]. exact Hn. }
  { intros j name Hg. unfold get in Hg. simpl in Hg. rewrite Hempty in Hg. done. }
  destruct (pipe_run_spec (l ≫= pushes st states pad) (TracePipeRaw_new n)) as (p & rs' & d & Hr & _ & _ & _ & Hpush); [exact Hn| |].
  { apply Forall_forall. intros o (x & Ho & _)%list_elem_of_bind. unfold pushes in Ho.
    destruct (keeps _ _ _ x); [by apply list_elem_of_singleton in Ho as ->|by apply elem_of_nil in Ho]. }
  destruct (pushes_push st states pad l) as [Hall Hlen]. destruct (Hpush Hall) as [_ Hbuf].
  assert (raw_pipe h = p) as Hrp by (simpl in Hp; congruence).
  rewrite Hlen, pushes_records in Hbuf. simpl in Hbuf. rewrite <- fmap_drop in Hbuf.
  set (kept := List.filter (keeps st states pad) l) in *.
  destruct (print_loop_spec st states pad tracepoint_map vals (cmdline_cache h) l (drop (length kept - Z.to_nat n) kept)
    (length (snap (snapshot (raw_pipe h))) + 1)) as (lines & Hpr & Hls); [|..|done|exact Hnm|].
  { rewrite Hrp. simpl. rewrite Hbuf, length_fmap. lia. }
  { apply Forall_drop, Forall_forall. intros x Hx. apply list_elem_of_In, filter_In in Hx as [Hx _].
    rewrite Forall_forall in Hl. by apply Hl, list_elem_of_In. }
  exists h, (keeps st states pad), lines. split; [done|]. split.
  { intros x Hx. rewrite Forall_forall in Hl. by apply (keeps_recorded st states pad tracepoint_map vals), Hl. }
  split; [|done]. unfold print_trace_records.
  assert (snapshot (raw_pipe h) = {| snap := record_of st pad <$> drop (length kept - Z.to_nat n) kept |}) as Hsn.
  { unfold snapshot. by rewrite Hrp, Hbuf. }
  rewrite Hsn in *. by rewrite Hpr.
Qed.

(** Three hits of the demonstration event, filtered by [a < -3]; the pipe
    keeps one record, so the reader sees the last hit that matches. *)
Definition demo_hit `{BuildMode} (pid a : Z) : Hit Z :=
  {| hit_event := demo_event; hit_args := a; hit_pid := pid; hit_name := bs "sh"; hit_cpu := 1; hit_time := 1000 + a |}.
Definition demo_hits `{BuildMode} : list (Hit Z) := [demo_hit 42 (-7); demo_hit 42 (-9); demo_hit 43 5].
Definition demo_vals (x : Hit Z) : list field_value := demo_values (hit_args x).
Definition demo_map `{BuildMode} : gmap Z TracePoint := {[ 0 := ev_tp demo_event ]}.

Lemma demo_filter `{BuildMode} :
  ∃ c, compile_with_schema (bs "a < -3") (event_schema demo_fields) = Ok c ∧
    cp_expr c = NumCmp (bs "a") {| sp_start := 0; sp_end := 1 |} None NLt (-3).
Proof.
  assert (parse_str (bs "a < -3") = Ok (NumCmp (bs "a") {| sp_start := 0; sp_end := 1 |} None NLt (-3))) as He.
  { destruct H; vm_compute; reflexivity. }
  exists {| cp_expr := NumCmp (bs "a") {| sp_start := 0; sp_end := 1 |} None NLt (-3); cp_schema := event_schema demo_fields |}.
  split; [|done]. unfold compile_with_schema. rewrite He. reflexivity.
Qed.

Lemma demo_hit_ok `{BuildMode} c pid a :
  compile_with_schema (bs "a < -3") (event_schema demo_fields) = Ok c → 0 ≤ pid < 2 ^ 32 → - 2 ^ 31 ≤ a < 2 ^ 31 →
  hit_ok demo_on (demo_states (Some c)) demo_map demo_vals (demo_hit pid a).
Proof.
  intros Hc Hp Ha. split; try done.
  - by apply demo_event_ok.
  - by exists 2.
  - intros _. eexists. split; [reflexivity|]. split; [reflexivity|]. intros c' [= <-]. by exists (bs "a < -3").
Qed.

Lemma trace_pipe_shows_events_witness :
  let _ : BuildMode := true in
  ∃ c h lines,
    do_hits demo_on (demo_states (Some c)) (λ _, 0) demo_hits
      {| raw_pipe := TracePipeRaw_new 1; cmdline_cache := TraceCmdLineCache_new (C := ListCmd) 8 |} = Ok h ∧
    print_trace_records demo_map h = Ok (default_fmt_str (snapshot (raw_pipe h)), lines) ∧
    Forall2 (line_of demo_on (demo_states (Some c)) demo_vals demo_hits) [demo_hit 42 (-9)] lines.
Proof.
  intros m. destruct demo_filter as (c & Hc & He). exists c.
  assert (Forall (hit_ok demo_on (demo_states (Some c)) demo_map demo_vals) demo_hits) as Hok.
  { repeat (constructor; [apply demo_hit_ok; [exact Hc|lia|lia]|]). constructor. }
  destruct (trace_pipe_shows_events (C := ListCmd) demo_on (demo_states (Some c)) (λ _, 0) demo_map demo_vals demo_hits 1 8
    ltac:(done) ltac:(done) Hok) as (h & keep & lines & Hd & Hkeep & Hpr & Hls).
  exists h, lines. split; [exact Hd|]. split; [exact Hpr|].
  assert (∀ pid a, recorded demo_on (demo_states (Some c)) demo_vals (demo_hit pid a) ↔ a < -3) as Hrec.
  { intros pid a. unfold recorded. split.
    - intros [_ Hh]. specialize (Hh _ c eq_refl eq_refl). rewrite He in Hh. exact Hh.
    - intros Ha. split; [done|]. intros ext c' Hr Hc'. injection Hr as <-. injection Hc' as <-.
      change (default True (holds (cells_num (event_cells demo_fields (common_of demo_on demo_event pid) (demo_values a)))
        (cells_bytes (event_cells demo_fields (common_of demo_on demo_event pid) (demo_values a))) (cp_expr c))). rewrite He. exact Ha. }
  assert (keep (demo_hit 42 (-7)) = true ∧ keep (demo_hit 42 (-9)) = true ∧ keep (demo_hit 43 5) = false) as (H1 & H2 & H3).
  { rewrite <- (not_true_iff_false (keep (demo_hit 43 5))), !Hkeep, !Hrec by (unfold demo_hits; rewrite !elem_of_cons; tauto). lia. }
  unfold demo_hits in Hls. cbn [List.filter] in Hls. rewrite H1, H2, H3 in Hls. exact Hls.
Defined.
