(* ===== verification/KprobeBase.v ===== *)
(** Probes: what every architecture shares (kprobe/src/arch/mod.rs).

    The kernel that embeds the crate ([KprobeAuxiliaryOps]) is an interface
    on a world [W]; its documented behaviour is stated through three
    observations, the probed code of every address space, the executable
    slots and the executable pages of processes.  A handler acts on the registers [R] and on the rest of the
    kernel [S]. *)
From S2P Require Import Prelude Text.

(** ** Errors *)
Inductive ProbeInstallError :=
  | InvalidAddress | DecodeFailed | UnsupportedInstruction | UnsafeInstruction | RelocationFailed | PatchFailed.
#[export] Instance ProbeInstallError_eq_dec : EqDecision ProbeInstallError.
Proof. solve_decision. Defined.

(** ** The kernel's operations *)

(** A user address space is named by its pid, the kernel's is [None].
    [set_writeable_for_address] takes the bytes its action writes at the
    start of the range; [ptr_write] is [core::ptr::write] and [ptr_read]
    the read through a raw pointer, both inside a slot; [box_alloc] and
    [box_free] are [Box::into_raw(Box::new([0u8; 4096]))] and
    [Box::from_raw]. *)
Class KprobeAuxiliaryOps (W : Type) := {
  copy_memory : W → Z → nat → option Z → str;
  set_writeable_for_address : W → Z → nat → option Z → str → W;
  alloc_kernel_exec_memory : W → Z * W;
  free_kernel_exec_memory : W → Z → W;
  alloc_user_exec_memory : W → option Z → str → Z * W;
  free_user_exec_memory : W → option Z → Z → W;
  box_alloc : W → Z * W;
  box_free : W → Z → W;
  ptr_write : W → Z → nat → str → W;
  ptr_read : W → Z → nat → nat → str;
}.

(** [code w pid a]: the byte of code at [a]; [slot w p]: the contents of the
    executable memory allocated at [p] in the kernel; [user_page w pid p]: the
    executable page allocated at [p] in a process. *)
Class KprobeObs (W : Type) := {
  code : W → option Z → Z → Z;
  slot : W → Z → option str;
  user_page : W → option Z → Z → option str;
}.

(** The bytes of code from [a] on. *)
Definition code_at `{KprobeObs W} (w : W) (pid : option Z) (a : Z) (n : nat) : str :=
  map (λ i, code w pid (a + Z.of_nat i)) (seq 0 n).
Definition SLOT_SIZE : nat := 64 * 64.
(** Code that differs from [w]'s only in that [bytes] are at [a]. *)
Definition overwritten `{KprobeObs W} (w w' : W) (pid : option Z) (a : Z) (bytes : str) : Prop :=
  ∀ pid' b, code w' pid' b =
    if decide (pid' = pid ∧ a ≤ b < a + Z.of_nat (length bytes)) then default 0 (bytes !! Z.to_nat (b - a))
    else code w pid' b.
Definition same_code `{KprobeObs W} (w w' : W) : Prop := ∀ pid b, code w' pid b = code w pid b.
Definition same_slots `{KprobeObs W} (w w' : W) : Prop := ∀ p, slot w' p = slot w p.

Definition same_pages `{KprobeObs W} (w w' : W) : Prop := ∀ pid p, user_page w' pid p = user_page w pid p.

(** Slots and user pages are pages of 4096 bytes.  The slots are the
    kernel's, and apart from each other and from the user pages of every
    process; the user pages of one process are apart, those of two processes
    may have the same addresses. *)
Definition page_apart (p q : Z) : Prop := p + 4096 ≤ q ∨ q + 4096 ≤ p.
Definition clear_of_slots `{KprobeObs W} (w : W) (p : Z) : Prop := ∀ q, slot w q ≠ None → page_apart p q.
Definition clear_of_pages `{KprobeObs W} (w : W) (p : Z) : Prop := ∀ pid q, user_page w pid q ≠ None → page_apart p q.

(** Allocation returns a fresh slot and touches nothing else; freeing
    touches nothing but the slot. *)
Definition allocates `{KprobeObs W} (w : W) (r : Z * W) : Prop :=
  r.1 ≠ 0 ∧ slot w r.1 = None ∧ (∃ c, slot r.2 r.1 = Some c ∧ length c = SLOT_SIZE) ∧
  (∀ p, p ≠ r.1 → slot r.2 p = slot w p) ∧ same_code w r.2 ∧ same_pages w r.2 ∧
  clear_of_slots w r.1 ∧ clear_of_pages w r.1.
Definition frees `{KprobeObs W} (w w' : W) (p : Z) : Prop :=
  slot w' p = None ∧ (∀ q, q ≠ p → slot w' q = slot w q) ∧ same_code w w' ∧ same_pages w w'.

(** The same for a page of a process. *)
Definition allocates_page `{KprobeObs W} (w : W) (pid : option Z) (bytes : str) (r : Z * W) : Prop :=
  r.1 ≠ 0 ∧ user_page w pid r.1 = None ∧ (∃ c, user_page r.2 pid r.1 = Some c ∧ take (length bytes) c = bytes) ∧
  (∀ pid' p, (pid', p) ≠ (pid, r.1) → user_page r.2 pid' p = user_page w pid' p) ∧ same_slots w r.2 ∧ same_code w r.2 ∧
  clear_of_slots w r.1 ∧ (∀ q, user_page w pid q ≠ None → page_apart r.1 q).
Definition frees_page `{KprobeObs W} (w w' : W) (pid : option Z) (p : Z) : Prop :=
  user_page w' pid p = None ∧ (∀ pid' q, (pid', q) ≠ (pid, p) → user_page w' pid' q = user_page w pid' q) ∧
  same_slots w w' ∧ same_code w w'.

Class KprobeAuxiliaryLaws (W : Type) `{KprobeAuxiliaryOps W} `{KprobeObs W} : Prop := {
  code_byte w pid a : is_byte (code w pid a);
  copy_law w a n pid : copy_memory w a n pid = code_at w pid a n;
  patch_law w a n pid bytes : (length bytes ≤ n)%nat → Forall is_byte bytes →
    let w' := set_writeable_for_address w a n pid bytes in
    overwritten w w' pid a bytes ∧ same_slots w w' ∧ same_pages w w';
  alloc_kernel_law w : allocates w (alloc_kernel_exec_memory w);
  free_kernel_law w p : frees w (free_kernel_exec_memory w p) p;
  box_alloc_law w : allocates w (box_alloc w);
  box_free_law w p : frees w (box_free w p) p;
  user_alloc_law w pid bytes : allocates_page w pid bytes (alloc_user_exec_memory w pid bytes);
  user_free_law w pid p : frees_page w (free_user_exec_memory w pid p) pid p;
  ptr_write_law w p off bytes c : slot w p = Some c → (off + length bytes ≤ length c)%nat →
    let w' := ptr_write w p off bytes in
    slot w' p = Some (splice c off bytes) ∧ (∀ q, q ≠ p → slot w' q = slot w q) ∧ same_code w w' ∧ same_pages w w';
  ptr_read_law w p off n c : slot w p = Some c → (off + n ≤ length c)%nat →
    ptr_read w p off n = take n (drop off c);
}.

(** ** Executable memory *)
Inductive ExecMemType := User (ptr : Z) | Kernel (ptr : Z).
Definition as_ptr (m : ExecMemType) : Z := match m with User p => p | Kernel p => p end.

Section aux.
Context {W : Type} `{KprobeAuxiliaryOps W}.

Definition alloc_exec_memory (w : W) (user_pid : option Z) : ExecMemType * W :=
  match user_pid with
  | Some _ => prod_map User (λ w, w) (box_alloc w)
  | None => prod_map Kernel (λ w, w) (alloc_kernel_exec_memory w)
  end.
(** [impl Drop for ExecMemType]. *)
Definition drop_exec_memory (w : W) (m : ExecMemType) : W :=
  match m with
  | User p => box_free w p
  | Kernel p => free_kernel_exec_memory w p
  end.
End aux.

(** ** Callbacks by id: [BTreeMap<u32, _>], in key order *)
Fixpoint bt_insert {A} (k : Z) (v : A) (l : list (Z * A)) : list (Z * A) :=
  match l with
  | [] => [(k, v)]
  | (k', v') :: l' =>
      if k <? k' then (k, v) :: l else if k =? k' then (k, v) :: l' else (k', v') :: bt_insert k v l'
  end.
Definition bt_remove {A} (k : Z) (l : list (Z * A)) : list (Z * A) := filter (λ kv, kv.1 ≠ k) l.

(** ** Builders and probes *)
Section probes.
Context `{BuildMode} {S R D P : Type}.

Definition ProbeHandler : Type := D → S * R → S * R.
Definition CallBackFunc : Type := S * R → S * R.

Record ProbeBuilder := {
  symbol : option str;
  symbol_addr : Z;
  offset : Z;
  pre_handler : option ProbeHandler;
  post_handler : option ProbeHandler;
  fault_handler : option ProbeHandler;
  event_callbacks : list (Z * CallBackFunc);
  probe_point : option P;
  enable : bool;
  data : option D;
  user_pid : option Z;
}.

Definition ProbeBuilder_new : ProbeBuilder :=
  {| symbol := None; symbol_addr := 0; offset := 0; pre_handler := None; post_handler := None;
     fault_handler := None; event_callbacks := []; probe_point := None; enable := false; data := None;
     user_pid := None |}.

(** [with_enable], [with_symbol_addr], [with_offset], [with_symbol],
    [with_user_mode], [with_data], the handlers, [with_probe_point] and
    [with_event_callback] set one field each. *)
Inductive BuilderStep :=
  | WithEnable (b : bool) | WithSymbolAddr (a : Z) | WithOffset (o : Z) | WithSymbol (s : str)
  | WithUserMode (pid : Z) | WithData (d : D) | WithPreHandler (h : ProbeHandler)
  | WithPostHandler (h : ProbeHandler) | WithFaultHandler (h : ProbeHandler) | WithProbePoint (p : P)
  | WithEventCallback (id : Z) (f : CallBackFunc).
Definition build_step (b : ProbeBuilder) (s : BuilderStep) : ProbeBuilder :=
  {| symbol := match s with WithSymbol x => Some x | _ => symbol b end;
     symbol_addr := match s with WithSymbolAddr a => a | _ => symbol_addr b end;
     offset := match s with WithOffset o => o | _ => offset b end;
     pre_handler := match s with WithPreHandler h => Some h | _ => pre_handler b end;
     post_handler := match s with WithPostHandler h => Some h | _ => post_handler b end;
     fault_handler := match s with WithFaultHandler h => Some h | _ => fault_handler b end;
     event_callbacks := match s with WithEventCallback i f => bt_insert i f (event_callbacks b) | _ => event_callbacks b end;
     probe_point := match s with WithProbePoint p => Some p | _ => probe_point b end;
     enable := match s with WithEnable e => e | _ => enable b end;
     data := match s with WithData d => Some d | _ => data b end;
     user_pid := match s with WithUserMode pid => Some pid | _ => user_pid b end |}.

Definition probe_addr {E} (b : ProbeBuilder) : res E Z := arith 64 (symbol_addr b + offset b).

Record ProbeBasic := {
  pb_symbol : option str;
  pb_symbol_addr : Z;
  pb_offset : Z;
  pb_pre_handler : option ProbeHandler;
  pb_post_handler : option ProbeHandler;
  pb_fault_handler : option ProbeHandler;
  pb_event_callbacks : list (Z * CallBackFunc);
  pb_enable : bool;
  pb_data : D;
}.

(** [ProbeBasic::from]; [unit_data] is [Box::new(())]. *)
Definition ProbeBasic_from (unit_data : D) (b : ProbeBuilder) : ProbeBasic :=
  {| pb_symbol := symbol b; pb_symbol_addr := symbol_addr b; pb_offset := offset b;
     pb_pre_handler := pre_handler b; pb_post_handler := post_handler b; pb_fault_handler := fault_handler b;
     pb_event_callbacks := event_callbacks b; pb_enable := enable b; pb_data := default unit_data (data b) |}.

Definition call_handler (h : option ProbeHandler) (d : D) (sr : S * R) : S * R :=
  match h with Some h => h d sr | None => sr end.
Definition call_pre_handler (p : ProbeBasic) (sr : S * R) : S * R := call_handler (pb_pre_handler p) (pb_data p) sr.
Definition call_post_handler (p : ProbeBasic) (sr : S * R) : S * R := call_handler (pb_post_handler p) (pb_data p) sr.
Definition call_fault_handler (p : ProbeBasic) (sr : S * R) : S * R := call_handler (pb_fault_handler p) (pb_data p) sr.
Definition call_event_callback (p : ProbeBasic) (sr : S * R) : S * R :=
  foldl (λ sr kc, kc.2 sr) sr (pb_event_callbacks p).

Definition with_event_callbacks (p : ProbeBasic) (l : list (Z * CallBackFunc)) : ProbeBasic :=
  {| pb_symbol := pb_symbol p; pb_symbol_addr := pb_symbol_addr p; pb_offset := pb_offset p;
     pb_pre_handler := pb_pre_handler p; pb_post_handler := pb_post_handler p;
     pb_fault_handler := pb_fault_handler p; pb_event_callbacks := l; pb_enable := pb_enable p; pb_data := pb_data p |}.
Definition register_event_callback (p : ProbeBasic) (id : Z) (f : CallBackFunc) : ProbeBasic :=
  with_event_callbacks p (bt_insert id f (pb_event_callbacks p)).
Definition unregister_event_callback (p : ProbeBasic) (id : Z) : ProbeBasic :=
  with_event_callbacks p (bt_remove id (pb_event_callbacks p)).

(** [enable] and [disable]. *)
Definition set_enable (p : ProbeBasic) (b : bool) : ProbeBasic :=
  {| pb_symbol := pb_symbol p; pb_symbol_addr := pb_symbol_addr p; pb_offset := pb_offset p;
     pb_pre_handler := pb_pre_handler p; pb_post_handler := pb_post_handler p;
     pb_fault_handler := pb_fault_handler p; pb_event_callbacks := pb_event_callbacks p; pb_enable := b;
     pb_data := pb_data p |}.
Definition is_enabled (p : ProbeBasic) : bool := pb_enable p.
End probes.
Arguments ProbeHandler : clear implicits.
Arguments CallBackFunc : clear implicits.
Arguments ProbeBuilder : clear implicits.
Arguments ProbeBasic : clear implicits.

(** ** The interface of an architecture *)

(** [KprobeOps], on a probe point. *)
Class KprobeOps (P : Type) := {
  pt_addr : P → Z;                                (* break_address *)
  pt_slot : P → ExecMemType;
  original_instruction_len : P → nat;
  instruction_slot_len : P → nat;
  dynamic_user_ptr : P → Z;
  with_dynamic_user_ptr : P → Z → P;
  pt_pid : P → option Z;
}.

Section ops.
Context `{BuildMode} {P : Type} `{KprobeOps P} {E : Type}.
Definition return_address (p : P) : res E Z := arith 64 (pt_addr p + Z.of_nat (original_instruction_len p)).
Definition single_step_address (p : P) : Z := as_ptr (pt_slot p).
Definition debug_address (p : P) : res E Z :=
  if dynamic_user_ptr p =? 0 then arith 64 (as_ptr (pt_slot p) + Z.of_nat (original_instruction_len p))
  else arith 64 (dynamic_user_ptr p + Z.of_nat (original_instruction_len p)).
Definition break_address (p : P) : Z := pt_addr p.
Definition set_dynamic_user_ptr (p : P) (ptr : Z) : res E (P * Z) :=
  a ← arith 64 (ptr + Z.of_nat (original_instruction_len p));
  Ok (with_dynamic_user_ptr p ptr, a).
End ops.

(** The registers as the handlers see them. *)
Class PtRegsOps (R : Type) := {
  regs_break_address : ∀ `{BuildMode}, R → res () Z;
  regs_debug_address : R → Z;
  setup_single_step : R → Z → R;
  clear_single_step : R → Z → R;
}.

(** What an architecture provides: installing a breakpoint and removing it.
    The world comes back also when installation fails. *)
Class ProbeArch (W P : Type) := {
  replace_inst : ∀ `{BuildMode}, W → Z → Z → option Z → W * res ProbeInstallError P;
  drop_point : W → P → W;
}.
