(* ===== verification/KprobeArch.v ===== *)
(** What the four architectures of the probes share: saving an instruction
    and patching a breakpoint over it. *)
From S2P Require Import Prelude KprobeBase.

(** ** Shared pieces *)
Section shared.
Context {W : Type} `{KprobeAuxiliaryOps W}.

(** Returning early with an error drops the slot that was allocated. *)
Definition abandon {A} (w : W) (m : ExecMemType) (e : res ProbeInstallError A) :
    W * res ProbeInstallError A := (drop_exec_memory w m, e).

(** The body of the fixed-width architectures: the original instruction is
    kept in the slot with a second breakpoint behind it. *)
Definition patch_and_save (w : W) (address : Z) (len : nat) (pid : option Z) (m : ExecMemType)
    (break inst after_ : str) : W :=
  let w := set_writeable_for_address w address len pid break in
  let w := ptr_write w (as_ptr m) 0 inst in
  ptr_write w (as_ptr m) len after_.
End shared.
