(* ===== verification/KprobeRv64.v ===== *)
(** RISC-V probes (kprobe/src/arch/rv64/mod.rs): which instructions may be
    probed, installing and removing a breakpoint, and the registers. *)
From S2P Require Import Prelude KprobeBase KprobeArch.

Module Rv64.
Definition EBREAK_INST : Z := 0x00100073.
Definition C_EBREAK_INST : Z := 0x9002.
Definition INSN_LENGTH_MASK : Z := 0x3.
Definition INSN_LENGTH_32 : Z := 0x3.

Inductive OpcodeTy := Inst16 (i : Z) | Inst32 (i : Z).

Record Rv64ProbePoint := {
  addr : Z;
  old_instruction : OpcodeTy;
  old_instruction_ptr : ExecMemType;
  user_pid : option Z;
  dynamic_user_ptr : Z;
}.

Definition validate_inst16 (inst : Z) : res ProbeInstallError () :=
  if inst =? C_EBREAK_INST then Err UnsupportedInstruction else
  let quadrant := Z.land inst 0x3 in
  let funct3 := Z.land (Z.shiftr inst 13) 0x7 in
  if (quadrant =? 1) && ((funct3 =? 1) || (funct3 =? 5) || (funct3 =? 6) || (funct3 =? 7))
  then Err UnsafeInstruction
  else if (quadrant =? 2) && (funct3 =? 4) && (Z.land (Z.shiftr inst 2) 0x1f =? 0)
  then Err UnsupportedInstruction
  else Ok ().

Definition validate_inst32 (inst : Z) : res ProbeInstallError () :=
  let op := Z.land inst 0x7f in
  if (op =? 0x17) || (op =? 0x67) || (op =? 0x63) || (op =? 0x6f) || (op =? 0x0f) || (op =? 0x73)
  then Err UnsupportedInstruction else Ok ().

Section rv64.
Context `{BuildMode} {W : Type} `{KprobeAuxiliaryOps W}.

Definition mk_point (address : Z) (i : OpcodeTy) (m : ExecMemType) (pid : option Z) : Rv64ProbePoint :=
  {| addr := address; old_instruction := i; old_instruction_ptr := m; user_pid := pid; dynamic_user_ptr := 0 |}.

Definition replace_inst (w : W) (symbol_addr offset : Z) (pid : option Z) :
    W * res ProbeInstallError Rv64ProbePoint :=
  match arith 64 (symbol_addr + offset) with
  | Ok address =>
      if negb (Z.land address 0x1 =? 0) then (w, Err InvalidAddress) else
      let inst_16 := le_dec (copy_memory w address 2 pid) in
      let is_inst_16 := negb (Z.land inst_16 INSN_LENGTH_MASK =? INSN_LENGTH_32) in
      let '(m, w) := alloc_exec_memory w pid in
      if is_inst_16 then
        match validate_inst16 inst_16 with
        | Ok _ =>
            (patch_and_save w address 2 pid m (le_enc 2 C_EBREAK_INST) (le_enc 2 inst_16) (le_enc 2 C_EBREAK_INST),
             Ok (mk_point address (Inst16 inst_16) m pid))
        | Err e => abandon w m (Err e)
        | Panic => abandon w m Panic
        | OutOfFuel => abandon w m OutOfFuel
        end
      else
        if negb (Z.land address 0x3 =? 0) then abandon w m (Err InvalidAddress) else
        let inst_32 := le_dec (copy_memory w address 4 pid) in
        match validate_inst32 inst_32 with
        | Ok _ =>
            (patch_and_save w address 4 pid m (le_enc 4 EBREAK_INST) (le_enc 4 inst_32) (le_enc 4 EBREAK_INST),
             Ok (mk_point address (Inst32 inst_32) m pid))
        | Err e => abandon w m (Err e)
        | Panic => abandon w m Panic
        | OutOfFuel => abandon w m OutOfFuel
        end
  | Err e => (w, Err e)
  | Panic => (w, Panic)
  | OutOfFuel => (w, OutOfFuel)
  end.

Definition inst_len (i : OpcodeTy) : nat := match i with Inst16 _ => 2 | Inst32 _ => 4 end.
Definition inst_bytes (i : OpcodeTy) : str := match i with Inst16 x => le_enc 2 x | Inst32 x => le_enc 4 x end.

(** [impl Drop for Rv64ProbePoint], then the drop of its fields. *)
Definition drop_point (w : W) (p : Rv64ProbePoint) : W :=
  let w := set_writeable_for_address w (addr p) (inst_len (old_instruction p)) (user_pid p)
             (inst_bytes (old_instruction p)) in
  let dyn_ptr := dynamic_user_ptr p in
  let w := if negb (dyn_ptr =? 0) then free_user_exec_memory w (user_pid p) dyn_ptr else w in
  drop_exec_memory w (old_instruction_ptr p).
End rv64.

#[global] Instance Rv64_ops : KprobeOps Rv64ProbePoint := {
  pt_addr := addr;
  pt_slot := old_instruction_ptr;
  original_instruction_len p := inst_len (old_instruction p);
  instruction_slot_len p := match old_instruction p with Inst16 _ => (2 + 2)%nat | Inst32 _ => (4 + 4)%nat end;
  KprobeBase.dynamic_user_ptr := dynamic_user_ptr;
  with_dynamic_user_ptr p ptr :=
    {| addr := addr p; old_instruction := old_instruction p; old_instruction_ptr := old_instruction_ptr p;
       user_pid := user_pid p; dynamic_user_ptr := ptr |};
  pt_pid := user_pid;
}.
#[global] Instance Rv64_arch {W} `{KprobeAuxiliaryOps W} : ProbeArch W Rv64ProbePoint :=
  {| KprobeBase.replace_inst _ := replace_inst; KprobeBase.drop_point := drop_point |}.

Record PtRegs := {
  epc : Z; ra : Z; sp : Z; gp : Z; tp : Z; t0 : Z; t1 : Z; t2 : Z; s0 : Z; s1 : Z; a0 : Z; a1 : Z;
  a2 : Z; a3 : Z; a4 : Z; a5 : Z; a6 : Z; a7 : Z; s2 : Z; s3 : Z; s4 : Z; s5 : Z; s6 : Z; s7 : Z;
  s8 : Z; s9 : Z; s10 : Z; s11 : Z; t3 : Z; t4 : Z; t5 : Z; t6 : Z; status : Z; badaddr : Z;
  cause : Z; orig_a0 : Z;
}.
Definition update_pc (r : PtRegs) (pc : Z) : PtRegs :=
  {| epc := pc; ra := ra r; sp := sp r; gp := gp r; tp := tp r; t0 := t0 r; t1 := t1 r; t2 := t2 r;
     s0 := s0 r; s1 := s1 r; a0 := a0 r; a1 := a1 r; a2 := a2 r; a3 := a3 r; a4 := a4 r; a5 := a5 r;
     a6 := a6 r; a7 := a7 r; s2 := s2 r; s3 := s3 r; s4 := s4 r; s5 := s5 r; s6 := s6 r; s7 := s7 r;
     s8 := s8 r; s9 := s9 r; s10 := s10 r; s11 := s11 r; t3 := t3 r; t4 := t4 r; t5 := t5 r; t6 := t6 r;
     status := status r; badaddr := badaddr r; cause := cause r; orig_a0 := orig_a0 r |}.
Definition set_ra (r : PtRegs) (x : Z) : PtRegs :=
  {| epc := epc r; ra := x; sp := sp r; gp := gp r; tp := tp r; t0 := t0 r; t1 := t1 r; t2 := t2 r;
     s0 := s0 r; s1 := s1 r; a0 := a0 r; a1 := a1 r; a2 := a2 r; a3 := a3 r; a4 := a4 r; a5 := a5 r;
     a6 := a6 r; a7 := a7 r; s2 := s2 r; s3 := s3 r; s4 := s4 r; s5 := s5 r; s6 := s6 r; s7 := s7 r;
     s8 := s8 r; s9 := s9 r; s10 := s10 r; s11 := s11 r; t3 := t3 r; t4 := t4 r; t5 := t5 r; t6 := t6 r;
     status := status r; badaddr := badaddr r; cause := cause r; orig_a0 := orig_a0 r |}.
#[global] Instance Rv64_regs : PtRegsOps PtRegs := {
  regs_break_address _ r := Ok (epc r);
  regs_debug_address := epc;
  setup_single_step := update_pc;
  clear_single_step := update_pc;
}.
Definition first_ret_value (r : PtRegs) : Z := a0 r.
Definition second_ret_value (r : PtRegs) : Z := a1 r.
Definition args (r : PtRegs) : list Z := [a0 r; a1 r; a2 r; a3 r; a4 r; a5 r].
End Rv64.
