(* ===== verification/KprobeAArch64.v ===== *)
(** AArch64 probes (kprobe/src/arch/aarch64/mod.rs). *)
From S2P Require Import Prelude KprobeBase KprobeArch.

Module AArch64.
Definition KPROBES_BRK_IMM : Z := 0x004.
Definition KPROBES_BRK_SS_IMM : Z := 0x006.
Definition AARCH64_BREAK_MON : Z := 0xd4200000.
Definition BRK64_OPCODE_KPROBES : Z := Z.lor AARCH64_BREAK_MON (Z.shiftl KPROBES_BRK_IMM 5).
Definition BRK64_OPCODE_KPROBES_SS : Z := Z.lor AARCH64_BREAK_MON (Z.shiftl KPROBES_BRK_SS_IMM 5).
Definition BRK64_INST_LEN : nat := 4.

Record AArch64ProbePoint := {
  addr : Z;
  old_instruction_ptr : ExecMemType;
  user_pid : option Z;
  dynamic_user_ptr : Z;
}.

Definition validate_instruction (inst : Z) : res ProbeInstallError () :=
  if (inst =? BRK64_OPCODE_KPROBES) || (inst =? BRK64_OPCODE_KPROBES_SS) then Err UnsupportedInstruction else
  let is_unconditional_branch := Z.land inst 0x7c000000 =? 0x14000000 in
  let is_compare_branch := Z.land inst 0x7e000000 =? 0x34000000 in
  let is_test_branch := Z.land inst 0x7e000000 =? 0x36000000 in
  let is_conditional_branch := Z.land inst 0xff000010 =? 0x54000000 in
  let rb := Z.land inst 0xfffffc1f in
  let is_register_branch := (rb =? 0xd61f0000) || (rb =? 0xd63f0000) || (rb =? 0xd65f0000) in
  let is_pc_relative_address := Z.land inst 0x9f000000 =? 0x10000000 in
  let is_literal_load := Z.land inst 0x3b000000 =? 0x18000000 in
  let es := Z.land inst 0xff000000 in
  let is_exception_or_system := (es =? 0xd4000000) || (es =? 0xd5000000) in
  if is_unconditional_branch || is_compare_branch || is_test_branch || is_conditional_branch ||
     is_register_branch || is_pc_relative_address || is_literal_load || is_exception_or_system
  then Err UnsafeInstruction else Ok ().

Section aarch64.
Context `{BuildMode} {W : Type} `{KprobeAuxiliaryOps W}.

Definition replace_inst (w : W) (symbol_addr offset : Z) (pid : option Z) :
    W * res ProbeInstallError AArch64ProbePoint :=
  match arith 64 (symbol_addr + offset) with
  | Ok address =>
      if negb (Z.land address (Z.of_nat BRK64_INST_LEN - 1) =? 0) then (w, Err InvalidAddress) else
      let '(m, w) := alloc_exec_memory w pid in
      let inst_32 := le_dec (copy_memory w address 4 pid) in
      match validate_instruction inst_32 with
      | Ok _ =>
          (patch_and_save w address BRK64_INST_LEN pid m
             (le_enc 4 BRK64_OPCODE_KPROBES) (le_enc 4 inst_32) (le_enc 4 BRK64_OPCODE_KPROBES_SS),
           Ok {| addr := address; old_instruction_ptr := m; user_pid := pid; dynamic_user_ptr := 0 |})
      | Err e => abandon w m (Err e)
      | Panic => abandon w m Panic
      | OutOfFuel => abandon w m OutOfFuel
      end
  | Err e => (w, Err e)
  | Panic => (w, Panic)
  | OutOfFuel => (w, OutOfFuel)
  end.

Definition drop_point (w : W) (p : AArch64ProbePoint) : W :=
  let w := set_writeable_for_address w (addr p) BRK64_INST_LEN (user_pid p)
             (ptr_read w (as_ptr (old_instruction_ptr p)) 0 BRK64_INST_LEN) in
  let dyn_ptr := dynamic_user_ptr p in
  let w := if negb (dyn_ptr =? 0) then free_user_exec_memory w (user_pid p) dyn_ptr else w in
  drop_exec_memory w (old_instruction_ptr p).
End aarch64.

#[global] Instance AArch64_ops : KprobeOps AArch64ProbePoint := {
  pt_addr := addr;
  pt_slot := old_instruction_ptr;
  original_instruction_len _ := BRK64_INST_LEN;
  instruction_slot_len _ := (BRK64_INST_LEN * 2)%nat;
  KprobeBase.dynamic_user_ptr := dynamic_user_ptr;
  with_dynamic_user_ptr p ptr :=
    {| addr := addr p; old_instruction_ptr := old_instruction_ptr p; user_pid := user_pid p; dynamic_user_ptr := ptr |};
  pt_pid := user_pid;
}.
#[global] Instance AArch64_arch {W} `{KprobeAuxiliaryOps W} : ProbeArch W AArch64ProbePoint :=
  {| KprobeBase.replace_inst _ := replace_inst; KprobeBase.drop_point := drop_point |}.

Record PtRegs := { regs : list Z; sp : Z; pc : Z; pstate : Z; orig_x0 : Z; syscallno : Z; unused2 : Z }.
Definition update_pc (r : PtRegs) (x : Z) : PtRegs :=
  {| regs := regs r; sp := sp r; pc := x; pstate := pstate r; orig_x0 := orig_x0 r;
     syscallno := syscallno r; unused2 := unused2 r |}.
Definition set_reg (r : PtRegs) (i : nat) (x : Z) : PtRegs :=
  {| regs := <[i := x]> (regs r); sp := sp r; pc := pc r; pstate := pstate r; orig_x0 := orig_x0 r;
     syscallno := syscallno r; unused2 := unused2 r |}.
#[global] Instance AArch64_regs : PtRegsOps PtRegs := {
  regs_break_address _ r := Ok (pc r);
  regs_debug_address := pc;
  setup_single_step := update_pc;
  clear_single_step := update_pc;
}.
Definition first_ret_value (r : PtRegs) : res () Z := unwrap (regs r !! 0%nat).
Definition second_ret_value (r : PtRegs) : res () Z := unwrap (regs r !! 1%nat).
Definition args (r : PtRegs) : list Z := take 8 (regs r).
End AArch64.
