(* ===== verification/KprobeLA64.v ===== *)
(** LoongArch probes (kprobe/src/arch/loongarch64/mod.rs). *)
From S2P Require Import Prelude KprobeBase KprobeArch.

Module LA64.
Definition EBREAK_INST : Z := 0x002a0000.
Definition EBREAK_INST_LEN : nat := 4.

Record LA64ProbePoint := {
  addr : Z;
  old_instruction_ptr : ExecMemType;
  user_pid : option Z;
  dynamic_user_ptr : Z;
}.

Definition validate_instruction (inst : Z) : res ProbeInstallError () :=
  if inst =? EBREAK_INST then Err UnsupportedInstruction else
  let opcode := Z.shiftr inst 26 in
  if ((0x13 <=? opcode) && (opcode <=? 0x17)) || ((0x19 <=? opcode) && (opcode <=? 0x1b))
  then Err UnsafeInstruction else Ok ().

Section loongarch.
Context `{BuildMode} {W : Type} `{KprobeAuxiliaryOps W}.

Definition replace_inst (w : W) (symbol_addr offset : Z) (pid : option Z) :
    W * res ProbeInstallError LA64ProbePoint :=
  match arith 64 (symbol_addr + offset) with
  | Ok address =>
      if negb (Z.land address (Z.of_nat EBREAK_INST_LEN - 1) =? 0) then (w, Err InvalidAddress) else
      let '(m, w) := alloc_exec_memory w pid in
      let inst_32 := le_dec (copy_memory w address 4 pid) in
      match validate_instruction inst_32 with
      | Ok _ =>
          (patch_and_save w address EBREAK_INST_LEN pid m
             (le_enc 4 EBREAK_INST) (le_enc 4 inst_32) (le_enc 4 EBREAK_INST),
           Ok {| addr := address; old_instruction_ptr := m; user_pid := pid; dynamic_user_ptr := 0 |})
      | Err e => abandon w m (Err e)
      | Panic => abandon w m Panic
      | OutOfFuel => abandon w m OutOfFuel
      end
  | Err e => (w, Err e)
  | Panic => (w, Panic)
  | OutOfFuel => (w, OutOfFuel)
  end.

Definition drop_point (w : W) (p : LA64ProbePoint) : W :=
  let w := set_writeable_for_address w (addr p) EBREAK_INST_LEN (user_pid p)
             (ptr_read w (as_ptr (old_instruction_ptr p)) 0 EBREAK_INST_LEN) in
  let dyn_ptr := dynamic_user_ptr p in
  let w := if negb (dyn_ptr =? 0) then free_user_exec_memory w (user_pid p) dyn_ptr else w in
  drop_exec_memory w (old_instruction_ptr p).
End loongarch.

#[global] Instance LA64_ops : KprobeOps LA64ProbePoint := {
  pt_addr := addr;
  pt_slot := old_instruction_ptr;
  original_instruction_len _ := EBREAK_INST_LEN;
  instruction_slot_len _ := (EBREAK_INST_LEN * 2)%nat;
  KprobeBase.dynamic_user_ptr := dynamic_user_ptr;
  with_dynamic_user_ptr p ptr :=
    {| addr := addr p; old_instruction_ptr := old_instruction_ptr p; user_pid := user_pid p; dynamic_user_ptr := ptr |};
  pt_pid := user_pid;
}.
#[global] Instance LA64_arch {W} `{KprobeAuxiliaryOps W} : ProbeArch W LA64ProbePoint :=
  {| KprobeBase.replace_inst _ := replace_inst; KprobeBase.drop_point := drop_point |}.

Record PtRegs := {
  regs : list Z; orig_a0 : Z; csr_era : Z; csr_badvaddr : Z; csr_crmd : Z; csr_prmd : Z; csr_euen : Z;
  csr_ecfg : Z; csr_estat : Z }.
Definition update_pc (r : PtRegs) (pc : Z) : PtRegs :=
  {| regs := regs r; orig_a0 := orig_a0 r; csr_era := pc; csr_badvaddr := csr_badvaddr r; csr_crmd := csr_crmd r;
     csr_prmd := csr_prmd r; csr_euen := csr_euen r; csr_ecfg := csr_ecfg r; csr_estat := csr_estat r |}.
Definition set_reg (r : PtRegs) (i : nat) (x : Z) : PtRegs :=
  {| regs := <[i := x]> (regs r); orig_a0 := orig_a0 r; csr_era := csr_era r; csr_badvaddr := csr_badvaddr r;
     csr_crmd := csr_crmd r; csr_prmd := csr_prmd r; csr_euen := csr_euen r; csr_ecfg := csr_ecfg r;
     csr_estat := csr_estat r |}.
#[global] Instance LA64_regs : PtRegsOps PtRegs := {
  regs_break_address _ r := Ok (csr_era r);
  regs_debug_address := csr_era;
  setup_single_step := update_pc;
  clear_single_step := update_pc;
}.
Definition first_ret_value (r : PtRegs) : res () Z := unwrap (regs r !! 4%nat).
Definition second_ret_value (r : PtRegs) : res () Z := unwrap (regs r !! 5%nat).
Definition args (r : PtRegs) : list Z := take 8 (drop 4 (regs r)).
End LA64.
