(* ===== verification/KprobeX86.v ===== *)
(** x86-64 probes (kprobe/src/arch/x86/mod.rs).  The instruction decoder is
    the third-party crate yaxpeax-x86, an interface here. *)
From S2P Require Import Prelude KprobeBase KprobeArch.

Module X86.
Definition EBREAK_INST : Z := 0xcc.
Definition MAX_INSTRUCTION_SIZE : nat := 15.

(** The opcodes the check names; every other one is [OtherOpcode]. *)
Inductive Opcode :=
  | Invalid | CALL | CALLF | JMP | JMPF | JMPE | RETURN | RETF | IRET | IRETD | IRETQ | INT | INTO | LOOP
  | LOOPZ | LOOPNZ | JRCXZ | SYSCALL | SYSRET | SWAPGS | HLT | CLI | STI | UD0 | UD1 | UD2 | XBEGIN
  | OtherOpcode (n : Z).
(** The addressing forms of an operand, with their registers; [OtherOperand]
    are those the check ignores. *)
Inductive Operand :=
  | MemDeref (base : Z) | Disp (base : Z) | MemDerefMasked (base : Z) | DispMasked (base : Z)
  | MemIndexScale (index : Z) | MemIndexScaleDisp (index : Z) | MemIndexScaleMasked (index : Z)
  | MemIndexScaleDispMasked (index : Z)
  | MemBaseIndexScale (base index : Z) | MemBaseIndexScaleDisp (base index : Z)
  | MemBaseIndexScaleMasked (base index : Z) | MemBaseIndexScaleDispMasked (base index : Z)
  | OtherOperand.

Class X86Decoder (I : Type) := {
  decode_slice : str → option I;
  opcode : I → Opcode;
  is_jcc : Opcode → bool;
  operand_count : I → nat;
  operand : I → nat → Operand;
  inst_length : I → nat;
  reg_rip : Z;
  reg_eip : Z;
}.

Record X86ProbePoint := {
  addr : Z;
  old_instruction_ptr : ExecMemType;
  old_instruction_len : nat;
  user_pid : option Z;
  dynamic_user_ptr : Z;
}.

Section x86.
Context `{BuildMode} {W I : Type} `{KprobeAuxiliaryOps W} `{X86Decoder I}.

Definition operand_uses_pc (o : Operand) : bool :=
  let is_pc := λ reg, (reg =? reg_rip) || (reg =? reg_eip) in
  match o with
  | MemDeref base | Disp base | MemDerefMasked base | DispMasked base => is_pc base
  | MemIndexScale index | MemIndexScaleDisp index | MemIndexScaleMasked index | MemIndexScaleDispMasked index =>
      is_pc index
  | MemBaseIndexScale base index | MemBaseIndexScaleDisp base index
  | MemBaseIndexScaleMasked base index | MemBaseIndexScaleDispMasked base index => is_pc base || is_pc index
  | OtherOperand => false
  end.

Definition validate_instruction (inst : I) : res ProbeInstallError () :=
  let op := opcode inst in
  if is_jcc op || match op with OtherOpcode _ => false | _ => true end then Err UnsupportedInstruction
  else if existsb (λ i, operand_uses_pc (operand inst i)) (seq 0 (operand_count inst)) then Err UnsafeInstruction
  else Ok ().

Definition replace_inst (w : W) (symbol_addr offset : Z) (pid : option Z) : W * res ProbeInstallError X86ProbePoint :=
  match arith 64 (symbol_addr + offset) with
  | Ok address =>
      let '(m, w) := alloc_exec_memory w pid in
      let w := ptr_write w (as_ptr m) 0 (copy_memory w address MAX_INSTRUCTION_SIZE pid) in
      let buf := ptr_read w (as_ptr m) 0 MAX_INSTRUCTION_SIZE in
      match decode_slice buf with
      | None => abandon w m (Err DecodeFailed)
      | Some inst =>
          match validate_instruction inst with
          | Ok _ =>
              let len := inst_length inst in
              let point := {| addr := address; old_instruction_ptr := m; old_instruction_len := len;
                              user_pid := pid; dynamic_user_ptr := 0 |} in
              (set_writeable_for_address w address len pid [EBREAK_INST], Ok point)
          | Err e => abandon w m (Err e)
          | Panic => abandon w m Panic
          | OutOfFuel => abandon w m OutOfFuel
          end
      end
  | Err e => (w, Err e)
  | Panic => (w, Panic)
  | OutOfFuel => (w, OutOfFuel)
  end.

Definition drop_point (w : W) (p : X86ProbePoint) : W :=
  let w := set_writeable_for_address w (addr p) (old_instruction_len p) (user_pid p)
             (ptr_read w (as_ptr (old_instruction_ptr p)) 0 (old_instruction_len p)) in
  let dyn_ptr := dynamic_user_ptr p in
  let w := if negb (dyn_ptr =? 0) then free_user_exec_memory w (user_pid p) dyn_ptr else w in
  drop_exec_memory w (old_instruction_ptr p).
End x86.

#[global] Instance X86_ops : KprobeOps X86ProbePoint := {
  pt_addr := addr;
  pt_slot := old_instruction_ptr;
  original_instruction_len := old_instruction_len;
  instruction_slot_len := old_instruction_len;
  KprobeBase.dynamic_user_ptr := dynamic_user_ptr;
  with_dynamic_user_ptr p ptr :=
    {| addr := addr p; old_instruction_ptr := old_instruction_ptr p; old_instruction_len := old_instruction_len p;
       user_pid := user_pid p; dynamic_user_ptr := ptr |};
  pt_pid := user_pid;
}.
#[global] Instance X86_arch {W I} `{KprobeAuxiliaryOps W} `{X86Decoder I} : ProbeArch W X86ProbePoint :=
  {| KprobeBase.replace_inst _ := replace_inst; KprobeBase.drop_point := drop_point |}.

Record PtRegs := {
  r15 : Z; r14 : Z; r13 : Z; r12 : Z; rbp : Z; rbx : Z; r11 : Z; r10 : Z; r9 : Z; r8 : Z; rax : Z;
  rcx : Z; rdx : Z; rsi : Z; rdi : Z; orig_rax : Z; rip : Z; cs : Z; rflags : Z; rsp : Z; ss : Z;
}.
Definition update_pc (r : PtRegs) (pc : Z) : PtRegs :=
  {| r15 := r15 r; r14 := r14 r; r13 := r13 r; r12 := r12 r; rbp := rbp r; rbx := rbx r; r11 := r11 r;
     r10 := r10 r; r9 := r9 r; r8 := r8 r; rax := rax r; rcx := rcx r; rdx := rdx r; rsi := rsi r;
     rdi := rdi r; orig_rax := orig_rax r; rip := pc; cs := cs r; rflags := rflags r; rsp := rsp r;
     ss := ss r |}.
Definition set_rflags (r : PtRegs) (x : Z) : PtRegs :=
  {| r15 := r15 r; r14 := r14 r; r13 := r13 r; r12 := r12 r; rbp := rbp r; rbx := rbx r; r11 := r11 r;
     r10 := r10 r; r9 := r9 r; r8 := r8 r; rax := rax r; rcx := rcx r; rdx := rdx r; rsi := rsi r;
     rdi := rdi r; orig_rax := orig_rax r; rip := rip r; cs := cs r; rflags := x; rsp := rsp r;
     ss := ss r |}.
Definition set_orig_rax (r : PtRegs) (x : Z) : PtRegs :=
  {| r15 := r15 r; r14 := r14 r; r13 := r13 r; r12 := r12 r; rbp := rbp r; rbx := rbx r; r11 := r11 r;
     r10 := r10 r; r9 := r9 r; r8 := r8 r; rax := rax r; rcx := rcx r; rdx := rdx r; rsi := rsi r;
     rdi := rdi r; orig_rax := x; rip := rip r; cs := cs r; rflags := rflags r; rsp := rsp r;
     ss := ss r |}.
Definition set_rsp (r : PtRegs) (x : Z) : PtRegs :=
  {| r15 := r15 r; r14 := r14 r; r13 := r13 r; r12 := r12 r; rbp := rbp r; rbx := rbx r; r11 := r11 r;
     r10 := r10 r; r9 := r9 r; r8 := r8 r; rax := rax r; rcx := rcx r; rdx := rdx r; rsi := rsi r;
     rdi := rdi r; orig_rax := orig_rax r; rip := rip r; cs := cs r; rflags := rflags r; rsp := x;
     ss := ss r |}.
Definition set_ss (r : PtRegs) (x : Z) : PtRegs :=
  {| r15 := r15 r; r14 := r14 r; r13 := r13 r; r12 := r12 r; rbp := rbp r; rbx := rbx r; r11 := r11 r;
     r10 := r10 r; r9 := r9 r; r8 := r8 r; rax := rax r; rcx := rcx r; rdx := rdx r; rsi := rsi r;
     rdi := rdi r; orig_rax := orig_rax r; rip := rip r; cs := cs r; rflags := rflags r; rsp := rsp r;
     ss := x |}.

Definition set_single_step (r : PtRegs) (enable : bool) : PtRegs :=
  set_rflags r (if enable then Z.lor (rflags r) 0x100 else Z.ldiff (rflags r) 0x100).
#[global] Instance X86_regs : PtRegsOps PtRegs := {
  regs_break_address _ r := arith 64 (rip r - 1);
  regs_debug_address := rip;
  setup_single_step r a := set_single_step (update_pc r a) true;
  clear_single_step r a := set_single_step (update_pc r a) false;
}.
Definition first_ret_value (r : PtRegs) : Z := rax r.
Definition second_ret_value (r : PtRegs) : Z := rdx r.
Definition args (r : PtRegs) : list Z := [rdi r; rsi r; rdx r; rcx r; r8 r; r9 r].
End X86.
