(* ===== verification/KprobeArchProps.v ===== *)
(** What every architecture promises the probe manager, and the proofs that
    the four of them keep it. *)
From S2P Require Import Prelude KprobeBase KprobeArch KprobeRv64 KprobeAArch64 KprobeLA64 KprobeX86.

(** ** The contract *)

(** Nothing changed; nothing but a fresh slot at [p] did; nothing but the
    page at [p] of a process, which is freed unless [p] is null. *)
Definition same_memory `{KprobeObs W} (w w' : W) : Prop := same_code w w' ∧ same_slots w w' ∧ same_pages w w'.
Definition fresh_slot `{KprobeObs W} (w w' : W) (p : Z) : Prop :=
  slot w p = None ∧ p ≠ 0 ∧ (∀ q, q ≠ p → slot w' q = slot w q) ∧ same_pages w w' ∧
  clear_of_slots w p ∧ clear_of_pages w p.
Definition drops_page `{KprobeObs W} (w w' : W) (pid : option Z) (p : Z) : Prop :=
  (p ≠ 0 → user_page w' pid p = None) ∧
  ∀ pid' q, p = 0 ∨ (pid', q) ≠ (pid, p) → user_page w' pid' q = user_page w pid' q.

(** Installation either changes nothing but the patched instruction and a
    fresh slot, from which the original can be recovered, or changes
    nothing; dropping the point puts the original back and frees the slot and
    the page it has in a process. *)
Class ProbeArchLaws (W P : Type) `{KprobeObs W} `{KprobeOps P} `{ProbeArch W P} := {
  saved : W → P → option str;
  saved_slot w w' p : slot w' (as_ptr (pt_slot p)) = slot w (as_ptr (pt_slot p)) → saved w' p = saved w p;
  saved_live w p bytes : saved w p = Some bytes →
    slot w (as_ptr (pt_slot p)) ≠ None ∧ length bytes = original_instruction_len p;
  saved_dynamic w p ptr : saved w (with_dynamic_user_ptr p ptr) = saved w p;
  dynamic_fields p ptr : let q := with_dynamic_user_ptr p ptr in
    pt_addr q = pt_addr p ∧ pt_slot q = pt_slot p ∧ pt_pid q = pt_pid p ∧
    original_instruction_len q = original_instruction_len p ∧ dynamic_user_ptr q = ptr;
  replace_spec `{BuildMode} w symbol_addr offset pid :
    let '(w', r) := replace_inst w symbol_addr offset pid in
    match r with
    | Ok p =>
        let a := symbol_addr + offset in
        let ptr := as_ptr (pt_slot p) in
        arith (E := ProbeInstallError) 64 a = Ok (pt_addr p) ∧ pt_pid p = pid ∧ dynamic_user_ptr p = 0 ∧
        fresh_slot w w' ptr ∧ (original_instruction_len p ≤ 15)%nat ∧
        saved w' p = Some (code_at w pid (pt_addr p) (original_instruction_len p)) ∧
        (∃ break, (1 ≤ length break ≤ original_instruction_len p)%nat ∧ overwritten w w' pid (pt_addr p) break)
    | OutOfFuel => False
    | _ => same_memory w w'
    end;
  drop_spec w p bytes : saved w p = Some bytes → Forall is_byte bytes →
    let w' := drop_point w p in
    overwritten w w' (pt_pid p) (pt_addr p) bytes ∧
    slot w' (as_ptr (pt_slot p)) = None ∧ (∀ q, q ≠ as_ptr (pt_slot p) → slot w' q = slot w q) ∧
    drops_page w w' (pt_pid p) (dynamic_user_ptr p);
}.

(** ** Shared lemmas *)
Lemma SLOT_big : (64 ≤ SLOT_SIZE)%nat.
Proof. unfold SLOT_SIZE. lia. Qed.
#[global] Opaque SLOT_SIZE.

Section shared.
Context {W : Type} `{KprobeAuxiliaryLaws W}.

Lemma same_code_trans w1 w2 w3 : same_code w1 w2 → same_code w2 w3 → same_code w1 w3.
Proof. intros H12 H23 pid b. by rewrite H23, H12. Qed.
Lemma same_slots_trans w1 w2 w3 : same_slots w1 w2 → same_slots w2 w3 → same_slots w1 w3.
Proof. intros H12 H23 p. by rewrite H23, H12. Qed.
Lemma same_pages_trans w1 w2 w3 : same_pages w1 w2 → same_pages w2 w3 → same_pages w1 w3.
Proof. intros H12 H23 pid p. by rewrite H23, H12. Qed.
Lemma overwritten_same w1 w2 w3 pid a bytes :
  overwritten w1 w2 pid a bytes → same_code w2 w3 → overwritten w1 w3 pid a bytes.
Proof. intros Ho Hs pid' b. by rewrite Hs, Ho. Qed.
Lemma same_overwritten w1 w2 w3 pid a bytes :
  same_code w1 w2 → overwritten w2 w3 pid a bytes → overwritten w1 w3 pid a bytes.
Proof. intros Hs Ho pid' b. rewrite Ho. case_decide; [done|]. apply Hs. Qed.
Lemma same_code_at w w' pid a n : same_code w w' → code_at w' pid a n = code_at w pid a n.
Proof. intros Hs. unfold code_at. apply map_ext. intros i. apply Hs. Qed.
Lemma length_code_at (w : W) pid a n : length (code_at w pid a n) = n.
Proof. unfold code_at. by rewrite length_map, length_seq. Qed.
Lemma code_at_bytes w pid a n : Forall is_byte (code_at w pid a n).
Proof. unfold code_at. apply Forall_forall. intros x (i & -> & _)%list_elem_of_fmap. apply code_byte. Qed.

Lemma code_at_take (w : W) pid a n m : (m ≤ n)%nat → take m (code_at w pid a n) = code_at w pid a m.
Proof.
  intros Hm. unfold code_at. change (map ?f ?l) with (f <$> l). rewrite <- fmap_take. f_equal.
  replace n with (m + (n - m))%nat by lia. rewrite seq_app. apply take_app_length'. by rewrite length_seq.
Qed.

Lemma alloc_exec_spec w pid : let r := alloc_exec_memory w pid in allocates w (as_ptr r.1, r.2).
Proof.
  unfold alloc_exec_memory. destruct pid; simpl.
  - pose proof (box_alloc_law w) as Ha. by destruct (box_alloc w).
  - pose proof (alloc_kernel_law w) as Ha. by destruct (alloc_kernel_exec_memory w).
Qed.
Lemma drop_exec_spec w m : frees w (drop_exec_memory w m) (as_ptr m).
Proof. destruct m; simpl; [apply box_free_law|apply free_kernel_law]. Qed.

(** Giving up after an allocation leaves everything as it was. *)
Lemma abandon_spec w w1 w2 ptr m :
  allocates w (ptr, w1) → as_ptr m = ptr → same_code w1 w2 → same_pages w1 w2 → (∀ q, q ≠ ptr → slot w2 q = slot w1 q) →
  same_memory w (drop_exec_memory w2 m).
Proof.
  intros (_ & Hnone & _ & Hother & Hcode & Hpages & _) <- Hc Hp Hs. simpl in *.
  destruct (drop_exec_spec w2 m) as (Hf1 & Hf2 & Hf3 & Hf4). split_and!.
  - eapply same_code_trans; [|exact Hf3]. by eapply same_code_trans.
  - intros q. destruct (decide (q = as_ptr m)) as [->|Hq]; [by rewrite Hf1|].
    by rewrite Hf2, Hs, Hother.
  - eapply same_pages_trans; [|exact Hf4]. by eapply same_pages_trans.
Qed.

Lemma patch_and_save_spec w a len pid m break inst after_ c :
  slot w (as_ptr m) = Some c → length c = SLOT_SIZE → (len ≤ 15)%nat →
  (length break ≤ len)%nat → Forall is_byte break → length inst = len → (length after_ ≤ len)%nat →
  let w' := patch_and_save w a len pid m break inst after_ in
  overwritten w w' pid a break ∧ (∀ q, q ≠ as_ptr m → slot w' q = slot w q) ∧
  (∃ c', slot w' (as_ptr m) = Some c' ∧ take len c' = inst) ∧ same_pages w w'.
Proof.
  intros Hc Hlen Hl Hb Hbb Hi Ha. unfold patch_and_save. pose proof SLOT_big.
  destruct (patch_law w a len pid break Hb Hbb) as (Ho & Hs1 & Hp1). set (w1 := set_writeable_for_address _ _ _ _ _) in *.
  rewrite <- (Hs1 (as_ptr m)) in Hc.
  destruct (ptr_write_law w1 (as_ptr m) 0 inst c Hc ltac:(lia)) as (Hc2 & Hs2 & Hk2 & Hp2).
  set (w2 := ptr_write w1 _ _ _) in *.
  assert (length (splice c 0 inst) = length c) as Hl2 by (apply length_splice; lia).
  destruct (ptr_write_law w2 (as_ptr m) len after_ _ Hc2 ltac:(rewrite Hl2; lia)) as (Hc3 & Hs3 & Hk3 & Hp3).
  split_and!.
  - eapply overwritten_same; [|exact Hk3]. by eapply overwritten_same.
  - intros q Hq. by rewrite Hs3, Hs2, Hs1.
  - eexists. split; [exact Hc3|]. unfold splice at 1. rewrite take_app_le by (rewrite length_take; lia).
    rewrite take_take, Nat.min_id. unfold splice. simpl. by apply take_app_length'.
  - eapply same_pages_trans; [|exact Hp3]. by eapply same_pages_trans.
Qed.

(** Dropping a point: write back, free the user page and the slot. *)
Lemma drop_common w a len pid bytes dyn m :
  (length bytes ≤ len)%nat → Forall is_byte bytes →
  let w1 := set_writeable_for_address w a len pid bytes in
  let w2 := if negb (dyn =? 0) then free_user_exec_memory w1 pid dyn else w1 in
  let w' := drop_exec_memory w2 m in
  overwritten w w' pid a bytes ∧ slot w' (as_ptr m) = None ∧ (∀ q, q ≠ as_ptr m → slot w' q = slot w q) ∧
  drops_page w w' pid dyn.
Proof.
  intros Hb Hbb w1 w2 w'. destruct (patch_law w a len pid bytes Hb Hbb) as (Ho & Hs1 & Hp1). fold w1 in Ho, Hs1, Hp1.
  assert (same_code w1 w2 ∧ same_slots w1 w2 ∧ drops_page w1 w2 pid dyn) as (Hc2 & Hs2 & Hp2 & Hp2').
  { subst w2. destruct (Z.eqb_spec dyn 0) as [->|Hd]; simpl; [by split_and!|].
    destruct (user_free_law w1 pid dyn) as (Hn & Ho' & Hs & Hc). split; [done|]. split; [done|]. split; [done|].
    intros pid' q [?|Hq]; [done|by apply Ho']. }
  destruct (drop_exec_spec w2 m) as (Hf1 & Hf2 & Hf3 & Hf4). split; [|split; [done|split; [|split]]].
  - eapply overwritten_same; [|exact Hf3]. by eapply overwritten_same.
  - intros q Hq. subst w'. by rewrite Hf2, Hs2, Hs1.
  - intros Hd. subst w'. rewrite Hf4. auto.
  - intros pid' q Hq. subst w'. by rewrite Hf4, Hp2', Hp1.
Qed.

Lemma read_code w a pid n : le_enc n (le_dec (copy_memory w a n pid)) = code_at w pid a n.
Proof.
  rewrite copy_law. rewrite <- (length_code_at w pid a n) at 1. apply le_enc_dec, code_at_bytes.
Qed.
End shared.

Section install.
Context {W : Type} `{KprobeAuxiliaryLaws W}.

(** Success of a fixed-width installation; the copy was read from a world
    [wr] with the same code. *)
Lemma fixed_install w wr pid m w1 a len break after_ :
  alloc_exec_memory w pid = (m, w1) → same_code w wr →
  (length break ≤ len)%nat → Forall is_byte break → (length after_ ≤ len)%nat → (len ≤ 15)%nat →
  let orig := le_enc len (le_dec (copy_memory wr a len pid)) in
  let w' := patch_and_save w1 a len pid m break orig after_ in
  orig = code_at w pid a len ∧ fresh_slot w w' (as_ptr m) ∧
  (∃ c', slot w' (as_ptr m) = Some c' ∧ take len c' = orig) ∧ overwritten w w' pid a break.
Proof.
  intros Hal Hwr Hb Hbb Haf Hlen orig w'. pose proof (alloc_exec_spec w pid) as Ha. rewrite Hal in Ha.
  destruct Ha as (Hne & Hnone & (c & Hc & Hcl) & Hother & Hcode & Hpages & Hcs & Hcp). simpl in *.
  assert (orig = code_at w pid a len) as Horig.
  { subst orig. rewrite read_code. by apply same_code_at. }
  assert (length orig = len) as Hol by (by rewrite Horig, length_code_at).
  destruct (patch_and_save_spec w1 a len pid m break orig after_ c Hc Hcl Hlen Hb Hbb Hol Haf) as (Ho & Hs & Hsaved & Hp).
  unfold fresh_slot. split_and!; try done.
  - intros q Hq. subst w'. by rewrite Hs, Hother.
  - by eapply same_pages_trans.
  - by eapply same_overwritten.
Qed.

Lemma fixed_abandon w pid m w1 :
  alloc_exec_memory w pid = (m, w1) →
  same_memory w (drop_exec_memory w1 m).
Proof.
  intros Hal. pose proof (alloc_exec_spec w pid) as Ha. rewrite Hal in Ha.
  by eapply (abandon_spec w w1 w1 (as_ptr m)).
Qed.

Lemma take_slot (o : option str) n bytes : take n <$> o = Some bytes → o ≠ None ∧ (length bytes ≤ n)%nat.
Proof. destruct o; intros [= <-]. split; [done|]. rewrite length_take. lia. Qed.

(** The saved instruction is the head of the slot. *)
Definition slot_saved `{KprobeOps P} (w : W) (p : P) : option str :=
  c ← slot w (as_ptr (pt_slot p));
  if decide (original_instruction_len p ≤ length c)%nat then Some (take (original_instruction_len p) c) else None.

Lemma slot_saved_eq `{KprobeOps P} w (p : P) c :
  slot w (as_ptr (pt_slot p)) = Some c → (original_instruction_len p ≤ length c)%nat →
  slot_saved w p = Some (take (original_instruction_len p) c).
Proof. intros Hc Hl. unfold slot_saved. rewrite Hc. simpl. by rewrite decide_True. Qed.

Lemma slot_saved_live `{KprobeOps P} w (p : P) bytes :
  slot_saved w p = Some bytes →
  slot w (as_ptr (pt_slot p)) ≠ None ∧ length bytes = original_instruction_len p.
Proof.
  unfold slot_saved. destruct (slot w _) as [c|]; simpl; [|done]. case_decide; [|done]. intros [= <-].
  split; [done|]. rewrite length_take. lia.
Qed.

Lemma slot_saved_read `{KprobeOps P} w (p : P) bytes :
  slot_saved w p = Some bytes → ptr_read w (as_ptr (pt_slot p)) 0 (original_instruction_len p) = bytes.
Proof.
  unfold slot_saved. destruct (slot w _) as [c|] eqn:Hc; simpl; [|done]. case_decide; [|done]. intros [= <-].
  by rewrite (ptr_read_law _ _ _ _ _ Hc).
Qed.
End install.

(** ** RISC-V *)
Section rv64.
Context {W : Type} `{KprobeAuxiliaryLaws W}.
Import Rv64.

Definition rv_saved (w : W) (p : Rv64ProbePoint) : option str :=
  match slot w (as_ptr (old_instruction_ptr p)) with
  | Some _ => Some (inst_bytes (old_instruction p)) | None => None
  end.

Lemma rv_validate16 i : validate_inst16 i ≠ Panic ∧ validate_inst16 i ≠ OutOfFuel.
Proof. unfold validate_inst16. by repeat case_match. Qed.
Lemma rv_validate32 i : validate_inst32 i ≠ Panic ∧ validate_inst32 i ≠ OutOfFuel.
Proof. unfold validate_inst32. by case_match. Qed.

#[export] Instance Rv64_laws : ProbeArchLaws W Rv64ProbePoint.
Proof.
  refine {| saved := rv_saved |}.
  - intros w w' p Hs. unfold rv_saved. simpl in Hs. by rewrite Hs.
  - intros w p bytes. unfold rv_saved. simpl. destruct (slot w _); [|done]. intros [= <-]. split; [done|].
    by destruct (old_instruction p).
  - done.
  - done.
  - intros bm w sa off pid. cbn [KprobeBase.replace_inst Rv64_arch]. unfold replace_inst.
    destruct (arith 64 (sa + off)) as [a|e| |] eqn:Har; [|by unfold arith in Har; repeat case_match|done|by unfold arith in Har; repeat case_match].
    destruct (negb (Z.land a 1 =? 0)); [done|]. destruct (alloc_exec_memory w pid) as [m w1] eqn:Hal.
    pose proof (fixed_abandon w pid m w1 Hal) as Hab. destruct (negb _).
    + destruct (validate_inst16 _) eqn:Hv; try done; [|by destruct (rv_validate16 (le_dec (copy_memory w a 2 pid)))].
      destruct (fixed_install w w pid m w1 a 2 (le_enc 2 C_EBREAK_INST) (le_enc 2 C_EBREAK_INST) Hal)
        as (Ho & Hn & (c & Hc & _) & Hov); try done; try apply le_enc_bytes; try (rewrite length_le_enc; lia); [lia|].
      split_and!; try done; [simpl; lia|..].
      * unfold rv_saved. cbn [mk_point old_instruction_ptr old_instruction inst_bytes]. by rewrite Hc, Ho.
      * eexists. split; [|exact Hov]. rewrite length_le_enc. simpl. lia.
    + destruct (negb (Z.land a 3 =? 0)); [done|].
      assert (same_code w w1) as Hsc by (pose proof (alloc_exec_spec w pid) as Ha; rewrite Hal in Ha; apply Ha).
      destruct (validate_inst32 _) eqn:Hv; try done; [|by destruct (rv_validate32 (le_dec (copy_memory w1 a 4 pid)))].
      destruct (fixed_install w w1 pid m w1 a 4 (le_enc 4 EBREAK_INST) (le_enc 4 EBREAK_INST) Hal Hsc)
        as (Ho & Hn & (c & Hc & _) & Hov); try done; try apply le_enc_bytes; try (rewrite length_le_enc; lia); [lia|].
      split_and!; try done; [simpl; lia|..].
      * unfold rv_saved. cbn [mk_point old_instruction_ptr old_instruction inst_bytes]. by rewrite Hc, Ho.
      * eexists. split; [|exact Hov]. rewrite length_le_enc. simpl. lia.
  - intros w p bytes Hb Hbb w'. unfold rv_saved in Hb. destruct (slot w _); [|done]. injection Hb as <-.
    apply drop_common; [|done]. by destruct (old_instruction p).
Defined.
End rv64.

(** ** AArch64 and LoongArch *)
Section fixed_width.
Context {W : Type} `{KprobeAuxiliaryLaws W}.

Lemma aarch64_validate i : AArch64.validate_instruction i ≠ Panic ∧ AArch64.validate_instruction i ≠ OutOfFuel.
Proof. unfold AArch64.validate_instruction. by repeat case_match. Qed.
Lemma la64_validate i : LA64.validate_instruction i ≠ Panic ∧ LA64.validate_instruction i ≠ OutOfFuel.
Proof. unfold LA64.validate_instruction. by repeat case_match. Qed.

Lemma slot_saved_install `{KprobeOps P} w (p : P) c orig :
  slot w (as_ptr (pt_slot p)) = Some c → take (original_instruction_len p) c = orig →
  length orig = original_instruction_len p → slot_saved w p = Some orig.
Proof.
  intros Hc <- Hl. apply slot_saved_eq; [done|]. rewrite length_take in Hl. lia.
Qed.

#[export] Instance AArch64_laws : ProbeArchLaws W AArch64.AArch64ProbePoint.
Proof.
  refine {| saved := slot_saved |}.
  - intros w w' p Hs. unfold slot_saved. by rewrite Hs.
  - apply slot_saved_live.
  - done.
  - done.
  - intros bm w sa off pid. cbn [KprobeBase.replace_inst AArch64.AArch64_arch]. unfold AArch64.replace_inst.
    destruct (arith 64 (sa + off)) as [a|e| |] eqn:Har; [|by unfold arith in Har; repeat case_match|done|by unfold arith in Har; repeat case_match].
    destruct (negb _); [done|]. destruct (alloc_exec_memory w pid) as [m w1] eqn:Hal.
    pose proof (fixed_abandon w pid m w1 Hal) as Hab.
    assert (same_code w w1) as Hsc by (pose proof (alloc_exec_spec w pid) as Ha; rewrite Hal in Ha; apply Ha).
    destruct (AArch64.validate_instruction _) eqn:Hv; try done;
      [|by destruct (aarch64_validate (le_dec (copy_memory w1 a 4 pid)))].
    destruct (fixed_install w w1 pid m w1 a 4 (le_enc 4 AArch64.BRK64_OPCODE_KPROBES)
      (le_enc 4 AArch64.BRK64_OPCODE_KPROBES_SS) Hal Hsc)
      as (Ho & Hn & (c & Hc & Ht) & Hov); try done; try apply le_enc_bytes; try (rewrite length_le_enc; lia); [lia|].
    split_and!; try done; [simpl; unfold AArch64.BRK64_INST_LEN, LA64.EBREAK_INST_LEN; lia|..].
    + rewrite Ho in *. apply (slot_saved_install _ _ c); [exact Hc|exact Ht|apply length_code_at].
    + eexists. split; [|exact Hov]. rewrite length_le_enc. simpl. unfold AArch64.BRK64_INST_LEN. lia.
  - intros w p bytes Hb Hbb w'. destruct (slot_saved_live _ _ _ Hb) as [_ Hl].
    assert (w' = AArch64.drop_point w p) as -> by done. unfold AArch64.drop_point.
    rewrite (slot_saved_read w p bytes Hb : ptr_read w (as_ptr (AArch64.old_instruction_ptr p)) 0 AArch64.BRK64_INST_LEN = bytes).
    apply drop_common; [|done]. rewrite Hl. done.
Defined.

#[export] Instance LA64_laws : ProbeArchLaws W LA64.LA64ProbePoint.
Proof.
  refine {| saved := slot_saved |}.
  - intros w w' p Hs. unfold slot_saved. by rewrite Hs.
  - apply slot_saved_live.
  - done.
  - done.
  - intros bm w sa off pid. cbn [KprobeBase.replace_inst LA64.LA64_arch]. unfold LA64.replace_inst.
    destruct (arith 64 (sa + off)) as [a|e| |] eqn:Har; [|by unfold arith in Har; repeat case_match|done|by unfold arith in Har; repeat case_match].
    destruct (negb _); [done|]. destruct (alloc_exec_memory w pid) as [m w1] eqn:Hal.
    pose proof (fixed_abandon w pid m w1 Hal) as Hab.
    assert (same_code w w1) as Hsc by (pose proof (alloc_exec_spec w pid) as Ha; rewrite Hal in Ha; apply Ha).
    destruct (LA64.validate_instruction _) eqn:Hv; try done;
      [|by destruct (la64_validate (le_dec (copy_memory w1 a 4 pid)))].
    destruct (fixed_install w w1 pid m w1 a 4 (le_enc 4 LA64.EBREAK_INST) (le_enc 4 LA64.EBREAK_INST) Hal Hsc)
      as (Ho & Hn & (c & Hc & Ht) & Hov); try done; try apply le_enc_bytes; try (rewrite length_le_enc; lia); [lia|].
    split_and!; try done; [simpl; unfold AArch64.BRK64_INST_LEN, LA64.EBREAK_INST_LEN; lia|..].
    + rewrite Ho in *. apply (slot_saved_install _ _ c); [exact Hc|exact Ht|apply length_code_at].
    + eexists. split; [|exact Hov]. rewrite length_le_enc. simpl. unfold LA64.EBREAK_INST_LEN. lia.
  - intros w p bytes Hb Hbb w'. destruct (slot_saved_live _ _ _ Hb) as [_ Hl].
    assert (w' = LA64.drop_point w p) as -> by done. unfold LA64.drop_point.
    rewrite (slot_saved_read w p bytes Hb : ptr_read w (as_ptr (LA64.old_instruction_ptr p)) 0 LA64.EBREAK_INST_LEN = bytes).
    apply drop_common; [|done]. rewrite Hl. done.
Defined.
End fixed_width.

(** ** x86-64 *)

(** A decoded instruction has between one byte and the whole buffer. *)
Class X86DecoderLaws (I : Type) `{X86.X86Decoder I} : Prop := {
  decode_length buf i : X86.decode_slice buf = Some i → (1 ≤ X86.inst_length i ≤ length buf)%nat;
}.

Section x86.
Context {W : Type} `{KprobeAuxiliaryLaws W} {I : Type} `{X86DecoderLaws I}.

Lemma x86_validate (i : I) : X86.validate_instruction i ≠ Panic ∧ X86.validate_instruction i ≠ OutOfFuel.
Proof. unfold X86.validate_instruction. by repeat case_match. Qed.

Lemma x86_replace `{BuildMode} w sa off pid :
  let '(w', r) := X86.replace_inst (I := I) w sa off pid in
  match r with
  | Ok p =>
      let a := sa + off in
      let ptr := as_ptr (pt_slot p) in
      arith (E := ProbeInstallError) 64 a = Ok (pt_addr p) ∧ pt_pid p = pid ∧ dynamic_user_ptr p = 0 ∧
      fresh_slot w w' ptr ∧ (original_instruction_len p ≤ 15)%nat ∧
      slot_saved w' p = Some (code_at w pid (pt_addr p) (original_instruction_len p)) ∧
      (∃ break, (1 ≤ length break ≤ original_instruction_len p)%nat ∧ overwritten w w' pid (pt_addr p) break)
  | OutOfFuel => False
  | _ => same_memory w w'
  end.
Proof.
  unfold X86.replace_inst.
  destruct (arith 64 (sa + off)) as [a|e| |] eqn:Har; [|by unfold arith in Har; repeat case_match|done|by unfold arith in Har; repeat case_match].
  destruct (alloc_exec_memory w pid) as [m w1] eqn:Hal.
  pose proof (alloc_exec_spec w pid) as Ha. rewrite Hal in Ha.
  destruct Ha as (Hne & Hnone & (c & Hc & Hcl) & Hother & Hcode & Hpages & Hcs & Hcp). simpl in *.
  rewrite copy_law, (same_code_at w w1) by done. set (orig := code_at w pid a X86.MAX_INSTRUCTION_SIZE).
  assert (length orig = 15%nat) as Hol by apply length_code_at. pose proof SLOT_big.
  destruct (ptr_write_law w1 (as_ptr m) 0 orig c Hc ltac:(lia)) as (Hc2 & Hs2 & Hk2 & Hp2).
  set (w2 := ptr_write w1 _ _ _) in *.
  assert (same_memory w (drop_exec_memory w2 m)) as Hab.
  { apply (abandon_spec w w1 w2 (as_ptr m)); [split_and!; simpl; eauto| | | |]; done. }
  assert (take 15 (splice c 0 orig) = orig) as Htake by (unfold splice; rewrite take_0; cbn [app]; by rewrite take_app_length' by done).
  rewrite (ptr_read_law w2 (as_ptr m) 0 X86.MAX_INSTRUCTION_SIZE _ Hc2)
    by (rewrite length_splice; unfold X86.MAX_INSTRUCTION_SIZE; lia).
  rewrite drop_0. change X86.MAX_INSTRUCTION_SIZE with 15%nat. rewrite Htake.
  destruct (X86.decode_slice orig) as [i|] eqn:Hd; [|done].
  destruct (decode_length _ _ Hd) as [Hl1 Hl2].
  destruct (X86.validate_instruction i) eqn:Hv; try done; [|by destruct (x86_validate i)].
  destruct (patch_law w2 a (X86.inst_length i) pid [X86.EBREAK_INST] Hl1 ltac:(repeat constructor; unfold X86.EBREAK_INST, is_byte; lia)) as (Ho & Hs3 & Hp3).
  unfold fresh_slot. split_and!; try done.
  - intros q Hq. simpl in *. by rewrite Hs3, Hs2, Hother.
  - simpl. eapply same_pages_trans; [|exact Hp3]. by eapply same_pages_trans.
  - simpl. rewrite <- (code_at_take w pid a 15) by lia. change (code_at w pid a 15) with orig. rewrite <- Htake.
    change 15%nat with X86.MAX_INSTRUCTION_SIZE. rewrite take_take, Nat.min_l by (unfold X86.MAX_INSTRUCTION_SIZE; lia).
    rewrite (slot_saved_eq _ _ (splice c 0 orig)); cbn [pt_slot original_instruction_len X86.X86_ops X86.old_instruction_ptr X86.old_instruction_len]; [done|by rewrite Hs3|]. rewrite length_splice by lia. lia.
  - exists [X86.EBREAK_INST]. simpl. split; [lia|]. eapply same_overwritten; [|exact Ho]. by eapply same_code_trans.
Qed.

#[export] Instance X86_laws : ProbeArchLaws W X86.X86ProbePoint (H1 := X86.X86_arch (I := I)).
Proof.
  refine {| saved := slot_saved |}.
  - intros w w' p Hs. unfold slot_saved. by rewrite Hs.
  - apply slot_saved_live.
  - done.
  - done.
  - intros bm w sa off pid. apply x86_replace.
  - intros w p bytes Hb Hbb w'. destruct (slot_saved_live _ _ _ Hb) as [_ Hl].
    assert (w' = X86.drop_point w p) as -> by done. unfold X86.drop_point.
    rewrite (slot_saved_read w p bytes Hb : ptr_read w (as_ptr (X86.old_instruction_ptr p)) 0 (X86.old_instruction_len p) = bytes).
    apply drop_common; [|done]. rewrite Hl. done.
Defined.
End x86.

(** ** What the checks let through *)

(** [adrp x0, 0] is relative to the program counter like [adr], and passes. *)
Lemma aarch64_adrp_accepted :
  AArch64.validate_instruction 0x10000000 = Err UnsafeInstruction ∧ AArch64.validate_instruction 0x90000000 = Ok ().
Proof. done. Qed.
(** So do [blt], [beqz] and [pcaddi] of LoongArch. *)
Lemma la64_branches_accepted :
  LA64.validate_instruction (Z.shiftl 0x18 26) = Ok () ∧ LA64.validate_instruction (Z.shiftl 0x10 26) = Ok () ∧
  LA64.validate_instruction (Z.shiftl 0x0c 25) = Ok ().
Proof. done. Qed.
(** [c.addiw a0, 1] takes on RV64 the encoding that [c.jal] has on RV32. *)
Lemma rv64_addiw_rejected : Rv64.validate_inst16 0x2505 = Err UnsafeInstruction.
Proof. done. Qed.
