(* ===== verification/Kprobe.v ===== *)
(** The probe manager (kprobe/src: manager.rs, kprobe/mod.rs, uprobe/mod.rs,
    lib.rs): registration, the two lists of probes by address, and the
    breakpoint and single-step handlers, over any architecture.

    [Arc]s are addresses into two heaps, of probe points and of probes; an
    object is dropped when the code gives up the last reference to it, which
    the [release_*] functions decide from the references that remain (the
    lists, the point list and the handles the caller holds).  The clones a
    handler makes of a list and drops before it returns are not shown. *)
From S2P Require Import Prelude Text KprobeBase.

Section kprobe.
Context `{BuildMode} {W S R D P : Type} `{KprobeAuxiliaryOps W} `{KprobeOps P} `{ProbeArch W P} `{PtRegsOps R}.
Context (unit_data : D).

(** ** Data *)
Inductive UniProbe :=
  | UKprobe (ptr : Z)
  | UKretprobe (ptr : Z)
  | UUprobe (ptr : Z)
  | UUretprobe (ptr : Z).
Definition uni_ptr (u : UniProbe) : Z :=
  match u with UKprobe p | UKretprobe p | UUprobe p | UUretprobe p => p end.
(** [impl PartialEq for UniProbe]: [Arc::ptr_eq] within a kind. *)
Definition uni_eq (a b : UniProbe) : bool :=
  match a, b with
  | UKprobe p, UKprobe q | UKretprobe p, UKretprobe q | UUprobe p, UUprobe q | UUretprobe p, UUretprobe q => p =? q
  | _, _ => false
  end.
Definition is_kretprobe (u : UniProbe) : bool := match u with UKretprobe _ => true | _ => false end.

(** [Probe]: the basic part and the [Arc] of its point. *)
Record Probe := { basic : ProbeBasic S R D; point : Z }.

Record ProbeManager := { break_list : gmap Z (list UniProbe); debug_list : gmap Z (list UniProbe) }.
Definition ProbeManager_new : ProbeManager := {| break_list := ∅; debug_list := ∅ |}.

Record Kstate := {
  world : W;
  points : gmap Z P;               (* live probe points *)
  probes : gmap Z Probe;           (* live probes *)
  handles : list Z;                (* the references callers hold *)
  point_list : gmap Z Z;           (* ProbePointList *)
  manager : ProbeManager;
}.
Definition upd_world s w := {| world := w; points := points s; probes := probes s; handles := handles s; point_list := point_list s; manager := manager s |}.
Definition upd_points s x := {| world := world s; points := x; probes := probes s; handles := handles s; point_list := point_list s; manager := manager s |}.
Definition upd_probes s x := {| world := world s; points := points s; probes := x; handles := handles s; point_list := point_list s; manager := manager s |}.
Definition upd_handles s x := {| world := world s; points := points s; probes := probes s; handles := x; point_list := point_list s; manager := manager s |}.
Definition upd_point_list s x := {| world := world s; points := points s; probes := probes s; handles := handles s; point_list := x; manager := manager s |}.
Definition upd_manager s x := {| world := world s; points := points s; probes := probes s; handles := handles s; point_list := point_list s; manager := x |}.

(** ** Manager *)
Definition entry_push (m : gmap Z (list UniProbe)) (a : Z) (u : UniProbe) : gmap Z (list UniProbe) :=
  <[a := default [] (m !! a) ++ [u]]> m.
Definition insert_break_point (m : ProbeManager) (a : Z) (u : UniProbe) : ProbeManager :=
  {| break_list := entry_push (break_list m) a u; debug_list := debug_list m |}.
Definition insert_debug_point (m : ProbeManager) (a : Z) (u : UniProbe) : ProbeManager :=
  {| break_list := break_list m; debug_list := entry_push (debug_list m) a u |}.

Definition insert_probe {E} (m : ProbeManager) (p : P) (u : UniProbe) : res E ProbeManager :=
  let m := insert_break_point m (break_address p) u in
  d ← debug_address p;
  Ok (insert_debug_point m d u).

Definition get_break_list (m : ProbeManager) (a : Z) : option (list UniProbe) := break_list m !! a.
Definition get_debug_list (m : ProbeManager) (a : Z) : option (list UniProbe) := debug_list m !! a.
Definition break_list_len (m : ProbeManager) (a : Z) : nat :=
  default 0%nat (length <$> break_list m !! a).
Definition kprobe_num (m : ProbeManager) (a : Z) : nat := break_list_len m a.

Definition replace_debug_list_with_new_address (m : ProbeManager) (old_address new_address : Z) : ProbeManager :=
  match debug_list m !! old_address with
  | Some l => {| break_list := break_list m;
                 debug_list := <[new_address := l]> (delete old_address (debug_list m)) |}
  | None => m
  end.

(** [retain(|x| x != probe)], and the entry removed when it is empty. *)
Definition remove_one (m : gmap Z (list UniProbe)) (a : Z) (u : UniProbe) : gmap Z (list UniProbe) :=
  let m := match m !! a with
           | Some l => <[a := List.filter (λ x, negb (uni_eq x u)) l]> m
           | None => m
           end in
  if (default 0%nat (length <$> m !! a) =? 0)%nat then delete a m else m.
Definition remove_one_break (m : ProbeManager) (a : Z) (u : UniProbe) : ProbeManager :=
  {| break_list := remove_one (break_list m) a u; debug_list := debug_list m |}.
Definition remove_one_debug (m : ProbeManager) (a : Z) (u : UniProbe) : ProbeManager :=
  {| break_list := break_list m; debug_list := remove_one (debug_list m) a u |}.
Definition remove_probe {E} (m : ProbeManager) (p : P) (u : UniProbe) : res E ProbeManager :=
  let m := remove_one_break m (break_address p) u in
  d ← debug_address p;
  Ok (remove_one_debug m d u).

(** ** References *)
Definition listed (m : gmap Z (list UniProbe)) (ptr : Z) : Prop :=
  map_Exists (λ _ l, Exists (λ u, uni_ptr u = ptr) l) m.
#[global] Instance listed_dec m ptr : Decision (listed m ptr) := _.
Definition probe_owned (s : Kstate) (ptr : Z) : Prop :=
  ptr ∈ handles s ∨ listed (break_list (manager s)) ptr ∨ listed (debug_list (manager s)) ptr.
Definition point_owned (s : Kstate) (q : Z) : Prop :=
  map_Exists (λ _ x, x = q) (point_list s) ∨ map_Exists (λ _ o, point o = q) (probes s).
#[global] Instance probe_owned_dec s ptr : Decision (probe_owned s ptr) := _.
#[global] Instance point_owned_dec s q : Decision (point_owned s q) := _.

(** The drop of a reference to a point, and of one to a probe. *)
Definition release_point (s : Kstate) (q : Z) : Kstate :=
  if decide (point_owned s q) then s
  else match points s !! q with
       | Some p => upd_points (upd_world s (drop_point (world s) p)) (delete q (points s))
       | None => s
       end.
Definition release_probe (s : Kstate) (ptr : Z) : Kstate :=
  if decide (probe_owned s ptr) then s
  else match probes s !! ptr with
       | Some o => release_point (upd_probes s (delete ptr (probes s))) (point o)
       | None => s
       end.

(** ** Registration *)

(** The point of [install]: an existing one, or a new one at [ppoint]. *)
Definition install (s : Kstate) (b : ProbeBuilder S R D Z) (ppoint : Z) : Kstate * res ProbeInstallError (Probe * Z) :=
  match probe_point b with
  | Some q => (s, Ok ({| basic := ProbeBasic_from unit_data b; point := q |}, q))
  | None =>
      let '(w, r) := replace_inst (world s) (symbol_addr b) (offset b) (user_pid b) in
      let s := upd_world s w in
      match r with
      | Ok p => (upd_points s (<[ppoint := p]> (points s)),
                 Ok ({| basic := ProbeBasic_from unit_data b; point := ppoint |}, ppoint))
      | Err e => (s, Err e)
      | Panic => (s, Panic)
      | OutOfFuel => (s, OutOfFuel)
      end
  end.

Definition __register_kprobe (s : Kstate) (b : ProbeBuilder S R D Z) (ppoint : Z) :
    Kstate * res ProbeInstallError Probe :=
  match probe_addr b with
  | Ok address =>
      match point_list s !! address with
      | Some existed_point =>
          let '(s, r) := install s (build_step b (WithProbePoint existed_point)) ppoint in
          (s, fst <$> r)
      | None =>
          let '(s, r) := install s b ppoint in
          match r with
          | Ok (kprobe, q) => (upd_point_list s (<[address := q]> (point_list s)), Ok kprobe)
          | Err e => (s, Err e)
          | Panic => (s, Panic)
          | OutOfFuel => (s, OutOfFuel)
          end
      end
  | Err e => (s, Err e)
  | Panic => (s, Panic)
  | OutOfFuel => (s, OutOfFuel)
  end.

(** Registration of a probe of any kind: [mk] wraps the new [Arc] at
    [pprobe], of which the caller receives a reference. *)
Definition register_probe (mk : Z → UniProbe) (s : Kstate) (b : ProbeBuilder S R D Z) (ppoint pprobe : Z) :
    Kstate * res ProbeInstallError Z :=
  let '(s, r) := __register_kprobe s b ppoint in
  match r with
  | Ok kprobe =>
      let s := upd_probes s (<[pprobe := kprobe]> (probes s)) in
      match (p ← unwrap (points s !! point kprobe); insert_probe (manager s) p (mk pprobe)) with
      | Ok m => (upd_handles (upd_manager s m) (pprobe :: handles s), Ok pprobe)
      | Err e => (s, Err e)
      | Panic => (s, Panic)
      | OutOfFuel => (s, OutOfFuel)
      end
  | Err e => (s, Err e)
  | Panic => (s, Panic)
  | OutOfFuel => (s, OutOfFuel)
  end.
Definition register_kprobe := register_probe UKprobe.
Definition register_uprobe (s : Kstate) (b : ProbeBuilder S R D Z) (ppoint pprobe : Z) :
    Kstate * res ProbeInstallError Z :=
  match user_pid b with
  | Some _ => register_probe UUprobe s b ppoint pprobe
  | None => (s, Panic)
  end.

(** One reference fewer. *)
Fixpoint remove_handle (ptr : Z) (l : list Z) : list Z :=
  match l with [] => [] | x :: l => if x =? ptr then l else x :: remove_handle ptr l end.

(** [unregister_kprobe], [unregister_kretprobe], [unregister_uprobe]: the
    reference passed in is consumed by [remove_probe]. *)
Definition unregister_probe (s : Kstate) (u : UniProbe) : res () Kstate :=
  kprobe ← unwrap (probes s !! uni_ptr u);
  p ← unwrap (points s !! point kprobe);
  let kprobe_addr := break_address p in
  m ← remove_probe (manager s) p u;
  let s := release_probe (upd_handles (upd_manager s m) (remove_handle (uni_ptr u) (handles s))) (uni_ptr u) in
  if (kprobe_num (manager s) kprobe_addr =? 0)%nat then
    match point_list s !! kprobe_addr with
    | Some q => Ok (release_point (upd_point_list s (delete kprobe_addr (point_list s))) q)
    | None => Ok s
    end
  else Ok s.
Definition unregister_kprobe (s : Kstate) (ptr : Z) : res () Kstate := unregister_probe s (UKprobe ptr).
Definition unregister_kretprobe (s : Kstate) (ptr : Z) : res () Kstate := unregister_probe s (UKretprobe ptr).
Definition unregister_uprobe (s : Kstate) (ptr : Z) : res () Kstate := unregister_probe s (UUprobe ptr).

(** A caller drops a reference of its own. *)
Definition drop_handle (s : Kstate) (ptr : Z) : Kstate :=
  release_probe (upd_handles s (remove_handle ptr (handles s))) ptr.

(** ** Handlers *)
Definition probe_of (s : Kstate) (u : UniProbe) : res () Probe := unwrap (probes s !! uni_ptr u).
Definition point_of (s : Kstate) (u : UniProbe) : res () P := o ← probe_of s u; unwrap (points s !! point o).

(** [for kprobe in list.iter() { if kprobe.is_enabled() { f } }]. *)
Fixpoint for_enabled (s : Kstate) (f : ProbeBasic S R D → S * R → S * R) (l : list UniProbe) (sr : S * R) :
    res () (S * R) :=
  match l with
  | [] => Ok sr
  | u :: l => o ← probe_of s u; for_enabled s f l (if is_enabled (basic o) then f (basic o) sr else sr)
  end.

Definition handler_from_debug (s : Kstate) (sr : S * R) : res () (option () * (S * R)) :=
  let pc := regs_debug_address sr.2 in
  match get_debug_list (manager s) pc with
  | Some l =>
      sr ← for_enabled s (λ b sr, call_event_callback b (call_post_handler b sr)) l sr;
      u ← unwrap (l !! 0%nat);
      p ← point_of s u;
      return_address ← return_address p;
      Ok (Some (), (sr.1, clear_single_step sr.2 return_address))
  | None => Ok (None, sr)
  end.
Definition kprobe_handler_from_debug := handler_from_debug.
Definition uprobe_handler_from_debug := handler_from_debug.

Definition kprobe_handler_from_break (s : Kstate) (sr : S * R) : res () (option () * (S * R)) :=
  break_addr ← regs_break_address sr.2;
  match get_break_list (manager s) break_addr with
  | Some l =>
      sr ← for_enabled s call_pre_handler l sr;
      u ← unwrap (l !! 0%nat);
      p ← point_of s u;
      Ok (Some (), (sr.1, setup_single_step sr.2 (single_step_address p)))
  | None => kprobe_handler_from_debug s sr
  end.

(** The first hit of a user probe copies its slot into the process. *)
Definition uprobe_handler_from_break (s : Kstate) (sr : S * R) : res () (option () * (Kstate * (S * R))) :=
  break_addr ← regs_break_address sr.2;
  match get_break_list (manager s) break_addr with
  | Some l =>
      sr ← for_enabled s call_pre_handler l sr;
      u ← unwrap (l !! 0%nat);
      o ← probe_of s u;
      p ← unwrap (points s !! point o);
      if negb (dynamic_user_ptr p =? 0) then
        Ok (Some (), (s, (sr.1, setup_single_step sr.2 (dynamic_user_ptr p))))
      else
        let bytes := ptr_read (world s) (single_step_address p) 0 (instruction_slot_len p) in
        let '(user_ptr, w) := alloc_user_exec_memory (world s) (pt_pid p) bytes in
        old_debug_address ← debug_address p;
        '(p, new_debug_address) ← set_dynamic_user_ptr p user_ptr;
        let s := upd_points (upd_world s w) (<[point o := p]> (points s)) in
        let s := upd_manager s (replace_debug_list_with_new_address (manager s) old_debug_address new_debug_address) in
        Ok (Some (), (s, (sr.1, setup_single_step sr.2 user_ptr)))
  | None =>
      '(o, sr) ← uprobe_handler_from_debug s sr;
      Ok (o, (s, sr))
  end.
End kprobe.
Arguments Probe : clear implicits.
Arguments Kstate : clear implicits.
