(* ===== verification/KprobeProps.v ===== *)
(** The invariant of the probe manager: the two lists, the point list and
    the heaps of probes and points agree, and nothing live is unowned. *)
From S2P Require Import Prelude Text KprobeBase KprobeArchProps Kprobe.

(** ** Lists of probes *)
#[export] Instance UniProbe_eq_dec : EqDecision UniProbe.
Proof. solve_decision. Defined.
Lemma uni_eq_spec a b : uni_eq a b = bool_decide (a = b).
Proof.
  apply eq_true_iff_eq. rewrite bool_decide_eq_true.
  destruct a, b; simpl; rewrite ?Z.eqb_eq; (split; [try done; by intros ->|by intros [=]]).
Qed.

Definition without (u : UniProbe) (l : list UniProbe) : list UniProbe := List.filter (λ x, negb (uni_eq x u)) l.

Lemma elem_of_without u l x : x ∈ without u l ↔ x ∈ l ∧ x ≠ u.
Proof.
  unfold without. rewrite list_elem_of_In, filter_In, <- list_elem_of_In, uni_eq_spec.
  split; intros [Hx Hu]; (split; [done|]); by destruct (bool_decide_reflect (x = u)).
Qed.
Lemma without_notin u l : u ∉ l → without u l = l.
Proof.
  induction l as [|x l IH]; [done|]. intros Hu. apply not_elem_of_cons in Hu as [Hx Hl].
  unfold without. simpl. rewrite uni_eq_spec, bool_decide_eq_false_2 by done. simpl. f_equal. by apply IH.
Qed.
Lemma without_sublist u l : without u l `sublist_of` l.
Proof. induction l as [|x l IH]; simpl; [done|]. destruct (negb _); by constructor. Qed.

Definition nonempty {A} (l : list A) : option (list A) := match l with [] => None | _ => Some l end.
Lemma nonempty_Some {A} (l l' : list A) : nonempty l = Some l' ↔ l = l' ∧ l ≠ [].
Proof. destruct l; simpl; naive_solver. Qed.

Lemma lookup_remove_one m a u b :
  (∀ c l, m !! c = Some l → l ≠ []) →
  remove_one m a u !! b = if decide (b = a) then l ← m !! a; nonempty (without u l) else m !! b.
Proof.
  intros Hne. unfold remove_one. cbv zeta. destruct (m !! a) as [l|] eqn:Hl.
  - fold (without u l). rewrite (lookup_insert_eq m a).
    destruct (without u l) as [|x l'] eqn:Hw; cbn.
    + rewrite delete_insert_eq.
      case_decide as Hb; [subst b; rewrite lookup_delete_eq|rewrite lookup_delete_ne by done]; [|done].
      simpl. by rewrite Hw.
    + case_decide as Hb; [subst b; rewrite lookup_insert_eq|rewrite lookup_insert_ne by done]; [|done].
      simpl. by rewrite Hw.
  - rewrite Hl. cbn. case_decide as Hb; [subst b; by rewrite lookup_delete_eq|by rewrite lookup_delete_ne].
Qed.

Lemma remove_one_notin m a u :
  (∀ c l, m !! c = Some l → l ≠ []) → (∀ l, m !! a = Some l → u ∉ l) → remove_one m a u = m.
Proof.
  intros Hne Hu. apply map_eq. intros b. rewrite lookup_remove_one by done. case_decide as Hb; [|done].
  subst b. destruct (m !! a) as [l|] eqn:Hl; simpl; [|done]. rewrite without_notin by eauto.
  apply nonempty_Some. eauto.
Qed.

Lemma arith_any `{BuildMode} {E E'} w z v : arith (E := E) w z = Ok v → arith (E := E') w z = Ok v.
Proof. unfold arith. destruct (in_u w z); [by intros [= <-]|]. destruct overflow_checks; by intros [= <-]. Qed.

Section invariant.
Context `{BuildMode} {W S R D P : Type} `{KprobeAuxiliaryLaws W} `{KprobeOps P} `{!ProbeArch W P}.
Context {HL : ProbeArchLaws W P}.
Implicit Types (s : Kstate W S R D P) (o : Probe S R D) (p : P) (u : UniProbe) (l : list UniProbe).

(** ** The invariant *)

(** [debug_address] does not depend on who asks. *)
Definition debug_is p (d : Z) : Prop := debug_address (E := ()) p = Ok d.

Lemma debug_is_any {E} p d : debug_address (E := E) p = Ok d ↔ debug_is p d.
Proof. unfold debug_is, debug_address. destruct (_ =? _); split; apply arith_any. Qed.

Lemma debug_is_fun p d d' : debug_is p d → debug_is p d' → d = d'.
Proof. unfold debug_is. intros -> [= ->]. done. Qed.

Definition probe_at s (q : Z) u : Prop := ∃ o, probes s !! uni_ptr u = Some o ∧ point o = q.

(** The probes [l] of the point [p], which lives at [q]. *)
Record listing s (a : Z) l (q : Z) p (d : Z) : Prop := {
  li_nonempty : l ≠ [];
  li_nodup : NoDup (uni_ptr <$> l);
  li_plist : point_list s !! a = Some q;
  li_point : points s !! q = Some p;
  li_addr : pt_addr p = a;
  li_debug : debug_is p d;
  li_dlist : debug_list (manager s) !! d = Some l;
  li_probes u : u ∈ l → probe_at s q u;
}.

Record core s : Prop := {
  c_break a l : break_list (manager s) !! a = Some l → ∃ q p d, listing s a l q p d;
  c_debug d l : debug_list (manager s) !! d = Some l → ∃ a q p, break_list (manager s) !! a = Some l ∧ listing s a l q p d;
  c_probe ptr o : probes s !! ptr = Some o → is_Some (points s !! point o);
  c_plist a q : point_list s !! a = Some q → ∃ p, points s !! q = Some p ∧ pt_addr p = a;
  c_handle ptr : ptr ∈ handles s → is_Some (probes s !! ptr);
}.

Record tidy s : Prop := {
  t_probe ptr o : probes s !! ptr = Some o → probe_owned s ptr;
  t_point q p : points s !! q = Some p → point_owned s q;
  t_plist a q : point_list s !! a = Some q → is_Some (break_list (manager s) !! a);
}.

(** ** Reading the invariant *)
Lemma listing_points s a l q p d a' l' q' p' d' u :
  listing s a l q p d → listing s a' l' q' p' d' → u ∈ l → u ∈ l' → q = q' ∧ p = p' ∧ a = a' ∧ d = d' ∧ l = l'.
Proof.
  intros L1 L2 H1' H2'. destruct (li_probes _ _ _ _ _ _ L1 u H1') as (o1 & Ho1 & <-).
  destruct (li_probes _ _ _ _ _ _ L2 u H2') as (o2 & Ho2 & <-). simplify_eq.
  pose proof (li_point _ _ _ _ _ _ L1) as P1. pose proof (li_point _ _ _ _ _ _ L2) as P2. simplify_eq.
  pose proof (li_debug _ _ _ _ _ _ L1) as D1. pose proof (li_debug _ _ _ _ _ _ L2) as D2.
  pose proof (debug_is_fun _ _ _ D1 D2) as ->.
  pose proof (li_dlist _ _ _ _ _ _ L1) as E1. pose proof (li_dlist _ _ _ _ _ _ L2) as E2. simplify_eq.
  split_and!; try done. by rewrite <- (li_addr _ _ _ _ _ _ L1), <- (li_addr _ _ _ _ _ _ L2).
Qed.

Lemma head_in l : l ≠ [] → ∃ u, l !! 0%nat = Some u ∧ u ∈ l.
Proof. destruct l as [|u l]; [done|]. exists u. split; [done|]. left. Qed.

(** Two addresses with the same debug address are one. *)
Lemma listing_debug_inj s a l q p a' l' q' p' d :
  core s → listing s a l q p d → listing s a' l' q' p' d → a = a' ∧ q = q' ∧ l = l'.
Proof.
  intros C L1 L2. pose proof (li_dlist _ _ _ _ _ _ L1) as E1. pose proof (li_dlist _ _ _ _ _ _ L2) as E2.
  assert (l = l') as <- by congruence. destruct (head_in l (li_nonempty _ _ _ _ _ _ L1)) as (u & _ & Hu).
  by destruct (listing_points _ _ _ _ _ _ _ _ _ _ _ u L1 L2 Hu Hu) as (-> & -> & -> & _).
Qed.

Lemma listed_elem (m : gmap Z (list UniProbe)) ptr : listed m ptr ↔ ∃ a l u, m !! a = Some l ∧ u ∈ l ∧ uni_ptr u = ptr.
Proof. unfold listed. rewrite map_Exists_lookup. setoid_rewrite Exists_exists. naive_solver. Qed.

(** Pointers name one listed probe. *)
Lemma listed_once s a l a' l' u u' :
  core s → break_list (manager s) !! a = Some l → break_list (manager s) !! a' = Some l' →
  u ∈ l → u' ∈ l' → uni_ptr u = uni_ptr u' → a = a' ∧ l = l' ∧ u = u'.
Proof.
  intros C Hl Hl' Hu Hu' Hp. destruct (c_break _ C _ _ Hl) as (q & p & d & L).
  destruct (c_break _ C _ _ Hl') as (q' & p' & d' & L').
  destruct (li_probes _ _ _ _ _ _ L u Hu) as (o & Ho & Hq). destruct (li_probes _ _ _ _ _ _ L' u' Hu') as (o' & Ho' & Hq').
  rewrite Hp in Ho. simplify_eq. pose proof (li_point _ _ _ _ _ _ L) as P1. pose proof (li_point _ _ _ _ _ _ L') as P2.
  simplify_eq. assert (a = a') as -> by (by rewrite <- (li_addr _ _ _ _ _ _ L), <- (li_addr _ _ _ _ _ _ L')).
  simplify_eq. split_and!; try done.
  apply list_elem_of_lookup in Hu as [i Hi]. apply list_elem_of_lookup in Hu' as [j Hj].
  assert (i = j) as ->; [|congruence].
  eapply (NoDup_lookup _ i j (uni_ptr u) (li_nodup _ _ _ _ _ _ L)); rewrite list_lookup_fmap; [by rewrite Hi|by rewrite Hj, Hp].
Qed.
(** ** Giving up references *)
Lemma listing_ext s s' a l q p d :
  (point_list s' !! a = point_list s !! a) → points s' !! q = points s !! q →
  debug_list (manager s') !! d = debug_list (manager s) !! d →
  (∀ u, u ∈ l → probe_at s q u → probe_at s' q u) →
  listing s a l q p d → listing s' a l q p d.
Proof. intros H1' H2' H3' H4' []. constructor; try congruence; eauto. Qed.

Lemma point_owned_plist s a q : point_list s !! a = Some q → point_owned s q.
Proof. intros Ha. left. rewrite map_Exists_lookup. eauto. Qed.
Lemma point_owned_probe s ptr o : probes s !! ptr = Some o → point_owned s (point o).
Proof. intros Ha. right. rewrite map_Exists_lookup. eauto. Qed.
Lemma break_owned s a l u : break_list (manager s) !! a = Some l → u ∈ l → probe_owned s (uni_ptr u).
Proof. intros Hl Hu. right; left. apply listed_elem. eauto 10. Qed.

Lemma release_point_cases s q :
  release_point s q = s ∨
  ¬ point_owned s q ∧ ∃ p, points s !! q = Some p ∧
    release_point s q = upd_points (upd_world s (drop_point (world s) p)) (delete q (points s)).
Proof. unfold release_point. case_decide; [by left|]. destruct (points s !! q); [right; eauto|by left]. Qed.

Lemma release_point_core s q : core s → core (release_point s q).
Proof.
  intros C. destruct (release_point_cases s q) as [->|(Hno & p & Hp & ->)]; [done|].
  assert (∀ a l q' p' d, listing s a l q' p' d →
    listing (upd_points (upd_world s (drop_point (world s) p)) (delete q (points s))) a l q' p' d) as Hl.
  { intros a l q' p' d L. eapply listing_ext; [..|exact L]; simpl; try done.
    apply lookup_delete_ne. intros <-. apply Hno. eapply point_owned_plist, L. }
  split; simpl.
  - intros a l Ha. destruct (c_break _ C a l Ha) as (q' & p' & d & L). eauto.
  - intros d l Ha. destruct (c_debug _ C d l Ha) as (a & q' & p' & Hb & L). eauto 10.
  - intros ptr o Ho. rewrite lookup_delete_ne; [by eapply c_probe|]. intros ->. by eapply Hno, point_owned_probe.
  - intros a q' Ha. rewrite lookup_delete_ne; [by eapply c_plist|]. intros ->. by eapply Hno, point_owned_plist.
  - apply C.
Qed.

Lemma release_probe_cases s ptr :
  release_probe s ptr = s ∨
  ¬ probe_owned s ptr ∧ ∃ o, probes s !! ptr = Some o ∧
    release_probe s ptr = release_point (upd_probes s (delete ptr (probes s))) (point o).
Proof. unfold release_probe. case_decide; [by left|]. destruct (probes s !! ptr); [right; eauto|by left]. Qed.

Lemma delete_probe_core s ptr : ¬ probe_owned s ptr → core s → core (upd_probes s (delete ptr (probes s))).
Proof.
  intros Hno C.
  assert (∀ a l q p d, break_list (manager s) !! a = Some l → listing s a l q p d →
    listing (upd_probes s (delete ptr (probes s))) a l q p d) as Hl.
  { intros a l q p d Hb L. eapply listing_ext; [..|exact L]; simpl; try done.
    intros u Hu (o & Ho & Hq). exists o. split; [|done]. simpl. rewrite lookup_delete_ne; [done|].
    intros ->. by eapply Hno, break_owned. }
  split; simpl.
  - intros a l Ha. destruct (c_break _ C a l Ha) as (q' & p' & d & L). eauto 10.
  - intros d l Ha. destruct (c_debug _ C d l Ha) as (a & q' & p' & Hb & L). eauto 10.
  - intros ptr' o [_ Ho]%lookup_delete_Some. by eapply c_probe.
  - apply C.
  - intros ptr' Hp. rewrite lookup_delete_ne; [by apply C|]. intros ->. apply Hno. by left.
Qed.

Lemma release_probe_core s ptr : core s → core (release_probe s ptr).
Proof.
  intros C. destruct (release_probe_cases s ptr) as [->|(Hno & o & Ho & ->)]; [done|].
  by apply release_point_core, delete_probe_core.
Qed.

(** Releasing frees exactly what lost its last owner. *)
Lemma release_point_lists s q :
  probes (release_point s q) = probes s ∧ manager (release_point s q) = manager s ∧
  point_list (release_point s q) = point_list s ∧ handles (release_point s q) = handles s.
Proof. by destruct (release_point_cases s q) as [->|(_ & p & _ & ->)]. Qed.

Lemma release_probe_lists s ptr :
  manager (release_probe s ptr) = manager s ∧ point_list (release_probe s ptr) = point_list s ∧
  handles (release_probe s ptr) = handles s.
Proof.
  destruct (release_probe_cases s ptr) as [->|(_ & o & _ & ->)]; [done|].
  destruct (release_point_lists (upd_probes s (delete ptr (probes s))) (point o)) as (_ & -> & -> & ->). done.
Qed.

Lemma probe_owned_ext s s' ptr :
  handles s' = handles s → manager s' = manager s → probe_owned s ptr → probe_owned s' ptr.
Proof. unfold probe_owned. by intros -> ->. Qed.
Lemma point_owned_ext s s' q :
  point_list s' = point_list s → probes s' = probes s → point_owned s q → point_owned s' q.
Proof. unfold point_owned. by intros -> ->. Qed.

Lemma release_point_owned s q :
  (∀ q' p, points s !! q' = Some p → q' ≠ q → point_owned s q') →
  ∀ q' p, points (release_point s q) !! q' = Some p → point_owned (release_point s q) q'.
Proof.
  intros Hs q' p. destruct (release_point_lists s q) as (Hp & _ & Hpl & _).
  intros Hq'. apply (point_owned_ext s); [done|done|]. revert Hq'. unfold release_point.
  case_decide as Ho; [destruct (decide (q' = q)) as [->|]; eauto|].
  destruct (points s !! q) as [p0|] eqn:Hq; simpl.
  - intros [Hne Hq']%lookup_delete_Some. eauto.
  - intros Hq'. eapply Hs; [done|]. intros ->. congruence.
Qed.

Lemma release_probe_owned s ptr :
  (∀ ptr' o, probes s !! ptr' = Some o → ptr' ≠ ptr → probe_owned s ptr') →
  (∀ q p, points s !! q = Some p → point_owned s q) →
  (∀ ptr' o, probes (release_probe s ptr) !! ptr' = Some o → probe_owned (release_probe s ptr) ptr') ∧
  (∀ q p, points (release_probe s ptr) !! q = Some p → point_owned (release_probe s ptr) q).
Proof.
  intros Hs Hp. destruct (release_probe_lists s ptr) as (Hm & Hpl & Hh). split.
  - intros ptr' o Ho. apply (probe_owned_ext s); [done..|]. revert Ho. clear Hm Hpl Hh. unfold release_probe.
    case_decide as Hown; [destruct (decide (ptr' = ptr)) as [->|]; eauto|].
    destruct (probes s !! ptr) as [o0|] eqn:Ho0.
    + destruct (release_point_lists (upd_probes s (delete ptr (probes s))) (point o0)) as (-> & _). simpl.
      intros [Hne Ho]%lookup_delete_Some. eauto.
    + intros Ho. eapply Hs; [done|]. intros ->. congruence.
  - unfold release_probe. case_decide; [done|]. destruct (probes s !! ptr) as [o0|] eqn:Ho0; [|done].
    apply release_point_owned. simpl. intros q p Hq Hne. destruct (Hp q p Hq) as [Hl|Hpr]; [by left|right].
    apply map_Exists_lookup in Hpr as (ptr' & o & Ho & Hoq). apply map_Exists_lookup. exists ptr', o. split; [|done].
    simpl. rewrite lookup_delete_ne; [done|]. intros ->. congruence.
Qed.
(** ** Changing the lists *)

Definition pushed s (p : P) (d ptr : Z) o u : Kstate W S R D P :=
  upd_handles (upd_manager (upd_probes s (<[ptr := o]> (probes s)))
    {| break_list := entry_push (break_list (manager s)) (pt_addr p) u;
       debug_list := entry_push (debug_list (manager s)) d u |}) (ptr :: handles s).

Lemma pushed_listing s p d o u ptr a l q' p' d' :
  probes s !! ptr = None → d' ≠ d → listing s a l q' p' d' → listing (pushed s p d ptr o u) a l q' p' d'.
Proof.
  intros Hptr Hd L. eapply listing_ext; [..|exact L]; simpl; try done.
  - unfold entry_push. by rewrite lookup_insert_ne.
  - intros u' Hu' (o' & Ho' & Hq'). exists o'. split; [|done]. simpl. rewrite lookup_insert_ne; [done|congruence].
Qed.

(** Before a probe is pushed, the two lists of its point are the same. *)
Lemma lists_of_point s p d q :
  core s → points s !! q = Some p → point_list s !! pt_addr p = Some q → debug_is p d →
  (break_list (manager s) !! pt_addr p = None → debug_list (manager s) !! d = None) →
  let l0 := default [] (break_list (manager s) !! pt_addr p) in
  default [] (debug_list (manager s) !! d) = l0 ∧
  (∀ a' l' q' p' d', listing s a' l' q' p' d' → break_list (manager s) !! a' = Some l' → a' ≠ pt_addr p → d' ≠ d) ∧
  NoDup (uni_ptr <$> l0) ∧ (∀ u', u' ∈ l0 → probe_at s q u').
Proof.
  intros C Hp Hpl Hd Hfresh l0. subst l0. destruct (break_list (manager s) !! pt_addr p) as [l|] eqn:Hl.
  - destruct (c_break _ C _ l Hl) as (q' & p' & d' & L). pose proof (li_plist _ _ _ _ _ _ L) as E1.
    assert (q' = q) as -> by congruence. pose proof (li_point _ _ _ _ _ _ L) as E2.
    assert (p' = p) as -> by congruence. pose proof (debug_is_fun _ _ _ Hd (li_debug _ _ _ _ _ _ L)) as <-.
    rewrite (li_dlist _ _ _ _ _ _ L). split_and!; [done| |apply L|apply L].
    intros a' l' q' p' d' L' Ha' Hne ->. destruct (listing_debug_inj _ _ _ _ _ _ _ _ _ _ C L L') as (He & _). congruence.
  - rewrite Hfresh by done. split_and!; [done| |constructor|by intros u' ?%elem_of_nil].
    intros a' l' q' p' d' L' Ha' Hne ->. pose proof (li_dlist _ _ _ _ _ _ L'). rewrite Hfresh in *; done.
Qed.

Lemma pushed_core s p d o u ptr :
  core s → uni_ptr u = ptr → probes s !! ptr = None → points s !! point o = Some p →
  point_list s !! pt_addr p = Some (point o) → debug_is p d →
  (break_list (manager s) !! pt_addr p = None → debug_list (manager s) !! d = None) →
  core (pushed s p d ptr o u).
Proof.
  intros C Hu Hptr Hp Hpl Hd Hfresh. set (a := pt_addr p) in *.
  set (l0 := default [] (break_list (manager s) !! a)).
  destruct (lists_of_point s p d (point o) C Hp Hpl Hd Hfresh) as (Hl0 & Hoth & Hnd & Hpr). fold a in Hl0, Hoth, Hnd, Hpr. fold l0 in Hl0, Hnd, Hpr.
  assert (listing (pushed s p d ptr o u) a (l0 ++ [u]) (point o) p d) as Lnew.
  { split; simpl; try done.
    - by destruct l0.
    - rewrite fmap_app. apply NoDup_app. split_and!; [done| |apply NoDup_singleton].
      intros x (u' & -> & Hu')%list_elem_of_fmap [Hx|[]%elem_of_nil]%elem_of_cons.
      destruct (Hpr u' Hu') as (o' & Ho' & _). congruence.
    - unfold entry_push. by rewrite lookup_insert_eq, Hl0.
    - intros u' [Hu'|[->|[]%elem_of_nil]%elem_of_cons]%elem_of_app.
      + destruct (Hpr u' Hu') as (o' & Ho' & Hq). exists o'. split; [|done]. simpl. rewrite lookup_insert_ne; [done|congruence].
      + exists o. split; [|done]. simpl. by rewrite Hu, lookup_insert_eq. }
  split; simpl.
  - intros a' l'. unfold entry_push. fold a. fold l0.
    destruct (decide (a' = a)) as [->|Ha]; [rewrite lookup_insert_eq|rewrite lookup_insert_ne by done].
    + intros [= <-]. eauto.
    + intros Hl'. destruct (c_break _ C a' l' Hl') as (q' & p' & d' & L). exists q', p', d'.
      apply pushed_listing; eauto.
  - intros d' l'. unfold entry_push at 1. rewrite Hl0.
    destruct (decide (d' = d)) as [->|Hdd]; [rewrite lookup_insert_eq|rewrite lookup_insert_ne by done].
    + intros [= <-]. exists a, (point o), p. split; [|done]. unfold entry_push. fold a. by rewrite lookup_insert_eq.
    + intros Hl'. destruct (c_debug _ C d' l' Hl') as (a' & q' & p' & Hb & L). exists a', q', p'.
      split; [|by apply pushed_listing]. unfold entry_push. rewrite lookup_insert_ne; [done|]. intros <-.
      fold a in Hb, L. pose proof (li_plist _ _ _ _ _ _ L). pose proof (li_point _ _ _ _ _ _ L).
      assert (q' = point o) as -> by congruence. assert (p' = p) as -> by congruence.
      by eapply Hdd, debug_is_fun; [apply L|].
  - intros ptr' o' [(-> & ->)|(_ & Ho')]%lookup_insert_Some; [eauto|]. by eapply c_probe.
  - apply C.
  - intros ptr' [->|Hin]%elem_of_cons; [rewrite lookup_insert_eq; eauto|].
    apply lookup_insert_is_Some. destruct (decide (ptr = ptr')); [by left|right]. split; [done|]. by apply C.
Qed.

Lemma break_nonempty s a l : core s → break_list (manager s) !! a = Some l → l ≠ [].
Proof. intros C Hl. destruct (c_break _ C a l Hl) as (q & p & d & L). apply L. Qed.
Lemma debug_nonempty s d l : core s → debug_list (manager s) !! d = Some l → l ≠ [].
Proof. intros C Hl. destruct (c_debug _ C d l Hl) as (a & q & p & _ & L). apply L. Qed.

(** What [remove_probe] leaves. *)
Definition removed s p (d : Z) u : ProbeManager :=
  {| break_list := remove_one (break_list (manager s)) (pt_addr p) u;
     debug_list := remove_one (debug_list (manager s)) d u |}.

Lemma removed_lookup s p d u o :
  core s → probes s !! uni_ptr u = Some o → points s !! point o = Some p → debug_is p d →
  (∀ a, break_list (removed s p d u) !! a = l ← break_list (manager s) !! a; nonempty (without u l)) ∧
  (∀ b, debug_list (removed s p d u) !! b = l ← debug_list (manager s) !! b; nonempty (without u l)).
Proof.
  intros C Ho Hp Hd.
  assert (∀ a l, break_list (manager s) !! a = Some l → u ∈ l → a = pt_addr p ∧ debug_list (manager s) !! d = Some l) as Hin.
  { intros a l Hl Hu. destruct (c_break _ C a l Hl) as (q' & p' & d' & L).
    destruct (li_probes _ _ _ _ _ _ L u Hu) as (o' & Ho' & <-). pose proof (li_point _ _ _ _ _ _ L).
    assert (o' = o) as -> by congruence. assert (p' = p) as -> by congruence.
    rewrite <- (li_addr _ _ _ _ _ _ L), (debug_is_fun _ _ _ Hd (li_debug _ _ _ _ _ _ L)). split; [done|apply L]. }
  assert (∀ b l, debug_list (manager s) !! b = Some l → u ∈ l → b = d) as Hind.
  { intros b l Hl Hu. destruct (c_debug _ C b l Hl) as (a & q' & p' & Hb & L).
    destruct (Hin a l Hb Hu) as [-> Hdl]. destruct (c_debug _ C d l Hdl) as (a2 & q2 & p2 & Hb2 & L2).
    by destruct (listing_points _ _ _ _ _ _ _ _ _ _ _ _ L L2 Hu Hu) as (_ & _ & _ & -> & _). }
  assert (∀ (m : gmap Z (list UniProbe)) (k : Z), (∀ c l, m !! c = Some l → l ≠ []) → (∀ b l, m !! b = Some l → u ∈ l → b = k) →
    ∀ b, remove_one m k u !! b = l ← m !! b; nonempty (without u l)) as Hgen.
  { intros m k Hne Hk b. rewrite lookup_remove_one by done. case_decide as Hb; [by subst b|].
    destruct (m !! b) as [l|] eqn:Hl; simpl; [|done].
    rewrite without_notin; [symmetry; apply nonempty_Some; eauto|]. intros Hu. by apply Hb, (Hk b l). }
  split; intros b; simpl; apply Hgen; eauto using break_nonempty, debug_nonempty.
  intros a l Hl Hu. by destruct (Hin a l Hl Hu).
Qed.

Lemma removed_core s p d u o hs :
  core s → probes s !! uni_ptr u = Some o → points s !! point o = Some p → debug_is p d → hs ⊆ handles s →
  core (upd_handles (upd_manager s (removed s p d u)) hs).
Proof.
  intros C Ho Hp Hd Hhs. destruct (removed_lookup s p d u o C Ho Hp Hd) as [Hb Hdb].
  assert (∀ a l q p' d', without u l ≠ [] → listing s a l q p' d' →
    listing (upd_handles (upd_manager s (removed s p d u)) hs) a (without u l) q p' d') as HL'.
  { intros a l q p' d' Hne L. destruct L. split; try done.
    - eapply sublist_NoDup; [done|apply fmap_sublist, without_sublist].
    - change (debug_list (removed s p d u) !! d' = Some (without u l)). rewrite Hdb, li_dlist0. by apply nonempty_Some.
    - intros u' [Hu' _]%elem_of_without. by apply li_probes0. }
  split.
  - intros a l' Hl'. change (break_list (removed s p d u) !! a = Some l') in Hl'. rewrite Hb in Hl'.
    destruct (break_list (manager s) !! a) as [l|] eqn:Hl; simpl in Hl'; [|done].
    apply nonempty_Some in Hl' as [<- Hne]. destruct (c_break _ C a l Hl) as (q' & p' & d' & L). eauto 10.
  - intros b l' Hl'. change (debug_list (removed s p d u) !! b = Some l') in Hl'. rewrite Hdb in Hl'.
    destruct (debug_list (manager s) !! b) as [l|] eqn:Hl; simpl in Hl'; [|done].
    apply nonempty_Some in Hl' as [<- Hne]. destruct (c_debug _ C b l Hl) as (a & q' & p' & Hbl & L).
    exists a, q', p'. split; [|by apply HL'].
    change (break_list (removed s p d u) !! a = Some (without u l)). rewrite Hb, Hbl. by apply nonempty_Some.
  - apply C.
  - apply C.
  - intros ptr Hin. apply (c_handle _ C), Hhs, Hin.
Qed.
End invariant.
