(* ===== verification/KprobeWorld.v ===== *)
(** The world under the probe manager: live points cover disjoint code,
    each saved what was there, and nothing else has changed. *)
From S2P Require Import Prelude Text KprobeBase KprobeArchProps Kprobe KprobeProps.

Section world.
Context `{BuildMode} {W S R D P : Type} `{KprobeAuxiliaryLaws W} `{KprobeOps P} `{!ProbeArch W P}.
Context {HL : ProbeArchLaws W P}.
Implicit Types (s : Kstate W S R D P) (o : Probe S R D) (p : P) (u : UniProbe) (l : list UniProbe) (w : W).

(** The code a point replaces. *)
Definition covers p (pid : option Z) (b : Z) : Prop :=
  pid = pt_pid p ∧ pt_addr p ≤ b < pt_addr p + Z.of_nat (original_instruction_len p).
Definition apart p p' : Prop := ∀ pid b, covers p pid b → covers p' pid b → False.
Definition pslot p : Z := as_ptr (pt_slot p).
Definition original w p : str := code_at w (pt_pid p) (pt_addr p) (original_instruction_len p).

(** The page a point has in a process. *)
Definition has_page p (pid : option Z) (x : Z) : Prop :=
  dynamic_user_ptr p ≠ 0 ∧ pid = pt_pid p ∧ x = dynamic_user_ptr p.
#[global] Instance has_page_dec p pid x : Decision (has_page p pid x) := _.

(** [w0] is the world before any probe was registered.  That probed code is
    disjoint ([apart]) is kept up by the kernel, see [KprobeSteps.fresh_code];
    the rest is the manager's doing. *)
Record world_ok (w0 : W) s : Prop := {
  w_slot q p : points s !! q = Some p → slot w0 (pslot p) = None;
  w_saved q p : points s !! q = Some p → saved (world s) p = Some (original w0 p);
  w_apart q q' p p' : points s !! q = Some p → points s !! q' = Some p' → q ≠ q' → pslot p ≠ pslot p' ∧ apart p p';
  w_code pid b : (∀ q p, points s !! q = Some p → ¬ covers p pid b) → code (world s) pid b = code w0 pid b;
  w_slots x : (∀ q p, points s !! q = Some p → pslot p ≠ x) → slot (world s) x = slot w0 x;
  w_len q p : points s !! q = Some p → (original_instruction_len p ≤ 15)%nat;
  w_page q p pid x : points s !! q = Some p → has_page p pid x → user_page (world s) pid x ≠ None ∧ user_page w0 pid x = None;
  w_own q q' p p' pid x : points s !! q = Some p → points s !! q' = Some p' → has_page p pid x → has_page p' pid x → q = q';
  w_pages pid x : (∀ q p, points s !! q = Some p → ¬ has_page p pid x) → user_page (world s) pid x = user_page w0 pid x;
}.

Lemma world_ok_ext w0 s s' : world s' = world s → points s' = points s → world_ok w0 s → world_ok w0 s'.
Proof. intros Hw Hp []. split; rewrite ?Hw, ?Hp; done. Qed.

Lemma world_ok_same w0 s s' :
  same_memory (world s) (world s') → points s' = points s → world_ok w0 s → world_ok w0 s'.
Proof.
  intros (Hc & Hs & Hpg) Hp []. split; rewrite ?Hp; try done.
  - intros q p Hq. rewrite <- (w_saved0 q p Hq). apply saved_slot, Hs.
  - intros pid b Hb. rewrite Hc. eauto.
  - intros x Hx. rewrite Hs. eauto.
  - intros q p pid x. rewrite Hpg. eauto.
  - intros pid x Hx. rewrite Hpg. eauto.
Qed.

Lemma code_at_ext w w' pid a n :
  (∀ b, a ≤ b < a + Z.of_nat n → code w pid b = code w' pid b) → code_at w pid a n = code_at w' pid a n.
Proof.
  intros Hb. unfold code_at. apply map_ext_in. intros i Hi%in_seq. apply Hb. lia.
Qed.
Lemma lookup_code_at w pid a n b :
  a ≤ b < a + Z.of_nat n → code_at w pid a n !! Z.to_nat (b - a) = Some (code w pid b).
Proof.
  intros Hb. unfold code_at. change (map ?f ?l) with (f <$> l). rewrite list_lookup_fmap, lookup_seq_lt by lia.
  simpl. do 2 f_equal. lia.
Qed.

(** ** Installation *)
Definition installed s w pp p : Kstate W S R D P := upd_points (upd_world s w) (<[pp := p]> (points s)).

Lemma installed_world w0 s w' pp p sa off pid :
  world_ok w0 s → points s !! pp = None → replace_inst (world s) sa off pid = (w', Ok p) →
  (∀ q p', points s !! q = Some p' → apart p p') →
  world_ok w0 (installed s w' pp p).
Proof.
  intros V Hpp Hr Hap. pose proof (replace_spec (world s) sa off pid) as Hspec. rewrite Hr in Hspec.
  destruct Hspec as (Ha & Hpid & Hdyn & (Hfresh & _ & Hslots & Hpg & _) & Hlen & Hsaved & (brk & [Hb1 Hb2] & Hov)).
  assert (∀ pid' x, ¬ has_page p pid' x) as Hnp by (by intros pid' x [Hd _]).
  assert (∀ q p', points s !! q = Some p' → pslot p ≠ pslot p') as Hne.
  { intros q p' Hq He. destruct (saved_live _ _ _ (w_saved _ _ V q p' Hq)) as [Hl _].
    apply Hl. change (slot (world s) (pslot p') = None). rewrite <- He. exact Hfresh. }
  split; simpl.
  - intros q p' [(<- & <-)|(Hq & Hp')]%lookup_insert_Some; [|by eapply w_slot].
    rewrite <- (w_slots _ _ V); [exact Hfresh|]. intros q' p' Hq' He. by eapply Hne.
  - intros q p' [(<- & <-)|(Hq & Hp')]%lookup_insert_Some.
    + rewrite Hsaved. f_equal. unfold original. rewrite Hpid. apply code_at_ext. intros b Hb.
      apply (w_code _ _ V). intros q' p' Hq' Hcov. eapply (Hap q' p' Hq' pid b); [|done]. split; [by symmetry|done].
    + rewrite <- (w_saved _ _ V q p' Hp'). apply saved_slot, Hslots. intros He. by eapply Hne.
  - intros q q' p1 p2 [(<- & <-)|(Hq & Hp1)]%lookup_insert_Some [(<- & <-)|(Hq' & Hp2)]%lookup_insert_Some Hqq.
    + done.
    + split; [by eapply Hne|by eapply Hap].
    + split; [intros He; by eapply Hne|]. intros pid' b Hc1 Hc2. by eapply (Hap _ _ Hp1 pid' b).
    + by eapply w_apart.
  - intros pid' b Hnc. rewrite Hov. case_decide as Hin.
    + destruct Hin as [-> Hin]. exfalso. apply (Hnc pp p); [by rewrite lookup_insert_eq|]. split; [done|lia].
    + apply (w_code _ _ V). intros q p' Hq. apply (Hnc q). rewrite lookup_insert_ne; [done|congruence].
  - intros x Hx. rewrite Hslots.
    + apply (w_slots _ _ V). intros q p' Hq. apply (Hx q). rewrite lookup_insert_ne; [done|congruence].
    + intros ->. by apply (Hx pp p); [rewrite lookup_insert_eq|].
  - intros q p' [(<- & <-)|(Hq & Hp')]%lookup_insert_Some; [done|by eapply w_len].
  - intros q p' pid' x [(<- & <-)|(Hq & Hp')]%lookup_insert_Some Hh; [by apply Hnp in Hh|]. rewrite Hpg. by eapply w_page.
  - intros q q' p1 p2 pid' x [(<- & <-)|(_ & Hp1)]%lookup_insert_Some [(<- & <-)|(_ & Hp2)]%lookup_insert_Some Hh1 Hh2;
      [done|by apply Hnp in Hh1|by apply Hnp in Hh2|by eapply w_own].
  - intros pid' x Hx. rewrite Hpg. apply (w_pages _ _ V). intros q p' Hq. apply (Hx q). rewrite lookup_insert_ne; [done|congruence].
Qed.

(** ** Removal *)
Lemma delete_point_world w0 s q p :
  world_ok w0 s → points s !! q = Some p →
  world_ok w0 (upd_points (upd_world s (drop_point (world s) p)) (delete q (points s))).
Proof.
  intros V Hq. destruct (drop_spec (world s) p _ (w_saved _ _ V q p Hq)) as (Hov & Hnone & Hslots & Hgone & Hkept).
  { apply code_at_bytes. }
  assert (∀ pid x, ¬ has_page p pid x → user_page (drop_point (world s) p) pid x = user_page (world s) pid x) as Hpg.
  { intros pid x Hno. apply Hkept. destruct (Z.eq_dec (dynamic_user_ptr p) 0); [by left|right]. intros [= -> ->]. by apply Hno. }
  split; simpl.
  - intros q' p' [_ Hp']%lookup_delete_Some. by eapply w_slot.
  - intros q' p' [Hne Hp']%lookup_delete_Some. rewrite <- (w_saved _ _ V q' p' Hp'). apply saved_slot, Hslots.
    intros He. exact (proj1 (w_apart _ _ V q' q p' p Hp' Hq (not_eq_sym Hne)) He).
  - intros q1 q2 p1 p2 [_ Hp1]%lookup_delete_Some [_ Hp2]%lookup_delete_Some. by eapply w_apart.
  - intros pid b Hnc. rewrite Hov. unfold original. rewrite length_code_at. case_decide as Hin.
    + destruct Hin as [-> Hin]. by rewrite lookup_code_at.
    + apply (w_code _ _ V). intros q' p' Hp' Hcov. destruct (decide (q' = q)) as [->|Hne].
      * by assert (p' = p) as -> by congruence.
      * apply (Hnc q' p'); [by rewrite lookup_delete_ne|done].
  - intros x Hx. destruct (decide (x = pslot p)) as [->|Hne].
    + rewrite (Hnone : slot _ (pslot p) = None). symmetry. by eapply w_slot.
    + rewrite Hslots by done. apply (w_slots _ _ V). intros q' p' Hp'. destruct (decide (q' = q)) as [->|Hqq].
      * assert (p' = p) as -> by congruence. done.
      * apply (Hx q'). by rewrite lookup_delete_ne.
  - intros q' p' [_ Hp']%lookup_delete_Some. by eapply w_len.
  - intros q' p' pid x [Hne Hp']%lookup_delete_Some Hh. rewrite Hpg; [by eapply w_page|].
    intros Hh'. by eapply Hne, (w_own _ _ V q q').
  - intros q1 q2 p1 p2 pid x [_ Hp1]%lookup_delete_Some [_ Hp2]%lookup_delete_Some. by eapply w_own.
  - intros pid x Hx. destruct (decide (has_page p pid x)) as [Hh|Hh].
    + rewrite (proj2 (w_page _ _ V q p pid x Hq Hh)). destruct Hh as (Hd & -> & ->). by apply Hgone.
    + rewrite Hpg by done. apply (w_pages _ _ V). intros q' p' Hp' Hh'. destruct (decide (q' = q)) as [->|Hne].
      * assert (p' = p) as -> by congruence. done.
      * apply (Hx q' p'); [by rewrite lookup_delete_ne|done].
Qed.

Lemma release_point_world w0 s q : world_ok w0 s → world_ok w0 (release_point s q).
Proof.
  intros V. destruct (release_point_cases s q) as [->|(_ & p & Hp & ->)]; [done|]. by apply delete_point_world.
Qed.
Lemma release_probe_world w0 s ptr : world_ok w0 s → world_ok w0 (release_probe s ptr).
Proof.
  intros V. destruct (release_probe_cases s ptr) as [->|(_ & o & _ & ->)]; [done|].
  by apply release_point_world, (world_ok_ext _ s).
Qed.

(** ** The user copy of a slot *)
(** The pages of the points after one of them, [p], got the page at [ptr]. *)
Lemma dynamic_pages w0 s q p bytes ptr w :
  world_ok w0 s → points s !! q = Some p → dynamic_user_ptr p = 0 → allocates_page (world s) (pt_pid p) bytes (ptr, w) →
  let s' := installed s w q (with_dynamic_user_ptr p ptr) in
  (∀ q1 p1 pid x, points s' !! q1 = Some p1 → has_page p1 pid x → user_page w pid x ≠ None ∧ user_page w0 pid x = None) ∧
  (∀ q1 q2 p1 p2 pid x, points s' !! q1 = Some p1 → points s' !! q2 = Some p2 → has_page p1 pid x → has_page p2 pid x → q1 = q2) ∧
  (∀ pid x, (∀ q1 p1, points s' !! q1 = Some p1 → ¬ has_page p1 pid x) → user_page w pid x = user_page w0 pid x).
Proof.
  intros V Hq Hz (Hnz & Hnone & (c & Hnew & _) & Hother & _). simpl in Hnz, Hnone, Hnew, Hother.
  set (p' := with_dynamic_user_ptr p ptr). cbv zeta.
  destruct (dynamic_fields p ptr) as (_ & _ & Hpid & _ & Hdyn). fold p' in Hpid, Hdyn.
  assert (∀ q1 p1 pid x, points (installed s w q p') !! q1 = Some p1 → has_page p1 pid x →
    (q1 = q ∧ pid = pt_pid p ∧ x = ptr) ∨ (q1 ≠ q ∧ points s !! q1 = Some p1)) as Hpg.
  { intros q1 p1 pid x Hq1 (_ & -> & ->). simpl in Hq1. apply lookup_insert_Some in Hq1 as [(<- & <-)|(Hne & Hp1)]; [left|by right].
    by rewrite Hdyn, Hpid. }
  assert (∀ q1 p1 pid x, points s !! q1 = Some p1 → has_page p1 pid x → (pid, x) ≠ (pt_pid p, ptr)) as Hfree.
  { intros q1 p1 pid x Hp1 Hh [= -> ->]. by destruct (w_page _ _ V q1 p1 _ _ Hp1 Hh) as [Hl _]. }
  split; [|split].
  - intros q1 p1 pid x Hp1 Hh. destruct (Hpg q1 p1 pid x Hp1 Hh) as [(-> & -> & ->)|[Hne Hp]].
    + rewrite Hnew. split; [done|]. rewrite <- (w_pages _ _ V); [done|]. intros q2 p2 Hp2 Hh2. by eapply (Hfree q2 p2).
    + rewrite Hother by (by eapply Hfree). by eapply w_page.
  - intros q1 q2 p1 p2 pid x Hp1 Hp2 Hh1 Hh2.
    destruct (Hpg q1 p1 pid x Hp1 Hh1) as [(-> & -> & ->)|[Hne1 Hp1']], (Hpg q2 p2 _ _ Hp2 Hh2) as [(-> & Hx2 & Hx3)|[Hne2 Hp2']]; [done|..].
    + by destruct (Hfree q2 p2 _ _ Hp2' Hh2).
    + rewrite Hx2, Hx3 in Hh1. by destruct (Hfree q1 p1 _ _ Hp1' Hh1).
    + by eapply w_own.
  - intros pid x Hx. rewrite Hother.
    + apply (w_pages _ _ V). intros q1 p1 Hp1 Hh. destruct (decide (q1 = q)) as [->|Hne].
      * assert (p1 = p) as -> by congruence. by destruct Hh.
      * apply (Hx q1 p1); [simpl; by rewrite lookup_insert_ne|done].
    + intros [= -> ->]. apply (Hx q p'); [simpl; by rewrite lookup_insert_eq|]. unfold has_page. rewrite Hdyn, Hpid. by split_and!.
Qed.

Lemma dynamic_world w0 s q p bytes ptr w :
  world_ok w0 s → points s !! q = Some p → dynamic_user_ptr p = 0 → allocates_page (world s) (pt_pid p) bytes (ptr, w) →
  world_ok w0 (installed s w q (with_dynamic_user_ptr p ptr)).
Proof.
  intros V Hq Hz Hal. pose proof Hal as (_ & _ & _ & _ & Hs & Hc & _). simpl in Hs, Hc. set (p' := with_dynamic_user_ptr p ptr).
  destruct (dynamic_fields p ptr) as (Ha & Hsl & Hpid & Hlen & Hdyn). fold p' in Ha, Hsl, Hpid, Hlen, Hdyn.
  assert (∀ q1 p1, points (installed s w q p') !! q1 = Some p1 → ∃ p2, points s !! q1 = Some p2 ∧
    pslot p1 = pslot p2 ∧ original w0 p1 = original w0 p2 ∧ (∀ pid b, covers p1 pid b ↔ covers p2 pid b) ∧
    saved (world s) p1 = saved (world s) p2 ∧ original_instruction_len p1 = original_instruction_len p2) as Hold.
  { intros q1 p1 Hq1. simpl in Hq1. apply lookup_insert_Some in Hq1 as [(<- & <-)|(_ & Hp1)]; [|exists p1; split_and!; done]. exists p. split; [done|].
    unfold pslot, original, covers. rewrite Ha, Hsl, Hpid, Hlen. split_and!; try done. apply saved_dynamic. }
  destruct (dynamic_pages w0 s q p bytes ptr w V Hq Hz Hal) as (Hg1 & Hg2 & Hg3).
  split.
  - intros q1 p1 (p2 & Hp2 & -> & _)%Hold. by eapply w_slot.
  - intros q1 p1 (p2 & Hp2 & Hps & -> & _ & Hsv & _)%Hold. rewrite <- (w_saved _ _ V q1 p2 Hp2), <- Hsv.
    apply saved_slot. simpl. apply Hs.
  - intros q1 q2 p1 p2 (p1' & Hp1 & -> & _ & Hc1 & _)%Hold (p2' & Hp2 & -> & _ & Hc2 & _)%Hold Hne.
    destruct (w_apart _ _ V q1 q2 p1' p2' Hp1 Hp2 Hne) as [Hx Hy]. split; [done|].
    intros pid b Hb1%Hc1 Hb2%Hc2. by eapply Hy.
  - intros pid b Hnc. simpl. rewrite Hc. apply (w_code _ _ V). intros q1 p1 Hp1. destruct (decide (q1 = q)) as [->|Hne].
    + assert (p1 = p) as -> by congruence. intros Hcov. apply (Hnc q p'); [simpl; by rewrite lookup_insert_eq|].
      unfold covers. by rewrite Ha, Hpid, Hlen.
    + apply (Hnc q1). simpl. by rewrite lookup_insert_ne.
  - intros x Hx. simpl. rewrite Hs. apply (w_slots _ _ V). intros q1 p1 Hp1. destruct (decide (q1 = q)) as [->|Hne].
    + assert (p1 = p) as -> by congruence. intros He. apply (Hx q p'); [simpl; by rewrite lookup_insert_eq|]. unfold pslot. by rewrite Hsl.
    + apply (Hx q1). simpl. by rewrite lookup_insert_ne.
  - intros q1 p1 (p2 & Hp2 & _ & _ & _ & _ & ->)%Hold. by eapply w_len.
  - exact Hg1.
  - exact Hg2.
  - exact Hg3.
Qed.
End world.
