(* ===== verification/KprobeSteps.v ===== *)
(** The probe manager as a state machine, and its invariant. *)
From S2P Require Import Prelude Text KprobeBase KprobeArchProps Kprobe KprobeProps KprobeWorld.

(** Arithmetic neither fails nor runs out of fuel. *)
Lemma arith_cases `{BuildMode} {E} w z : (∃ v, arith (E := E) w z = Ok v) ∨ arith (E := E) w z = Panic.
Proof. unfold arith. destruct (in_u w z); [eauto|]. destruct overflow_checks; eauto. Qed.

Section steps.
Context `{BuildMode} {W S R D P : Type} `{KprobeAuxiliaryLaws W} `{KprobeOps P} `{!ProbeArch W P} `{PtRegsOps R}.
Context {HL : ProbeArchLaws W P} (unit_data : D).
Implicit Types (s : Kstate W S R D P) (o : Probe S R D) (p : P) (u : UniProbe) (l : list UniProbe) (w : W).

(** ** The steps *)

(** What the manager leaves to the kernel.  The pages it allocates lie in the
    64-bit address space; a new point replaces code that no live point
    replaces, that is, probes sit on instruction boundaries and an address is
    probed anew only when its old point is gone. *)
Definition in_memory s : Prop := map_Forall (λ _ p,
  0 ≤ pslot p ∧ pslot p + 4096 ≤ 2 ^ 64 ∧ 0 ≤ dynamic_user_ptr p ∧ dynamic_user_ptr p + 4096 ≤ 2 ^ 64) (points s).
Definition fresh_code s s' : Prop := ∀ q p q' p',
  points s' !! q = Some p → points s !! q = None → points s !! q' = Some p' → apart p p'.

(** The manager keeps its single-step list by address alone, so the copies
    that two processes have of their probes must not end at one address
    ([user_pages_collide] in KprobeClaims is what happens if they do). *)
Definition apart_processes s : Prop := map_Forall (λ _ p, map_Forall (λ _ p',
  dynamic_user_ptr p ≠ 0 → dynamic_user_ptr p' ≠ 0 → pt_pid p ≠ pt_pid p' →
  dynamic_user_ptr p + Z.of_nat (original_instruction_len p) ≠ dynamic_user_ptr p' + Z.of_nat (original_instruction_len p'))
  (points s)) (points s).

Definition with_basic s (ptr : Z) o (b : ProbeBasic S R D) : Kstate W S R D P :=
  upd_probes s (<[ptr := {| basic := b; point := point o |}]> (probes s)).

(** What a kernel does with the manager: register at fresh addresses,
    unregister, copy and drop references, switch a probe on and off or change
    its callbacks, and take the first hit of a user probe. *)
Inductive kstep : Kstate W S R D P → Kstate W S R D P → Prop :=
  | step_register mk s b pp pr s' r :
      (∀ ptr, uni_ptr (mk ptr) = ptr) → probe_point b = None → points s !! pp = None → probes s !! pr = None →
      register_probe unit_data mk s b pp pr = (s', r) → r ≠ Panic → in_memory s' → fresh_code s s' → kstep s s'
  | step_unregister s u s' : uni_ptr u ∈ handles s → unregister_probe s u = Ok s' → kstep s s'
  | step_clone s ptr : ptr ∈ handles s → kstep s (upd_handles s (ptr :: handles s))
  | step_drop s ptr : ptr ∈ handles s → kstep s (drop_handle s ptr)
  | step_update s ptr o b : ptr ∈ handles s → probes s !! ptr = Some o → kstep s (with_basic s ptr o b)
  | step_first_hit s sr x s' sr' :
      uprobe_handler_from_break s sr = Ok (x, (s', sr')) → in_memory s' → apart_processes s' → kstep s s'.

Definition kstart (w0 : W) : Kstate W S R D P :=
  {| world := w0; points := ∅; probes := ∅; handles := []; point_list := ∅; manager := ProbeManager_new |}.
Definition kreachable (w0 : W) s : Prop := rtc kstep (kstart w0) s.

Record kinv (w0 : W) s : Prop := { k_core : core s; k_tidy : tidy s; k_world : world_ok w0 s }.

Lemma kinv_start w0 : kinv w0 (kstart w0).
Proof. split; split; simpl; try done; intros *; by rewrite ?elem_of_nil. Qed.

(** ** Debug addresses *)

(** Where the copy of the original instruction runs. *)
Definition home p : Z := if dynamic_user_ptr p =? 0 then pslot p else dynamic_user_ptr p.

Lemma debug_home s q p d : in_memory s → points s !! q = Some p → (original_instruction_len p ≤ 15)%nat → debug_is p d →
  d = home p + Z.of_nat (original_instruction_len p).
Proof.
  intros Hin Hq Hl. destruct (Hin q p Hq) as (? & ? & ? & ?). unfold debug_is, debug_address, home, pslot in *.
  destruct (dynamic_user_ptr p =? 0); rewrite arith_ok by lia; by intros [= <-].
Qed.

(** A page apart from the homes of the live points has a debug address of
    its own. *)
Lemma fresh_home w0 s x n :
  core s → world_ok w0 s → in_memory s → (n ≤ 15)%nat → clear_of_slots (world s) x →
  (∀ q p, points s !! q = Some p → dynamic_user_ptr p ≠ 0 →
    page_apart x (dynamic_user_ptr p) ∨ dynamic_user_ptr p + Z.of_nat (original_instruction_len p) ≠ x + Z.of_nat n) →
  debug_list (manager s) !! (x + Z.of_nat n) = None.
Proof.
  intros C V Hin Hn Hclear Hpages. destruct (debug_list (manager s) !! _) as [l|] eqn:Hl; [|done]. exfalso.
  destruct (c_debug _ C _ l Hl) as (a & q & p & _ & L). pose proof (li_point _ _ _ _ _ _ L) as Hq.
  pose proof (w_len _ _ V q p Hq) as Hlen. pose proof (debug_home s q p _ Hin Hq Hlen (li_debug _ _ _ _ _ _ L)) as Hd.
  unfold home in Hd. destruct (Z.eqb_spec (dynamic_user_ptr p) 0) as [Hz|Hz].
  - destruct (saved_live _ _ _ (w_saved _ _ V q p Hq)) as [Hlive _]. destruct (Hclear _ Hlive); unfold pslot in *; lia.
  - destruct (Hpages q p Hq Hz) as [[]|]; lia.
Qed.

(** ** Registration *)

Lemma debug_address_cases {E} p : (∃ d, debug_address (E := E) p = Ok d) ∨ debug_address (E := E) p = Panic.
Proof. unfold debug_address. destruct (_ =? _); apply arith_cases. Qed.

Lemma install_new s b pp s1 r :
  probe_point b = None → install unit_data s b pp = (s1, r) →
  ∃ w' rp, replace_inst (world s) (symbol_addr b) (offset b) (user_pid b) = (w', rp) ∧
    match rp with
    | Ok p => s1 = installed s w' pp p ∧ r = Ok ({| basic := ProbeBasic_from unit_data b; point := pp |}, pp)
    | Err e => s1 = upd_world s w' ∧ r = Err e
    | Panic => r = Panic
    | OutOfFuel => False
    end.
Proof.
  intros Hb Hi. unfold install in Hi. rewrite Hb in Hi.
  pose proof (replace_spec (world s) (symbol_addr b) (offset b) (user_pid b)) as Hspec.
  destruct (replace_inst _ _ _ _) as [w' rp]. exists w', rp. split; [done|].
  destruct rp; simplify_eq; done.
Qed.

Lemma install_existing s b q pp :
  install unit_data s (build_step b (WithProbePoint q)) pp =
    (s, Ok ({| basic := ProbeBasic_from unit_data b; point := q |}, q)).
Proof. done. Qed.

(** What registering does, when it does not panic. *)
Lemma register_cases mk s b pp pr s' r :
  core s → tidy s → probe_point b = None → points s !! pp = None →
  register_probe unit_data mk s b pp pr = (s', r) → r ≠ Panic →
  (∃ w' e, s' = upd_world s w' ∧ r = Err e ∧ same_memory (world s) w') ∨
  ∃ s1 p d o a, r = Ok pr ∧ s' = pushed s1 p d pr o (mk pr) ∧ probe_addr (E := ProbeInstallError) b = Ok a ∧ pt_addr p = a ∧
    basic o = ProbeBasic_from unit_data b ∧ debug_is p d ∧ points s1 !! point o = Some p ∧ point_list s1 !! a = Some (point o) ∧
    ((s1 = s ∧ point_list s !! a = Some (point o)) ∨
     (point_list s !! a = None ∧ point o = pp ∧ ∃ w',
        replace_inst (world s) (symbol_addr b) (offset b) (user_pid b) = (w', Ok p) ∧
        s1 = upd_point_list (installed s w' pp p) (<[a := pp]> (point_list s)))).
Proof.
  intros C T Hb Hpp Hreg Hr. unfold register_probe, __register_kprobe in Hreg.
  destruct (arith_cases (E := ProbeInstallError) 64 (symbol_addr b + offset b)) as [[a Ha]|Ha];
    fold (probe_addr (E := ProbeInstallError) b) in Ha; rewrite Ha in Hreg |- *; [|by simplify_eq].
  destruct (point_list s !! a) as [q|] eqn:Hq.
  - rewrite install_existing in Hreg. cbn -[insert_probe] in Hreg. destruct (c_plist _ C a q Hq) as (p & Hp & Hpa).
    rewrite Hp in Hreg. cbn [unwrap mbind res_bind] in Hreg. unfold insert_probe in Hreg.
    destruct (debug_address_cases (E := ProbeInstallError) p) as [[d Hd]|Hd]; rewrite Hd in Hreg;
      cbn -[installed] in Hreg; [|by simplify_eq]. injection Hreg as <- <-.
    subst a. right. exists s, p, d, {| basic := ProbeBasic_from unit_data b; point := q |}, (pt_addr p).
    split_and!; try done; [exact (proj1 (debug_is_any _ _) Hd)|by left].
  - destruct (install unit_data s b pp) as [s1 ri] eqn:Hi.
    destruct (install_new s b pp s1 ri Hb Hi) as (w' & rp & Hrep & Hcase).
    pose proof (replace_spec (world s) (symbol_addr b) (offset b) (user_pid b)) as Hspec. rewrite Hrep in Hspec.
    destruct rp as [p|e| |]; [|destruct Hcase as [-> ->]; simplify_eq; left; eauto 10|by subst; simplify_eq|done].
    destruct Hcase as [-> ->]. destruct Hspec as (Hpa & _).
    assert (pt_addr p = a) as Hpa' by (unfold probe_addr in Ha; rewrite Ha in Hpa; by injection Hpa).
    cbn -[insert_probe] in Hreg. rewrite lookup_insert_eq in Hreg. cbn [unwrap mbind res_bind] in Hreg. unfold insert_probe in Hreg.
    destruct (debug_address_cases (E := ProbeInstallError) p) as [[d Hd]|Hd]; rewrite Hd in Hreg;
      cbn -[installed] in Hreg; [|by simplify_eq]. injection Hreg as <- <-.
    subst a. right. exists (upd_point_list (installed s w' pp p) (<[pt_addr p := pp]> (point_list s))), p, d,
      {| basic := ProbeBasic_from unit_data b; point := pp |}, (pt_addr p).
    split_and!; try done; simpl; rewrite ?lookup_insert_eq; try done; [exact (proj1 (debug_is_any _ _) Hd)|].
    right. split_and!; eauto.
Qed.
(** The invariant sees of a probe only its point. *)
Lemma core_ext s s' :
  points s' = points s → point_list s' = point_list s → manager s' = manager s → handles s' ⊆ handles s →
  (∀ ptr, point <$> probes s' !! ptr = point <$> probes s !! ptr) → core s → core s'.
Proof.
  intros Hp Hpl Hm Hh Hpr C.
  assert (∀ a l q p d, listing s a l q p d → listing s' a l q p d) as HL'.
  { intros a l q p d L. eapply listing_ext; [..|exact L]; rewrite ?Hp, ?Hpl, ?Hm; try done.
    intros u Hu (o & Ho & Hq). pose proof (Hpr (uni_ptr u)) as E. rewrite Ho in E.
    apply fmap_Some in E as (o' & Ho' & E'). exists o'. split; [done|congruence]. }
  split; rewrite ?Hp, ?Hpl, ?Hm.
  - intros a l Hl. destruct (c_break _ C a l Hl) as (q & p & d & L). eauto 10.
  - intros d l Hl. destruct (c_debug _ C d l Hl) as (a & q & p & Hb & L). eauto 10.
  - intros ptr o Ho. pose proof (Hpr ptr) as E. rewrite Ho in E. symmetry in E.
    apply fmap_Some in E as (o' & Ho' & ->). by eapply c_probe.
  - apply C.
  - intros ptr Hin%Hh%(c_handle _ C). by rewrite <- (fmap_is_Some point), Hpr, fmap_is_Some.
Qed.

Lemma tidy_ext s s' :
  points s' = points s → point_list s' = point_list s → manager s' = manager s → handles s ⊆ handles s' →
  (∀ ptr, point <$> probes s' !! ptr = point <$> probes s !! ptr) → tidy s → tidy s'.
Proof.
  intros Hp Hpl Hm Hh Hpr T. split; rewrite ?Hp, ?Hpl, ?Hm.
  - intros ptr o Ho. pose proof (Hpr ptr) as E. rewrite Ho in E. symmetry in E. apply fmap_Some in E as (o' & Ho' & _).
    unfold probe_owned. rewrite Hm. destruct (t_probe _ T _ _ Ho') as [?|?]; [left; by apply Hh|by right].
  - intros q p Hq. destruct (t_point _ T _ _ Hq) as [Hl|Hpo]; [left; by rewrite Hpl|right].
    apply map_Exists_lookup in Hpo as (ptr & o & Ho & Hoq). pose proof (Hpr ptr) as E. rewrite Ho in E.
    apply fmap_Some in E as (o' & Ho' & E'). apply map_Exists_lookup. exists ptr, o'. split; [done|congruence].
  - apply T.
Qed.

(** A new point in the heap and the point list. *)
Definition with_point s w' (pp : Z) p : Kstate W S R D P :=
  upd_point_list (installed s w' pp p) (<[pt_addr p := pp]> (point_list s)).

Lemma with_point_core s w' pp p :
  core s → points s !! pp = None → point_list s !! pt_addr p = None → core (with_point s w' pp p).
Proof.
  intros C Hpp Hpl.
  assert (∀ a l q' p' d, listing s a l q' p' d → listing (with_point s w' pp p) a l q' p' d) as HL'.
  { intros a l q' p' d L. pose proof (li_plist _ _ _ _ _ _ L). pose proof (li_point _ _ _ _ _ _ L).
    eapply listing_ext; [..|exact L]; simpl; try done; apply lookup_insert_ne; congruence. }
  split; simpl.
  - intros a l Hl. destruct (c_break _ C a l Hl) as (q & p' & d & L). eauto 10.
  - intros d l Hl. destruct (c_debug _ C d l Hl) as (a & q & p' & Hb & L). eauto 10.
  - intros ptr o Ho. apply lookup_insert_is_Some. destruct (decide (pp = point o)); [by left|right].
    split; [done|]. by eapply c_probe.
  - intros a q [(<- & <-)|(Hne & Hq)]%lookup_insert_Some; [exists p; by rewrite lookup_insert_eq|].
    destruct (c_plist _ C a q Hq) as (p' & Hp' & Ha). exists p'. rewrite lookup_insert_ne; [done|congruence].
  - apply C.
Qed.

Lemma no_break_without_point s a : core s → point_list s !! a = None → break_list (manager s) !! a = None.
Proof.
  intros C Ha. destruct (break_list (manager s) !! a) as [l|] eqn:Hl; [|done].
  destruct (c_break _ C a l Hl) as (q & p & d & L). pose proof (li_plist _ _ _ _ _ _ L). congruence.
Qed.

Lemma listed_push (m : gmap Z (list UniProbe)) a u ptr : listed m ptr → listed (entry_push m a u) ptr.
Proof.
  rewrite !listed_elem. intros (b & l & u' & Hl & Hu & Hp). unfold entry_push.
  destruct (decide (b = a)) as [->|Hne].
  - exists a, (l ++ [u]), u'. rewrite lookup_insert_eq, Hl. split_and!; try done. by apply elem_of_app; left.
  - exists b, l, u'. by rewrite lookup_insert_ne.
Qed.

Lemma pushed_tidy s p d o u ptr :
  probes s !! ptr = None →
  (∀ ptr' o', probes s !! ptr' = Some o' → probe_owned s ptr') → (∀ q p, points s !! q = Some p → point_owned s q) →
  (∀ a q, point_list s !! a = Some q → a ≠ pt_addr p → is_Some (break_list (manager s) !! a)) →
  tidy (pushed s p d ptr o u).
Proof.
  intros Hptr T1 T2 T3. split; simpl.
  - intros ptr' o' [(<- & <-)|(_ & Ho')]%lookup_insert_Some; [left; simpl; by left|].
    destruct (T1 _ _ Ho') as [Hh|[Hl|Hl]]; [left; simpl; by right|right; left|right; right]; by apply listed_push.
  - intros q p' Hq. destruct (T2 _ _ Hq) as [Hl|Hp]; [by left|right].
    apply map_Exists_lookup in Hp as (ptr' & o' & Ho' & Hoq). apply map_Exists_lookup. exists ptr', o'.
    split; [|done]. simpl. rewrite lookup_insert_ne; [done|congruence].
  - intros a q Hq. unfold entry_push. apply lookup_insert_is_Some.
    destruct (decide (pt_addr p = a)); [by left|right]. split; [done|]. eapply T3; [done|congruence].
Qed.

(** The debug address of a new point is in no list. *)
Lemma new_point_debug w0 s w' pp p d sa off pid :
  core s → world_ok w0 s → points s !! pp = None → in_memory (installed s w' pp p) →
  replace_inst (world s) sa off pid = (w', Ok p) → debug_is p d → debug_list (manager s) !! d = None.
Proof.
  intros C V Hpp Hin Hr Hd. pose proof (replace_spec (world s) sa off pid) as Hspec. rewrite Hr in Hspec.
  destruct Hspec as (_ & _ & Hz & (_ & _ & _ & _ & Hcs & Hcp) & Hlen & _).
  assert (points (installed s w' pp p) !! pp = Some p) as Hq by (simpl; by rewrite lookup_insert_eq).
  rewrite (debug_home _ pp p d Hin Hq Hlen Hd). unfold home. rewrite Hz. simpl.
  apply (fresh_home w0 s); [done|done| |done|done|].
  - intros q' p' Hq'. apply (Hin q' p'). simpl. rewrite lookup_insert_ne; [done|congruence].
  - intros q' p' Hq' Hd'. left. apply (Hcp (pt_pid p')). by eapply (w_page _ _ V).
Qed.

Lemma register_kinv w0 mk s b pp pr s' r :
  kinv w0 s → (∀ ptr, uni_ptr (mk ptr) = ptr) → probe_point b = None → points s !! pp = None → probes s !! pr = None →
  register_probe unit_data mk s b pp pr = (s', r) → r ≠ Panic → in_memory s' → fresh_code s s' → kinv w0 s'.
Proof.
  intros [C T V] Hmk Hb Hpp Hpr Hreg Hr Hin Hfc.
  destruct (register_cases mk s b pp pr s' r C T Hb Hpp Hreg Hr)
    as [(w' & e & -> & -> & Hsm)|(s1 & p & d & o & a & -> & -> & Ha & Hpa & Ho & Hd & Hp & Hpl & Hcase)].
  { split; [by apply (core_ext s)|by apply (tidy_ext s)|by apply (world_ok_same _ s)]. }
  destruct Hcase as [[-> _]|(Hnone & Hopp & w' & Hrep & ->)]; subst a.
  - split.
    + eapply pushed_core; try done. intros Hn. destruct (t_plist _ T _ _ Hpl) as [x Hx]. congruence.
    + apply pushed_tidy; try apply T. done. intros a q Hq _. by eapply T.
    + by eapply world_ok_ext; [| |exact V].
  - change (upd_point_list _ _) with (with_point s w' pp p) in *.
    pose proof (with_point_core s w' pp p C Hpp Hnone) as C1. split.
    + eapply pushed_core; try done. intros _. change (debug_list (manager s) !! d = None).
      by eapply (new_point_debug w0 s w' pp p).
    + apply pushed_tidy; [done| | |].
      * intros ptr' o' Ho'. apply (probe_owned_ext s); [done..|]. by eapply T.
      * simpl. intros q p' [(<- & <-)|(Hne & Hq)]%lookup_insert_Some.
        -- eapply (point_owned_plist _ (pt_addr p)). simpl. by rewrite lookup_insert_eq.
        -- destruct (t_point _ T _ _ Hq) as [Hl|Hpo]; [|by right]. left. apply map_Exists_lookup in Hl as (a & q' & Hq' & ->).
           apply map_Exists_lookup. exists a, q. simpl. rewrite lookup_insert_ne; [done|congruence].
      * simpl. intros a q [(<- & <-)|(Hne & Hq)]%lookup_insert_Some Hna; [done|]. by eapply T.
    + eapply world_ok_ext; [| |eapply (installed_world w0 s w' pp p)]; try done.
      intros q p' Hq. eapply (Hfc pp p q p'); try done. simpl. by rewrite lookup_insert_eq.
Qed.
(** ** Unregistration and references *)

Lemma remove_handle_sub ptr hs : remove_handle ptr hs ⊆ hs.
Proof.
  induction hs as [|x hs IH]; simpl; [done|]. destruct (x =? ptr); intros y Hy; [by right|].
  apply elem_of_cons in Hy as [->|Hy]; [left|right; by apply IH].
Qed.
Lemma remove_handle_other ptr hs x : x ∈ hs → x ≠ ptr → x ∈ remove_handle ptr hs.
Proof.
  induction hs as [|y hs IH]; simpl; [done|]. intros [->|Hx]%elem_of_cons Hne.
  - destruct (y =? ptr) eqn:Hy; [by apply Z.eqb_eq in Hy|left].
  - destruct (y =? ptr); [done|right; by apply IH].
Qed.

Lemma release_kinv w0 s ptr :
  core s → (∀ ptr' o, probes s !! ptr' = Some o → ptr' ≠ ptr → probe_owned s ptr') →
  (∀ q p, points s !! q = Some p → point_owned s q) → world_ok w0 s →
  let s' := release_probe s ptr in
  core s' ∧ (∀ ptr' o, probes s' !! ptr' = Some o → probe_owned s' ptr') ∧
  (∀ q p, points s' !! q = Some p → point_owned s' q) ∧ world_ok w0 s'.
Proof.
  intros C T1 T2 V s'. destruct (release_probe_owned s ptr T1 T2).
  split_and!; eauto using release_probe_core, release_probe_world.
Qed.

Lemma drop_kinv w0 s ptr : kinv w0 s → kinv w0 (drop_handle s ptr).
Proof.
  intros [C T V]. unfold drop_handle. set (s1 := upd_handles s _).
  destruct (release_kinv w0 s1 ptr) as (C' & T1 & T2 & V').
  - apply (core_ext s); try done. apply remove_handle_sub.
  - intros ptr' o Ho Hne. destruct (t_probe _ T _ _ Ho) as [Hh|Hl]; [left|by right]. by apply remove_handle_other.
  - apply T.
  - by eapply world_ok_ext; [| |exact V].
  - destruct (release_probe_lists s1 ptr) as (Hm & Hpl & _). split; [done| |done]. split; [done|done|].
    rewrite Hpl, Hm. apply T.
Qed.

(** What unregistering a probe that a caller holds does. *)
Lemma unregister_cases s u s' :
  core s → unregister_probe s u = Ok s' →
  ∃ o p d, probes s !! uni_ptr u = Some o ∧ points s !! point o = Some p ∧ debug_is p d ∧
    let s2 := release_probe (upd_handles (upd_manager s (removed s p d u)) (remove_handle (uni_ptr u) (handles s))) (uni_ptr u) in
    (is_Some (break_list (removed s p d u) !! pt_addr p) ∧ s' = s2 ∨
     break_list (removed s p d u) !! pt_addr p = None ∧
       s' = match point_list s !! pt_addr p with
            | Some q => release_point (upd_point_list s2 (delete (pt_addr p) (point_list s))) q
            | None => s2
            end).
Proof.
  intros C Hu. unfold unregister_probe in Hu.
  destruct (probes s !! uni_ptr u) as [o|] eqn:Ho; [|done]. cbn [unwrap mbind res_bind] in Hu.
  destruct (points s !! point o) as [p|] eqn:Hp; [|done]. cbn [unwrap mbind res_bind] in Hu.
  unfold remove_probe in Hu.
  destruct (debug_address_cases (E := ()) p) as [[d Hd]|Hd]; rewrite Hd in Hu; cbn [mbind res_bind] in Hu; [|done].
  exists o, p, d. split_and!; [done..|]. revert Hu. change (remove_one_debug _ _ _) with (removed s p d u).
  set (s1 := upd_handles _ _). destruct (release_probe_lists s1 (uni_ptr u)) as (Hm & Hpl & _).
  unfold kprobe_num, break_list_len, break_address. rewrite Hm, Hpl.
  change (break_list (manager s1)) with (break_list (removed s p d u)).
  change (point_list s1) with (point_list s).
  destruct (removed_lookup s p d u o C Ho Hp Hd) as [Hb _].
  destruct (break_list (removed s p d u) !! pt_addr p) as [l|] eqn:Hl; cbn.
  - rewrite Hb in Hl. destruct (break_list (manager s) !! pt_addr p); simpl in Hl; [|done].
    apply nonempty_Some in Hl as [<- Hne]. destruct (without u l0) eqn:Hw; [done|]. cbn. intros [= <-]. left. eauto.
  - destruct (point_list s !! pt_addr p); intros [= <-]; right; done.
Qed.

(** The last probe at an address is gone: the point list forgets it. *)
Lemma unlist_point_kinv w0 s a q :
  core s → (∀ ptr o, probes s !! ptr = Some o → probe_owned s ptr) → (∀ q' p, points s !! q' = Some p → point_owned s q') →
  world_ok w0 s → (∀ a' q', point_list s !! a' = Some q' → a' ≠ a → is_Some (break_list (manager s) !! a')) →
  break_list (manager s) !! a = None → point_list s !! a = Some q →
  kinv w0 (release_point (upd_point_list s (delete a (point_list s))) q).
Proof.
  intros C T1 T2 V T3 Hb Hq. set (s1 := upd_point_list s _).
  assert (core s1) as C1.
  { assert (∀ a' l q' p' d, break_list (manager s) !! a' = Some l → listing s a' l q' p' d → listing s1 a' l q' p' d) as HL'.
    { intros a' l q' p' d Hl L. eapply listing_ext; [..|exact L]; try done. simpl. apply lookup_delete_ne. congruence. }
    split; simpl.
    - intros a' l Hl. destruct (c_break _ C a' l Hl) as (q' & p' & d & L). eauto 10.
    - intros d l Hl. destruct (c_debug _ C d l Hl) as (a' & q' & p' & Hbl & L). eauto 10.
    - apply C.
    - intros a' q' [_ Ha']%lookup_delete_Some. by eapply c_plist.
    - apply C. }
  destruct (release_point_lists s1 q) as (Hp & Hm & Hpl & Hh).
  split; [by apply release_point_core| |by apply release_point_world, (world_ok_ext _ s)].
  split; rewrite ?Hp, ?Hm, ?Hpl.
  - intros ptr o Ho. eapply (probe_owned_ext s1); [done|done|]. by eapply T1.
  - apply release_point_owned. simpl. intros q' p Hq' Hne. destruct (T2 q' p Hq') as [Hl|Hpr]; [left|by right].
    apply map_Exists_lookup in Hl as (a' & x & Ha' & ->). apply map_Exists_lookup. exists a', q'. split; [|done].
    simpl. rewrite lookup_delete_ne; [done|]. intros ->. congruence.
  - simpl. intros a' q' [Hne Ha']%lookup_delete_Some. by eapply T3.
Qed.

Lemma unregister_kinv w0 s u s' : kinv w0 s → unregister_probe s u = Ok s' → kinv w0 s'.
Proof.
  intros [C T V] Hu. destruct (unregister_cases s u s' C Hu) as (o & p & d & Ho & Hp & Hd & Hcase).
  set (s1 := upd_handles _ _) in Hcase.
  destruct (removed_lookup s p d u o C Ho Hp Hd) as [Hb Hdb].
  assert (core s1) as C1 by (eapply removed_core; eauto using remove_handle_sub).
  destruct (release_kinv w0 s1 (uni_ptr u)) as (C2 & T1 & T2 & V2); [done| |apply T|by eapply world_ok_ext; [| |exact V]|].
  { assert (∀ m m' : gmap Z (list UniProbe), (∀ a, m' !! a = l ← m !! a; nonempty (without u l)) →
      ∀ ptr, listed m ptr → ptr ≠ uni_ptr u → listed m' ptr) as Hkeep.
    { intros m m' Hm ptr (a & l & u' & Hl & Hu' & <-)%listed_elem Hne. apply listed_elem.
      assert (u' ∈ without u l) as Hw by (apply elem_of_without; split; [done|congruence]).
      exists a, (without u l), u'. rewrite Hm, Hl. split_and!; try done. apply nonempty_Some. split; [done|].
      intros E. rewrite E in Hw. by apply elem_of_nil in Hw. }
    intros ptr o' Ho' Hne. destruct (t_probe _ T _ _ Ho') as [Hh|[Hl|Hl]].
    - left. by apply remove_handle_other.
    - right; left. by apply (Hkeep (break_list (manager s))).
    - right; right. by apply (Hkeep (debug_list (manager s))). }
  destruct (release_probe_lists s1 (uni_ptr u)) as (Hm & Hpl & _). cbv zeta in Hcase.
  set (s2 := release_probe s1 (uni_ptr u)) in *.
  assert (∀ a q, point_list s !! a = Some q → a ≠ pt_addr p → is_Some (break_list (manager s2) !! a)) as T3.
  { intros a q Hq Hne. rewrite Hm. change (manager s1) with (removed s p d u). rewrite Hb.
    destruct (t_plist _ T a q Hq) as [l Hl]. rewrite Hl. simpl. rewrite without_notin; [exists l; apply nonempty_Some; eauto using break_nonempty|].
    intros Hin. destruct (c_break _ C a l Hl) as (q' & p' & d' & L).
    destruct (li_probes _ _ _ _ _ _ L u Hin) as (o' & Ho' & <-). pose proof (li_point _ _ _ _ _ _ L).
    assert (o' = o) as -> by congruence. assert (p' = p) as -> by congruence. apply Hne. symmetry. apply L. }
  destruct Hcase as [[Hsome ->]|[Hnone ->]].
  - split; [done| |done]. split; [done|done|]. rewrite Hpl. intros a q Hq.
    destruct (decide (a = pt_addr p)) as [->|Hne]; [by rewrite Hm|by eapply T3].
  - destruct (point_list s !! pt_addr p) as [q|] eqn:Hq.
    + change (point_list s) with (point_list s1). rewrite <- Hpl.
      apply (unlist_point_kinv w0 s2 (pt_addr p) q); [done..|rewrite Hpl; exact T3|by rewrite Hm|by rewrite Hpl].
    + split; [done| |done]. split; [done|done|]. rewrite Hpl. intros a q' Hq'. eapply T3; [done|]. intros ->.
      change (point_list s1) with (point_list s) in Hq'. congruence.
Qed.
(** ** The first hit of a user probe *)

(** The point at [q] gets a user copy at [ptr]; its probes move from the
    debug address [d] to [d']. *)
Definition moved s w (q : Z) p (ptr d d' : Z) : Kstate W S R D P :=
  upd_manager (installed s w q (with_dynamic_user_ptr p ptr))
    (replace_debug_list_with_new_address (manager s) d d').

Lemma moved_core s w q p ptr a l d d' :
  core s → listing s a l q p d → debug_is (with_dynamic_user_ptr p ptr) d' → debug_list (manager s) !! d' = None →
  break_list (manager s) !! a = Some l → core (moved s w q p ptr d d').
Proof.
  intros C L Hd' Hfree Hl. destruct (dynamic_fields p ptr) as (Ha & _ & _ & _ & _).
  pose proof (li_dlist _ _ _ _ _ _ L) as Hdl.
  assert (d' ≠ d) as Hne by congruence.
  assert (manager (moved s w q p ptr d d') =
    {| break_list := break_list (manager s); debug_list := <[d' := l]> (delete d (debug_list (manager s))) |}) as Hm.
  { simpl. unfold replace_debug_list_with_new_address. by rewrite Hdl. }
  assert (listing (moved s w q p ptr d d') a l q (with_dynamic_user_ptr p ptr) d') as Lnew.
  { destruct L. split; try done; rewrite ?Hm; simpl; rewrite ?lookup_insert_eq; [done|congruence|done]. }
  assert (∀ a2 l2 q2 p2 d2, listing s a2 l2 q2 p2 d2 → d2 ≠ d → listing (moved s w q p ptr d d') a2 l2 q2 p2 d2) as Hold.
  { intros a2 l2 q2 p2 d2 L2 Hd2. eapply listing_ext; [..|exact L2]; try done; rewrite ?Hm; simpl.
    - apply lookup_insert_ne. intros ->. pose proof (li_point _ _ _ _ _ _ L). pose proof (li_point _ _ _ _ _ _ L2).
      assert (p2 = p) as -> by congruence. by eapply Hd2, debug_is_fun; [apply L2|apply L].
    - rewrite lookup_insert_ne, lookup_delete_ne; [done|congruence|]. intros <-.
      pose proof (li_dlist _ _ _ _ _ _ L2). congruence. }
  split; rewrite ?Hm; simpl.
  - intros a2 l2 Hl2. destruct (c_break _ C a2 l2 Hl2) as (q2 & p2 & d2 & L2).
    destruct (decide (d2 = d)) as [->|Hd2]; [|eauto 10].
    destruct (listing_debug_inj _ _ _ _ _ _ _ _ _ _ C L L2) as (<- & <- & <-). eauto.
  - intros b l2 [(<- & <-)|(Hb & [Hbd Hl2]%lookup_delete_Some)]%lookup_insert_Some; [eauto 10|].
    destruct (c_debug _ C b l2 Hl2) as (a2 & q2 & p2 & Hb2 & L2). exists a2, q2, p2. split; [done|]. by apply Hold.
  - intros ptr' o Ho. apply lookup_insert_is_Some. destruct (decide (q = point o)); [by left|right].
    split; [done|]. by eapply c_probe.
  - intros a2 q2 Hq2. destruct (c_plist _ C a2 q2 Hq2) as (p2 & Hp2 & Ha2).
    destruct (decide (q2 = q)) as [->|Hqq]; [|exists p2; by rewrite lookup_insert_ne].
    exists (with_dynamic_user_ptr p ptr). rewrite lookup_insert_eq. split; [done|].
    pose proof (li_point _ _ _ _ _ _ L). congruence.
  - apply C.
Qed.

Lemma uprobe_break_cases s sr x s' sr' :
  core s → uprobe_handler_from_break s sr = Ok (x, (s', sr')) →
  s' = s ∨ ∃ a l q p d d' ptr w,
    break_list (manager s) !! a = Some l ∧ listing s a l q p d ∧ dynamic_user_ptr p = 0 ∧
    alloc_user_exec_memory (world s) (pt_pid p) (ptr_read (world s) (single_step_address p) 0 (instruction_slot_len p)) = (ptr, w) ∧
    debug_is (with_dynamic_user_ptr p ptr) d' ∧ s' = moved s w q p ptr d d'.
Proof.
  intros C Hh. unfold uprobe_handler_from_break in Hh.
  destruct (regs_break_address sr.2) as [a|?| |]; try done. cbn [mbind res_bind] in Hh.
  unfold get_break_list in Hh. destruct (break_list (manager s) !! a) as [l|] eqn:Hl.
  - destruct (for_enabled s call_pre_handler l sr) as [sr2|?| |]; try done. cbn [mbind res_bind] in Hh.
    destruct (c_break _ C a l Hl) as (q & p & d & L). destruct (head_in l (li_nonempty _ _ _ _ _ _ L)) as (u & Hu & Hin).
    rewrite Hu in Hh. cbn [unwrap mbind res_bind] in Hh.
    destruct (li_probes _ _ _ _ _ _ L u Hin) as (o & Ho & Hq). unfold probe_of in Hh. rewrite Ho in Hh.
    cbn [unwrap mbind res_bind] in Hh. rewrite Hq, (li_point _ _ _ _ _ _ L) in Hh. cbn [unwrap mbind res_bind] in Hh.
    destruct (dynamic_user_ptr p =? 0) eqn:Hz; cbn [negb] in Hh; [|left; by simplify_eq].
    destruct (alloc_user_exec_memory _ _ _) as [ptr w] eqn:Hal.
    rewrite (li_debug _ _ _ _ _ _ L : debug_address p = Ok d) in Hh. cbn [mbind res_bind] in Hh.
    unfold set_dynamic_user_ptr in Hh.
    destruct (arith_cases (E := ()) 64 (ptr + Z.of_nat (original_instruction_len p))) as [[d' Hd]|Hd];
      rewrite Hd in Hh; cbn [mbind res_bind] in Hh; [|done]. injection Hh as <- <- <-.
    right. exists a, l, q, p, d, d', ptr, w. apply Z.eqb_eq in Hz. split_and!; try done.
    destruct (dynamic_fields p ptr) as (_ & Hsl & _ & Hlen & Hdyn). unfold debug_is, debug_address. rewrite Hdyn, Hlen.
    pose proof (user_alloc_law (world s) (pt_pid p) (ptr_read (world s) (single_step_address p) 0 (instruction_slot_len p))) as Hlaw.
    rewrite Hal in Hlaw. destruct Hlaw as [Hne _]. simpl in Hne. by destruct (ptr =? 0) eqn:Hp0; [apply Z.eqb_eq in Hp0|].
  - destruct (uprobe_handler_from_debug s sr) as [[x2 sr2]|?| |]; try done. cbn [mbind res_bind] in Hh. left. by simplify_eq.
Qed.

(** So is the debug address of a point that gets its user page. *)
Lemma moved_debug w0 s w q p bytes ptr d d' :
  core s → world_ok w0 s → points s !! q = Some p → dynamic_user_ptr p = 0 →
  allocates_page (world s) (pt_pid p) bytes (ptr, w) → in_memory (moved s w q p ptr d d') →
  apart_processes (moved s w q p ptr d d') → debug_is (with_dynamic_user_ptr p ptr) d' → debug_list (manager s) !! d' = None.
Proof.
  intros C V Hq Hz (Hnz & _ & _ & _ & _ & _ & Hcs & Hcp) Hin Hap Hd. simpl in Hnz, Hcs, Hcp.
  destruct (dynamic_fields p ptr) as (_ & Hsl & Hpid & Hlen & Hdyn). set (p' := with_dynamic_user_ptr p ptr) in *.
  assert (points (moved s w q p ptr d d') !! q = Some p') as Hq' by (simpl; by rewrite lookup_insert_eq).
  pose proof (w_len _ _ V q p Hq) as Hl.
  rewrite (debug_home _ q p' d' Hin Hq' ltac:(lia) Hd). unfold home. rewrite Hdyn, (proj2 (Z.eqb_neq _ _)) by done. rewrite Hlen.
  assert (∀ q2 p2, q2 ≠ q → points s !! q2 = Some p2 → points (moved s w q p ptr d d') !! q2 = Some p2) as Hother.
  { intros q2 p2 Hne Hq2. simpl. by rewrite lookup_insert_ne. }
  apply (fresh_home w0 s); [done|done| |lia|done|].
  - intros q2 p2 Hq2. destruct (decide (q2 = q)) as [->|Hne]; [|by apply (Hin q2), Hother].
    assert (p2 = p) as -> by congruence. destruct (Hin q p' Hq') as (? & ? & _). unfold pslot in *. rewrite Hsl, Hz in *. lia.
  - intros q2 p2 Hq2 Hd2. assert (q2 ≠ q) as Hne by congruence.
    destruct (decide (pt_pid p2 = pt_pid p)) as [He|He].
    + left. apply Hcp. rewrite <- He. by eapply (w_page _ _ V).
    + right. rewrite <- Hlen, <- Hdyn. apply (Hap q2 p2 (Hother _ _ Hne Hq2) q p' Hq'); [done|by rewrite Hdyn|by rewrite Hpid].
Qed.

Lemma first_hit_kinv w0 s sr x s' sr' :
  kinv w0 s → uprobe_handler_from_break s sr = Ok (x, (s', sr')) → in_memory s' → apart_processes s' → kinv w0 s'.
Proof.
  intros [C T V] Hh Hin Hap.
  destruct (uprobe_break_cases s sr x s' sr' C Hh) as [->|(a & l & q & p & d & d' & ptr & w & Hl & L & Hz & Hal & Hd' & ->)]; [done|].
  pose proof (user_alloc_law (world s) (pt_pid p) (ptr_read (world s) (single_step_address p) 0 (instruction_slot_len p))) as Hlaw.
  rewrite Hal in Hlaw.
  pose proof (li_point _ _ _ _ _ _ L) as Hp.
  assert (manager (moved s w q p ptr d d') =
    {| break_list := break_list (manager s); debug_list := <[d' := l]> (delete d (debug_list (manager s))) |}) as Hm.
  { simpl. unfold replace_debug_list_with_new_address. by rewrite (li_dlist _ _ _ _ _ _ L). }
  split.
  - apply (moved_core s w q p ptr a l d d'); try done. by eapply (moved_debug w0 s w q p).
  - split.
    + intros ptr' o Ho. unfold probe_owned. rewrite Hm. simpl.
      destruct (t_probe _ T ptr' o Ho) as [Hh'|[Hl'|Hl']]; [by left|right; by left|right; left].
      apply listed_elem in Hl' as (b & l2 & u2 & Hb & Hu2 & <-). apply listed_elem.
      destruct (c_debug _ C b l2 Hb) as (a2 & q2 & p2 & Hb2 & _). eauto 10.
    + simpl. intros q2 p2 [(<- & <-)|(_ & Hq2)]%lookup_insert_Some; [by eapply (t_point _ T)|by eapply (t_point _ T)].
    + rewrite Hm. apply T.
  - eapply (world_ok_ext _ (installed s w q (with_dynamic_user_ptr p ptr))); [done|done|].
    by eapply dynamic_world.
Qed.

(** ** The invariant holds throughout *)
Lemma kstep_kinv w0 s s' : kstep s s' → kinv w0 s → kinv w0 s'.
Proof.
  intros Hstep I. destruct Hstep as [mk s b pp pr s' r Hmk Hb Hpp Hpr Hreg Hr Hin' Hfc|s u s' Hu Hun|s ptr Hin|s ptr Hin|s ptr o b Hin Ho|s sr x s' sr' Hh Hin' Hap].
  - by eapply register_kinv.
  - by eapply unregister_kinv.
  - destruct I as [C T V]. split; [|apply (tidy_ext s); try done; by right|by apply (world_ok_ext _ s)].
    split; simpl; [| |apply C|apply C|].
    + intros a l Hl. destruct (c_break _ C a l Hl) as (q & p & d & L). exists q, p, d. by eapply listing_ext; [..|exact L].
    + intros d l Hl. destruct (c_debug _ C d l Hl) as (a & q & p & Hb & L). exists a, q, p. split; [done|]. by eapply listing_ext; [..|exact L].
    + intros ptr' [->|Hin']%elem_of_cons; by apply (c_handle _ C).
  - by apply drop_kinv.
  - destruct I as [C T V].
    assert (∀ ptr', point <$> probes (with_basic s ptr o b) !! ptr' = point <$> probes s !! ptr') as Hpt.
    { intros ptr'. simpl. destruct (decide (ptr' = ptr)) as [->|Hne]; [by rewrite lookup_insert_eq, Ho|by rewrite lookup_insert_ne]. }
    split; [by apply (core_ext s)|by apply (tidy_ext s)|by apply (world_ok_ext _ s)].
  - by eapply first_hit_kinv.
Qed.

Lemma kreachable_kinv w0 s : kreachable w0 s → kinv w0 s.
Proof.
  intros Hr. unfold kreachable in Hr. remember (kstart w0) as s0 eqn:H0'. assert (kinv w0 s0) as I by (subst; apply kinv_start).
  clear H0'. induction Hr as [s|s1 s2 s3 Hstep Hr IH]; [done|]. apply IH. by eapply kstep_kinv.
Qed.
End steps.
