(* ===== verification/KprobeMach.v ===== *)
(** A concrete kernel under the probes, to run them on: the code of every
    address space, the executable slots and the pages of processes are finite
    maps. *)
From S2P Require Import Prelude Text KprobeBase KprobeArch KprobeRv64 KprobeAArch64 KprobeLA64 KprobeX86 KprobeArchProps.

Record Mach := { mem : gmap (option Z * Z) Z; slots : gmap Z str; pages : gmap (option Z * Z) str }.

(** The bytes [bytes] at [a], in an address space. *)
Fixpoint put_bytes (m : gmap (option Z * Z) Z) (pid : option Z) (a : Z) (bytes : str) : gmap (option Z * Z) Z :=
  match bytes with [] => m | b :: bytes => <[(pid, a) := b]> (put_bytes m pid (a + 1) bytes) end.
Definition byte_at (m : Mach) (pid : option Z) (a : Z) : Z := default 0 (mem m !! (pid, a)) `mod` 256.

(** Slots are above every page in use; a user page is above the slots and the
    pages of its own process, so that two processes can get one address. *)
Definition top (l : list Z) : Z := foldr Z.max 0 l.
Definition slot_addrs (m : Mach) : list Z := (map_to_list (slots m)).*1.
Definition page_addrs (m : Mach) : list (option Z * Z) := (map_to_list (pages m)).*1.
Definition pages_of (m : Mach) (pid : option Z) : list Z := (filter (λ x, x.1 = pid) (page_addrs m)).*2.
Definition with_slots (m : Mach) (s : gmap Z str) : Mach := {| mem := mem m; slots := s; pages := pages m |}.
Definition with_pages (m : Mach) (s : gmap (option Z * Z) str) : Mach := {| mem := mem m; slots := slots m; pages := s |}.

Definition new_slot (m : Mach) : Z * Mach :=
  let p := top (slot_addrs m ++ (page_addrs m).*2) + 4096 in
  (p, with_slots m (<[p := replicate SLOT_SIZE 0]> (slots m))).
Definition free_slot (m : Mach) (p : Z) : Mach := with_slots m (delete p (slots m)).
Definition new_page (m : Mach) (pid : option Z) (bytes : str) : Z * Mach :=
  let p := top (slot_addrs m ++ pages_of m pid) + 4096 in
  (p, with_pages m (<[(pid, p) := bytes ++ replicate SLOT_SIZE 0]> (pages m))).
Definition free_page (m : Mach) (pid : option Z) (p : Z) : Mach := with_pages m (delete (pid, p) (pages m)).

#[export] Instance Mach_obs : KprobeObs Mach := {|
  code := byte_at; slot m p := slots m !! p; user_page m pid p := pages m !! (pid, p) |}.
#[export] Instance Mach_ops : KprobeAuxiliaryOps Mach := {|
  copy_memory m a n pid := code_at m pid a n;
  set_writeable_for_address m a n pid bytes :=
    {| mem := put_bytes (mem m) pid a bytes; slots := slots m; pages := pages m |};
  alloc_kernel_exec_memory := new_slot;
  free_kernel_exec_memory := free_slot;
  alloc_user_exec_memory := new_page;
  free_user_exec_memory := free_page;
  box_alloc := new_slot;
  box_free := free_slot;
  ptr_write m p off bytes :=
    match slots m !! p with
    | Some c => with_slots m (<[p := splice c off bytes]> (slots m))
    | None => m
    end;
  ptr_read m p off n := match slots m !! p with Some c => take n (drop off c) | None => [] end;
|}.

Lemma lookup_put_bytes m pid a bytes pid' b :
  put_bytes m pid a bytes !! (pid', b) =
    if decide (pid' = pid ∧ a ≤ b < a + Z.of_nat (length bytes)) then bytes !! Z.to_nat (b - a) else m !! (pid', b).
Proof.
  revert a. induction bytes as [|x bytes IH]; intros a; cbn [put_bytes length].
  - rewrite decide_False; [done|lia].
  - destruct (decide ((pid, a) = (pid', b))) as [[= <- <-]|Hne].
    + rewrite lookup_insert_eq, decide_True by (split; [done|lia]). by rewrite Z.sub_diag.
    + rewrite lookup_insert_ne, IH by done.
      destruct (decide (pid' = pid)) as [->|Hp]; [|by rewrite !decide_False by naive_solver].
      destruct (decide (a + 1 ≤ b < a + 1 + Z.of_nat (length bytes))) as [Hb|Hb].
      * rewrite !decide_True by (split; [done|lia]). replace (Z.to_nat (b - a)) with (S (Z.to_nat (b - (a + 1)))) by lia. done.
      * rewrite !decide_False; [done| |naive_solver]. intros [_ ?]. apply Hne. f_equal. lia.
Qed.

Lemma top_le l x : x ∈ l → x ≤ top l.
Proof.
  unfold top. induction l as [|y l IH]; [by intros ?%elem_of_nil|].
  intros [->|Hin]%elem_of_cons; simpl; [lia|]. specialize (IH Hin). lia.
Qed.
Lemma top_pos l : 0 ≤ top l.
Proof. unfold top. induction l; simpl; lia. Qed.
Lemma above_top l x : x ∈ l → page_apart (top l + 4096) x.
Proof. intros Hx%top_le. right. lia. Qed.

Lemma elem_of_keys {K A} `{Countable K} (m : gmap K A) k : m !! k ≠ None → k ∈ (map_to_list m).*1.
Proof.
  destruct (m !! k) as [x|] eqn:Hk; [|done]. intros _. apply list_elem_of_fmap. exists (k, x). split; [done|].
  by apply elem_of_map_to_list.
Qed.
Lemma slot_in m p : slots m !! p ≠ None → p ∈ slot_addrs m.
Proof. apply elem_of_keys. Qed.
Lemma page_in m pid p : pages m !! (pid, p) ≠ None → p ∈ (page_addrs m).*2.
Proof. intros Hp%elem_of_keys. apply list_elem_of_fmap. by exists (pid, p). Qed.
Lemma page_of_in m pid p : pages m !! (pid, p) ≠ None → p ∈ pages_of m pid.
Proof.
  intros Hp%elem_of_keys. apply list_elem_of_fmap. exists (pid, p). split; [done|]. by apply list_elem_of_filter.
Qed.
Lemma apart_self p : ¬ page_apart p p.
Proof. intros []; lia. Qed.

Lemma new_slot_allocates m : allocates m (new_slot m).
Proof.
  unfold allocates, new_slot. cbv zeta. cbn [fst snd]. set (p := top _ + 4096).
  assert (clear_of_slots m p) as Hcs by (intros q Hq%slot_in; apply above_top, elem_of_app; by left).
  assert (clear_of_pages m p) as Hcp by (intros pid q Hq%page_in; apply above_top, elem_of_app; by right).
  split_and!; try done.
  - pose proof (top_pos (slot_addrs m ++ (page_addrs m).*2)). lia.
  - destruct (slot m p) eqn:Hs; [|done]. exfalso. apply (apart_self p), Hcs. congruence.
  - eexists. simpl. rewrite lookup_insert_eq. split; [done|]. by rewrite length_replicate.
  - intros q Hq. simpl. by rewrite lookup_insert_ne.
Qed.
Lemma free_slot_frees m p : frees m (free_slot m p) p.
Proof.
  unfold frees, free_slot. simpl. split_and!; try done; [by rewrite lookup_delete_eq|].
  intros q Hq. by rewrite lookup_delete_ne.
Qed.
Lemma new_page_allocates m pid bytes : allocates_page m pid bytes (new_page m pid bytes).
Proof.
  unfold allocates_page, new_page. cbv zeta. cbn [fst snd]. set (p := top _ + 4096).
  assert (clear_of_slots m p) as Hcs by (intros q Hq%slot_in; apply above_top, elem_of_app; by left).
  assert (∀ q, user_page m pid q ≠ None → page_apart p q) as Hcp
    by (intros q Hq%page_of_in; apply above_top, elem_of_app; by right).
  split_and!; try done.
  - pose proof (top_pos (slot_addrs m ++ pages_of m pid)). lia.
  - destruct (user_page m pid p) eqn:Hs; [|done]. exfalso. apply (apart_self p), Hcp. congruence.
  - eexists. simpl. rewrite lookup_insert_eq. split; [done|]. by rewrite take_app_length.
  - intros pid' q Hq. simpl. by rewrite lookup_insert_ne.
Qed.
Lemma free_page_frees m pid p : frees_page m (free_page m pid p) pid p.
Proof.
  unfold frees_page, free_page. simpl. split_and!; try done; [by rewrite lookup_delete_eq|].
  intros pid' q Hq. by rewrite lookup_delete_ne.
Qed.

#[export] Instance Mach_laws : KprobeAuxiliaryLaws Mach.
Proof.
  split; try apply new_slot_allocates; try apply free_slot_frees; try apply new_page_allocates; try apply free_page_frees; try done.
  - intros m pid a. apply Z.mod_pos_bound. lia.
  - intros m a n pid bytes Hn Hb w'. split; [|done]. intros pid' b. subst w'. simpl. unfold byte_at. simpl.
    rewrite lookup_put_bytes. case_decide as Hin; [|done]. destruct Hin as [_ Hin].
    destruct (lookup_lt_is_Some_2 bytes (Z.to_nat (b - a))) as [x Hx]; [lia|]. rewrite Hx. simpl.
    apply Z.mod_small. exact (Forall_lookup_1 _ _ _ _ Hb Hx).
  - intros m p off bytes c Hc Hl w'. simpl in Hc. subst w'. simpl. rewrite Hc.
    split_and!; try done; simpl; [by rewrite lookup_insert_eq|]. intros q Hq. by rewrite lookup_insert_ne.
  - intros m p off n c Hc _. simpl in *. by rewrite Hc.
Qed.
