(* ===== verification/KprobeClaims.v ===== *)
(** What the probe manager guarantees. *)
From S2P Require Import Prelude Text KprobeBase KprobeArch KprobeRv64 KprobeAArch64 KprobeLA64 KprobeX86 KprobeArchProps Kprobe KprobeProps KprobeWorld KprobeSteps KprobeMach.

Section claims.
Context `{BuildMode} {W S R D P : Type} `{KprobeAuxiliaryLaws W} `{KprobeOps P} `{!ProbeArch W P} `{PtRegsOps R}.
Context {HL : ProbeArchLaws W P} (unit_data : D).
Implicit Types (s : Kstate W S R D P) (o : Probe S R D) (p : P) (u : UniProbe) (l : list UniProbe).

(** The enabled probes of a list, each doing [f] in turn. *)
Definition run_enabled s (f : ProbeBasic S R D → S * R → S * R) l (sr : S * R) : S * R :=
  foldl (λ sr u, match probes s !! uni_ptr u with
                 | Some o => if is_enabled (basic o) then f (basic o) sr else sr
                 | None => sr
                 end) sr l.

Lemma for_enabled_run s f l sr :
  (∀ u, u ∈ l → is_Some (probes s !! uni_ptr u)) → for_enabled s f l sr = Ok (run_enabled s f l sr).
Proof.
  revert sr. induction l as [|u l IH]; intros sr Hl; [done|]. simpl. unfold probe_of.
  destruct (Hl u) as [o Ho]; [left|]. rewrite Ho. cbn [unwrap mbind res_bind]. apply IH.
  intros u' Hu'. apply Hl. by right.
Qed.

Lemma listing_live s a l q p d u : listing s a l q p d → u ∈ l → is_Some (probes s !! uni_ptr u).
Proof. intros L Hu. destruct (li_probes _ _ _ _ _ _ L u Hu) as (o & Ho & _). eauto. Qed.

Lemma listing_head s a l q p d :
  listing s a l q p d → ∃ u, l !! 0%nat = Some u ∧ point_of s u = Ok p.
Proof.
  intros L. destruct (head_in l (li_nonempty _ _ _ _ _ _ L)) as (u & Hu & Hin). exists u. split; [done|].
  destruct (li_probes _ _ _ _ _ _ L u Hin) as (o & Ho & <-). unfold point_of, probe_of. rewrite Ho.
  cbn [unwrap mbind res_bind]. by rewrite (li_point _ _ _ _ _ _ L).
Qed.

(** C3: in every state the manager can reach, the breakpoint list and the
    single-step list of an address hold the same live probes, in the same
    order, all on the one live point the point list records there; nothing
    is alive that nobody refers to; and each live point holds a copy of the
    code it replaced, its slot and its page in a process are live and its
    own, while all other code, slots and pages are as before the first probe.

    The states are those reached by registering builders without a preset
    point at fresh heap addresses, unregistering, copying and dropping
    references, updating probes and taking first hits of user probes, none of
    which panicked, where the kernel sees to what the manager does not: new
    pages lie in the 64-bit address space ([in_memory]); a new point replaces code that no live point
    replaces ([fresh_code], so that probed code is disjoint is not a
    conclusion; [overlapping_probes_corrupt]); and the user copies of probes
    of different processes end at different addresses ([apart_processes];
    else [user_pages_collide]). *)
Theorem kprobe_invariant w0 s : kreachable unit_data w0 s → kinv w0 s.
Proof. apply kreachable_kinv. Qed.

(** C4: when every probe has been unregistered and no caller keeps a
    reference to one, nothing is left: no probe, no point, no entry in any
    list, and the code of every address space, the executable slots of the
    kernel and the executable pages of every process are as they were before
    the first registration.  The states are those of C3. *)
Theorem kprobe_restores_code w0 s :
  kreachable unit_data w0 s → break_list (manager s) = ∅ → handles s = [] →
  probes s = ∅ ∧ points s = ∅ ∧ point_list s = ∅ ∧ debug_list (manager s) = ∅ ∧
  same_code w0 (world s) ∧ same_slots w0 (world s) ∧ same_pages w0 (world s).
Proof.
  intros [C T V]%kreachable_kinv Hb Hh.
  assert (debug_list (manager s) = ∅) as Hd.
  { apply map_empty. intros d. destruct (debug_list (manager s) !! d) as [l|] eqn:Hl; [|done].
    destruct (c_debug _ C d l Hl) as (a & q & p & Ha & _). by rewrite Hb, lookup_empty in Ha. }
  assert (∀ m ptr, m = ∅ → ¬ listed m ptr) as Hno.
  { intros m ptr -> (a & l & u & Hl & _)%listed_elem. by rewrite lookup_empty in Hl. }
  assert (probes s = ∅) as Hpr.
  { apply map_empty. intros ptr. destruct (probes s !! ptr) as [o|] eqn:Ho; [|done].
    destruct (t_probe _ T ptr o Ho) as [Hin|[Hl|Hl]]; [rewrite Hh in Hin; by apply elem_of_nil in Hin|by eapply Hno in Hl..]. }
  assert (point_list s = ∅) as Hpl.
  { apply map_empty. intros a. destruct (point_list s !! a) as [q|] eqn:Hq; [|done].
    destruct (t_plist _ T a q Hq) as [l Hl]. by rewrite Hb, lookup_empty in Hl. }
  assert (points s = ∅) as Hp.
  { apply map_empty. intros q. destruct (points s !! q) as [p|] eqn:Hq; [|done].
    destruct (t_point _ T q p Hq) as [(a & x & Hx & _)%map_Exists_lookup|(ptr & o & Ho & _)%map_Exists_lookup];
      [by rewrite Hpl, lookup_empty in Hx|by rewrite Hpr, lookup_empty in Ho]. }
  split_and!; try done.
  - intros pid b. apply (w_code _ _ V). intros q p Hq. by rewrite Hp, lookup_empty in Hq.
  - intros x. apply (w_slots _ _ V). intros q p Hq. by rewrite Hp, lookup_empty in Hq.
  - intros pid x. apply (w_pages _ _ V). intros q p Hq. by rewrite Hp, lookup_empty in Hq.
Qed.

(** C17: a hit of a breakpoint with registered probes runs the pre-handlers
    of the enabled ones, in the order of registration, and sends the
    processor to the copy of the original instruction; the trap behind the
    copy runs their post-handlers and event callbacks in the same order and
    returns to the instruction after the probed one.  No handler panics. *)
Theorem kprobe_hit_cycle w0 s a l :
  kreachable unit_data w0 s → get_break_list (manager s) a = Some l →
  ∃ q p d, point_list s !! a = Some q ∧ points s !! q = Some p ∧ break_address p = a ∧
    debug_address (E := ()) p = Ok d ∧ saved (world s) p = Some (original w0 p) ∧
    (∀ sr, regs_break_address sr.2 = Ok a →
      kprobe_handler_from_break s sr =
        let sr' := run_enabled s call_pre_handler l sr in
        Ok (Some (), (sr'.1, setup_single_step sr'.2 (single_step_address p)))) ∧
    (∀ sr ra, regs_debug_address sr.2 = d → return_address (E := ()) p = Ok ra →
      kprobe_handler_from_debug s sr =
        let sr' := run_enabled s (λ b sr, call_event_callback b (call_post_handler b sr)) l sr in
        Ok (Some (), (sr'.1, clear_single_step sr'.2 ra))).
Proof.
  intros [C T V]%kreachable_kinv Hl. destruct (c_break _ C a l Hl) as (q & p & d & L). exists q, p, d.
  destruct (listing_head _ _ _ _ _ _ L) as (u & Hu & Hpu). split_and!.
  1-4: apply L.
  - eapply (w_saved _ _ V), L.
  - intros sr Ha. unfold kprobe_handler_from_break. rewrite Ha. cbn [mbind res_bind]. rewrite Hl.
    rewrite for_enabled_run by (intros; by eapply listing_live). cbn [mbind res_bind]. rewrite Hu.
    cbn [unwrap mbind res_bind]. rewrite Hpu. done.
  - intros sr ra Hd Hra. unfold kprobe_handler_from_debug, handler_from_debug, get_debug_list.
    rewrite Hd, (li_dlist _ _ _ _ _ _ L), for_enabled_run by (intros; by eapply listing_live).
    cbn [mbind res_bind]. rewrite Hu. cbn [unwrap mbind res_bind]. rewrite Hpu. cbn [mbind res_bind].
    rewrite Hra. done.
Qed.
(** ** Registering and unregistering *)

Lemma remove_pushed (m : gmap Z (list UniProbe)) a u :
  (∀ c l, m !! c = Some l → l ≠ [] ∧ u ∉ l) → remove_one (entry_push m a u) a u = m.
Proof.
  intros Hm. apply map_eq. intros b. unfold entry_push. rewrite lookup_remove_one.
  - case_decide as Hb; [subst b|by rewrite lookup_insert_ne]. rewrite lookup_insert_eq. simpl.
    assert (∀ l, without u (l ++ [u]) = without u l) as Hw.
    { intros l. unfold without. rewrite List.filter_app. simpl. rewrite uni_eq_spec, bool_decide_eq_true_2 by done.
      apply app_nil_r. }
    rewrite Hw. destruct (m !! a) as [l|] eqn:Hl; [|done]. destruct (Hm a l Hl) as [Hne Hu]. simpl.
    rewrite without_notin by done. by apply nonempty_Some.
  - intros c l [(<- & <-)|(_ & Hl)]%lookup_insert_Some; [by destruct (default [] _)|by eapply Hm].
Qed.

Lemma fresh_unlisted s ptr u : core s → probes s !! ptr = None → uni_ptr u = ptr →
  (∀ c l, break_list (manager s) !! c = Some l → l ≠ [] ∧ u ∉ l) ∧
  (∀ c l, debug_list (manager s) !! c = Some l → l ≠ [] ∧ u ∉ l).
Proof.
  intros C Hptr Hu. split; intros c l Hl; [destruct (c_break _ C c l Hl) as (q & p & d & L)|destruct (c_debug _ C c l Hl) as (a & q & p & _ & L)];
    (split; [apply L|]); intros Hin; destruct (listing_live _ _ _ _ _ _ _ L Hin); congruence.
Qed.

Lemma fresh_unowned s ptr : core s → probes s !! ptr = None → ¬ probe_owned s ptr.
Proof.
  intros C Hptr [Hh|[(a & l & u & Hl & Hu & Hp)%listed_elem|(a & l & u & Hl & Hu & Hp)%listed_elem]].
  - destruct (c_handle _ C ptr Hh). congruence.
  - by destruct (proj2 (proj1 (fresh_unlisted s ptr u C Hptr Hp) a l Hl)).
  - by destruct (proj2 (proj2 (fresh_unlisted s ptr u C Hptr Hp) a l Hl)).
Qed.

(** Dropping a probe just made: the heap of probes is as before, its point
    stays with the point list. *)
Lemma release_fresh s o ptr :
  core s → probes s !! ptr = None → map_Exists (λ _ x, x = point o) (point_list s) →
  release_probe (upd_probes s (<[ptr := o]> (probes s))) ptr = s.
Proof.
  intros C Hptr Hown. unfold release_probe. rewrite decide_False by by apply (fresh_unowned s). simpl.
  rewrite lookup_insert_eq. unfold release_point. rewrite decide_True by by left.
  rewrite delete_insert_eq, delete_id by done. by destruct s.
Qed.

(** Unregistering right after registering. *)
Lemma unregister_pushed s p d o ptr u :
  core s → uni_ptr u = ptr → probes s !! ptr = None → points s !! point o = Some p → debug_is p d →
  point_list s !! pt_addr p = Some (point o) →
  unregister_probe (pushed s p d ptr o u) u =
    Ok match break_list (manager s) !! pt_addr p with
       | Some _ => s
       | None => release_point (upd_point_list s (delete (pt_addr p) (point_list s))) (point o)
       end.
Proof.
  intros C Hu Hptr Hp Hd Hpl. unfold unregister_probe. rewrite Hu. cbn [pushed upd_handles upd_manager upd_probes probes points].
  rewrite lookup_insert_eq. cbn [unwrap mbind res_bind]. rewrite Hp. cbn [unwrap mbind res_bind].
  unfold remove_probe. rewrite Hd. cbn [mbind res_bind]. unfold break_address.
  destruct (fresh_unlisted s ptr u C Hptr Hu) as [Hb Hdb].
  assert (remove_one_debug (remove_one_break (manager (pushed s p d ptr o u)) (pt_addr p) u) d u = manager s) as ->.
  { unfold remove_one_debug, remove_one_break. simpl. rewrite !remove_pushed by done. by destruct (manager s). }
  assert (remove_handle ptr (handles (pushed s p d ptr o u)) = handles s) as ->.
  { simpl. by rewrite Z.eqb_refl. }
  replace (upd_handles (upd_manager (pushed s p d ptr o u) (manager s)) (handles s))
    with (upd_probes s (<[ptr := o]> (probes s))) by by destruct s.
  rewrite release_fresh; [|done|done|apply map_Exists_lookup; eauto].
  unfold kprobe_num, break_list_len. destruct (break_list (manager s) !! pt_addr p) as [l|] eqn:Hl; cbn.
  - pose proof (break_nonempty s _ l C Hl). by destruct l.
  - by rewrite Hpl.
Qed.

(** Dropping the point just installed. *)
Lemma replace_drop (w w' : W) p sa off pid :
  replace_inst w sa off pid = (w', Ok p) → same_memory w (drop_point w' p).
Proof.
  intros Hr. pose proof (replace_spec w sa off pid) as Hspec. rewrite Hr in Hspec.
  destruct Hspec as (_ & Hpid & Hz & (Hfresh & _ & Hslots & Hpages & _) & _ & Hsaved & (brk & [_ Hb2] & Hov)).
  destruct (drop_spec w' p _ Hsaved) as (Hov' & Hnone & Hslots' & _ & Hpages'); [apply code_at_bytes|]. split; [|split].
  - intros pid' b. rewrite Hov', length_code_at. case_decide as Hin.
    + destruct Hin as [-> Hin]. rewrite lookup_code_at by done. simpl. congruence.
    + rewrite Hov. rewrite decide_False; [done|]. intros [-> Hb]. apply Hin. split; [by symmetry|lia].
  - intros x. destruct (decide (x = as_ptr (pt_slot p))) as [->|Hne]; [by rewrite Hnone, Hfresh|].
    by rewrite Hslots', Hslots.
  - intros pid' x. rewrite Hpages' by by left. apply Hpages.
Qed.

(** C28: unregistering a probe right after its registration undoes it
    completely: the two lists, the point list, the heaps of probes and
    points, the code, the slots and the user pages are what they were, whether
    or not other probes share the address. *)
Theorem register_unregister_restores w0 s mk b pp pr s1 :
  kreachable unit_data w0 s → (∀ ptr, uni_ptr (mk ptr) = ptr) → probe_point b = None →
  points s !! pp = None → probes s !! pr = None →
  register_probe unit_data mk s b pp pr = (s1, Ok pr) →
  ∃ s2, unregister_probe s1 (mk pr) = Ok s2 ∧ manager s2 = manager s ∧ point_list s2 = point_list s ∧
    probes s2 = probes s ∧ points s2 = points s ∧ handles s2 = handles s ∧
    same_code (world s) (world s2) ∧ same_slots (world s) (world s2) ∧ same_pages (world s) (world s2).
Proof.
  intros [C T V]%kreachable_kinv Hmk Hb Hpp Hpr Hreg.
  destruct (register_cases unit_data mk s b pp pr _ _ C T Hb Hpp Hreg)
    as [(w' & e & _ & [=] & _)|(s0 & p & d & o & a & _ & -> & Ha & Hpa & Ho & Hd & Hp & Hpl & Hcase)]; [done|]; subst a.
  destruct Hcase as [[-> _]|(Hnone & Hopp & w' & Hrep & ->)].
  - destruct (t_plist _ T _ _ Hpl) as [l Hl]. exists s. rewrite unregister_pushed by done. by rewrite Hl.
  - change (upd_point_list _ _) with (with_point s w' pp p) in *.
    pose proof (with_point_core s w' pp p C Hpp Hnone) as C1.
    eexists. rewrite unregister_pushed by done. split; [done|].
    rewrite (no_break_without_point s) by done. rewrite Hopp. unfold release_point.
    rewrite decide_False; cycle 1.
    { simpl. intros [(a & x & Hx & ->)%map_Exists_lookup|(ptr & o' & Ho' & Hq)%map_Exists_lookup]; simpl in *.
      - apply lookup_delete_Some in Hx as [Hne Hx]. rewrite lookup_insert_ne in Hx by done.
        destruct (c_plist _ C a pp Hx) as (p' & Hp' & _). congruence.
      - destruct (c_probe _ C ptr o' Ho'). congruence. }
    simpl. rewrite lookup_insert_eq. simpl. rewrite !delete_insert_eq, !delete_id by done. split_and!; try done.
    all: by destruct (replace_drop (world s) w' p _ _ _ Hrep) as (? & ? & ?).
Qed.
End claims.

(** ** The four architectures *)

(** Installing either changes nothing outside the point's code and slot, and
    dropping the point undoes it, or fails and changes nothing. *)
Definition undone_by `{KprobeObs W} {P : Type} `{KprobeOps P}
    (replace_inst : W → Z → Z → option Z → W * res ProbeInstallError P) (drop_point : W → P → W) : Prop :=
  ∀ w symbol_addr offset pid,
    let '(w', r) := replace_inst w symbol_addr offset pid in
    match r with
    | Ok p => (∀ pid' b, ¬ covers p pid' b → code w' pid' b = code w pid' b) ∧
              (∀ q, q ≠ pslot p → slot w' q = slot w q) ∧ same_pages w w' ∧
              same_code w (drop_point w' p) ∧ same_slots w (drop_point w' p) ∧ same_pages w (drop_point w' p)
    | Err _ | Panic => same_code w w' ∧ same_slots w w' ∧ same_pages w w'
    | OutOfFuel => False
    end.

Lemma laws_undone `{BuildMode} {W P} `{KprobeAuxiliaryLaws W} `{KprobeOps P} `{!ProbeArch W P} {HL : ProbeArchLaws W P} :
  undone_by (W := W) (P := P) replace_inst drop_point.
Proof.
  intros w sa off pid. pose proof (replace_spec w sa off pid) as Hspec. destruct (replace_inst w sa off pid) as [w' r] eqn:Hr.
  destruct r as [p|e| |]; [|exact Hspec|exact Hspec|done]. destruct Hspec as (_ & Hpid & _ & (_ & _ & Hslots & Hpages & _) & _ & _ & (brk & [_ Hb] & Hov)).
  split; [|split; [done|split; [done|by eapply replace_drop]]]. intros pid' b Hnc. rewrite Hov. rewrite decide_False; [done|].
  intros [-> Hin]. apply Hnc. split; [by symmetry|lia].
Qed.

(** C18: on RISC-V, AArch64, LoongArch and x86-64, installing a breakpoint
    changes at most the instruction at the probed address and a fresh slot,
    an installation that fails at any check changes nothing, and dropping
    the point puts the original instruction back and frees the slot. *)
Theorem probe_install_restores `{BuildMode} {W I} `{KprobeAuxiliaryLaws W} `{X86DecoderLaws I} :
  undone_by (W := W) Rv64.replace_inst Rv64.drop_point ∧
  undone_by (W := W) AArch64.replace_inst AArch64.drop_point ∧
  undone_by (W := W) LA64.replace_inst LA64.drop_point ∧
  undone_by (W := W) (X86.replace_inst (I := I)) X86.drop_point.
Proof.
  split_and!.
  - exact (laws_undone (W := W) (P := Rv64.Rv64ProbePoint)).
  - exact (laws_undone (W := W) (P := AArch64.AArch64ProbePoint)).
  - exact (laws_undone (W := W) (P := LA64.LA64ProbePoint)).
  - exact (laws_undone (W := W) (P := X86.X86ProbePoint) (HL := X86_laws (I := I))).
Qed.

(** ** Runs on a concrete kernel *)
Module Example_.
#[local] Instance checked : BuildMode := true.

(** [push %rbp] is the one instruction of this decoder. *)
#[export] Instance toy_decoder : X86.X86Decoder Z := {|
  X86.decode_slice buf := match buf with b :: _ => if b =? 0x55 then Some b else None | [] => None end;
  X86.opcode := X86.OtherOpcode; X86.is_jcc _ := false; X86.operand_count _ := 0%nat;
  X86.operand _ _ := X86.OtherOperand; X86.inst_length _ := 1%nat; X86.reg_rip := 1; X86.reg_eip := 2 |}.
#[export] Instance toy_decoder_laws : X86DecoderLaws Z.
Proof. split. intros [|b buf] i; simpl; [done|]. intros _. lia. Qed.

(** [c.li a0, 0; addi a0, a0, 1] at 0x1000. *)
Definition mach : Mach :=
  {| mem := put_bytes ∅ None 0x1000 [0x01; 0x45; 0x13; 0x05; 0x15; 0x00]; slots := ∅; pages := ∅ |}.

(** Handlers note their event in a log. *)
Definition note (x : Z) : ProbeHandler (list Z) Rv64.PtRegs () := λ _ sr, (sr.1 ++ [x], sr.2).
Definition builder (x : Z) : ProbeBuilder (list Z) Rv64.PtRegs () Z :=
  foldl build_step ProbeBuilder_new
    [WithSymbolAddr 0xff0; WithOffset 0x10; WithEnable true; WithPreHandler (note x); WithPostHandler (note (x + 1));
     WithEventCallback 0 (λ sr, (sr.1 ++ [x + 2], sr.2))].
Definition state : Type := Kstate Mach (list Z) Rv64.PtRegs () Rv64.Rv64ProbePoint.
Definition s0 : state := kstart mach.
Definition s1 : state := (register_kprobe () s0 (builder 10) 100 200).1.
Definition s2 : state := (register_kprobe () s1 (builder 20) 101 201).1.
Definition regs (pc : Z) : Rv64.PtRegs :=
  Rv64.Build_PtRegs pc 0 0 0 0 0 0 0 0 0 0 0 0 0 0 0 0 0 0 0 0 0 0 0 0 0 0 0 0 0 0 0 0 0 0 0.

(** A registration by its result alone: the state is not evaluated. *)
Lemma registered_as (s : state) b pp pr n :
  (register_kprobe () s b pp pr).2 = Ok n → register_probe () UKprobe s b pp pr = ((register_kprobe () s b pp pr).1, Ok n).
Proof. unfold register_kprobe. by destruct (register_probe () UKprobe s b pp pr) as [s' r]; simpl; intros ->. Qed.
Lemma uregistered_as (s : state) b pp pr n :
  (register_uprobe () s b pp pr).2 = Ok n → register_probe () UUprobe s b pp pr = ((register_uprobe () s b pp pr).1, Ok n).
Proof.
  unfold register_uprobe. destruct (user_pid b); [|done].
  by destruct (register_probe () UUprobe s b pp pr) as [s' r]; simpl; intros ->.
Qed.

Lemma reach1 : kreachable () mach s1.
Proof.
  apply rtc_once, (step_register () UKprobe s0 (builder 10) 100 200 s1 (Ok 200)); [done|by vm_compute|done|done| |done| |done].
  - apply registered_as. by vm_compute.
  - apply (bool_decide_unpack _). by vm_compute.
Qed.

(** A second probe at the same address shares the point. *)
Lemma reach2 : kreachable () mach s2.
Proof.
  eapply rtc_r; [exact reach1|].
  apply (step_register () UKprobe s1 (builder 20) 101 201 s2 (Ok 201)); [done|by vm_compute|by vm_compute|by vm_compute| |done| |].
  - apply registered_as. by vm_compute.
  - apply (bool_decide_unpack _). by vm_compute.
  - intros q p q' p' Hq Hn _. change (points s2) with (points s1) in Hq. congruence.
Qed.

Definition s3 : state := match unregister_kprobe s2 200 with Ok s => s | _ => s2 end.
Definition s4 : state := match unregister_kprobe s3 201 with Ok s => s | _ => s3 end.
(** An unregistration that succeeds, its state not evaluated. *)
Lemma unregistered_as (s : state) u :
  match unregister_probe s u with Ok _ => true | _ => false end = true →
  unregister_probe s u = Ok (match unregister_probe s u with Ok s' => s' | _ => s end).
Proof. by destruct (unregister_probe s u). Qed.

Lemma reach4 : kreachable () mach s4.
Proof.
  eapply rtc_r; [eapply rtc_r; [exact reach2|]|].
  - apply (step_unregister () s2 (UKprobe 200) s3); [apply (bool_decide_unpack _); by vm_compute|apply unregistered_as; by vm_compute].
  - apply (step_unregister () s3 (UKprobe 201) s4); [apply (bool_decide_unpack _); by vm_compute|apply unregistered_as; by vm_compute].
Qed.

(** Two processes with [c.li a0, 0] at 0x1000, the second also with
    [c.li a0, 1] at 0x2000. *)
Definition user_mach : Mach :=
  {| mem := put_bytes (put_bytes (put_bytes ∅ (Some 1) 0x1000 [0x01; 0x45]) (Some 2) 0x1000 [0x01; 0x45])
       (Some 2) 0x2000 [0x05; 0x45]; slots := ∅; pages := ∅ |}.
Definition uprobe (pid a x : Z) : ProbeBuilder (list Z) Rv64.PtRegs () Z :=
  foldl build_step (builder x) [WithUserMode pid; WithSymbolAddr a; WithOffset 0].

(** A probe in process 1 is registered, hit, and unregistered. *)
Definition hit (s : state) (pc : Z) : state :=
  match uprobe_handler_from_break s ([], regs pc) with Ok (_, (s', _)) => s' | _ => s end.
Definition u1 : state := (register_uprobe () (kstart user_mach) (uprobe 1 0x1000 10) 100 200).1.
Definition u2 : state := hit u1 0x1000.
Definition u5 : state := match unregister_uprobe u2 200 with Ok s => s | _ => u2 end.

Lemma hit_as (s : state) pc :
  match uprobe_handler_from_break s ([], regs pc) with Ok _ => true | _ => false end = true →
  ∃ x sr, uprobe_handler_from_break s ([], regs pc) = Ok (x, (hit s pc, sr)).
Proof. unfold hit. destruct (uprobe_handler_from_break _ _) as [[x [s' sr]]|?| |]; try done. eauto. Qed.

Lemma ureach2 : kreachable () user_mach u2.
Proof.
  eapply rtc_l; [|apply rtc_once].
  - apply (step_register () UUprobe _ (uprobe 1 0x1000 10) 100 200 u1 (Ok 200)); [done|by vm_compute|done|done| |done| |done].
    + apply uregistered_as. by vm_compute.
    + apply (bool_decide_unpack _). by vm_compute.
  - destruct (hit_as u1 0x1000) as (x & sr & Hh); [by vm_compute|].
    apply (step_first_hit () u1 ([], regs 0x1000) x u2 sr Hh); apply (bool_decide_unpack _); by vm_compute.
Qed.
Lemma ureach5 : kreachable () user_mach u5.
Proof.
  eapply rtc_r; [exact ureach2|].
  apply (step_unregister () u2 (UUprobe 200) u5); [apply (bool_decide_unpack _); by vm_compute|apply unregistered_as; by vm_compute].
Qed.
End Example_.
Import Example_.
#[local] Existing Instance Example_.checked.

Lemma kprobe_invariant_witness : kinv mach s2.
Proof. apply (kprobe_invariant () mach s2), reach2. Defined.

Lemma kprobe_restores_code_witness : probes u5 = ∅ ∧ same_code user_mach (world u5) ∧ same_pages user_mach (world u5).
Proof.
  destruct (kprobe_restores_code () user_mach u5) as (Hp & _ & _ & _ & Hc & _ & Hg); [apply ureach5|by vm_compute|by vm_compute|].
  split; [exact Hp|]. split; [exact Hc|exact Hg].
Defined.

Lemma kprobe_hit_cycle_witness :
  kprobe_handler_from_break s2 ([], regs 0x1000) = Ok (Some (), ([10; 20], regs 4096)) ∧
  kprobe_handler_from_debug s2 ([], regs 4098) = Ok (Some (), ([11; 12; 21; 22], regs 0x1002)).
Proof.
  destruct (kprobe_hit_cycle () mach s2 0x1000 [UKprobe 200; UKprobe 201]) as (q & p & d & Hq & Hp & _ & Hd & _ & Hbr & Hdb);
    [apply reach2|by vm_compute|].
  vm_compute in Hq. injection Hq as <-. vm_compute in Hp. injection Hp as <-. vm_compute in Hd. injection Hd as <-. split.
  - rewrite Hbr by done. by vm_compute.
  - rewrite (Hdb _ 0x1002) by (by vm_compute). by vm_compute.
Defined.

Lemma register_unregister_restores_witness :
  ∃ s, unregister_probe s2 (UKprobe 201) = Ok s ∧ same_code (world s1) (world s).
Proof.
  destruct (register_unregister_restores () mach s1 UKprobe (builder 20) 101 201 s2) as (s & Hs & _ & _ & _ & _ & _ & Hc & _);
    [apply reach1|done|done|by vm_compute|by vm_compute|by vm_compute|].
  exists s. split; [exact Hs|exact Hc].
Defined.

Lemma probe_install_restores_witness :
  undone_by (W := Mach) Rv64.replace_inst Rv64.drop_point ∧
  (∃ w p, Rv64.replace_inst mach 0xff0 0x10 None = (w, Ok p)) ∧
  Rv64.replace_inst mach 0xff0 0x20 None ≠ (mach, Panic).
Proof.
  split; [apply (probe_install_restores (W := Mach) (I := Z))|].
  split; [eexists _, _; by vm_compute|]. by vm_compute.
Defined.

(** ** What it does not do *)

(** A caller that keeps a reference: after [unregister_kprobe] the breakpoint
    is still in the code, its trap finds no probe, and the address cannot be
    probed again. *)
Definition kept : state :=
  match unregister_kprobe (upd_handles s1 (200 :: handles s1)) 200 with Ok s => s | _ => s1 end.
Lemma kept_reference_keeps_breakpoint :
  code_at (world kept) None 0x1000 2 = [0x02; 0x90] ∧
  kprobe_handler_from_break kept ([], regs 0x1000) = Ok (None, ([], regs 0x1000)) ∧
  (register_kprobe () kept (builder 20) 101 201).2 = Err UnsupportedInstruction.
Proof. by vm_compute. Qed.

(** Points are found by address alone: a probe of process 2 at the address
    of one of process 1 leaves the code of process 2 alone. *)
Definition user_probes : state :=
  let s := (register_uprobe () (kstart user_mach) (build_step (builder 10) (WithUserMode 1)) 100 200).1 in
  (register_uprobe () s (build_step (builder 20) (WithUserMode 2)) 101 201).1.
Lemma second_process_not_probed :
  code_at (world user_probes) (Some 1) 0x1000 2 = [0x02; 0x90] ∧
  code_at (world user_probes) (Some 2) 0x1000 2 = [0x01; 0x45] ∧
  break_list (manager user_probes) !! 0x1000 = Some [UUprobe 200; UUprobe 201].
Proof. by vm_compute. Qed.

(** The single-step list is kept by address alone.  The user copies of a
    probe of process 1 and of one of process 2 are allocated at the same
    address of their processes; the first hit of the second takes the place
    of the first in the list, and the step of process 1 behind its copy runs
    the handlers of process 2's probe and returns behind that one's
    instruction, at 0x2002 instead of 0x1002. *)
Definition both : state := (register_uprobe () u1 (uprobe 2 0x2000 20) 101 201).1.
Definition first_hit : state := hit both 0x1000.
Definition second_hit : state := hit first_hit 0x2000.
Definition pages_at (s : state) : option Z * option Z := (dynamic_user_ptr <$> points s !! 100, dynamic_user_ptr <$> points s !! 101).
Lemma user_pages_collide :
  pages_at second_hit = (Some 0x3000, Some 0x3000) ∧
  uprobe_handler_from_debug first_hit ([], regs 0x3002) = Ok (Some (), ([11; 12], regs 0x1002)) ∧
  debug_list (manager second_hit) !! 0x3002 = Some [UUprobe 201] ∧
  uprobe_handler_from_debug second_hit ([], regs 0x3002) = Ok (Some (), ([21; 22], regs 0x2002)).
Proof. by vm_compute. Qed.

(** Registration does not look for instruction boundaries: a probe inside a
    probed instruction patches its breakpoint, and what it saves and puts
    back is part of that breakpoint; the code stays corrupted. *)
Definition wide_mach : Mach := {| mem := put_bytes ∅ None 0x1000 [0x13; 0x05; 0x15; 0x00]; slots := ∅; pages := ∅ |}.
Definition inner : ProbeBuilder (list Z) Rv64.PtRegs () Z := build_step (builder 20) (WithOffset 0x12).
Definition overlapping : state :=
  let s := (register_kprobe () (kstart wide_mach) (builder 10) 100 200).1 in (register_kprobe () s inner 101 201).1.
Definition cleared : state :=
  match unregister_kprobe overlapping 200 with
  | Ok s => match unregister_kprobe s 201 with Ok s => s | _ => s end
  | _ => overlapping
  end.
Lemma overlapping_probes_corrupt :
  code_at wide_mach None 0x1000 4 = [0x13; 0x05; 0x15; 0x00] ∧ break_list (manager cleared) = ∅ ∧ probes cleared = ∅ ∧
  code_at (world cleared) None 0x1000 4 = [0x13; 0x05; 0x10; 0x00].
Proof. by vm_compute. Qed.
