(* ===== verification/Retprobe.v ===== *)
(** Return probes (kprobe/src: arch/retprobe.rs, [register_kretprobe] of
    lib.rs, and the [arch_rethook_*] functions of the architectures).

    The task-local stack of instances belongs to the kernel; the memory that
    the x86-64 functions reach through raw pointers is a map of words, and
    an access outside it is [Panic].  A return into a
    trampoline is a call of [arch_rethook_trampoline_callback]; the assembly
    around it is in KprobeTramp.v and RetprobeTramp.v. *)
From S2P Require Import Prelude Text KprobeBase KprobeArch KprobeRv64 KprobeAArch64 KprobeLA64 KprobeX86 Kprobe.

(** ** What the architectures do at entry and return *)
Definition words : Type := gmap Z Z.

(** [rethook_enter] and [rethook_leave] are the parts of
    [arch_rethook_trampoline_callback] before and after its call of
    [rethook_trampoline_handler]; the first argument is the address of the
    trampoline, [ptr] that of the saved registers. *)
Class Rethook (R : Type) := {
  rethook_prepare : Z → words → R → res () (Z * Z * (words * R));
  rethook_enter : ∀ `{BuildMode}, Z → R → Z → res () (R * Z);
  rethook_fixup_return : Z → words → R → Z → words * R;
  rethook_leave : R → R;
}.

Definition Rv64_prepare (trampoline : Z) (m : words) (r : Rv64.PtRegs) : res () (Z * Z * (words * Rv64.PtRegs)) :=
  Ok (Rv64.ra r, Rv64.s0 r, (m, Rv64.set_ra r trampoline)).
Definition Rv64_enter (trampoline : Z) (r : Rv64.PtRegs) (ptr : Z) : res () (Rv64.PtRegs * Z) := Ok (r, Rv64.s0 r).
#[export] Instance Rv64_rethook : Rethook Rv64.PtRegs := {|
  rethook_prepare := Rv64_prepare;
  rethook_enter _ := Rv64_enter;
  rethook_fixup_return ptr m r ret := (m, r);
  rethook_leave r := r;
|}.

Definition AArch64_prepare (trampoline : Z) (m : words) (r : AArch64.PtRegs) : res () (Z * Z * (words * AArch64.PtRegs)) :=
  ret ← unwrap (AArch64.regs r !! 30%nat);
  fp ← unwrap (AArch64.regs r !! 29%nat);
  Ok (ret, fp, (m, AArch64.set_reg r 30 trampoline)).
Definition AArch64_enter (trampoline : Z) (r : AArch64.PtRegs) (ptr : Z) : res () (AArch64.PtRegs * Z) :=
  fp ← unwrap (AArch64.regs r !! 29%nat); Ok (r, fp).
#[export] Instance AArch64_rethook : Rethook AArch64.PtRegs := {|
  rethook_prepare := AArch64_prepare;
  rethook_enter _ := AArch64_enter;
  rethook_fixup_return ptr m r ret := (m, r);
  rethook_leave r := r;
|}.

Definition LA64_prepare (trampoline : Z) (m : words) (r : LA64.PtRegs) : res () (Z * Z * (words * LA64.PtRegs)) :=
  ret ← unwrap (LA64.regs r !! 1%nat);
  Ok (ret, 0, (m, LA64.set_reg r 1 trampoline)).
Definition LA64_enter (trampoline : Z) (r : LA64.PtRegs) (ptr : Z) : res () (LA64.PtRegs * Z) := Ok (r, 0).
#[export] Instance LA64_rethook : Rethook LA64.PtRegs := {|
  rethook_prepare := LA64_prepare;
  rethook_enter _ := LA64_enter;
  rethook_fixup_return ptr m r ret := (m, r);
  rethook_leave r := r;
|}.

(** The registers of x86-64 are 21 words. *)
Definition PT_REGS_SIZE : Z := 21 * 8.
Definition X86_prepare (trampoline : Z) (m : words) (r : X86.PtRegs) : res () (Z * Z * (words * X86.PtRegs)) :=
  let sp := X86.rsp r in
  ret ← unwrap (m !! sp);
  Ok (ret, sp, (<[sp := trampoline]> m, r)).
Definition X86_enter `{BuildMode} (trampoline : Z) (r : X86.PtRegs) (ptr : Z) : res () (X86.PtRegs * Z) :=
  let r := X86.set_orig_rax (X86.update_pc r trampoline) (2 ^ 64 - 1) in
  sp ← arith 64 (X86.rsp r + 16);
  Ok (X86.set_rsp r sp, ptr + PT_REGS_SIZE).
Definition X86_fixup_return (ptr : Z) (m : words) (r : X86.PtRegs) (ret : Z) : words * X86.PtRegs :=
  (<[ptr + PT_REGS_SIZE := ret]> m, r).
#[export] Instance X86_rethook : Rethook X86.PtRegs := {|
  rethook_prepare := X86_prepare;
  rethook_enter _ := X86_enter;
  rethook_fixup_return := X86_fixup_return;
  rethook_leave r := X86.set_ss r (X86.rflags r);
|}.

(** ** Instances, probes and builders *)
Section retprobe.
Context `{BuildMode} {S R U : Type} `{Rethook R}.
Context (unit_user : U) (trampoline : Z).

(** A [Weak] is the address of its referent, or dangling. *)
Record RetprobeInstance := {
  ret_addr : Z;
  frame : Z;
  user_data : option U;
  retprobe : option Z;
}.
Record RetprobeData := { free_instances : list RetprobeInstance; data_retprobe : option Z }.
Record Retprobe := {
  rp_data : Z;                     (* its probe's RetprobeData *)
  nmissed : Z;
  rp_entry_handler : option (ProbeHandler S R U);
  rp_ret_handler : option (ProbeHandler S R U);
  rp_event_callbacks : list (Z * CallBackFunc S R);
}.
Record RetprobeBuilder := {
  rb_symbol : option str;
  rb_enable : bool;
  rb_symbol_addr : Z;
  maxactive : nat;
  rb_data : list U;
  rb_ret_handler : option (ProbeHandler S R U);
  rb_entry_handler : option (ProbeHandler S R U);
  rb_event_callbacks : list (Z * ProbeHandler S R U);
}.

(** The state the handlers act on: the rest of the kernel, the current
    task's stack of instances, memory, and the heaps. *)
Record Rstate := {
  ext : S;
  task : list RetprobeInstance;
  memory : words;
  datas : gmap Z RetprobeData;
  retprobes : gmap Z Retprobe;
}.
Definition upd_ext s x := {| ext := x; task := task s; memory := memory s; datas := datas s; retprobes := retprobes s |}.
Definition upd_task s x := {| ext := ext s; task := x; memory := memory s; datas := datas s; retprobes := retprobes s |}.
Definition upd_memory s x := {| ext := ext s; task := task s; memory := x; datas := datas s; retprobes := retprobes s |}.
Definition upd_data s d x := {| ext := ext s; task := task s; memory := memory s; datas := <[d := x]> (datas s); retprobes := retprobes s |}.
Definition upd_retprobe s q x := {| ext := ext s; task := task s; memory := memory s; datas := datas s; retprobes := <[q := x]> (retprobes s) |}.

(** [F::insert_kretprobe_instance_to_task] and
    [F::pop_kretprobe_instance_from_task]: push and pop. *)
Definition insert_kretprobe_instance_to_task (s : Rstate) (i : RetprobeInstance) : Rstate := upd_task s (i :: task s).
Definition pop_kretprobe_instance_from_task (s : Rstate) : res () (RetprobeInstance * Rstate) :=
  match task s with i :: t => Ok (i, upd_task s t) | [] => Panic end.

(** *** Builders *)
Definition RetprobeBuilder_new (maxactive : nat) : RetprobeBuilder :=
  {| rb_symbol := None; rb_enable := false; rb_symbol_addr := 0; maxactive := maxactive; rb_data := [];
     rb_ret_handler := None; rb_entry_handler := None; rb_event_callbacks := [] |}.

Inductive RetBuilderStep :=
  | RWithEnable (b : bool) | RWithSymbolAddr (a : Z) | RWithSymbol (x : str) | RWithData (d : U)
  | RWithEventCallback (id : Z) (f : ProbeHandler S R U)
  | RWithRetHandler (f : ProbeHandler S R U) | RWithEntryHandler (f : ProbeHandler S R U).
Definition ret_build_step (b : RetprobeBuilder) (s : RetBuilderStep) : RetprobeBuilder :=
  {| rb_symbol := match s with RWithSymbol x => Some x | _ => rb_symbol b end;
     rb_enable := match s with RWithEnable e => e | _ => rb_enable b end;
     rb_symbol_addr := match s with RWithSymbolAddr a => a | _ => rb_symbol_addr b end;
     maxactive := maxactive b;
     rb_data := match s with RWithData d => rb_data b ++ replicate (maxactive b) d | _ => rb_data b end;
     rb_ret_handler := match s with RWithRetHandler f => Some f | _ => rb_ret_handler b end;
     rb_entry_handler := match s with RWithEntryHandler f => Some f | _ => rb_entry_handler b end;
     rb_event_callbacks := match s with RWithEventCallback i f => bt_insert i f (rb_event_callbacks b) | _ => rb_event_callbacks b end |}.

(** [Vec::pop], once per instance. *)
Fixpoint make_instances (n : nat) (data : list U) : list RetprobeInstance :=
  match n with
  | O => []
  | Datatypes.S n => {| ret_addr := 0; frame := 0; user_data := last data; retprobe := None |} :: make_instances n (removelast data)
  end.
Definition RetprobeData_from (b : RetprobeBuilder) : RetprobeData :=
  {| free_instances := make_instances (maxactive b) (rb_data b); data_retprobe := None |}.

(** [Retprobe::new]: the event callbacks start empty. *)
Definition Retprobe_new (d : Z) (entry_handler ret_handler : option (ProbeHandler S R U)) : Retprobe :=
  {| rp_data := d; nmissed := 0; rp_entry_handler := entry_handler; rp_ret_handler := ret_handler;
     rp_event_callbacks := [] |}.
Definition rp_register_event_callback (p : Retprobe) (id : Z) (f : CallBackFunc S R) : Retprobe :=
  {| rp_data := rp_data p; nmissed := nmissed p; rp_entry_handler := rp_entry_handler p;
     rp_ret_handler := rp_ret_handler p; rp_event_callbacks := bt_insert id f (rp_event_callbacks p) |}.
Definition rp_unregister_event_callback (p : Retprobe) (id : Z) : Retprobe :=
  {| rp_data := rp_data p; nmissed := nmissed p; rp_entry_handler := rp_entry_handler p;
     rp_ret_handler := rp_ret_handler p; rp_event_callbacks := bt_remove id (rp_event_callbacks p) |}.

(** *** Handlers *)
Definition call_user (h : option (ProbeHandler S R U)) (d : option U) (s : Rstate) (r : R) : Rstate * R :=
  let '(e, r) := call_handler h (default unit_user d) (ext s, r) in (upd_ext s e, r).

(** [Vec::pop] of the free instances: the last one. *)
Definition pop_free (d : RetprobeData) : option (RetprobeInstance * RetprobeData) :=
  match last (free_instances d) with
  | Some i => Some (i, {| free_instances := removelast (free_instances d); data_retprobe := data_retprobe d |})
  | None => None
  end.

Definition pre_handler_kretprobe (data : Z) (sr : Rstate * R) : res () (Rstate * R) :=
  let '(s, r) := sr in
  d ← unwrap (datas s !! data);
  match pop_free d with
  | Some (instance, d) =>
      let s := upd_data s data d in
      '(ret, fr, (m, r)) ← rethook_prepare trampoline (memory s) r;
      let s := upd_memory s m in
      q ← unwrap (data_retprobe d);
      p ← unwrap (retprobes s !! q);
      let '(s, r) := call_user (rp_entry_handler p) (user_data instance) s r in
      Ok (insert_kretprobe_instance_to_task s
            {| ret_addr := ret; frame := fr; user_data := user_data instance; retprobe := Some q |}, r)
  | None =>
      q ← unwrap (data_retprobe d);
      p ← unwrap (retprobes s !! q);
      Ok (upd_retprobe s q {| rp_data := rp_data p; nmissed := wrapu 64 (nmissed p + 1);
                              rp_entry_handler := rp_entry_handler p; rp_ret_handler := rp_ret_handler p;
                              rp_event_callbacks := rp_event_callbacks p |}, r)
  end.

Definition rethook_trampoline_handler (s : Rstate) (r : R) (ptr fr : Z) : res () (Z * (Rstate * R)) :=
  '(i, s) ← pop_kretprobe_instance_from_task s;
  let correct_ret_addr := ret_addr i in
  if negb (frame i =? fr) then Panic else
  q ← unwrap (retprobe i);
  p ← unwrap (retprobes s !! q);
  let '(s, r) := call_user (rp_ret_handler p) (user_data i) s r in
  let '(e, r) := foldl (λ sr kc, kc.2 sr) (ext s, r) (rp_event_callbacks p) in
  let s := upd_ext s e in
  d ← unwrap (datas s !! rp_data p);
  let s := upd_data s (rp_data p) {| free_instances := free_instances d ++ [i]; data_retprobe := data_retprobe d |} in
  let '(m, r) := rethook_fixup_return ptr (memory s) r correct_ret_addr in
  Ok (correct_ret_addr, (upd_memory s m, r)).

Definition arch_rethook_trampoline_callback (s : Rstate) (r : R) (ptr : Z) : res () (Z * (Rstate * R)) :=
  '(r, fr) ← rethook_enter trampoline r ptr;
  '(ret, (s, r)) ← rethook_trampoline_handler s r ptr fr;
  Ok (ret, (s, rethook_leave r)).

(** *** Registration *)

(** A handler of the probe manager's; a panic is the end of the kernel. *)
Definition as_handler (f : Z → Rstate * R → res () (Rstate * R)) : ProbeHandler Rstate R Z :=
  λ d sr, match f d sr with Ok sr => sr | _ => sr end.

(** [ProbeBuilder::from]: the data is the new [RetprobeData] at [d]. *)
Definition ProbeBuilder_from (d : Z) (b : RetprobeBuilder) : ProbeBuilder Rstate R Z Z :=
  {| symbol := rb_symbol b; symbol_addr := rb_symbol_addr b; offset := 0;
     pre_handler := Some (as_handler pre_handler_kretprobe); post_handler := None; fault_handler := None;
     event_callbacks := []; probe_point := None; enable := rb_enable b; data := Some d; user_pid := None |}.

Context {W P : Type} `{KprobeOps P} `{ProbeArch W P}.

Definition register_kretprobe (ks : Kstate W Rstate R Z P) (s : Rstate) (b : RetprobeBuilder) (ppoint pprobe d : Z) :
    Kstate W Rstate R Z P * Rstate * res ProbeInstallError Z :=
  let '(ks, r) := register_probe 0 UKretprobe ks (ProbeBuilder_from d b) ppoint pprobe in
  match r with
  | Ok q =>
      let s := upd_data s d {| free_instances := free_instances (RetprobeData_from b); data_retprobe := Some q |} in
      (ks, upd_retprobe s q (Retprobe_new d (rb_entry_handler b) (rb_ret_handler b)), Ok q)
  | r => (ks, s, r)
  end.

(** [unregister_kretprobe]; with its last reference the probe goes, and with
    it its data. *)
Definition unregister_kretprobe (ks : Kstate W Rstate R Z P) (s : Rstate) (q : Z) :
    res () (Kstate W Rstate R Z P * Rstate) :=
  ks ← unregister_probe ks (UKretprobe q);
  Ok (ks, match probes ks !! q, retprobes s !! q with
          | None, Some p => {| ext := ext s; task := task s; memory := memory s;
                               datas := delete (rp_data p) (datas s); retprobes := delete q (retprobes s) |}
          | _, _ => s
          end).
End retprobe.
Arguments RetprobeInstance : clear implicits.
Arguments RetprobeData : clear implicits.
Arguments Retprobe : clear implicits.
Arguments RetprobeBuilder : clear implicits.
Arguments Rstate : clear implicits.
