(* ===== verification/RetprobeProps.v ===== *)
(** Return probes: every call returns to its caller, and the pools of
    instances are whole again when the calls are over. *)
From S2P Require Import Prelude Text KprobeBase KprobeArch KprobeRv64 KprobeAArch64 KprobeLA64 KprobeX86 Kprobe Retprobe.

(** ** What the architectures promise *)

(** [caller]: where the function entered with these registers returns to;
    [frame_of]: the value that names its activation. *)
Class RethookLaws (R : Type) `{Rethook R} := {
  caller : words → R → option Z;
  frame_of : R → option Z;
  prepare_law t m r a f : caller m r = Some a → frame_of r = Some f →
    ∃ m' r', rethook_prepare t m r = Ok (a, f, (m', r')) ∧ caller m' r' = Some t;
}.

#[export] Instance Rv64_rethook_laws : RethookLaws Rv64.PtRegs.
Proof. refine {| caller m r := Some (Rv64.ra r); frame_of r := Some (Rv64.s0 r) |}. intros t m r a f [= <-] [= <-]. by eexists _, _. Defined.
#[export] Instance AArch64_rethook_laws : RethookLaws AArch64.PtRegs.
Proof.
  refine {| caller m r := AArch64.regs r !! 30%nat; frame_of r := AArch64.regs r !! 29%nat |}.
  intros t m r a f Ha Hf. simpl. unfold AArch64_prepare. rewrite Ha, Hf. eexists _, _. split; [done|].
  simpl. apply list_lookup_insert_eq. by eapply lookup_lt_Some.
Defined.
#[export] Instance LA64_rethook_laws : RethookLaws LA64.PtRegs.
Proof.
  refine {| caller m r := LA64.regs r !! 1%nat; frame_of r := Some 0 |}.
  intros t m r a f Ha [= <-]. simpl. unfold LA64_prepare. rewrite Ha. eexists _, _. split; [done|].
  simpl. apply list_lookup_insert_eq. by eapply lookup_lt_Some.
Defined.
#[export] Instance X86_rethook_laws : RethookLaws X86.PtRegs.
Proof.
  refine {| caller m r := m !! X86.rsp r; frame_of r := Some (X86.rsp r) |}.
  intros t m r a f Ha [= <-]. simpl. unfold X86_prepare. rewrite Ha. eexists _, _. split; [done|]. apply lookup_insert_eq.
Defined.

Section calls.
Context `{BuildMode} {S R U : Type} `{RethookLaws R} (unit_user : U) (trampoline : Z).
Implicit Types (s : Rstate S R U) (r : R).

(** ** Programs of nested calls *)

(** The calls that one task makes, in order: of the function probed with
    [data], entered with [rin] and memory [min], making [body] and returning
    with [rout] and memory [mout]; the registers are saved at [ptr]. *)
Inductive calls :=
  | Done
  | Call (data : Z) (min : words) (rin : R) (body : calls) (mout : words) (rout : R) (ptr : Z) (rest : calls).

Definition pool_empty s (data : Z) : bool :=
  match datas s !! data with Some d => match free_instances d with [] => true | _ => false end | None => false end.

(** The log pairs, for each call that was hooked, the address it had to
    return to and the one the trampoline returned to.  A call that found no
    free instance returns by itself. *)
Fixpoint run_calls (cs : calls) s : res () (Rstate S R U * list (option Z * Z)) :=
  match cs with
  | Done => Ok (s, [])
  | Call data min rin body mout rout ptr rest =>
      '(s1, _) ← pre_handler_kretprobe unit_user trampoline data (upd_memory s min, rin);
      '(s2, log1) ← run_calls body s1;
      '(s3, log2) ← (if pool_empty s data then Ok (s2, [])
                     else '(ret, (s3, _)) ← arch_rethook_trampoline_callback unit_user trampoline (upd_memory s2 mout) rout ptr;
                          Ok (s3, [(caller min rin, ret)]));
      '(s4, log3) ← run_calls rest s3;
      Ok (s4, log1 ++ log2 ++ log3)
  end.

(** A call has a return address, and leaves with the frame it entered with. *)
Fixpoint calls_ok (ds : gset Z) (cs : calls) : Prop :=
  match cs with
  | Done => True
  | Call data min rin body mout rout ptr rest =>
      data ∈ ds ∧ is_Some (caller min rin) ∧
      (∃ f r', frame_of rin = Some f ∧ rethook_enter trampoline rout ptr = Ok (r', f)) ∧
      calls_ok ds body ∧ calls_ok ds rest
  end.

(** Every pool belongs to a live probe. *)
Definition pools_ok s : Prop := ∀ data d, datas s !! data = Some d →
  ∃ q p, data_retprobe d = Some q ∧ retprobes s !! q = Some p ∧ rp_data p = data.

(** What a pool holds, up to the addresses left in its instances. *)
Definition pool s (data : Z) : option (list (option U)) := fmap user_data ∘ free_instances <$> datas s !! data.

(** The pool of each live probe. *)
Definition owner s (q : Z) : option Z := rp_data <$> retprobes s !! q.

Lemma pool_empty_pool s s' data : pool s data = pool s' data → pool_empty s data = pool_empty s' data.
Proof.
  unfold pool, pool_empty. destruct (datas s !! data) as [d|], (datas s' !! data) as [d'|]; try done.
  intros [= E]. by destruct (free_instances d), (free_instances d').
Qed.

Lemma dom_pool s s' : (∀ data, pool s data = pool s' data) → dom (datas s) = dom (datas s').
Proof.
  intros E. apply set_eq. intros data. rewrite !elem_of_dom. specialize (E data). unfold pool in E.
  split; intros [d Hd]; rewrite Hd in E; [symmetry in E|]; apply fmap_Some in E as (x & -> & _); eauto.
Qed.

Lemma call_user_spec h d s r : ∃ e r', call_user unit_user h d s r = (upd_ext s e, r').
Proof. unfold call_user. destruct (call_handler _ _ _) as [e r']. eauto. Qed.

(** ** Entering *)
Lemma last_removelast {A} (l : list A) : l = [] ∨ ∃ x, last l = Some x ∧ l = removelast l ++ [x].
Proof.
  destruct l as [|y l] using rev_ind; [by left|right]. exists y. by rewrite last_snoc, removelast_last.
Qed.

Lemma enter_missed s m r data d :
  pools_ok s → datas s !! data = Some d → free_instances d = [] →
  ∃ s', pre_handler_kretprobe unit_user trampoline data (upd_memory s m, r) = Ok (s', r) ∧
    pools_ok s' ∧ task s' = task s ∧ (∀ data', pool s' data' = pool s data') ∧ (∀ q, owner s' q = owner s q).
Proof.
  intros Hok Hd Hf. destruct (Hok data d Hd) as (q & p & Hq & Hp & Hpd). unfold pre_handler_kretprobe.
  cbn [datas upd_memory]. rewrite Hd. cbn [unwrap mbind res_bind]. unfold pop_free. rewrite Hf. cbn [last].
  rewrite Hq. cbn [unwrap mbind res_bind]. cbn [retprobes upd_memory]. rewrite Hp. cbn [unwrap mbind res_bind].
  eexists. split; [done|]. split_and!; try done.
  - intros data' d' Hd'. destruct (Hok data' d' Hd') as (q' & p' & Hq' & Hp' & Hpd').
    exists q'. simpl. destruct (decide (q' = q)) as [->|Hne]; [|exists p'; by rewrite lookup_insert_ne].
    eexists. rewrite lookup_insert_eq. split_and!; [done|done|]. simpl. congruence.
  - intros q'. unfold owner. simpl. destruct (decide (q' = q)) as [->|Hne]; [by rewrite lookup_insert_eq, Hp|by rewrite lookup_insert_ne].
Qed.

Lemma enter_hooked s m r data d a f :
  pools_ok s → datas s !! data = Some d → free_instances d ≠ [] → caller m r = Some a → frame_of r = Some f →
  ∃ s' r' i l q, pre_handler_kretprobe unit_user trampoline data (upd_memory s m, r) = Ok (s', r') ∧
    pools_ok s' ∧ task s' = i :: task s ∧ ret_addr i = a ∧ frame i = f ∧ retprobe i = Some q ∧
    owner s' q = Some data ∧ (∀ q', owner s' q' = owner s q') ∧
    pool s data = Some (l ++ [user_data i]) ∧ pool s' data = Some l ∧ (∀ data', data' ≠ data → pool s' data' = pool s data').
Proof.
  intros Hok Hd Hf Ha Hfr. destruct (Hok data d Hd) as (q & p & Hq & Hp & Hpd).
  destruct (last_removelast (free_instances d)) as [?|(i & Hl & Hsplit)]; [done|].
  destruct (prepare_law trampoline m r a f Ha Hfr) as (m' & r' & Hprep & _).
  unfold pre_handler_kretprobe. cbn [datas upd_memory]. rewrite Hd. cbn [unwrap mbind res_bind]. unfold pop_free. rewrite Hl.
  cbn [memory upd_data upd_memory]. rewrite Hprep. cbn [mbind res_bind]. cbn [data_retprobe]. rewrite Hq.
  cbn [unwrap mbind res_bind]. cbn [retprobes upd_memory upd_data]. rewrite Hp. cbn [unwrap mbind res_bind].
  set (d' := {| free_instances := removelast (free_instances d); data_retprobe := Some q |}).
  match goal with |- context [call_user _ _ _ ?s0 _] => set (s1 := s0) end.
  destruct (call_user_spec (rp_entry_handler p) (user_data i) s1 r') as (e & r2 & ->).
  eexists _, r2, _, (user_data <$> removelast (free_instances d)), q. split; [reflexivity|]. split_and!; try done.
  - intros data' d2 Hd2. simpl in Hd2. apply lookup_insert_Some in Hd2 as [(<- & <-)|(Hne & Hd2)]; [by exists q, p|]. by apply Hok.
  - unfold owner. simpl. by rewrite Hp, <- Hpd.
  - unfold pool. rewrite Hd. simpl. by rewrite Hsplit at 1; rewrite fmap_app.
  - unfold pool. simpl. by rewrite lookup_insert_eq.
  - intros data' Hne. unfold pool. simpl. by rewrite lookup_insert_ne.
Qed.

(** ** Returning *)
Lemma leave_spec s m r ptr i t data q f r' l :
  pools_ok s → task s = i :: t → frame i = f → rethook_enter trampoline r ptr = Ok (r', f) →
  retprobe i = Some q → owner s q = Some data → pool s data = Some l →
  ∃ s' r'', arch_rethook_trampoline_callback unit_user trampoline (upd_memory s m) r ptr = Ok (ret_addr i, (s', r'')) ∧
    pools_ok s' ∧ task s' = t ∧ (∀ q, owner s' q = owner s q) ∧ pool s' data = Some (l ++ [user_data i]) ∧
    (∀ data', data' ≠ data → pool s' data' = pool s data').
Proof.
  intros Hok Ht Hf Hent Hq Hown Hl. apply fmap_Some in Hown as (p & Hp & ->).
  unfold pool in Hl. destruct (datas s !! rp_data p) as [d|] eqn:Hd; [|done]. injection Hl as <-.
  unfold arch_rethook_trampoline_callback. rewrite Hent. cbn [mbind res_bind]. unfold rethook_trampoline_handler, pop_kretprobe_instance_from_task.
  cbn [task upd_memory]. rewrite Ht. cbn [mbind res_bind]. rewrite Hf, Z.eqb_refl. cbn [negb]. rewrite Hq.
  cbn [unwrap mbind res_bind]. cbn [retprobes upd_task upd_memory]. rewrite Hp. cbn [unwrap mbind res_bind].
  match goal with |- context [call_user _ _ _ ?s0 _] => set (s1 := s0) end.
  destruct (call_user_spec (rp_ret_handler p) (user_data i) s1 r') as (e & r2 & ->).
  destruct (foldl _ _ _) as [e' r3]. cbn [datas upd_ext]. change (datas s1) with (datas s). rewrite Hd.
  cbn [unwrap mbind res_bind]. destruct (rethook_fixup_return _ _ _ _) as [m' r4]. eexists _, _. split; [reflexivity|].
  split_and!; try done.
  - intros data' d2 Hd2. simpl in Hd2. apply lookup_insert_Some in Hd2 as [(<- & <-)|(Hne & Hd2)]; [by apply (Hok _ d)|]. by apply Hok.
  - unfold pool. simpl. rewrite lookup_insert_eq. simpl. by rewrite fmap_app.
  - intros data' Hne. unfold pool. simpl. by rewrite lookup_insert_ne.
Qed.

(** ** Whole programs *)

(** Nothing has changed but what handlers and memory hold. *)
Definition settled s s' : Prop :=
  pools_ok s' ∧ task s' = task s ∧ (∀ data, pool s' data = pool s data) ∧ (∀ q, owner s' q = owner s q).

Lemma settled_trans s1 s2 s3 : settled s1 s2 → settled s2 s3 → settled s1 s3.
Proof.
  intros (_ & Ht1 & Hp1 & Ho1) (Hok & Ht2 & Hp2 & Ho2). split_and!; [done|congruence| |]; intros x; [by rewrite Hp2|by rewrite Ho2].
Qed.

Lemma dom_pool_is_Some s s' :
  (∀ data, is_Some (pool s data) ↔ is_Some (pool s' data)) → dom (datas s) = dom (datas s').
Proof.
  intros E. apply set_eq. intros data. rewrite !elem_of_dom. specialize (E data). unfold pool in E.
  by rewrite !fmap_is_Some in E.
Qed.

(** One call, given what its body does. *)
Lemma one_call s data min rin mout rout ptr a f r' (body : Rstate S R U → res () (Rstate S R U * list (option Z * Z))) :
  pools_ok s → data ∈ dom (datas s) → caller min rin = Some a → frame_of rin = Some f →
  rethook_enter trampoline rout ptr = Ok (r', f) →
  (∀ s1, pools_ok s1 → dom (datas s1) = dom (datas s) →
    ∃ s2 log, body s1 = Ok (s2, log) ∧ settled s1 s2 ∧ Forall (λ ea, ea.1 = Some ea.2) log) →
  ∃ s1 r1 s2 log1 s3 log2,
    pre_handler_kretprobe unit_user trampoline data (upd_memory s min, rin) = Ok (s1, r1) ∧
    body s1 = Ok (s2, log1) ∧
    (if pool_empty s data then Ok (s2, [])
     else '(ret, (s3, _)) ← arch_rethook_trampoline_callback unit_user trampoline (upd_memory s2 mout) rout ptr;
          Ok (s3, [(caller min rin, ret)])) = Ok (s3, log2) ∧
    settled s s3 ∧ Forall (λ ea, ea.1 = Some ea.2) (log1 ++ log2).
Proof.
  intros Hok [d Hd]%elem_of_dom Ha Hf Hent Hbody. unfold pool_empty. rewrite Hd.
  destruct (free_instances d) as [|i0 l0] eqn:Hfree.
  - destruct (enter_missed s min rin data d Hok Hd Hfree) as (s1 & Hpre & Hok1 & Ht1 & Hp1 & Ho1).
    destruct (Hbody s1 Hok1) as (s2 & log1 & Hrun & (Hok2 & Ht2 & Hp2 & Ho2) & Hlog1); [by apply dom_pool|].
    exists s1, rin, s2, log1, s2, []. rewrite app_nil_r. split_and!; try done.
    split_and!; [done|congruence| |]; intros x; [by rewrite Hp2|by rewrite Ho2].
  - destruct (enter_hooked s min rin data d a f Hok Hd ltac:(by rewrite Hfree) Ha Hf)
      as (s1 & r1 & i & l & q & Hpre & Hok1 & Ht1 & Hra & Hfi & Hqi & Hown & Ho1 & Hpool & Hpool1 & Hother).
    destruct (Hbody s1 Hok1) as (s2 & log1 & Hrun & (Hok2 & Ht2 & Hp2 & Ho2) & Hlog1).
    { apply dom_pool_is_Some. intros data'. destruct (decide (data' = data)) as [->|Hne]; [rewrite Hpool, Hpool1; split; eauto|by rewrite Hother]. }
    destruct (leave_spec s2 mout rout ptr i (task s) data q f r' l) as (s3 & r3 & Hret & Hok3 & Ht3 & Ho3 & Hp3 & Hother3);
      [done|congruence|done|done|done|by rewrite Ho2|by rewrite Hp2|].
    exists s1, r1, s2, log1, s3, [(caller min rin, ret_addr i)]. rewrite Hret. cbn [mbind res_bind].
    split_and!; [done|done|done| |apply Forall_app; split; [done|constructor; [simpl; congruence|constructor]]].
    split_and!; [done|done| |intros x; by rewrite Ho3, Ho2].
    intros data'. destruct (decide (data' = data)) as [->|Hne]; [congruence|]. by rewrite Hother3, Hp2, Hother.
Qed.

Lemma run_calls_settles cs s :
  pools_ok s → calls_ok (dom (datas s)) cs →
  ∃ s' log, run_calls cs s = Ok (s', log) ∧ settled s s' ∧ Forall (λ ea, ea.1 = Some ea.2) log.
Proof.
  revert s. induction cs as [|data min rin body IHb mout rout ptr rest IHr]; intros s Hok Hcs.
  { exists s, []. by split_and!. }
  destruct Hcs as (Hdata & [a Ha] & (f & r' & Hf & Hent) & Hbody & Hrest).
  destruct (one_call s data min rin mout rout ptr a f r' (run_calls body) Hok Hdata Ha Hf Hent)
    as (s1 & r1 & s2 & log1 & s3 & log2 & Hpre & Hb & Hret & Hset & Hlog).
  { intros s1 Hok1 Hdom. apply IHb; [done|by rewrite Hdom]. }
  destruct (IHr s3) as (s4 & log3 & Hr & Hset' & Hlog3); [apply Hset| |].
  { rewrite (dom_pool s3 s); [done|]. apply Hset. }
  exists s4, (log1 ++ log2 ++ log3). cbn [run_calls]. rewrite Hpre. cbn [mbind res_bind]. rewrite Hb. cbn [mbind res_bind].
  rewrite Hret. cbn [mbind res_bind]. rewrite Hr. cbn [mbind res_bind]. split_and!; [done|by eapply settled_trans|].
  rewrite app_assoc. by apply Forall_app.
Qed.
End calls.
