(* ===== verification/RetprobeClaims.v ===== *)
(** What return probes guarantee. *)
From S2P Require Import Prelude Text KprobeBase KprobeArch KprobeRv64 KprobeAArch64 KprobeLA64 KprobeX86 Kprobe KprobeMach Retprobe RetprobeProps.

Section claims.
Context `{BuildMode} {S R U : Type} `{RethookLaws R} (unit_user : U) (trampoline : Z).
Implicit Types (s : Rstate S R U) (r : R).

(** C8: while return probes stay registered, whatever calls a task makes of
    the functions under them, nested and repeated in any way, every call
    returns: no handler panics, each trampoline sends its call to the address
    that call was to return to, and when the calls are over the task's stack
    of instances and every pool are what they were, so no instance is lost.

    No probe is registered or unregistered while the calls run: the return of
    a call in flight whose probe was unregistered panics
    ([return_after_unregister_panics]).  Every pool belongs to a registered
    probe ([pools_ok]); every call has a return address and leaves with the
    frame it entered with ([calls_ok]); the calls are those of one task. *)
Theorem kretprobe_calls_return s cs :
  pools_ok s → calls_ok trampoline (dom (datas s)) cs →
  ∃ s' log, run_calls unit_user trampoline cs s = Ok (s', log) ∧
    task s' = task s ∧ (∀ data, pool s' data = pool s data) ∧
    (∀ expected actual, (expected, actual) ∈ log → expected = Some actual).
Proof.
  intros Hok Hcs. destruct (run_calls_settles unit_user trampoline cs s Hok Hcs) as (s' & log & Hr & (_ & Ht & Hp & _) & Hl).
  exists s', log. split_and!; try done. intros x y Hxy. by apply (proj1 (Forall_forall _ _) Hl (x, y) Hxy).
Qed.

(** ** Registration *)
Lemma make_instances_data n (data : list U) :
  user_data <$> make_instances n data = take n ((Some <$> reverse data) ++ replicate n None).
Proof.
  revert data. induction n as [|n IH]; intros data; [done|]. simpl. rewrite IH.
  destruct data as [|x data _] using rev_ind.
  - simpl. rewrite ?reverse_nil. simpl. by rewrite ?take_replicate, ?Nat.min_id, ?Nat.min_l by lia.
  - rewrite last_snoc, removelast_last, reverse_snoc. simpl. f_equal.
    change (None :: replicate n None) with (replicate (Datatypes.S n) (@None U)).
    rewrite !take_app, !take_replicate.
    change (list_fmap U (option U) Some (reverse data)) with (Some <$> reverse data). f_equal. f_equal. lia.
Qed.

Context {W P : Type} `{KprobeOps P} `{!ProbeArch W P}.

Lemma register_probe_ok {S' R' D'} (unit_data : D') mk (ks ks' : Kstate W S' R' D' P) b pp pr q :
  register_probe unit_data mk ks b pp pr = (ks', Ok q) → q = pr.
Proof.
  unfold register_probe. destruct (__register_kprobe _ _ _ _) as [ks1 [k|e| |]]; try done.
  destruct (_ ≫= _); by intros [= _ <-].
Qed.

(** Registering a return probe makes a pool of [maxactive] instances, the
    data of the builder in them from the last to the first, for a new probe
    whose missed-call count is zero; a registration that fails leaves all
    pools and return probes as they are. *)
Theorem register_kretprobe_pool (ks ks' : Kstate W (Rstate S R U) R Z P) s s' b pp pr d res :
  pools_ok s → datas s !! d = None → retprobes s !! pr = None →
  register_kretprobe unit_user trampoline ks s b pp pr d = (ks', s', res) →
  pools_ok s' ∧ task s' = task s ∧
  match res with
  | Ok q => q = pr ∧ pool s' d = Some (take (maxactive b) ((Some <$> reverse (rb_data b)) ++ replicate (maxactive b) None)) ∧
            (∃ p, retprobes s' !! q = Some p ∧ nmissed p = 0 ∧ rp_data p = d) ∧ (∀ d', d' ≠ d → pool s' d' = pool s d')
  | _ => s' = s
  end.
Proof.
  intros Hok Hd Hpr Hreg. unfold register_kretprobe in Hreg.
  destruct (register_probe _ _ _ _ _ _) as [ks1 r] eqn:Hr. destruct r as [q|e| |]; simplify_eq; [|done..].
  apply register_probe_ok in Hr as ->. split_and!; try done.
  - intros d' x Hx. simpl in Hx. apply lookup_insert_Some in Hx as [(<- & <-)|(Hne & Hx)].
    + exists pr. eexists. simpl. by rewrite lookup_insert_eq.
    + destruct (Hok d' x Hx) as (q & p & Hq & Hp & Hpd). exists q, p. simpl. rewrite lookup_insert_ne by congruence. done.
  - unfold pool. simpl. rewrite lookup_insert_eq. simpl. f_equal. apply make_instances_data.
  - eexists. simpl. rewrite lookup_insert_eq. by split_and!.
  - intros d' Hne. unfold pool. simpl. by rewrite lookup_insert_ne.
Qed.

(** ** What it does not do *)

(** The event callbacks given to the builder are forgotten. *)
Lemma builder_callbacks_forgotten (ks ks' : Kstate W (Rstate S R U) R Z P) s s' b pp pr d q p :
  register_kretprobe unit_user trampoline ks s b pp pr d = (ks', s', Ok q) → retprobes s' !! q = Some p →
  rp_event_callbacks p = [].
Proof.
  unfold register_kretprobe. destruct (register_probe _ _ _ _ _ _) as [ks1 r]. destruct r; intros [= <- <- <-].
  simpl. rewrite lookup_insert_eq. by intros [= <-].
Qed.

(** The return of a call that was in flight when its probe went away
    panics. *)
Lemma return_after_unregister_panics s r ptr i t r' q :
  task s = i :: t → rethook_enter trampoline r ptr = Ok (r', frame i) → retprobe i = Some q → retprobes s !! q = None →
  arch_rethook_trampoline_callback unit_user trampoline s r ptr = Panic.
Proof.
  intros Ht Hent Hq Hnone. unfold arch_rethook_trampoline_callback. rewrite Hent. cbn [mbind res_bind].
  unfold rethook_trampoline_handler, pop_kretprobe_instance_from_task. rewrite Ht. cbn [mbind res_bind].
  rewrite Z.eqb_refl. cbn [negb]. rewrite Hq. cbn [unwrap mbind res_bind]. simpl. by rewrite Hnone.
Qed.
End claims.

(** ** A run *)
Module RetExample.
#[export] Instance checked : BuildMode := true.
Definition builder : RetprobeBuilder (list Z) Rv64.PtRegs Z :=
  foldl ret_build_step (RetprobeBuilder_new 1)
    [RWithEnable true; RWithSymbolAddr 0x1000; RWithData 7;
     RWithEntryHandler (λ d sr, (sr.1 ++ [d], sr.2)); RWithRetHandler (λ d sr, (sr.1 ++ [- d], sr.2))].
Definition start : Rstate (list Z) Rv64.PtRegs Z :=
  {| ext := []; task := []; memory := ∅; datas := ∅; retprobes := ∅ |}.
Definition mach : Mach :=
  {| mem := put_bytes ∅ None 0x1000 [0x01; 0x45; 0x13; 0x05; 0x15; 0x00]; slots := ∅; pages := ∅ |}.
Definition kstate : Kstate Mach (Rstate (list Z) Rv64.PtRegs Z) Rv64.PtRegs Z Rv64.Rv64ProbePoint :=
  {| world := mach; points := ∅; probes := ∅; handles := []; point_list := ∅; manager := ProbeManager_new |}.
Definition registered := register_kretprobe 0 0xfff0 kstate start builder 100 200 300.
Definition after : Rstate (list Z) Rv64.PtRegs Z := registered.1.2.
(** Called from [ra], with frame pointer [fp]. *)
Definition regs (ra fp : Z) : Rv64.PtRegs :=
  Rv64.Build_PtRegs 0x1000 ra 0 0 0 0 0 0 fp 0 0 0 0 0 0 0 0 0 0 0 0 0 0 0 0 0 0 0 0 0 0 0 0 0 0 0.
(** Two calls, the first with a recursive call that finds the pool empty. *)
Definition program : calls (R := Rv64.PtRegs) :=
  Call 300 ∅ (regs 0x2000 1) (Call 300 ∅ (regs 0x1004 2) Done ∅ (regs 0 2) 0 Done) ∅ (regs 0 1) 0
    (Call 300 ∅ (regs 0x3000 3) Done ∅ (regs 0 3) 0 Done).
Lemma start_ok : pools_ok start.
Proof. intros d x. simpl. by rewrite lookup_empty. Qed.
Lemma triple {A B C} (x : A * B * C) : x = (x.1.1, x.1.2, x.2).
Proof. by destruct x as [[]]. Qed.
End RetExample.
Import RetExample.

Lemma register_kretprobe_pool_witness : pools_ok after ∧ pool after 300 = Some [Some 7].
Proof.
  pose proof (register_kretprobe_pool 0 0xfff0 kstate registered.1.1 start after builder 100 200 300 registered.2
    start_ok eq_refl eq_refl (triple registered)) as (Hok & _ & Hres).
  split; [exact Hok|]. assert (registered.2 = Ok 200) as E by (by vm_compute). rewrite E in Hres. apply Hres.
Defined.

Lemma kretprobe_calls_return_witness :
  ∃ s' log, run_calls 0 0xfff0 program after = Ok (s', log) ∧ ext s' = [7; -7; 7; -7] ∧
    log = [(Some 0x2000, 0x2000); (Some 0x3000, 0x3000)] ∧ task s' = [] ∧ pool s' 300 = Some [Some 7].
Proof.
  destruct (kretprobe_calls_return 0 0xfff0 after program) as (s' & log & Hr & Ht & Hp & _).
  - intros d x Hx.
    assert (datas after = <[300 := {| free_instances := make_instances 1 [7]; data_retprobe := Some 200 |}]> ∅) as E by (by vm_compute).
    rewrite E in Hx. clear E. apply lookup_insert_Some in Hx as [(<- & <-)|(_ & Hx)]; [|by rewrite lookup_empty in Hx].
    eexists 200, _. by split_and!.
  - assert (300 ∈ dom (datas after)) as Hd by (apply elem_of_dom; eexists; by vm_compute).
    simpl. split_and!; try done; eauto; eexists _, _; by split.
  - exists s', log. split; [exact Hr|]. rewrite Ht, Hp. vm_compute in Hr. injection Hr as <- <-. by split_and!.
Defined.
