(* ===== verification/KprobeTramp.v ===== *)
(** The return trampolines: the naked functions [arch_rethook_trampoline] of
    kprobe/src/arch/{rv64,aarch64,loongarch64,x86}/mod.rs, as programs of a
    machine with the instructions they use.

    Memory is a map from addresses to 64-bit words; all accesses of the
    trampolines are eight bytes apart.  The instruction that calls
    [arch_rethook_trampoline_callback] and everything up to its return is
    one step of the machine, [callee]; [None] is a panic. *)
From S2P Require Import Prelude.

(** ** The machine *)
Record mstate := { rf : nat → Z; mm : Z → Z }.
Definition set_rf (s : mstate) (r : nat) (x : Z) : mstate :=
  {| rf := λ r', if decide (r' = r) then x else rf s r'; mm := mm s |}.
Definition set_mm (s : mstate) (a x : Z) : mstate :=
  {| rf := rf s; mm := λ a', if decide (a' = a) then x else mm s a' |}.

(** The stack pointer, the zero register and the flags, beside the general
    registers of the architecture. *)
Definition SP : nat := 32.
Definition XZR : nat := 33.
Definition FLAGS : nat := 34.       (* NZCV, RFLAGS *)
Definition DAIF : nat := 35.
Definition CurrentEL : nat := 36.
Definition SPSel : nat := 37.
Definition rd (s : mstate) (r : nat) : Z := if decide (r = XZR) then 0 else rf s r.

Inductive op :=
  | Store (r : nat) (off : Z)            (* sd, st.d: to sp + off *)
  | StorePair (r r' : nat) (off : Z)     (* stp *)
  | Load (r : nat) (off : Z)             (* ld, ld.d, ldr *)
  | LoadPair (r r' : nat) (off : Z)      (* ldp *)
  | AddI (r r' : nat) (imm : Z)          (* addi, addi.d, add, sub: r := r' + imm *)
  | Mv (r r' : nat)                      (* mv, move, mov, movq, mrs, msr *)
  | Orr (r r' r'' : nat)
  | AndI (r r' : nat) (imm : Z)
  | PushI (imm : Z)
  | Push (r : nat)                       (* pushq, pushfq *)
  | Pop (r : nat)                        (* popq, popfq *)
  | AddSP (imm : Z).                     (* addq and subq on rsp, which set the flags *)

Inductive insn :=
  | Op (o : op)
  | Call                                 (* the callback *)
  | Jump (r : nat)                       (* ret, jr *)
  | RetPop.                              (* ret of x86-64 *)
Coercion Op : op >-> insn.

Definition at_sp (s : mstate) (off : Z) : Z := wrapu 64 (rf s SP + off).
Definition push (s : mstate) (x : Z) : mstate := set_rf (set_mm s (at_sp s (-8)) x) SP (at_sp s (-8)).

Section machine.
(** The flags an addition leaves. *)
Context (flags_of : Z → Z → Z).

Definition step (s : mstate) (o : op) : mstate :=
  match o with
  | Store r off => set_mm s (at_sp s off) (rd s r)
  | StorePair r r' off => set_mm (set_mm s (at_sp s off) (rd s r)) (at_sp s (off + 8)) (rd s r')
  | Load r off => set_rf s r (mm s (at_sp s off))
  | LoadPair r r' off => set_rf (set_rf s r (mm s (at_sp s off))) r' (mm s (at_sp s (off + 8)))
  | AddI r r' imm => set_rf s r (wrapu 64 (rf s r' + imm))
  | Mv r r' => set_rf s r (rd s r')
  | Orr r r' r'' => set_rf s r (Z.lor (rf s r') (rf s r''))
  | AndI r r' imm => set_rf s r (Z.land (rf s r') imm)
  | PushI imm => push s imm
  | Push r => push s (rf s r)
  | Pop r => set_rf (set_rf s SP (at_sp s 8)) r (mm s (rf s SP))
  | AddSP imm => set_rf (set_rf s FLAGS (flags_of (rf s SP) imm)) SP (at_sp s imm)
  end.
Definition run (p : list op) (s : mstate) : mstate := foldl step s p.

(** The address control goes to in the end, and the state there. *)
Fixpoint exec (callee : mstate → option mstate) (p : list insn) (s : mstate) : option (Z * mstate) :=
  match p with
  | [] => None
  | Op o :: p => exec callee p (step s o)
  | Call :: p => s' ← callee s; exec callee p s'
  | Jump r :: _ => Some (rf s r, s)
  | RetPop :: _ => Some (mm s (rf s SP), set_rf s SP (at_sp s 8))
  end.
End machine.

(** ** The programs *)
Module Rv64T.
Definition ra := 1%nat.
Definition gp := 3%nat.
Definition tp := 4%nat.
Definition t0 := 5%nat.
Definition t1 := 6%nat.
Definition t2 := 7%nat.
Definition s0 := 8%nat.
Definition s1 := 9%nat.
Definition a0 := 10%nat.
Definition a1 := 11%nat.
Definition a2 := 12%nat.
Definition a3 := 13%nat.
Definition a4 := 14%nat.
Definition a5 := 15%nat.
Definition a6 := 16%nat.
Definition a7 := 17%nat.
Definition s2 := 18%nat.
Definition s3 := 19%nat.
Definition s4 := 20%nat.
Definition s5 := 21%nat.
Definition s6 := 22%nat.
Definition s7 := 23%nat.
Definition s8 := 24%nat.
Definition s9 := 25%nat.
Definition s10 := 26%nat.
Definition s11 := 27%nat.
Definition t3 := 28%nat.
Definition t4 := 29%nat.
Definition t5 := 30%nat.
Definition t6 := 31%nat.

Definition pt_size : Z := 36 * 8.
Definition Rv64_arch_rethook_trampoline : list insn := [
  Op (AddI SP SP (-pt_size));
  Op (Store ra 8);
  Op (Store gp 24); Op (Store tp 32); Op (Store t0 40); Op (Store t1 48); Op (Store t2 56); Op (Store s0 64);
  Op (Store s1 72); Op (Store a0 80); Op (Store a1 88); Op (Store a2 96); Op (Store a3 104); Op (Store a4 112);
  Op (Store a5 120); Op (Store a6 128); Op (Store a7 136); Op (Store s2 144); Op (Store s3 152); Op (Store s4 160);
  Op (Store s5 168); Op (Store s6 176); Op (Store s7 184); Op (Store s8 192); Op (Store s9 200); Op (Store s10 208);
  Op (Store s11 216); Op (Store t3 224); Op (Store t4 232); Op (Store t5 240); Op (Store t6 248);
  Op (Mv a0 SP);
  Call;
  Op (Mv ra a0);
  Op (Load gp 24); Op (Load tp 32); Op (Load t0 40); Op (Load t1 48); Op (Load t2 56); Op (Load s0 64);
  Op (Load s1 72); Op (Load a0 80); Op (Load a1 88); Op (Load a2 96); Op (Load a3 104); Op (Load a4 112);
  Op (Load a5 120); Op (Load a6 128); Op (Load a7 136); Op (Load s2 144); Op (Load s3 152); Op (Load s4 160);
  Op (Load s5 168); Op (Load s6 176); Op (Load s7 184); Op (Load s8 192); Op (Load s9 200); Op (Load s10 208);
  Op (Load s11 216); Op (Load t3 224); Op (Load t4 232); Op (Load t5 240); Op (Load t6 248);
  Op (AddI SP SP pt_size);
  Jump ra ].
End Rv64T.

Module LA64T.
Definition ra := 1%nat.
Definition tp := 2%nat.
Definition a0 := 4%nat.
Definition a1 := 5%nat.
Definition a2 := 6%nat.
Definition a3 := 7%nat.
Definition a4 := 8%nat.
Definition a5 := 9%nat.
Definition a6 := 10%nat.
Definition a7 := 11%nat.
Definition t0 := 12%nat.
Definition t1 := 13%nat.
Definition t2 := 14%nat.
Definition t3 := 15%nat.
Definition t4 := 16%nat.
Definition t5 := 17%nat.
Definition t6 := 18%nat.
Definition t7 := 19%nat.
Definition t8 := 20%nat.
Definition r21 := 21%nat.
Definition fp := 22%nat.
Definition s0 := 23%nat.
Definition s1 := 24%nat.
Definition s2 := 25%nat.
Definition s3 := 26%nat.
Definition s4 := 27%nat.
Definition s5 := 28%nat.
Definition s6 := 29%nat.
Definition s7 := 30%nat.
Definition s8 := 31%nat.

Definition LA64_pt_regs_size : Z := 40 * 8.
Definition LA64_arch_rethook_trampoline : list insn := [
  Op (AddI SP SP (-LA64_pt_regs_size));
  Op (Store ra (1*8)); Op (Store tp (2*8)); Op (Store a0 (4*8)); Op (Store a1 (5*8)); Op (Store a2 (6*8));
  Op (Store a3 (7*8)); Op (Store a4 (8*8)); Op (Store a5 (9*8)); Op (Store a6 (10*8)); Op (Store a7 (11*8));
  Op (Store t0 (12*8)); Op (Store t1 (13*8)); Op (Store t2 (14*8)); Op (Store t3 (15*8)); Op (Store t4 (16*8));
  Op (Store t5 (17*8)); Op (Store t6 (18*8)); Op (Store t7 (19*8)); Op (Store t8 (20*8)); Op (Store r21 (21*8));
  Op (Store fp (22*8)); Op (Store s0 (23*8)); Op (Store s1 (24*8)); Op (Store s2 (25*8)); Op (Store s3 (26*8));
  Op (Store s4 (27*8)); Op (Store s5 (28*8)); Op (Store s6 (29*8)); Op (Store s7 (30*8)); Op (Store s8 (31*8));
  Op (AddI t0 SP LA64_pt_regs_size);
  Op (Store t0 (3*8));
  Op (Mv a0 SP);
  Call;
  Op (Mv ra a0);
  Op (Load tp (2*8)); Op (Load a0 (4*8)); Op (Load a1 (5*8)); Op (Load a2 (6*8));
  Op (Load a3 (7*8)); Op (Load a4 (8*8)); Op (Load a5 (9*8)); Op (Load a6 (10*8)); Op (Load a7 (11*8));
  Op (Load t0 (12*8)); Op (Load t1 (13*8)); Op (Load t2 (14*8)); Op (Load t3 (15*8)); Op (Load t4 (16*8));
  Op (Load t5 (17*8)); Op (Load t6 (18*8)); Op (Load t7 (19*8)); Op (Load t8 (20*8)); Op (Load r21 (21*8));
  Op (Load fp (22*8)); Op (Load s0 (23*8)); Op (Load s1 (24*8)); Op (Load s2 (25*8)); Op (Load s3 (26*8));
  Op (Load s4 (27*8)); Op (Load s5 (28*8)); Op (Load s6 (29*8)); Op (Load s7 (30*8)); Op (Load s8 (31*8));
  Op (AddI SP SP LA64_pt_regs_size);
  Jump ra ].
End LA64T.

Module AArch64T.
(** [x0] to [x30] are 0 to 30. *)
Definition lr := 30%nat.
Definition AArch64_pt_regs_size : Z := 36 * 8.
Definition S_FP : Z := 29 * 8.
Definition S_PSTATE : Z := 33 * 8.
Definition PSR_V_BIT_POS : Z := 0x10000000.
Definition PSR_C_BIT_POS : Z := 0x20000000.
Definition PSR_Z_BIT_POS : Z := 0x40000000.
Definition PSR_N_BIT_POS : Z := 0x80000000.
Definition M_FLAGS : Z := Z.lor (Z.lor (Z.lor PSR_V_BIT_POS PSR_C_BIT_POS) PSR_Z_BIT_POS) PSR_N_BIT_POS.
Definition AArch64_arch_rethook_trampoline : list insn := [
  Op (AddI SP SP (-AArch64_pt_regs_size));
  Op (StorePair 0 1 0); Op (StorePair 2 3 (2*8)); Op (StorePair 4 5 (4*8)); Op (StorePair 6 7 (6*8));
  Op (StorePair 8 9 (8*8)); Op (StorePair 10 11 (10*8)); Op (StorePair 12 13 (12*8)); Op (StorePair 14 15 (14*8));
  Op (StorePair 16 17 (16*8)); Op (StorePair 18 19 (18*8)); Op (StorePair 20 21 (20*8)); Op (StorePair 22 23 (22*8));
  Op (StorePair 24 25 (24*8)); Op (StorePair 26 27 (26*8)); Op (StorePair 28 29 (28*8));
  Op (AddI 0 SP AArch64_pt_regs_size);
  Op (StorePair lr 0 (30*8));
  Op (Mv 0 FLAGS); Op (Mv 1 DAIF); Op (Orr 0 0 1); Op (Mv 1 CurrentEL); Op (Orr 0 0 1); Op (Mv 1 SPSel); Op (Orr 0 0 1);
  Op (StorePair XZR 0 (32*8));
  Op (AddI 29 SP S_FP);
  Op (Mv 0 SP);
  Call;
  Op (Mv lr 0);
  Op (Load 0 S_PSTATE); Op (AndI 0 0 M_FLAGS); Op (Mv FLAGS 0);
  Op (LoadPair 0 1 0); Op (LoadPair 2 3 (2*8)); Op (LoadPair 4 5 (4*8)); Op (LoadPair 6 7 (6*8));
  Op (LoadPair 8 9 (8*8)); Op (LoadPair 10 11 (10*8)); Op (LoadPair 12 13 (12*8)); Op (LoadPair 14 15 (14*8));
  Op (LoadPair 16 17 (16*8)); Op (LoadPair 18 19 (18*8)); Op (LoadPair 20 21 (20*8)); Op (LoadPair 22 23 (22*8));
  Op (LoadPair 24 25 (24*8)); Op (LoadPair 26 27 (26*8)); Op (LoadPair 28 29 (28*8));
  Op (AddI SP SP AArch64_pt_regs_size);
  Jump lr ].
End AArch64T.

Module X86T.
Definition rax := 0%nat.
Definition rcx := 1%nat.
Definition rdx := 2%nat.
Definition rbx := 3%nat.
Definition rbp := 5%nat.
Definition rsi := 6%nat.
Definition rdi := 7%nat.
Definition r8 := 8%nat.
Definition r9 := 9%nat.
Definition r10 := 10%nat.
Definition r11 := 11%nat.
Definition r12 := 12%nat.
Definition r13 := 13%nat.
Definition r14 := 14%nat.
Definition r15 := 15%nat.

Definition KERNEL_DS : Z := 24.
Definition X86_arch_rethook_trampoline : list insn := [
  Op (PushI 0); Op (PushI KERNEL_DS); Op (Push SP); Op (Push FLAGS);
  Op (AddSP (-24));
  Op (Push rdi); Op (Push rsi); Op (Push rdx); Op (Push rcx); Op (Push rax); Op (Push r8); Op (Push r9); Op (Push r10);
  Op (Push r11); Op (Push rbx); Op (Push rbp); Op (Push r12); Op (Push r13); Op (Push r14); Op (Push r15);
  Op (Mv rdi SP);
  Call;
  Op (Pop r15); Op (Pop r14); Op (Pop r13); Op (Pop r12); Op (Pop rbp); Op (Pop rbx); Op (Pop r11); Op (Pop r10);
  Op (Pop r9); Op (Pop r8); Op (Pop rax); Op (Pop rcx); Op (Pop rdx); Op (Pop rsi); Op (Pop rdi);
  Op (AddSP 24);
  Op (AddSP 16);
  Op (Pop FLAGS);
  RetPop ].
End X86T.
