(* ===== verification/KprobeTrampProps.v ===== *)
(** What the return trampolines do around their callback: they hand it the
    registers of the return, put back what it leaves in them, and go where
    it says. *)
From S2P Require Import Prelude KprobeTramp.

(** ** Straight-line code *)
Section straight.
Context (flags_of : Z → Z → Z).
#[local] Abbreviation run := (run flags_of).
#[local] Abbreviation exec := (exec flags_of).

Lemma run_app p q s : run (p ++ q) s = run q (run p s).
Proof. apply foldl_app. Qed.

Lemma exec_ops callee p q s : exec callee (map Op p ++ q) s = exec callee q (run p s).
Proof. revert s. induction p as [|o p IH]; intros s; simpl; [done|]. apply IH. Qed.

Lemma exec_around callee p q e s :
  exec callee (map Op p ++ Call :: map Op q ++ [e]) s = s' ← callee (run p s); exec callee [e] (run q s').
Proof. rewrite exec_ops. simpl. destruct (callee (run p s)) as [s'|]; simpl; [|done]. apply exec_ops. Qed.

(** Pairs are two accesses. *)
Definition unpair_op (o : op) : list op :=
  match o with
  | StorePair r r' off => [Store r off; Store r' (off + 8)]
  | LoadPair r r' off => [Load r off; Load r' (off + 8)]
  | o => [o]
  end.
Definition unpair (p : list insn) : list insn :=
  p ≫= λ i, match i with Op o => map Op (unpair_op o) | i => [i] end.
Definition pairs_ok (p : list insn) : bool :=
  forallb (λ i, match i with Op (LoadPair r _ _) => negb (r =? SP)%nat | _ => true end) p.

Lemma run_unpair_op s o :
  pairs_ok [Op o] = true → run (unpair_op o) s = step flags_of s o.
Proof.
  destruct o; try done. simpl. unfold at_sp. simpl. destruct (Nat.eqb_spec r SP); [done|]. by rewrite decide_False.
Qed.

Lemma exec_unpair callee p s : pairs_ok p = true → exec callee (unpair p) s = exec callee p s.
Proof.
  revert s. induction p as [|i p IH]; intros s Hp; [done|]. simpl in Hp. apply andb_true_iff in Hp as [Hi Hp].
  change (unpair (i :: p)) with ((match i with Op o => map Op (unpair_op o) | i => [i] end) ++ unpair p).
  destruct i as [o| |r|]; try done.
  - rewrite exec_ops, run_unpair_op by (simpl; by rewrite Hi). by apply IH.
  - simpl. destruct (callee s) as [s'|]; [|done]. simpl. by apply IH.
Qed.

(** ** Saving to and loading from a frame *)
Definition saves (l : list (nat * Z)) : list op := (λ p, Store p.1 p.2) <$> l.
Definition loads (l : list (nat * Z)) : list op := (λ p, Load p.1 p.2) <$> l.

Lemma saves_rf l s : rf (run (saves l) s) = rf s.
Proof. revert s. induction l as [|p l IH]; intros s; [done|]. exact (IH (step flags_of s (Store p.1 p.2))). Qed.

Lemma saves_other l s a : (∀ p, p ∈ l → at_sp s p.2 ≠ a) → mm (run (saves l) s) a = mm s a.
Proof.
  revert s. induction l as [|p l IH]; intros s Ha; [done|].
  change (run (saves (p :: l)) s) with (run (saves l) (step flags_of s (Store p.1 p.2))). rewrite IH.
  - simpl. rewrite decide_False; [done|]. intros ->. apply (Ha p); [by left|done].
  - intros q Hq. apply (Ha q). by right.
Qed.

Lemma saves_at l s r off :
  NoDup (at_sp s <$> l.*2) → (r, off) ∈ l → mm (run (saves l) s) (at_sp s off) = rd s r.
Proof.
  revert s. induction l as [|p l IH]; intros s Hn Hin; [by apply not_elem_of_nil in Hin|].
  apply NoDup_cons in Hn as [Hp Hn].
  change (run (saves (p :: l)) s) with (run (saves l) (step flags_of s (Store p.1 p.2))).
  apply elem_of_cons in Hin as [<-|Hin].
  - rewrite saves_other; [simpl; by rewrite decide_True|]. intros q Hq He. apply Hp.
    simpl in *. rewrite <- He. by apply list_elem_of_fmap_2, list_elem_of_fmap_2.
  - exact (IH (step flags_of s (Store p.1 p.2)) Hn Hin).
Qed.

Lemma loads_mm l s : mm (run (loads l) s) = mm s.
Proof. revert s. induction l as [|p l IH]; intros s; [done|]. exact (IH (step flags_of s (Load p.1 p.2))). Qed.

Lemma loads_other l s r : r ∉ l.*1 → rf (run (loads l) s) r = rf s r.
Proof.
  revert s. induction l as [|p l IH]; intros s Hr; [done|]. apply not_elem_of_cons in Hr as [Hp Hr].
  change (run (loads (p :: l)) s) with (run (loads l) (step flags_of s (Load p.1 p.2))). rewrite IH by done.
  simpl. by rewrite decide_False.
Qed.

Lemma loads_at l s r off :
  SP ∉ l.*1 → NoDup l.*1 → (r, off) ∈ l → rf (run (loads l) s) r = mm s (at_sp s off).
Proof.
  revert s. induction l as [|p l IH]; intros s Hs Hn Hin; [by apply not_elem_of_nil in Hin|].
  apply NoDup_cons in Hn as [Hp Hn]. apply not_elem_of_cons in Hs as [Hs Hl].
  change (run (loads (p :: l)) s) with (run (loads l) (step flags_of s (Load p.1 p.2))).
  apply elem_of_cons in Hin as [<-|Hin].
  - rewrite loads_other by done. simpl. by rewrite decide_True.
  - rewrite (IH (step flags_of s (Load p.1 p.2)) Hl Hn Hin). simpl. unfold at_sp. simpl. by rewrite decide_False.
Qed.

(** In a frame of [size] bytes at the stack pointer nothing wraps. *)
Definition slots_ok (size : Z) (l : list (nat * Z)) : bool :=
  forallb (λ p, (0 <=? p.2) && (p.2 <? size)) l && bool_decide (NoDup l.*2).
Definition targets_ok (l : list (nat * Z)) : bool := bool_decide (SP ∉ l.*1) && bool_decide (NoDup l.*1).

Lemma at_sp_frame s ptr size off :
  rf s SP = ptr → 0 ≤ ptr → ptr + size ≤ 2 ^ 64 → 0 ≤ off < size → at_sp s off = ptr + off.
Proof. intros Hs H0 H1 Ho. unfold at_sp. rewrite Hs. apply wrapu_small. lia. Qed.

Lemma saves_frame l s ptr size :
  rf s SP = ptr → 0 ≤ ptr → ptr + size ≤ 2 ^ 64 → slots_ok size l = true →
  (∀ r off, (r, off) ∈ l → mm (run (saves l) s) (ptr + off) = rd s r) ∧
  (∀ a, (∀ p, p ∈ l → a ≠ ptr + p.2) → mm (run (saves l) s) a = mm s a).
Proof.
  intros Hs H0 H1 [Hb Hn%bool_decide_eq_true]%andb_true_iff.
  assert (∀ p, p ∈ l → at_sp s p.2 = ptr + p.2) as Hat.
  { intros p Hp. apply (at_sp_frame _ _ size); try done. apply list_elem_of_In in Hp.
    pose proof (proj1 (forallb_forall _ _) Hb p Hp) as H. apply andb_true_iff in H as [Ha Hc]. lia. }
  split.
  - intros r off Hin. pose proof (Hat (r, off) Hin) as He. simpl in He. rewrite <- He. apply saves_at; [|done].
    replace (at_sp s <$> l.*2) with (Z.add ptr <$> l.*2); [by apply NoDup_fmap_2_strong; [intros; lia|]|].
    apply list_fmap_ext. intros i off' Hi%list_elem_of_lookup_2. apply list_elem_of_fmap in Hi as (p & -> & Hp).
    symmetry. by apply Hat.
  - intros a Ha. apply saves_other. intros p Hp. rewrite Hat by done. intros <-. by apply (Ha p).
Qed.

Lemma loads_frame l s ptr size r off :
  rf s SP = ptr → 0 ≤ ptr → ptr + size ≤ 2 ^ 64 → slots_ok size l = true → targets_ok l = true →
  (r, off) ∈ l → rf (run (loads l) s) r = mm s (ptr + off).
Proof.
  intros Hs H0 H1 [Hb _]%andb_true_iff [Ht%bool_decide_eq_true Hn%bool_decide_eq_true]%andb_true_iff Hin.
  rewrite (loads_at _ _ _ off) by done. f_equal. apply (at_sp_frame _ _ size); try done.
  pose proof (proj1 (forallb_forall _ _) Hb (r, off) (proj1 (list_elem_of_In _ _) Hin)) as H.
  apply andb_true_iff in H as [Ha Hc]. simpl in *. lia.
Qed.
(** Building a frame of [size] bytes and saving [l] in it; loading [l] back
    and dropping the frame. *)
Lemma enter_frame l size s :
  0 ≤ size → size ≤ rf s SP < 2 ^ 64 → slots_ok size l = true → targets_ok l = true → XZR ∉ l.*1 →
  let s1 := run (AddI SP SP (- size) :: saves l) s in
  rf s1 SP = rf s SP - size ∧ (∀ r, r ≠ SP → rf s1 r = rf s r) ∧
  (∀ r off, (r, off) ∈ l → mm s1 (rf s SP - size + off) = rf s r) ∧
  (∀ a, (∀ p, p ∈ l → a ≠ rf s SP - size + p.2) → mm s1 a = mm s a).
Proof.
  intros Hsize Hsp Hl Ht Hz. set (s0 := step flags_of s (AddI SP SP (- size))).
  change (run (AddI SP SP (- size) :: saves l) s) with (run (saves l) s0). cbv zeta.
  assert (rf s0 SP = rf s SP - size) as Hs0 by (simpl; apply wrapu_small; lia).
  destruct (saves_frame l s0 _ size Hs0 ltac:(lia) ltac:(lia) Hl) as [Hin Hout]. rewrite saves_rf.
  assert (∀ r, r ≠ SP → rf s0 r = rf s r) as Hr by (intros r Hr; simpl; by rewrite decide_False).
  split_and!; [done|done| |exact Hout]. intros r off Hp. rewrite (Hin r off Hp).
  assert (r ∈ l.*1) as Hrl by (apply list_elem_of_fmap; by exists (r, off)).
  apply andb_true_iff in Ht as [Ht%bool_decide_eq_true _]. unfold rd. rewrite decide_False by congruence. apply Hr. congruence.
Qed.

Lemma leave_frame l size s S :
  rf s SP = S - size → 0 ≤ size → size ≤ S < 2 ^ 64 → slots_ok size l = true → targets_ok l = true →
  let s1 := run (loads l ++ [AddI SP SP size]) s in
  rf s1 SP = S ∧ mm s1 = mm s ∧ (∀ r off, (r, off) ∈ l → rf s1 r = mm s (S - size + off)) ∧
  (∀ r, r ≠ SP → r ∉ l.*1 → rf s1 r = rf s r).
Proof.
  intros Hs Hsize HS Hl Ht. cbv zeta. rewrite run_app. set (s0 := run (loads l) s).
  pose proof Ht as [Ht1%bool_decide_eq_true _]%andb_true_iff.
  assert (rf s0 SP = S - size) as Hsp by (unfold s0; by rewrite loads_other).
  change (run [AddI SP SP size] s0) with (set_rf s0 SP (wrapu 64 (rf s0 SP + size))). simpl. rewrite Hsp.
  split_and!.
  - replace (S - size + size) with S by lia. apply wrapu_small. lia.
  - apply loads_mm.
  - intros r off Hp. rewrite decide_False.
    + by apply (loads_frame l s (S - size) size); try lia.
    + intros ->. apply Ht1. apply list_elem_of_fmap. by exists (SP, off).
  - intros r Hr Hn. rewrite decide_False by done. by apply loads_other.
Qed.
End straight.

(** ** The contract of a trampoline *)

(** [saved s] lists the words of the frame by offset; [restored slot ret] the
    registers by number, from the words [slot] the callback leaves in the
    frame and the address it returns. *)
Record Contract := {
  prog : list insn;
  frame_size : Z;
  arg_reg : nat;
  saved : mstate → list (Z * Z);
  restored : (Z → Z) → Z → list (nat * Z);
  target : mstate → (Z → Z) → Z;
}.

(** At the call: the frame of [frame_size] bytes below the stack pointer of
    the return, its address the argument, everything outside it untouched. *)
Record entered (c : Contract) (s before : mstate) : Prop := {
  en_sp : rf before SP = rf s SP - frame_size c;
  en_arg : rf before (arg_reg c) = rf s SP - frame_size c;
  en_saved off v : (off, v) ∈ saved c s → mm before (rf s SP - frame_size c + off) = v;
  en_outside a : ¬ (rf s SP - frame_size c ≤ a < rf s SP) → mm before a = mm s a;
}.

(** At the end: control at [ret], the stack pointer as at the return, memory
    as the callback left it, the registers from the frame. *)
Record left_at (c : Contract) (s s2 s3 : mstate) (ret : Z) : Prop := {
  le_sp : rf s3 SP = rf s SP;
  le_mm : mm s3 = mm s2;
  le_restored r v : (r, v) ∈ restored c (λ off, mm s2 (rf s SP - frame_size c + off)) ret → rf s3 r = v;
}.

(** A callback that panics ends the trampoline; one that returns with the
    stack pointer it found ends it at [target]. *)
Definition trampoline_ok (c : Contract) : Prop := ∀ flags_of callee s,
  frame_size c ≤ rf s SP < 2 ^ 64 →
  ∃ before, entered c s before ∧
    match callee before with
    | None => exec flags_of callee (prog c) s = None
    | Some s2 => rf s2 SP = rf s SP - frame_size c →
        let ret := target c s2 (λ off, mm s2 (rf s SP - frame_size c + off)) in
        ∃ s3, exec flags_of callee (prog c) s = Some (ret, s3) ∧ left_at c s s2 s3 ret
    end.

Definition rv64 : Contract := {|
  prog := Rv64T.Rv64_arch_rethook_trampoline;
  frame_size := Rv64T.pt_size;
  arg_reg := Rv64T.a0;
  saved s := (λ r : nat, (8 * Z.of_nat r, rf s r)) <$> 1%nat :: seq 3 29;
  restored slot ret := (Rv64T.ra, ret) :: ((λ r : nat, (r, slot (8 * Z.of_nat r))) <$> seq 3 29);
  target s2 _ := rf s2 Rv64T.a0;
|}.
Definition la64 : Contract := {|
  prog := LA64T.LA64_arch_rethook_trampoline;
  frame_size := LA64T.LA64_pt_regs_size;
  arg_reg := LA64T.a0;
  saved s := (3 * 8, rf s SP) :: ((λ r : nat, (8 * Z.of_nat r, rf s r)) <$> 1%nat :: 2%nat :: seq 4 28);
  restored slot ret := (LA64T.ra, ret) :: ((λ r : nat, (r, slot (8 * Z.of_nat r))) <$> 2%nat :: seq 4 28);
  target s2 _ := rf s2 LA64T.a0;
|}.
Definition aarch64 : Contract := {|
  prog := AArch64T.AArch64_arch_rethook_trampoline;
  frame_size := AArch64T.AArch64_pt_regs_size;
  arg_reg := 0%nat;
  saved s :=
    [(31 * 8, rf s SP); (32 * 8, 0);
     (AArch64T.S_PSTATE, Z.lor (Z.lor (Z.lor (rf s FLAGS) (rf s DAIF)) (rf s CurrentEL)) (rf s SPSel))] ++
    ((λ r : nat, (8 * Z.of_nat r, rf s r)) <$> seq 0 31);
  restored slot ret :=
    [(AArch64T.lr, ret); (FLAGS, Z.land (slot AArch64T.S_PSTATE) AArch64T.M_FLAGS)] ++
    ((λ r : nat, (r, slot (8 * Z.of_nat r))) <$> seq 0 30);
  target s2 _ := rf s2 0%nat;
|}.
(** The word above the 21 of [PtRegs] is the return address the callback
    fills in; [rsp] is saved 16 below its value, which the callback adds. *)
Definition x86_regs : list nat :=
  [X86T.r15; X86T.r14; X86T.r13; X86T.r12; X86T.rbp; X86T.rbx; X86T.r11; X86T.r10; X86T.r9; X86T.r8; X86T.rax; X86T.rcx;
   X86T.rdx; X86T.rsi; X86T.rdi].
Definition x86 : Contract := {|
  prog := X86T.X86_arch_rethook_trampoline;
  frame_size := 22 * 8;
  arg_reg := X86T.rdi;
  saved s :=
    [(18 * 8, rf s FLAGS); (19 * 8, rf s SP - 16); (20 * 8, X86T.KERNEL_DS); (21 * 8, 0)] ++
    imap (λ i r, (8 * Z.of_nat i, rf s r)) x86_regs;
  restored slot ret := (FLAGS, slot (20 * 8)) :: imap (λ i r, (r, slot (8 * Z.of_nat i))) x86_regs;
  target _ slot := slot (21 * 8);
|}.

(** *** RISC-V, LoongArch and AArch64 *)
Definition by_number (l : list nat) : list (nat * Z) := (λ r : nat, (r, 8 * Z.of_nat r)) <$> l.

Lemma by_number_in l r : r ∈ l → (r, 8 * Z.of_nat r) ∈ by_number l.
Proof. intros Hr. by apply (list_elem_of_fmap_2 (λ r : nat, (r, 8 * Z.of_nat r))). Qed.

(** Words outside the frame are none of the frame's. *)
Lemma outside_slots l ptr size a :
  slots_ok size l = true → ¬ (ptr ≤ a < ptr + size) → ∀ p, p ∈ l → a ≠ ptr + p.2.
Proof.
  intros [Hb _]%andb_true_iff Ha p Hp ->. pose proof (proj1 (forallb_forall _ _) Hb p (proj1 (list_elem_of_In _ _) Hp)) as H.
  apply andb_true_iff in H as [H1 H2]. lia.
Qed.

(** A trampoline of the shape the three have: [mid] after the registers are
    saved, [mid'] before they are loaded. *)
Section frame.
Context (c : Contract) (regs back : list (nat * Z)) (mid mid' : list op) (link : nat).
Context (Hpairs : pairs_ok (prog c) = true).
Context (Hprog : unpair (prog c) = map Op ((AddI SP SP (- frame_size c) :: saves regs) ++ mid ++ [Mv (arg_reg c) SP]) ++
                   (Call :: map Op ((Mv link (arg_reg c) :: mid') ++ loads back ++ [AddI SP SP (frame_size c)]) ++ [Jump link])).
Context (Hsize : 0 ≤ frame_size c).
Context (Hregs : slots_ok (frame_size c) regs = true) (Hregs' : targets_ok regs = true) (Hz : XZR ∉ regs.*1).
Context (Hback : slots_ok (frame_size c) back = true) (Hback' : targets_ok back = true).
Context (Hlink : link ≠ SP) (Hlink' : link ∉ back.*1) (Harg : arg_reg c ≠ SP) (Harg' : arg_reg c ≠ XZR).
Context (Htarget : ∀ s2 slot, target c s2 slot = rf s2 (arg_reg c)).

Context (Hmid : ∀ flags_of s s1, frame_size c ≤ rf s SP < 2 ^ 64 →
  rf s1 SP = rf s SP - frame_size c → (∀ r, r ≠ SP → rf s1 r = rf s r) →
  (∀ r off, (r, off) ∈ regs → mm s1 (rf s SP - frame_size c + off) = rf s r) →
  let s' := run flags_of mid s1 in
  rf s' SP = rf s1 SP ∧
  (∀ off v, (off, v) ∈ saved c s → mm s' (rf s SP - frame_size c + off) = v) ∧
  (∀ a, ¬ (rf s SP - frame_size c ≤ a < rf s SP) → mm s' a = mm s1 a)).
Context (Hmid' : ∀ flags_of s2, rf s2 SP + frame_size c < 2 ^ 64 → 0 ≤ rf s2 SP →
  let s' := run flags_of mid' s2 in
  mm s' = mm s2 ∧ rf s' SP = rf s2 SP ∧ rf s' link = rf s2 link ∧
  ∀ ret r v, (r, v) ∈ restored c (λ off, mm s2 (rf s2 SP + off)) ret →
    (∃ off, (r, off) ∈ back ∧ v = mm s2 (rf s2 SP + off)) ∨
    ((r ∉ back.*1) ∧ r ≠ SP ∧ (rf s2 link = ret → rf s' r = v))).

Lemma frame_trampoline : trampoline_ok c.
Proof using All.
  intros flags_of callee s Hsp.
  destruct (enter_frame flags_of regs (frame_size c) s Hsize Hsp Hregs Hregs' Hz) as (H1 & H2 & H3 & H4).
  set (s1 := run flags_of (AddI SP SP (- frame_size c) :: saves regs) s) in *.
  destruct (Hmid flags_of s s1 Hsp H1 H2 H3) as (H5 & H6 & H7).
  set (s1' := run flags_of mid s1) in *.
  exists (set_rf s1' (arg_reg c) (rf s1' SP)). split.
  - split; simpl.
    + rewrite decide_False by done. congruence.
    + rewrite decide_True by done. congruence.
    + exact H6.
    + intros a Ha. rewrite H7 by done. apply H4. apply (outside_slots _ _ (frame_size c)); [done|]. lia.
  - rewrite <- exec_unpair by done. rewrite Hprog, exec_around. rewrite !run_app. fold s1. fold s1'.
    change (run flags_of [Mv (arg_reg c) SP] s1') with (set_rf s1' (arg_reg c) (rf s1' SP)).
    destruct (callee _) as [s2|]; [|done]. intros H8. cbv zeta. rewrite Htarget. cbn [mbind option_bind].
    change (run flags_of ((Mv link (arg_reg c) :: mid') ++ loads back ++ [AddI SP SP (frame_size c)]) s2)
      with (run flags_of (mid' ++ (loads back ++ [AddI SP SP (frame_size c)])) (set_rf s2 link (rd s2 (arg_reg c)))).
    set (s3 := set_rf s2 link (rd s2 (arg_reg c))). rewrite run_app.
    assert (rf s3 SP = rf s SP - frame_size c) as H9 by (simpl; by rewrite decide_False).
    assert (rf s3 link = rf s2 (arg_reg c)) as H10 by (simpl; rewrite decide_True by done; unfold rd; by rewrite decide_False).
    destruct (Hmid' flags_of s3 ltac:(lia) ltac:(lia)) as (H11 & H12 & H13 & H14).
    set (s4 := run flags_of mid' s3) in *.
    destruct (leave_frame flags_of back (frame_size c) s4 (rf s SP) ltac:(congruence) Hsize Hsp Hback Hback')
      as (H15 & H16 & H17 & H18).
    set (s5 := run flags_of (loads back ++ [AddI SP SP (frame_size c)]) s4) in *.
    exists s5. split.
    + simpl. do 2 f_equal. rewrite H18 by done. congruence.
    + split; [done|by rewrite H16, H11|]. intros r v Hv. rewrite <- H9 in Hv.
      destruct (H14 _ r v Hv) as [(off & Hoff & ->)|(Hn & Hr & Hval)].
      * rewrite (H17 r off Hoff), H11. by rewrite H9.
      * rewrite H18 by done. by apply Hval.
Qed.
End frame.

(** Words saved or restored by number. *)
Lemma saved_in l m ptr s off v :
  (∀ r off, (r, off) ∈ by_number l → mm m (ptr + off) = rf s r) →
  (off, v) ∈ (λ r : nat, (8 * Z.of_nat r, rf s r)) <$> l → mm m (ptr + off) = v.
Proof. intros Hm (r & [= -> ->] & Hr)%list_elem_of_fmap. by apply Hm, by_number_in. Qed.
Lemma restored_in l (slot : Z → Z) r v :
  (r, v) ∈ (λ r : nat, (r, slot (8 * Z.of_nat r))) <$> l → ∃ off, (r, off) ∈ by_number l ∧ v = slot off.
Proof. intros (x & [= -> ->] & Hr)%list_elem_of_fmap. eexists. split; [by apply by_number_in|done]. Qed.

Ltac by_decide := apply (bool_decide_unpack _); by vm_compute.

Lemma rv64_ok : trampoline_ok rv64.
Proof.
  apply (frame_trampoline rv64 (by_number (1%nat :: seq 3 29)) (by_number (seq 3 29)) [] [] Rv64T.ra).
  - by vm_compute.
  - by vm_compute.
  - done.
  - by vm_compute.
  - by vm_compute.
  - by_decide.
  - by vm_compute.
  - by vm_compute.
  - done.
  - by_decide.
  - done.
  - done.
  - done.
  - intros f s s1 Hs H1 H2 H3. split_and!; [done| |done]. intros off v. by apply saved_in.
  - intros f s2 H1 H2. split_and!; try done. intros ret r v [[= -> ->]|Hr]%elem_of_cons.
    + right. split_and!; [|done|done]. by_decide.
    + left. by apply (restored_in _ (λ off, mm s2 (rf s2 SP + off))) in Hr.
Qed.

Lemma la64_ok : trampoline_ok la64.
Proof.
  apply (frame_trampoline la64 (by_number (1%nat :: 2%nat :: seq 4 28)) (by_number (2%nat :: seq 4 28))
           [AddI LA64T.t0 SP LA64T.LA64_pt_regs_size; Store LA64T.t0 (3*8)] [] LA64T.ra).
  - by vm_compute.
  - by vm_compute.
  - done.
  - by vm_compute.
  - by vm_compute.
  - by_decide.
  - by vm_compute.
  - by vm_compute.
  - done.
  - by_decide.
  - done.
  - done.
  - done.
  - intros f s s1 Hs H1 H2 H3. set (ptr := rf s SP - frame_size la64) in *.
    assert (frame_size la64 = 320) as Hz by done. cbv zeta.
    set (s2 := set_rf s1 LA64T.t0 (wrapu 64 (rf s1 SP + LA64T.LA64_pt_regs_size))).
    change (run f _ s1) with (set_mm s2 (at_sp s2 (3*8)) (rd s2 LA64T.t0)).
    assert (at_sp s2 (3*8) = ptr + 24) as -> by (apply (at_sp_frame _ _ 320); [done|lia|lia|lia]).
    assert (rd s2 LA64T.t0 = rf s SP) as ->.
    { change (rd s2 LA64T.t0) with (wrapu 64 (rf s1 SP + 320)). rewrite H1. replace (ptr + 320) with (rf s SP) by lia.
      apply wrapu_small. lia. }
    split_and!; [done| |].
    + intros off v [[= -> ->]|Hv]%elem_of_cons; simpl mm; [by rewrite decide_True|]. rewrite decide_False.
      * by apply (saved_in (1%nat :: 2%nat :: seq 4 28) s1 ptr s).
      * apply list_elem_of_fmap in Hv as (r & [= -> _] & Hr). assert (r ≠ 3%nat); [|lia].
        intros ->. revert Hr. by_decide.
    + intros a Ha. simpl. by rewrite decide_False by lia.
  - intros f s2 H1 H2. split_and!; try done. intros ret r v [[= -> ->]|Hr]%elem_of_cons.
    + right. split_and!; [|done|done]. by_decide.
    + left. by apply (restored_in _ (λ off, mm s2 (rf s2 SP + off))) in Hr.
Qed.

Lemma aarch64_ok : trampoline_ok aarch64.
Proof.
  apply (frame_trampoline aarch64 (by_number (seq 0 30)) (by_number (seq 0 30))
           [AddI 0 SP AArch64T.AArch64_pt_regs_size; Store AArch64T.lr (30*8); Store 0 (31*8);
            Mv 0 FLAGS; Mv 1 DAIF; Orr 0 0 1; Mv 1 CurrentEL; Orr 0 0 1; Mv 1 SPSel; Orr 0 0 1;
            Store XZR (32*8); Store 0 (33*8); AddI 29 SP AArch64T.S_FP]
           [Load 0 AArch64T.S_PSTATE; AndI 0 0 AArch64T.M_FLAGS; Mv FLAGS 0] AArch64T.lr).
  1-13: first [done | by_decide | by vm_compute].
  - intros f s s1 Hs H1 H2 H3. set (ptr := rf s SP - frame_size aarch64) in *. cbv zeta.
    assert (frame_size aarch64 = 288) as Hz by done. set (s' := run f _ s1).
    assert (mm s' = λ a, if decide (a = wrapu 64 (rf s1 SP + 264)) then
                           Z.lor (Z.lor (Z.lor (rf s1 FLAGS) (rf s1 DAIF)) (rf s1 CurrentEL)) (rf s1 SPSel)
                         else if decide (a = wrapu 64 (rf s1 SP + 256)) then 0
                         else if decide (a = wrapu 64 (rf s1 SP + 248)) then wrapu 64 (rf s1 SP + 288)
                         else if decide (a = wrapu 64 (rf s1 SP + 240)) then rf s1 30%nat else mm s1 a) as -> by reflexivity.
    rewrite H1, !H2 by done. rewrite !wrapu_small by lia.
    split_and!; [done| |].
    + intros off v [Hv|(r & [= -> ->] & Hr%elem_of_seq)%list_elem_of_fmap]%elem_of_app.
      * change AArch64T.S_PSTATE with 264 in Hv.
        repeat (apply elem_of_cons in Hv as [[= -> ->]|Hv]; [repeat (rewrite decide_False by lia); rewrite decide_True by lia; lia || done|]).
        by apply not_elem_of_nil in Hv.
      * rewrite !(decide_False (P := (_ = _ + 264))), !(decide_False (P := (_ = _ + 256))), !(decide_False (P := (_ = _ + 248))) by lia.
        case_decide as He; [by replace r with 30%nat by lia|]. apply H3, by_number_in, elem_of_seq. lia.
    + intros a Ha. by rewrite !decide_False by lia.
  - intros f s2 H1 H2. cbv zeta. set (s' := run f _ s2).
    assert (rf s' FLAGS = Z.land (mm s2 (wrapu 64 (rf s2 SP + 264))) AArch64T.M_FLAGS) as Hf by reflexivity.
    change (frame_size aarch64) with 288 in H1. rewrite wrapu_small in Hf by lia.
    split_and!; [done|done|done|]. intros ret r v [Hv|Hr]%elem_of_app.
    + right. apply elem_of_cons in Hv as [[= -> ->]|Hv]; [split_and!; [by_decide|done|done]|].
      apply elem_of_cons in Hv as [[= -> ->]|Hv]; [|by apply not_elem_of_nil in Hv].
      split_and!; [by_decide|done|]. intros _. exact Hf.
    + left. by apply (restored_in _ (λ off, mm s2 (rf s2 SP + off))) in Hr.
Qed.

(** *** x86-64 *)
Section stack.
Context (flags_of : Z → Z → Z).
#[local] Abbreviation run := (run flags_of).

Lemma pushes_spec l s :
  8 * Z.of_nat (length l) ≤ rf s SP < 2 ^ 64 → SP ∉ l →
  let s' := run (Push <$> l) s in
  rf s' SP = rf s SP - 8 * Z.of_nat (length l) ∧ (∀ r, r ≠ SP → rf s' r = rf s r) ∧
  (∀ i r, l !! i = Some r → mm s' (rf s SP - 8 * (Z.of_nat i + 1)) = rf s r) ∧
  (∀ a, ¬ (rf s SP - 8 * Z.of_nat (length l) ≤ a < rf s SP) → mm s' a = mm s a).
Proof.
  revert s. induction l as [|r l IH]; intros s Hs Hl; [by split_and!; [simpl; lia|..]|].
  apply not_elem_of_cons in Hl as [Hr Hl]. simpl length in *. cbv zeta.
  set (s0 := step flags_of s (Push r)). change (run (Push <$> r :: l) s) with (run (Push <$> l) s0).
  assert (at_sp s (-8) = rf s SP - 8) as Hat by (apply wrapu_small; lia).
  assert (rf s0 SP = rf s SP - 8) as H0 by exact Hat.
  destruct (IH s0 ltac:(lia) Hl) as (H1 & H2 & H3 & H4).
  assert (∀ r', r' ≠ SP → rf s0 r' = rf s r') as H5 by (intros r' Hr'; simpl; by rewrite decide_False).
  assert (∀ a, mm s0 a = if decide (a = rf s SP - 8) then rf s r else mm s a) as H6 by (intros a; simpl; by rewrite Hat).
  split_and!.
  - lia.
  - intros r' Hr'. by rewrite H2, H5.
  - intros [|i] r' Hi; simpl in Hi.
    + injection Hi as ->. rewrite H4, H6, decide_True by lia. done.
    + pose proof (H3 i r' Hi) as H7. rewrite H0 in H7.
      replace (rf s SP - 8 * (Z.of_nat (S i) + 1)) with (rf s SP - 8 - 8 * (Z.of_nat i + 1)) by lia.
      rewrite H7. apply H5. intros ->. apply Hl. by eapply list_elem_of_lookup_2.
  - intros a Ha. rewrite H4, H6, decide_False by lia. done.
Qed.

Lemma pops_spec l s :
  0 ≤ rf s SP → rf s SP + 8 * Z.of_nat (length l) < 2 ^ 64 → SP ∉ l → NoDup l →
  let s' := run (Pop <$> l) s in
  rf s' SP = rf s SP + 8 * Z.of_nat (length l) ∧ mm s' = mm s ∧
  (∀ r, r ≠ SP → r ∉ l → rf s' r = rf s r) ∧
  (∀ i r, l !! i = Some r → rf s' r = mm s (rf s SP + 8 * Z.of_nat i)).
Proof.
  revert s. induction l as [|r l IH]; intros s H0 Hs Hl Hn; [by split_and!; [simpl; lia|..]|].
  apply not_elem_of_cons in Hl as [Hr Hl]. apply NoDup_cons in Hn as [Hn1 Hn2]. simpl length in *. cbv zeta.
  set (s0 := step flags_of s (Pop r)). change (run (Pop <$> r :: l) s) with (run (Pop <$> l) s0).
  assert (rf s0 SP = rf s SP + 8) as H1 by (simpl; rewrite decide_False by done; apply wrapu_small; lia).
  destruct (IH s0 ltac:(lia) ltac:(lia) Hl Hn2) as (H2 & H3 & H4 & H5).
  split_and!.
  - lia.
  - exact H3.
  - intros r' Hr' Hn. apply not_elem_of_cons in Hn as [Hn Hn']. rewrite H4 by done. simpl. by rewrite !decide_False.
  - intros [|i] r' Hi; simpl in Hi.
    + injection Hi as ->. rewrite H4 by done. simpl. rewrite decide_True by done. f_equal. lia.
    + rewrite (H5 i r' Hi), H1. change (mm s0) with (mm s). f_equal. lia.
Qed.
End stack.

Definition x86_pre : list op := [PushI 0; PushI X86T.KERNEL_DS; Push SP; Push FLAGS; AddSP (-24)].
Definition x86_post : list op := [AddSP 24; AddSP 16; Pop FLAGS].

(** Up to the registers: the fake return address, the segment, the stack
    pointer and the flags. *)
Lemma x86_enter flags_of s :
  176 ≤ rf s SP < 2 ^ 64 →
  let s1 := run flags_of x86_pre s in
  rf s1 SP = rf s SP - 56 ∧ (∀ r, r ≠ SP → r ≠ FLAGS → rf s1 r = rf s r) ∧
  mm s1 = λ a, if decide (a = rf s SP - 32) then rf s FLAGS else if decide (a = rf s SP - 24) then rf s SP - 16
               else if decide (a = rf s SP - 16) then X86T.KERNEL_DS else if decide (a = rf s SP - 8) then 0 else mm s a.
Proof.
  intros Hs. set (p1 := wrapu 64 (rf s SP + -8)). set (p2 := wrapu 64 (p1 + -8)). set (p3 := wrapu 64 (p2 + -8)).
  set (p4 := wrapu 64 (p3 + -8)).
  assert (p1 = rf s SP - 8) as H1 by (apply wrapu_small; lia). assert (p2 = rf s SP - 16) as H2 by (unfold p2; rewrite wrapu_small; lia).
  assert (p3 = rf s SP - 24) as H3 by (unfold p3; rewrite wrapu_small; lia).
  assert (p4 = rf s SP - 32) as H4 by (unfold p4; rewrite wrapu_small; lia). cbv zeta.
  set (s1 := run flags_of _ s). split_and!.
  - change (rf s1 SP) with (wrapu 64 (p4 + -24)). rewrite wrapu_small; lia.
  - intros r Hr Hf. simpl. by rewrite !decide_False.
  - rewrite <- H1, <- H2, <- H3, <- H4. reflexivity.
Qed.

(** From the flags on: the pieces of the frame behind the registers. *)
Lemma x86_leave flags_of s S :
  rf s SP = S - 56 → 176 ≤ S < 2 ^ 64 →
  let s1 := run flags_of x86_post s in
  rf s1 SP = S - 8 ∧ mm s1 = mm s ∧ rf s1 FLAGS = mm s (S - 16) ∧ (∀ r, r ≠ SP → r ≠ FLAGS → rf s1 r = rf s r).
Proof.
  intros H HS. set (p1 := wrapu 64 (rf s SP + 24)). set (p2 := wrapu 64 (p1 + 16)).
  assert (p1 = S - 32) as H1 by (unfold p1; rewrite wrapu_small; lia).
  assert (p2 = S - 16) as H2 by (unfold p2; rewrite wrapu_small; lia). cbv zeta.
  set (s1 := run flags_of _ s). split_and!.
  - change (rf s1 SP) with (wrapu 64 (p2 + 8)). rewrite wrapu_small; lia.
  - done.
  - rewrite <- H2. reflexivity.
  - intros r Hr Hf. simpl. by rewrite !decide_False.
Qed.

Lemma x86_shape : prog x86 =
  map Op (x86_pre ++ (Push <$> reverse x86_regs) ++ [Mv X86T.rdi SP]) ++
  (Call :: map Op ((Pop <$> x86_regs) ++ x86_post) ++ [RetPop]).
Proof. done. Qed.

Lemma x86_exec flags_of callee s :
  let s2 := run flags_of (Push <$> reverse x86_regs) (run flags_of x86_pre s) in
  exec flags_of callee (prog x86) s =
    (s' ← callee (set_rf s2 X86T.rdi (rf s2 SP));
     let s5 := run flags_of x86_post (run flags_of (Pop <$> x86_regs) s') in
     Some (mm s5 (rf s5 SP), set_rf s5 SP (at_sp s5 8))).
Proof.
  cbv zeta. rewrite x86_shape, exec_around, !run_app. generalize (run flags_of (Push <$> reverse x86_regs) (run flags_of x86_pre s)). intros s2.
  assert (run flags_of [Mv X86T.rdi SP] s2 = set_rf s2 X86T.rdi (rf s2 SP)) as -> by done.
  destruct (callee _) as [s'|]; cbn [mbind option_bind exec]; [|reflexivity]. rewrite run_app. reflexivity.
Qed.

(** From the callback's return on. *)
Lemma x86_returned flags_of s s3 :
  176 ≤ rf s SP < 2 ^ 64 → rf s3 SP = rf s SP - 176 →
  let s5 := run flags_of x86_post (run flags_of (Pop <$> x86_regs) s3) in
  let ret := mm s3 (rf s SP - 176 + 21 * 8) in
  mm s5 (rf s5 SP) = ret ∧ left_at x86 s s3 (set_rf s5 SP (at_sp s5 8)) ret.
Proof.
  intros Hsp H8. cbv zeta.
  destruct (pops_spec flags_of x86_regs s3 ltac:(lia) ltac:(change (length x86_regs) with 15%nat; lia) ltac:(by_decide) ltac:(by_decide))
    as (H9 & H10 & _ & H11). change (length x86_regs) with 15%nat in H9.
  revert H9 H10 H11. generalize (run flags_of (Pop <$> x86_regs) s3). intros s4 H9 H10 H11.
  destruct (x86_leave flags_of s4 (rf s SP) ltac:(lia) Hsp) as (H12 & H13 & H14 & H15).
  revert H12 H13 H14 H15. generalize (run flags_of x86_post s4). intros s5 H12 H13 H14 H15.
  split; [rewrite H12, H13, H10; by replace (rf s SP - 8) with (rf s SP - 176 + 21 * 8) by lia|]. split.
  - simpl. unfold at_sp. rewrite H12. rewrite wrapu_small; lia.
  - simpl. by rewrite H13.
  - cbn [restored x86]. intros r v [[= -> ->]|(i & r' & [= -> ->] & Hi)%elem_of_lookup_imap_1]%elem_of_cons; simpl rf.
    + rewrite H14, H10. f_equal. change (frame_size x86) with 176. lia.
    + assert (r' ≠ SP ∧ r' ≠ FLAGS) as [Hr1 Hr2].
      { apply list_elem_of_lookup_2 in Hi. split; intros ->; revert Hi; by_decide. }
      rewrite decide_False by done. rewrite H15, (H11 i r' Hi), H8 by done. done.
Qed.

Lemma x86_ok : trampoline_ok x86.
Proof.
  intros flags_of callee s Hsp. change (frame_size x86) with 176 in *.
  destruct (x86_enter flags_of s Hsp) as (H1 & H2 & H3).
  pose proof (x86_exec flags_of callee s) as He. cbv zeta in He.
  revert H1 H2 H3 He. generalize (run flags_of x86_pre s). intros s1 H1 H2 H3 He.
  assert (length (reverse x86_regs) = 15%nat) as Hlen by done. assert (SP ∉ reverse x86_regs) as Hl by by_decide.
  assert (∀ i, reverse x86_regs !! i = if decide (i < 15)%nat then x86_regs !! (14 - i)%nat else None) as Hrev.
  { intros i. case_decide; [rewrite reverse_lookup by (by change (length x86_regs) with 15%nat); f_equal; change (length x86_regs) with 15%nat; lia|].
    apply lookup_ge_None_2. rewrite Hlen. lia. }
  revert Hlen Hl Hrev He. generalize (reverse x86_regs). intros l Hlen Hl Hrev He.
  destruct (pushes_spec flags_of l s1 ltac:(rewrite Hlen, H1; lia) Hl) as (H4 & H5 & H6 & H7). rewrite Hlen, H1 in *.
  revert H4 H5 H6 H7 He. generalize (run flags_of (Push <$> l) s1). intros s2 H4 H5 H6 H7 He. set (before := set_rf s2 X86T.rdi (rf s2 SP)) in *.
  assert (mm before = mm s2) as Hmm by done.
  exists before. split.
  - assert (∀ a, ¬ (rf s SP - 176 ≤ a < rf s SP - 56) → mm before a = mm s1 a) as H9.
    { intros a Ha. rewrite Hmm. apply H7. lia. }
    split; change (frame_size x86) with 176.
    + assert (rf before SP = rf s2 SP) as -> by done. lia.
    + assert (rf before (arg_reg x86) = rf s2 SP) as -> by done. lia.
    + intros off v [Hv|(i & r & [= -> ->] & Hi)%elem_of_lookup_imap_1]%elem_of_app.
      * repeat (apply elem_of_cons in Hv as [[= -> ->]|Hv];
          [rewrite H9, H3 by lia; repeat (rewrite decide_False by lia); by rewrite decide_True by lia|]).
        by apply not_elem_of_nil in Hv.
      * rewrite Hmm. pose proof (lookup_lt_Some _ _ _ Hi) as Hlt. change (length x86_regs) with 15%nat in Hlt.
        assert (l !! (14 - i)%nat = Some r) as Hr by (rewrite Hrev, decide_True by lia; by replace (14 - (14 - i))%nat with i by lia).
        pose proof (H6 _ _ Hr) as H10. replace (rf s SP - 56 - 8 * (Z.of_nat (14 - i) + 1)) with (rf s SP - 176 + 8 * Z.of_nat i) in H10 by lia.
        rewrite H10. apply list_elem_of_lookup_2 in Hi.
        apply H2; intros ->; revert Hi; by_decide.
    + intros a Ha. rewrite H9, H3 by lia. by rewrite !decide_False by lia.
  - destruct (callee before) as [s3|] eqn:Hc; [|by rewrite He]. intros H8. cbv zeta. change (frame_size x86) with 176 in *.
    destruct (x86_returned flags_of s s3 Hsp) as [Hret Hleft]; [lia|].
    eexists. split; [|exact Hleft]. rewrite He. cbn [mbind option_bind]. cbv zeta in Hret. by rewrite Hret.
Qed.
