(* ===== verification/RetprobeTramp.v ===== *)
(** The return of a probed function, end to end: the trampoline's program
    around [arch_rethook_trampoline_callback], on the four architectures. *)
From S2P Require Import Prelude Text KprobeBase KprobeArch KprobeRv64 KprobeAArch64 KprobeLA64 KprobeX86 Kprobe Retprobe RetprobeProps KprobeTramp KprobeTrampProps.

(** ** The frame as registers *)

(** [regs_of] reads [PtRegs] from the words of a frame, [words_of] gives the
    words of [PtRegs] in the order of its fields, an array at its length.  [frame_name] is the value
    that names the activation a return ends, [kept] the registers that a
    return leaves alone. *)
Class TrampRegs (R : Type) `{Rethook R} := {
  contract : Contract;
  result_reg : nat;
  regs_of : (nat → Z) → R;
  words_of : R → list Z;
  frame_name : mstate → Z;
  kept : list nat;
}.

(** Memory after a callback: the words of the registers at [ptr], and what
    the callback wrote elsewhere. *)
Definition after_callback (ptr : Z) (ws : list Z) (m : words) (old : Z → Z) (a : Z) : Z :=
  match (if (ptr <=? a) && ((a - ptr) mod 8 =? 0) then ws !! Z.to_nat ((a - ptr) / 8) else None) with
  | Some x => x
  | None => default (old a) (m !! a)
  end.

Section callback.
Context `{BuildMode} {S R U : Type} `{TrampRegs R} (unit_user : U) (trampoline : Z).

(** The call of [arch_rethook_trampoline_callback] as a step of the machine:
    any register but the stack pointer and the result may change. *)
Definition callback_step (s : Rstate S R U) (junk : nat → Z) (m : mstate) : option mstate :=
  let ptr := rf m (arg_reg contract) in
  match arch_rethook_trampoline_callback unit_user trampoline (upd_memory s ∅) (regs_of (λ k, mm m (ptr + 8 * Z.of_nat k))) ptr with
  | Ok (ret, (s', r)) =>
      Some {| rf := λ x, if decide (x = SP) then rf m SP else if decide (x = result_reg) then ret else junk x;
              mm := after_callback ptr (words_of r) (memory s') (mm m) |}
  | _ => None
  end.
End callback.

#[export] Instance Rv64_tramp : TrampRegs Rv64.PtRegs := {|
  contract := rv64;
  result_reg := Rv64T.a0;
  regs_of w := Rv64.Build_PtRegs (w 0%nat) (w 1%nat) (w 2%nat) (w 3%nat) (w 4%nat) (w 5%nat) (w 6%nat) (w 7%nat) (w 8%nat)
    (w 9%nat) (w 10%nat) (w 11%nat) (w 12%nat) (w 13%nat) (w 14%nat) (w 15%nat) (w 16%nat) (w 17%nat) (w 18%nat) (w 19%nat)
    (w 20%nat) (w 21%nat) (w 22%nat) (w 23%nat) (w 24%nat) (w 25%nat) (w 26%nat) (w 27%nat) (w 28%nat) (w 29%nat) (w 30%nat)
    (w 31%nat) (w 32%nat) (w 33%nat) (w 34%nat) (w 35%nat);
  words_of r := let '(Rv64.Build_PtRegs w0 w1 w2 w3 w4 w5 w6 w7 w8 w9 w10 w11 w12 w13 w14 w15 w16 w17 w18 w19 w20 w21 w22 w23
      w24 w25 w26 w27 w28 w29 w30 w31 w32 w33 w34 w35) := r in
    [w0; w1; w2; w3; w4; w5; w6; w7; w8; w9; w10; w11; w12; w13; w14; w15; w16; w17; w18; w19; w20; w21; w22; w23; w24; w25; w26;
     w27; w28; w29; w30; w31; w32; w33; w34; w35];
  frame_name s := rf s Rv64T.s0;
  kept := seq 3 29;
|}.
#[export] Instance LA64_tramp : TrampRegs LA64.PtRegs := {|
  contract := la64;
  result_reg := LA64T.a0;
  regs_of w := LA64.Build_PtRegs (w <$> seq 0 32) (w 32%nat) (w 33%nat) (w 34%nat) (w 35%nat) (w 36%nat) (w 37%nat) (w 38%nat) (w 39%nat);
  words_of r := resize 32 0 (LA64.regs r) ++ [LA64.orig_a0 r; LA64.csr_era r; LA64.csr_badvaddr r; LA64.csr_crmd r; LA64.csr_prmd r;
    LA64.csr_euen r; LA64.csr_ecfg r; LA64.csr_estat r];
  frame_name s := 0;
  kept := 2%nat :: seq 4 28;
|}.
(** The last word of the AArch64 registers holds an [i32] and a [u32]. *)
#[export] Instance AArch64_tramp : TrampRegs AArch64.PtRegs := {|
  contract := aarch64;
  result_reg := 0%nat;
  regs_of w := AArch64.Build_PtRegs (w <$> seq 0 31) (w 31%nat) (w 32%nat) (w 33%nat) (w 34%nat) (wraps 32 (w 35%nat)) (Z.shiftr (w 35%nat) 32);
  words_of r := resize 31 0 (AArch64.regs r) ++ [AArch64.sp r; AArch64.pc r; AArch64.pstate r; AArch64.orig_x0 r;
    wrapu 32 (AArch64.syscallno r) + Z.shiftl (AArch64.unused2 r) 32];
  frame_name s := rf s 29%nat;
  kept := seq 0 30;
|}.
#[export] Instance X86_tramp : TrampRegs X86.PtRegs := {|
  contract := x86;
  result_reg := X86T.rax;
  regs_of w := X86.Build_PtRegs (w 0%nat) (w 1%nat) (w 2%nat) (w 3%nat) (w 4%nat) (w 5%nat) (w 6%nat) (w 7%nat) (w 8%nat) (w 9%nat)
    (w 10%nat) (w 11%nat) (w 12%nat) (w 13%nat) (w 14%nat) (w 15%nat) (w 16%nat) (w 17%nat) (w 18%nat) (w 19%nat) (w 20%nat);
  words_of r := [X86.r15 r; X86.r14 r; X86.r13 r; X86.r12 r; X86.rbp r; X86.rbx r; X86.r11 r; X86.r10 r; X86.r9 r; X86.r8 r;
    X86.rax r; X86.rcx r; X86.rdx r; X86.rsi r; X86.rdi r; X86.orig_rax r; X86.rip r; X86.cs r; X86.rflags r; X86.rsp r; X86.ss r];
  frame_name s := rf s SP - 8;
  kept := FLAGS :: x86_regs;
|}.

(** ** The laws of a frame *)
Class TrampLaws (R : Type) `{TrampRegs R} : Prop := {
  tl_contract : trampoline_ok contract;
  tl_result : result_reg ≠ SP;
  tl_words r : 8 * Z.of_nat (length (words_of r)) ≤ frame_size contract;
  (* the fix-up stays in the frame, and is where the program returns to *)
  tl_fixup ptr m r ret a : (rethook_fixup_return ptr m r ret).1 !! a ≠ m !! a → ptr ≤ a < ptr + frame_size contract;
  tl_target ptr m r r' ret s2 old : rf s2 result_reg = ret →
    target contract s2 (λ off, after_callback ptr (words_of r') (rethook_fixup_return ptr m r ret).1 old (ptr + off)) = ret;
  (* the callback finds the activation, and loads back what was saved *)
  tl_frame `{BuildMode} t s w : frame_size contract ≤ rf s SP < 2 ^ 64 → let ptr := rf s SP - frame_size contract in
    (∀ k v, (8 * Z.of_nat k, v) ∈ saved contract s → w k = v) →
    ∃ r', rethook_enter t (regs_of w) ptr = Ok (r', frame_name s) ∧
      ∀ m ret old x, x ∈ kept →
        let fixed := rethook_fixup_return ptr m r' ret in
        (x, rf s x) ∈ restored contract (λ off, after_callback ptr (words_of (rethook_leave fixed.2)) fixed.1 old (ptr + off)) ret;
}.

Lemma after_callback_word ptr ws m old k x : ws !! k = Some x → after_callback ptr ws m old (ptr + 8 * Z.of_nat k) = x.
Proof.
  intros Hk. unfold after_callback. rewrite (proj2 (Z.leb_le _ _)) by lia.
  replace (ptr + 8 * Z.of_nat k - ptr) with (Z.of_nat k * 8) by lia.
  by rewrite Z.mod_mul, Z.eqb_refl, Z.div_mul, Nat2Z.id, Hk by lia.
Qed.

Lemma after_callback_none ptr ws m old a :
  ¬ (ptr ≤ a < ptr + 8 * Z.of_nat (length ws)) → after_callback ptr ws m old a = default (old a) (m !! a).
Proof.
  intros Ha. unfold after_callback. destruct (Z.leb_spec ptr a); [|done]. simpl.
  destruct (_ =? 0); [|done]. rewrite lookup_ge_None_2; [done|].
  apply Nat2Z.inj_le. rewrite Z2Nat.id by (apply Z.div_pos; lia). apply Z.div_le_lower_bound; lia.
Qed.

(** *** The registers after the callback *)
Definition keeps_regs {S R U} (p : Retprobe S R U) : Prop :=
  (∀ h u sr, rp_ret_handler p = Some h → (h u sr).2 = sr.2) ∧ Forall (λ kc, ∀ sr, (kc.2 sr).2 = sr.2) (rp_event_callbacks p).

Section returning.
Context `{BuildMode} {S R U : Type} `{TrampLaws R} (unit_user : U) (trampoline : Z).

Lemma callbacks_keep (l : list (Z * CallBackFunc S R)) (sr : S * R) :
  Forall (λ kc, ∀ sr, (kc.2 sr).2 = sr.2) l → (foldl (λ sr kc, kc.2 sr) sr l).2 = sr.2.
Proof.
  revert sr. induction l as [|kc l IH]; intros sr Hl; simpl; [done|]. apply Forall_cons in Hl as [Hk Hl]. by rewrite IH, Hk.
Qed.

Lemma call_user_keeps (h : option (ProbeHandler S R U)) u (s : Rstate S R U) r :
  (∀ f u sr, h = Some f → (f u sr).2 = sr.2) →
  ∃ e r', call_user unit_user h u s r = (upd_ext s e, r') ∧ r' = r.
Proof.
  intros Hh. unfold call_user, call_handler. destruct h as [f|].
  - pose proof (Hh f (default unit_user u) (ext s, r) eq_refl) as He. destruct (f _ _) as [e r']. by exists e, r'.
  - by exists (ext s), r.
Qed.

(** The callback of a frame's activation, up to the fix-up. *)
Lemma callback_regs (s : Rstate S R U) r ptr i t q p d r' :
  task s = i :: t → rethook_enter trampoline r ptr = Ok (r', frame i) →
  retprobe i = Some q → retprobes s !! q = Some p → datas s !! rp_data p = Some d →
  ∃ s' r2, arch_rethook_trampoline_callback unit_user trampoline s r ptr =
      Ok (ret_addr i, (s', rethook_leave (rethook_fixup_return ptr (memory s) r2 (ret_addr i)).2)) ∧
    memory s' = (rethook_fixup_return ptr (memory s) r2 (ret_addr i)).1 ∧ (keeps_regs p → r2 = r').
Proof.
  intros Ht Hent Hq Hp Hd. unfold arch_rethook_trampoline_callback. rewrite Hent. cbn [mbind res_bind].
  unfold rethook_trampoline_handler, pop_kretprobe_instance_from_task. rewrite Ht. cbn [mbind res_bind].
  rewrite Z.eqb_refl. cbn [negb]. rewrite Hq. cbn [unwrap mbind res_bind retprobes upd_task]. rewrite Hp. cbn [unwrap mbind res_bind].
  set (s1 := upd_task s t).
  destruct (call_user_spec unit_user (rp_ret_handler p) (user_data i) s1 r') as (e & r2 & He). rewrite He.
  pose proof (callbacks_keep (rp_event_callbacks p) (ext (upd_ext s1 e), r2)) as Hk.
  destruct (foldl _ _ _) as [e' r3]. cbn [datas upd_ext]. change (datas s1) with (datas s). rewrite Hd.
  cbn [unwrap mbind res_bind]. change (memory (upd_data _ _ _)) with (memory s).
  exists (upd_memory (upd_data (upd_ext (upd_ext s1 e) e') (rp_data p)
    {| free_instances := free_instances d ++ [i]; data_retprobe := data_retprobe d |})
    (rethook_fixup_return ptr (memory s) r3 (ret_addr i)).1), r3.
  split; [by destruct (rethook_fixup_return _ _ _ _)|]. split; [done|]. intros [Hh Hc].
  specialize (Hk Hc). simpl in Hk. subst r3.
  destruct (call_user_keeps (rp_ret_handler p) (user_data i) s1 r') as (e2 & r4 & He2 & ->); [|congruence].
  intros f u sr Hf. by apply Hh.
Qed.

(** *** The return *)

(** With the activation on top of the task's stack, the program runs to its
    end around the callback. *)
Lemma trampoline_returns flags_of junk (s : Rstate S R U) m i t q p d :
  frame_size contract ≤ rf m SP < 2 ^ 64 →
  task s = i :: t → frame i = frame_name m →
  retprobe i = Some q → retprobes s !! q = Some p → datas s !! rp_data p = Some d →
  ∃ m', exec flags_of (callback_step unit_user trampoline s junk) (prog contract) m = Some (ret_addr i, m') ∧
    rf m' SP = rf m SP ∧
    (keeps_regs p → ∀ x, x ∈ kept → rf m' x = rf m x) ∧
    ∀ a, ¬ (rf m SP - frame_size contract ≤ a < rf m SP) → mm m' a = mm m a.
Proof.
  intros Hsp Ht Hf Hq Hp Hd.
  set (step := callback_step unit_user trampoline s junk).
  destruct (tl_contract flags_of step m Hsp) as (before & [Hb1 Hb2 Hb3 Hb4] & Hrun).
  set (ptr := rf m SP - frame_size contract) in *.
  destruct (tl_frame trampoline m (λ k, mm before (ptr + 8 * Z.of_nat k)) Hsp) as (r' & Hent & Hback).
  { intros k v Hv. by apply Hb3. }
  rewrite <- Hf in Hent.
  destruct (callback_regs (upd_memory s ∅) _ ptr i t q p d r' Ht Hent Hq Hp Hd) as (s' & r2 & Hcb & Hmem & Hkeep).
  change (memory (upd_memory s ∅)) with (∅ : words) in *.
  set (ws := words_of (rethook_leave (rethook_fixup_return ptr ∅ r2 (ret_addr i)).2)) in *.
  set (m2 := {| rf := λ x, if decide (x = SP) then rf before SP else if decide (x = result_reg) then ret_addr i else junk x;
                mm := after_callback ptr ws (memory s') (mm before) |}).
  assert (step before = Some m2) as Hstep by (unfold step, callback_step; rewrite Hb2, Hcb; done).
  rewrite Hstep in Hrun.
  assert (rf m2 SP = ptr) as Hsp2 by (simpl; by rewrite Hb1).
  assert (rf m2 result_reg = ret_addr i) as Hres.
  { pose proof tl_result. unfold m2. cbn [rf]. rewrite decide_False by done. by rewrite decide_True. }
  destruct (Hrun Hsp2) as (m' & Hex & [Hl1 Hl2 Hl3]).
  assert (target contract m2 (λ off, mm m2 (ptr + off)) = ret_addr i) as Htgt.
  { unfold m2 at 2. cbn [mm]. rewrite Hmem. by apply tl_target. }
  cbv zeta in Hex, Hl3. rewrite Htgt in *.
  exists m'. split_and!; [done|done| |].
  - intros Hk x Hx. apply Hl3. specialize (Hback ∅ (ret_addr i) (mm before) x Hx). cbv zeta in Hback. fold ptr in Hback.
    unfold m2, ws. cbn [mm]. rewrite Hmem. by rewrite (Hkeep Hk).
  - intros a Ha. rewrite Hl2. unfold m2. cbn [mm]. rewrite Hmem.
    rewrite after_callback_none by (pose proof (tl_words (rethook_leave (rethook_fixup_return ptr ∅ r2 (ret_addr i)).2)) as Hw; fold ws in Hw; lia).
    destruct (decide ((rethook_fixup_return ptr ∅ r2 (ret_addr i)).1 !! a = (∅ : words) !! a)) as [He|He].
    + rewrite He. apply Hb4. lia.
    + apply tl_fixup in He. lia.
Qed.
End returning.

(** ** The four architectures *)

Lemma elem_of_fmap_at {A B} (f : A → B) (l : list A) x y : x ∈ l → f x = y → y ∈ f <$> l.
Proof. intros Hx <-. by apply list_elem_of_fmap_2. Qed.

Lemma word_seq (w : nat → Z) n rest x v : (x < n)%nat → w x = v → ((w <$> seq 0 n) ++ rest) !! x = Some v.
Proof. intros Hx <-. rewrite lookup_app_l by (rewrite length_fmap, length_seq; lia). by rewrite list_lookup_fmap, lookup_seq_lt. Qed.

#[export] Instance Rv64_tramp_laws : TrampLaws Rv64.PtRegs.
Proof.
  split; [exact rv64_ok|done|intros r; by destruct r|done|done|].
  intros ? t s w Hs ptr Hw. exists (regs_of w). split.
  - pose proof (Hw 8%nat (rf s Rv64T.s0)) as H8. unfold rethook_enter. simpl. unfold Rv64_enter. simpl. rewrite H8; [done|].
    right. eapply elem_of_fmap_at; [apply (elem_of_seq 3 29 8); lia|done].
  - intros m ret old x Hx. right. eapply elem_of_fmap_at; [exact Hx|]. cbv beta. f_equal. apply after_callback_word.
    change (words_of _) with ((w <$> seq 0 36) ++ []). apply elem_of_seq in Hx as Hx'. apply word_seq; [lia|].
    apply Hw. right. by eapply elem_of_fmap_at.
Qed.

#[export] Instance LA64_tramp_laws : TrampLaws LA64.PtRegs.
Proof.
  split; [exact la64_ok|done| |done|done|].
  { intros r. simpl. rewrite length_app, length_resize. simpl. unfold LA64T.LA64_pt_regs_size. lia. }
  intros ? t s w Hs ptr Hw. exists (regs_of w). split; [done|].
  intros m ret old x Hx. right. eapply elem_of_fmap_at; [exact Hx|]. cbv beta. f_equal. apply after_callback_word.
  change (words_of _) with ((w <$> seq 0 32) ++ (w <$> seq 32 8)).
  apply word_seq; [|apply Hw; right; eapply elem_of_fmap_at; [right; exact Hx|done]].
  apply elem_of_cons in Hx as [->|Hx%elem_of_seq]; lia.
Qed.

#[export] Instance AArch64_tramp_laws : TrampLaws AArch64.PtRegs.
Proof.
  split; [exact aarch64_ok|done| |done|done|].
  { intros r. simpl. rewrite length_app, length_resize. simpl. unfold AArch64T.AArch64_pt_regs_size. lia. }
  intros ? t s w Hs ptr Hw.
  assert (∀ x, (x < 31)%nat → w x = rf s x) as Hwx.
  { intros x Hx. apply Hw. apply elem_of_app. right. eapply elem_of_fmap_at; [apply (elem_of_seq 0 31 x); lia|done]. }
  exists (regs_of w). split.
  - unfold rethook_enter. simpl. unfold AArch64_enter. simpl. by rewrite (Hwx 29%nat) by lia.
  - intros m ret old x Hx. apply elem_of_app. right. eapply elem_of_fmap_at; [exact Hx|]. cbv beta. f_equal. apply after_callback_word.
    apply elem_of_seq in Hx. assert (∀ rest, ((w <$> seq 0 31) ++ rest) !! x = Some (rf s x)) as Hr.
    { intros rest. apply word_seq; [lia|]. apply Hwx. lia. }
    apply Hr.
Qed.

#[export] Instance X86_tramp_laws : TrampLaws X86.PtRegs.
Proof.
  split; [exact x86_ok|done|intros r; by destruct r| | |].
  - intros ptr m r ret a Ha. destruct (decide (a = ptr + PT_REGS_SIZE)) as [->|Hne]; [unfold PT_REGS_SIZE; simpl; lia|].
    exfalso. apply Ha. by apply lookup_insert_ne.
  - intros ptr m r r' ret s2 old _. change (target contract s2) with (λ slot : Z → Z, slot (21 * 8)). cbv beta.
    rewrite after_callback_none by (destruct r'; simpl; lia).
    assert ((X86_fixup_return ptr m r ret).1 !! (ptr + 21 * 8) = Some ret) as Hat by (apply lookup_insert_eq).
    change (rethook_fixup_return ptr m r ret) with (X86_fixup_return ptr m r ret). by rewrite Hat.
  - intros ? t s w Hs ptr Hw. change (frame_size contract) with 176 in *. change (saved contract s) with (saved x86 s) in Hw.
    assert (w 18%nat = rf s FLAGS ∧ w 19%nat = rf s SP - 16) as [H18 H19] by (split; apply Hw; [left|right; left]).
    assert (∀ i x, x86_regs !! i = Some x → w i = rf s x) as Hwx.
    { intros i x Hi. apply Hw. apply elem_of_app. right. by apply (elem_of_lookup_imap_2 (λ i r, (8 * Z.of_nat i, rf s r))). }
    eexists. split.
    + unfold rethook_enter. simpl. unfold X86_enter. simpl. rewrite H19, arith_ok by lia. simpl. f_equal. f_equal.
      unfold PT_REGS_SIZE. lia.
    + intros m ret old x Hx. apply elem_of_cons in Hx as [->|[i Hi]%list_elem_of_lookup].
      * apply elem_of_cons. left. f_equal. symmetry. rewrite <- H18. by apply (after_callback_word ptr _ _ _ 20).
      * apply elem_of_cons. right. apply elem_of_lookup_imap. exists i, x. split; [|done]. f_equal. symmetry. apply after_callback_word.
        pose proof (lookup_lt_Some _ _ _ Hi) as Hlt. change (length x86_regs) with 15%nat in Hlt.
        assert (∀ rest, ((w <$> seq 0 15) ++ rest) !! i = Some (rf s x)) as Hr by (intros rest; apply word_seq; auto).
        apply Hr.
Qed.

(** ** A probed call *)

(** C9: a call of a function under a return probe, from the hit at its entry
    to the end of the trampoline, on each of the four architectures.  The
    pre-handler hooks the call, entered with registers [r]; later, with the
    call's activation on top of the task's stack again and its probe still
    registered, the function returns into the trampoline with its frame (the
    frame pointer, or on x86-64 the stack pointer above the return address).
    Then the trampoline's program runs to its end around the callback and
    goes to the address the function was called from; the stack pointer is
    what it was, memory outside the frame below it is untouched, and if the
    probe's handlers leave the registers alone so are the registers that
    carry results and those that the caller keeps. *)
Theorem probed_call_returns `{BuildMode} {S R U : Type} `{TrampLaws R} `{!RethookLaws R} (unit_user : U) trampoline
    flags_of junk (s s1 s2 : Rstate S R U) min r r1 data d d2 a m :
  pools_ok s → datas s !! data = Some d → free_instances d ≠ [] → caller min r = Some a →
  pre_handler_kretprobe unit_user trampoline data (upd_memory s min, r) = Ok (s1, r1) →
  task s2 = task s1 → (∀ q, owner s2 q = owner s1 q) → datas s2 !! data = Some d2 →
  frame_of r = Some (frame_name m) → frame_size contract ≤ rf m SP < 2 ^ 64 →
  ∃ m', exec flags_of (callback_step unit_user trampoline s2 junk) (prog contract) m = Some (a, m') ∧
    rf m' SP = rf m SP ∧
    ((∀ q p, retprobes s2 !! q = Some p → rp_data p = data → keeps_regs p) → ∀ x, x ∈ kept → rf m' x = rf m x) ∧
    ∀ x, ¬ (rf m SP - frame_size contract ≤ x < rf m SP) → mm m' x = mm m x.
Proof.
  intros Hok Hd Hf Ha Hpre Ht Ho Hd2 Hfr Hsp.
  destruct (enter_hooked unit_user trampoline s min r data d a (frame_name m) Hok Hd Hf Ha Hfr)
    as (s' & r' & i & l & q & Hpre' & _ & Ht' & Hret & Hframe & Hq & How & _).
  rewrite Hpre in Hpre'. injection Hpre' as <- <-. rewrite <- Ho in How.
  unfold owner in How. apply fmap_Some in How as (p & Hp & Hpd). rewrite Hpd in Hd2.
  destruct (trampoline_returns unit_user trampoline flags_of junk s2 m i (task s) q p d2) as (m' & He & Hr & Hk & Hm);
    [done|congruence|done|done|done|done|].
  exists m'. rewrite Hret in He. split_and!; [done|done| |done]. intros Hkeep. by eapply Hk, Hkeep.
Qed.

(** ** What the handlers do not see *)

(** RISC-V: the trampoline fills in no stack pointer, so a handler that reads
    [PtRegs::sp] reads what the stack held. *)
Definition read_sp (m : mstate) : option mstate := Some (set_rf m Rv64T.a0 (mm m (rf m Rv64T.a0 + 16))).
Lemma rv64_sp_stale (v : Z) :
  fst <$> exec (λ _ _, 0) read_sp (prog rv64) {| rf := λ _, 4096; mm := λ _, v |} = Some v.
Proof. by vm_compute. Qed.
Lemma la64_sp_saved (v : Z) :
  fst <$> exec (λ _ _, 0) (λ m, Some (set_rf m LA64T.a0 (mm m (rf m LA64T.a0 + 24)))) (prog la64) {| rf := λ _, 4096; mm := λ _, v |} = Some 4096.
Proof. by vm_compute. Qed.

(** *** A call at a concrete state *)
Definition one_probe : Retprobe () X86.PtRegs () :=
  {| rp_data := 7; nmissed := 0; rp_entry_handler := None; rp_ret_handler := Some (λ _ sr, sr); rp_event_callbacks := [] |}.
Definition idle : Rstate () X86.PtRegs () :=
  {| ext := (); task := []; memory := ∅;
     datas := {[ 7 := {| free_instances := make_instances 1 []; data_retprobe := Some 3 |} ]}; retprobes := {[ 3 := one_probe ]} |}.
Lemma idle_ok : pools_ok idle.
Proof. intros data d Hd. simpl in Hd. apply lookup_singleton_Some in Hd as [<- <-]. by eexists _, _. Qed.
(** Called from 4660, with the stack at 4088. *)
Definition stack : words := {[ 4088 := 4660 ]}.
Definition at_entry : X86.PtRegs := X86.Build_PtRegs 0 0 0 0 0 0 0 0 0 0 0 0 0 0 0 0 0 0 0 4088 0.
Definition hooked : Rstate () X86.PtRegs () :=
  match pre_handler_kretprobe () 9000 7 (upd_memory idle stack, at_entry) with Ok (s, _) => s | _ => idle end.
Definition at_return : mstate := {| rf := λ r, if decide (r = SP) then 4096 else Z.of_nat r; mm := λ _, 0 |}.

Lemma probed_call_returns_witness : let BM : BuildMode := true in
  ∃ m', exec (λ _ _, 0) (callback_step () 9000 hooked (λ _, 1)) (prog (contract (R := X86.PtRegs))) at_return = Some (4660, m') ∧
    rf m' SP = 4096 ∧ rf m' X86T.rbx = 3.
Proof.
  intros BM.
  destruct (probed_call_returns () 9000 (λ _ _, 0) (λ _, 1) idle hooked hooked stack at_entry at_entry 7 _
    {| free_instances := []; data_retprobe := Some 3 |} 4660 at_return
    idle_ok
    eq_refl ltac:(done) eq_refl ltac:(by vm_compute) eq_refl ltac:(done) ltac:(by vm_compute) eq_refl ltac:(by vm_compute))
    as (m' & He & Hsp & Hk & _).
  exists m'. split_and!; [exact He|exact Hsp|]. apply Hk; [|by right; apply (bool_decide_unpack _); vm_compute].
  intros q p Hp _. change (retprobes hooked) with (retprobes idle) in Hp. simpl in Hp. apply lookup_singleton_Some in Hp as [_ <-]. split; [|by constructor]. intros h u sr [= <-]. done.
Defined.
