(* ===== verification/FilterTest.v ===== *)
(** The unit tests of tp-lexer/src/lib.rs, run on the model: filters over a
    map of strings and over event buffers, and the errors of compilation. *)
From S2P Require Import Prelude Text IntLit Lexer Parser Glob Eval.

Section tests.
Context `{BuildMode}.

Definition assert (b : bool) : res () () := if b then Ok () else Panic.
Definition compile (expr : str) (sch : Schema) : res () Compiled := map_err (λ _, ()) (compile_with_schema expr sch).
(** What [compiled.evaluate] gives on each context. *)
Definition on {C} `{Context C} (c : Compiled) (cases : list (C * bool)) : res () () :=
  assert (forallb (λ x, bool_decide (evaluate c x.1 = Ok x.2)) cases).
Definition row (l : list (string * string)) : MapContext := list_to_map ((λ x, (bs x.1, bs x.2)) <$> l).
Definition field (name : string) (t : FieldType) (offset len : Z) : Field :=
  {| fd_name := bs name; fd_type := t; fd_offset := offset; fd_len := len |}.
Definition int (p : Prim) : FieldType := FIELD_TYPE (RInt (TPrim p)).
(** [v] in a buffer of its own. *)
Definition buffered (sch : Schema) (t : ITy) (v : Z) : BufContext := {| buf := to_ne_bytes t v; bc_schema := sch |}.
Definition dq (x : string) : str := [34] ++ bs x ++ [34].

Definition schema_sig_comm_flags_user : Schema :=
  [field "sig" (int U32) 0 4; field "comm" Bytes 4 16; field "flags" (int I32) 20 4; field "user" Bytes 24 16].
Definition one (p : Prim) (name : string) : Schema := [field name (int p) 0 (prim_size p)].

Definition test_basic_parse_and_eval : res () () :=
  c ← compile (bs "((sig >= 10 && sig < 15) || sig == 17) && comm != bash") schema_sig_comm_flags_user;
  on c [(row [("sig", "12"); ("comm", "sh")], true);
        (row [("sig", "12"); ("comm", "bash")], false);
        (row [("sig", "17"); ("comm", "bash5")], true)]%string.

Definition test_hex_and_mask : res () () :=
  c ← compile (bs "flags & 0x10 == 0x10") schema_sig_comm_flags_user;
  on c [(row [("flags", "48")], true); (row [("flags", "32")], false)]%string.

Definition test_map_context_accepts_hex_integer_values : res () () :=
  c ← compile (bs "flags == 0x20") (one U32 "flags"); on c [(row [("flags", "0x20")], true)]%string.

Definition test_map_context_invalid_integer_fails_closed : res () () :=
  c ← compile (bs "flags == 16") (one U32 "flags");
  let ctx := row [("flags", "xyz")]%string in
  on c [(ctx, false)];;
  match try_evaluate c ctx with
  | Err e =>
      assert (bool_decide (ee_field e = bs "flags"));;
      assert (match ee_message e with ELit m => Text.contains m (bs "invalid integer literal") | _ => false end)
  | _ => Panic
  end.

Definition test_negative_decimal_literal : res () () :=
  c ← compile (bs "v == -1") (one I64 "v"); on c [(buffered (one I64 "v") (TPrim I64) (-1), true)].
Definition test_unary_minus_with_parenthesized_hex_literal : res () () :=
  c ← compile (bs "v == -(0x10)") (one I64 "v"); on c [(buffered (one I64 "v") (TPrim I64) (-16), true)].

Definition test_glob_match_primitives : res () () :=
  assert (forallb (λ x, bool_decide (glob_match_bytes (bs x.1.1) (bs x.1.2) = Ok x.2))
    [("bash*", "bash", true); ("bash*", "bash123", true); ("b?sh", "bash", true);
     ("b[ae]sh", "bash", true); ("b[!a]sh", "bash", false); ("b[^a]sh", "bash", false)]%string).

Definition test_string_glob_expr : res () () :=
  c ← compile (bs "comm ~ bash*") schema_sig_comm_flags_user;
  on c [(row [("comm", "bashXYZ")], true); (row [("comm", "sh")], false)]%string.
Definition test_string_equality_literal_star : res () () :=
  c ← compile (bs "comm == bash*") schema_sig_comm_flags_user;
  on c [(row [("comm", "bash*")], true); (row [("comm", "bashXYZ")], false)]%string.
Definition test_string_with_quotes_and_spaces : res () () :=
  c ← compile (bs "comm == " ++ dq "C Program") schema_sig_comm_flags_user;
  on c [(row [("comm", "C Program")], true)]%string.

Definition test_runtime_missing_field_unknown_semantics : res () () :=
  let sch := schema_sig_comm_flags_user in
  compiled1 ← compile (bs "user == root") sch;
  compiled2 ← compile (bs "user == root || sig == 17") sch;
  compiled3 ← compile (bs "user == root && sig == 17") sch;
  on compiled1 [(row [], true)];;
  let ctx := row [("sig", "17")]%string in
  on compiled2 [(ctx, true)];; on compiled3 [(ctx, true)].

Definition test_precedence_and_grouping : res () () :=
  let sch := schema_sig_comm_flags_user in
  c1 ← compile (bs "sig == 1 || sig == 2 && comm == bash") sch;
  c2 ← compile (bs "(sig == 1 || sig == 2) && comm == bash") sch;
  let sh := row [("sig", "2"); ("comm", "sh")]%string in let bash := row [("sig", "2"); ("comm", "bash")]%string in
  on c1 [(sh, false); (bash, true)];; on c2 [(sh, false); (bash, true)].

Definition test_leading_trailing_whitespace : res () () :=
  c ← compile (bs "  comm   !=   bash   ") schema_sig_comm_flags_user;
  on c [(row [("comm", "zsh")], true); (row [("comm", "bash")], false)]%string.

Definition test_numeric_eq_ne : res () () :=
  eq ← compile (bs "sig == 10") (one U32 "sig");
  ne ← compile (bs "sig != 10") (one U32 "sig");
  let ten := row [("sig", "10")]%string in let eleven := row [("sig", "11")]%string in
  on eq [(ten, true); (eleven, false)];; on ne [(ten, false); (eleven, true)].

Definition test_numeric_lt_le_gt_ge : res () () :=
  lt ← compile (bs "v < 5") (one U32 "v");
  le ← compile (bs "v <= 5") (one U32 "v");
  gt ← compile (bs "v > 5") (one U32 "v");
  ge ← compile (bs "v >= 5") (one U32 "v");
  let v x := row [("v", x)]%string in
  on lt [(v "5", false); (v "4", true); (v "6", false)]%string;;
  on le [(v "5", true); (v "4", true); (v "6", false)]%string;;
  on gt [(v "5", false); (v "4", false); (v "6", true)]%string;;
  on ge [(v "5", true); (v "4", false); (v "6", true)]%string.

Definition test_numeric_mask_ne : res () () :=
  cmp ← compile (bs "flags & 0x10 != 0x10") (one I32 "flags");
  on cmp [(row [("flags", "48")], false); (row [("flags", "32")], true)]%string.

Definition test_string_eq_ne_ops : res () () :=
  let sch := [field "comm" Bytes 0 16] in
  eq ← compile (bs "comm == bash") sch;
  ne ← compile (bs "comm != bash") sch;
  let bash := row [("comm", "bash")]%string in let zsh := row [("comm", "zsh")]%string in
  on eq [(bash, true); (zsh, false)];; on ne [(bash, false); (zsh, true)].

(** [expr] is refused with this message. *)
Definition refused (expr : str) (sch : Schema) (f : PMsg → bool) : res () () :=
  match compile_with_schema expr sch with Err e => assert (f (pe_message e)) | _ => Panic end.
Definition not_string (m : PMsg) : bool := match m with PNotString _ => true | _ => false end.

Definition test_type_mismatch_compile_error : res () () :=
  refused (bs "sig == " ++ dq "17") schema_sig_comm_flags_user not_string.
Definition test_compile_error_string_field_numeric_ops : res () () :=
  refused (bs "comm < 5") [field "comm" Bytes 0 16] (λ m, match m with PNotNumeric _ => true | _ => false end).
Definition test_compile_error_numeric_field_string_glob : res () () := refused (bs "sig ~ bash*") (one U32 "sig") not_string.
Definition test_compile_error_unsupported_f32_field : res () () :=
  refused (bs "v == 1") [field "v" (FIELD_TYPE RF32) 0 4] (λ m, match m with PUnsupported _ => true | _ => false end).
Definition test_compile_error_integer_length_mismatch : res () () :=
  refused (bs "v == 1") [field "v" (int U32) 0 1] (λ m, match m with PWidth _ 1 4 => true | _ => false end).

(** A comparison with a stored integer of type [t]. *)
Definition stored (expr : string) (t : ITy) (v : Z) : res () () :=
  let sch := [field "v" (FIELD_TYPE (RInt t)) 0 (size_of t)] in
  c ← compile (bs expr) sch; on c [(buffered sch t v, true)].
(** The tests of 128-bit, pointer-sized and non-zero integers, with their
    values. *)
Definition test_integer_values : list (res () ()) := [
  stored "v == 42" (TPrim U64) 42;
  stored "v == 7" (TPrim U128) (Z.lor (Z.shiftl 1 80) 7);
  stored "v == 5" (TPrim I128) (Z.lor (Z.shiftl 1 80) 5);
  stored "v == 9" (TNonZero U128) (Z.lor (Z.shiftl 1 96) 9);
  stored "v == 11" (TNonZero I128) (Z.lor (Z.shiftl 1 96) 11);
  stored "v == 42" (TPrim Usize) 42;
  stored "v == 17" (TNonZero Usize) 17;
  stored "v == 42" (TPrim Isize) 42;
  stored "v == 19" (TNonZero Isize) 19;
  stored "v == 23" (TNonZero U64) 23 ].
End tests.

(** Every test passes. *)
Lemma filter_tests_pass : let _ : BuildMode := true in
  Forall (λ t, t = Ok ()) (test_integer_values ++ [
    test_basic_parse_and_eval; test_hex_and_mask; test_map_context_accepts_hex_integer_values;
    test_map_context_invalid_integer_fails_closed; test_negative_decimal_literal;
    test_unary_minus_with_parenthesized_hex_literal; test_glob_match_primitives; test_string_glob_expr;
    test_string_equality_literal_star; test_string_with_quotes_and_spaces; test_runtime_missing_field_unknown_semantics;
    test_precedence_and_grouping; test_leading_trailing_whitespace; test_numeric_eq_ne; test_numeric_lt_le_gt_ge;
    test_numeric_mask_ne; test_string_eq_ne_ops; test_type_mismatch_compile_error; test_compile_error_string_field_numeric_ops;
    test_compile_error_numeric_field_string_glob; test_compile_error_unsupported_f32_field;
    test_compile_error_integer_length_mismatch ]).
Proof. intros b. repeat (apply Forall_cons; split; [vm_compute; reflexivity|]). by apply Forall_nil. Qed.
