(* ===== verification/MapTest.v ===== *)
(** The unit tests of the BPF maps (bpf-basic/src/map: array.rs, queue.rs,
    lru.rs, hash.rs and mod.rs), run on the model. *)
From S2P Require Import Prelude BpfBase RingMem RingBuf Maps Unified MapProps.

(** [DummyPerCpuCreator]: a vector of one element, as [num_cpus] says;
    [DummyPerCpuCreatorFalse] creates nothing. *)
Definition DummyPerCpuCreator : PerCpuVariantsOps := {|
  PC T := T;
  pc_create T v := Some v;
  pc_num_cpus := 1;
  pc_get T p c := p;
  pc_set T p c v := v;
  pc_force_get T p c := if c =? 0 then Some p else None;
|}.
Definition DummyPerCpuCreatorFalse : PerCpuVariantsOps := {|
  PC T := T;
  pc_create T v := None;
  pc_num_cpus := 0;
  pc_get T p c := p;
  pc_set T p c v := v;
  pc_force_get T p c := None;
|}.

Section tests.
Context `{BuildMode}.

(** [assert_eq!] on what a call returns; a call that fails leaves the map. *)
Definition returns {A} `{EqDecision A} (r : BpfResult A) (x : BpfResult A) : BpfResult () :=
  if bool_decide (r = x) then Ok () else Panic.
Definition value_of {A M} (r : BpfResult (A * M)) : BpfResult A := fst <$> r.
Definition state_of {A M} (r : BpfResult (A * M)) : BpfResult M := snd <$> r.
Definition outcome_of {M} (r : BpfResult M) : BpfResult () := (λ _, ()) <$> r.

Definition callback : Callback () := λ _ _ s, (0, s).
Definition callback_fail : Callback () := λ key _ s, (if bool_decide (key = bs "3") then -1 else 0, s).
Definition meta (ks vs n : Z) : BpfMapMeta :=
  {| map_type := BPF_MAP_TYPE_UNSPEC; key_size := ks; value_size := vs; max_entries := n; map_flags := 0; map_name := [] |}.

Definition test_perf_event_array_validation : BpfResult () :=
  map ← PerfEventArrayMap_new (meta 4 4 2) 2;
  returns (value_of (lookup_elem map [0; 0])) (Err EINVAL);;
  returns (value_of (lookup_elem map (le_enc 4 2))) (Err EINVAL);;
  returns (outcome_of (update_elem map (le_enc 4 0) [1; 2; 3] 0)) (Err EINVAL);;
  returns (value_of (for_each_elem () map callback () 1)) (Err EINVAL).

Definition test_queue_validation : BpfResult () :=
  queue ← QueueMap_new (meta 0 4 2);
  returns (outcome_of (update_elem queue (bs "x") (bs "abcd") 0)) (Err EINVAL);;
  returns (outcome_of (update_elem queue [] (bs "abc") 0)) (Err EINVAL);;
  returns (outcome_of (update_elem queue [] (bs "abcd") 8)) (Err EINVAL);;
  queue ← update_elem queue [] (bs "abcd") 0;
  returns (peek_elem queue [0; 0; 0]) (Err EINVAL).

Definition test_hash_map_flags_and_next_key : BpfResult () :=
  map ← BpfHashMap_new (meta 1 4 2);
  map ← update_elem map (bs "1") (bs "aaa1") BPF_NOEXIST;
  returns (outcome_of (update_elem map (bs "1") (bs "aaa2") BPF_NOEXIST)) (Err EEXIST);;
  returns (outcome_of (update_elem map (bs "2") (bs "bbb2") BPF_EXISTS)) (Err ENOENT);;
  map ← update_elem map (bs "2") (bs "bbb2") 0;
  returns (outcome_of (update_elem map (bs "3") (bs "ccc3") 0)) (Err ENOMEM);;
  returns (get_next_key map (Some (bs "9")) [0]) (Ok (bs "1")).

(** On any map object ([&mut dyn BpfMapCommonOps]). *)
Definition test_common_lru {M} `{BpfMapCommonOps M} (m : M) : BpfResult () :=
  returns (value_of (lookup_elem m [])) (Err EINVAL);;
  m ← update_elem m (bs "1") (bs "val1") 0;
  m ← update_elem m (bs "2") (bs "val2") 0;
  m ← update_elem m (bs "3") (bs "val3") 0;
  returns (value_of (lookup_elem m (bs "1"))) (Ok (Some (bs "val1")));;
  m ← state_of (lookup_elem m (bs "1"));
  m ← update_elem m (bs "4") (bs "val4") 0;
  returns (value_of (lookup_elem m (bs "2"))) (Ok None);;
  m ← state_of (lookup_elem m (bs "2"));
  returns (value_of (lookup_and_delete_elem m (bs "1") [0; 0; 0; 0])) (Ok (bs "val1"));;
  m ← state_of (lookup_and_delete_elem m (bs "1") [0; 0; 0; 0]);
  returns (value_of (lookup_elem m (bs "1"))) (Ok None);;
  m ← state_of (lookup_elem m (bs "1"));
  returns (get_next_key m None [0]) (Ok (bs "4"));;
  returns (get_next_key m (Some (bs "4")) [0]) (Ok (bs "3"));;
  returns (get_next_key m (Some (bs "3")) [0]) (Err ENOENT);;
  returns (get_next_key m (Some (bs "9")) [0]) (Ok (bs "4"));;
  returns (value_of (for_each_elem () m callback () 0)) (Ok 2);;
  returns (value_of (for_each_elem () m callback_fail () 0)) (Ok 1);;
  returns (value_of (for_each_elem () m callback () 1)) (Err EINVAL);;
  returns (value_of (lookup_and_delete_elem m (bs "3") [0; 0; 0])) (Err EINVAL);;
  returns (get_next_key m (Some (bs "3")) []) (Err EINVAL);;
  returns (outcome_of (delete_elem m (bs "1"))) (Ok ()).

Definition test_lru_map {C} `{LruCache C} : BpfResult () :=
  m ← LruMap_new (C := C) (meta 1 4 3); test_common_lru m.
Definition test_per_cpu_lru_map {C} `{LruCache C} : BpfResult () :=
  let P := DummyPerCpuCreator in
  m ← per_cpu_new (LruMap_new (C := C) (meta 1 4 3));
  test_common_lru (H0 := PerCpuLruMap_ops 0) m.
Definition test_create_lru_fail {C} `{LruCache C} : BpfResult () :=
  returns (outcome_of (LruMap_new (C := C) (meta 0 0 0))) (Err EINVAL);;
  returns (outcome_of (per_cpu_new (H := DummyPerCpuCreator) (LruMap_new (C := C) (meta 0 0 0)))) (Err EINVAL);;
  returns (outcome_of (per_cpu_new (H := DummyPerCpuCreatorFalse) (LruMap_new (C := C) (meta 4 4 3)))) (Err EINVAL).
End tests.

(** Every test passes. *)
Lemma map_tests_pass : let _ : BuildMode := true in
  Forall (λ t, t = Ok ()) [
    test_perf_event_array_validation; test_queue_validation; test_hash_map_flags_and_next_key;
    test_lru_map (C := ListLru); test_per_cpu_lru_map (C := ListLru); test_create_lru_fail (C := ListLru) ].
Proof. intros b. repeat (apply Forall_cons; split; [vm_compute; reflexivity|]). by apply Forall_nil. Qed.
