(* ===== verification/DdebugTest.v ===== *)
(** The unit tests of ddebug/src/tests.rs, run on the model: the control file
    and the four call sites of the tests. *)
From S2P Require Import Prelude Text StaticKey Ddebug.

(** The sites the tests define, in the order of the file; [pr_debug!] gives
    no function name, [pr_debug_fn!] the named one. *)
Definition test_site (function : string) (line : Z) (format : string) : DebugSite bool :=
  DebugSite_new false (bs "ddebug::tests") (bs "ddebug/src/tests.rs") line (bs function) (bs format).
Definition test_sites : list (DebugSite bool) := [
  test_site EmptyString 119 "demo value={}";
  test_site "prefix_debug" 124 "prefix value={}";
  test_site EmptyString 129 "line filtered";
  test_site "function_debug" 135 "func filtered value={}" ].

Section tests.
Context `{BuildMode}.

Definition assert (b : bool) : res Error () := if b then Ok () else Panic.
(** A string constant in double quotes. *)
Definition dq (x : string) : text := [34] ++ bs x ++ [34].

(** [init_for_tests]. *)
Definition init_for_tests : res Error (ControlFile bool) :=
  '(_, ctl) ← write (dynamic_debug_init test_sites) (bs "=_"); Ok ctl.

(** The function whose site has this format, called: what it emits. *)
Definition call (ctl : ControlFile bool) (format : string) (args : string) : list text :=
  sites ctl ≫= λ s, if bool_decide (Ddebug.format s = bs format) then option_list (pr_debug 4242 s (bs args)) else [].
Definition demo_debug ctl args := call ctl "demo value={}" args.
Definition prefix_debug ctl args := call ctl "prefix value={}" args.
Definition line_debug ctl := call ctl "line filtered" "line filtered".
Definition function_debug ctl args := call ctl "func filtered value={}" args.
Definition has (l : text) (x : string) : bool := contains l (bs x).
Definition any_has (lines : list text) (x : string) : bool := existsb (λ l, has l x) lines.
Definition one_line (lines : list text) (xs : list string) : res Error () :=
  match lines with [l] => assert (forallb (has l) xs) | _ => Panic end.

Definition parser_handles_quotes_and_flags : res Error () :=
  commands ← parse_commands (bs "file src/tests.rs func function_debug line 10-12 format " ++ dq "alloc page" ++
                             bs " +p; module ddebug::tests =ptmfsl");
  match commands with
  | [c0; c1] =>
      assert (match kind (operation c0) with Add => true | _ => false end);;
      assert (bool_decide (Some (fmask (operation c0)) = flag_mask_for (ch "p")));;
      assert (match kind (operation c1) with Replace => true | _ => false end)
  | _ => Panic
  end.

Definition format_query_enables_and_disables_printing : res Error () :=
  ctl ← init_for_tests;
  '(count, ctl) ← write ctl (bs "format " ++ dq "demo value=" ++ bs " +p");
  assert (1 <=? count);;
  one_line (demo_debug ctl "demo value=7") ["demo value=7"]%string;;
  '(_, ctl) ← write ctl (bs "format " ++ dq "demo value=" ++ bs " -p");
  assert (bool_decide (demo_debug ctl "demo value=9" = [])).

Definition selectors_and_prefix_flags_work : res Error () :=
  ctl ← init_for_tests;
  assert (bool_decide (line_debug ctl = []));;
  '(matches, ctl) ← write ctl (bs "module ddebug::tests file src/tests.rs line 129 format " ++ dq "line filtered" ++ bs " =ptmsl");
  assert (1 <=? matches);;
  assert (has (read ctl) "line filtered");;
  assert (has (read ctl) "=ptmsl");;
  '(_, ctl) ← write ctl (bs "format " ++ dq "prefix value=" ++ bs " =ptmfsl");
  one_line (prefix_debug ctl "prefix value=11")
    ["tid=4242"; "[ddebug::tests]"; "prefix_debug"; "src/tests.rs"; "prefix value=11"]%string.

Definition func_selector_matches_named_callsites : res Error () :=
  ctl ← init_for_tests;
  '(_, ctl) ← write ctl (bs "func function_debug +p");
  one_line (function_debug ctl "func filtered value=5") ["func filtered value=5"]%string;;
  assert (has (read ctl) "[ddebug::tests]function_debug =p").

Definition wildcard_func_selector_matches_only_named_sites : res Error () :=
  ctl ← init_for_tests;
  '(matches, ctl) ← write ctl (bs "func *debug +p");
  assert (2 <=? matches);;
  let lines := demo_debug ctl "demo value=1" ++ prefix_debug ctl "prefix value=2" ++ function_debug ctl "func filtered value=3" in
  assert (length lines =? 2)%nat;;
  assert (any_has lines "prefix value=2");;
  assert (any_has lines "func filtered value=3");;
  assert (negb (any_has lines "demo value=1")).

Definition wildcard_file_and_format_selectors_work_together : res Error () :=
  ctl ← init_for_tests;
  '(matches, ctl) ← write ctl (bs "file *src/tests.rs format " ++ dq "demo value=*" ++ bs " +p");
  assert (1 <=? matches);;
  one_line (demo_debug ctl "demo value=7" ++ prefix_debug ctl "prefix value=8") ["demo value=7"]%string.

Definition module_suffix_question_mark_and_multi_command_queries_work : res Error () :=
  ctl ← init_for_tests;
  '(matches, ctl) ← write ctl (bs "module tests func ?refix_debug +p; format " ++ dq "func filtered*" ++ bs " +p");
  assert (2 <=? matches);;
  let lines := demo_debug ctl "demo value=10" ++ prefix_debug ctl "prefix value=11" ++ function_debug ctl "func filtered value=12" in
  assert (length lines =? 2)%nat;;
  assert (any_has lines "prefix value=11");;
  assert (any_has lines "func filtered value=12");;
  assert (negb (any_has lines "demo value=10")).
End tests.

Lemma ddebug_tests_pass : let _ : BuildMode := true in
  Forall (λ t, t = Ok ()) [
    parser_handles_quotes_and_flags; format_query_enables_and_disables_printing; selectors_and_prefix_flags_work;
    func_selector_matches_named_callsites; wildcard_func_selector_matches_only_named_sites;
    wildcard_file_and_format_selectors_work_together; module_suffix_question_mark_and_multi_command_queries_work ].
Proof. intros b. repeat constructor. Qed.
