(* ===== verification/KsymTest.v ===== *)
(** The self test of ksym/src/bin/gen_ksym.rs ([simple_test]), run on the
    model: the generator and the reader together on a table with aliases,
    duplicate names and mangled names. *)
From S2P Require Import Prelude Text Ksym KsymGen.

(** [assert!] and [assert_eq!]. *)
Definition assert (b : bool) : res () () := if b then Ok () else Panic.

Definition test_lines : list text := bs <$> [
  "        0000000000001000 T do_mkdir";
  "        0000000000001300 T alias_do_fork";
  "        0000000000001300 T do_fork";
  "        0000000000001300 T do_fork_2";
  "        0000000000001200 T cpu_startup_entry";
  "        0000000000001400 T cpu_startup_entry";
  "        0000000000001500 T _ZN6axtask4task9TaskInner4name17h96bec46d2d8f1ab4E";
  "        0000000000001510 T _RNvXs6_NtNtCskdqSPfBY5oR_10kbpf_basic3map5arrayNtB5_17PerfEventArrayMapNtB7_15BpfMapCommonOps13for_each_elem";
  "    " ]%string.

(** [base] is the address of the blob, [iter_order] the order in which the
    hash map of the generator is iterated; the result is the final dump. *)
Definition simple_test `{BuildMode} (iter_order : gmap str nat → list (str * nat)) (base : Z) : res () str :=
  symbols ← read_map test_lines;
  blob ← compress_symbols iter_order KallsymsBlob_new symbols;
  let binary_blob := to_blob blob in
  total ← map_err (λ _, ()) (check_total_bytes binary_blob);
  assert (total =? Z.of_nat (length binary_blob));;
  assert (match from_blob base (binary_blob ++ [0]) 0x1000 0x1600 with
          | Err e => bool_decide (e = bs "The total bytes in the blob does not match the actual blob length")
          | _ => false end);;
  mapped ← map_err (λ _, ()) (from_blob base binary_blob 0x1000 0x1600);
  let at_addr a r := x ← lookup_address mapped a; assert (bool_decide (x = r)) in
  let named n r := x ← lookup_name mapped (bs n); assert (bool_decide (x = r)) in
  at_addr 100 None;;
  at_addr 0x1200 (Some (bs "cpu_startup_entry", 0x100, 0, ch "T"));;
  at_addr 0x1300 (Some (bs "alias_do_fork", 0x100, 0, ch "T"));;
  at_addr 0x1250 (Some (bs "cpu_startup_entry", 0x100, 0x50, ch "T"));;
  at_addr 0x1450 (Some (bs "cpu_startup_entry", 0x100, 0x50, ch "T"));;
  named "cpu_startup_entry"%string (Some 0x1200);;
  named "do_fork_2"%string (Some 0x1300);;
  o ← lookup_names mapped (bs "do_fork_2") false;
  name_idx ← unwrap (fst <$> o);
  assert (bool_decide (lookup_name_by_idx mapped name_idx = Some 0x1300));;
  assert (bool_decide (lookup_name_by_idx mapped (2 ^ 64 - 1) = None));;
  named "_ZN6axtask4task9TaskInner4name17h96bec46d2d8f1ab4E"%string (Some 0x1500);;
  named "_RNvXs6_NtNtCsk9UQNouxT1Z_10kbpf_basic3map5arrayNtB5_17PerfEventArrayMapNtB7_15BpfMapCommonOps13for_each_elem"%string None;;
  dump_all_symbols mapped.

(** Every assertion of the test holds of the model, and the dump has the
    symbols in the order of their addresses and names. *)
Definition dump_line (l : string) : str := bs l ++ [10].
Lemma simple_test_passes :
  let _ : BuildMode := true in
  simple_test map_to_list 65536 = Ok (concat (dump_line <$> [
    "0000000000001000 T do_mkdir"; "0000000000001200 T cpu_startup_entry"; "0000000000001300 T alias_do_fork";
    "0000000000001300 T do_fork"; "0000000000001300 T do_fork_2"; "0000000000001400 T cpu_startup_entry";
    "0000000000001500 T _ZN6axtask4task9TaskInner4name17h96bec46d2d8f1ab4E";
    "0000000000001510 T _RNvXs6_NtNtCskdqSPfBY5oR_10kbpf_basic3map5arrayNtB5_17PerfEventArrayMapNtB7_15BpfMapCommonOps13for_each_elem"]%string)).
Proof. vm_compute. reflexivity. Qed.
