(* ===== verification/ExampleTest.v ===== *)
(** The examples as programs on the model: ktracepoint/examples/usage.rs (two
    tracepoints under a filter, read from the pipe), the command-line front
    end of tp-lexer on its default input, and ddebug/examples/ddebug.rs. *)
From stdpp Require Import functions.
From S2P Require Import Prelude Text IntLit Lexer Parser Eval StaticKey Ddebug TracePoint TracePipe TraceFs TraceProps TraceClaims TraceEvent TraceEventProps TraceEventClaims TraceReader FilterTest.

(** ** Two tracepoints *)
Section usage.
Context `{BuildMode} `{Render} (fmt_expr : str).

Definition u32_field (name : string) : FieldDecl :=
  {| fl_name := bs name; fl_text := bs "u32"; fl_type_name := bs "u32"; fl_ty := RInt (TPrim U32); fl_size := 4; fl_align := 4 |}.
Definition pad_field : FieldDecl :=
  {| fl_name := bs "pad"; fl_text := bs "[u8; 4]"; fl_type_name := bs "[u8; 4]"; fl_ty := RArray (RInt (TPrim U8)) 4;
     fl_size := 4; fl_align := 1 |}.
Definition u32_at (entry : str) (off : nat) : Z := le_dec (take 4 (drop off entry)).
Definition hello (a b : Z) : str := bs "Hello from tracepoint! a=" ++ show_u 10 a ++ bs ", b=" ++ show_u 10 b.

(** The arguments of both events: [a], [b], and the address of the [TestS]
    that TEST is given. *)
Definition Args : Type := Z * Z * Z.
Definition TEST : EventDef Args :=
  let fields := [u32_field "a"; pad_field; u32_field "b"] in
  {| ev_tp := event_tracepoint 10 11 (bs "TEST") (bs "tracepoint_test") fields (λ e, hello (u32_at e 0) (u32_at e 8)) fmt_expr;
     ev_default := 100; ev_fields := fields;
     ev_assign '(a, b, x) := [le_enc 4 a; [0; 0; 0; 0]; le_enc 4 b];
     ev_args '(a, b, x) := [AInt a; APtr x] |}.
Definition TEST2 : EventDef Args :=
  let fields := [u32_field "a"; u32_field "b"] in
  {| ev_tp := event_tracepoint 20 21 (bs "TEST2") (bs "tracepoint_test") fields (λ e, hello (u32_at e 0) (u32_at e 4)) fmt_expr;
     ev_default := 200; ev_fields := fields;
     ev_assign '(a, b, x) := [le_enc 4 a; le_enc 4 b];
     ev_args '(a, b, x) := [AInt a; AInt b] |}.

(** [test_trace], with the methods of [Kops]: process 255 on CPU 8. *)
Definition test_trace (time a b : Z) : list (Hit Args) :=
  (λ ev, {| hit_event := ev; hit_args := (a, b, 4096); hit_pid := 255; hit_name := bs "test_process"; hit_cpu := 8;
            hit_time := time |}) <$> [TEST; TEST2].

Abbreviation States := (gmap Z (ExtTracePoint ())).
Definition perf_event_callback (st : Store bool) : Store bool * TraceCallbackType () :=
  let '(st, callback) := TraceEventFunc_new st 900 300 () in
  (set_perf_enable st callback true, Event {| arc_ptr := 901; arc_val := callback |}).
Definition raw_event_callback : TraceCallbackType () :=
  RawEvent {| arc_ptr := 902; arc_val := {| rf_func := 400; rf_data := () |} |}.

(** The loop over [EXT_TRACEPOINTS]: enable, register both, set the filter. *)
Fixpoint enable_all (perf : TraceCallbackType ()) (filter : str) (ids : list Z) (st : Store bool) (states : States) :
    res () (Store bool * States) :=
  match ids with
  | [] => Ok (st, states)
  | i :: ids =>
      ext_tp ← unwrap (states !! i);
      let '(st, ext_tp) := enable_write st ext_tp (ch "1") in
      let '(st, ext_tp) := register st ext_tp perf in
      let '(st, ext_tp) := register st ext_tp raw_event_callback in
      '(_, ext_tp, written) ← filter_write TraceFilterFile_new ext_tp filter;
      match written with
      | Ok _ => enable_all perf filter ids st (<[i := ext_tp]> states)
      | _ => Panic
      end
  end.

(** [main]: the records before and after the tracepoints are enabled. *)
Definition usage_main (filter : str) (before after : list (Hit Args)) : res () (list str * list str) :=
  let st := {| st_id _ := 0; st_key _ := false; st_perf _ := false |} in
  let section := [{| trace_point := ev_tp TEST; print_func := 100 |}; {| trace_point := ev_tp TEST2; print_func := 200 |}] in
  let s := (global_init_events () (λ m, tp_addr (trace_point m) + 1000) section st 0).2 in
  let st := is_store s in
  let ids := (λ e, id st (tracepoint e)) <$> ext_tps s in
  let states : States := list_to_map ((λ e, (id st (tracepoint e), e)) <$> ext_tps s) in
  let host : Host ListCmd := {| raw_pipe := TracePipeRaw_new 1024; cmdline_cache := TraceCmdLineCache_new 1024 |} in
  host ← do_hits st states (λ _, 0) before host;
  '(_, lines) ← print_trace_records (tp_map s) host;
  let '(st, perf) := perf_event_callback st in
  '(st, states) ← enable_all perf filter ids st states;
  host ← do_hits st states (λ _, 0) after host;
  '(_, lines') ← print_trace_records (tp_map s) host;
  Ok (lines, lines').
End usage.

(** Nothing before; then the calls the filter holds of, each at both events. *)
Definition usage_line (time name : string) (a b : string) : str :=
  bs "    test_process-255     [008] .....     0." ++ bs time ++ bs ": " ++ bs name ++
  bs "(Hello from tracepoint! a=" ++ bs a ++ bs ", b=" ++ bs b ++ bs ")" ++ newline.
Lemma usage_example : let _ : BuildMode := true in let _ : Render := λ _, [] in
  usage_main [] (bs "(a > 8 && a<=10) || b >5") (test_trace [] 1000 1 2 ++ test_trace [] 2000 3 4)
    (test_trace [] 3000 1 2 ++ test_trace [] 4000 9 2 ++ test_trace [] 5000 3 4 ++ test_trace [] 6000 10 4 ++ test_trace [] 7000 11 6) =
  Ok ([], [usage_line "000004" "TEST" "9" "2"; usage_line "000004" "TEST2" "9" "2";
           usage_line "000006" "TEST" "10" "4"; usage_line "000006" "TEST2" "10" "4";
           usage_line "000007" "TEST" "11" "6"; usage_line "000007" "TEST2" "11" "6"]).
Proof. vm_compute. reflexivity. Qed.

(** ** The filter on the command line *)
Section lexer.
Context `{BuildMode}.

Definition main_schema : Schema := [field "sig" (int U32) 0 4; field "comm" Bytes 4 16; field "flags" (int I32) 20 4].
(** The filter over a map of strings, then over the bytes of [Buf]. *)
Definition lexer_main (expr : str) : res () (bool * bool) :=
  compiled ← compile expr main_schema;
  let ctx := row [("sig", "12"); ("comm", "sh"); ("flags", "48")]%string in
  let buf := le_enc 4 17 ++ bs "sh" ++ replicate 14 0 ++ le_enc 4 16 in
  ok ← evaluate compiled ctx;
  ok' ← evaluate compiled {| buf := buf; bc_schema := main_schema |};
  Ok (ok, ok').
End lexer.
Lemma lexer_example : let _ : BuildMode := true in
  lexer_main (bs "((sig >= 10 && sig < 15) || sig == 17) && comm == sh") = Ok (true, true) ∧
  lexer_main (bs "sig < 15 && flags & 0x20 != 0") = Ok (true, false).
Proof. split; vm_compute; reflexivity. Qed.

(** ** Dynamic debug *)
Section ddebug.
Context `{BuildMode}.

Definition run_site (function : string) (line : Z) (format : string) : DebugSite bool :=
  DebugSite_new false (bs "ddebug") (bs "ddebug/examples/ddebug.rs") line (bs function) (bs format).
Definition run_sites : list (DebugSite bool) := [
  run_site EmptyString 86 "This is a fake run of the kernel code with dynamic debug.";
  run_site EmptyString 87 "The fake run value of x is: {}";
  run_site "fake_run" 88 "The function name is: {}" ].
(** [fake_run]: what its three sites emit. *)
Definition fake_run (ctl : ControlFile bool) : list text :=
  zip (sites ctl) ["This is a fake run of the kernel code with dynamic debug."; "The fake run value of x is: 42";
                   "The function name is: fake_run"]%string ≫= λ x, option_list (pr_debug 0 x.1 (bs x.2)).
Definition ddebug_main : res Error (list text * (Z * Z) * list text) :=
  let ctl := dynamic_debug_init run_sites in
  let before := fake_run ctl in
  '(n, ctl) ← Ddebug.write ctl (bs "func fake_run =pmfsl");
  '(n', ctl) ← Ddebug.write ctl (bs "format " ++ dq "fake run" ++ bs " =pmsl");
  Ok (before, (n, n'), fake_run ctl).
End ddebug.
Lemma ddebug_example : let _ : BuildMode := true in
  match ddebug_main with
  | Ok (before, matches, after) =>
      before = [] ∧ matches = (1, 2) ∧ Forall2 (λ l x, Text.contains l (bs x) = true) after
        ["This is a fake run of the kernel code with dynamic debug."; "x is: 42"; "fake_run"]%string
  | _ => False
  end.
Proof. vm_compute. repeat constructor. Qed.
